(* ===== verification/_CoqProject ===== *)
-Q . S2P
Prelude.v
Rounding.v
StateStore.v
MemoryStore.v
ConfigSchema.v
JsonText.v
RedisStore.v
RedisStoreTheorems.v
Errors.v
Ledger.v
Diff.v
DeployQueue.v
QueueInvariant.v
QueueTheorems.v
NodeLeases.v
ReplicaFaults.v
GatewayRouting.v
GatewayReplica.v
GatewayReplicaFacts.v
GatewayReplicaTheorems.v
DeployOptions.v
Worker.v
WorkerLogic.v
WorkerOrder.v
WorkerPlan.v
WorkerSafety.v
WorkerAttempts.v
WorkerTheorems.v
DownloadLeases.v
Liveness.v
ResponsesState.v
ResponsesLogs.v
ResponsesTheorems.v
Identity.v
ResponsesTerminal.v
McpPolicy.v
Egress.v
Tasks.v
ResponseObjects.v
ResponsesApi.v
Background.v
BackgroundTheorems.v
BackgroundEnds.v
Streaming.v
StreamingClient.v
StreamingLogic.v
StreamingReading.v
StreamingTheorems.v
ChatTranslation.v
ChatTheorems.v
ChatMessages.v
McpLoop.v
McpLogic.v
McpLoopTheorems.v
McpApprovals.v
Affinity.v
EgressTheorems.v
McpClient.v
McpClientTheorems.v
McpStreaming.v
GatewayStreams.v
GatewayStreamsTheorems.v
Transcripts.v
Preflight.v
PreflightVllm.v
PreflightLlama.v
GatewayTurns.v
GatewayTurnsTheorems.v
