(* ===== verification/Prelude.v ===== *)
(** * Modelship: a verified model of its control plane and its conversations

    Modelship serves models on a Ray cluster behind an OpenAI-compatible gateway. This development
    models, from the Python under [src/modelship], the code that keeps state and decides: how models
    get deployed and sized, how a gateway knows what it may serve and what it tells its clients, how
    conversations are stored, run and replayed, and how tool servers are called for a response. Ray,
    Serve, pydantic, the Redis server, the inference engines and the tool servers are outside: where the
    code relies on one, it is a parameter, a class or a world that answers calls, with what the code
    assumes of it as that class's laws or as a named hypothesis.

    ** The parts and how they meet

    - _State store_. [StateStore] is the contract of [state/base.py]: the calls every backend answers
      (an operation type indexed by its answer), and the promise to callers as a class over an abstract
      map with expiries. [MemoryStore] is [state/memory.py]: the store actor, the client that reaches it
      over Ray and may fail, and the instrumented wrapper of [state/__init__.py], each an instance of
      the contract. [RedisStore] is [state/redis.py]: the commands each operation sends, among those of
      other clients, to a server known by its documented commands. Everything that persists is written
      against the contract.
    - _Configuration_. [ConfigSchema] is [utils/config_schema.py] with the registry of
      [infer/sherpa_onnx/registry.py]: a model's checks in their order, and deployment names.
    - _Deploying_. A request goes to the deploy coordinator ([deploy/deploy_coordinator.py]): its queues,
      version locks, commits, cancels and rollbacks in [DeployQueue], its node leases (with
      [deploy/deploy_leases.py]) in [NodeLeases], its view of dying replicas in [ReplicaFaults].
      The coordinator starts a worker ([deploy/worker.py], with the submitting half of
      [deploy/strategy.py]): [Worker]. The worker acts on a diff: [Diff] ([deploy/diff.py]); the
      committed versions it compares with are [Ledger]'s ([deploy/ledger.py]). What a deployment asks
      of Ray is [DeployOptions] ([deploy/actor_options.py], [gateway_sizing.py], [request_router.py],
      parts of [capabilities.py], [config.py] and [utils/runtime_env.py]). Downloads on one node exclude
      each other through [DownloadLeases] ([utils/download_leases.py]).
    - _Sizing_. Before its engine starts, a replica asks [Preflight] ([preflight/base.py],
      [stable_diffusion_cpp.py]) what fits its node: [PreflightVllm] ([vllm.py], [_sliding_window.py],
      [_mla.py]) and [PreflightLlama] ([llama_cpp.py]).
    - _Gateways_ learn what they serve through [GatewayRouting] ([deploy/routing.py],
      [gateway_coordinator.py]); [GatewayReplica] is the model table of a replica ([openai/api.py]).
      [GatewayStreams] is what a loader's result becomes on its way to a client ([infer/model_deployment.py],
      [openai/protocol/error.py], parts of [openai/api.py]), with the error responses of [Errors];
      [GatewayTurns] has the routes of responses and compaction, and a WebSocket's turns; [Transcripts]
      ([openai/utils/audio.py]) the two audio routes that answer with text. Requests of one conversation
      go to one replica by their key: [Affinity] ([openai/utils/affinity.py]).
    - _Requests_. Who asks is [Identity] ([openai/auth.py]); whether a request is still wanted, or a
      background run still alive, is [Liveness] ([infer/infer_config.py], the registry of
      [openai/state/responses.py]).
    - _Conversations_. [ResponsesState] is the rest of [openai/state/responses.py]: records, logs and
      their branches, histories, stream buffers. [Tasks] are the coroutines over it: [ResponsesApi]
      ([openai/utils/responses.py]) resolves, loads, deletes and stores a response as it passes;
      [Background] runs one that outlives its request, and replays its events.
    - _Translation_. [ChatTranslation] ([openai/protocol/responses/adapter.py], [compaction_crypto.py]) turns
      a response request into a chat request, [ChatMessages] ([openai/utils/chat.py]) brings its messages
      to the shape that a backend takes, and [Streaming] ([openai/protocol/responses/streaming.py], the driver
      of [infer/base_infer.py]) turns the chat chunks of a loader into the events of a response.
      [JsonText] is the text of JSON, as [json.dumps] and [json.loads] have it.
    - _Tools_. [McpPolicy] is [openai/mcp/spec.py], [Egress] is [openai/mcp/egress.py], [ResponseObjects]
      has the envelopes and items of [openai/protocol/responses], with the schema of a response; [McpLoop] is [openai/mcp/loop.py], the loop
      that makes one response out of several loader turns and tool calls; [McpClient] is
      [openai/mcp/client.py], the connections it calls through.

    ** How the code is modelled

    - Exceptions are values ([res], of [exn]); JSON values keep Python's equality and truth; a dict is
      an association list in insertion order ([Dict]), or a [gmap] where the order is never observed.
    - An actor with one event loop ([DeployQueue], [NodeLeases], [DownloadLeases], [GatewayRouting],
      [McpClient]) is a state and a definition per stretch of code between two awaits; a list of labels
      is an interleaving, and theorems quantify over all of them.
    - A sequential program that talks to others ([Worker], [McpLoop]) is a state-and-error monad whose
      trace keeps every call and its answer, over any world that answers.
    - Callers that share a store ([ResponsesState]) are programs in a free monad of store calls, run
      alone ([run]) or interleaved call by call ([resume]); [Tasks] adds catching, other calls and yielding.
    - Clock readings are integers, in nanoseconds; numbers read as floats are exact rationals, rounded as
      Python's [round] rounds them ([Rounding]).

    ** What the theorems show

    - Stores: the memory store refines the abstract map, failures included ([MemoryStore]), and what the
      Redis client sends has the map's effect, however other clients' commands fall in between and
      connections are lost, with transactions and scans that end ([RedisStoreTheorems]); deploy versions read back as committed and merges
      have their specification ([Ledger]).
    - Deploys, over every interleaving ([QueueInvariant], [QueueTheorems]): no request is lost, a gateway
      runs one at a time, an accepted cancel never commits, a request reported as failed or cancelled has
      put nothing in the store and won't (where a store's call that raises has had no effect, and a dead
      worker's rollback runs to its end), routing numbers never repeat. Over every answer of its world, a worker calls in
      the order the coordinator relies on ([WorkerLogic], [WorkerOrder]), switches only to apps it saw
      running, deletes only what it may, and tries a bounded number of times ([WorkerPlan],
      [WorkerSafety], [WorkerAttempts], [WorkerTheorems]). The diff handles each wanted model once and
      retires none that stays ([Diff]).
    - Sizing: the reservation of a CPU deployment fits the memory that is free, a context length is the
      longest that fits ([PreflightVllm]), and a model that is loaded by llama.cpp on a CPU fits by what
      [fit-params] promises ([PreflightLlama]).
    - Gateways: a table lists exactly what can serve, a waiting replica misses no change, and a gateway
      counts as switched only when its replicas hold the table ([GatewayRouting]); replicas of a switched
      gateway have left the old applications, and a current one serves by the published table
      ([GatewayReplicaFacts], [GatewayReplicaTheorems]). A server error reaches no client but as its
      request's id, and a response's frames read back ([GatewayStreamsTheorems]); a conversation over a
      WebSocket continues from its cache, and a failed turn is told ([GatewayTurnsTheorems]).
      Transcripts read back from their subtitles ([Transcripts]).
    - Leases: one downloader per node and model, across restarts ([DownloadLeases]); a node's deploy lease
      leaves its holder only where it is freed, by a check that has cause to or by a failed write of its own,
      and stored leases survive a restart ([NodeLeases]).
    - Conversations, under concurrent callers ([ResponsesLogs], [ResponsesTheorems], [ResponsesTerminal],
      [Identity], [Affinity]): what a history read returns stays, a stored turn reads back after its
      parent's, walks end, a background response takes one terminal state, identities never touch each
      other's keys, a conversation keeps its replica. A background run leaves its response ended, whatever
      fails, or has been given a result that can't be stored ([BackgroundEnds]), and its events are replayed in order, each once ([BackgroundTheorems]).
    - Translation: a client that follows the stream of a response ends up with the items of its last
      envelope, the same as without streaming ([StreamingClient], [StreamingLogic], [StreamingReading],
      [StreamingTheorems]); the messages of a request stand where strict templates want them, and an
      answer comes back as the messages it was made of ([ChatTheorems]).
    - Tools ([McpLogic], [McpLoopTheorems], [McpApprovals], [McpStreaming], [EgressTheorems]): a response's
      events are one numbered stream with one end and at most ten turns, and every tool call is one
      that the request's policies allow, to a server that passed the egress policy. Every request to a
      connection is answered, and a call is repeated only over a new session ([McpClientTheorems]).
    - Where the code does not do what it means to, the theorem states what it does: a failed rollback can
      misreport a commit ([failed_rollback_misreports]), a repeated grant can be lost
      ([repeated_grant_can_be_lost]), a lost reply of the store misreports a commit
      ([lost_reply_misreports]) and a conversation's turn ([lost_reply_is_refused]), a response without an id
      stays waiting ([unusable_result_leaves_waiting]), a call without a name can't be continued
      ([nameless_call_is_refused]), an empty model name is never parsed back ([empty_name_unparsed]),
      approvals are acted on again in later turns ([old_approvals_run_again]), a malformed approval
      policy can pass the request's checks ([malformed_policy_accepted]), a summarization request repeats
      system messages ([summarization_repeats_system]), a tailer misses what was appended since its last
      poll ([tail_skips_events]), text after a tool call breaks a turn ([late_text_breaks_the_turn]), the
      block of metadata endpoints can be passed ([metadata_block_bypassed]), and an unreadable URL breaks
      the tool loop ([unreadable_urls_escape]).

    ** Bounds and fuel

    [Worker]'s loops take fuel because its world may keep it waiting for ever; a run out of fuel is one
    that is still under way ([Stuck]), never a result, and what a safety theorem says holds for every
    amount. A walk over conversation logs ([entries_from]) has one round per turn of depth, which
    [walk_ends] shows to be enough. [McpLoop.turns] has [DEFAULT_TURN_CAP] rounds, as the code has.
    Reading JSON has twice the text's length and two, reading a request's items has [DEPTH] levels of
    compacted conversations ([depth_enough]), a Redis transaction has one attempt more than other clients
    interfere and connections are lost, and a scan one step more than the server has left ([transaction_ends]). A WebSocket's cache keeps sixteen turns, as the code does.

    ** What is not modelled

    Starting Ray and Serve, sockets and processes, downloads, the choice of a model's files
    ([utils/sources/hf.py]), probing GPUs, the command line, and the inference loaders, with the images,
    speech and embeddings routes that only call them, are I/O or glue to code that is not here. Metrics and
    logging are left out of every part. Reading a request's fields is pydantic's, hashing, encryption and
    a float's text are parameters, and text is ASCII.

    This file is what the others share: errors, dictionaries, JSON values, text, sorting. *)

From Stdlib Require Export Ascii.
From stdpp Require Export base tactics option list strings gmap sets relations sorting pretty.
From Stdlib Require Export ZArith Lia.
From Stdlib Require QArith_base.

Notation Q := QArith_base.Q.
Notation Qeq_bool := QArith_base.Qeq_bool.
Notation Qle_bool := QArith_base.Qle_bool.
Notation inject_Z := QArith_base.inject_Z.
From stdpp Require Import options.

#[export] Set Default Goal Selector "1".

(** ** Errors

    Python exceptions, as values. The constructors are the exception classes the modelled
    code raises or catches; a message is kept where the code builds one. *)

(** [ErrorResponse]: its [error]'s fields, and the HTTP status it is answered with. *)
Record ErrorResponse : Type := mkError {
  err_message : string;
  err_type : string;
  err_param : option string;
  err_code : option string;
  http_status : Z;
}.

#[export] Instance error_eq_dec : EqDecision ErrorResponse.
Proof. solve_decision. Defined.

Inductive exn : Type :=
| ValueError (msg : string)
| TypeError (msg : string)
| KeyError (msg : string)
| AssertionError
| FileNotFoundError (msg : string)
| RuntimeError (msg : string)
| StateStoreUnavailableError
| NotImplementedError (msg : string)
| HTTPException (status_code : Z) (detail : string)
| ResponsesApiError (err : ErrorResponse)
| RayTaskError (cause : exn) (text : string)
| CancelledError
| OtherError (msg : string).

#[export] Instance exn_eq_dec : EqDecision exn.
Proof. solve_decision. Defined.

(** [str(e)]; [RayTaskError]'s and [OtherError]'s texts start with their class. *)
Definition exn_str (e : exn) : string :=
  match e with
  | ValueError m | TypeError m | FileNotFoundError m | RuntimeError m | NotImplementedError m | RayTaskError _ m
  | OtherError m => m
  | KeyError m => "'" +:+ m +:+ "'"
  | AssertionError | StateStoreUnavailableError | CancelledError => ""
  | HTTPException n m => pretty n +:+ ": " +:+ m
  | ResponsesApiError err => pretty (http_status err) +:+ ": " +:+ err_message err
  end.

(** [res A]: a value returned, or an exception raised. *)
Inductive res (A : Type) : Type :=
| Ok (a : A)
| Err (e : exn).
Arguments Ok {A} a.
Arguments Err {A} e.

#[export] Instance res_eq_dec `{EqDecision A} : EqDecision (res A).
Proof. solve_decision. Defined.

#[export] Instance res_ret : MRet res := @Ok.
#[export] Instance res_bind : MBind res := λ A B f m,
  match m with Ok a => f a | Err e => Err e end.
#[export] Instance res_fmap : FMap res := λ A B f m,
  match m with Ok a => Ok (f a) | Err e => Err e end.

Definition ok_or {A} (d : A) (r : res A) : A := if r is Ok a then a else d.

(** [raise_if b e]: the guard [if b: raise e]. *)
Definition raise_if (b : bool) (e : exn) : res unit := if b then Err e else Ok tt.

Lemma res_bind_ok {A B} (m : res A) (f : A → res B) b :
  m ≫= f = Ok b ↔ ∃ a, m = Ok a ∧ f a = Ok b.
Proof. destruct m; naive_solver. Qed.

Lemma raise_if_ok b e u : raise_if b e = Ok u ↔ b = false.
Proof. destruct b, u; naive_solver. Qed.

(** A [for] loop that runs a fallible body over a list, stopping at the first error. *)
Fixpoint res_mapM {A B} (f : A → res B) (l : list A) : res (list B) :=
  match l with
  | [] => Ok []
  | x :: l => y ← f x; ys ← res_mapM f l; mret (y :: ys)
  end.

Lemma res_mapM_ok {A B} (f : A → res B) l k :
  res_mapM f l = Ok k ↔ Forall2 (λ x y, f x = Ok y) l k.
Proof.
  revert k. induction l as [|x l IH]; intros k; simpl.
  - split; [intros [= <-]; constructor | by inversion 1].
  - rewrite res_bind_ok. setoid_rewrite res_bind_ok. split.
    + intros (y & Hy & ys & Hys & [= <-]). constructor; [done|]. by apply IH.
    + inversion 1; subst. eexists; split; [done|]. eexists; split; [by apply IH|done].
Qed.

(** ** Python dictionaries

    A [dict] with string keys keeps its insertion order: assigning to a present key keeps its
    place, a new key goes last. It is an association list with these operations; where the
    order of a dict is never observed, [gmap] is used instead. *)

Notation dict V := (list (string * V)).

Module Dict.
Section dict.
Context {V : Type}.
Implicit Types (k : string) (v : V) (d : dict V).

(** [d.get(k)] *)
Fixpoint get k d : option V :=
  match d with
  | [] => None
  | (k', v) :: d => if decide (k = k') then Some v else get k d
  end.

(** [d[k] = v] *)
Fixpoint set k v d : dict V :=
  match d with
  | [] => [(k, v)]
  | (k', v') :: d => if decide (k = k') then (k', v) :: d else (k', v') :: set k v d
  end.

(** [del d[k]], [d.pop(k, None)] *)
Definition pop k d : dict V := filter (λ kv, kv.1 ≠ k) d.

(** [{**d, **d'}] and [d.update(d')] *)
Definition update d d' : dict V := foldl (λ acc kv, set kv.1 kv.2 acc) d d'.

(** [{k: v for k, v in l}] *)
Definition of_list (l : list (string * V)) : dict V := update [] l.

Definition mem k d : bool := if get k d is Some _ then true else false.

Definition keys d : list string := d.*1.
Definition values d : list V := d.*2.

Lemma get_set k k' v d : get k (set k' v d) = if decide (k = k') then Some v else get k d.
Proof.
  induction d as [|[k0 v0] d IH]; simpl; repeat case_decide; simpl; repeat case_decide;
    simplify_eq/=; auto.
Qed.

Lemma get_set_eq k v d : get k (set k v d) = Some v.
Proof. rewrite get_set. by case_decide. Qed.

Lemma get_set_ne k k' v d : k ≠ k' → get k (set k' v d) = get k d.
Proof. rewrite get_set. by case_decide. Qed.

Lemma get_pop k k' d : get k (pop k' d) = if decide (k = k') then None else get k d.
Proof.
  unfold pop. induction d as [|[k0 v0] d IH]; [simpl; by case_decide|].
  rewrite filter_cons. repeat case_decide; simpl in *; repeat case_decide;
    simplify_eq/=; auto.
Qed.

Lemma get_pop_eq k d : get k (pop k d) = None.
Proof. rewrite get_pop. by case_decide. Qed.

Lemma get_pop_ne k k' d : k ≠ k' → get k (pop k' d) = get k d.
Proof. rewrite get_pop. by case_decide. Qed.

Lemma get_Some_elem k v d : get k d = Some v → (k, v) ∈ d.
Proof.
  induction d as [|[k0 v0] d IH]; simpl; [done|]. case_decide; intros.
  - simplify_eq. constructor.
  - constructor. auto.
Qed.

Lemma get_None k d : get k d = None ↔ k ∉ keys d.
Proof.
  induction d as [|[k0 v0] d IH]; simpl; [set_solver|]. case_decide; set_solver.
Qed.

Lemma get_is_Some k d : is_Some (get k d) ↔ k ∈ keys d.
Proof.
  destruct (get k d) eqn:E.
  - split; [intros _|by eauto]. destruct (decide (k ∈ keys d)) as [|H]; [done|].
    apply get_None in H. congruence.
  - apply get_None in E. split; [intros [? ?]; done|done].
Qed.

Lemma elem_get k v d : NoDup (keys d) → (k, v) ∈ d → get k d = Some v.
Proof.
  induction d as [|[k0 v0] d IH]; simpl; [by rewrite elem_of_nil|].
  intros [Hk Hd]%NoDup_cons [?|Hin]%elem_of_cons; simplify_eq; case_decide; auto; [done|].
  subst. destruct Hk. apply list_elem_of_fmap. by exists (k0, v).
Qed.

Lemma elem_get_iff k v d : NoDup (keys d) → (k, v) ∈ d ↔ get k d = Some v.
Proof. split; [by apply elem_get | apply get_Some_elem]. Qed.

Lemma elem_keys_set k k' v d : k ∈ keys (set k' v d) ↔ k = k' ∨ k ∈ keys d.
Proof.
  induction d as [|[k0 v0] d IH]; simpl; [set_solver|]. case_decide; simpl; set_solver.
Qed.

Lemma keys_set_new k v d : k ∉ keys d → set k v d = d ++ [(k, v)].
Proof.
  induction d as [|[k0 v0] d IH]; simpl; [done|]. intros H.
  rewrite decide_False by set_solver. f_equal. apply IH. set_solver.
Qed.

Lemma keys_set_old k v d : k ∈ keys d → keys (set k v d) = keys d.
Proof.
  induction d as [|[k0 v0] d IH]; simpl; [set_solver|]. case_decide; simpl; [done|].
  intros [?|?]%elem_of_cons; [by subst|]. by rewrite IH.
Qed.

Lemma NoDup_keys_set k v d : NoDup (keys d) → NoDup (keys (set k v d)).
Proof.
  induction d as [|[k0 v0] d IH]; simpl; [intros; apply NoDup_singleton|].
  intros [??]%NoDup_cons. case_decide; simpl; [by constructor|].
  constructor; [|auto]. rewrite elem_keys_set. naive_solver.
Qed.

Lemma keys_pop k d : keys (pop k d) = filter (λ k', k' ≠ k) (keys d).
Proof.
  induction d as [|[k0 v0] d IH]; [done|]. unfold pop in *. simpl keys.
  rewrite !filter_cons. simpl. case_decide; [|done]. simpl. by f_equal.
Qed.

Lemma NoDup_keys_pop k d : NoDup (keys d) → NoDup (keys (pop k d)).
Proof. rewrite keys_pop. intros. by apply NoDup_filter. Qed.

Lemma elem_keys_pop k k' d : k ∈ keys (pop k' d) ↔ k ≠ k' ∧ k ∈ keys d.
Proof. rewrite keys_pop, list_elem_of_filter. naive_solver. Qed.

Lemma pop_notin k d : k ∉ keys d → pop k d = d.
Proof.
  unfold pop. induction d as [|[k0 v0] d IH]; [done|]. simpl. intros H.
  rewrite filter_cons. simpl. rewrite decide_True by set_solver. f_equal. apply IH. set_solver.
Qed.

Lemma NoDup_keys_update d d' : NoDup (keys d) → NoDup (keys (update d d')).
Proof. revert d. induction d' as [|[k v] d' IH]; simpl; auto using NoDup_keys_set. Qed.

Lemma NoDup_keys_of_list l : NoDup (keys (of_list l)).
Proof. apply NoDup_keys_update. constructor. Qed.

Lemma elem_keys_update k d d' : k ∈ keys (update d d') ↔ k ∈ keys d ∨ k ∈ keys d'.
Proof.
  revert d. induction d' as [|[k' v] d' IH]; intros d; simpl; [set_solver|].
  rewrite IH, elem_keys_set. set_solver.
Qed.

Lemma get_update_notin k d d' : k ∉ keys d' → get k (update d d') = get k d.
Proof.
  revert d. induction d' as [|[k' v] d' IH]; intros d; simpl; [done|]. intros H.
  rewrite IH, get_set_ne; set_solver.
Qed.

Lemma get_update_in k d d' :
  NoDup (keys d') → k ∈ keys d' → get k (update d d') = get k d'.
Proof.
  revert d. induction d' as [|[k' v] d' IH]; intros d; simpl; [set_solver|].
  intros [Hk' ?]%NoDup_cons Hk. case_decide.
  - subst. rewrite get_update_notin by done. apply get_set_eq.
  - apply IH; set_solver.
Qed.

Lemma elem_keys_of_list k l : k ∈ keys (of_list l) ↔ k ∈ keys l.
Proof. unfold of_list. rewrite elem_keys_update. set_solver. Qed.

Lemma elem_set kv k v d : kv ∈ set k v d → kv = (k, v) ∨ kv ∈ d.
Proof.
  induction d as [|[k0 v0] d IH]; cbn; [rewrite list_elem_of_singleton; auto|].
  case_decide as E; rewrite !elem_of_cons; [subst|]; intros Hin; destruct Hin as [->|Hin]; auto.
  apply IH in Hin as [|]; auto.
Qed.

Lemma elem_of_list_sub kv l : kv ∈ of_list l → kv ∈ l.
Proof.
  unfold of_list, update. cut (∀ d, kv ∈ foldl (λ acc kv, set kv.1 kv.2 acc) d l → kv ∈ d ∨ kv ∈ l).
  { intros Hc Hin. destruct (Hc [] Hin) as [H|]; [by apply elem_of_nil in H|done]. }
  induction l as [|[k v] l IH]; intros d; cbn [foldl]; [auto|]. intros [Hin|Hin]%IH; [|by right; right].
  destruct (elem_set _ _ _ _ Hin) as [->|]; [right; constructor|by left].
Qed.

Lemma of_list_NoDup l : NoDup (keys l) → of_list l = l.
Proof.
  unfold of_list, update. intros Hl.
  cut (∀ acc, NoDup (keys (acc ++ l)) → foldl (λ acc kv, set kv.1 kv.2 acc) acc l = acc ++ l).
  { intros H. by apply (H []). }
  clear Hl. induction l as [|[k v] l IH]; intros acc Hl; simpl; [by rewrite app_nil_r|].
  rewrite keys_set_new.
  - rewrite IH; rewrite <-app_assoc; done.
  - unfold keys in *. rewrite fmap_app in Hl. simpl in Hl.
    apply NoDup_app in Hl as (_ & Hl & _). intros ?. apply (Hl k); set_solver.
Qed.
End dict.
End Dict.

#[export] Hint Resolve Dict.NoDup_keys_set Dict.NoDup_keys_pop Dict.NoDup_keys_update
  Dict.NoDup_keys_of_list : pydict.
#[export] Hint Rewrite @Dict.get_set_eq @Dict.get_pop_eq : pydict.

(** ** JSON values

    The [dict]/[list] values the state store and the Responses API carry. A float is its exact
    rational value. *)

Inductive json : Type :=
| JNull
| JBool (b : bool)
| JInt (z : Z)
| JFloat (q : Q)
| JStr (s : string)
| JList (l : list json)
| JObj (d : dict json).

Module Json.
  (** Induction through the elements of lists and dicts. *)
  Section ind.
Context (P : json → Prop).
Hypotheses (Hnull : P JNull) (Hbool : ∀ b, P (JBool b)) (Hint : ∀ z, P (JInt z))
  (Hfloat : ∀ q, P (JFloat q)) (Hstr : ∀ s, P (JStr s))
  (Hlist : ∀ l, Forall P l → P (JList l))
  (Hobj : ∀ d, Forall P d.*2 → P (JObj d)).
Fixpoint rect_strong (j : json) : P j :=
  match j with
  | JNull => Hnull | JBool b => Hbool b | JInt z => Hint z | JFloat q => Hfloat q
  | JStr s => Hstr s
  | JList l => Hlist l ((fix go l : Forall P l :=
      match l with [] => Forall_nil_2 P | x :: l => Forall_cons_2 P x l (rect_strong x) (go l) end) l)
  | JObj d => Hobj d ((fix go (d : dict json) : Forall P d.*2 :=
      match d with
      | [] => Forall_nil_2 P
      | (k, x) :: d => Forall_cons_2 P x d.*2 (rect_strong x) (go d)
      end) d)
  end.
  End ind.

(** [a == b] in Python: a bool equals the integer it is, a float the integer of its value,
    and two dicts are equal whatever their order. *)
Fixpoint eqb (a b : json) : bool :=
  match a, b with
  | JNull, JNull => true
  | JBool x, JBool y => Bool.eqb x y
  | JBool x, JInt y => Z.b2z x =? y
  | JInt x, JBool y => x =? Z.b2z y
  | JInt x, JInt y => x =? y
  | JFloat x, JFloat y => Qeq_bool x y
  | JFloat x, JInt y => Qeq_bool x (inject_Z y)
  | JInt x, JFloat y => Qeq_bool (inject_Z x) y
  | JFloat x, JBool y => Qeq_bool x (inject_Z (Z.b2z y))
  | JBool x, JFloat y => Qeq_bool (inject_Z (Z.b2z x)) y
  | JStr x, JStr y => bool_decide (x = y)
  | JList l, JList k =>
      (fix go l k := match l, k with
        | [], [] => true
        | x :: l, y :: k => eqb x y && go l k
        | _, _ => false end) l k
  | JObj d, JObj e =>
      (length d =? length e)%nat &&
      (fix go (d : dict json) := match d with
        | [] => true
        | (k, x) :: d => (if Dict.get k e is Some y then eqb x y else false) && go d
        end) d
  | _, _ => false
  end%Z.

(** Every dict has distinct keys, as a Python dict has. *)
Fixpoint wf (j : json) : Prop :=
  match j with
  | JList l => (fix go l := match l with [] => True | x :: l => wf x ∧ go l end) l
  | JObj d => NoDup (Dict.keys d) ∧
      (fix go (d : dict json) := match d with [] => True | (_, x) :: d => wf x ∧ go d end) d
  | _ => True
  end.

Lemma eqb_refl j : wf j → eqb j j = true.
Proof.
  induction j using rect_strong; simpl; intros Hwf; auto.
  - by destruct b.
  - apply Z.eqb_refl.
  - by apply QArith_base.Qeq_bool_iff.
  - by apply bool_decide_eq_true.
  - induction H as [|x l Hx Hl IH]; [done|]. destruct Hwf as [? ?].
    rewrite Hx by done. simpl. auto.
  - rewrite Nat.eqb_refl. simpl. destruct Hwf as [Hnd Hwf].
    assert (∀ k x, (k, x) ∈ d → Dict.get k d = Some x) as Hget
      by (intros; by apply Dict.elem_get).
    match goal with |- ?go d = true => match type of Hwf with ?wfs d =>
      cut (∀ d', (∀ k x, (k, x) ∈ d' → Dict.get k d = Some x) →
                 Forall (λ j, wf j → eqb j j = true) d'.*2 → wfs d' → go d' = true)
    end end; [by auto|].
    clear. intros d'. induction d' as [|[k x] d' IH]; [done|]. intros Hget Heq [Hwx Hwd].
    simpl in Heq. apply Forall_cons in Heq as [Hx Hd].
    rewrite (Hget k x) by constructor. rewrite Hx by done. simpl.
    apply IH; [|done..]. intros. apply Hget. by constructor.
Qed.

(** [isinstance(v, dict)] and [d.get(k)]: [None] covers a missing key. *)
Definition field (k : string) (j : json) : option json :=
  if j is JObj d then Dict.get k d else None.

(** [bool(v)] *)
Definition truthy (j : json) : bool :=
  match j with
  | JNull => false | JBool b => b | JInt z => negb (z =? 0)%Z | JFloat q => negb (Qeq_bool q (inject_Z 0))
  | JStr s => negb (bool_decide (s = ""))
  | JList l => negb (bool_decide (length l = 0%nat))
  | JObj d => negb (bool_decide (length d = 0%nat))
  end.
End Json.

(** ** Strings *)

#[global] Arguments String.append : simpl nomatch.

Module Str.
(** [s.startswith(p)] *)
Definition startswith (s p : string) : bool := String.prefix p s.

(** [s.split(c)]: always at least one piece. *)
Fixpoint split (c : ascii) (s : string) : list string :=
  match s with
  | EmptyString => [""%string]
  | String a s =>
      if decide (a = c) then ""%string :: split c s
      else match split c s with
           | [] => [String a ""]
           | p :: ps => String a p :: ps
           end
  end.

(** [sep.join(l)] *)
Fixpoint join (sep : string) (l : list string) : string :=
  match l with
  | [] => ""
  | [x] => x
  | x :: l => x +:+ sep +:+ join sep l
  end.

Fixpoint mem (c : ascii) (s : string) : bool :=
  match s with EmptyString => false | String a s => bool_decide (a = c) || mem c s end.

Lemma app_assoc (a b c : string) : (a +:+ b) +:+ c = a +:+ (b +:+ c).
Proof. induction a as [|x a IH]; [done|]. simpl. by f_equal. Qed.

Lemma app_nil_r (a : string) : a +:+ "" = a.
Proof. induction a as [|x a IH]; [done|]. simpl. by f_equal. Qed.

Lemma app_inj (p a b : string) : p +:+ a = p +:+ b → a = b.
Proof. induction p as [|x p IH]; [done|]. simpl. intros [= ?]. auto. Qed.

Lemma startswith_iff s p : startswith s p = true ↔ ∃ r, s = p +:+ r.
Proof.
  unfold startswith. revert s. induction p as [|a p IH]; intros s; simpl.
  - split; [|by destruct s]. intros _. by exists s.
  - destruct s as [|b s]; simpl; [naive_solver|]. destruct (ascii_dec a b) as [->|].
    + rewrite IH. split; intros [r ?]; exists r; congruence.
    + split; [done|]. intros [r ?]. congruence.
Qed.

Lemma mem_app c a b : mem c (a +:+ b) = mem c a || mem c b.
Proof. induction a as [|x a IH]; [done|]. simpl. rewrite IH. by rewrite orb_assoc. Qed.

Lemma split_not_nil c s : split c s ≠ [].
Proof. destruct s; simpl; [done|]. case_decide; [done|]. by destruct (split c s). Qed.

Lemma split_no_sep c s : Forall (λ p, mem c p = false) (split c s).
Proof.
  induction s as [|a s IH]; simpl; [by repeat constructor|]. case_decide.
  - by constructor.
  - destruct (split c s) as [|p ps]; [by repeat constructor; simpl; rewrite bool_decide_false|].
    apply Forall_cons in IH as [? ?]. constructor; [|done]. simpl.
    by rewrite bool_decide_false.
Qed.

Lemma split_app_sep c p s : mem c p = false → split c (p +:+ String c s) = p :: split c s.
Proof.
  induction p as [|a p IH]; simpl; [by rewrite decide_True|]. intros Ha.
  apply orb_false_iff in Ha as [Ha Hp]. apply bool_decide_eq_false in Ha.
  rewrite decide_False by done. by rewrite IH.
Qed.

Lemma split_whole c p : mem c p = false → split c p = [p].
Proof.
  induction p as [|a p IH]; simpl; [done|]. intros Ha.
  apply orb_false_iff in Ha as [Ha Hp]. apply bool_decide_eq_false in Ha.
  rewrite decide_False by done. by rewrite IH.
Qed.

(** [c.join(ps).split(c) == ps] for non-empty [ps] without [c]. *)
Lemma split_join c ps :
  ps ≠ [] → Forall (λ p, mem c p = false) ps → split c (join (String c "") ps) = ps.
Proof.
  intros Hne Hps. destruct ps as [|p ps]; [by destruct Hne|]. clear Hne. revert p Hps.
  induction ps as [|q ps IH]; intros p Hps; simpl.
  - apply split_whole. by inversion Hps.
  - apply Forall_cons in Hps as [Hp Hps]. rewrite split_app_sep by done. f_equal. by apply IH.
Qed.

(** Two strings split at their first [c] agree piece by piece. *)
Lemma first_sep_inj c a a' b b' :
  mem c a = false → mem c a' = false →
  a +:+ String c b = a' +:+ String c b' → a = a' ∧ b = b'.
Proof.
  revert a'. induction a as [|x a IH]; intros [|y a']; simpl; intros Ha Ha' [= ]; subst; auto.
  - apply orb_false_iff in Ha' as [?%bool_decide_eq_false _]. done.
  - apply orb_false_iff in Ha as [?%bool_decide_eq_false _]. done.
  - apply orb_false_iff in Ha as [? ?], Ha' as [? ?].
    destruct (IH a') as [-> ->]; auto.
Qed.

(** Whether a character is ASCII whitespace, as [str.strip] takes it. *)
Definition is_space (a : ascii) : bool :=
  let n := nat_of_ascii a in ((n =? 32) || (9 <=? n) && (n <=? 13) || (28 <=? n) && (n <=? 31))%nat.

Fixpoint lstrip (s : string) : string :=
  match s with String a s' => if is_space a then lstrip s' else s | EmptyString => "" end.
Fixpoint rstrip (s : string) : string :=
  match s with
  | EmptyString => ""
  | String a s =>
      let r := rstrip s in
      if bool_decide (r = ""%string) && is_space a then "" else String a r
  end.
Definition strip (s : string) : string := lstrip (rstrip s).

(** Digits with single underscores between them; [prev] tells whether a digit came before. *)
Fixpoint digits (acc : Z) (prev : bool) (s : string) : option Z :=
  match s with
  | EmptyString => if prev then Some acc else None
  | String a s =>
      let n := Z.of_nat (nat_of_ascii a) in
      if ((48 <=? n) && (n <=? 57))%Z then digits (acc * 10 + (n - 48))%Z true s
      else if bool_decide (a = "_"%char) && prev then
        match s with EmptyString => None | _ => digits acc false s end
      else None
  end.

(** [int(s)] for ASCII text *)
Definition to_int (s : string) : option Z :=
  match strip s with
  | String "+" s => digits 0 false s
  | String "-" s => Z.opp <$> digits 0 false s
  | s => digits 0 false s
  end.

Example to_int_ex : (to_int " -1_0 ", to_int "7x", to_int "", to_int "1__0") =
  (Some (-10)%Z, None, None, None).
Proof. reflexivity. Qed.
End Str.

(** A text that is there and not empty. *)
Definition nonempty (s : option string) : option string :=
  match s with Some EmptyString => None | s => s end.

(** [int(v)] *)
Definition py_int (j : json) : res Z :=
  match j with
  | JInt z => Ok z
  | JBool b => Ok (Z.b2z b)
  | JFloat q => Ok (Z.quot (QArith_base.Qnum q) (Zpos (QArith_base.Qden q)))
  | JStr s => if Str.to_int s is Some z then Ok z else Err (ValueError "invalid literal for int()")
  | _ => Err (TypeError "int() argument")
  end.

(** ** Lists *)

(** [f] repeats on [l] only where [g] does. *)
Lemma NoDup_fmap_via {A B C} (f : A → B) (g : A → C) (l : list A) :
  (∀ x y, x ∈ l → y ∈ l → f x = f y → g x = g y) → NoDup (g <$> l) → NoDup (f <$> l).
Proof.
  induction l as [|x l IH]; simpl; [intros; constructor|].
  intros Hfg [Hx Hl]%NoDup_cons. constructor.
  - intros (y & Hy & Hin)%list_elem_of_fmap. apply Hx. apply list_elem_of_fmap. exists y.
    split; [|done]. apply Hfg; [by constructor|by constructor|done].
  - apply IH; [|done]. intros. apply Hfg; by try constructor.
Qed.

Lemma Forall2_fmap_eq {A B C} (f : A → C) (g : B → C) (l : list A) (k : list B) :
  Forall2 (λ x y, f x = g y) l k → f <$> l = g <$> k.
Proof. induction 1 as [|x y l k E _ IH]; [done|]. csimpl. by rewrite E, IH. Qed.

Lemma res_mapM_total {A B} (f : A → res B) (l : list A) :
  (∀ x, x ∈ l → ∃ y, f x = Ok y) → ∃ k, res_mapM f l = Ok k.
Proof.
  induction l as [|x l IH]; simpl; intros Hf; [by eexists|].
  destruct (Hf x) as [y Hy]; [by constructor|]. rewrite Hy. simpl.
  destruct IH as [k Hk]; [intros; apply Hf; by constructor|]. rewrite Hk. by eexists.
Qed.

(** ** Sorting, as [sorted]: stable *)

Module Sort.
Section sort.
Context {A : Type} (leb : A → A → bool).

Fixpoint insert (x : A) (l : list A) : list A :=
  match l with
  | [] => [x]
  | y :: l => if leb x y then x :: y :: l else y :: insert x l
  end.

Definition sort (l : list A) : list A := foldr insert [] l.

Lemma insert_perm x l : insert x l ≡ₚ x :: l.
Proof.
  induction l as [|y l IH]; simpl; [done|]. case_match; [done|].
  rewrite IH. constructor.
Qed.

Lemma sort_perm l : sort l ≡ₚ l.
Proof. induction l as [|x l IH]; simpl; [done|]. by rewrite insert_perm, IH. Qed.

Lemma elem_of_sort x l : x ∈ sort l ↔ x ∈ l.
Proof. by rewrite sort_perm. Qed.

Lemma sort_sorted l :
  (∀ x y, leb x y = true ∨ leb y x = true) → Sorted (λ x y, leb x y = true) (sort l).
Proof.
  intros Htot. induction l as [|x l IH]; simpl; [constructor|].
  induction IH as [|y l' Hl IH Hhd]; simpl; [repeat constructor|].
  destruct (leb x y) eqn:E; [by repeat constructor|]. constructor; [done|].
  destruct l' as [|z l']; simpl.
  - constructor. destruct (Htot x y); congruence.
  - case_match; constructor; [destruct (Htot x y); congruence|]. by inversion Hhd.
Qed.

Lemma sort_id l : Sorted (λ x y, leb x y = true) l → sort l = l.
Proof.
  induction 1 as [|x l Hl IH Hhd]; simpl; [done|]. rewrite IH.
  destruct Hhd as [|y l E]; simpl; [done|]. by rewrite E.
Qed.
End sort.

(** [sorted(strings)] *)
Definition strings : list string → list string := sort String.leb.
End Sort.

#[export] Hint Rewrite @Sort.elem_of_sort : sorting.
