(* ===== verification/Rounding.v ===== *)
(** * Rounding, as Python's [round] does

    To the nearest, and from half way to the even one: [round(x)] and [round(x, digits)] of a float, taken as the
    rational it stands for, and the integer that [f"{x:.0f}"] shows. *)

From S2P Require Import Prelude.
From Stdlib Require Import QArith Qabs Lqa.
Local Open Scope Z_scope.

(** The integer nearest to [n / d] *)
Definition round_half_even (n d : Z) : Z :=
  let q := n / d in let r := n mod d in
  if 2 * r <? d then q else if d <? 2 * r then q + 1 else if Z.even q then q else q + 1.

Definition py_round (x : Q) : Z := round_half_even (Qnum x) (Zpos (Qden x)).

Definition shift (digits : nat) : positive := Z.to_pos (10 ^ Z.of_nat digits).
Definition round_to (digits : nat) (x : Q) : Q := Qmake (py_round (x * inject_Z (Zpos (shift digits)))%Q) (shift digits).

Lemma round_half_even_close n d : 0 < d → 2 * Z.abs (round_half_even n d * d - n) ≤ d.
Proof.
  intros Hd. unfold round_half_even. pose proof (Z.div_mod n d ltac:(lia)) as E. pose proof (Z.mod_pos_bound n d Hd).
  set (q := n / d) in *. set (r := n mod d) in *.
  assert (q * d - n = - r) by lia. assert ((q + 1) * d - n = d - r) by lia.
  destruct (Z.ltb_spec (2 * r) d); [lia|]. destruct (Z.ltb_spec d (2 * r)); [lia|]. destruct (Z.even q); lia.
Qed.

Lemma py_round_close x : (Qabs (inject_Z (py_round x) - x) <= 1 # 2)%Q.
Proof.
  destruct x as [n d]. unfold py_round. cbn [Qnum Qden]. pose proof (round_half_even_close n (Zpos d) ltac:(lia)) as Hc.
  set (k := round_half_even n (Z.pos d)) in *. unfold Qle, Qabs, Qminus, Qplus, Qopp, inject_Z. cbn [Qnum Qden].
  rewrite Z.mul_1_r. replace (k * Z.pos d + - n) with (k * Z.pos d - n) by lia. lia.
Qed.

Lemma round_to_close digits x : (Qabs (round_to digits x - x) <= 1 # (2 * shift digits))%Q.
Proof.
  unfold round_to. pose proof (py_round_close (x * inject_Z (Zpos (shift digits)))%Q) as Hc.
  set (p := shift digits) in *. set (k := py_round _) in *.
  apply Qabs_Qle_condition in Hc as [H1 H2]. apply Qabs_Qle_condition.
  assert (0 < inject_Z (Zpos p))%Q as Hp by done.
  assert ((k # p) * inject_Z (Zpos p) == inject_Z k)%Q as E1 by (unfold Qeq, Qmult, inject_Z; cbn; lia).
  assert ((1 # (2 * p)) * inject_Z (Zpos p) == 1 # 2)%Q as E2 by (unfold Qeq, Qmult, inject_Z; cbn; lia).
  split; apply (Qmult_le_r _ _ (inject_Z (Zpos p)) Hp); lra.
Qed.

(** Half way goes to the even one, both ways *)
Example halves_to_even :
  py_round (5 # 2) = 2 ∧ py_round (7 # 2) = 4 ∧ py_round (- 5 # 2) = -2 ∧ py_round (26 # 10) = 3 ∧
  round_to 3 (123456 # 100000) = (1235 # 1000)%Q.
Proof. split_and!; reflexivity. Qed.
