(* ===== verification/StateStore.v ===== *)
(** * The state store contract

    [src/modelship/state/base.py]: key normalization, and the interface every backend
    implements ([StateStore]), with its promise to callers ([StateStoreOk]): a store is a map
    from keys to cells, a cell a value with an optional expiry, and only the cells that are
    live from now on are observable. Clock readings and durations are integer nanoseconds. *)

From S2P Require Import Prelude.
Local Open Scope Z_scope.

(** One second, in clock ticks. *)
Definition second : Z := 1000000000.

(** [normalize_prefix]: the non-empty pieces between slashes, joined by single ones. *)
Definition normalize_prefix (prefix : string) : string :=
  Str.join "/" (filter (λ p, p ≠ ""%string) (Str.split "/" prefix)).

(** Whether the key is [prefix] itself or lies under it, for a normalized [prefix]. *)
Definition under_prefix (prefix k : string) : bool :=
  bool_decide (prefix = ""%string) || bool_decide (k = prefix)
    || Str.startswith k (prefix +:+ "/").

(** ** Cells and liveness *)

Notation cell := (json * option Z)%type.

Definition expired (now : Z) (c : cell) : bool :=
  if c.2 is Some e then e <=? now else false.

(** What a reader at [now] can see of a cell. *)
Definition live (now : Z) (c : option cell) : option cell :=
  if c is Some c then if expired now c then None else Some c else None.

Definition expires_at (now : Z) (ttl : option Z) : option Z := (λ t, now + t) <$> ttl.

(** A store's observable content; two contents that agree on live cells from [now] on are the
    same to every caller. *)
Definition content : Type := string → option cell.

Record same_from (now : Z) (m m' : content) : Prop := {
  same_live t k : now ≤ t → live t (m k) = live t (m' k)
}.

(** ** Indexing and unpacking a stored value, as Python does *)

(** [e[0]] *)
Definition py_item0 (e : json) : res json :=
  match e with
  | JList (x :: _) => Ok x
  | JStr (String a _) => Ok (JStr (String a ""))
  | JList [] | JStr "" => Err (OtherError "IndexError")
  | JObj _ => Err (KeyError "0")
  | _ => Err (TypeError "not subscriptable")
  end.

(** [position, value = e] *)
Definition py_unpack2 (e : json) : res (json * json) :=
  match e with
  | JList [p; v] => Ok (p, v)
  | JStr (String a (String b "")) => Ok (JStr (String a ""), JStr (String b ""))
  | JObj [(k, _); (k', _)] => Ok (JStr k, JStr k')
  | JList _ | JStr _ | JObj _ => Err (ValueError "wrong number of values to unpack")
  | _ => Err (TypeError "cannot unpack")
  end.

(** [p >= n] and [p <= n] against an integer *)
Definition py_cmp (le : Z → Z → bool) (qle : Q → Q → bool) (p : json) (n : Z) : res bool :=
  match p with
  | JInt z => Ok (le n z)
  | JBool b => Ok (le n (Z.b2z b))
  | JFloat q => Ok (qle (inject_Z n) q)
  | _ => Err (TypeError "not comparable")
  end.
Definition py_ge : json → Z → res bool := py_cmp Z.leb Qle_bool.
Definition py_le : json → Z → res bool := py_cmp (flip Z.leb) (flip Qle_bool).

(** ** The abstract operations *)

Module Spec.
Definition upd (k : string) (c : option cell) (m : content) : content :=
  λ k', if decide (k' = k) then c else m k'.

Definition get (k : string) (now : Z) (m : content) : option json := fst <$> live now (m k).

Definition set (k : string) (v : json) (ttl : option Z) (now : Z) (m : content) : content :=
  upd k (Some (v, expires_at now ttl)) m.

Definition delete (k : string) (m : content) : content := upd k None m.

(** A log is a list of [(position, value)] pairs. *)
Definition pair_of (position : Z) (v : json) : json := JList [JInt position; v].

Definition log (k : string) (now : Z) (m : content) : list json :=
  if live now (m k) is Some (JList l, _) then l else [].

Definition append (k : string) (position : Z) (v : json) (ttl : option Z) (now : Z)
    (m : content) : res (option content) :=
  let entries := log k now m in
  let write := Ok (Some (set k (JList (entries ++ [pair_of position v])) ttl now m)) in
  match last entries with
  | None => write
  | Some e =>
      p ← py_item0 e; refused ← py_ge p position;
      if (refused : bool) then Ok None else write
  end.

Definition append_and_set (log_key : string) (position : Z) (entry : json) (k : string)
    (v : json) (ttl : option Z) (if_exists : bool) (now : Z) (m : content)
    : res (option content) :=
  if if_exists && bool_decide (live now (m k) = None) then Ok None
  else
    match append log_key position entry ttl now m with
    | Ok (Some m) => Ok (Some (set k v ttl now m))
    | r => r
    end.

(** The entries with [start <= position] and, given a [stop], [position <= stop]. *)
Definition in_range (start : Z) (stop : option Z) (p : json) : res bool :=
  ge ← py_ge p start;
  if (ge : bool) then if stop is Some e then py_le p e else Ok true else Ok false.

Fixpoint select (start : Z) (stop : option Z) (l : list json) : res (list json) :=
  match l with
  | [] => Ok []
  | e :: l =>
      pv ← py_unpack2 e; inside ← in_range start stop pv.1; vs ← select start stop l;
      Ok (if (inside : bool) then pv.2 :: vs else vs)
  end.

Definition read_range (k : string) (start : Z) (stop : option Z) (now : Z) (m : content)
    : res (list json) := select start stop (log k now m).

Definition expire (k : string) (ttl : Z) (now : Z) (m : content) : content :=
  if live now (m k) is Some (v, _) then upd k (Some (v, Some (now + ttl))) m else m.
End Spec.

(** ** The interface

    An operation of [base.StateStore] with its arguments, indexed by what it returns. The sync
    methods and their [*_async] variants are the same operation. *)
Inductive store_op : Type → Type :=
| OGet (k : string) : store_op (option json)
| OSet (k : string) (v : json) (ttl : option Z) : store_op unit
| ODelete (k : string) : store_op unit
| OList (prefix : string) : store_op (list string)
| OAppend (k : string) (position : Z) (v : json) (ttl : option Z) : store_op bool
| OAppendAndSet (log_key : string) (position : Z) (entry : json) (k : string) (v : json)
    (ttl : option Z) (if_exists : bool) : store_op bool
| OReadRange (k : string) (start : Z) (stop : option Z) : store_op (list json)
| OExpire (k : string) (ttl : Z) : store_op unit.

(** What a completed operation leaves behind, and what it may return. *)
Definition effect {A} (op : store_op A) (now : Z) (m : content) : content :=
  match op with
  | OSet k v ttl => Spec.set k v ttl now m
  | ODelete k => Spec.delete k m
  | OAppend k p v ttl => if Spec.append k p v ttl now m is Ok (Some m') then m' else m
  | OAppendAndSet lk p e k v ttl ife =>
      if Spec.append_and_set lk p e k v ttl ife now m is Ok (Some m') then m' else m
  | OExpire k ttl => Spec.expire k ttl now m
  | OGet _ | OList _ | OReadRange _ _ _ => m
  end.

Definition result {A} (op : store_op A) (now : Z) (m : content) : A → Prop :=
  match op with
  | OGet k => λ a, a = Spec.get k now m
  | OList prefix => λ l, ∀ k,
      k ∈ l ↔ is_Some (live now (m k)) ∧ under_prefix (normalize_prefix prefix) k = true
  | OAppend k p v ttl => λ b, ∃ r, Spec.append k p v ttl now m = Ok r ∧ b = bool_decide (is_Some r)
  | OAppendAndSet lk p e k v ttl ife => λ b,
      ∃ r, Spec.append_and_set lk p e k v ttl ife now m = Ok r ∧ b = bool_decide (is_Some r)
  | OReadRange k start stop => λ l, Spec.read_range k start stop now m = Ok l
  | OSet _ _ _ | ODelete _ | OExpire _ _ => λ _, True
  end.

(** [StateStore S]: a store with state [S] runs each operation at the clock reading given. *)
Class StateStore (S : Type) : Type :=
  ss_run : ∀ {A}, store_op A → Z → S → S * res A.

(** Code that runs store operations, one after the other, and may raise between them. *)
Definition store_m (T A : Type) : Type := T → T * res A.

#[export] Instance store_m_ret T : MRet (store_m T) := λ A a s, (s, Ok a).
#[export] Instance store_m_bind T : MBind (store_m T) := λ A B f m s,
  let '(s, r) := m s in match r with Ok a => f a s | Err e => (s, Err e) end.

(** A pure, fallible step inside such code. *)
Definition lift {T A} (r : res A) : store_m T A := λ s, (s, r).

(** Its promise: from a valid state, an operation that returns did what the abstract map
    operation does, up to expired cells; one that raises says the store is unavailable, or met
    a value that is not a log. *)
Class StateStoreOk (S : Type) `{StateStore S} : Type := {
  cells : S → content;
  ss_valid : S → Prop;
  ss_run_valid {A} (op : store_op A) now s : ss_valid s → ss_valid (ss_run op now s).1;
  ss_run_ok {A} (op : store_op A) now s s' a :
    ss_valid s → ss_run op now s = (s', Ok a) →
    result op now (cells s) a ∧ same_from now (cells s') (effect op now (cells s));
}.

(** A store whose calls take effect or raise, never both. *)
Class StateStoreAtomic (T : Type) `{StateStoreOk T} : Prop :=
  ss_raise_same : ∀ A (op : store_op A) now s s' e,
    ss_valid s → ss_run op now s = (s', Err e) → same_from now (cells s') (cells s).

(** ** Lemmas *)

#[export] Instance same_from_equiv now : Equivalence (same_from now).
Proof.
  split.
  - by intros m.
  - intros m m' [E]. split. intros. by rewrite E.
  - intros m1 m2 m3 [E1] [E2]. split. intros. by rewrite E1, E2.
Qed.

Lemma same_from_mono now now' m m' : now ≤ now' → same_from now m m' → same_from now' m m'.
Proof. intros ? [E]. split. intros. apply E. lia. Qed.

Lemma same_from_now now m m' k : same_from now m m' → live now (m k) = live now (m' k).
Proof. intros [E]. apply E. lia. Qed.

Lemma live_mono t t' c : t ≤ t' → live t c = None → live t' c = None.
Proof.
  destruct c as [[v [e|]]|]; unfold live, expired; simpl; try done.
  destruct (Z.leb_spec e t), (Z.leb_spec e t'); try done; lia.
Qed.

Lemma live_Some t c c' : live t c = Some c' → c = Some c'.
Proof. destruct c as [c|]; simpl; [|done]. by case_match. Qed.

(** The reads respect the equivalence, and the writes preserve it. *)
#[export] Instance Spec_get_proper k now : Proper (same_from now ==> eq) (Spec.get k now).
Proof. intros m m' E. unfold Spec.get. by rewrite (same_from_now _ _ _ k E). Qed.

#[export] Instance Spec_log_proper k now : Proper (same_from now ==> eq) (Spec.log k now).
Proof. intros m m' E. unfold Spec.log. by rewrite (same_from_now _ _ _ k E). Qed.

#[export] Instance Spec_upd_proper k c now :
  Proper (same_from now ==> same_from now) (Spec.upd k c).
Proof. intros m m' [E]. split. intros t k' ?. unfold Spec.upd. case_decide; [done|by apply E]. Qed.

#[export] Instance Spec_set_proper k v ttl now :
  Proper (same_from now ==> same_from now) (Spec.set k v ttl now).
Proof. intros m m' E. unfold Spec.set. by apply Spec_upd_proper. Qed.

#[export] Instance Spec_read_range_proper k a b now :
  Proper (same_from now ==> eq) (Spec.read_range k a b now).
Proof. intros m m' E. unfold Spec.read_range. by rewrite (Spec_log_proper k now m m' E). Qed.

(** Two results of a conditional write, both refused or both written, to equal contents. *)
Definition same_res (now : Z) (r r' : res (option content)) : Prop :=
  match r, r' with
  | Ok (Some m), Ok (Some m') => same_from now m m'
  | Ok None, Ok None => True
  | Err e, Err e' => e = e'
  | _, _ => False
  end.

#[export] Instance Spec_append_proper k p v ttl now :
  Proper (same_from now ==> same_res now) (Spec.append k p v ttl now).
Proof.
  intros m m' E. unfold Spec.append. rewrite <-(Spec_log_proper k now m m' E).
  destruct (last (Spec.log k now m)) as [e|]; simpl; [|by apply Spec_set_proper].
  destruct (py_item0 e) as [q|]; simpl; [|done]. destruct (py_ge q p) as [[]|]; simpl; [done| |done].
  by apply Spec_set_proper.
Qed.

#[export] Instance Spec_append_and_set_proper lk p e k v ttl ife now :
  Proper (same_from now ==> same_res now) (Spec.append_and_set lk p e k v ttl ife now).
Proof.
  intros m m' E. unfold Spec.append_and_set. rewrite (same_from_now _ _ _ k E).
  case_match; [done|]. pose proof (Spec_append_proper lk p e ttl now m m' E) as Ha.
  destruct (Spec.append lk p e ttl now m) as [[]|],
    (Spec.append lk p e ttl now m') as [[]|]; simpl in *; try done.
  by apply Spec_set_proper.
Qed.

#[export] Instance Spec_expire_proper k ttl now :
  Proper (same_from now ==> same_from now) (Spec.expire k ttl now).
Proof.
  intros m m' E. unfold Spec.expire. rewrite <-(same_from_now _ _ _ k E).
  destruct (live now (m k)) as [[]|]; [by apply Spec_upd_proper|done].
Qed.

Lemma Spec_get_set k k' v ttl now m :
  Spec.get k now (Spec.set k' v ttl now m) =
    if decide (k = k') then if decide (default 1 ttl ≤ 0) then None else Some v
    else Spec.get k now m.
Proof.
  unfold Spec.get, Spec.set, Spec.upd. case_decide; [|done]. unfold live, expired; simpl.
  destruct ttl as [t|]; simpl; [|done].
  destruct (Z.leb_spec (now + t) now); case_decide; done || lia.
Qed.

(** A value set without a TTL is read back at every later time. *)
Lemma Spec_get_set_forever k k' v now t m :
  Spec.get k t (Spec.set k' v None now m) = if decide (k = k') then Some v else Spec.get k t m.
Proof. unfold Spec.get, Spec.set, Spec.upd. by case_decide. Qed.

(** [normalize_prefix] keeps no empty piece and is idempotent. *)
Lemma normalize_pieces prefix :
  normalize_prefix prefix ≠ ""%string →
  Str.split "/" (normalize_prefix prefix) = filter (λ p, p ≠ ""%string) (Str.split "/" prefix).
Proof.
  intros Hne. apply Str.split_join.
  - intros E. unfold normalize_prefix in Hne. by rewrite E in Hne.
  - apply Forall_forall. intros p [_ Hp]%list_elem_of_filter.
    pose proof (Str.split_no_sep "/" prefix) as H. rewrite Forall_forall in H. auto.
Qed.

Lemma filter_idemp {A} (P : A → Prop) `{∀ x, Decision (P x)} (l : list A) : filter P (filter P l) = filter P l.
Proof.
  induction l as [|x l IH]; [done|]. rewrite filter_cons. case_decide; [|done].
  rewrite filter_cons, decide_True, IH by done. done.
Qed.

Lemma normalize_idemp prefix : normalize_prefix (normalize_prefix prefix) = normalize_prefix prefix.
Proof.
  destruct (decide (normalize_prefix prefix = ""%string)) as [E|E]; [by rewrite E|].
  unfold normalize_prefix at 1. rewrite normalize_pieces, filter_idemp by done. done.
Qed.

#[export] Instance Spec_delete_proper k now :
  Proper (same_from now ==> same_from now) (Spec.delete k).
Proof. intros m m' E. by apply Spec_upd_proper. Qed.

(** Equal contents take equal operations to equal contents, with the same results. *)
#[export] Instance effect_proper {A} (op : store_op A) now :
  Proper (same_from now ==> same_from now) (effect op now).
Proof.
  intros m m' E. destruct op; simpl; auto.
  - by apply Spec_set_proper.
  - by apply Spec_delete_proper.
  - pose proof (Spec_append_proper k position v ttl now m m' E) as Ha.
    by destruct (Spec.append k position v ttl now m) as [[]|],
      (Spec.append k position v ttl now m') as [[]|]; simpl in Ha.
  - pose proof (Spec_append_and_set_proper log_key position entry k v ttl if_exists now m m' E) as Ha.
    by destruct (Spec.append_and_set log_key position entry k v ttl if_exists now m) as [[]|],
      (Spec.append_and_set log_key position entry k v ttl if_exists now m') as [[]|]; simpl in Ha.
  - by apply Spec_expire_proper.
Qed.

Lemma same_res_is_Some now r r' b :
  same_res now r r' →
  (∃ x, r = Ok x ∧ b = bool_decide (is_Some x)) → ∃ x, r' = Ok x ∧ b = bool_decide (is_Some x).
Proof.
  intros E (x & -> & ->). destruct x, r' as [[]|]; simpl in E; try done; eexists; done.
Qed.

Lemma result_same {A} (op : store_op A) now m m' a :
  same_from now m m' → result op now m a → result op now m' a.
Proof.
  intros E. destruct op; simpl; try done.
  - by rewrite (Spec_get_proper k now m m' E).
  - intros H k. rewrite H, (same_from_now _ _ _ k E). done.
  - apply (same_res_is_Some now). by apply Spec_append_proper.
  - apply (same_res_is_Some now). by apply Spec_append_and_set_proper.
  - by rewrite (Spec_read_range_proper k start stop now m m' E).
Qed.

(** ** Reasoning about code over a store *)

Lemma store_m_bind_ok {T A B} (m : store_m T A) (f : A → store_m T B) s s' b :
  (m ≫= f) s = (s', Ok b) ↔ ∃ s1 a, m s = (s1, Ok a) ∧ f a s1 = (s', Ok b).
Proof.
  unfold mbind, store_m_bind. destruct (m s) as [s1 [a|e]].
  - split; [eauto|]. by intros (? & ? & [= <- <-] & ?).
  - split; [done|]. by intros (? & ? & ? & ?).
Qed.

Lemma lift_ok {T A} (r : res A) (s s' : T) a : lift r s = (s', Ok a) ↔ s' = s ∧ r = Ok a.
Proof. unfold lift. naive_solver. Qed.

Section ops.
Context `{StateStoreOk T}.
Implicit Types (s : T) (k : string).

Lemma op_get_ok k now s s' r :
  ss_valid s → ss_run (OGet k) now s = (s', Ok r) →
  ss_valid s' ∧ r = Spec.get k now (cells s) ∧ same_from now (cells s') (cells s).
Proof.
  intros Hv E. pose proof (ss_run_valid (OGet k) now s Hv) as Hv'. rewrite E in Hv'.
  destruct (ss_run_ok _ _ _ _ _ Hv E). done.
Qed.

Lemma op_write_ok {A} (op : store_op A) now s s' r :
  ss_valid s → ss_run op now s = (s', Ok r) →
  ss_valid s' ∧ result op now (cells s) r ∧ same_from now (cells s') (effect op now (cells s)).
Proof.
  intros Hv E. pose proof (ss_run_valid op now s Hv) as Hv'. rewrite E in Hv'.
  destruct (ss_run_ok _ _ _ _ _ Hv E). done.
Qed.
End ops.
