(* ===== verification/MemoryStore.v ===== *)
(** * The in-memory store

    [src/modelship/state/memory.py]: [Actor] is [MemoryStoreActor], the one dict every process
    of the cluster shares; [Client] is [MemoryStateStore], which reaches it over Ray. Both
    implement [StateStore] and keep its promise. Values are immutable here, which is what the
    source's deep copies on the way in and out make of them. *)

From S2P Require Import Prelude StateStore.
Local Open Scope Z_scope.

Module Actor.
(** [_sweep_interval_s]: [raw] is the variable's value, [float_of] Python's [float(...)] in
    clock ticks. *)
Definition default_sweep_interval : Z := 300 * second.
Definition sweep_interval_s (float_of : string → option Z) (raw : option string) : Z :=
  match raw with
  | None | Some ""%string => default_sweep_interval
  | Some raw => default default_sweep_interval (float_of raw)
  end.

Record t : Type := mk {
  data : dict cell;
  last_sweep : Z;
  sweep_interval : Z;
}.

(** [__init__] *)
Definition init (now interval : Z) : t := mk [] now interval.

Definition with_data (d : dict cell) (a : t) : t := mk d (last_sweep a) (sweep_interval a).

(** [_maybe_sweep] *)
Definition maybe_sweep (now : Z) (a : t) : t :=
  if bool_decide (sweep_interval a ≤ 0) || bool_decide (now - last_sweep a < sweep_interval a)
  then a
  else
    let dead := (filter (λ kc, expired now kc.2 = true) (data a)).*1 in
    mk (foldl (λ d k, Dict.pop k d) (data a) dead) now (sweep_interval a).

(** [_live]: the entry, unless it has expired, in which case it is dropped. *)
Definition live_entry (k : string) (now : Z) (a : t) : t * option cell :=
  match Dict.get k (data a) with
  | Some c => if expired now c then (with_data (Dict.pop k (data a)) a, None) else (a, Some c)
  | None => (a, None)
  end.

Definition get (k : string) (now : Z) (a : t) : t * option json :=
  let '(a, entry) := live_entry k now a in (a, fst <$> entry).

Definition set (k : string) (v : json) (ttl : option Z) (now : Z) (a : t) : t :=
  maybe_sweep now (with_data (Dict.set k (v, expires_at now ttl) (data a)) a).

Definition delete (k : string) (a : t) : t := with_data (Dict.pop k (data a)) a.

Definition list (prefix : string) (now : Z) (a : t) : list string :=
  let prefix := normalize_prefix prefix in
  (filter (λ kc, under_prefix prefix kc.1 = true ∧ expired now kc.2 = false) (data a)).*1.

(** [_log] *)
Definition log (k : string) (now : Z) (a : t) : t * Datatypes.list json :=
  let '(a, entry) := live_entry k now a in
  (a, if entry is Some (JList l, _) then l else []).

Definition append (k : string) (position : Z) (v : json) (ttl : option Z) (now : Z) (a : t)
    : t * res bool :=
  let '(a, entries) := log k now a in
  let write :=
    (maybe_sweep now (with_data
      (Dict.set k (JList (entries ++ [Spec.pair_of position v]), expires_at now ttl) (data a)) a),
     Ok true) in
  match last entries with
  | None => write
  | Some e =>
      match py_item0 e ≫= λ p, py_ge p position with
      | Ok true => (a, Ok false)
      | Ok false => write
      | Err x => (a, Err x)
      end
  end.

Definition append_and_set (log_key : string) (position : Z) (entry : json) (k : string)
    (v : json) (ttl : option Z) (if_exists : bool) (now : Z) (a : t) : t * res bool :=
  let '(a, absent) :=
    if if_exists then let '(a, e) := live_entry k now a in (a, bool_decide (e = None))
    else (a, false) in
  if (absent : bool) then (a, Ok false)
  else
    match append log_key position entry ttl now a with
    | (a, Ok true) => (set k v ttl now a, Ok true)
    | r => r
    end.

Definition read_range (k : string) (start : Z) (stop : option Z) (now : Z) (a : t)
    : t * res (Datatypes.list json) :=
  let '(a, entries) := log k now a in (a, Spec.select start stop entries).

Definition expire (k : string) (ttl : Z) (now : Z) (a : t) : t :=
  let '(a, entry) := live_entry k now a in
  if entry is Some (v, _) then with_data (Dict.set k (v, Some (now + ttl)) (data a)) a else a.

(** The actor's methods, sync and async, by name. *)
Definition run {A} (op : store_op A) (now : Z) (a : t) : t * res A :=
  match op with
  | OGet k => let '(a, r) := get k now a in (a, Ok r)
  | OSet k v ttl => (set k v ttl now a, Ok tt)
  | ODelete k => (delete k a, Ok tt)
  | OList prefix => (a, Ok (list prefix now a))
  | OAppend k p v ttl => append k p v ttl now a
  | OAppendAndSet lk p e k v ttl ife => append_and_set lk p e k v ttl ife now a
  | OReadRange k start stop => read_range k start stop now a
  | OExpire k ttl => (expire k ttl now a, Ok tt)
  end.

Definition cells (a : t) : content := λ k, Dict.get k (data a).
Definition valid (a : t) : Prop := NoDup (Dict.keys (data a)).
End Actor.

(** ** The actor keeps the store's promise *)

Module ActorFacts.
Import Actor.

Create HintDb memstore.

Lemma expired_mono t t' c : t ≤ t' → expired t c = true → expired t' c = true.
Proof. unfold expired. destruct c as [v [e|]]; simpl; [|done]. rewrite !Z.leb_le. lia. Qed.

(** Dropping an expired cell is not observable. *)
Lemma pop_expired k c now a :
  Dict.get k (data a) = Some c → expired now c = true →
  same_from now (cells (with_data (Dict.pop k (data a)) a)) (cells a).
Proof.
  intros Hk Hc. split. intros t k' Ht. unfold cells; simpl. rewrite Dict.get_pop.
  case_decide; [subst|done]. rewrite Hk. simpl. by rewrite (expired_mono _ _ _ Ht Hc).
Qed.

Lemma live_entry_same k now a : same_from now (cells (live_entry k now a).1) (cells a).
Proof.
  unfold live_entry. destruct (Dict.get k (data a)) as [c|] eqn:Hk; [|done].
  destruct (expired now c) eqn:Hc; [|done]. by eapply pop_expired.
Qed.

Lemma live_entry_result k now a : (live_entry k now a).2 = live now (cells a k).
Proof.
  unfold live_entry, cells. destruct (Dict.get k (data a)) as [c|]; [|done].
  simpl. by destruct (expired now c).
Qed.

Lemma live_entry_valid k now a : valid a → valid (live_entry k now a).1.
Proof.
  unfold live_entry. destruct (Dict.get k (data a)) as [c|]; [|done].
  destruct (expired now c); [|done]. apply Dict.NoDup_keys_pop.
Qed.

Lemma live_entry_eq k now a :
  ∃ a', live_entry k now a = (a', live now (cells a k)) ∧
        same_from now (cells a') (cells a) ∧ (valid a → valid a').
Proof.
  exists (live_entry k now a).1. rewrite <-live_entry_result. split; [by destruct (live_entry _ _ _)|].
  auto using live_entry_same, live_entry_valid.
Qed.

Lemma log_eq k now a :
  ∃ a', log k now a = (a', Spec.log k now (cells a)) ∧
        same_from now (cells a') (cells a) ∧ (valid a → valid a').
Proof.
  destruct (live_entry_eq k now a) as (a' & E & ? & ?). exists a'. unfold log, Spec.log.
  by rewrite E.
Qed.

(** The sweep drops expired cells only. *)
Lemma sweep_get now ks (d : dict cell) :
  (∀ k c, k ∈ ks → Dict.get k d = Some c → expired now c = true) →
  ∀ t k, now ≤ t → live t (Dict.get k (foldl (λ d k, Dict.pop k d) d ks)) = live t (Dict.get k d).
Proof.
  revert d. induction ks as [|k0 ks IH]; intros d Hks t k Ht; [done|]. simpl.
  rewrite IH; [|intros k' c Hk' Hc|done].
  - rewrite Dict.get_pop. case_decide; [subst|done].
    destruct (Dict.get k0 d) as [c|] eqn:E; [|done]. simpl.
    rewrite (expired_mono now t); [done..|]. apply (Hks k0); [constructor|done].
  - rewrite Dict.get_pop in Hc. case_decide; [done|]. eapply Hks; [by constructor|done].
Qed.

Lemma maybe_sweep_same now a :
  valid a → same_from now (cells (maybe_sweep now a)) (cells a).
Proof.
  intros Hv. unfold maybe_sweep. case_match; [done|]. split. intros t k Ht.
  unfold cells; simpl. apply (sweep_get now); [|done]. intros k' c Hk Hc.
  apply list_elem_of_fmap in Hk as ([k'' c'] & -> & [Hexp Hin]%list_elem_of_filter).
  simpl in *. apply Dict.elem_get in Hin; [|done]. congruence.
Qed.

Lemma maybe_sweep_valid now a : valid a → valid (maybe_sweep now a).
Proof.
  unfold maybe_sweep. case_match; [done|]. unfold valid; simpl.
  generalize ((filter (λ kc, expired now kc.2 = true) (data a)).*1). generalize (data a).
  intros d ks. revert d. induction ks as [|k ks IH]; intros d Hd; simpl; auto using Dict.NoDup_keys_pop.
Qed.

Lemma put_valid k c a : valid a → valid (with_data (Dict.set k c (data a)) a).
Proof. apply Dict.NoDup_keys_set. Qed.

Lemma put_cells k c now m a :
  same_from now (cells a) m →
  same_from now (cells (with_data (Dict.set k c (data a)) a)) (Spec.upd k (Some c) m).
Proof.
  intros [E]. split. intros t k' ?. unfold cells, Spec.upd; simpl. rewrite Dict.get_set.
  case_decide; [done|by apply E].
Qed.

#[local] Hint Resolve maybe_sweep_valid put_valid Dict.NoDup_keys_pop : memstore.

(** Assigning a key and sweeping: the step every write ends with. *)
Lemma put_sweep_same k c now m a :
  valid a → same_from now (cells a) m →
  same_from now (cells (maybe_sweep now (with_data (Dict.set k c (data a)) a)))
    (Spec.upd k (Some c) m).
Proof. intros. rewrite maybe_sweep_same by auto with memstore. by apply put_cells. Qed.

Lemma set_same k v ttl now m a :
  valid a → same_from now (cells a) m →
  same_from now (cells (set k v ttl now a)) (Spec.set k v ttl now m).
Proof. apply put_sweep_same. Qed.

Lemma set_valid k v ttl now a : valid a → valid (set k v ttl now a).
Proof. unfold set. auto with memstore. Qed.

(** An append: the three outcomes of [Spec.append], and the state each leaves. *)
Lemma append_cases k p v ttl now m a :
  valid a → same_from now (cells a) m →
  ∃ a', valid a' ∧ match Spec.append k p v ttl now m with
  | Ok (Some m') => append k p v ttl now a = (a', Ok true) ∧ same_from now (cells a') m'
  | Ok None => append k p v ttl now a = (a', Ok false) ∧ same_from now (cells a') m
  | Err e => append k p v ttl now a = (a', Err e) ∧ same_from now (cells a') m
  end.
Proof.
  intros Hv Hm. destruct (log_eq k now a) as (a1 & E & Hs & Hv1). specialize (Hv1 Hv).
  rewrite Hm in Hs. unfold append, Spec.append. rewrite E, (Spec_log_proper _ _ _ _ Hm).
  set (w := maybe_sweep _ _).
  assert (valid w) by (unfold w; auto with memstore).
  assert (same_from now (cells w) (Spec.set k (JList (Spec.log k now m ++ [Spec.pair_of p v])) ttl now m))
    by (by apply put_sweep_same).
  destruct (last (Spec.log k now m)) as [e|]; [|by exists w].
  destruct (py_item0 e) as [q|x]; simpl; [|by exists a1].
  destruct (py_ge q p) as [[]|x]; simpl; [by exists a1|by exists w|by exists a1].
Qed.

Lemma append_and_set_cases lk p e k v ttl ife now a :
  valid a → ∃ a', valid a' ∧
  match Spec.append_and_set lk p e k v ttl ife now (cells a) with
  | Ok (Some m') => append_and_set lk p e k v ttl ife now a = (a', Ok true) ∧ same_from now (cells a') m'
  | Ok None => append_and_set lk p e k v ttl ife now a = (a', Ok false) ∧ same_from now (cells a') (cells a)
  | Err x => append_and_set lk p e k v ttl ife now a = (a', Err x) ∧ same_from now (cells a') (cells a)
  end.
Proof.
  intros Hv. unfold append_and_set, Spec.append_and_set.
  assert (∃ a1, (if ife then let '(a, e) := live_entry k now a in (a, bool_decide (e = None))
      else (a, false)) = (a1, ife && bool_decide (live now (cells a k) = None)) ∧
      valid a1 ∧ same_from now (cells a1) (cells a)) as (a1 & -> & Hv1 & Hs1).
  { destruct ife; [|by exists a]. destruct (live_entry_eq k now a) as (a1 & -> & ? & ?).
    exists a1. auto. }
  destruct (ife && bool_decide (live now (cells a k) = None)); [by exists a1|].
  destruct (append_cases lk p e ttl now (cells a) a1) as (a2 & Hv2 & H2); [done..|].
  destruct (Spec.append lk p e ttl now (cells a)) as [[m'|]|x]; destruct H2 as [-> H2];
    [|by exists a2..].
  exists (set k v ttl now a2). auto using set_valid, set_same.
Qed.

Lemma list_elem prefix now a k :
  valid a →
  k ∈ list prefix now a ↔
    is_Some (live now (cells a k)) ∧ under_prefix (normalize_prefix prefix) k = true.
Proof.
  intros Hv. unfold list, cells. rewrite list_elem_of_fmap.
  setoid_rewrite list_elem_of_filter. split.
  - intros ([k' c] & -> & [Hp He] & Hin); simpl in *. split; [|done].
    apply Dict.elem_get in Hin; [|done]. rewrite Hin. simpl. rewrite He. eauto.
  - intros [[c Hl] Hp]. pose proof (live_Some _ _ _ Hl) as Hc. exists (k, c); simpl.
    split_and!; [done|done| |by apply Dict.get_Some_elem].
    rewrite Hc in Hl. simpl in Hl. by destruct (expired now c).
Qed.

Lemma expire_same k ttl now a :
  valid a → valid (expire k ttl now a) ∧
  same_from now (cells (expire k ttl now a)) (Spec.expire k ttl now (cells a)).
Proof.
  intros Hv. unfold expire, Spec.expire. destruct (live_entry_eq k now a) as (a1 & -> & ? & ?).
  destruct (live now (cells a k)) as [[v e]|]; auto using put_valid, put_cells.
Qed.

Lemma delete_cells k a : cells (delete k a) = cells (delete k a) ∧
  ∀ now, same_from now (cells (delete k a)) (Spec.delete k (cells a)).
Proof.
  split; [done|]. intros now. split. intros t k' _. unfold cells, Spec.delete, Spec.upd; simpl.
  rewrite Dict.get_pop. by case_decide.
Qed.

Lemma run_valid {A} (op : store_op A) now a : valid a → valid (run op now a).1.
Proof.
  intros Hv. destruct op as [k|k v ttl|k|prefix|k p v ttl|lk p e k v ttl ife|k lo hi|k ttl]; simpl.
  - unfold get. destruct (live_entry_eq k now a) as (? & -> & ? & ?). simpl. auto.
  - by apply set_valid.
  - by apply Dict.NoDup_keys_pop.
  - done.
  - destruct (append_cases k p v ttl now (cells a) a) as (a' & ? & H); [done..|].
    by destruct (Spec.append _ _ _ _ _ _) as [[]|]; destruct H as [-> _].
  - destruct (append_and_set_cases lk p e k v ttl ife now a) as (a' & ? & H); [done|].
    by destruct (Spec.append_and_set _ _ _ _ _ _ _ _ _) as [[]|]; destruct H as [-> _].
  - unfold read_range. destruct (log_eq k now a) as (? & -> & ? & ?). simpl. auto.
  - by apply expire_same.
Qed.

Lemma run_ok {A} (op : store_op A) now a a' r :
  valid a → run op now a = (a', Ok r) →
  result op now (cells a) r ∧ same_from now (cells a') (effect op now (cells a)).
Proof.
  intros Hv. destruct op as [k|k v ttl|k|prefix|k p v ttl|lk p e k v ttl ife|k lo hi|k ttl]; simpl.
  - unfold get, Spec.get. destruct (live_entry_eq k now a) as (? & -> & ? & ?).
    intros [= <- <-]. done.
  - intros [= <- <-]. split; [done|]. by apply set_same.
  - intros [= <- <-]. split; [done|]. by apply delete_cells.
  - intros [= <- <-]. split; [|done]. intros k. by apply list_elem.
  - destruct (append_cases k p v ttl now (cells a) a) as (? & ? & H); [done..|].
    destruct (Spec.append _ _ _ _ _ _) as [[]|]; destruct H as [-> H]; intros [= <- <-];
      split; try done; eexists; split; done.
  - destruct (append_and_set_cases lk p e k v ttl ife now a) as (? & ? & H); [done|].
    destruct (Spec.append_and_set _ _ _ _ _ _ _ _ _) as [[]|]; destruct H as [-> H];
      intros [= <- <-]; split; try done; eexists; split; done.
  - unfold read_range, Spec.read_range. destruct (log_eq k now a) as (? & -> & ? & ?).
    by intros [= <- ?].
  - intros [= <- <-]. split; [done|]. by apply expire_same.
Qed.
End ActorFacts.

#[export] Instance actor_store : StateStore Actor.t := @Actor.run.

#[export] Instance actor_ok : StateStoreOk Actor.t := {
  cells := Actor.cells;
  ss_valid := Actor.valid;
  ss_run_valid _ op now a := ActorFacts.run_valid op now a;
  ss_run_ok _ op now a a' r := ActorFacts.run_ok op now a a' r;
}.

(** ** The client: [MemoryStateStore] *)

Module Client.
(** What Ray makes of one call to the actor: it answers; it can't be reached, before or after
    it ran the method; or it died, and Ray restarted it with nothing stored. *)
Inductive fate : Type :=
| Answered
| Unreachable (applied : bool)
| Restarted.

Record t : Type := mk {
  (** [_handle is not None] *)
  handle : bool;
  (** [ray.is_initialized()] *)
  initialized : bool;
  actor : Actor.t;
  (** the fates of the calls to come; those past the end of the list are answered *)
  fates : list fate;
}.

(** [__init__]: construction makes no Ray call. *)
Definition init (initialized : bool) (actor : Actor.t) (fates : list fate) : t :=
  mk false initialized actor fates.

(** [_actor]: the cached handle, or the one a lookup resolves. *)
Definition resolve (c : t) : res t :=
  if handle c then Ok c
  else if initialized c then Ok (mk true (initialized c) (actor c) (fates c))
  else Err StateStoreUnavailableError.

(** [_call] and [_acall]: a [RayActorError] drops the cached handle. *)
Definition call {A} (op : store_op A) (now : Z) (c : t) : t * res A :=
  match resolve c with
  | Err e => (c, Err e)
  | Ok c =>
      let fates' := tail (fates c) in
      match default Answered (head (fates c)) with
      | Answered =>
          let '(a, r) := Actor.run op now (actor c) in (mk true (initialized c) a fates', r)
      | Unreachable applied =>
          let a := if applied then (Actor.run op now (actor c)).1 else actor c in
          (mk false (initialized c) a fates', Err StateStoreUnavailableError)
      | Restarted =>
          (mk false (initialized c) (Actor.init now (Actor.sweep_interval (actor c))) fates',
           Err StateStoreUnavailableError)
      end
  end.
End Client.

#[export] Instance client_store : StateStore Client.t := @Client.call.

Module ClientFacts.
Import Client.

Lemma resolve_actor c c' : resolve c = Ok c' → actor c' = actor c ∧ fates c' = fates c.
Proof. unfold resolve. by repeat case_match; intros; simplify_eq/=. Qed.

Lemma call_valid {A} (op : store_op A) now c :
  Actor.valid (actor c) → Actor.valid (actor (call op now c).1).
Proof.
  intros Hv. unfold call. destruct (resolve c) as [c'|] eqn:E; [|done].
  apply resolve_actor in E as [Ea _]. rewrite <-Ea in Hv.
  pose proof (ActorFacts.run_valid op now (actor c') Hv) as Hr.
  destruct (default Answered (head (fates c'))) as [|[]|]; simpl; try done; [|constructor].
  by destruct (Actor.run op now (actor c')).
Qed.

(** A call that returns was answered by the actor. *)
Lemma call_ok {A} (op : store_op A) now c c' r :
  call op now c = (c', Ok r) → Actor.run op now (actor c) = (actor c', Ok r).
Proof.
  unfold call. destruct (resolve c) as [c1|] eqn:E; [|done].
  apply resolve_actor in E as [Ea _]. rewrite <-Ea.
  destruct (default Answered (head (fates c1))); [|done..].
  destruct (Actor.run op now (actor c1)) as [a r']. by intros [= <- ->].
Qed.
End ClientFacts.

#[export] Instance client_ok : StateStoreOk Client.t := {
  cells c := Actor.cells (Client.actor c);
  ss_valid c := Actor.valid (Client.actor c);
  ss_run_valid _ op now c := ClientFacts.call_valid op now c;
  ss_run_ok _ op now c c' r Hv H := ActorFacts.run_ok op now _ _ r Hv (ClientFacts.call_ok op now c c' r H);
}.

(** ** The instrumented wrapper

    [src/modelship/state/__init__.py], [_InstrumentedStateStore]: every call is counted by
    operation and outcome, and its result or exception passed on. *)
Module Instrumented.
Record t (S : Type) : Type := mk {
  inner : S;
  backend : string;
  (** [STATE_STORE_OPERATIONS_TOTAL]: the (op, result) of each call, newest first *)
  recorded : list (string * string);
}.
Arguments mk {S}. Arguments inner {S}. Arguments backend {S}. Arguments recorded {S}.

(** The name each method records itself under. *)
Definition op_name {A} (op : store_op A) : string :=
  match op with
  | OGet _ => "get" | OSet _ _ _ => "set" | ODelete _ => "delete" | OList _ => "list"
  | OAppend _ _ _ _ => "append" | OAppendAndSet _ _ _ _ _ _ _ => "append_and_set"
  | OReadRange _ _ _ => "read_range" | OExpire _ _ => "expire"
  end.

(** [_record]: a metrics failure ([sink] false) is swallowed. *)
Definition record (sink : bool) (op result : string) (l : list (string * string))
    : list (string * string) := if sink then (op, result) :: l else l.

(** [_run] and [_arun] *)
Definition run `{StateStore T} (sink : bool) {A} (op : store_op A) (now : Z) (w : t T)
    : t T * res A :=
  let '(s, r) := ss_run op now (inner w) in
  let result := if r is Ok _ then "ok"%string else "error"%string in
  (mk s (backend w) (record sink (op_name op) result (recorded w)), r).
End Instrumented.

#[export] Instance instrumented_store `{StateStore T} : StateStore (Instrumented.t T) :=
  @Instrumented.run T _ true.

Lemma instrumented_run_inner `{StateStore T} sink {A} (op : store_op A) now (w : Instrumented.t T) :
  let '(s, r) := ss_run op now (Instrumented.inner w) in
  (Instrumented.run sink op now w).2 = r ∧ Instrumented.inner (Instrumented.run sink op now w).1 = s.
Proof. unfold Instrumented.run. by destruct (ss_run op now _). Qed.

Lemma instrumented_valid `{StateStoreOk T} {A} (op : store_op A) now (w : Instrumented.t T) :
  ss_valid (Instrumented.inner w) → ss_valid (Instrumented.inner (ss_run op now w).1).
Proof.
  intros Hv. apply (ss_run_valid op now) in Hv.
  pose proof (instrumented_run_inner true op now w) as Hi. unfold ss_run at 1.
  unfold instrumented_store. destruct (ss_run op now (Instrumented.inner w)).
  by destruct Hi as [_ ->].
Qed.

Lemma instrumented_ok_run `{StateStoreOk T} {A} (op : store_op A) now (w w' : Instrumented.t T) a :
  ss_valid (Instrumented.inner w) → ss_run op now w = (w', Ok a) →
  result op now (cells (Instrumented.inner w)) a ∧
  same_from now (cells (Instrumented.inner w')) (effect op now (cells (Instrumented.inner w))).
Proof.
  intros Hv E. pose proof (instrumented_run_inner true op now w) as Hi.
  unfold ss_run at 1, instrumented_store in E.
  destruct (ss_run op now (Instrumented.inner w)) as [s r] eqn:Er. rewrite E in Hi.
  destruct Hi as [Hr Hs]; simpl in *. subst. by apply ss_run_ok.
Qed.

#[export] Instance instrumented_ok `{StateStoreOk T} : StateStoreOk (Instrumented.t T) := {
  cells w := cells (Instrumented.inner w);
  ss_valid w := ss_valid (Instrumented.inner w);
  ss_run_valid _ op now w := instrumented_valid op now w;
  ss_run_ok _ op now w w' r := instrumented_ok_run op now w w' r;
}.

(** ** Sessions

    A session is a sequence of calls with the clock readings they run at, of any store. *)

Inductive call : Type := | Call {A : Type} (now : Z) (op : store_op A).

(** A call and what it returned. *)
Inductive answer : Type := | Answer {A : Type} (now : Z) (op : store_op A) (a : A).

Definition call_time (c : call) : Z := let '(Call now _) := c in now.

Definition times_from (now : Z) (cs : list call) : Prop :=
  StronglySorted Z.le (now :: (call_time <$> cs)).

(** The session's answers, when every call returns. *)
Fixpoint session `{StateStore T} (cs : list call) (s : T) : T * res (list answer) :=
  match cs with
  | [] => (s, Ok [])
  | Call now op :: cs =>
      let '(s, r) := ss_run op now s in
      match r with
      | Ok a => let '(s, r) := session cs s in (s, l ← r; mret (Answer now op a :: l))
      | Err e => (s, Err e)
      end
  end.

(** The answers the abstract map gives, and the map it ends as. *)
Inductive explains : content → list answer → content → Prop :=
| explains_nil m m' : (∀ k, m k = m' k) → explains m [] m'
| explains_cons {A : Type} (now : Z) (op : store_op A) a m l m' :
    result op now m a → explains (effect op now m) l m' → explains m (Answer now op a :: l) m'.

Module SessionFacts.
Section facts.
Context `{StateStoreOk T}.

(** Two contents that agree from [now] on give the same answers to calls from [now] on. *)
Lemma session_explained (cs : list call) (s s' : T) now m l :
  ss_valid s → times_from now cs → same_from now (cells s) m → session cs s = (s', Ok l) →
  ∃ m', explains m l m' ∧ ss_valid s' ∧
    same_from (default now (last (call_time <$> cs))) (cells s') m'.
Proof.
  revert s now m l. induction cs as [|[A t op] cs IH]; intros s now m l Hv Ht Hm.
  { intros [= <- <-]. exists m. split; [by constructor|done]. }
  simpl. destruct (ss_run op t s) as [s1 [a|e]] eqn:E; [|done].
  destruct (session cs s1) as [s2 [l'|e]] eqn:El; [|done]. intros [= <- <-].
  pose proof (ss_run_valid op t s Hv) as Hv1. rewrite E in Hv1. simpl in Hv1.
  destruct (ss_run_ok op t s s1 a Hv E) as [Hr Hs].
  unfold times_from in Ht. simpl in Ht. apply StronglySorted_inv in Ht as [Ht Hle].
  assert (now ≤ t) by (by inversion Hle).
  assert (same_from t (cells s) m) as Hmt by (by eapply same_from_mono).
  destruct (IH s1 t (effect op t m) l') as (m' & Hex & Hv' & Hm'); [done|done| |done|].
  { rewrite Hs. by apply effect_proper. }
  exists m'. split_and!; [|done|].
  - apply explains_cons; [by eapply result_same|done].
  - cbn [fmap list_fmap call_time]. rewrite last_cons. unfold fmap in *. by destruct (last (list_fmap call Z call_time cs)).
Qed.
End facts.

(** *** Logs *)

(** A log as the appends leave it: pairs with increasing positions. *)
Definition log_of (es : list (Z * json)) : list json := (λ pv, Spec.pair_of pv.1 pv.2) <$> es.

(** The appends a log accepts, after [last]. *)
Fixpoint accepted (last : option Z) (es : list (Z * json)) : list (Z * json) :=
  match es with
  | [] => []
  | (p, v) :: es =>
      if (if last is Some q then q <? p else true) then (p, v) :: accepted (Some p) es
      else accepted last es
  end.

(** The inclusive position range of a read. *)
Definition within (lo : Z) (hi : option Z) (p : Z) : bool :=
  (lo <=? p) && (if hi is Some h then p <=? h else true).

Lemma select_log_of lo hi es :
  Spec.select lo hi (log_of es) =
    Ok (snd <$> filter (λ pv, within lo hi pv.1 = true) es).
Proof.
  induction es as [|[p v] es IH]; [done|]. simpl. unfold Spec.in_range. simpl.
  change (fmap _ es) with (log_of es) in *. change (list_fmap _ _ _ es) with (log_of es). rewrite IH.
  rewrite filter_cons; unfold within; simpl. destruct (Z.leb_spec lo p) as [Hlo|Hlo]; simpl.
  - destruct hi as [h|]; simpl; unfold py_le; simpl; [|done].
    unfold flip. by destruct (Z.leb_spec p h).
  - done.
Qed.

Lemma last_log_of es : last (log_of es) = (λ pv, Spec.pair_of pv.1 pv.2) <$> last es.
Proof. apply fmap_last. Qed.

Lemma accepted_app_last q p v es :
  q < p → accepted (Some q) ((p, v) :: es) = (p, v) :: accepted (Some p) es.
Proof. intros. simpl. by rewrite (proj2 (Z.ltb_lt q p)). Qed.

Lemma accepted_sorted o es :
  StronglySorted Z.lt ((accepted o es).*1) ∧ (∀ q, o = Some q → Forall (Z.lt q) ((accepted o es).*1)).
Proof.
  revert o. induction es as [|[p v] es IH]; intros o; simpl; [by repeat constructor|].
  destruct (if o is Some q then q <? p else true) eqn:E; [|apply IH].
  destruct (IH (Some p)) as [Hs Hp]. specialize (Hp p eq_refl). split; simpl.
  - by constructor.
  - intros q ->. apply Z.ltb_lt in E. constructor; [done|]. eapply Forall_impl; [done|]. simpl. lia.
Qed.

(** The appends of a session to one log. *)
Definition append_calls (k : string) (es : list (Z * (Z * json))) : list call :=
  (λ e, Call e.1 (OAppend k e.2.1 e.2.2 None)) <$> es.

Section facts2.
Context `{StateStoreOk T}.

Lemma append_on_log k p v now m es :
  Spec.log k now m = log_of es →
  Spec.append k p v None now m =
    Ok (if (if (last es) is Some (q, _) then q <? p else true)
        then Some (Spec.set k (JList (log_of (es ++ [(p, v)]))) None now m) else None).
Proof.
  intros Hlog. unfold Spec.append. rewrite Hlog, last_log_of.
  assert (log_of es ++ [Spec.pair_of p v] = log_of (es ++ [(p, v)])) as ->
    by (unfold log_of; by rewrite fmap_app).
  destruct (last es) as [[q w]|]; simpl; [|done]. unfold py_ge; simpl.
  destruct (Z.leb_spec p q), (Z.ltb_spec q p); done || lia.
Qed.

Lemma append_session k es (s s' : T) now old l :
  ss_valid s → times_from now (append_calls k es) →
  (∀ t, now ≤ t → Spec.log k t (cells s) = log_of old) →
  session (append_calls k es) s = (s', Ok l) →
  ss_valid s' ∧ ∀ t, now ≤ t → (∀ e, e ∈ es → e.1 ≤ t) →
    Spec.log k t (cells s') = log_of (old ++ accepted (fst <$> last old) (snd <$> es)).
Proof.
  revert s now old l. induction es as [|[t0 [p v]] es IH]; intros s now old l Hv Ht Hold.
  { intros [= <- <-]. rewrite app_nil_r. split; [done|]. intros t ? _. by apply Hold. }
  simpl. destruct (ss_run _ t0 s) as [s1 [b|e]] eqn:E; [|done].
  destruct (session (append_calls k es) s1) as [s2 [l'|e]] eqn:El; [|done]. intros [= <- <-].
  unfold times_from in Ht. simpl in Ht. apply StronglySorted_inv in Ht as [Ht Hle].
  assert (now ≤ t0) by (by inversion Hle).
  apply op_write_ok in E as (Hv1 & (r & Hr & _) & Hs); [|done]. simpl in Hs.
  rewrite (append_on_log _ _ _ _ _ old) in Hr by (by apply Hold).
  rewrite (append_on_log _ _ _ _ _ old) in Hs by (by apply Hold).
  set (ok := if (last old) is Some (q, _) then q <? p else true) in *.
  assert ((if fst <$> last old is Some q then q <? p else true) = ok) as Hok
    by (subst ok; by destruct (last old) as [[]|]).
  rewrite Hok. clear Hr.
  destruct (IH s1 t0 (if ok then old ++ [(p, v)] else old) l') as [Hv' IHt]; [done|done| |done|].
  { intros t Htt. apply (same_from_mono _ t) in Hs; [|done]. destruct ok.
    - rewrite (Spec_log_proper k t _ _ Hs). unfold Spec.log, Spec.set, Spec.upd.
      by rewrite decide_True.
    - rewrite (Spec_log_proper k t _ _ Hs). apply Hold. lia. }
  split; [done|]. intros t Hnow Hes. rewrite IHt.
  - destruct ok.
    + rewrite last_snoc, <-app_assoc. done.
    + done.
  - apply (Hes (t0, (p, v))). constructor.
  - intros e He. apply Hes. by constructor.
Qed.
End facts2.
End SessionFacts.

(** ** Failed calls *)

Module FailureFacts.
Section facts.
Implicit Types (a : Actor.t) (c : Client.t).

(** An actor method that raises has changed nothing a caller can see. *)
Lemma actor_raises {A} (op : store_op A) now a a' e :
  Actor.valid a → Actor.run op now a = (a', Err e) → same_from now (Actor.cells a') (Actor.cells a).
Proof.
  intros Hv. destruct op as [k|k v ttl|k|prefix|k p v ttl|lk p x k v ttl ife|k lo hi|k ttl]; simpl.
  - unfold Actor.get. destruct (Actor.live_entry k now a). by intros [=].
  - done.
  - done.
  - done.
  - destruct (ActorFacts.append_cases k p v ttl now (Actor.cells a) a) as (? & ? & H); [done..|].
    destruct (Spec.append _ _ _ _ _ _) as [[]|]; destruct H as [-> H]; by intros [= <- <-].
  - destruct (ActorFacts.append_and_set_cases lk p x k v ttl ife now a) as (? & ? & H); [done|].
    destruct (Spec.append_and_set _ _ _ _ _ _ _ _ _) as [[]|]; destruct H as [-> H]; by intros [= <- <-].
  - unfold Actor.read_range. destruct (ActorFacts.log_eq k now a) as (? & -> & ? & ?).
    by intros [= <- ?].
  - done.
Qed.

#[export] Instance actor_atomic : StateStoreAtomic Actor.t.
Proof. intros A op now a a' e. apply actor_raises. Qed.

(** What a failed call leaves: the store unchanged, changed as asked, or emptied. *)
Lemma call_fails {A} (op : store_op A) now c c' e :
  Actor.valid (Client.actor c) → Client.call op now c = (c', Err e) →
  let m := Actor.cells (Client.actor c) in let m' := Actor.cells (Client.actor c') in
  Client.initialized c' = Client.initialized c ∧
  (same_from now m' m ∨
   (∃ r, (Actor.run op now (Client.actor c)).2 = Ok r ∧ e = StateStoreUnavailableError ∧
         same_from now m' (effect op now m)) ∨
   (e = StateStoreUnavailableError ∧ ∀ k, m' k = None)).
Proof.
  intros Hv. unfold Client.call. destruct (Client.resolve c) as [c1|x] eqn:E; [|intros [= <- <-]; split; [done|by left]].
  assert (Client.initialized c1 = Client.initialized c) as ->.
  { revert E. unfold Client.resolve. repeat case_match; intros; by simplify_eq/=. }
  apply ClientFacts.resolve_actor in E as [Ea _]. rewrite Ea.
  destruct (default Client.Answered (head (Client.fates c1))) as [|[]|]; simpl.
  - destruct (Actor.run op now (Client.actor c)) as [a r] eqn:Er. intros [= <- ->]; simpl.
    split; [done|]. left. by eapply actor_raises.
  - destruct (Actor.run op now (Client.actor c)) as [a r] eqn:Er. intros [= <- <-]; simpl.
    split; [done|]. destruct r as [r|x].
    + right; left. exists r. split_and!; [done..|]. by eapply ActorFacts.run_ok.
    + left. by eapply actor_raises.
  - intros [= <- <-]; simpl. split; [done|]. by left.
  - intros [= <- <-]; simpl. split; [done|]. right; right. done.
Qed.

Lemma call_answered {A} (op : store_op A) now c :
  Client.initialized c = true → head (Client.fates c) = None ∨ head (Client.fates c) = Some Client.Answered →
  (Client.call op now c).2 = (Actor.run op now (Client.actor c)).2.
Proof.
  intros Hi Hf. unfold Client.call, Client.resolve. rewrite Hi.
  by destruct (Client.handle c); simpl; destruct Hf as [->| ->]; simpl;
    destruct (Actor.run op now (Client.actor c)).
Qed.
End facts.
End FailureFacts.

(** ** Theorems *)

Module StoreTheorems.
Import SessionFacts.

(** *** Sessions that go on after an exception, over the store as it is deployed *)

Definition deployed : Type := Instrumented.t Client.t.

(** A call and how it ended. *)
Inductive ending : Type :=
| Returned {A : Type} (now : Z) (op : store_op A) (a : A)
| Failed {A : Type} (now : Z) (op : store_op A) (e : exn).

Fixpoint caught (cs : list call) (w : deployed) : deployed * list ending :=
  match cs with
  | [] => (w, [])
  | Call now op :: cs =>
      let '(w, r) := Instrumented.run true op now w in
      let '(w', l) := caught cs w in
      (w', match r with Ok a => Returned now op a | Err e => Failed now op e end :: l)
  end.

(** What a map would answer, for the calls that returned, and what became of it in those that did not. *)
Inductive accounts : content → list ending → content → Prop :=
| accounts_nil m m' : (∀ k, m k = m' k) → accounts m [] m'
| accounts_returned {A} now (op : store_op A) a m l m' :
    result op now m a → accounts (effect op now m) l m' → accounts m (Returned now op a :: l) m'
| accounts_unchanged {A} now (op : store_op A) e m l m' :
    accounts m l m' → accounts m (Failed now op e :: l) m'
(** done, and its answer lost *)
| accounts_done {A} now (op : store_op A) a m l m' :
    result op now m a → accounts (effect op now m) l m' → accounts m (Failed now op StateStoreUnavailableError :: l) m'
(** the actor died, and was restarted *)
| accounts_emptied {A} now (op : store_op A) m l m' :
    accounts (λ _, None) l m' → accounts m (Failed now op StateStoreUnavailableError :: l) m'.

(** What the metrics say of a call *)
Definition counted (x : ending) : string * string :=
  match x with
  | Returned _ op _ => (Instrumented.op_name op, "ok"%string)
  | Failed _ op _ => (Instrumented.op_name op, "error"%string)
  end.

Definition contents (w : deployed) : content := Actor.cells (Client.actor (Instrumented.inner w)).

Lemma caught_accounted cs : ∀ (w : deployed) now m,
  Actor.valid (Client.actor (Instrumented.inner w)) → times_from now cs → same_from now (contents w) m →
  let '(w', l) := caught cs w in
  ∃ m', accounts m l m' ∧ same_from (default now (last (call_time <$> cs))) (contents w') m' ∧
    Instrumented.recorded w' = reverse (counted <$> l) ++ Instrumented.recorded w.
Proof.
  induction cs as [|[A t op] cs IH]; intros w now m Hv Ht Hm.
  { exists m. split; [by constructor|]. by split. }
  cbn [caught]. unfold times_from in Ht. simpl in Ht. apply StronglySorted_inv in Ht as [Ht Hle].
  assert (now ≤ t) as Hnow by (by inversion Hle). apply (same_from_mono _ t) in Hm; [|done].
  unfold Instrumented.run. change (ss_run op t (Instrumented.inner w)) with (Client.call op t (Instrumented.inner w)).
  pose proof (ClientFacts.call_valid op t _ Hv) as Hv1. pose proof (FailureFacts.call_fails op t (Instrumented.inner w)) as Hfail.
  pose proof (ClientFacts.call_ok op t (Instrumented.inner w)) as Hok.
  destruct (Client.call op t (Instrumented.inner w)) as [c1 r] eqn:Ec. cbn [fst] in Hv1.
  set (w1 := Instrumented.mk c1 _ _).
  assert (default now (last (t :: (call_time <$> cs))) = default t (last (call_time <$> cs))) as Elast.
  { rewrite last_cons. by destruct (last (call_time <$> cs)). }
  cbn [fmap list_fmap call_time]. change (list_fmap call Z call_time cs) with (call_time <$> cs). rewrite Elast.
  assert (∀ m1, same_from t (contents w1) m1 → let '(w', l) := caught cs w1 in ∃ m', accounts m1 l m' ∧
    same_from (default t (last (call_time <$> cs))) (contents w') m' ∧
    Instrumented.recorded w' = reverse (counted <$> l) ++ Instrumented.recorded w1) as Hrest.
  { intros m1 Hm1. by apply (IH w1 t m1). }
  destruct (caught cs w1) as [w' l].
  assert (∀ x, counted x = (Instrumented.op_name op, if r is Ok _ then "ok"%string else "error"%string) →
    reverse (counted <$> l) ++ Instrumented.recorded w1 = reverse (counted <$> x :: l) ++ Instrumented.recorded w) as Hcount.
  { intros x Hx. rewrite fmap_cons, reverse_cons, <-app_assoc, Hx. done. }
  destruct r as [a|e].
  - specialize (Hok _ _ eq_refl). apply (ActorFacts.run_ok op t _ _ _ Hv) in Hok as [Hres Heff].
    destruct (Hrest (effect op t m)) as (m' & Hacc & Hsame & Hrec).
    { etrans; [exact Heff|]. by apply effect_proper. }
    exists m'. split; [eapply accounts_returned; [by eapply result_same|done]|]. split; [done|].
    rewrite Hrec. by apply Hcount.
  - destruct (Hfail _ _ Hv eq_refl) as (_ & [Hs|[(b & Hb & -> & Hs)|(-> & Hs)]]).
    + destruct (Hrest m) as (m' & Hacc & Hsame & Hrec); [by etrans|].
      exists m'. split; [by apply accounts_unchanged|]. split; [done|]. rewrite Hrec. by apply Hcount.
    + destruct (Actor.run op t (Client.actor (Instrumented.inner w))) as [a' r'] eqn:Er. cbn in Hb. subst r'.
      apply (ActorFacts.run_ok op t _ _ _ Hv) in Er as [Hres _].
      destruct (Hrest (effect op t m)) as (m' & Hacc & Hsame & Hrec).
      { etrans; [exact Hs|]. by apply effect_proper. }
      exists m'. split; [eapply accounts_done; [by eapply result_same|done]|]. split; [done|]. rewrite Hrec. by apply Hcount.
    + destruct (Hrest (λ _, None)) as (m' & Hacc & Hsame & Hrec); [split; intros k t' _; unfold contents, w1; cbn; by rewrite Hs|].
      exists m'. split; [by apply accounts_emptied|]. split; [done|]. rewrite Hrec. by apply Hcount.
Qed.


(** A session through the instrumented client, its store just restarted; one answer is lost on its way. *)
Definition example_client (fates : list Client.fate) : Instrumented.t Client.t :=
  Instrumented.mk (Client.init true (Actor.init 0 10) fates) "memory" [].
Definition example_calls : list call :=
  [Call 1 (OSet "a/b" (JInt 1) (Some 5)); Call 2 (OAppend "log" 1 (JInt 7) None);
   Call 3 (OGet "a/b"); Call 12 (OList "a/"); Call 13 (OAppend "log" 1 (JInt 8) None);
   Call 14 (OReadRange "log" 0 None)]%string.


(** A log keeps exactly the appends above its last position, in order: after a session of
    appends to a fresh log, positions increase strictly, and reading a range of positions gives
    the values of the accepted appends in that range, none twice and none out of order. *)
Theorem log_append_read `{StateStoreOk T} k es (s s' : T) now l t lo hi s'' vs :
  ss_valid s → times_from now (append_calls k es) →
  (∀ t, now ≤ t → Spec.log k t (cells s) = []) →
  session (append_calls k es) s = (s', Ok l) → now ≤ t → (∀ e, e ∈ es → e.1 ≤ t) →
  ss_run (OReadRange k lo hi) t s' = (s'', Ok vs) →
  let kept := accepted None (snd <$> es) in
  StronglySorted Z.lt (kept.*1) ∧
  vs = (filter (λ pv, within lo hi pv.1 = true) kept).*2.
Proof.
  intros Hv Ht Hold Hl Hnow Hes Hr kept.
  destruct (append_session k es s s' now [] l Hv Ht Hold Hl) as [Hv' Hlog].
  split; [apply accepted_sorted|].
  apply op_write_ok in Hr as (_ & Hr & _); [|done]. simpl in Hr. unfold Spec.read_range in Hr.
  rewrite Hlog in Hr by done. simpl in Hr. rewrite select_log_of in Hr. by injection Hr.
Qed.

Lemma log_append_read_witness :
  let es := [(1, (1, JInt 10)); (2, (3, JInt 30)); (3, (2, JInt 20)); (4, (4, JInt 40))] in
  let s' := (session (append_calls "k" es) (Actor.init 0 0)).1 in
  (ss_run (OReadRange "k" 2 None) 9 s').2 = Ok [JInt 30; JInt 40].
Proof.
  intros es s'.
  destruct (log_append_read "k" es (Actor.init 0 0) s' 0
    (ok_or [] (session (append_calls "k" es) (Actor.init 0 0)).2) 9 2 None
    (ss_run (OReadRange "k" 2 None) 9 s').1
    (ok_or [] (ss_run (OReadRange "k" 2 None) 9 s').2)) as [_ E].
  - constructor.
  - unfold times_from. simpl. repeat constructor; discriminate.
  - reflexivity.
  - vm_compute. reflexivity.
  - lia.
  - intros e [->|[->|[->|[->|[]%elem_of_nil]%elem_of_cons]%elem_of_cons]%elem_of_cons]%elem_of_cons; simpl; lia.
  - vm_compute. reflexivity.
  - vm_compute. reflexivity.
Defined.

(** A failed call never corrupts the store and never sticks: it leaves the content as it was,
    as the operation would leave it, or (the actor died) empty, the last two only when it raises
    [StateStoreUnavailableError]; and the next call the actor answers returns the actor's result. *)
Theorem failed_call_bounded {A B} (op : store_op A) (op' : store_op B) now now' c c' e :
  Actor.valid (Client.actor c) → Client.initialized c = true → Client.call op now c = (c', Err e) →
  head (Client.fates c') = None ∨ head (Client.fates c') = Some Client.Answered →
  (same_from now (cells c') (cells c) ∨
   (e = StateStoreUnavailableError ∧
    (same_from now (cells c') (effect op now (cells c)) ∨ ∀ k, cells c' k = None))) ∧
  (Client.call op' now' c').2 = (Actor.run op' now' (Client.actor c')).2.
Proof.
  intros Hv Hi Hc Hf. destruct (FailureFacts.call_fails op now c c' e Hv Hc) as (Hi' & Hcases).
  split; [|apply FailureFacts.call_answered; congruence].
  destruct Hcases as [?|[(r & _ & -> & ?)|[-> ?]]]; auto.
Qed.

Lemma failed_call_bounded_witness :
  let c := Client.init true (Actor.set "k" (JInt 1) None 0 (Actor.init 0 10)) [Client.Restarted] in
  let c' := (Client.call (OGet "k") 5 c).1 in
  (Client.call (OGet "k") 5 c).2 = Err StateStoreUnavailableError ∧
  (Client.call (OGet "k") 6 c').2 = Ok None.
Proof.
  intros c c'. split; [reflexivity|].
  destruct (failed_call_bounded (OGet "k") (OGet "k") 5 6 c c' StateStoreUnavailableError) as [_ ->].
  - repeat constructor. simpl. apply not_elem_of_nil.
  - reflexivity.
  - reflexivity.
  - left. reflexivity.
  - reflexivity.
Defined.
End StoreTheorems.
