(* ===== verification/ConfigSchema.v ===== *)
(** * The models.yaml schema

    [src/modelship/utils/config_schema.py]: one model's configuration, the checks that run
    after its fields are read, and the deployment name it is served under. Field reading is
    pydantic's, so the functions here start from the fields it read. [Registry] is
    [src/modelship/infer/sherpa_onnx/registry.py]. *)

From S2P Require Import Prelude.
Local Open Scope Z_scope.

(** ** Text helpers *)

Definition is_hex (a : ascii) : bool :=
  let n := nat_of_ascii a in
  ((48 <=? n) && (n <=? 57) || (97 <=? n) && (n <=? 102))%nat.

Fixpoint str_all (f : ascii → bool) (s : string) : bool :=
  match s with EmptyString => true | String a s => f a && str_all f s end.

(** [s[:n]] and [s[n:]] *)
Fixpoint str_take (n : nat) (s : string) : string :=
  match n, s with S n, String a s => String a (str_take n s) | _, _ => "" end.
Fixpoint str_drop (n : nat) (s : string) : string :=
  match n, s with S n, String _ s => str_drop n s | _, _ => s end.

(** The text before and after the first [c]. *)
Fixpoint split_first (c : ascii) (s : string) : option (string * string) :=
  match s with
  | EmptyString => None
  | String a s =>
      if decide (a = c) then Some (""%string, s)
      else (λ p, (String a p.1, p.2)) <$> split_first c s
  end.

Definition newline : ascii := "010"%char.

(** ** Enumerations *)

Inductive ModelUsecase : Set := generate | embed | transcription | translation | tts | image.
Inductive ModelLoader : Set :=
| vllm | diffusers | llama_server | stable_diffusion_cpp | whispercpp | sherpa_onnx.

#[export] Instance usecase_eq_dec : EqDecision ModelUsecase.
Proof. solve_decision. Defined.
#[export] Instance loader_eq_dec : EqDecision ModelLoader.
Proof. solve_decision. Defined.

Definition loader_value (l : ModelLoader) : string :=
  match l with
  | vllm => "vllm" | diffusers => "diffusers" | llama_server => "llama_server"
  | stable_diffusion_cpp => "stable_diffusion_cpp" | whispercpp => "whispercpp"
  | sherpa_onnx => "sherpa_onnx"
  end.

Definition usecase_value (u : ModelUsecase) : string :=
  match u with
  | generate => "generate" | embed => "embed" | transcription => "transcription"
  | translation => "translation" | tts => "tts" | image => "image"
  end.

(** ** The sherpa_onnx registry *)

Module Registry.
Record entry : Type := mk {
  tarball_url : string;
  sha256 : string;
  family : string;
  usecase : string;
  files : dict string;
  dirs : dict string;
  chinese_lexicon : option string;
  voice_names : list string;
}.

Definition release_base : string :=
  "https://github.com/modelship-ai/model-bundles/releases/download/tts/kokoro".

Definition kokoro_files : dict string :=
  [("model", "model.onnx"); ("tokens", "tokens.txt"); ("voices", "voices.bin")]%string.

Definition REGISTRY : dict entry := [
  ("kokoro-en-v0_19", {|
    tarball_url := release_base +:+ "/kokoro-en-v0_19-91280485.tar.bz2";
    sha256 := "912804855a04745fa77a30be545b3f9a5d15c4d66db00b88cbcd4921df605ac7";
    family := "kokoro"; usecase := "tts"; files := kokoro_files; dirs := [];
    chinese_lexicon := None;
    voice_names := ["af"; "af_bella"; "af_nicole"; "af_sarah"; "af_sky"; "am_adam";
      "am_michael"; "bf_emma"; "bf_isabella"; "bm_george"; "bm_lewis"]
  |});
  ("kokoro-multi-lang-v1_0", {|
    tarball_url := release_base +:+ "/kokoro-multi-lang-v1_0-c5f7e2d2.tar.bz2";
    sha256 := "c5f7e2d2caf082bc1d20fb70334a61d99d20b484500aad32e7cf84c128ea3298";
    family := "kokoro"; usecase := "tts"; files := kokoro_files; dirs := [];
    chinese_lexicon := Some "lexicon-zh.txt";
    voice_names := ["af_alloy"; "af_aoede"; "af_bella"; "af_heart"; "af_jessica"; "af_kore";
      "af_nicole"; "af_nova"; "af_river"; "af_sarah"; "af_sky"; "am_adam"; "am_echo"; "am_eric";
      "am_fenrir"; "am_liam"; "am_michael"; "am_onyx"; "am_puck"; "am_santa"; "bf_alice";
      "bf_emma"; "bf_isabella"; "bf_lily"; "bm_daniel"; "bm_fable"; "bm_george"; "bm_lewis";
      "ef_dora"; "em_alex"; "ff_siwis"; "hf_alpha"; "hf_beta"; "hm_omega"; "hm_psi"; "if_sara";
      "im_nicola"; "jf_alpha"; "jf_gongitsune"; "jf_nezumi"; "jf_tebukuro"; "jm_kumo"; "pf_dora";
      "pm_alex"; "pm_santa"; "zf_xiaobei"; "zf_xiaoni"; "zf_xiaoxiao"; "zf_xiaoyi"; "zm_yunjian";
      "zm_yunxi"; "zm_yunxia"; "zm_yunyang"; "em_santa"]
  |})
]%string.

Definition registry_names : list string := Dict.keys REGISTRY.

(** [s.rstrip("/")] *)
Fixpoint rstrip_slash (s : string) : string :=
  match s with
  | EmptyString => ""
  | String a s =>
      let r := rstrip_slash s in
      if bool_decide (r = ""%string) && bool_decide (a = "/"%char) then "" else String a r
  end.

(** [os.path.basename]: what follows the last slash. *)
Definition basename (s : string) : string := default ""%string (last (Str.split "/" s)).

(** [is_pathy] ([src/modelship/utils/__init__.py]) *)
Definition is_pathy (s : string) : bool :=
  Str.startswith s "/" || Str.startswith s "./" || Str.startswith s "~".

Definition registry_name (model : string) : string :=
  if is_pathy model then basename (rstrip_slash model) else model.
End Registry.

(** ** The loader blocks *)

Record ReasoningConfig : Type := {
  reasoning_start_str : option string;
  reasoning_end_str : option string;
}.

Record VllmEngineConfig : Type := mkVllm {
  tensor_parallel_size : Z;
  pipeline_parallel_size : Z;
  max_model_len : option Z;
  dtype : string;
  tokenizer : option string;
  trust_remote_code : bool;
  enable_log_requests : option bool;
  disable_log_stats : option bool;
  kv_cache_dtype : option string;
  quantization : option string;
  enable_auto_tool_choice : option bool;
  tool_call_parser : option string;
  enable_reasoning : option bool;
  reasoning_parser : option string;
  chat_template_content_format : string;
  default_chat_template_kwargs : option json;
  thinking_token_budget : option Z;
  reasoning_config : option ReasoningConfig;
  enforce_eager : option bool;
  enable_prefix_caching : option bool;
  max_num_batched_tokens : option Z;
  max_num_seqs : option Z;
  limit_mm_per_prompt : option json;
  mm_processor_kwargs : option json;
}.

Definition default_vllm : VllmEngineConfig := {|
  tensor_parallel_size := 1; pipeline_parallel_size := 1; max_model_len := None; dtype := "auto";
  tokenizer := None; trust_remote_code := false; enable_log_requests := Some false;
  disable_log_stats := Some false; kv_cache_dtype := None; quantization := None;
  enable_auto_tool_choice := None; tool_call_parser := None; enable_reasoning := None;
  reasoning_parser := None; chat_template_content_format := "auto";
  default_chat_template_kwargs := None; thinking_token_budget := None; reasoning_config := None;
  enforce_eager := None; enable_prefix_caching := None; max_num_batched_tokens := None;
  max_num_seqs := None; limit_mm_per_prompt := None; mm_processor_kwargs := None;
|}.

Definition with_tp (tp : Z) (v : VllmEngineConfig) : VllmEngineConfig :=
  let '(mkVllm _ pp len dt tk trc elr dls kv q eatc tcp er rp ctf dctk ttb rc ee epc mnbt mns lmm mpk) := v in
  mkVllm tp pp len dt tk trc elr dls kv q eatc tcp er rp ctf dctk ttb rc ee epc mnbt mns lmm mpk.

Record DiffusersConfig : Type := {
  df_dtype : string;
  df_num_inference_steps : Z;
  df_guidance_scale : Q;
}.

Record LlamaServerConfig : Type := {
  n_ctx : Z;
  n_batch : Z;
  n_gpu_layers : Z;
  threads : option Z;
  parallel : Z;
  chat_template : option string;
  mmproj : option string;
  cache_reuse : Z;
  context_shift : bool;
  cache_ram_mib : Z;
  ubatch_size : Z;
  ls_flash_attn : string;
  cache_type_k : string;
  cache_type_v : string;
  tensor_split : option (list Q);
  reasoning : option string;
  reasoning_budget : option Z;
  reasoning_budget_message : option string;
  reasoning_preserve : option bool;
  (** [model_fields_set] *)
  ls_fields_set : list string;
}.

Record WhispercppConfig : Type := { wc_n_threads : option Z; wc_flash_attn : bool }.

Record StableDiffusionCppConfig : Type := {
  sample_steps : Z;
  cfg_scale : Q;
  sample_method : string;
  scheduler : string;
  wtype : string;
  sd_n_threads : Z;
  vae_tiling : bool;
  diffusion_model_path : option string;
  clip_l_path : option string;
  clip_g_path : option string;
  t5xxl_path : option string;
  vae_path : option string;
  model_kwargs : json;
}.

Record AutoscalingConfig : Type := mkAutoscaling {
  min_replicas : Z;
  max_replicas : Z;
  initial_replicas : option Z;
  target_ongoing_requests : option Q;
  upscale_delay_s : option Q;
  downscale_delay_s : option Q;
}.

#[export] Instance Q_eq_dec : EqDecision Q.
Proof. solve_decision. Defined.
#[export] Instance autoscaling_eq_dec : EqDecision AutoscalingConfig.
Proof. solve_decision. Defined.

(** [ModelshipModelConfig], without its private attributes, which no check reads. *)
Record ModelConfig : Type := mkModel {
  name : string;
  model : option string;
  usecase : ModelUsecase;
  loader : ModelLoader;
  num_gpus : Q;
  num_cpus : Q;
  num_replicas : Z;
  autoscaling_config : option AutoscalingConfig;
  max_ongoing_requests : option Z;
  vllm_engine_kwargs : VllmEngineConfig;
  diffusers_config : option DiffusersConfig;
  llama_server_config : option LlamaServerConfig;
  stable_diffusion_cpp_config : option StableDiffusionCppConfig;
  whispercpp_config : option WhispercppConfig;
  fields_set : list string;
}.

Definition with_gpus_tp (g : Q) (v : VllmEngineConfig) (c : ModelConfig) : ModelConfig :=
  let '(mkModel n m u l _ nc nr a mor _ df ls sd wc fs) := c in
  mkModel n m u l g nc nr a mor v df ls sd wc fs.

Definition with_name (n : string) (c : ModelConfig) : ModelConfig :=
  let '(mkModel _ m u l g nc nr a mor v df ls sd wc fs) := c in
  mkModel n m u l g nc nr a mor v df ls sd wc fs.

(** [config.model_copy(update=scaling)]: the updated fields count as set. *)
Definition with_scaling (nr : Z) (a : option AutoscalingConfig) (c : ModelConfig) : ModelConfig :=
  let '(mkModel n m u l g nc _ _ mor v df ls sd wc fs) := c in
  mkModel n m u l g nc nr a mor v df ls sd wc (["num_replicas"; "autoscaling_config"]%string ++ fs).

(** ** Checks *)

Definition Qlt_bool (x y : Q) : bool := negb (Qle_bool y x).
Definition Qpos (q : Q) : bool := Qlt_bool (inject_Z 0) q.
Definition Qnonneg (q : Q) : bool := Qle_bool (inject_Z 0) q.

(** [int(q)]: truncation towards zero. *)
Definition Qtrunc (q : Q) : Z := Z.quot (QArith_base.Qnum q) (Zpos (QArith_base.Qden q)).
Definition Qis_int (q : Q) : bool := Qeq_bool q (inject_Z (Qtrunc q)).

Definition opt_all {A} (f : A → bool) (o : option A) : bool := if o is Some x then f x else true.

(** The [Field(ge=..., gt=...)] constraints of a block, checked as its fields are read. *)
Definition autoscaling_fields_ok (a : AutoscalingConfig) : bool :=
  (0 <=? min_replicas a) && (1 <=? max_replicas a) && opt_all (Z.leb 0) (initial_replicas a)
  && opt_all Qpos (target_ongoing_requests a) && opt_all Qnonneg (upscale_delay_s a)
  && opt_all Qnonneg (downscale_delay_s a).

Definition vllm_fields_ok (v : VllmEngineConfig) : bool :=
  opt_all (Z.leb 1) (max_model_len v) && opt_all (Z.leb 0) (thinking_token_budget v).

Definition llama_server_fields_ok (l : LlamaServerConfig) : bool :=
  (1 <=? n_ctx l) && (1 <=? parallel l) && (0 <=? cache_reuse l) && (-1 <=? cache_ram_mib l)
  && (1 <=? ubatch_size l) && opt_all (λ ts, negb (bool_decide (ts = []))) (tensor_split l)
  && opt_all (Z.leb 0) (reasoning_budget l).

Definition model_fields_ok (c : ModelConfig) : bool :=
  Qnonneg (num_gpus c) && Qnonneg (num_cpus c) && (1 <=? num_replicas c)
  && opt_all (Z.leb 1) (max_ongoing_requests c)
  && vllm_fields_ok (vllm_engine_kwargs c)
  && opt_all llama_server_fields_ok (llama_server_config c)
  && opt_all autoscaling_fields_ok (autoscaling_config c).

(** [AutoscalingConfig.check_bounds] *)
Definition check_bounds (a : AutoscalingConfig) : res unit :=
  _ ← raise_if (max_replicas a <? min_replicas a) (ValueError "max_replicas must be >= min_replicas");
  match initial_replicas a with
  | Some i => raise_if (negb ((min_replicas a <=? i) && (i <=? max_replicas a)))
                (ValueError "initial_replicas out of range")
  | None => Ok tt
  end.

(** [AutoscalingConfig.to_serve_dict] *)
Definition to_serve_dict (a : AutoscalingConfig) : dict json :=
  let put {A} (k : string) (wrap : A → json) (v : option A) (d : dict json) :=
    if v is Some x then Dict.set k (wrap x) d else d in
  put "downscale_delay_s" JFloat (downscale_delay_s a)
    (put "upscale_delay_s" JFloat (upscale_delay_s a)
      (put "target_ongoing_requests" JFloat (target_ongoing_requests a)
        (put "initial_replicas" JInt (initial_replicas a)
          [("min_replicas", JInt (min_replicas a)); ("max_replicas", JInt (max_replicas a))])))%string.

(** [VllmEngineConfig.reject_derived_keys], [ReasoningConfig.reject_reasoning_parser]: keys
    refused before a block's fields are read. *)
Definition reject_keys (keys : list string) (data : json) : res unit :=
  if data is JObj d then
    raise_if (bool_decide (Exists (λ k, Dict.mem k d = true) keys)) (ValueError "derived key set")
  else Ok tt.
Definition reject_derived_keys : json → res unit := reject_keys ["model"; "gpu_memory_utilization"]%string.
Definition reject_reasoning_parser : json → res unit := reject_keys ["reasoning_parser"]%string.

(** [LlamaServerConfig.words_for_yaml_booleans] *)
Definition words_for_yaml_booleans (v : json) : json :=
  if v is JBool b then JStr (if b then "on" else "off") else v.

(** [ModelshipModelConfig.default_diffusers_usecase] *)
Definition default_diffusers_usecase (data : json) : json :=
  match data with
  | JObj d =>
      let image_loader := match Dict.get "loader" d with
        | Some (JStr l) => bool_decide (l = "diffusers"%string) || bool_decide (l = "stable_diffusion_cpp"%string)
        | _ => false end in
      let no_usecase := match Dict.get "usecase" d with None | Some JNull => true | _ => false end in
      if image_loader && no_usecase then JObj (Dict.set "usecase" (JStr "image") d) else data
  | _ => data
  end.

Definition check_autoscaling_excludes_num_replicas (c : ModelConfig) : res ModelConfig :=
  if bool_decide (autoscaling_config c ≠ None) && bool_decide ("num_replicas"%string ∈ fields_set c)
  then Err (ValueError "set either num_replicas or autoscaling_config")
  else Ok c.

Definition check_replicas_share_a_context_length (c : ModelConfig) : res ModelConfig :=
  if (num_replicas c =? 1) && bool_decide (autoscaling_config c = None) then Ok c
  else
    let needs (fixed : bool) :=
      if fixed then Ok c else Err (ValueError "replicas need a fixed context length") in
    match loader c with
    | vllm => needs (bool_decide (is_Some (max_model_len (vllm_engine_kwargs c))))
    | llama_server =>
        needs (if llama_server_config c is Some s
               then bool_decide ("n_ctx"%string ∈ ls_fields_set s) else false)
    | _ => Ok c
    end.

Definition validate_whole_gpu_only_loaders_num_gpus (c : ModelConfig) : res ModelConfig :=
  if bool_decide (loader c = llama_server ∨ loader c = whispercpp)
     && Qle_bool (inject_Z 1) (num_gpus c) && negb (Qis_int (num_gpus c))
  then Err (ValueError "num_gpus must be a fraction < 1 or a whole number")
  else Ok c.

Definition check_name_has_no_hash (c : ModelConfig) : res ModelConfig :=
  if Str.mem "#" (name c) then Err (ValueError "name must not contain '#'") else Ok c.

Definition check_model_required (c : ModelConfig) : res ModelConfig :=
  if match model c with None | Some ""%string => true | _ => false end
  then Err (ValueError "`model:` is required")
  else if bool_decide (loader c = diffusers ∨ loader c = stable_diffusion_cpp)
          && bool_decide (usecase c ≠ image)
  then Err (ValueError "loader only supports usecase='image'")
  else Ok c.

Definition check_sherpa_onnx_model_and_usecase (c : ModelConfig) : res ModelConfig :=
  if bool_decide (loader c ≠ sherpa_onnx) then Ok c
  else match model c with
  | None => Err AssertionError
  | Some m =>
      if bool_decide (Registry.registry_name m ∉ Registry.registry_names)
      then Err (ValueError "not a supported registry name")
      else if bool_decide (usecase c ≠ tts) then Err (ValueError "only supports usecase='tts'")
      else Ok c
  end.

Definition normalize_num_gpus_and_tp (c : ModelConfig) : res ModelConfig :=
  let ng := num_gpus c in
  let v := vllm_engine_kwargs c in
  if bool_decide (loader c ≠ vllm) then Ok c
  else if Qle_bool ng (inject_Z 0) then Ok c
  else
    let world_size := tensor_parallel_size v * pipeline_parallel_size v in
    if Qlt_bool (inject_Z 0) ng && Qlt_bool ng (inject_Z 1) then
      if 1 <? world_size then Err (ValueError "fractional num_gpus with parallelism") else Ok c
    else if negb (Qis_int ng) then Err (ValueError "num_gpus >= 1 must be an integer")
    else
      let ng_int := Qtrunc ng in
      if 1 <? world_size then
        if negb (ng_int =? world_size) then Err (ValueError "num_gpus does not match tp x pp")
        else Ok (with_gpus_tp (inject_Z 1) v c)
      else Ok (with_gpus_tp (inject_Z 1) (with_tp ng_int v) c).

(** The checks in the order pydantic runs them: each field's constraints, the nested block's
    own check, then the model's [after] validators in the order they are declared. *)
Definition validate_model (c : ModelConfig) : res ModelConfig :=
  _ ← raise_if (negb (model_fields_ok c)) (ValueError "field constraint");
  _ ← (if autoscaling_config c is Some a then check_bounds a else Ok tt);
  c ← check_autoscaling_excludes_num_replicas c;
  c ← check_replicas_share_a_context_length c;
  c ← validate_whole_gpu_only_loaders_num_gpus c;
  c ← check_name_has_no_hash c;
  c ← check_model_required c;
  c ← check_sherpa_onnx_model_and_usecase c;
  normalize_num_gpus_and_tp c.

(** ** GPU memory shares *)

Definition default_gpu_memory_utilization (c : ModelConfig) : Q :=
  if Qeq_bool (num_gpus c) (inject_Z 0) then QArith_base.Qmake 4 10 else QArith_base.Qmake 9 10.

Definition resolve_gpu_memory_utilization (c : ModelConfig) (recommended : option Q) : Q :=
  if Qlt_bool (inject_Z 0) (num_gpus c) && Qlt_bool (num_gpus c) (inject_Z 1) then num_gpus c
  else default (default_gpu_memory_utilization c) recommended.

(** ** Deployment names *)

Definition FINGERPRINT_LEN : nat := 10.

(** [config.model_copy(update=...)] leaves these out of the fingerprint:
    [_FINGERPRINT_EXCLUDED_FIELDS]. *)
Definition without_excluded (c : ModelConfig) : ModelConfig :=
  let '(mkModel _ m u l g nc _ _ mor v df ls sd wc _) := c in
  mkModel "" m u l g nc 1 None mor v df ls sd wc [].

(** [parse_deployment_name]: a full match of
    [([^.]+)\.(.+)-[0-9a-f]{10}], whose [.] matches anything but a newline. *)
Definition parse_deployment_name (app_name : string) : option (string * string) :=
  match split_first "." app_name with
  | None => None
  | Some (gateway, rest) =>
      let suffix := S FINGERPRINT_LEN in
      let m := str_take (String.length rest - suffix) rest in
      let tail := str_drop (String.length rest - suffix) rest in
      if bool_decide (gateway ≠ ""%string) && bool_decide (m ≠ ""%string)
         && negb (Str.mem newline m)
         && (if tail is String "-" fp then (String.length fp =? FINGERPRINT_LEN)%nat && str_all is_hex fp
             else false)
      then Some (gateway, m) else None
  end.

(** What the schema takes from pydantic and hashlib: reading a raw dict's fields, the JSON text
    dumped for a model, and the hex digest of a text. *)
Class Pydantic : Type := {
  read_fields : json → res ModelConfig;
  payload : ModelConfig → string;
  sha256_hex : string → string;
}.

(** A sha256 digest is 64 lowercase hex digits. *)
Definition digest_format `{Pydantic} : Prop :=
  ∀ t, String.length (sha256_hex t) = 64%nat ∧ str_all is_hex (sha256_hex t) = true.

Section names.
Context `{Pydantic}.

(** [ModelshipModelConfig.model_validate] *)
Definition model_validate (raw : json) : res ModelConfig :=
  let engine := default JNull (Json.field "vllm_engine_kwargs" raw) in
  _ ← reject_derived_keys engine;
  _ ← reject_reasoning_parser (default JNull (Json.field "reasoning_config" engine));
  c ← read_fields (default_diffusers_usecase raw);
  validate_model c.

Definition fingerprint (c : ModelConfig) : string :=
  str_take FINGERPRINT_LEN (sha256_hex (payload (without_excluded c))).

Definition deployment_name (gateway_name : string) (c : ModelConfig) : string :=
  gateway_name +:+ "." +:+ name c +:+ "-" +:+ fingerprint c.

(** [ModelshipConfig.check_unique_names] *)
Fixpoint check_unique_names_from (seen : dict string) (models : list ModelConfig) : res unit :=
  match models with
  | [] => Ok tt
  | cfg :: models =>
      match Dict.get (name cfg) seen with
      | None => check_unique_names_from (Dict.set (name cfg) (fingerprint cfg) seen) models
      | Some prior =>
          if decide (prior = fingerprint cfg)
          then Err (ValueError "duplicate model entries with identical config")
          else Err (ValueError "duplicate model name")
      end
  end.

Definition check_unique_names (models : list ModelConfig) : res unit :=
  check_unique_names_from [] models.

(** [ModelshipConfig.model_validate({"models": raw_models})] *)
Definition validate_models (raw_models : list json) : res (list ModelConfig) :=
  models ← res_mapM model_validate raw_models;
  _ ← check_unique_names models;
  mret models.
End names.

(** [ModelshipModelConfig.scaling] *)
Definition scaling (c : ModelConfig) : Z * option AutoscalingConfig :=
  (num_replicas c, autoscaling_config c).

(** ** Lemmas *)

Module ConfigFacts.

Lemma str_take_drop n s : s = str_take n s +:+ str_drop n s.
Proof. revert s. induction n as [|n IH]; intros [|a s]; simpl; [done..|]. f_equal. apply IH. Qed.

Lemma length_app (a b : string) : String.length (a +:+ b) = (String.length a + String.length b)%nat.
Proof. induction a as [|x a IH]; simpl; [done|]. by rewrite IH. Qed.

Lemma str_take_app (a b : string) : str_take (String.length a) (a +:+ b) = a.
Proof. induction a as [|x a IH]; simpl; [by destruct b|]. by rewrite IH. Qed.

Lemma str_drop_app (a b : string) : str_drop (String.length a) (a +:+ b) = b.
Proof. induction a as [|x a IH]; simpl; [by destruct b|done]. Qed.

Lemma str_take_length n s : (n ≤ String.length s)%nat → String.length (str_take n s) = n.
Proof. revert s. induction n as [|n IH]; intros [|a s]; simpl; [lia..|]. intros. rewrite IH; lia. Qed.

Lemma str_take_le n s : (String.length (str_take n s) ≤ n)%nat.
Proof. revert s. induction n as [|n IH]; intros [|a s]; simpl; [lia..|]. specialize (IH s). lia. Qed.

Lemma str_all_take f n s : str_all f s = true → str_all f (str_take n s) = true.
Proof.
  revert s. induction n as [|n IH]; intros [|a s]; simpl; [done..|].
  rewrite !andb_true_iff. naive_solver.
Qed.

Lemma split_first_app c g s :
  Str.mem c g = false → split_first c (g +:+ String c s) = Some (g, s).
Proof.
  induction g as [|a g IH]; simpl; [by rewrite decide_True|].
  intros [Ha Hg]%orb_false_iff. apply bool_decide_eq_false in Ha.
  rewrite decide_False, IH by done. done.
Qed.

Lemma split_first_Some c s g r :
  split_first c s = Some (g, r) → s = g +:+ String c r ∧ Str.mem c g = false.
Proof.
  revert g. induction s as [|a s IH]; intros g; simpl; [done|]. case_decide; subst.
  - by intros [= <- <-].
  - intros ([g' r'] & E & [= -> ->])%fmap_Some. destruct (IH _ E) as [-> Hm]. simpl. split; [done|].
    rewrite Hm, bool_decide_false by done. done.
Qed.

(** The shape [parse_deployment_name] accepts, and its two parts. *)
Lemma parse_spec s g m :
  parse_deployment_name s = Some (g, m) ↔
  ∃ fp, s = g +:+ "." +:+ m +:+ "-" +:+ fp ∧ Str.mem "." g = false ∧ g ≠ ""%string ∧
        m ≠ ""%string ∧ Str.mem newline m = false ∧
        String.length fp = FINGERPRINT_LEN ∧ str_all is_hex fp = true.
Proof.
  unfold parse_deployment_name. split.
  - intros H. destruct (split_first "." s) as [[g' rest]|] eqn:E; [|done]. revert H.
    destruct (str_drop _ rest) as [|a fp] eqn:Ed; simpl; [by rewrite andb_false_r|].
    case_match eqn:Ec; [|done]. intros [= <- <-].
    rewrite !andb_true_iff, !bool_decide_eq_true, negb_true_iff in Ec.
    destruct Ec as [[[Hg Hm] Hnl] Hfp]. apply split_first_Some in E as [-> Hdot].
    assert (a = "-"%char) as -> by (by destruct a as [[] [] [] [] [] [] [] []]).
    apply andb_true_iff in Hfp as [Hl%Nat.eqb_eq Hh].
    exists fp. split_and!; try done. do 2 f_equal.
    rewrite (str_take_drop (String.length rest - S FINGERPRINT_LEN) rest) at 1. by rewrite Ed.
  - intros (fp & -> & Hdot & Hg & Hm & Hnl & Hl & Hh).
    change ("." +:+ ?x) with (String "." x). rewrite split_first_app by done.
    assert (String.length (m +:+ "-" +:+ fp) - S FINGERPRINT_LEN = String.length m)%nat as ->.
    { rewrite length_app. simpl. rewrite Hl. unfold FINGERPRINT_LEN. lia. }
    rewrite str_take_app, str_drop_app. simpl. rewrite Hl, Hh, Hnl.
    by rewrite !bool_decide_true.
Qed.

Lemma check_unique_names_from_ok `{Pydantic} seen models :
  check_unique_names_from seen models = Ok tt ↔
    NoDup (name <$> models) ∧ ∀ n, n ∈ name <$> models → n ∉ Dict.keys seen.
Proof.
  revert seen. induction models as [|c models IH]; intros seen; simpl.
  - split; [intros _; split; [constructor|set_solver]|done].
  - destruct (Dict.get (name c) seen) as [fp|] eqn:E.
    + assert (name c ∈ Dict.keys seen) by (apply Dict.get_is_Some; eauto).
      case_decide; (split; [done|]); intros [_ Hin]; destruct (Hin (name c)); done || constructor.
    + apply Dict.get_None in E. rewrite IH, NoDup_cons. setoid_rewrite Dict.elem_keys_set.
      set_solver.
Qed.

Lemma Qtrunc_int q : Qis_int q = true → QArith_base.Qeq q (inject_Z (Qtrunc q)).
Proof. apply QArith_base.Qeq_bool_iff. Qed.

Lemma num_gpus_with g v c : num_gpus (with_gpus_tp g v c) = g.
Proof. by destruct c. Qed.
Lemma vllm_with g v c : vllm_engine_kwargs (with_gpus_tp g v c) = v.
Proof. by destruct c. Qed.
Lemma loader_with g v c : loader (with_gpus_tp g v c) = loader c.
Proof. by destruct c. Qed.
Lemma tp_with tp v : tensor_parallel_size (with_tp tp v) = tp.
Proof. by destruct v. Qed.
Lemma pp_with tp v : pipeline_parallel_size (with_tp tp v) = pipeline_parallel_size v.
Proof. by destruct v. Qed.
(** Normalizing a vLLM model with whole GPUs keeps the GPU count: the parallel slots of the
    result number exactly the GPUs asked for, each slot one GPU. *)
Lemma normalize_keeps_gpu_count c c' :
  loader c = vllm → Qle_bool (inject_Z 1) (num_gpus c) = true →
  1 ≤ tensor_parallel_size (vllm_engine_kwargs c) →
  1 ≤ pipeline_parallel_size (vllm_engine_kwargs c) →
  normalize_num_gpus_and_tp c = Ok c' →
  num_gpus c' = inject_Z 1 ∧
  QArith_base.Qeq (num_gpus c) (inject_Z
    (tensor_parallel_size (vllm_engine_kwargs c') * pipeline_parallel_size (vllm_engine_kwargs c'))).
Proof.
  intros Hl Hg Htp Hpp. unfold normalize_num_gpus_and_tp.
  rewrite bool_decide_false by naive_solver.
  destruct (Qle_bool (num_gpus c) (inject_Z 0)) eqn:H0.
  { apply QArith_base.Qle_bool_iff in H0, Hg. exfalso.
    apply (QArith_base.Qle_trans _ _ _ Hg), (QArith_base.Qle_bool_iff (inject_Z 1) (inject_Z 0)) in H0.
    done. }
  unfold Qlt_bool. rewrite Hg, andb_false_r.
  destruct (Qis_int (num_gpus c)) eqn:Hi; [|done]. simpl. apply Qtrunc_int in Hi.
  case_match eqn:Hw.
  - case_match eqn:He; [done|]. intros [= <-]. rewrite num_gpus_with, vllm_with. split; [done|].
    apply negb_false_iff, Z.eqb_eq in He. by rewrite <-He.
  - intros [= <-]. rewrite num_gpus_with, vllm_with, tp_with, pp_with. split; [done|].
    apply Z.ltb_ge in Hw.
    assert (pipeline_parallel_size (vllm_engine_kwargs c) = 1) as -> by nia.
    by rewrite Z.mul_1_r.
Qed.

(** The checks before the last one change nothing. *)
Lemma validate_model_normalizes c c' : validate_model c = Ok c' → normalize_num_gpus_and_tp c = Ok c'.
Proof.
  unfold validate_model. intros H.
  apply res_bind_ok in H as ([] & H1%raise_if_ok & H). apply res_bind_ok in H as ([] & H2 & H).
  apply res_bind_ok in H as (c1 & H3 & H). apply res_bind_ok in H as (c2 & H4 & H).
  apply res_bind_ok in H as (c3 & H5 & H). apply res_bind_ok in H as (c4 & H6 & H).
  apply res_bind_ok in H as (c5 & H7 & H). apply res_bind_ok in H as (c6 & H8 & H).
  assert (c1 = c) as ->. { revert H3. unfold check_autoscaling_excludes_num_replicas. by repeat case_match; intros; simplify_eq. }
  assert (c2 = c) as ->. { revert H4. unfold check_replicas_share_a_context_length. by repeat case_match; intros; simplify_eq. }
  assert (c3 = c) as ->. { revert H5. unfold validate_whole_gpu_only_loaders_num_gpus. by repeat case_match; intros; simplify_eq. }
  assert (c4 = c) as ->. { revert H6. unfold check_name_has_no_hash. by repeat case_match; intros; simplify_eq. }
  assert (c5 = c) as ->. { revert H7. unfold check_model_required. by repeat case_match; intros; simplify_eq. }
  assert (c6 = c) as ->. { revert H8. unfold check_sherpa_onnx_model_and_usecase. by repeat case_match; intros; simplify_eq. }
  done.
Qed.
End ConfigFacts.

(** ** A concrete instance, for evaluating the definitions *)

Module Example.
Definition zeros : nat → string := λ n, Nat.iter n (String "0") "".
Definition example_model : ModelConfig := {|
  name := "qwen2.5-7b"; model := Some "Qwen/Qwen2.5-7B"%string; usecase := generate; loader := vllm;
  num_gpus := inject_Z 4; num_cpus := inject_Z 1; num_replicas := 1; autoscaling_config := None;
  max_ongoing_requests := None; vllm_engine_kwargs := default_vllm; diffusers_config := None;
  llama_server_config := None; stable_diffusion_cpp_config := None; whispercpp_config := None;
  fields_set := ["name"; "model"; "loader"; "num_gpus"];
|}%string.

(** A concrete reading of the parameters: a fixed digest, and one field read from the dict. *)
#[export] Instance example_pydantic : Pydantic := {
  read_fields raw := if Json.field "name" raw is Some (JStr n) then Ok (with_name n example_model)
                     else Err (ValueError "name");
  payload _ := "{}";
  sha256_hex _ := zeros 64;
}.
End Example.

(** ** Theorems *)

Module ConfigTheorems.
Import ConfigFacts Example.

(** Printing then parsing a deployment name gives back the gateway and the model: for a
    dot-free, non-empty gateway name and a non-empty, single-line model name, whatever dots,
    dashes or hex digits the model name holds. *)
Theorem deployment_name_roundtrip `{Pydantic} gw c :
  digest_format →
  Str.mem "." gw = false → gw ≠ ""%string → name c ≠ ""%string → Str.mem newline (name c) = false →
  parse_deployment_name (deployment_name gw c) = Some (gw, name c).
Proof.
  intros Hsha Hdot Hgw Hname Hnl. apply parse_spec. unfold deployment_name, fingerprint.
  destruct (Hsha (payload (without_excluded c))) as [Hlen Hhex].
  eexists; split_and!; try done; [|by apply str_all_take].
  rewrite str_take_length; [done|]. rewrite Hlen. unfold FINGERPRINT_LEN. lia.
Qed.

Lemma deployment_name_roundtrip_witness :
  parse_deployment_name (deployment_name "gw" example_model) = Some ("gw", "qwen2.5-7b")%string.
Proof. apply (deployment_name_roundtrip "gw" example_model); [split; reflexivity|done..]. Defined.

(** An empty model name passes every check of the name, yet the app it is deployed under
    is not recognised as any gateway's: its name does not parse. *)
Theorem empty_name_unparsed `{Pydantic} gw c :
  Str.mem "." gw = false → name c = ""%string →
  check_name_has_no_hash c = Ok c ∧
  parse_deployment_name (deployment_name gw c) = None.
Proof.
  intros Hdot Hn. unfold check_name_has_no_hash. rewrite Hn. split; [done|].
  destruct (parse_deployment_name _) as [[g m]|] eqn:E; [|done]. exfalso.
  apply parse_spec in E as (fp & E & Hd & _ & Hm & _ & Hl & _).
  unfold deployment_name in E. rewrite Hn in E. simpl in E.
  change ("." +:+ ?x) with (String "." x) in E.
  apply Str.first_sep_inj in E as [-> E]; [|done..].
  apply (f_equal String.length) in E. rewrite !length_app in E.
  cbn [String.length] in E. rewrite Hl in E.
  pose proof (str_take_le FINGERPRINT_LEN (sha256_hex (payload (without_excluded c)))) as Hle.
  unfold fingerprint in E. destruct m; [done|].
  cbn [String.length] in E. lia.
Qed.

Lemma empty_name_unparsed_witness :
  check_name_has_no_hash (with_name "" example_model) = Ok (with_name "" example_model) ∧
  parse_deployment_name (deployment_name "gw" (with_name "" example_model)) = None.
Proof. apply empty_name_unparsed; reflexivity. Defined.

(** Changing how many replicas a model has never changes the app it is deployed as: the
    replica-count fields are outside the fingerprint. *)
Theorem rescale_keeps_deployment_name `{Pydantic} gw nr a c :
  deployment_name gw (with_scaling nr a c) =
    deployment_name gw c
  ∧ scaling (with_scaling nr a c) = (nr, a).
Proof. by destruct c. Qed.

(** Normalization is not idempotent, which is why the state store keeps raw model dicts: a
    model normalized to several parallel slots is refused when it is validated again. *)
Theorem normalize_not_idempotent c c' :
  loader c = vllm → Qle_bool (inject_Z 1) (num_gpus c) = true →
  normalize_num_gpus_and_tp c = Ok c' →
  1 < tensor_parallel_size (vllm_engine_kwargs c') * pipeline_parallel_size (vllm_engine_kwargs c') →
  ∃ e, normalize_num_gpus_and_tp c' = Err e.
Proof.
  intros Hl Hg H Hw. assert (num_gpus c' = inject_Z 1 ∧ loader c' = vllm) as [Hg' Hl'].
  { revert H. unfold normalize_num_gpus_and_tp. rewrite bool_decide_false by naive_solver.
    unfold Qlt_bool. rewrite Hg, andb_false_r.
    destruct (Qle_bool (num_gpus c) (inject_Z 0)) eqn:H0.
    { apply QArith_base.Qle_bool_iff in H0, Hg. exfalso.
      apply (QArith_base.Qle_trans _ _ _ Hg), (QArith_base.Qle_bool_iff (inject_Z 1) (inject_Z 0)) in H0.
      done. }
    repeat case_match; intros; simplify_eq; by rewrite num_gpus_with, loader_with. }
  unfold normalize_num_gpus_and_tp. rewrite bool_decide_false by naive_solver. rewrite Hg'.
  rewrite (proj2 (Z.ltb_lt 1 _) Hw).
  change (Qle_bool (inject_Z 1) (inject_Z 0)) with false.
  change (Qlt_bool (inject_Z 0) (inject_Z 1) && Qlt_bool (inject_Z 1) (inject_Z 1)) with false.
  change (Qis_int (inject_Z 1)) with true. change (Qtrunc (inject_Z 1)) with 1.
  cbn [negb]. rewrite (proj2 (Z.eqb_neq 1 _)) by lia. by eexists.
Qed.

Lemma normalize_not_idempotent_witness :
  ∃ e, normalize_num_gpus_and_tp
    (with_gpus_tp (inject_Z 1) (with_tp 4 default_vllm) example_model) = Err e.
Proof. apply (normalize_not_idempotent example_model); try reflexivity; done. Defined.

(** A set of models is accepted exactly when no name is used twice. *)
Theorem check_unique_names_iff `{Pydantic} models :
  check_unique_names models = Ok tt ↔ NoDup (name <$> models).
Proof.
  unfold check_unique_names. rewrite check_unique_names_from_ok. simpl.
  split; [by intros [? _]|]. intros; split; [done|]. intros ? _. apply not_elem_of_nil.
Qed.

(** A validated model is deployable: at least one replica, autoscaling bounds in order with
    the initial count between them, not both scaling forms, no hash in its name, a model source,
    and a shared context length when it may have several replicas of a context-sized loader. *)
Theorem validate_model_sound c c' :
  validate_model c = Ok c' →
  1 ≤ num_replicas c ∧ Str.mem "#" (name c) = false ∧ (∃ m, model c = Some m ∧ m ≠ ""%string) ∧
  (∀ a, autoscaling_config c = Some a →
     0 ≤ min_replicas a ≤ max_replicas a ∧
     (∀ i, initial_replicas a = Some i → min_replicas a ≤ i ≤ max_replicas a) ∧
     "num_replicas"%string ∉ fields_set c) ∧
  (num_replicas c ≠ 1 ∨ autoscaling_config c ≠ None → loader c = vllm →
     is_Some (max_model_len (vllm_engine_kwargs c))) ∧
  (loader c = diffusers ∨ loader c = stable_diffusion_cpp → usecase c = image).
Proof.
  unfold validate_model. intros H.
  apply res_bind_ok in H as ([] & H1%raise_if_ok & H). apply res_bind_ok in H as ([] & H2 & H).
  apply res_bind_ok in H as (? & H3 & H). apply res_bind_ok in H as (? & H4 & H).
  apply res_bind_ok in H as (? & H5 & H). apply res_bind_ok in H as (? & H6 & H).
  apply res_bind_ok in H as (? & H7 & H). apply res_bind_ok in H as (? & H8 & H).
  assert (x = c) as ->. { revert H3. unfold check_autoscaling_excludes_num_replicas. by repeat case_match; intros; simplify_eq. }
  assert (x0 = c) as ->.
  { revert H4. unfold check_replicas_share_a_context_length. by repeat case_match; intros; simplify_eq. }
  assert (x1 = c) as ->. { revert H5. unfold validate_whole_gpu_only_loaders_num_gpus. by repeat case_match; intros; simplify_eq. }
  assert (x2 = c ∧ Str.mem "#" (name c) = false) as [-> Hhash].
  { revert H6. unfold check_name_has_no_hash. by repeat case_match; intros; simplify_eq. }
  apply negb_false_iff in H1. unfold model_fields_ok in H1. rewrite !andb_true_iff in H1.
  destruct H1 as [[[[[[_ _] Hnr%Z.leb_le] _] _] _] Ha].
  split_and!; [done|done|..].
  - revert H7. unfold check_model_required. destruct (model c) as [[|a m]|]; try done. eauto.
  - intros a Hc. rewrite Hc in Ha, H2. simpl in Ha. unfold autoscaling_fields_ok in Ha.
    rewrite !andb_true_iff in Ha. destruct Ha as [[[[[Hmin%Z.leb_le _] _] _] _] _].
    unfold check_bounds in H2. apply res_bind_ok in H2 as ([] & Hb%raise_if_ok%Z.ltb_ge & Hi).
    split_and!; [done|done| |].
    + intros i Hinit. rewrite Hinit in Hi. apply raise_if_ok in Hi.
      apply negb_false_iff, andb_true_iff in Hi as [?%Z.leb_le ?%Z.leb_le]. done.
    + revert H3. unfold check_autoscaling_excludes_num_replicas. rewrite Hc.
      destruct (decide ("num_replicas"%string ∈ fields_set c)); [|done].
      by rewrite !bool_decide_true by done.
  - intros Hr Hl. revert H4. unfold check_replicas_share_a_context_length. rewrite Hl.
    destruct ((num_replicas c =? 1) && bool_decide (autoscaling_config c = None)) eqn:E.
    + apply andb_true_iff in E as [?%Z.eqb_eq ?%bool_decide_eq_true]. naive_solver.
    + by destruct (bool_decide (is_Some _)) eqn:Eb; [apply bool_decide_eq_true in Eb|].
  - intros Hl. revert H7. unfold check_model_required. rewrite (bool_decide_true (_ ∨ _)) by done.
    destruct (decide (usecase c = image)) as [|Hu]; [done|].
    rewrite (bool_decide_true (_ ≠ _)) by done. by repeat case_match.
Qed.

Lemma validate_model_sound_witness :
  validate_model example_model = Ok (with_gpus_tp (inject_Z 1) (with_tp 4 default_vllm) example_model)
  ∧ 1 ≤ num_replicas example_model.
Proof. split; [reflexivity|]. eapply (validate_model_sound example_model). reflexivity. Defined.
End ConfigTheorems.
