(* ===== verification/JsonText.v ===== *)
(** * JSON text

    [json.dumps] and [json.loads] with their default arguments, over text of one-byte characters, and
    [str.splitlines]: what is dumped is read back. How a float is written and read is a parameter
    ([FloatText]). *)

From S2P Require Import Prelude ConfigSchema.
From Stdlib Require Import DecimalString.
From Stdlib Require DecimalFacts DecimalZ.
Local Open Scope Z_scope.

(** [float.__repr__], and [float] on the text of a JSON number *)
Class FloatText : Type := {
  float_repr : Q → string;
  float_of : string → Q;
}.

(** For values without floats *)
Definition no_floats : FloatText := {| float_repr _ := "0.0"%string; float_of _ := QArith_base.Qmake 0 1 |}.

Definition dquote : ascii := "034"%char.
Definition backslash : ascii := "\"%char.
Definition is_ws (a : ascii) : bool := bool_decide (a ∈ [" "; "009"; "010"; "013"]%char).
Definition is_digit (a : ascii) : bool := let n := nat_of_ascii a in ((48 <=? n) && (n <=? 57))%nat.

(** ** Writing *)

Definition hex_char (n : nat) : ascii := ascii_of_nat (if (n <? 10)%nat then 48 + n else 87 + n)%nat.

(** [ESCAPE_DCT] and [ESCAPE_ASCII] *)
Definition escape_char (a : ascii) : string :=
  let n := nat_of_ascii a in
  if decide (a = dquote) then String backslash (String dquote "")
  else if decide (a = backslash) then String backslash (String backslash "")
  else if decide (a = "010"%char) then "\n"
  else if decide (a = "013"%char) then "\r"
  else if decide (a = "009"%char) then "\t"
  else if decide (a = "012"%char) then "\f"
  else if decide (a = "008"%char) then "\b"
  else if ((32 <=? n) && (n <=? 126))%nat then String a ""
  else "\u00" +:+ String (hex_char (n / 16)%nat) (String (hex_char (n mod 16)%nat) "").

Fixpoint escape (s : string) : string :=
  match s with EmptyString => "" | String a s => escape_char a +:+ escape s end.

Definition dumps_str (s : string) : string := String dquote (escape s +:+ String dquote "").

Definition dumps_int (z : Z) : string := NilZero.string_of_int (Z.to_int z).

(** [s.join(l)] of dumped members *)
Fixpoint dumps `{FloatText} (j : json) : string :=
  match j with
  | JNull => "null"
  | JBool b => if b then "true" else "false"
  | JInt z => dumps_int z
  | JFloat q => float_repr q
  | JStr s => dumps_str s
  | JList l => "[" +:+ Str.join ", " (map dumps l) +:+ "]"
  | JObj d => "{" +:+ Str.join ", " (map (λ kv : string * json, dumps_str kv.1 +:+ ": " +:+ dumps kv.2) d) +:+ "}"
  end.

(** ** Reading *)

Fixpoint skip_ws (s : string) : string :=
  match s with String a r => if is_ws a then skip_ws r else s | "" => "" end.

Definition hex_value (a : ascii) : option nat :=
  let n := nat_of_ascii a in
  if ((48 <=? n) && (n <=? 57))%nat then Some (n - 48)%nat
  else if ((97 <=? n) && (n <=? 102))%nat then Some (n - 87)%nat
  else if ((65 <=? n) && (n <=? 70))%nat then Some (n - 55)%nat
  else None.

(** [\uXXXX], of a character that is one byte *)
Definition hex4 (a b c d : ascii) : option ascii :=
  a ← hex_value a; b ← hex_value b; c ← hex_value c; d ← hex_value d;
  let n := (((a * 16 + b) * 16 + c) * 16 + d)%nat in
  if (n <? 256)%nat then Some (ascii_of_nat n) else None.

(** [BACKSLASH] *)
Definition unescape_char (a : ascii) : option ascii :=
  if decide (a = dquote) then Some dquote
  else if decide (a = backslash) then Some backslash
  else if decide (a = "/"%char) then Some "/"%char
  else if decide (a = "b"%char) then Some "008"%char
  else if decide (a = "f"%char) then Some "012"%char
  else if decide (a = "n"%char) then Some "010"%char
  else if decide (a = "r"%char) then Some "013"%char
  else if decide (a = "t"%char) then Some "009"%char
  else None.

Definition push (a : ascii) (sr : string * string) : string * string := (String a sr.1, sr.2).

(** [scanstring], after the opening quote: the text, and what follows the closing one *)
Fixpoint scan_string (s : string) : option (string * string) :=
  match s with
  | "" => None
  | String a r =>
      if decide (a = dquote) then Some ("", r)
      else if decide (a = backslash) then
        match r with
        | "" => None
        | String b r =>
            if decide (b = "u"%char) then
              match r with
              | String h1 (String h2 (String h3 (String h4 r))) => c ← hex4 h1 h2 h3 h4; push c <$> scan_string r
              | _ => None
              end
            else c ← unescape_char b; push c <$> scan_string r
        end
      else if (nat_of_ascii a <? 32)%nat then None
      else push a <$> scan_string r
  end%string.

Fixpoint take_digits (s : string) : string * string :=
  match s with
  | String a r => if is_digit a then push a (take_digits r) else ("", s)
  | "" => ("", "")
  end%string.

(** The whole part of [NUMBER_RE], a number with no leading zero: its text and what follows *)
Definition scan_int (s : string) : option (string * string) :=
  match s with
  | String a r =>
      if decide (a = "-"%char) then
        match take_digits r with
        | ("", _) => None
        | (String b ds, rest) =>
            if decide (b = "0"%char) then Some (String a (String b ""), ds +:+ rest) else Some (String a (String b ds), rest)
        end
      else
        match take_digits s with
        | ("", _) => None
        | (String b ds, rest) =>
            if decide (b = "0"%char) then Some (String b "", ds +:+ rest) else Some (String b ds, rest)
        end
  | "" => None
  end%string.

(** Its fraction and its exponent, empty when there is none *)
Definition scan_frac (s : string) : string * string :=
  match s with
  | String a r =>
      if decide (a = "."%char) then match take_digits r with ("", _) => ("", s) | (ds, rest) => (String a ds, rest) end
      else ("", s)
  | "" => ("", s)
  end%string.
Definition scan_exp (s : string) : string * string :=
  match s with
  | String a r =>
      if decide (a = "e"%char ∨ a = "E"%char) then
        match r with
        | String b r' =>
            if decide (b = "-"%char ∨ b = "+"%char)
            then match take_digits r' with ("", _) => ("", s) | (ds, rest) => (String a (String b ds), rest) end
            else match take_digits r with ("", _) => ("", s) | (ds, rest) => (String a ds, rest) end
        | "" => ("", s)
        end
      else ("", s)
  | "" => ("", s)
  end%string.

(** [_match_number] *)
Definition scan_number `{FloatText} (s : string) : option (json * string) :=
  '(i, r) ← scan_int s;
  let '(f, r) := scan_frac r in
  let '(e, r) := scan_exp r in
  if bool_decide (f = "" ∧ e = "")%string
  then (λ z, (JInt (Z.of_int z), r)) <$> NilZero.int_of_string i
  else Some (JFloat (float_of (i +:+ f +:+ e)), r).

Definition literal (word : string) (j : json) (s : string) : option (json * string) :=
  if Str.startswith s word then Some (j, str_drop (String.length word) s) else None.

(** [scan_once], [JSONArray] and [JSONObject], after their openings, with fuel for the nesting and the
    members *)
Fixpoint value `{FloatText} (n : nat) (s : string) : option (json * string) :=
  match n with
  | O => None
  | S n =>
      match s with
      | "" => None
      | String a r =>
          if decide (a = dquote) then (λ sr, (JStr sr.1, sr.2)) <$> scan_string r
          else if decide (a = "{"%char) then (λ dr, (JObj (Dict.of_list dr.1), dr.2)) <$> pairs n true (skip_ws r)
          else if decide (a = "["%char) then (λ lr, (JList lr.1, lr.2)) <$> items n true (skip_ws r)
          else
            match literal "null" JNull s with Some x => Some x | None =>
            match literal "true" (JBool true) s with Some x => Some x | None =>
            match literal "false" (JBool false) s with Some x => Some x | None =>
            scan_number s end end end
      end%string
  end
with items `{FloatText} (n : nat) (first : bool) (s : string) : option (list json * string) :=
  match n with
  | O => None
  | S n =>
      if first && bool_decide (str_take 1 s = "]")%string then Some ([], str_drop 1 s)
      else
        '(x, r) ← value n s;
        match skip_ws r with
        | String a r =>
            if decide (a = "]"%char) then Some ([x], r)
            else if decide (a = ","%char) then (λ lr, (x :: lr.1, lr.2)) <$> items n false (skip_ws r)
            else None
        | "" => None
        end%string
  end
with pairs `{FloatText} (n : nat) (first : bool) (s : string) : option (dict json * string) :=
  match n with
  | O => None
  | S n =>
      if first && bool_decide (str_take 1 s = "}")%string then Some ([], str_drop 1 s)
      else if bool_decide (str_take 1 s = String dquote "")%string then
        '(k, r) ← scan_string (str_drop 1 s);
        let r := skip_ws r in
        if bool_decide (str_take 1 r = ":")%string then
          '(x, r) ← value n (skip_ws (str_drop 1 r));
          match skip_ws r with
          | String a r =>
              if decide (a = "}"%char) then Some ([(k, x)], r)
              else if decide (a = ","%char) then (λ dr, ((k, x) :: dr.1, dr.2)) <$> pairs n false (skip_ws r)
              else None
          | "" => None
          end%string
        else None
      else None
  end.

(** [json.loads]; [None] is [JSONDecodeError]. [NaN] and the infinities are no [json]. *)
Definition loads `{FloatText} (s : string) : option json :=
  match value (2 * String.length s + 2) (skip_ws s) with
  | Some (j, r) => if bool_decide (skip_ws r = "")%string then Some j else None
  | None => None
  end.

(** ** [str.splitlines] *)

Definition line_break (a : ascii) : bool :=
  bool_decide (a ∈ ["010"; "011"; "012"; "013"; "028"; "029"; "030"; "133"]%char).

(** The lines after [line], what is read of the first. *)
Fixpoint lines_after (line : string) (s : string) : list string :=
  match s with
  | "" => if bool_decide (line = "") then [] else [line]
  | String a r =>
      if line_break a then
        line :: (match r with
                 | String b r' => if bool_decide (a = "013"%char ∧ b = "010"%char) then lines_after "" r' else lines_after "" r
                 | "" => []
                 end)
      else lines_after (line +:+ String a "") r
  end%string.
Definition splitlines (s : string) : list string := lines_after "" s.

(** ** What is dumped is read back *)

Module JsonFacts.
Import ConfigFacts.

Lemma scan_escape_char a r : scan_string (escape_char a +:+ r) = push a <$> scan_string r.
Proof. by destruct a as [[] [] [] [] [] [] [] []]. Qed.

Lemma scan_escape s r : scan_string (escape s +:+ String dquote r) = Some (s, r).
Proof.
  induction s as [|a s IH]; [done|]. cbn [escape]. by rewrite Str.app_assoc, scan_escape_char, IH.
Qed.

(** *** Numbers *)

(** What may follow a number *)
Definition number_tail (a : ascii) : bool := is_digit a || bool_decide (a ∈ ["."; "e"; "E"]%char).
Definition ends_number (s : string) : Prop := match s with String a _ => number_tail a = false | "" => True end%string.

Lemma take_digits_app s r :
  str_all is_digit s = true → ends_number r → take_digits (s +:+ r) = (s, r).
Proof.
  intros Hs Hr. induction s as [|a s IH]; cbn.
  - destruct r as [|b r]; [done|]. cbn in Hr. apply orb_false_iff in Hr as [Hr _]. cbn. by rewrite Hr.
  - cbn in Hs. apply andb_true_iff in Hs as [-> Hs]. by rewrite IH.
Qed.

Lemma uint_digits u : str_all is_digit (NilEmpty.string_of_uint u) = true.
Proof. by induction u; cbn. Qed.

(** A text of digits, with no leading zero when there are more *)
Definition whole (s : string) : Prop :=
  str_all is_digit s = true ∧ (s = "0" ∨ ∃ b ds, s = String b ds ∧ b ≠ "0"%char)%string.

Lemma whole_uint u : u = Decimal.unorm u → whole (NilZero.string_of_uint u).
Proof.
  intros E. destruct u as [|u|u|u|u|u|u|u|u|u|u]; try discriminate E;
    (split; [apply (uint_digits (_ u))|]); [left|right; by eexists _, _..].
  change (Decimal.unorm (Decimal.D0 u)) with (Decimal.unorm u) in E. cbn. destruct (Decimal.nzhead u) eqn:Eh;
    [|exfalso; first [by apply (DecimalFacts.nzhead_nonzero u u0)
                     |rewrite DecimalFacts.unorm_nzhead in E by (by rewrite Eh); rewrite Eh in E; discriminate E]..].
  rewrite (proj2 (DecimalFacts.unorm_0 u) Eh) in E. by injection E as ->.
Qed.

Lemma int_shape z :
  (∃ u, z = Z.of_int (Decimal.Pos u) ∧ Z.to_int z = Decimal.Pos u ∧ whole (NilZero.string_of_uint u)) ∨
  (∃ u, z = Z.of_int (Decimal.Neg u) ∧ Z.to_int z = Decimal.Neg u ∧ whole (NilZero.string_of_uint u)).
Proof.
  pose proof (DecimalZ.of_to z) as Hz. pose proof (DecimalZ.to_of (Z.to_int z)) as Hn. rewrite Hz in Hn.
  destruct (Z.to_int z) as [u|u] eqn:E; [left|right]; exists u; (split; [done|]); (split; [done|]); apply whole_uint.
  - by injection Hn.
  - cbn in Hn. destruct (Decimal.nzhead u) as [|v|v|v|v|v|v|v|v|v|v] eqn:Eh; try discriminate Hn;
      first [by destruct (DecimalFacts.nzhead_nonzero u v)
            |rewrite DecimalFacts.unorm_nzhead by (by rewrite Eh); rewrite Eh; by injection Hn].
Qed.

Lemma scan_whole s r : whole s → ends_number r →
  scan_int (s +:+ r) = Some (s, r) ∧ scan_int (String "-" (s +:+ r)) = Some (String "-" s, r).
Proof.
  intros [Hd Hs] Hr. destruct s as [|b ds]; [by destruct Hs as [?|(?&?&?&?)]|].
  pose proof (take_digits_app _ _ Hd Hr) as Ht. change (String b ds +:+ r) with (String b (ds +:+ r)) in *.
  cbv beta iota delta [scan_int]. rewrite (decide_True (P := "-"%char = "-"%char)) by done.
  rewrite (decide_False (P := b = "-"%char)) by (intros ->; discriminate Hd). rewrite Ht.
  destruct Hs as [[= -> ->]|(b' & ds' & [= -> ->] & Hb)]; [done|].
  rewrite (decide_False (P := b' = "0"%char)) by done. split; [done|].
  by rewrite decide_False.
Qed.

Lemma scan_tail r : ends_number r → scan_frac r = (""%string, r) ∧ scan_exp r = (""%string, r).
Proof.
  destruct r as [|a r]; [done|]. cbn. unfold number_tail. intros [_ H%bool_decide_eq_false]%orb_false_iff.
  rewrite !decide_False by set_solver. done.
Qed.

Lemma read_int z : Z.of_int <$> NilZero.int_of_string (dumps_int z) = Some z.
Proof.
  unfold dumps_int. rewrite <-(DecimalZ.of_to z) at 2. destruct (Z.to_int z) as [[]|[]];
    by rewrite ?NilZero.isi_posnil, ?NilZero.isi_negnil, ?NilZero.isi by done.
Qed.

Lemma scan_dumped_int `{FloatText} z r : ends_number r → scan_number (dumps_int z +:+ r) = Some (JInt z, r).
Proof.
  intros Hr. assert (scan_int (dumps_int z +:+ r) = Some (dumps_int z, r)) as Hi.
  { unfold dumps_int. destruct (int_shape z) as [(u & _ & -> & Hw)|(u & _ & -> & Hw)]; by apply scan_whole. }
  unfold scan_number. rewrite Hi. cbn [mbind option_bind]. destruct (scan_tail r Hr) as [-> ->].
  rewrite bool_decide_eq_true_2 by done. pose proof (read_int z) as E.
  destruct (NilZero.int_of_string (dumps_int z)); [|done]. cbn in *. by injection E as ->.
Qed.

(** *** Values *)

Definition printable (a : ascii) : bool := let n := nat_of_ascii a in ((32 <=? n) && (n <=? 126))%nat.

Section read.
Context `{FloatText}.

(** The float's text is a JSON number that reads as the float. *)
Definition float_ok (q : Q) : Prop :=
  str_all printable (float_repr q) = true ∧
  ∀ r, ends_number r → scan_number (float_repr q +:+ r) = Some (JFloat q, r).

(** Dicts have distinct keys, and floats read back. *)
Fixpoint text_ok (j : json) : Prop :=
  match j with
  | JFloat q => float_ok q
  | JList l => (fix go l := match l with [] => True | x :: l => text_ok x ∧ go l end) l
  | JObj d => NoDup (Dict.keys d) ∧
      (fix go (d : dict json) := match d with [] => True | (_, x) :: d => text_ok x ∧ go d end) d
  | _ => True
  end.

Lemma text_ok_list l : text_ok (JList l) ↔ Forall text_ok l.
Proof. cbn. induction l as [|x l IH]; [done|]. by rewrite Forall_cons, <-IH. Qed.

Lemma text_ok_dict d : text_ok (JObj d) ↔ NoDup (Dict.keys d) ∧ Forall text_ok (Dict.values d).
Proof.
  cbn. apply and_iff_compat_l. induction d as [|[k x] d IH]; [done|]. unfold Dict.values. cbn. by rewrite Forall_cons, <-IH.
Qed.

(** A test for values without floats *)
Fixpoint plain_text (j : json) : bool :=
  match j with
  | JFloat _ => false
  | JList l => forallb plain_text l
  | JObj d => bool_decide (NoDup (Dict.keys d)) && forallb (λ kv : string * json, plain_text kv.2) d
  | _ => true
  end.

Lemma plain_text_ok j : plain_text j = true → text_ok j.
Proof.
  induction j as [|b|z|q|s|l IH|d IH] using Json.rect_strong; try done; intros Hp.
  - apply text_ok_list. rewrite Forall_forall in IH |- *. intros x Hx. apply IH; [done|].
    cbn in Hp. rewrite forallb_forall in Hp. by apply Hp, list_elem_of_In.
  - cbn in Hp. apply andb_true_iff in Hp as [Hnd%bool_decide_eq_true Hp]. rewrite forallb_forall in Hp.
    apply text_ok_dict. split; [done|]. unfold Dict.values. rewrite Forall_fmap, Forall_forall in IH |- *.
    intros kv Hin. by apply (IH kv Hin), Hp, list_elem_of_In.
Qed.

Lemma number_head a r x : scan_number (String a r) = Some x → a = "-"%char ∨ is_digit a = true.
Proof.
  intros Hs. destruct (decide (a = "-"%char)) as [|Hne]; [by left|right]. destruct (is_digit a) eqn:E; [done|exfalso].
  unfold scan_number, scan_int in Hs. rewrite decide_False in Hs by done. cbn in Hs. by rewrite E in Hs.
Qed.

Lemma value_number n s x : scan_number s = Some x → value (S n) s = Some x.
Proof.
  intros Hs. destruct s as [|a r]; [done|]. pose proof (number_head _ _ _ Hs) as Ha.
  assert (Forall (λ b, a ≠ b) [dquote; "{"; "["; "n"; "t"; "f"]%char) as Hne.
  { repeat (constructor; [intros ->; by destruct Ha|]). constructor. }
  repeat (apply Forall_cons in Hne as [? Hne]). cbn [value]. rewrite !decide_False by done.
  unfold literal, Str.startswith. cbn [String.prefix].
  repeat (destruct (ascii_dec _ a) as [<-|]; [done|]). exact Hs.
Qed.

(** A value's text starts with no white space and no closing bracket. *)
Definition starts_value (s : string) : Prop :=
  match s with String a _ => is_ws a = false ∧ a ≠ "]"%char | "" => False end%string.

Lemma number_starts s x : scan_number s = Some x → starts_value s.
Proof.
  destruct s as [|a r]; [done|]. intros [->|Hd]%number_head; [done|]. cbn.
  split; [apply bool_decide_eq_false; rewrite !not_elem_of_cons; split_and!|]; try (intros ->; discriminate Hd).
  by intros ?%elem_of_nil.
Qed.

Lemma starts_app s r : starts_value s → starts_value (s +:+ r) ∧ skip_ws (s +:+ r) = s +:+ r.
Proof. destruct s as [|a s]; [done|]. cbn. by intros [-> ?]. Qed.

Lemma dumps_starts j : text_ok j → starts_value (dumps j).
Proof.
  destruct j as [|[]|z|q|s|l|d]; try done; intros Hq.
  - rewrite <-(Str.app_nil_r (dumps (JInt z))). by eapply number_starts, scan_dumped_int.
  - rewrite <-(Str.app_nil_r (dumps (JFloat q))). by eapply number_starts, Hq.
Qed.

Definition reads (j : json) : Prop := ∀ n r,
  (2 * String.length (dumps j) ≤ n)%nat → ends_number r → value n (dumps j +:+ r) = Some (j, r).

Lemma items_read l n first r :
  l ≠ [] → Forall text_ok l → Forall reads l →
  (2 * String.length (Str.join ", " (map dumps l)) < n)%nat →
  items n first (Str.join ", " (map dumps l) +:+ String "]" r) = Some (l, r).
Proof.
  revert n first. induction l as [|x l IH]; [done|]. intros n first _ [Ht Htl]%Forall_cons [Hx Hl]%Forall_cons Hn.
  destruct n as [|n]; [lia|].
  assert (∃ rest, Str.join ", " (map dumps (x :: l)) = dumps x +:+ rest ∧
    (rest = "" ∧ l = [] ∨ rest = ", " +:+ Str.join ", " (map dumps l) ∧ l ≠ []))%string as (rest & E & Hrest).
  { destruct l as [|y l]; [exists ""%string; rewrite Str.app_nil_r; auto|]. eexists. split; [done|by right]. }
  rewrite E, ConfigFacts.length_app in Hn. rewrite E, Str.app_assoc. cbn [items].
  destruct (dumps x) as [|a s] eqn:Ex; [by apply dumps_starts in Ht; rewrite Ex in Ht|].
  assert (a ≠ "]"%char) as Ha by (apply dumps_starts in Ht; rewrite Ex in Ht; apply Ht).
  cbn [str_take]. rewrite bool_decide_eq_false_2, andb_false_r by (intros Hc; injection Hc as ->; done).
  rewrite <-Ex, (Hx n); [|rewrite Ex; lia|by destruct Hrest as [[-> _]|[-> _]]].
  cbn [mbind option_bind]. destruct Hrest as [[-> ->]|[-> Hne]]; [done|].
  change (skip_ws ((", " +:+ ?s) +:+ ?t)) with (String "," (String " " (s +:+ t))).
  cbv beta iota. rewrite decide_False, decide_True by done. change (skip_ws (String " " ?s)) with (skip_ws s).
  assert (skip_ws (Str.join ", " (map dumps l) +:+ String "]" r) = Str.join ", " (map dumps l) +:+ String "]" r) as ->.
  { destruct l as [|y l]; [done|]. apply Forall_cons in Htl as [Hy _]. apply dumps_starts in Hy.
    destruct l as [|z l]; cbn [map Str.join]; [by apply starts_app|]. rewrite !Str.app_assoc. by apply starts_app. }
  rewrite IH; [done|done|done|done|]. cbn in Hn. lia.
Qed.

Lemma pairs_read d n first r :
  d ≠ [] → Forall text_ok (Dict.values d) → Forall reads (Dict.values d) →
  (2 * String.length (Str.join ", " (map (λ kv : string * json, dumps_str kv.1 +:+ ": " +:+ dumps kv.2) d)) < n)%nat →
  pairs n first (Str.join ", " (map (λ kv : string * json, dumps_str kv.1 +:+ ": " +:+ dumps kv.2) d) +:+ String "}" r) =
    Some (d, r).
Proof.
  revert n first. induction d as [|[k x] d IH]; [done|]. intros n first _ [Ht Htl]%Forall_cons [Hx Hl]%Forall_cons Hn.
  destruct n as [|n]; [lia|]. set (f := λ kv : string * json, _) in *.
  assert (∃ rest, Str.join ", " (map f ((k, x) :: d)) = f (k, x) +:+ rest ∧
    (rest = "" ∧ d = [] ∨ rest = ", " +:+ Str.join ", " (map f d) ∧ d ≠ []))%string as (rest & E & Hrest).
  { destruct d as [|y d]; [exists ""%string; rewrite Str.app_nil_r; auto|]. eexists. split; [done|by right]. }
  rewrite E, ConfigFacts.length_app in Hn. rewrite E, Str.app_assoc.
  assert (f (k, x) = String dquote (escape k +:+ String dquote (": " +:+ dumps x))) as Ef.
  { unfold f, dumps_str. cbn. by rewrite Str.app_assoc. }
  rewrite Ef in Hn |- *. cbn [String.append]. cbn [pairs str_take str_drop].
  rewrite bool_decide_eq_false_2, andb_false_r by done. rewrite bool_decide_eq_true_2 by done.
  cbn [snd] in Ht, Hx. cbn [String.length] in Hn. rewrite !ConfigFacts.length_app in Hn. cbn [String.length] in Hn.
  rewrite ConfigFacts.length_app in Hn. cbn [String.length] in Hn.
  rewrite !Str.app_assoc. cbn [String.append]. rewrite ?Str.app_assoc, scan_escape. cbn [mbind option_bind].
  change (skip_ws (String ":" ?s)) with (String ":" s). cbn [str_take str_drop].
  rewrite bool_decide_eq_true_2 by done. change (skip_ws (String " " ?s)) with (skip_ws s).
  rewrite (proj2 (starts_app _ _ (dumps_starts x Ht))), (Hx n); [|lia|by destruct Hrest as [[-> _]|[-> _]]].
  cbn [mbind option_bind]. destruct Hrest as [[-> ->]|[-> Hne]]; [done|].
  change (skip_ws ((", " +:+ ?s) +:+ ?t)) with (String "," (String " " (s +:+ t))).
  cbv beta iota. rewrite decide_False, decide_True by done. change (skip_ws (String " " ?s)) with (skip_ws s).
  assert (skip_ws (Str.join ", " (map f d) +:+ String "}" r) = Str.join ", " (map f d) +:+ String "}" r) as ->.
  { destruct d as [|[k' y] [|z d]]; [done|..]; by rewrite <-?Str.app_assoc. }
  rewrite IH; [done|done|done|done|]. cbn in Hn. lia.
Qed.

Lemma literal_app word j r : literal word j (word +:+ r) = Some (j, r).
Proof.
  unfold literal. rewrite (proj2 (Str.startswith_iff _ _)) by eauto. by rewrite ConfigFacts.str_drop_app.
Qed.

Lemma value_word n word j r :
  (word, j) ∈ [("null", JNull); ("true", JBool true); ("false", JBool false)]%string →
  value (S n) (word +:+ r) = Some (j, r).
Proof.
  intros Hin. pose proof (literal_app word j r) as E.
  repeat (apply elem_of_cons in Hin as [[= -> ->]|Hin]; [cbn [value String.append] in E |- *; by rewrite E|]).
  by apply elem_of_nil in Hin.
Qed.

(** What is dumped is read back, whatever follows. *)
Lemma value_read j : text_ok j → reads j.
Proof.
  induction j as [|b|z|q|s|l IH|d IH] using Json.rect_strong; intros Ht n r Hn Hr;
    (destruct n as [|n]; [apply dumps_starts in Ht; destruct (dumps _); cbn in Hn; [done|lia]|]).
  - apply (value_word n "null"). set_solver.
  - apply (value_word n (if b then "true" else "false")). destruct b; set_solver.
  - by apply value_number, scan_dumped_int.
  - by apply value_number, Ht.
  - cbn [dumps]. unfold dumps_str. cbn [String.append value]. rewrite decide_True by done.
    rewrite Str.app_assoc. cbn [String.append]. by rewrite scan_escape.
  - apply text_ok_list in Ht. assert (Forall reads l) as Hl.
    { rewrite Forall_forall in IH, Ht |- *. auto. }
    cbn [dumps String.append value] in Hn |- *. rewrite decide_False, decide_False, decide_True by done.
    destruct l as [|x l]; [cbn in Hn |- *; by destruct n; [lia|]|].
    assert (skip_ws ((Str.join ", " (map dumps (x :: l)) +:+ "]") +:+ r) =
      Str.join ", " (map dumps (x :: l)) +:+ String "]" r) as ->.
    { rewrite Str.app_assoc. pose proof Ht as [Hx _]%Forall_cons. apply dumps_starts in Hx.
      destruct l as [|y l]; cbn [map Str.join]; [by apply starts_app|]. rewrite !Str.app_assoc. by apply starts_app. }
    rewrite items_read; [done..|]. cbn [String.length] in Hn. rewrite ConfigFacts.length_app in Hn. cbn [String.length] in Hn. lia.
  - apply text_ok_dict in Ht as [Hnd Ht]. assert (Forall reads (Dict.values d)) as Hl.
    { rewrite Forall_forall in IH, Ht |- *. intros x Hx. apply IH; [exact Hx|by apply Ht]. }
    cbn [dumps String.append value] in Hn |- *. rewrite decide_False, decide_True by done.
    destruct d as [|[k x] d]; [cbn in Hn |- *; by destruct n; [lia|]|].
    set (f := λ kv : string * json, _) in *.
    assert (skip_ws ((Str.join ", " (map f ((k, x) :: d)) +:+ "}") +:+ r) =
      Str.join ", " (map f ((k, x) :: d)) +:+ String "}" r) as ->.
    { rewrite Str.app_assoc. by destruct d as [|y d]; cbn [map Str.join]; rewrite ?Str.app_assoc. }
    rewrite pairs_read; [|done..|].
    + cbn [fmap option_fmap option_map fst snd]. by rewrite Dict.of_list_NoDup.
    + cbn [String.length] in Hn. rewrite ConfigFacts.length_app in Hn. cbn [String.length] in Hn. 
      change (λ kv : string * json, dumps_str kv.1 +:+ ": " +:+ dumps kv.2) with f. lia.
Qed.

Lemma loads_dumps_ws j w : text_ok j → ends_number w → skip_ws w = ""%string → loads (dumps j +:+ w) = Some j.
Proof.
  intros Ht Hw Hs. unfold loads. destruct (starts_app _ w (dumps_starts j Ht)) as [_ E].
  rewrite E, (value_read j Ht) by (done || rewrite ConfigFacts.length_app; lia). by rewrite Hs.
Qed.

Lemma loads_dumps j : text_ok j → loads (dumps j) = Some j.
Proof. intros Ht. rewrite <-(Str.app_nil_r (dumps j)). by apply loads_dumps_ws. Qed.

(** *** Lines *)

Lemma str_all_app f a b : str_all f (a +:+ b) = str_all f a && str_all f b.
Proof. induction a as [|x a IH]; [done|]. cbn. by rewrite IH, andb_assoc. Qed.

Lemma escape_printable s : str_all printable (escape s) = true.
Proof.
  induction s as [|a s IH]; [done|]. cbn [escape]. rewrite str_all_app, IH, andb_true_r.
  by destruct a as [[] [] [] [] [] [] [] []].
Qed.

Lemma dumps_str_printable s : str_all printable (dumps_str s) = true.
Proof. unfold dumps_str. cbn. by rewrite str_all_app, escape_printable. Qed.

Lemma digit_printable s : str_all is_digit s = true → str_all printable s = true.
Proof.
  induction s as [|a s IH]; [done|]. cbn. intros [Ha Hs]%andb_true_iff. rewrite IH by done.
  unfold is_digit in Ha. unfold printable. apply andb_true_iff in Ha as [H1%Nat.leb_le H2%Nat.leb_le].
  rewrite andb_true_r, andb_true_iff, !Nat.leb_le. lia.
Qed.

Lemma join_printable l : Forall (λ s, str_all printable s = true) l → str_all printable (Str.join ", " l) = true.
Proof.
  induction 1 as [|x l Hx Hl IH]; [done|]. destruct l as [|y l]; [done|].
  change (Str.join ", " (x :: y :: l)) with (x +:+ ", " +:+ Str.join ", " (y :: l)). by rewrite !str_all_app, Hx, IH.
Qed.

Lemma dumps_printable j : text_ok j → str_all printable (dumps j) = true.
Proof.
  induction j as [|b|z|q|s|l IH|d IH] using Json.rect_strong; intros Ht.
  - done.
  - by destruct b.
  - cbn [dumps]. unfold dumps_int. destruct (int_shape z) as [(u & _ & -> & [Hd _])|(u & _ & -> & [Hd _])];
      cbn; by rewrite digit_printable.
  - apply Ht.
  - apply dumps_str_printable.
  - apply text_ok_list in Ht. cbn [dumps]. rewrite !str_all_app, join_printable; [done|].
    apply Forall_map. rewrite Forall_forall in IH, Ht |- *. auto.
  - apply text_ok_dict in Ht as [_ Ht]. cbn [dumps]. rewrite !str_all_app, join_printable; [done|].
    apply Forall_map. unfold Dict.values in Ht. rewrite Forall_fmap in IH, Ht. rewrite Forall_forall in IH, Ht |- *.
    intros [k x] Hin. cbn [fst snd]. rewrite !str_all_app, dumps_str_printable. cbn. by apply (IH _ Hin), (Ht _ Hin).
Qed.

Lemma lines_after_printable line s r :
  str_all printable s = true → lines_after line (s +:+ String newline r) = (line +:+ s) :: lines_after "" r.
Proof.
  revert line. induction s as [|a s IH]; intros line Hs.
  - cbn. rewrite Str.app_nil_r. by destruct r.
  - cbn in Hs. apply andb_true_iff in Hs as [Ha Hs]. cbn.
    assert (line_break a = false) as ->.
    { apply bool_decide_eq_false. rewrite !not_elem_of_cons. split_and!; [intros ->; done..|by intros ?%elem_of_nil]. }
    rewrite IH by done. by rewrite Str.app_assoc.
Qed.
End read.
End JsonFacts.
