(* ===== verification/RedisStore.v ===== *)
(** * The Redis store

    [src/modelship/state/redis.py]: [RedisStateStore], one Redis key per key of the store. The server is a
    parameter ([Redis]), known by what its commands are documented to do ([RedisDocumented]); other clients of
    it may act before any command, and a command may fail to reach it or to be answered. The client library sends
    such a command again, a number of times, unless its connection watches keys: then it raises [WatchError]. The sync methods and
    their async variants are the same operation. *)

From S2P Require Import Prelude StateStore ConfigSchema JsonText.
Local Open Scope Z_scope.

(** ** The server *)

(** What a key holds: a string, or a stream of entries with their ids; and when it expires. *)
Inductive rvalue : Type :=
| RString (s : string)
| RStream (entries : list ((Z * Z) * dict string)).
Notation rcell := (rvalue * option Z)%type.
Definition db : Type := string → option rcell.

Definition rlive (now : Z) (c : option rcell) : option rcell :=
  if c is Some (v, Some e) then if e <=? now then None else Some (v, Some e) else c.
Definition rsame (now : Z) (m m' : db) : Prop := ∀ t k, now ≤ t → rlive t (m k) = rlive t (m' k).
Definition rupd (k : string) (c : option rcell) (m : db) : db := λ k', if decide (k' = k) then c else m k'.

Definition id_le (a b : Z * Z) : bool := (a.1 <? b.1) || ((a.1 =? b.1) && (a.2 <=? b.2)).

(** The commands that write, alone or in a transaction *)
Inductive write : Type :=
| DEL (k : string)
| SET (k v : string) (px : option Z)
| XADD (k : string) (fields : dict string) (id : Z * Z)
| PEXPIRE (k : string) (px : Z).

(** A command, indexed by its answer. [SCAN] goes on from a cursor and answers with the next one, which is zero at the
    end; [XRANGE] takes a [min] with the least and a [max] with the greatest sequence number; [EXEC] answers with an
    error or none per command, or with nothing when it is refused. *)
Inductive command : Type → Type :=
| GET (k : string) : command (option string)
| WRITE (w : write) : command unit
| EXISTS (k : string) : command bool
| SCAN (cursor : Z) (pattern : string) : command (Z * list string)
| XRANGE (k : string) (min : Z) (max : option Z) : command (list ((Z * Z) * dict string))
| XREVRANGE1 (k : string) : command (option ((Z * Z) * dict string))
| WATCH (ks : list string) : command unit
| EXEC (ws : list write) : command (option (list (option string))).

(** A server as one connection sees it: the keys, those the connection watches, and whether one of them was
    modified since; it answers a command, or with an error's text. A pipeline gives its connection back with
    nothing watched, so that a [WATCH] starts anew. A [SCAN] visits the keys in an order of the server's own:
    [redis_passed] tells which keys a cursor has behind it, and [redis_left] how many calls it has before it at most. *)
Class Redis (R : Type) : Type := {
  redis_passed : Z → string → bool;
  redis_left : Z → nat;
  redis_db : R → db;
  redis_watched : R → list string;
  redis_touched : R → bool;
  redis_do {A : Type} : command A → Z → R → R * (string + A);
}.

Definition WRONGTYPE : string := "WRONGTYPE Operation against a key holding the wrong kind of value".
Definition TOO_SMALL : string := "ERR The ID specified in XADD is equal or smaller than the target stream top item".
Definition ZERO_ID : string := "ERR The ID specified in XADD must be greater than 0-0".
Definition INVALID_ID : string := "ERR Invalid stream ID specified as stream command argument".

(** ** What the commands are documented to do *)

Definition stream_of (c : option rcell) : string + list ((Z * Z) * dict string) :=
  match c with
  | None => inr []
  | Some (RStream l, _) => inr l
  | Some (RString _, _) => inl WRONGTYPE
  end.

Definition added (k : string) (fields : dict string) (id : Z * Z) (now : Z) (m : db) : string + db :=
  match stream_of (rlive now (m k)) with
  | inl e => inl e
  | inr l =>
      if (id.1 <? 0) || (id.2 <? 0) then inl INVALID_ID
      else if id_le id (0, 0) then inl ZERO_ID
      else if (if last l is Some (top, _) then id_le id top else false) then inl TOO_SMALL
      else inr (rupd k (Some (RStream (l ++ [(id, fields)]), rlive now (m k) ≫= snd)) m)
  end.

Definition written (w : write) (now : Z) (m : db) : string + db :=
  match w with
  | DEL k => inr (rupd k None m)
  | SET k v px => inr (rupd k (Some (RString v, (λ p, now + p * 1000000) <$> px)) m)
  | XADD k fields id => added k fields id now m
  | PEXPIRE k px =>
      inr (if rlive now (m k) is Some (v, _) then rupd k (Some (v, Some (now + px * 1000000))) m else m)
  end.

(** A transaction's commands all run, whatever becomes of each. *)
Fixpoint written_all (ws : list write) (now : Z) (m : db) : db * list (option string) :=
  match ws with
  | [] => (m, [])
  | w :: ws =>
      let '(m, e) := match written w now m with inl e => (m, Some e) | inr m => (m, None) end in
      let '(m, es) := written_all ws now m in (m, e :: es)
  end.

Definition in_ids (min : Z) (max : option Z) (id : Z * Z) : bool :=
  (min <=? id.1) && (if max is Some e then id.1 <=? e else true).

Definition glob_free (s : string) : bool := str_all (λ a, negb (bool_decide (a ∈ ["*"; "?"; "["; "\"]%char))) s.

Section documented.
Context `{Redis R}.

(** A command that changes nothing *)
Definition unchanged (now : Z) (r r' : R) : Prop :=
  rsame now (redis_db r') (redis_db r) ∧ redis_watched r' = redis_watched r ∧ redis_touched r' = redis_touched r.

Definition documented {A} (cmd : command A) (now : Z) (r r' : R) : string + A → Prop :=
  let m := redis_db r in
  match cmd with
  | GET k => λ a, unchanged now r r' ∧
      a = match rlive now (m k) with
          | None => inr None
          | Some (RString s, _) => inr (Some s)
          | Some (RStream _, _) => inl WRONGTYPE
          end
  | WRITE w => λ a,
      match written w now m with
      | inl e => a = inl e ∧ rsame now (redis_db r') m
      | inr m' => a = inr tt ∧ rsame now (redis_db r') m'
      end
  | EXISTS k => λ a, unchanged now r r' ∧ a = inr (bool_decide (is_Some (rlive now (m k))))
  | SCAN cursor pattern => λ a, unchanged now r r' ∧ ∃ next l, a = inr (next, l) ∧
      (next ≠ 0 → (redis_left (R := R) next < redis_left (R := R) cursor)%nat) ∧
      ∀ s k, pattern = s +:+ "*" → glob_free s = true →
        let there := is_Some (rlive now (m k)) ∧ Str.startswith k s = true in
        (k ∈ l → there) ∧
        (there → redis_passed (R := R) cursor k = false → next = 0 ∨ redis_passed (R := R) next k = true → k ∈ l)
  | XRANGE k min max => λ a, unchanged now r r' ∧
      a = match stream_of (rlive now (m k)) with
          | inl e => inl e
          | inr l => if (min <? 0) || (if max is Some e then e <? 0 else false) then inl INVALID_ID
                     else inr (filter (λ e, in_ids min max e.1 = true) l)
          end
  | XREVRANGE1 k => λ a, unchanged now r r' ∧
      a = match stream_of (rlive now (m k)) with inl e => inl e | inr l => inr (last l) end
  | WATCH ks => λ a, a = inr tt ∧ rsame now (redis_db r') m ∧ redis_watched r' = ks ∧ redis_touched r' = false
  | EXEC ws => λ a,
      if redis_touched r then a = inr None ∧ rsame now (redis_db r') m
      else a = inr (Some (written_all ws now m).2) ∧ rsame now (redis_db r') (written_all ws now m).1
  end.

(** What other clients may do meanwhile: a key that is watched stays as it was, or counts as modified. *)
Definition meanwhile (now : Z) (r r' : R) : Prop :=
  redis_watched r' = redis_watched r ∧
  (redis_touched r' = true ∨
   redis_touched r' = redis_touched r ∧
   ∀ k t, k ∈ redis_watched r → now ≤ t → rlive t (redis_db r' k) = rlive t (redis_db r k)).
End documented.

Class RedisDocumented (R : Type) `{Redis R} : Prop := {
  redis_documented A (cmd : command A) now r : documented cmd now r (redis_do cmd now r).1 (redis_do cmd now r).2;
  redis_scan_starts k : redis_passed (R := R) 0 k = false;
}.

(** ** The client *)

(** What becomes of a command: it is answered; or the server can't be reached, before or after it ran it. *)
Inductive fate : Set := Answered | Unreachable (applied : bool).

(** A [RedisStateStore] on its server: how often its client library sends a command again that got no answer, the
    fates of its commands to come, and what other clients do before each; past the ends of the lists they are
    answered at once. *)
Record store (R : Type) : Type := mkStore {
  key_prefix : string;
  resends : nat;
  server : R;
  fates : list fate;
  others : list (R → R);
}.
Arguments mkStore {R}. Arguments key_prefix {R}. Arguments resends {R}. Arguments server {R}. Arguments fates {R}. Arguments others {R}.

Definition PREFIX : string := "modelship/state/".

(** [_NAMESPACE.fullmatch] *)
Definition namespace_char (a : ascii) : bool :=
  let n := nat_of_ascii a in
  (((65 <=? n) && (n <=? 90)) || ((97 <=? n) && (n <=? 122)) || ((48 <=? n) && (n <=? 57)))%nat
  || bool_decide (a ∈ ["."; "_"; "-"]%char).
Definition namespace_ok (ns : string) : bool := str_all namespace_char ns && negb (bool_decide (ns = ""%string)).

(** [__init__] *)
Definition init {R} (repr : string → string) (namespace : option string) (resends : nat) (server : R) (fates : list fate) (others : list (R → R))
    : res (store R) :=
  match namespace with
  | Some ns =>
      if namespace_ok ns then Ok (mkStore (PREFIX +:+ ns +:+ "/") resends server fates others)
      else Err (ValueError ("state-store namespace " +:+ repr ns +:+ " must be letters, digits, '.', '_' or '-'"))
  | None => Ok (mkStore PREFIX resends server fates others)
  end.

(** [_in_namespace] *)
Definition in_namespace (key prefix : string) : bool := under_prefix prefix key.

Section client.
Context `{FloatText} `{Redis R}.
Notation redis := (store R).

(** [_decode] *)
Definition decode (raw : option string) : option json := raw ≫= loads.

(** [_slug] *)
Definition slug (c : redis) (key : string) : string := key_prefix c +:+ normalize_prefix key.

(** [_unslug] *)
Definition unslug (c : redis) (keys : list string) (prefix : string) : list string :=
  let n := String.length (key_prefix c) in
  filter (λ k, in_namespace k prefix = true) (str_drop n <$> keys).

(** [_px] *)
Definition px (ttl : Z) : Z := Z.max 1 (Z.quot ttl 1000000).

(** What a command raises: the server can't be reached, or answers with an error. *)
Inductive redis_error : Type := Lost | ResponseError (msg : string).

(** One sending of a command *)
Definition send_once {A} (cmd : command A) (now : Z) (c : redis) : redis * (redis_error + A) :=
  let r := default id (head (others c)) (server c) in
  let after r := mkStore (key_prefix c) (resends c) r (tail (fates c)) (tail (others c)) in
  match default Answered (head (fates c)) with
  | Answered =>
      let '(r, a) := redis_do cmd now r in
      (after r, match a with inl e => inl (ResponseError e) | inr a => inr a end)
  | Unreachable applied => (after (if applied then (redis_do cmd now r).1 else r), inl Lost)
  end.

(** A command: the library sends it again, unless the connection watches keys. *)
Fixpoint send_again {A} (n : nat) (cmd : command A) (now : Z) (c : redis) : redis * (redis_error + A) :=
  match n, send_once cmd now c with
  | S n, (c, inl Lost) => send_again n cmd now c
  | _, answer => answer
  end.
Definition send {A} (cmd : command A) (now : Z) (c : redis) : redis * (redis_error + A) := send_again (resends c) cmd now c.

(** [_mapped] *)
Definition raised (e : redis_error) : exn :=
  match e with Lost => StateStoreUnavailableError | ResponseError m => OtherError m end.
Definition mapped {A} (p : redis * (redis_error + A)) : redis * res A :=
  (p.1, match p.2 with inl e => Err (raised e) | inr a => Ok a end).
Definition call {A} (cmd : command A) (now : Z) : store_m redis A := λ c, mapped (send cmd now c).

(** A command of a pipeline that watches keys: where it gets no answer the library raises [WatchError], which is
    [None] here. *)
Definition call_watched {A} (cmd : command A) (now : Z) : store_m redis (option A) := λ c,
  match send_once cmd now c with
  | (c, inl Lost) => (c, Ok None)
  | (c, inl (ResponseError m)) => (c, Err (OtherError m))
  | (c, inr a) => (c, Ok (Some a))
  end.

(** ** The operations *)

Definition get (key : string) (now : Z) : store_m redis (option json) := λ c,
  (raw ← call (GET (slug c key)) now; mret (decode raw)) c.

Definition set (key : string) (value : json) (ttl : option Z) (now : Z) : store_m redis unit := λ c,
  call (WRITE (SET (slug c key) (dumps value) (px <$> ttl))) now c.

Definition delete (key : string) (now : Z) : store_m redis unit := λ c, call (WRITE (DEL (slug c key))) now c.

(** [list(scan_iter(match=pattern))]: calls until the cursor is back at zero *)
Fixpoint scan_iter (n : nat) (cursor : Z) (pattern : string) (now : Z) : store_m redis (list string) :=
  match n with
  | O => λ c, (c, Err (RuntimeError "still scanning"))
  | S n =>
      answer ← call (SCAN cursor pattern) now;
      if answer.1 =? 0 then mret answer.2
      else rest ← scan_iter n answer.1 pattern now; mret (answer.2 ++ rest)
  end.
Definition list_keys (prefix : string) (now : Z) : store_m redis (list string) := λ c,
  let prefix := normalize_prefix prefix in
  (keys ← scan_iter (S (redis_left (R := R) 0)) 0 (slug c prefix +:+ "*") now; mret (unslug c keys prefix)) c.

(** [p in s] *)
Fixpoint contains (p s : string) : bool :=
  Str.startswith s p || (if s is String _ s then contains p s else false).
Definition refused_as_old (msg : string) : bool := contains "equal or smaller" msg.

Definition append (key : string) (position : Z) (value : json) (ttl : option Z) (now : Z) : store_m redis bool := λ c,
  let log := slug c key in
  match send (WRITE (XADD log [("data"%string, dumps value)] (position, 0))) now c with
  | (c, inl (ResponseError msg)) => if refused_as_old msg then (c, Ok false) else (c, Err (OtherError msg))
  | (c, inl Lost) => (c, Err StateStoreUnavailableError)
  | (c, inr _) =>
      match ttl with
      | Some t => (_ ← call (WRITE (PEXPIRE log (px t))) now; mret true) c
      | None => (c, Ok true)
      end
  end.

(** The transaction's commands, and [execute], which raises the first error among their answers *)
Definition transaction (log : string) (position : Z) (entry : json) (record : string) (value : json) (ttl : option Z)
    : list write :=
  [XADD log [("data"%string, dumps entry)] (position, 0)]
  ++ (if ttl is Some t then [PEXPIRE log (px t)] else [])
  ++ [SET record (dumps value) (px <$> ttl)].
Definition executed (answers : list (option string)) : res unit :=
  if omap id answers is e :: _ then Err (OtherError e) else Ok tt.

(** A round of [append_and_set_async]'s loop: its answer, or nothing on a [WatchError], when a watched key was modified
    or the connection was lost that watched it. *)
Definition attempt (log : string) (position : Z) (entry : json) (record : string) (value : json) (ttl : option Z)
    (if_exists : bool) (now : Z) : store_m redis (option bool) :=
  _ ← call (WATCH [log; record]) now;
  present ← (if if_exists then call_watched (EXISTS record) now else mret (Some true));
  match present with
  | None => mret None
  | Some false => mret (Some false)
  | Some true =>
      top ← call_watched (XREVRANGE1 log) now;
      match top with
      | None => mret None
      | Some top =>
          if (if top is Some (id, _) then position <=? id.1 else false) then mret (Some false)
          else
            answers ← call_watched (EXEC (transaction log position entry record value ttl)) now;
            match answers with
            | None | Some None => mret None
            | Some (Some answers) => _ ← lift (executed answers); mret (Some true)
            end
      end
  end.

Fixpoint rounds (n : nat) (once : store_m redis (option bool)) : store_m redis bool :=
  match n with
  | O => λ c, (c, Err (RuntimeError "still retrying"))
  | S n => answer ← once; match answer with Some b => mret b | None => rounds n once end
  end.

(** Its loop runs as long as other clients modify what it watches, or connections are lost. *)
Definition append_and_set (log_key : string) (position : Z) (entry : json) (key : string) (value : json)
    (ttl : option Z) (if_exists : bool) (now : Z) : store_m redis bool := λ c,
  rounds (S (length (others c) + length (fates c))) (attempt (slug c log_key) position entry (slug c key) value ttl if_exists now) c.

(** An entry's value: none for [null], or for text that is not JSON *)
Definition entry_value (e : (Z * Z) * dict string) : option json :=
  match decode (Dict.get "data" e.2) with Some JNull => None | v => v end.

Definition read_range (key : string) (start : Z) (stop : option Z) (now : Z) : store_m redis (list json) := λ c,
  (entries ← call (XRANGE (slug c key) start stop) now; mret (omap entry_value entries)) c.

Definition expire (key : string) (ttl : Z) (now : Z) : store_m redis unit := λ c,
  call (WRITE (PEXPIRE (slug c key) (px ttl))) now c.

Definition run {A} (op : store_op A) (now : Z) (c : redis) : redis * res A :=
  match op with
  | OGet k => get k now c
  | OSet k v ttl => set k v ttl now c
  | ODelete k => delete k now c
  | OList prefix => list_keys prefix now c
  | OAppend k p v ttl => append k p v ttl now c
  | OAppendAndSet lk p e k v ttl ife => append_and_set lk p e k v ttl ife now c
  | OReadRange k start stop => read_range k start stop now c
  | OExpire k ttl => expire k ttl now c
  end.
End client.

#[export] Instance redis_store `{FloatText} `{Redis R} : StateStore (store R) := @run _ R _.
