(* ===== verification/RedisStoreTheorems.v ===== *)
(** * The Redis store keeps the store's promise

    Whatever other clients of the server do meanwhile, an operation that returns did in one step what the abstract
    map's operation does, for its keys normalized and its time to live in whole milliseconds; and the transaction's
    loop ends as soon as it is left alone. *)

From S2P Require Import Prelude StateStore ConfigSchema JsonText RedisStore.
Import JsonFacts.
Local Open Scope Z_scope.

(** ** The store's content *)

(** The operation the server carries out: keys without empty pieces, at least a millisecond, and whole ones *)
Definition coarse_ttl (ttl : Z) : Z := px ttl * 1000000.
Definition coarse {A} (op : store_op A) : store_op A :=
  match op with
  | OGet k => OGet (normalize_prefix k)
  | OSet k v ttl => OSet (normalize_prefix k) v (coarse_ttl <$> ttl)
  | ODelete k => ODelete (normalize_prefix k)
  | OList prefix => OList prefix
  | OAppend k p v ttl => OAppend (normalize_prefix k) p v (coarse_ttl <$> ttl)
  | OAppendAndSet lk p e k v ttl ife =>
      OAppendAndSet (normalize_prefix lk) p e (normalize_prefix k) v (coarse_ttl <$> ttl) ife
  | OReadRange k start stop => OReadRange (normalize_prefix k) start stop
  | OExpire k ttl => OExpire (normalize_prefix k) (coarse_ttl ttl)
  end.

Section content.
Context `{FloatText}.

Definition pair_of_entry (e : (Z * Z) * dict string) : json :=
  Spec.pair_of e.1.1 (default JNull (decode (Dict.get "data" e.2))).
Definition cell_of (x : rcell) : cell :=
  (match x.1 with RString s => default JNull (loads s) | RStream l => JList (pair_of_entry <$> l) end, x.2).
Definition cells_of (prefix : string) (m : db) : content := λ k, cell_of <$> m (prefix +:+ k).

(** What the store itself has written *)
Definition good_entry (e : (Z * Z) * dict string) : Prop :=
  e.1.2 = 0 ∧ ∃ v, e.2 = [("data"%string, dumps v)] ∧ text_ok v ∧ v ≠ JNull.
Definition good_value (v : rvalue) : Prop :=
  match v with RString s => ∃ v, text_ok v ∧ s = dumps v | RStream l => Forall good_entry l end.
Definition sound (now : Z) (prefix : string) (m : db) : Prop :=
  ∀ k x, rlive now (m (prefix +:+ k)) = Some x → good_value x.1.

(** What an operation is given: JSON values, and a prefix without the characters of a pattern *)
Definition given {A} (op : store_op A) : Prop :=
  match op with
  | OSet _ v _ => text_ok v
  | OList prefix => glob_free (normalize_prefix prefix) = true
  | OAppend _ _ v _ => text_ok v ∧ v ≠ JNull
  | OAppendAndSet _ _ e _ v _ _ => text_ok e ∧ e ≠ JNull ∧ text_ok v
  | _ => True
  end.

(** What it finds: a log that expires is not appended to without a time to live. *)
Definition keeps_expiry (k : string) (ttl : option Z) (now : Z) (m : content) : Prop :=
  ttl = None → ∀ x, live now (m k) = Some x → x.2 = None.
Definition fits {A} (op : store_op A) (now : Z) (m : content) : Prop :=
  match op with
  | OAppend k _ _ ttl => keeps_expiry (normalize_prefix k) ttl now m
  | OAppendAndSet lk _ _ _ _ ttl _ => keeps_expiry (normalize_prefix lk) ttl now m
  | _ => True
  end.

(** The commands of an operation that write *)
Definition own_writes {A} (prefix : string) (op : store_op A) : list (list write) :=
  let K k := prefix +:+ normalize_prefix k in
  match op with
  | OSet k v ttl => [[SET (K k) (dumps v) (px <$> ttl)]]
  | ODelete k => [[DEL (K k)]]
  | OAppend k p v ttl => [XADD (K k) [("data"%string, dumps v)] (p, 0)] :: (if ttl is Some t then [[PEXPIRE (K k) (px t)]] else [])
  | OAppendAndSet lk p e k v ttl _ => [transaction (K lk) p e (K k) v ttl]
  | OExpire k ttl => [[PEXPIRE (K k) (px ttl)]]
  | OGet _ | OList _ | OReadRange _ _ _ => []
  end.
End content.

(** ** Moments

    What a server passes through during an operation, up to the moment it takes effect: commands that only read change
    nothing, other clients do what they do, and where the reply to a command of the operation's own was lost ([own]),
    that command has run once more than the store knows. *)
Section moments.
Context `{Redis R}.

Inductive passes (now : Z) (own : R → R → Prop) : list (R → R) → R → R → Prop :=
| passes_here fs r : passes now own fs r r
| passes_other f fs r r' : passes now own fs (f r) r' → passes now own (f :: fs) r r'
| passes_read fs r r1 r' : rsame now (redis_db r1) (redis_db r) → passes now own fs r1 r' → passes now own fs r r'
| passes_own fs r r1 r' : own r r1 → passes now own fs r1 r' → passes now own fs r r'.

(** A command that writes, of an operation whose replies may be [lost], has run. *)
Definition ran `{FloatText} {A} (lost : Prop) (prefix : string) (op : store_op A) (now : Z) (r r1 : R) : Prop :=
  lost ∧ ∃ ws, ws ∈ own_writes prefix op ∧ rsame now (redis_db r1) (written_all ws now (redis_db r)).1.

(** Other clients of this store's keys: they keep its values, and what they touch counts as modified. *)
Definition respects `{FloatText} (now : Z) (prefix : string) (f : R → R) : Prop :=
  ∀ r, meanwhile now r (f r) ∧ (sound now prefix (redis_db r) → sound now prefix (redis_db (f r))).
End moments.

(** Between an append and the expiry it sets nobody else acts. *)
Definition undisturbed `{Redis R} {A} (op : store_op A) (c : store R) : Prop :=
  match op with OAppend _ _ _ (Some _) => tail (others c) = [] | _ => True end.

Module RedisFacts.

(** ** Contents *)

Lemma rsame_sym now m m' : rsame now m m' → rsame now m' m.
Proof. intros E t k Ht. by rewrite E. Qed.
Lemma rsame_trans now m1 m2 m3 : rsame now m1 m2 → rsame now m2 m3 → rsame now m1 m3.
Proof. intros E1 E2 t k Ht. by rewrite E1, E2. Qed.
Lemma rsame_now now m m' k : rsame now m m' → rlive now (m k) = rlive now (m' k).
Proof. intros E. apply E. lia. Qed.

Section facts.
Context `{FloatText}.
Implicit Types (m : db) (prefix : string).

Lemma live_cell_of t x : live t (cell_of <$> x) = cell_of <$> rlive t x.
Proof. destruct x as [[v [e|]]|]; cbn; [|done..]. unfold expired. cbn. by destruct (e <=? t). Qed.

Lemma cells_same now prefix m m' : rsame now m m' → same_from now (cells_of prefix m) (cells_of prefix m').
Proof. intros E. split. intros t k Ht. unfold cells_of. by rewrite !live_cell_of, E. Qed.

Lemma sound_same now prefix m m' : rsame now m m' → sound now prefix m → sound now prefix m'.
Proof. intros E Hs k x. rewrite <-(rsame_now _ _ _ _ E). apply Hs. Qed.

Lemma cells_upd prefix k x m :
  ∀ k', cells_of prefix (rupd (prefix +:+ k) x m) k' = Spec.upd k (cell_of <$> x) (cells_of prefix m) k'.
Proof.
  intros k'. unfold cells_of, rupd, Spec.upd. destruct (decide (k' = k)) as [->|Hne]; [by rewrite decide_True|].
  rewrite decide_False; [done|]. by intros ?%Str.app_inj.
Qed.

Lemma same_upd now prefix k x m :
  same_from now (cells_of prefix (rupd (prefix +:+ k) x m)) (Spec.upd k (cell_of <$> x) (cells_of prefix m)).
Proof. split. intros t k' _. by rewrite cells_upd. Qed.

Lemma sound_upd now prefix k v e m :
  good_value v → sound now prefix m → sound now prefix (rupd (prefix +:+ k) (Some (v, e)) m).
Proof.
  intros Hv Hs k' x. unfold rupd. case_decide; [|apply Hs]. cbn. destruct e as [e|]; [|by intros [= <-]].
  destruct (e <=? now); [done|]. by intros [= <-].
Qed.

Lemma decode_dumps v : text_ok v → default JNull (decode (Some (dumps v))) = v.
Proof. intros Hv. cbn. by rewrite JsonFacts.loads_dumps. Qed.

Lemma expires_coarse now ttl : expires_at now (coarse_ttl <$> ttl) = (λ p, now + p * 1000000) <$> (px <$> ttl).
Proof. by destruct ttl. Qed.

(** A log, as the map sees it *)
Lemma log_of now prefix k m l :
  stream_of (rlive now (m (prefix +:+ k))) = inr l → Spec.log k now (cells_of prefix m) = pair_of_entry <$> l.
Proof.
  unfold Spec.log, cells_of. rewrite live_cell_of.
  destruct (rlive now (m (prefix +:+ k))) as [[[s|l'] e]|]; cbn; [done|..]; by intros [= <-].
Qed.

(** ** Appending *)

Definition own_entry (position : Z) (v : json) : (Z * Z) * dict string := ((position, 0), [("data"%string, dumps v)]).

Lemma own_entry_good position v : text_ok v → v ≠ JNull → good_entry (own_entry position v).
Proof. intros Hv Hn. split; [done|]. by exists v. Qed.

Lemma own_entry_pair position v : text_ok v → pair_of_entry (own_entry position v) = Spec.pair_of position v.
Proof. intros Hv. unfold pair_of_entry. cbn [own_entry fst snd]. cbn [Dict.get]. rewrite decide_True by done. by rewrite decode_dumps. Qed.

Lemma sound_stream now prefix k m l :
  sound now prefix m → stream_of (rlive now (m (prefix +:+ k))) = inr l → Forall good_entry l.
Proof.
  intros Hs. specialize (Hs k). destruct (rlive now (m (prefix +:+ k))) as [[[s|l'] e]|]; cbn; [done| |by intros [= <-]].
  intros [= <-]. by apply (Hs _ eq_refl).
Qed.

(** What the map answers to an append, by the stream's last entry *)
Lemma append_by_last now prefix k position v ttl m l :
  sound now prefix m → stream_of (rlive now (m (prefix +:+ k))) = inr l →
  Spec.append k position v ttl now (cells_of prefix m) =
    Ok (if (if last l is Some (top, _) then id_le (position, 0) top else false) then None
        else Some (Spec.set k (JList ((pair_of_entry <$> l) ++ [Spec.pair_of position v])) ttl now (cells_of prefix m))).
Proof.
  intros Hs Hl. pose proof (sound_stream _ _ _ _ _ Hs Hl) as Hg. unfold Spec.append. rewrite (log_of _ _ _ _ _ Hl), fmap_last.
  destruct (last l) as [[[q n] f]|] eqn:Hlast; cbn [fmap option_fmap option_map]; [|done].
  apply last_Some in Hlast as (l' & ->). rewrite Forall_app, Forall_singleton in Hg. destruct Hg as [_ [Hn _]]. cbn in Hn. subst n.
  replace (id_le (position, 0) (q, 0)) with (position <=? q); [by cbn; destruct (position <=? q)|].
  unfold id_le. cbn. destruct (Z.leb_spec position q), (Z.ltb_spec position q), (Z.eqb_spec position q); cbn; lia || done.
Qed.

Lemma added_cases now prefix k position v m r :
  sound now prefix m → text_ok v → v ≠ JNull →
  added (prefix +:+ k) [("data"%string, dumps v)] (position, 0) now m = r →
  match r with
  | inl e => e = TOO_SMALL → ∀ ttl, Spec.append k position v ttl now (cells_of prefix m) = Ok None
  | inr m1 => ∃ l, m1 = rupd (prefix +:+ k) (Some (RStream (l ++ [own_entry position v]), rlive now (m (prefix +:+ k)) ≫= snd)) m ∧
      sound now prefix m1 ∧
      ∀ ttl, Spec.append k position v ttl now (cells_of prefix m) =
        Ok (Some (Spec.set k (JList (pair_of_entry <$> (l ++ [own_entry position v]))) ttl now (cells_of prefix m)))
  end.
Proof.
  intros Hs Hv Hn <-. unfold added. destruct (stream_of _) as [e|l] eqn:Hl.
  { destruct (rlive now (m (prefix +:+ k))) as [[[s|l'] x]|]; cbn in Hl; simplify_eq. done. }
  destruct (_ || _); [done|]. destruct (id_le _ (0, 0)); [done|].
  destruct (if last l is Some (top, _) then id_le (position, 0) top else false) eqn:Hlast.
  - intros _ ttl. by rewrite (append_by_last _ _ _ _ _ _ _ _ Hs Hl), Hlast.
  - exists l. split; [done|]. split.
    + apply sound_upd; [|done]. cbn. rewrite Forall_app, Forall_singleton.
      split; [by eapply sound_stream|by apply own_entry_good].
    + intros ttl. by rewrite (append_by_last _ _ _ _ _ _ _ _ Hs Hl), Hlast, fmap_app, list_fmap_singleton, own_entry_pair.
Qed.

Lemma added_errors k fields id now m e :
  added k fields id now m = inl e → e ∈ [WRONGTYPE; INVALID_ID; ZERO_ID; TOO_SMALL].
Proof.
  unfold added, stream_of. destruct (rlive now (m k)) as [[[s|l] x]|]; [intros [= <-]; set_solver|..];
    repeat (case_match; try done); intros [= <-]; set_solver.
Qed.

Lemma only_old_refused e : e ∈ [WRONGTYPE; INVALID_ID; ZERO_ID; TOO_SMALL] → refused_as_old e = true → e = TOO_SMALL.
Proof. intros He. repeat (apply elem_of_cons in He as [->|He]; [done|]). by apply elem_of_nil in He. Qed.

Lemma expiry_live now (c : option rcell) v : rlive now (Some (v, rlive now c ≫= snd)) = Some (v, rlive now c ≫= snd).
Proof.
  destruct c as [[w [e|]]|]; cbn; try done. destruct (e <=? now) eqn:He; cbn; [done|]. by rewrite He.
Qed.

(** A log just appended to, and made to expire if it is to *)
Definition expiring (k : string) (ttl : option Z) (v : rvalue) (now : Z) (m1 : db) : db :=
  if ttl is Some t then rupd k (Some (v, Some (now + coarse_ttl t))) m1 else m1.

Lemma expire_written now k t v x m :
  written (PEXPIRE k (px t)) now (rupd k (Some (v, rlive now x ≫= snd)) m) =
    inr (expiring k (Some t) v now (rupd k (Some (v, rlive now x ≫= snd)) m)).
Proof. cbn. unfold rupd at 1. rewrite decide_True, expiry_live by done. done. Qed.

Lemma expiring_cells now prefix k ttl v m :
  keeps_expiry k ttl now (cells_of prefix m) →
  same_from now
    (cells_of prefix (expiring (prefix +:+ k) ttl v now (rupd (prefix +:+ k) (Some (v, rlive now (m (prefix +:+ k)) ≫= snd)) m)))
    (Spec.upd k (Some ((cell_of (v, None)).1, expires_at now (coarse_ttl <$> ttl))) (cells_of prefix m)).
Proof.
  intros Hk. destruct ttl as [t|]; cbn [expiring fmap option_fmap option_map].
  - split. intros u k' _. rewrite cells_upd. unfold Spec.upd at 1 2. case_decide; [done|]. rewrite cells_upd.
    unfold Spec.upd. by rewrite decide_False.
  - etrans; [apply same_upd|]. replace (rlive now (m (prefix +:+ k)) ≫= snd) with (@None Z); [done|].
    specialize (Hk eq_refl). unfold cells_of in Hk. rewrite live_cell_of in Hk.
    destruct (rlive now (m (prefix +:+ k))) as [[w e]|]; [|done]. by specialize (Hk _ eq_refl).
Qed.
End facts.

(** ** Writes of the store's own *)

Definition good_write `{FloatText} (prefix : string) (w : write) : Prop :=
  ∃ k, match w with
       | DEL K => K = prefix +:+ k
       | SET K s _ => K = prefix +:+ k ∧ ∃ v, text_ok v ∧ s = dumps v
       | XADD K fs id => K = prefix +:+ k ∧ ∃ p v, text_ok v ∧ v ≠ JNull ∧ fs = [("data"%string, dumps v)] ∧ id = (p, 0)
       | PEXPIRE K _ => K = prefix +:+ k
       end.

Lemma good_write_sound `{FloatText} now prefix w m m' :
  good_write prefix w → sound now prefix m → written w now m = inr m' → sound now prefix m'.
Proof.
  intros [k Hw] Hs. destruct w as [K|K s px|K fs id|K px]; cbn [written].
  - subst K. intros [= <-] k' x. unfold rupd. case_decide; [done|apply Hs].
  - destruct Hw as (-> & v & Hv & ->). intros [= <-]. apply sound_upd; [by exists v|done].
  - destruct Hw as (-> & p & v & Hv & Hn & -> & ->). intros Ha.
    by destruct (added_cases _ _ _ _ _ _ _ Hs Hv Hn Ha) as (l & _ & ? & _).
  - subst K. intros [= <-]. destruct (rlive now (m (prefix +:+ k))) as [[v e]|] eqn:E; [|done].
    apply sound_upd; [by apply (Hs _ _ E)|done].
Qed.

Lemma good_writes_sound `{FloatText} now prefix ws m :
  Forall (good_write prefix) ws → sound now prefix m → sound now prefix (written_all ws now m).1.
Proof.
  induction ws as [|w ws IH] in m |- *; intros Hw Hs; [done|]. apply Forall_cons in Hw as [Hw Hws]. cbn.
  destruct (written w now m) as [e|m'] eqn:E.
  - specialize (IH m Hws Hs). by destruct (written_all ws now m).
  - specialize (IH m' Hws (good_write_sound _ _ _ _ _ Hw Hs E)). by destruct (written_all ws now m').
Qed.

Lemma own_writes_good `{FloatText} {A} prefix (op : store_op A) ws :
  given op → ws ∈ own_writes prefix op → Forall (good_write prefix) ws.
Proof.
  destruct op as [k|k v ttl|k|p|k p v ttl|lk p e k v ttl ife|k a b|k ttl]; cbn [own_writes given].
  1,4,7: intros _ Hin; by apply elem_of_nil in Hin.
  - intros Hv ->%list_elem_of_singleton. apply Forall_singleton. eexists. cbn. eauto.
  - intros _ ->%list_elem_of_singleton. apply Forall_singleton. by eexists.
  - intros [Hv Hn] [->|Hin]%elem_of_cons; [apply Forall_singleton; eexists; cbn; eauto 10|].
    destruct ttl; [apply list_elem_of_singleton in Hin as ->; apply Forall_singleton; by eexists|by apply elem_of_nil in Hin].
  - intros (He & Hn & Hv) ->%list_elem_of_singleton. unfold transaction.
    apply Forall_app. split; [apply Forall_singleton; eexists; cbn; eauto 10|]. apply Forall_app.
    split; [destruct ttl; repeat constructor; by eexists|apply Forall_singleton; eexists; cbn; eauto].
  - intros _ ->%list_elem_of_singleton. apply Forall_singleton. by eexists.
Qed.

(** ** Commands *)

Section commands.
Context `{FloatText} `{RedisDocumented R}.
Implicit Types (c : store R) (r : R).

Lemma meanwhile_trans now r1 r2 r3 : meanwhile now r1 r2 → meanwhile now r2 r3 → meanwhile now r1 r3.
Proof.
  intros [W1 T1] [W2 T2]. split; [congruence|]. destruct T2 as [T2|[T2 E2]]; [by left|].
  destruct T1 as [T1|[T1 E1]]; [left; congruence|]. right. split; [congruence|].
  intros k t Hk Ht. rewrite E2 by (done || congruence). by apply E1.
Qed.

Lemma unchanged_meanwhile now r r' : unchanged now r r' → meanwhile now r r'.
Proof. intros (E & W & T). split; [done|]. right. split; [done|]. intros k t _ Ht. by apply E. Qed.

(** The server, as the next command of a store finds it *)
Definition found c : R := default id (head (others c)) (server c).

Lemma send_once_done {A} (cmd : command A) now c c' a :
  send_once cmd now c = (c', a) →
  key_prefix c' = key_prefix c ∧ others c' = tail (others c) ∧ fates c' = tail (fates c) ∧
  match a with
  | inr a => documented cmd now (found c) (server c') (inr a)
  | inl (ResponseError e) => documented cmd now (found c) (server c') (inl e)
  | inl Lost => fates c ≠ [] ∧
      (server c' = found c ∨ Unreachable true ∈ fates c ∧ ∃ a, documented cmd now (found c) (server c') a)
  end.
Proof.
  unfold send_once. fold (found c). pose proof (redis_documented A cmd now (found c)) as Hd.
  destruct (fates c) as [|[|applied] fs] eqn:Ef; cbn.
  1,2: destruct (redis_do cmd now (found c)) as [r' [e|x]]; by intros [= <- <-].
  intros [= <- <-]. do 3 (split; [done|]). split; [done|]. destruct applied; [right|by left]. split; [constructor|]. by eexists.
Qed.

Lemma store_bind_ok {T A B} (p : store_m T A) (f : A → store_m T B) (s s' : T) b :
  (p ≫= f) s = (s', Ok b) ↔ ∃ s1 a, p s = (s1, Ok a) ∧ f a s1 = (s', Ok b).
Proof.
  unfold mbind, store_m_bind. destruct (p s) as [s1 [a|e]]; split; [intros Hf; by exists s1, a|by intros (? & ? & [= -> ->] & ?)|done|].
  by intros (? & ? & [= ] & ?).
Qed.

Lemma store_bind_err {T A B} (p : store_m T A) (f : A → store_m T B) (s s' : T) x :
  (p ≫= f) s = (s', Err x) → p s = (s', Err x) ∨ ∃ s1 a, p s = (s1, Ok a) ∧ f a s1 = (s', Err x).
Proof.
  unfold mbind, store_m_bind. destruct (p s) as [s1 [a|y]]; [intros Hf; right; by exists s1, a|].
  intros [= -> ->]. by left.
Qed.

Lemma call_raises {A} (cmd : command A) now c c' x : call cmd now c = (c', Err x) → x = StateStoreUnavailableError ∨ ∃ msg, x = OtherError msg.
Proof.
  unfold call, mapped. destruct (send cmd now c) as [c1 [[|msg]|a]]; intros [= _ <-]; cbn; eauto.
Qed.

Lemma watched_raises {A} (cmd : command A) now c c' x : call_watched cmd now c = (c', Err x) → ∃ msg, x = OtherError msg.
Proof. unfold call_watched. destruct (send_once cmd now c) as [c1 [[|msg]|a]]; intros [= _ <-]; eauto. Qed.

Lemma elem_drop {A} n (x : A) l : x ∈ drop n l → x ∈ l.
Proof. rewrite <-(take_drop n l) at 2. rewrite elem_of_app. by right. Qed.
Lemma drop_of_tail {A} n (l : list A) : drop n (tail l) = drop (S n) l.
Proof. destruct l; cbn; [apply drop_nil|done]. Qed.
Lemma tail_of_drop {A} n (l : list A) : tail (drop n l) = drop (S n) l.
Proof. revert l. induction n as [|n IH]; intros [|x l]; cbn; [done..|]. apply IH. Qed.

Section own.
Context (now : Z) (own : R → R → Prop).

(** ** What a server passes through *)

Lemma passes_found c : passes now own (others c) (server c) (found c).
Proof. unfold found. destruct (others c) as [|f fs]; cbn; [apply passes_here|apply passes_other, passes_here]. Qed.

Lemma passes_from_found c r : passes now own (tail (others c)) (found c) r → passes now own (others c) (server c) r.
Proof. unfold found. destruct (others c) as [|f fs]; cbn; [done|by intros; apply passes_other]. Qed.

Lemma passes_after c c1 r :
  rsame now (redis_db (server c1)) (redis_db (found c)) → passes now own (tail (others c)) (server c1) r →
  passes now own (others c) (server c) r.
Proof. intros E Hp. apply passes_from_found. by eapply passes_read. Qed.

(** A state of the store that another leads to *)
Record leads c c1 : Prop := {
  leads_prefix : key_prefix c1 = key_prefix c;
  leads_others : ∃ n, others c1 = drop n (others c);
  leads_fates : ∃ n, fates c1 = drop n (fates c);
  leads_passes r : passes now own (others c1) (server c1) r → passes now own (others c) (server c) r;
}.

Lemma leads_refl c : leads c c.
Proof. split; [done|by exists 0%nat|by exists 0%nat|done]. Qed.

Lemma leads_trans c1 c2 c3 : leads c1 c2 → leads c2 c3 → leads c1 c3.
Proof.
  intros [P [n N] [k K] L] [P' [n' N'] [k' K'] L']. split; [congruence| | |auto].
  - exists (n + n')%nat. by rewrite N', N, drop_drop.
  - exists (k + k')%nat. by rewrite K', K, drop_drop.
Qed.

Lemma leads_step c c' : key_prefix c' = key_prefix c → others c' = tail (others c) → fates c' = tail (fates c) →
  (∀ r, passes now own (tail (others c)) (server c') r → passes now own (others c) (server c) r) → leads c c'.
Proof.
  intros Hp Ho Hf Hl. split; [done|exists 1%nat; rewrite Ho; by destruct (others c)|exists 1%nat; rewrite Hf; by destruct (fates c)|].
  intros r. rewrite Ho. apply Hl.
Qed.

(** A command whose reply may be lost: it only reads, or it is the operation's own. *)
Definition may_run {A} (cmd : command A) c : Prop :=
  Unreachable true ∈ fates c → ∀ r r' a, documented cmd now r r' a → rsame now (redis_db r') (redis_db r) ∨ own r r'.

Lemma may_run_leads {A} (cmd : command A) c c1 : leads c c1 → may_run cmd c → may_run cmd c1.
Proof. intros [_ _ [n K] _] Hm Hin. apply Hm. rewrite K in Hin. by eapply elem_drop. Qed.

Lemma lost_leads {A} (cmd : command A) c c' :
  may_run cmd c → send_once cmd now c = (c', inl Lost) →
  leads c c' ∧ (length (others c') + length (fates c') < length (others c) + length (fates c))%nat.
Proof.
  intros Hm (Hp & Ho & Hf & Hne & Hs)%send_once_done. split.
  - apply leads_step; [done..|]. intros r Hr. apply passes_from_found. destruct Hs as [Hs|(Hin & a & Hd)].
    + by rewrite Hs in Hr.
    + destruct (Hm Hin _ _ _ Hd); [by eapply passes_read|by eapply passes_own].
  - rewrite Ho, Hf. destruct (fates c); [done|]. cbn. destruct (others c); cbn; lia.
Qed.

Lemma send_leads {A} n (cmd : command A) c c' a :
  may_run cmd c → send_again n cmd now c = (c', a) → ∃ c1, leads c c1 ∧ send_once cmd now c1 = (c', a).
Proof.
  induction n as [|n IH] in c |- *; cbn [send_again]; intros Hm; [intros E; exists c; split; [apply leads_refl|done]|].
  destruct (send_once cmd now c) as [c2 [[|msg]|x]] eqn:E; [|intros [= <- <-]; exists c; split; [apply leads_refl|done]..].
  intros Hs. destruct (lost_leads _ _ _ Hm E) as [Hl _].
  destruct (IH c2 (may_run_leads _ _ _ Hl Hm) Hs) as (c1 & Hl1 & E1). exists c1. split; [by eapply leads_trans|done].
Qed.

Lemma call_done {A} (cmd : command A) c c' a :
  may_run cmd c → call cmd now c = (c', Ok a) →
  ∃ c1, leads c c1 ∧ key_prefix c' = key_prefix c ∧ others c' = tail (others c1) ∧ fates c' = tail (fates c1) ∧
    documented cmd now (found c1) (server c') (inr a).
Proof.
  intros Hm. unfold call, mapped, send. destruct (send_again _ cmd now c) as [c2 [e|x]] eqn:E; [done|].
  cbn. intros [= <- <-]. destruct (send_leads _ _ _ _ _ Hm E) as (c1 & Hl & (Hp & Ho & Hf & Hd)%send_once_done).
  exists c1. split; [done|]. split; [rewrite Hp; apply Hl|done].
Qed.

Lemma call_watched_done {A} (cmd : command A) c c' a :
  may_run cmd c → call_watched cmd now c = (c', Ok a) →
  leads c c' ∧ (length (others c') + length (fates c') < length (others c) + length (fates c))%nat ∧ a = None ∨
  key_prefix c' = key_prefix c ∧ others c' = tail (others c) ∧ fates c' = tail (fates c) ∧
    ∃ x, a = Some x ∧ documented cmd now (found c) (server c') (inr x).
Proof.
  intros Hm. unfold call_watched. destruct (send_once cmd now c) as [c2 [[|m]|x]] eqn:E; [|done|].
  - intros [= -> <-]. left. by destruct (lost_leads _ _ _ Hm E).
  - intros [= -> <-]. right. apply send_once_done in E as (? & ? & ? & ?). eauto 6.
Qed.

Context (prefix : string) (Hown : ∀ r r1, own r r1 → sound now prefix (redis_db r) → sound now prefix (redis_db r1)).

Lemma passes_sound fs r r' :
  Forall (respects now prefix) fs → passes now own fs r r' → sound now prefix (redis_db r) → sound now prefix (redis_db r').
Proof.
  intros Hf Hp. induction Hp as [|f fs r r' Hp IH|fs r r1 r' E Hp IH|fs r r1 r' E Hp IH]; intros Hs; [done|..].
  - apply Forall_cons in Hf as [Hf Hfs]. apply IH; [done|]. by apply Hf.
  - apply IH; [done|]. by eapply sound_same; [apply rsame_sym|].
  - apply IH; [done|]. by eapply Hown.
Qed.

Lemma found_meanwhile c : Forall (respects now prefix) (others c) → meanwhile now (server c) (found c).
Proof.
  unfold found. destruct (others c) as [|f fs]; cbn; intros Hf; [by apply unchanged_meanwhile|].
  apply Forall_cons in Hf as [Hf _]. apply Hf.
Qed.

Lemma found_sound c :
  Forall (respects now prefix) (others c) → sound now prefix (redis_db (server c)) → sound now prefix (redis_db (found c)).
Proof. intros Hf. eapply passes_sound; [done|apply passes_found]. Qed.

(** What is known of a store whose other clients keep its values, before a command *)
Definition ready c : Prop :=
  key_prefix c = prefix ∧ Forall (respects now prefix) (others c) ∧ sound now prefix (redis_db (server c)).

Lemma ready_leads c c1 : ready c → leads c c1 → ready c1.
Proof.
  intros (Hp & Ho & Hs) [P [n N] _ L]. split; [congruence|]. split; [rewrite N; by apply Forall_drop|].
  eapply passes_sound; [exact Ho|apply L, passes_here|done].
Qed.

Lemma ready_found c : ready c → sound now prefix (redis_db (found c)).
Proof. intros (_ & Ho & Hs). by apply found_sound. Qed.

(** ** Operations of one command

    [took]: at some moment, the operation did what the map's does. *)
Definition did {A} (op : store_op A) (m m' : db) (a : A) : Prop :=
  fits op now (cells_of prefix m) →
  result (coarse op) now (cells_of prefix m) a ∧
  same_from now (cells_of prefix m') (effect (coarse op) now (cells_of prefix m)) ∧
  sound now prefix m'.
Definition took {A} (op : store_op A) c c' (a : A) : Prop :=
  ∃ r, passes now own (others c) (server c) r ∧ did op (redis_db r) (redis_db (server c')) a.

Lemma took_found {A} (op : store_op A) c c1 c' (a : A) :
  leads c c1 → did op (redis_db (found c1)) (redis_db (server c')) a → took op c c' a.
Proof. intros L Hd. exists (found c1). split; [apply L, passes_found|done]. Qed.

(** Reads *)
Lemma did_read {A} (op : store_op A) m m' (a : A) :
  (∀ x, effect (coarse op) now x = x) → sound now prefix m → rsame now m' m →
  (fits op now (cells_of prefix m) → result (coarse op) now (cells_of prefix m) a) →
  did op m m' a.
Proof.
  intros He Hs E Hr Hf. split; [by apply Hr|]. rewrite He.
  split; [by apply cells_same|]. by eapply sound_same; [apply rsame_sym|].
Qed.

(** Writes of one key *)
Lemma did_upd {A} (op : store_op A) k x m m' (a : A) :
  sound now prefix m → rsame now m' (rupd (prefix +:+ k) x m) →
  (if x is Some (v, _) then good_value v else True) →
  (fits op now (cells_of prefix m) → result (coarse op) now (cells_of prefix m) a) →
  effect (coarse op) now (cells_of prefix m) = Spec.upd k (cell_of <$> x) (cells_of prefix m) →
  did op m m' a.
Proof.
  intros Hs E Hg Hr He Hf. split; [by apply Hr|]. rewrite He. split.
  - etrans; [apply cells_same, E|apply same_upd].
  - eapply sound_same; [apply rsame_sym, E|]. destruct x as [[v e]|]; [by apply sound_upd|].
    intros k' y. unfold rupd. case_decide; [done|apply Hs].
Qed.

(** A command that only reads may run unnoticed, and so may one of the operation's own. *)
Lemma reads_may_run {A} (cmd : command A) c :
  (∀ r r' a, documented cmd now r r' a → unchanged now r r') → may_run cmd c.
Proof. intros Hc _ r r' a Hd. left. by apply (Hc r r' a). Qed.

Lemma slug_ready c key : ready c → slug c key = prefix +:+ normalize_prefix key.
Proof. intros [Hp _]. unfold slug. by rewrite Hp. Qed.

Section ops.
Context (c c' : store R) (Hready : ready c).

Lemma get_took key a : get key now c = (c', Ok a) → took (OGet key) c c' a.
Proof.
  intros (c1 & raw & Hcall & [= -> <-])%store_bind_ok.
  apply call_done in Hcall as (c2 & L & _ & _ & _ & (E & _ & _) & [= Ha]); [|by apply reads_may_run; intros ??? []].
  rewrite slug_ready in Ha by done. pose proof (ready_found _ (ready_leads _ _ Hready L)) as Hs.
  apply (took_found _ _ c2 _ _ L), did_read; [done|done|done|]. intros _. cbn. unfold Spec.get, cells_of. rewrite live_cell_of.
  pose proof (Hs (normalize_prefix key)) as Hx.
  destruct (rlive now (redis_db (found c2) (prefix +:+ normalize_prefix key))) as [[[s|l] e]|]; simplify_eq; [|done].
  destruct (Hx _ eq_refl) as (v & Hv & Hs'). cbn in Hs'. subst s. cbn. by rewrite loads_dumps.
Qed.

Lemma set_took key v ttl a (Hm : may_run (WRITE (SET (prefix +:+ normalize_prefix key) (dumps v) (px <$> ttl))) c) :
  text_ok v → set key v ttl now c = (c', Ok a) → took (OSet key v ttl) c c' a.
Proof.
  intros Hv. unfold set. rewrite slug_ready by done. intros (c2 & L & _ & _ & _ & _ & E)%call_done; [|done].
  eapply (took_found _ _ c2 _ _ L), did_upd; [by eapply ready_found, ready_leads|exact E|by exists v|done|].
  cbn. unfold Spec.set. rewrite expires_coarse. unfold cell_of. cbn. by rewrite loads_dumps.
Qed.

Lemma delete_took key a (Hm : may_run (WRITE (DEL (prefix +:+ normalize_prefix key))) c) :
  delete key now c = (c', Ok a) → took (ODelete key) c c' a.
Proof.
  unfold delete. rewrite slug_ready by done. intros (c2 & L & _ & _ & _ & _ & E)%call_done; [|done].
  eapply (took_found _ _ c2 _ _ L), did_upd; [by eapply ready_found, ready_leads|exact E|done..].
Qed.

Lemma expire_took key ttl a (Hm : may_run (WRITE (PEXPIRE (prefix +:+ normalize_prefix key) (px ttl))) c) :
  expire key ttl now c = (c', Ok a) → took (OExpire key ttl) c c' a.
Proof.
  unfold expire. rewrite slug_ready by done. intros (c2 & L & _ & _ & _ & _ & E)%call_done; [|done].
  pose proof (ready_found _ (ready_leads _ _ Hready L)) as Hs.
  destruct (rlive now (redis_db (found c2) (prefix +:+ normalize_prefix key))) as [[v e]|] eqn:Hv.
  - eapply (took_found _ _ c2 _ _ L), did_upd; [done|exact E|by apply (Hs _ _ Hv)|done|].
    cbn. unfold Spec.expire. unfold cells_of at 1. by rewrite live_cell_of, Hv.
  - apply (took_found _ _ c2 _ _ L). intros _. split; [done|]. cbn. unfold Spec.expire, cells_of at 2. rewrite live_cell_of, Hv. cbn.
    split; [by apply cells_same|]. by eapply sound_same; [apply rsame_sym|].
Qed.

Lemma select_entries start stop l :
  Forall good_entry l →
  Spec.select start stop (pair_of_entry <$> l) = Ok (omap entry_value (filter (λ e, in_ids start stop e.1 = true) l)).
Proof.
  induction 1 as [|[[p n] f] l [Hn (v & Hf & Hv & Hnull)] Hl IH]; [done|]. cbn in Hn, Hf. subst.
  rewrite filter_cons. cbn [fmap list_fmap Spec.select pair_of_entry fst snd Spec.pair_of py_unpack2 mbind res_bind].
  rewrite IH. unfold Spec.in_range, in_ids, py_ge, py_le, py_cmp. cbn [mbind res_bind fst snd flip].
  assert (entry_value ((p, 0), [("data"%string, dumps v)]) = Some v) as Hev.
  { unfold entry_value. cbn [snd Dict.get]. rewrite decide_True by done. unfold decode. cbn [mbind option_bind].
    rewrite loads_dumps by done. by destruct v. }
  assert (default JNull (decode (Dict.get "data" [("data"%string, dumps v)])) = v) as Hd.
  { cbn [Dict.get]. rewrite decide_True by done. by apply decode_dumps. }
  rewrite Hd. destruct (start <=? p); cbn [andb]; [|by rewrite decide_False].
  destruct stop as [e|]; [|rewrite decide_True by done; cbn; by rewrite Hev].
  cbn. destruct (p <=? e); [rewrite decide_True by done; cbn; by rewrite Hev|by rewrite decide_False].
Qed.

Lemma read_range_took key start stop a :
  read_range key start stop now c = (c', Ok a) → took (OReadRange key start stop) c c' a.
Proof.
  intros (c1 & entries & Hcall & [= -> <-])%store_bind_ok.
  apply call_done in Hcall as (c2 & L & _ & _ & _ & (E & _ & _) & Ha); [|by apply reads_may_run; intros ??? []].
  rewrite slug_ready in Ha by done. pose proof (ready_found _ (ready_leads _ _ Hready L)) as Hs.
  apply (took_found _ _ c2 _ _ L), did_read; [done|done|done|]. intros _. cbn. unfold Spec.read_range.
  destruct (stream_of _) as [|l] eqn:Hl; [done|]. rewrite (log_of _ _ _ _ _ Hl), select_entries by (by eapply sound_stream).
  destruct (_ || _); [done|]. by injection Ha as ->.
Qed.

(** An expiry that nobody else comes in between of, sent until it is answered *)
Lemma expire_alone n K t c1 c2 v m x a :
  send_again n (WRITE (PEXPIRE K (px t))) now c1 = (c2, inr a) → others c1 = [] →
  rsame now (redis_db (server c1)) (rupd K (Some (v, rlive now x ≫= snd)) m) ∨
    rsame now (redis_db (server c1)) (expiring K (Some t) v now (rupd K (Some (v, rlive now x ≫= snd)) m)) ∧
      now < now + coarse_ttl t →
  rsame now (redis_db (server c2)) (expiring K (Some t) v now (rupd K (Some (v, rlive now x ≫= snd)) m)).
Proof.
  set (m0 := rupd K (Some (v, rlive now x ≫= snd)) m). intros Hs Ho Hm.
  assert (∀ r r' a, rsame now (redis_db r) m0 ∨ rsame now (redis_db r) (expiring K (Some t) v now m0) ∧ now < now + coarse_ttl t →
    documented (WRITE (PEXPIRE K (px t))) now r r' a → rsame now (redis_db r') (expiring K (Some t) v now m0)) as Hrun.
  { intros r r' b Hr [_ E]. assert (∃ e, rlive now (redis_db r K) = Some (v, e)) as [e He].
    { destruct Hr as [Hr|[Hr Hlt]]; rewrite (rsame_now _ _ _ _ Hr).
      - unfold m0, rupd. rewrite decide_True by done. rewrite expiry_live. by eexists.
      - cbn [expiring]. unfold rupd at 1. rewrite decide_True by done. cbn.
        destruct (Z.leb_spec (now + coarse_ttl t) now); [lia|]. by eexists. }
    rewrite He in E. intros u k Hu. rewrite E by done. cbn [expiring]. unfold rupd at 1 2. case_decide; [done|].
    destruct Hr as [Hr|[Hr _]]; rewrite Hr by done; [done|]. cbn [expiring]. unfold rupd at 1. by rewrite decide_False. }
  assert (now < now + coarse_ttl t) as Hlt by (unfold coarse_ttl, px; lia).
  induction n as [|n IH] in c1, Hs, Ho, Hm |- *; cbn [send_again] in Hs;
    destruct (send_once _ now c1) as [c3 [[|msg]|y]] eqn:E; try done.
  2: { pose proof E as (_ & Ho3 & _ & _ & Hc)%send_once_done. assert (found c1 = server c1) as Hf by (unfold found; by rewrite Ho).
       rewrite Hf in Hc. eapply IH; [exact Hs|by rewrite Ho3, Ho|].
       destruct Hc as [->|(_ & b & Hd)]; [done|]. right. split; [by eapply Hrun|done]. }
  all: injection Hs as <- <-; apply send_once_done in E as (_ & _ & _ & Hd);
    assert (found c1 = server c1) as Hf by (unfold found; by rewrite Ho); rewrite Hf in Hd; by eapply Hrun.
Qed.

Lemma append_took key position v ttl a
    (Hm : may_run (WRITE (XADD (prefix +:+ normalize_prefix key) [("data"%string, dumps v)] (position, 0))) c) :
  text_ok v → v ≠ JNull → undisturbed (OAppend key position v ttl) c →
  append key position v ttl now c = (c', Ok a) → took (OAppend key position v ttl) c c' a.
Proof.
  intros Hv Hn Hu. unfold append. rewrite slug_ready by done. set (K := (prefix +:+ normalize_prefix key)) in *.
  destruct (send _ now c) as [c1 res] eqn:Hsend. destruct (send_leads _ _ _ _ _ Hm Hsend) as (c0 & L & Hd%send_once_done).
  pose proof (ready_found _ (ready_leads _ _ Hready L)) as Hs. destruct res as [[|msg]|[]]; [done|..]; destruct Hd as (Hp1 & Ho1 & _ & Hd).
  - destruct (refused_as_old msg) eqn:Hmsg; [|done]. intros [= -> <-]. apply (took_found _ _ c0 _ _ L).
    cbn in Hd. intros Hk. fold K in Hd. destruct (added _ _ _ _ _) as [e|m1] eqn:Hadd; [|by destruct Hd].
    destruct Hd as [[= <-] E]. rewrite (only_old_refused msg (added_errors _ _ _ _ _ _ Hadd) Hmsg) in Hadd.
    pose proof (added_cases _ _ _ _ _ _ _ Hs Hv Hn Hadd eq_refl (coarse_ttl <$> ttl)) as Hspec.
    cbn. rewrite Hspec. split; [by exists None|]. split; [by apply cells_same|]. by eapply sound_same; [apply rsame_sym|].
  - intros Hrest. apply (took_found _ _ c0 _ _ L). cbn in Hd. intros Hk.
    destruct (added _ _ _ _ _) as [e|m1] eqn:Hadd; [by destruct Hd|]. destruct Hd as [_ E].
    destruct (added_cases _ _ _ _ _ _ _ Hs Hv Hn Hadd) as (l & Hm1 & Hs1 & Hspec).
    cbn. rewrite (Hspec (coarse_ttl <$> ttl)).
    set (w := RStream (l ++ [own_entry position v])) in *.
    assert (a = true ∧ rsame now (redis_db (server c')) (expiring K ttl w now m1)) as [-> E'].
    { destruct ttl as [t|]; [|by injection Hrest as <- <-].
      cbn in Hu. apply store_bind_ok in Hrest as (c2 & [] & Hcall & [= -> <-]). split; [done|]. unfold call, mapped, send in Hcall.
      destruct (send_again _ _ now c1) as [c3 [e|[]]] eqn:Ha; [done|]. injection Hcall as <-.
      rewrite Hm1 in E |- *. eapply expire_alone; [exact Ha| |by left].
      destruct L as [_ [n N] _ _]. rewrite Ho1, N, tail_of_drop, <-drop_of_tail, Hu. apply drop_nil. }
    split; [by eexists|]. split.
    + etrans; [apply cells_same, E'|]. rewrite Hm1. etrans; [by apply expiring_cells|]. done.
    + eapply sound_same; [apply rsame_sym, E'|]. destruct ttl as [t|]; [|done]. cbn [expiring]. apply sound_upd; [|done].
      specialize (Hs1 (normalize_prefix key)). fold K in Hs1. rewrite Hm1 in Hs1. unfold rupd in Hs1. rewrite decide_True in Hs1 by done.
      by specialize (Hs1 _ (expiry_live _ _ _)).
Qed.
End ops.

(** ** Listing

    A scan takes several commands: it lists nothing that is not there at some moment, and everything that stays. *)
Definition there (r : R) (k s : string) : Prop := is_Some (rlive now (redis_db r k)) ∧ Str.startswith k s = true.

Lemma scan_lists n cursor s c c' l :
  glob_free s = true → scan_iter n cursor (s +:+ "*") now c = (c', Ok l) →
  ∀ k, (k ∈ l → ∃ r, passes now own (others c) (server c) r ∧ there r k s) ∧
       (redis_passed (R := R) cursor k = false → (∀ r, passes now own (others c) (server c) r → there r k s) → k ∈ l).
Proof.
  intros Hs. induction n as [|n IH] in cursor, c, l |- *; [done|]. intros (c1 & [next l1] & Hcall & Hrest)%store_bind_ok k.
  apply call_done in Hcall as (c2 & L & _ & Ho & _ & Hu & next' & l' & [= <- <-] & _ & Hl); [|by apply reads_may_run; intros ??? []].
  destruct (Hl s k eq_refl Hs) as [Hl1 Hl2].
  assert (passes now own (others c) (server c) (found c2)) as Hp by apply L, passes_found. cbn [fst snd] in Hrest.
  destruct (next =? 0) eqn:E0.
  { apply Z.eqb_eq in E0. injection Hrest as <- <-. split; [intros Hk; exists (found c2); split; [done|by apply Hl1]|].
    intros Hpass Hall. apply Hl2; [by apply Hall|done|by left]. }
  apply store_bind_ok in Hrest as (c3 & rest & Hrest & [= <- <-]). destruct (IH _ _ _ Hrest k) as [IH1 IH2].
  assert (∀ r, passes now own (others c1) (server c1) r → passes now own (others c) (server c) r) as Hpass.
  { intros r Hr. apply L. eapply passes_after; [apply Hu|by rewrite <-Ho]. }
  split.
  - intros [Hk|Hk]%elem_of_app; [exists (found c2); split; [done|by apply Hl1]|].
    destruct (IH1 Hk) as (r & Hr & ?). exists r. split; [by apply Hpass|done].
  - intros Hc Hall. apply elem_of_app. destruct (redis_passed (R := R) next k) eqn:En.
    + left. apply Hl2; [by apply Hall|done|by right].
    + right. apply IH2; [done|]. intros r Hr. by apply Hall, Hpass.
Qed.

Lemma scan_ends n cursor pattern c c' x :
  (redis_left (R := R) cursor < n)%nat → scan_iter n cursor pattern now c = (c', Err x) →
  x = StateStoreUnavailableError ∨ ∃ msg, x = OtherError msg.
Proof.
  induction n as [|n IH] in cursor, c |- *; [lia|]. intros Hn [Hr|(c1 & [next l1] & Hcall & Hrest)]%store_bind_err.
  { by eapply call_raises. }
  apply call_done in Hcall as (c2 & L & _ & _ & _ & _ & next' & l' & [= <- <-] & Hleft & _); [|by apply reads_may_run; intros ??? []].
  cbn [fst] in Hrest. destruct (next =? 0) eqn:E0; [done|]. apply Z.eqb_neq in E0. specialize (Hleft E0).
  apply store_bind_err in Hrest as [Hr|(c3 & rest & _ & Hr)]; [|done]. eapply IH; [|exact Hr]. lia.
Qed.

(** What a listing answers *)
Definition listed (p : string) c (l : list string) : Prop :=
  let within r k := is_Some (live now (cells_of prefix (redis_db r) k)) in
  ∀ k,
    (k ∈ l → under_prefix (normalize_prefix p) k = true ∧ ∃ r, passes now own (others c) (server c) r ∧ within r k) ∧
    (under_prefix (normalize_prefix p) k = true → (∀ r, passes now own (others c) (server c) r → within r k) → k ∈ l).

Lemma list_took p c c' l :
  ready c → glob_free prefix = true → glob_free (normalize_prefix p) = true →
  list_keys p now c = (c', Ok l) → listed p c l.
Proof.
  intros Hready Hglob Hfree (c1 & keys & Hscan & [= -> <-])%store_bind_ok.
  rewrite slug_ready, normalize_idemp in Hscan by done. pose proof (λ G, scan_lists _ _ _ _ _ _ G Hscan) as Hl.
  specialize (Hl ltac:(unfold glob_free in *; by rewrite str_all_app, Hglob)). clear Hscan. rename Hl into Hscan.
  unfold listed, unslug, in_namespace. destruct Hready as [-> _]. intros k.
  rewrite list_elem_of_filter, list_elem_of_fmap. unfold cells_of. split.
  - intros (Hu & K & -> & HK). split; [done|]. destruct (proj1 (Hscan K) HK) as (r & Hr & Hlive & [s ->]%Str.startswith_iff).
    exists r. split; [done|]. rewrite live_cell_of, fmap_is_Some. rewrite Str.app_assoc, ConfigFacts.str_drop_app in *. done.
  - intros Hu Hall. split; [done|]. exists (prefix +:+ k). rewrite ConfigFacts.str_drop_app. split; [done|].
    apply (Hscan (prefix +:+ k)); [apply redis_scan_starts|]. intros r Hr. specialize (Hall r Hr).
    rewrite live_cell_of, fmap_is_Some in Hall. split; [done|]. unfold under_prefix in Hu. apply Str.startswith_iff.
    apply orb_true_iff in Hu as [[Hu|Hu]%orb_true_iff|[s ->]%Str.startswith_iff].
    + apply bool_decide_eq_true in Hu as ->. exists k. by rewrite Str.app_nil_r.
    + apply bool_decide_eq_true in Hu as ->. exists ""%string. by rewrite Str.app_nil_r.
    + exists ("/" +:+ s). by rewrite !Str.app_assoc.
Qed.

(** ** The transaction *)

Lemma meanwhile_agrees r r' k t :
  meanwhile now r r' → redis_touched r' = false → k ∈ redis_watched r → now ≤ t →
  rlive t (redis_db r' k) = rlive t (redis_db r k).
Proof. intros [_ [T|[_ E]]] Ht Hk Hu; [congruence|by apply E]. Qed.

(** Its commands, when none of them fails *)
Lemma transaction_written lk position e k v ttl m :
  sound now prefix m → text_ok e → e ≠ JNull → text_ok v → keeps_expiry lk ttl now (cells_of prefix m) →
  executed (written_all (transaction (prefix +:+ lk) position e (prefix +:+ k) v ttl) now m).2 = Ok tt →
  ∃ w, Spec.append lk position e (coarse_ttl <$> ttl) now (cells_of prefix m) = Ok (Some w) ∧
    let m' := (written_all (transaction (prefix +:+ lk) position e (prefix +:+ k) v ttl) now m).1 in
    same_from now (cells_of prefix m') (Spec.set k v (coarse_ttl <$> ttl) now w) ∧ sound now prefix m'.
Proof.
  intros Hs He Hn Hv Hk. unfold transaction. cbn [app written_all written].
  destruct (added (prefix +:+ lk) _ _ now m) as [err|m1] eqn:Hadd.
  { destruct ttl; cbn [app written_all written snd]; by intros. }
  destruct (added_cases _ _ _ _ _ _ _ Hs He Hn Hadd) as (l & Hm1 & Hs1 & Hspec). intros _.
  eexists. split; [apply Hspec|]. set (w := RStream (l ++ [own_entry position e])) in *.
  assert ((written_all ((if ttl is Some t then [PEXPIRE (prefix +:+ lk) (px t)] else []) ++
             [SET (prefix +:+ k) (dumps v) (px <$> ttl)]) now m1).1 =
          rupd (prefix +:+ k) (Some (RString (dumps v), (λ p, now + p * 1000000) <$> (px <$> ttl)))
            (expiring (prefix +:+ lk) ttl w now m1)) as Hw.
  { destruct ttl as [t|]; [|done]. cbn [app written_all]. rewrite Hm1, expire_written. done. }
  revert Hw. destruct (written_all _ now m1) as [m2 es]. cbn [fst]. intros ->. split.
  - etrans; [apply same_upd|]. unfold Spec.set at 1. rewrite expires_coarse.
    replace (cell_of <$> Some (RString (dumps v), _)) with (Some (v, (λ p, now + p * 1000000) <$> (px <$> ttl)))
      by (cbn; unfold cell_of; cbn; by rewrite loads_dumps).
    apply Spec_upd_proper. rewrite Hm1. by etrans; [by apply expiring_cells|].
  - apply sound_upd; [by exists v|]. destruct ttl as [t|]; [|done]. cbn [expiring]. apply sound_upd; [|done].
    specialize (Hs1 lk). rewrite Hm1 in Hs1. unfold rupd in Hs1. rewrite decide_True in Hs1 by done.
    by specialize (Hs1 _ (expiry_live _ _ _)).
Qed.

(** A refusal leaves everything as it is. *)
Lemma did_refuse lk position e k v ttl ife m m' :
  sound now prefix m → rsame now m' m →
  Spec.append_and_set (normalize_prefix lk) position e (normalize_prefix k) v (coarse_ttl <$> ttl) ife now (cells_of prefix m) = Ok None →
  did (OAppendAndSet lk position e k v ttl ife) m m' false.
Proof.
  intros Hs E Hspec _. cbn. rewrite Hspec. split; [by exists None|].
  split; [by apply cells_same|]. by eapply sound_same; [apply rsame_sym|].
Qed.

Lemma absent_refused lk position e k v ttl m :
  rlive now (m (prefix +:+ k)) = None →
  Spec.append_and_set lk position e k v ttl true now (cells_of prefix m) = Ok None.
Proof.
  intros Hk. unfold Spec.append_and_set. rewrite bool_decide_eq_true_2; [done|].
  unfold cells_of. by rewrite live_cell_of, Hk.
Qed.

Lemma old_refused lk position e k v ttl ife m l q f :
  sound now prefix m → stream_of (rlive now (m (prefix +:+ lk))) = inr l → last l = Some (q, f) → (position <=? q.1) = true →
  Spec.append_and_set lk position e k v ttl ife now (cells_of prefix m) = Ok None.
Proof.
  intros Hs Hl Hlast Hq. unfold Spec.append_and_set. rewrite (append_by_last _ _ _ _ _ _ _ _ Hs Hl), Hlast.
  pose proof (sound_stream _ _ _ _ _ Hs Hl) as Hg. apply last_Some in Hlast as (l' & ->).
  rewrite Forall_app, Forall_singleton in Hg. destruct q as [q n], Hg as [_ [Hn _]]. cbn in Hn, Hq. subst n.
  apply Z.leb_le in Hq. replace (id_le (position, 0) (q, 0)) with true; [by case_match|].
  unfold id_le. cbn. destruct (Z.ltb_spec position q), (Z.eqb_spec position q); cbn; lia || done.
Qed.

(** How much may still come between a call and its end *)
Definition turbulence c : nat := (length (others c) + length (fates c))%nat.

Lemma turbulence_leads c c1 : leads c c1 → (turbulence c1 ≤ turbulence c)%nat.
Proof. intros [_ [n N] [k K] _]. unfold turbulence. rewrite N, K, !length_drop. lia. Qed.

Lemma turbulence_after c c' : others c' = tail (others c) → fates c' = tail (fates c) →
  (turbulence c' ≤ turbulence c)%nat ∧ (others c ≠ [] → turbulence c' < turbulence c)%nat.
Proof. intros Ho Hf. unfold turbulence. rewrite Ho, Hf. destruct (others c), (fates c); cbn; split; lia || done. Qed.

(** A command of a round after its [WATCH]: one that only reads, among the others' commands *)
Definition calm c c' : Prop :=
  meanwhile now (server c) (server c') ∧ (others c = [] → others c' = [] ∧ redis_touched (server c') = redis_touched (server c)).

Lemma calm_trans c1 c2 c3 : calm c1 c2 → calm c2 c3 → calm c1 c3.
Proof.
  intros [M1 Q1] [M2 Q2]. split; [by eapply meanwhile_trans|]. intros E. destruct (Q1 E) as [E2 T2].
  destruct (Q2 E2). split; congruence.
Qed.

Lemma reads_on c c' :
  ready c → unchanged now (found c) (server c') → key_prefix c' = key_prefix c → others c' = tail (others c) →
  fates c' = tail (fates c) → leads c c' ∧ calm c c'.
Proof.
  intros (Hp & Ho & Hs) Hu Hp' Ho' Hf'. split.
  { apply leads_step; [done..|]. intros r Hr. eapply passes_after; [apply Hu|done]. }
  split; [eapply meanwhile_trans; [by apply found_meanwhile|by apply unchanged_meanwhile]|].
  intros E. rewrite Ho', E. split; [done|]. destruct Hu as (_ & _ & ->). unfold found. by rewrite E.
Qed.

(** The check that the record is there, if it is asked for *)
Lemma present_done c c' record (ife : bool) present :
  ready c →
  (if ife then call_watched (EXISTS record) now else mret (Some true) : store_m (store R) (option bool)) c = (c', Ok present) →
  leads c c' ∧
  match present with
  | None => (turbulence c' < turbulence c)%nat
  | Some true => calm c c' ∧ (ife = true → ∃ r, meanwhile now (server c) r ∧ meanwhile now r (server c') ∧ is_Some (rlive now (redis_db r record)))
  | Some false => ife = true ∧ rlive now (redis_db (found c) record) = None ∧ rsame now (redis_db (server c')) (redis_db (found c))
  end.
Proof.
  intros Hr. destruct ife.
  - intros Hc. apply call_watched_done in Hc as [(L & Hlt & ->)|(Hp & Ho & Hf & x & -> & Hu & [= ->])]; [done| |by apply reads_may_run; intros ??? []].
    destruct (reads_on _ _ Hr Hu Hp Ho Hf) as [L Q]. split; [done|]. case_bool_decide as Hl.
    + split; [done|]. intros _. exists (found c). split; [by apply found_meanwhile, Hr|]. split; [by apply unchanged_meanwhile|done].
    + split; [done|]. split; [by apply eq_None_not_Some|apply Hu].
  - intros [= <- <-]. split; [apply leads_refl|]. split; [|done]. split; [by apply unchanged_meanwhile|done].
Qed.

(** A round, from its [WATCH] on *)
Lemma attempt_took c c' log_key position e key v ttl ife answer
    (Hm : ∀ c1, leads c c1 → may_run (EXEC (transaction (prefix +:+ normalize_prefix log_key) position e (prefix +:+ normalize_prefix key) v ttl)) c1) :
  ready c → text_ok e → e ≠ JNull → text_ok v →
  attempt (prefix +:+ normalize_prefix log_key) position e (prefix +:+ normalize_prefix key) v ttl ife now c = (c', Ok answer) →
  match answer with
  | None => leads c c' ∧ (turbulence c' < turbulence c)%nat
  | Some b => took (OAppendAndSet log_key position e key v ttl ife) c c' b
  end.
Proof.
  intros Hr He Hnull Hv. unfold attempt. set (LOG := (prefix +:+ normalize_prefix log_key)) in *.
  set (REC := (prefix +:+ normalize_prefix key)) in *.
  intros (c1 & [] & Hwatch & Hrest)%store_bind_ok.
  apply call_done in Hwatch as (c0 & L0 & Hp1 & Ho1 & Hf1 & _ & E1 & W1 & T1); [|by intros _ ??? (_ & ? & _); left].
  pose proof (ready_leads _ _ Hr L0) as Hr0.
  assert (leads c0 c1) as L01.
  { apply leads_step; [rewrite Hp1; symmetry; apply L0|done..|]. intros r Hpass. eapply passes_after; [exact E1|done]. }
  pose proof (leads_trans _ _ _ L0 L01) as L1. pose proof (ready_leads _ _ Hr L1) as Hr1.
  pose proof (turbulence_leads _ _ L0) as B0. destruct (turbulence_after _ _ Ho1 Hf1) as [B1 B1'].
  apply store_bind_ok in Hrest as (c2 & present & Hpresent & Hrest).
  apply (present_done _ _ _ _ _ Hr1) in Hpresent as (L12 & Hpresent).
  pose proof (leads_trans _ _ _ L1 L12) as L2. pose proof (ready_leads _ _ Hr L2) as Hr2.
  pose proof (turbulence_leads _ _ L12) as B2.
  destruct present as [[]|].
  3: { injection Hrest as <- <-. split; [done|lia]. }
  2: { injection Hrest as <- <-. destruct Hpresent as (-> & Hgone & E). apply (took_found _ _ _ _ _ L1).
       apply did_refuse; [by apply ready_found|done|by apply absent_refused]. }
  destruct Hpresent as [Q12 Hpresent]. apply store_bind_ok in Hrest as (c3 & top & Htop & Hrest).
  apply call_watched_done in Htop as [(L23 & Hlt & ->)|(Hp3 & Ho3 & Hf3 & top' & -> & Hu3 & Htop)]; [| |by apply reads_may_run; intros ??? []].
  { injection Hrest as <- <-. unfold turbulence in *. split; [by eapply leads_trans|lia]. }
  destruct (reads_on _ _ Hr2 Hu3 Hp3 Ho3 Hf3) as [L23 Q23]. pose proof (leads_trans _ _ _ L2 L23) as L3.
  pose proof (ready_leads _ _ Hr L3) as Hr3. pose proof (turbulence_leads _ _ L23) as B3.
  destruct (stream_of _) as [|l] eqn:Hl; [done|]. injection Htop as ->.
  destruct (if last l is Some (id, _) then position <=? id.1 else false) eqn:Hold.
  { injection Hrest as <- <-. apply (took_found _ _ _ _ _ L2). apply did_refuse; [by apply ready_found|apply Hu3|].
    destruct (last l) as [[q f]|] eqn:Hlast; [|done]. eapply old_refused; [by apply ready_found|done..]. }
  apply store_bind_ok in Hrest as (c4 & answers & Hexec & Hrest).
  apply call_watched_done in Hexec as [(L34 & Hlt & ->)|(Hp4 & Ho4 & Hf4 & answers' & -> & Hexec)]; [| |by apply Hm].
  { injection Hrest as <- <-. unfold turbulence in *. split; [by eapply leads_trans|lia]. }
  pose proof (ready_found _ Hr3) as Hs3. cbn in Hexec.
  destruct (redis_touched (found c3)) eqn:Htouched; destruct Hexec as [[= ->] E4].
  { injection Hrest as <- <-. destruct (turbulence_after _ _ Ho4 Hf4) as [B4 B4']. split.
    - eapply leads_trans; [exact L3|]. apply leads_step; [done..|]. intros r Hpass. eapply passes_after; [exact E4|done].
    - destruct (decide (others c3 = [])) as [N3|N3]; [|specialize (B4' N3); lia].
      destruct (decide (others c1 = [])) as [N1|N1].
      + destruct (calm_trans _ _ _ Q12 Q23) as [_ Q]. destruct (Q N1) as [_ T3]. unfold found in Htouched.
        rewrite N3 in Htouched. cbn in Htouched. congruence.
      + assert (others c0 ≠ []) as N0 by (intros E0; apply N1; by rewrite Ho1, E0). specialize (B1' N0). lia. }
  apply store_bind_ok in Hrest as (c5 & [] & Hdone & [= <- <-]).
  unfold lift in Hdone. injection Hdone as <- Hdone. apply (took_found _ _ _ _ _ L3). intros Hk.
  destruct (transaction_written _ _ _ _ _ _ _ Hs3 He Hnull Hv Hk Hdone) as (w & Hspec & Hsame & Hsound').
  assert (Spec.append_and_set (normalize_prefix log_key) position e (normalize_prefix key) v (coarse_ttl <$> ttl) ife now
            (cells_of prefix (redis_db (found c3))) = Ok (Some (Spec.set (normalize_prefix key) v (coarse_ttl <$> ttl) now w))) as Hset.
  { unfold Spec.append_and_set. rewrite Hspec. destruct ife; cbn [andb]; [|done].
    destruct (Hpresent eq_refl) as (r & Mr & Mr' & Hlive). rewrite bool_decide_eq_false_2; [done|].
    unfold cells_of. rewrite live_cell_of.
    assert (meanwhile now r (found c3)) as Mr3 by (eapply meanwhile_trans; [exact Mr'|eapply meanwhile_trans; [apply Q23|by apply found_meanwhile, Hr3]]).
    fold REC. rewrite (meanwhile_agrees r _ REC now Mr3 Htouched); [|destruct Mr as [-> _]; rewrite W1; by apply list_elem_of_further, list_elem_of_here|lia].
    destruct Hlive as [x Hx]. by rewrite Hx. }
  cbn. rewrite Hset. split; [by eexists|]. split; [|by eapply sound_same; [apply rsame_sym|]].
  by etrans; [by apply cells_same, E4|].
Qed.

(** Its rounds *)
Lemma rounds_took n c c' log_key position e key v ttl ife b
    (Hm : ∀ c1, leads c c1 → may_run (EXEC (transaction (prefix +:+ normalize_prefix log_key) position e (prefix +:+ normalize_prefix key) v ttl)) c1) :
  ready c → text_ok e → e ≠ JNull → text_ok v →
  rounds n (attempt (prefix +:+ normalize_prefix log_key) position e (prefix +:+ normalize_prefix key) v ttl ife now) c = (c', Ok b) →
  took (OAppendAndSet log_key position e key v ttl ife) c c' b.
Proof.
  induction n as [|n IH] in c, Hm |- *; [done|]. intros Hr He Hn Hv (c1 & answer & Hround & Hrest)%store_bind_ok.
  apply attempt_took in Hround; [|done..]. destruct answer as [b'|]; [by injection Hrest as <- <-|].
  destruct Hround as [L _]. apply IH in Hrest as (r & Hpass & Hd); [|intros c2 L2; by apply Hm; eapply leads_trans|by eapply ready_leads|done..].
  exists r. split; [by apply L|done].
Qed.

Lemma attempt_raises c c' log position e record v ttl ife x :
  attempt log position e record v ttl ife now c = (c', Err x) → x = StateStoreUnavailableError ∨ ∃ msg, x = OtherError msg.
Proof.
  unfold attempt. intros [Hr|(c1 & [] & _ & Hr)]%store_bind_err; [by eapply call_raises|].
  apply store_bind_err in Hr as [Hr|(c2 & present & _ & Hr)]; [destruct ife; [right; by eapply watched_raises|done]|].
  destruct present as [[]|]; [|done..]. apply store_bind_err in Hr as [Hr|(c3 & top & _ & Hr)]; [right; by eapply watched_raises|].
  destruct top as [top|]; [|done]. destruct (if top is Some (id, _) then position <=? id.1 else false); [done|].
  apply store_bind_err in Hr as [Hr|(c4 & [[answers|]|] & _ & Hr)]; [right; by eapply watched_raises| |done..].
  apply store_bind_err in Hr as [Hr|(c5 & [] & _ & Hr)]; [|done]. unfold lift, executed in Hr.
  destruct (omap id answers) as [|msg]; [done|]. injection Hr as _ <-. eauto.
Qed.

(** Each refused round saw someone else act, or a connection lost. *)
Lemma rounds_end n c c' log_key position e key v ttl ife x
    (Hm : ∀ c1, leads c c1 → may_run (EXEC (transaction (prefix +:+ normalize_prefix log_key) position e (prefix +:+ normalize_prefix key) v ttl)) c1) :
  ready c → text_ok e → e ≠ JNull → text_ok v → (turbulence c < n)%nat →
  rounds n (attempt (prefix +:+ normalize_prefix log_key) position e (prefix +:+ normalize_prefix key) v ttl ife now) c = (c', Err x) →
  x = StateStoreUnavailableError ∨ ∃ msg, x = OtherError msg.
Proof.
  induction n as [|n IH] in c, Hm |- *; [lia|]. intros Hr He Hnull Hv Hn [Hx|(c1 & answer & Hround & Hrest)]%store_bind_err.
  { by eapply attempt_raises. }
  apply attempt_took in Hround; [|done..]. destruct answer as [b'|]; [done|]. destruct Hround as [L Hlt].
  eapply IH in Hrest; [done|intros c2 L2; by apply Hm; eapply leads_trans|by eapply ready_leads|done..|lia].
Qed.
End own.
End commands.

(** ** An operation's own commands *)

Section operations.
Context `{FloatText} `{RedisDocumented R}.
Implicit Types (c : store R).

Lemma ran_sound {A} lost prefix (op : store_op A) now (r r1 : R) :
  given op → ran lost prefix op now r r1 → sound now prefix (redis_db r) → sound now prefix (redis_db r1).
Proof.
  intros Hg (_ & ws & Hin & E) Hs. eapply sound_same; [apply rsame_sym, E|]. apply good_writes_sound; [by eapply own_writes_good|done].
Qed.

Lemma write_may_run {A} (lost : Prop) prefix (op : store_op A) now w c :
  (Unreachable true ∈ fates c → lost) → [w] ∈ own_writes prefix op → may_run now (ran lost prefix op now) (WRITE w) c.
Proof.
  intros Hl Hin Hf r r' a Hd. cbn in Hd. destruct (written w now (redis_db r)) as [e|m] eqn:E; destruct Hd as [_ Hd]; [by left|right].
  split; [auto|]. exists [w]. split; [done|]. cbn. by rewrite E.
Qed.

Lemma exec_may_run {A} (lost : Prop) prefix (op : store_op A) now ws c :
  (Unreachable true ∈ fates c → lost) → ws ∈ own_writes prefix op → may_run now (ran lost prefix op now) (EXEC ws) c.
Proof.
  intros Hl Hin Hf r r' a Hd. cbn in Hd. destruct (redis_touched r); destruct Hd as [_ Hd]; [by left|right].
  split; [auto|]. by exists ws.
Qed.

Lemma lost_leads_to own now c c1 : leads now own c c1 → Unreachable true ∈ fates c1 → Unreachable true ∈ fates c.
Proof. intros [_ _ [n K] _]. rewrite K. apply elem_drop. Qed.
End operations.
End RedisFacts.

(** ** Theorems *)

Module RedisProperties.
Import RedisFacts.
Section properties.
Context `{FloatText} `{RedisDocumented R}.
Implicit Types (c : store R).


(** C7: The loops of the Redis store end: when other clients act finitely often and finitely many connections are lost,
    some round of [append_and_set_async] is left alone, and a listing's scan comes to its end, so that both return, or
    raise what a command raised. *)
Theorem transaction_ends {A} (op : store_op A) now c c' r :
  sound now (key_prefix c) (redis_db (server c)) → Forall (respects now (key_prefix c)) (others c) → given op →
  match op with OAppendAndSet _ _ _ _ _ _ _ | OList _ => True | _ => False end →
  ss_run op now c = (c', r) →
  (∃ a, r = Ok a) ∨ r = Err StateStoreUnavailableError ∨ ∃ msg, r = Err (OtherError msg).
Proof.
  intros Hs Ho Hg Hop Hrun. destruct r as [a|x]; [eauto|]. right. assert (ready now (key_prefix c) c) as Hr by done.
  pose proof (λ r r1, ran_sound (Unreachable true ∈ fates c) (key_prefix c) op now r r1 Hg) as Hown.
  enough (x = StateStoreUnavailableError ∨ ∃ msg, x = OtherError msg) as [->|[msg ->]] by eauto.
  destruct op as [| | |p| |lk p e k v ttl ife| |]; try done; unfold ss_run, redis_store in Hrun; cbn [run] in Hrun; cbn [given] in Hg.
  - apply store_bind_err in Hrun as [Hrun|(c1 & keys & _ & Hx)]; [|done]. eapply (scan_ends now (λ _ _, True)); [|exact Hrun]. lia.
  - destruct Hg as (? & ? & ?). unfold append_and_set in Hrun. rewrite !(slug_ready now (key_prefix c) c) in Hrun by done.
    eapply (rounds_end now _ _ Hown _ c c' lk p e k v ttl ife x); [|done|done|done|done| |exact Hrun]; [|unfold turbulence; lia].
    intros c1 L. apply exec_may_run; [by eapply lost_leads_to|by apply list_elem_of_singleton].
Qed.
End properties.
End RedisProperties.

(** ** A server

    A concrete one, that keeps its keys in a dict. *)
Module Server.
Record t : Type := mk { data : dict rcell; watched : list string; touched : bool }.
Definition view (s : t) : db := λ k, Dict.get k (data s).

Definition put (k : string) (x : rcell) (s : t) : t := mk (Dict.set k x (data s)) (watched s) (touched s).

Definition write_one (w : write) (now : Z) (s : t) : t * option string :=
  match w with
  | DEL k => (mk (Dict.pop k (data s)) (watched s) (touched s), None)
  | SET k v px => (put k (RString v, (λ p, now + p * 1000000) <$> px) s, None)
  | XADD k fields id =>
      match stream_of (rlive now (view s k)), added k fields id now (view s) with
      | inr l, inr _ => (put k (RStream (l ++ [(id, fields)]), rlive now (view s k) ≫= snd) s, None)
      | _, inl e | inl e, _ => (s, Some e)
      end
  | PEXPIRE k px =>
      (if rlive now (view s k) is Some (v, _) then put k (v, Some (now + px * 1000000)) s else s, None)
  end.
Fixpoint write_all (ws : list write) (now : Z) (s : t) : t * list (option string) :=
  match ws with
  | [] => (s, [])
  | w :: ws =>
      let '(s, e) := write_one w now s in
      let '(s, es) := write_all ws now s in (s, e :: es)
  end.

(** The keys of even length first, then the others *)
Definition even_length (k : string) : bool := Nat.even (String.length k).
Definition scan (cursor : Z) (pattern : string) (now : Z) (s : t) : list string :=
  let stem := str_take (String.length pattern - 1) pattern in
  filter (λ k, is_Some (rlive now (view s k)) ∧ Str.startswith k stem = true ∧ even_length k = (cursor =? 0)) (Dict.keys (data s)).

Definition run {A} (cmd : command A) (now : Z) (s : t) : t * (string + A) :=
  match cmd with
  | GET k => (s, match rlive now (view s k) with
                 | None => inr None
                 | Some (RString v, _) => inr (Some v)
                 | Some (RStream _, _) => inl WRONGTYPE
                 end)
  | WRITE w => let '(s, e) := write_one w now s in (s, if e is Some e then inl e else inr tt)
  | EXISTS k => (s, inr (bool_decide (is_Some (rlive now (view s k)))))
  | SCAN cursor pattern => (s, inr (if cursor =? 0 then 1 else 0, scan cursor pattern now s))
  | XRANGE k min max =>
      (s, match stream_of (rlive now (view s k)) with
          | inl e => inl e
          | inr l => if (min <? 0) || (if max is Some e then e <? 0 else false) then inl INVALID_ID
                     else inr (filter (λ e, in_ids min max e.1 = true) l)
          end)
  | XREVRANGE1 k => (s, match stream_of (rlive now (view s k)) with inl e => inl e | inr l => inr (last l) end)
  | WATCH ks => (mk (data s) ks false, inr tt)
  | EXEC ws =>
      if touched s then (mk (data s) [] false, inr None)
      else let '(s, es) := write_all ws now s in (mk (data s) [] false, inr (Some es))
  end.
End Server.

#[export] Instance server_redis : Redis Server.t := {
  redis_passed cursor k := negb (cursor =? 0) && Server.even_length k;
  redis_left cursor := if cursor =? 0 then 1%nat else 0%nat;
  redis_db := Server.view;
  redis_watched := Server.watched;
  redis_touched := Server.touched;
  redis_do := @Server.run;
}.

Module ServerFacts.
Import Server RedisFacts.

Lemma rsame_eq now m m' : (∀ k, m k = m' k) → rsame now m m'.
Proof. intros E t k _. by rewrite E. Qed.

Lemma view_put k x s k' : view (put k x s) k' = rupd k (Some x) (view s) k'.
Proof. unfold view, put, rupd. cbn. by rewrite Dict.get_set. Qed.

Lemma rlive_rupd now k x m m' k' : (∀ j, m j = m' j) → rlive now (rupd k x m k') = rlive now (rupd k x m' k').
Proof. intros E. unfold rupd. by rewrite E. Qed.

Lemma write_one_written w now s m :
  (∀ k, view s k = m k) →
  match written w now m with
  | inl e => write_one w now s = (s, Some e)
  | inr m' => (write_one w now s).2 = None ∧ ∀ k, view (write_one w now s).1 k = m' k
  end.
Proof.
  intros E. destruct w as [k|k v px|k fields id|k px]; cbn [written write_one].
  - split; [done|]. intros k'. unfold view, rupd. cbn. rewrite Dict.get_pop. case_decide; [done|]. by rewrite <-E.
  - split; [done|]. intros k'. cbn [fst]. rewrite view_put. unfold rupd. by rewrite E.
  - unfold added. rewrite !E. destruct (stream_of (rlive now (m k))) as [e|l]; [done|].
    destruct (_ || _); [done|]. destruct (id_le id (0, 0)); [done|].
    destruct (if last l is Some (top, _) then id_le id top else false); [done|].
    split; [done|]. intros k'. cbn [fst]. rewrite view_put. unfold rupd. by rewrite E.
  - rewrite E. destruct (rlive now (m k)) as [[v e]|]; (split; [done|]); intros k'; [|done].
    cbn [fst]. rewrite view_put. unfold rupd. by rewrite E.
Qed.

Lemma write_all_written ws now s m :
  (∀ k, view s k = m k) →
  (write_all ws now s).2 = (written_all ws now m).2 ∧ ∀ k, view (write_all ws now s).1 k = (written_all ws now m).1 k.
Proof.
  induction ws as [|w ws IH] in s, m |- *; intros E; [done|]. cbn [write_all written_all].
  pose proof (write_one_written w now s m E) as Hw. destruct (written w now m) as [e|m'].
  - rewrite Hw. destruct (IH s m E) as [E2 E1]. destruct (write_all ws now s), (written_all ws now m). cbn in *. by subst.
  - destruct Hw as [He Hw]. destruct (write_one w now s) as [s1 e]. cbn in He, Hw. subst e.
    destruct (IH s1 m' Hw) as [E2 E1]. destruct (write_all ws now s1), (written_all ws now m'). cbn in *. by subst.
Qed.
End ServerFacts.

#[export] Instance server_documented : RedisDocumented Server.t.
Proof.
  split; [|done]. intros A cmd now s. assert (∀ s : Server.t, unchanged now s s) as Hsame by by repeat split.
  destruct cmd as [k|w|k|cursor pattern|k lo hi|k|ks|ws]; cbn -[Server.scan].
  - by destruct (rlive now (Server.view s k)) as [[[v|l] e]|].
  - pose proof (ServerFacts.write_one_written w now s _ (λ _, eq_refl)) as Hw. cbn. destruct (written w now (Server.view s)) as [e|m'].
    + by rewrite Hw.
    + destruct Hw as [He Hw]. destruct (Server.write_one w now s) as [s' e]. cbn in *. subst. split; [done|]. by apply ServerFacts.rsame_eq.
  - done.
  - split; [done|]. eexists _, _. split; [done|]. split; [destruct (cursor =? 0); cbn; [intros _; lia|done]|]. intros p k -> _. unfold Server.scan.
    rewrite ConfigFacts.length_app. cbn [String.length]. replace (String.length p + 1 - 1)%nat with (String.length p) by lia.
    rewrite ConfigFacts.str_take_app, list_elem_of_filter. split; [by intros [(? & ? & _) _]|]. intros [Hl Hp] Hc Hn. split.
    + split; [done|]. split; [done|]. destruct (cursor =? 0); cbn in *; [destruct Hn as [Hn|Hn]; [lia|done]|done].
    + apply Dict.get_is_Some. unfold Server.view in Hl. by destruct (Dict.get k (Server.data s)); [|destruct Hl].
  - done.
  - done.
  - done.
  - destruct (Server.touched s); [done|]. destruct (ServerFacts.write_all_written ws now s _ (λ _, eq_refl)) as [E2 E1].
    cbn. destruct (Server.write_all ws now s) as [s' es]. cbn in *. rewrite E2. split; [done|]. by apply ServerFacts.rsame_eq.
Qed.

(** ** Examples *)

Module RedisExamples.
Import RedisProperties.
#[local] Existing Instance no_floats.

Definition record_key : string := "modelship/state/responses/ann/resp_2".

(** Another client writes the record. *)
Definition rival (s : Server.t) : Server.t :=
  Server.mk (Dict.set record_key (RString (dumps (JInt 7)), None) (Server.data s)) (Server.watched s) true.

(** A log of one turn; the rival acts before the first round's [EXEC], and the second round's connection is lost. *)
Definition log_entry : (Z * Z) * dict string := ((1, 0), [("data"%string, dumps (JList [JInt 1]))]).
Definition one_turn (fates : list fate) (others : list (Server.t → Server.t)) : store Server.t :=
  mkStore PREFIX 3 (Server.mk [("modelship/state/logs/ann/1"%string, (RStream [log_entry], None))] [] false) fates others.
Definition example : store Server.t :=
  one_turn [Answered; Answered; Answered; Answered; Unreachable false] [id; id; rival].
Definition second_entry : store_op bool :=
  OAppendAndSet "logs//ann/1" 2 (JList [JInt 2]) "responses/ann/resp_2" (JList []) (Some second) false.

Lemma example_sound : sound 0 PREFIX (redis_db (server example)).
Proof.
  intros k x. cbn. unfold Server.view. cbn. case_decide; [|done]. intros [= <-]. repeat constructor.
  by exists (JList [JInt 1]).
Qed.

Lemma example_respects : Forall (respects 0 PREFIX) (others example).
Proof.
  assert (respects 0 PREFIX (@id Server.t)) as Hid by (intros s; split; [by apply RedisFacts.unchanged_meanwhile|done]).
  repeat (apply Forall_cons; split; [done|]). apply Forall_singleton. intros s. split; [by split; [|left]|].
  - intros Hs k x. cbn. unfold Server.view. cbn [Server.data]. rewrite Dict.get_set. case_decide; [|apply Hs].
    intros [= <-]. by exists (JInt 7).
Qed.


Lemma transaction_ends_witness :
  (ss_run second_entry 0 example).2 ≠ Err (RuntimeError "still retrying").
Proof.
  destruct (transaction_ends second_entry 0 example (ss_run second_entry 0 example).1 (ss_run second_entry 0 example).2) as [[b E]|[E|[msg E]]].
  - apply example_sound.
  - apply example_respects.
  - split; [done|]. split; done.
  - exact I.
  - apply surjective_pairing.
  - rewrite E. discriminate.
  - rewrite E. discriminate.
  - rewrite E. discriminate.
Defined.

(** A listing of what is there *)
Example keys_listed : (ss_run (OList "logs/ann") 0 (one_turn [] [])).2 = Ok ["logs/ann/1"%string].
Proof. vm_compute. reflexivity. Qed.

(** A reply that is lost: the entry is in the log, and with it the record, yet the answer is that they were refused. The
    client library sends a lost [XADD] again, and the code takes up a transaction again whose [EXEC] was lost, without
    looking whether it had been carried out. *)
Theorem lost_reply_is_refused :
  (let '(c, r) := ss_run (OAppend "logs/ann/1" 2 (JList [JInt 2]) None) 0 (one_turn [Unreachable true] []) in
   r = Ok false ∧ (ss_run (OReadRange "logs/ann/1" 2 None) 0 c).2 = Ok [JList [JInt 2]]) ∧
  (let '(c, r) := ss_run second_entry 0 (one_turn [Answered; Answered; Unreachable true] []) in
   r = Ok false ∧ (ss_run (OReadRange "logs/ann/1" 2 None) 0 c).2 = Ok [JList [JInt 2]] ∧
   (ss_run (OGet "responses/ann/resp_2") 0 c).2 = Ok (Some (JList []))).
Proof. vm_compute. auto. Qed.
End RedisExamples.
