(* ===== verification/Errors.v ===== *)
(** * Errors

    [src/modelship/openai/protocol/error.py]: the error responses made of texts and exceptions, as JSON
    and as text. What of a loader's errors a client is shown is in [GatewayStreams]. *)

From S2P Require Import Prelude ConfigSchema JsonText.
Local Open Scope Z_scope.

(** ** Making them *)

(** [create_error_response] of a text; a status from 500 on decides the default type. *)
Definition create_error_response (message : string) (err_type : option string) (status_code : Z)
    (param code : option string) : ErrorResponse :=
  mkError message
    (default (if 500 <=? status_code then "api_error"%string else "invalid_request_error"%string)
       (t ← err_type; if bool_decide (t = ""%string) then None else Some t))
    param code status_code.

(** [create_error_response] of an exception *)
Definition error_of_exception (exc : exn) (code : option string) : ErrorResponse :=
  match exc with
  | ValueError _ => create_error_response (exn_str exc) (Some "invalid_request_error"%string) 400 None code
  | NotImplementedError _ => create_error_response (exn_str exc) (Some "api_error"%string) 501 None code
  | _ => create_error_response (exn_str exc) (Some "api_error"%string) 500 None code
  end.

(** [validation_error_from_cause], of an exception whose one argument is its text and that has no
    [parameter] *)
Definition validation_error_from_cause (cause : exn) : ErrorResponse :=
  create_error_response (exn_str cause) (Some "invalid_request_error"%string) 400 None None.

(** [server_error], for a request id *)
Definition server_error (request_id : string) (status_code : Z) : ErrorResponse :=
  create_error_response ("The server had an error processing your request (request id: " +:+ request_id +:+ ").")
    None status_code None None.

(** ** As JSON and as text *)

Definition json_opt (s : option string) : json := match s with Some s => JStr s | None => JNull end.

(** [model_dump(mode="json")] *)
Definition error_info (err : ErrorResponse) : dict json :=
  [("message", JStr (err_message err)); ("type", JStr (err_type err)); ("param", json_opt (err_param err));
   ("code", json_opt (err_code err))]%string.
Definition dump_error (err : ErrorResponse) : json := JObj [("error"%string, JObj (error_info err))].

Section text.
Context `{FloatText}.

Definition newlines : string := String newline (String newline "").

(** [encode_error_sse] *)
Definition encode_error_sse (err : ErrorResponse) : string := "data: " +:+ dumps (dump_error err) +:+ newlines.

(** [ERROR_SSE_PREFIX] *)
Definition ERROR_SSE_PREFIX : string := "data: {" +:+ String dquote ("error" +:+ String dquote "").

End text.

(** [ResponsesApiError(create_error_response(...))] *)
Definition api_error (message : string) (err_type : string) (status_code : Z) (param code : option string) : exn :=
  ResponsesApiError (create_error_response message (Some err_type) status_code param code).
