(* ===== verification/Ledger.v ===== *)
(** * Deploy versions

    [src/modelship/deploy/ledger.py]: each gateway's committed version and the one before it,
    kept in the state store as raw model dicts, and the fold of a request's models into the
    committed set. *)

From S2P Require Import Prelude StateStore MemoryStore ConfigSchema.
Local Open Scope Z_scope.

(** ** Data *)

Inductive DeployMode : Set := additive | reconcile.
Inductive RequestMode : Set := mode (m : DeployMode) | bare.
Inductive ReplaceStrategy : Set := blue_green | stop_start.

#[export] Instance deploy_mode_eq_dec : EqDecision DeployMode.
Proof. solve_decision. Defined.
#[export] Instance request_mode_eq_dec : EqDecision RequestMode.
Proof. solve_decision. Defined.
#[export] Instance strategy_eq_dec : EqDecision ReplaceStrategy.
Proof. solve_decision. Defined.

Record DeployRequest : Type := mkRequest {
  gateway : string;
  req_mode : RequestMode;
  strategy : ReplaceStrategy;
  (** raw model dicts as sent; [None] for a bare request *)
  req_models : option (list json);
  env : dict string;
  (** set by the deploy coordinator *)
  id : string;
}.

Record Version : Type := mkVersion {
  number : Z;
  version_models : list json;
}.

(** ** Operations *)

Section ledger.
Context `{Pydantic}.

(** [Version.apps]: model name -> the app it runs on *)
Definition apps_of (models : list json) (gateway_name : string) : res (dict string) :=
  configs ← res_mapM model_validate models;
  mret (Dict.of_list ((λ c, (name c, deployment_name gateway_name c)) <$> configs)).

(** [_version]: a stored value as a version, [None] when it isn't one. *)
Definition version_of (data : option json) : res (option Version) :=
  match data with
  | Some (JObj d) =>
      match Dict.get "models" d with
      | Some (JList models) =>
          n ← py_int (default (JInt 0) (Dict.get "version" d));
          mret (Some (mkVersion n models))
      | _ => Ok None
      end
  | _ => Ok None
  end.

Definition version_key (gateway_name : string) : string := "effective/" +:+ gateway_name.

Definition versions_of (data : option json) : res (option Version * option Version) :=
  committed ← version_of data;
  previous ← (match committed, data with
              | Some _, Some (JObj d) => version_of (Dict.get "previous" d)
              | _, _ => Ok None
              end);
  mret (committed, previous).

Definition read_versions `{StateStore T} (gateway_name : string) (now : Z)
    : store_m T (option Version * option Version) :=
  data ← ss_run (OGet (version_key gateway_name)) now;
  lift (versions_of data).

Definition stored_version (v : Version) : dict json :=
  [("version", JInt (number v)); ("models", JList (version_models v))]%string.

Definition commit_version `{StateStore T} (gateway_name : string) (models : list json) (now : Z)
    : store_m T Version :=
  cp ← read_versions gateway_name now;
  let committed := cp.1 in
  let version := mkVersion (if committed is Some c then number c + 1 else 1) models in
  let value := stored_version version in
  let value := if committed is Some c then Dict.set "previous" (JObj (stored_version c)) value
               else value in
  _ ← ss_run (OSet (version_key gateway_name) (JObj value) None) now;
  mret version.

(** [_identity]: the deployment name and model name of a raw model dict. *)
Definition identity (raw : json) (gateway_name : string) : res (string * string) :=
  cfg ← model_validate raw;
  mret (deployment_name gateway_name cfg, name cfg).

(** The two dicts [merge] builds: deployment name -> raw dict, model name -> deployment name. *)
Notation folded := (dict json * dict string)%type.

(** One committed model, in the first loop. *)
Definition merge_committed (gateway_name : string) (acc : folded) (m : json) : res folded :=
  dn ← identity m gateway_name;
  mret (Dict.set dn.1 m acc.1, Dict.set dn.2 dn.1 acc.2).

(** One input model, in the second loop. *)
Definition merge_input (gateway_name : string) (acc : folded) (d : json) : res folded :=
  dn ← identity d gateway_name;
  let '(dep_name, model_name) := dn in
  let '(merged, dep_name_by_model_name) := acc in
  if Dict.mem dep_name merged then mret (Dict.set dep_name d merged, dep_name_by_model_name)
  else
    merged ← (match Dict.get model_name dep_name_by_model_name with
              | Some prior =>
                  if Dict.mem prior merged then mret (Dict.pop prior merged)
                  else Err (KeyError prior)
              | None => mret merged
              end);
    mret (Dict.set dep_name d merged, Dict.set model_name dep_name dep_name_by_model_name).

Fixpoint res_foldM {A B} (f : A → B → res A) (acc : A) (l : list B) : res A :=
  match l with
  | [] => Ok acc
  | x :: l => acc ← f acc x; res_foldM f acc l
  end.

Definition merge (effective_raw input_raw : list json) (gateway_name : string) (m : DeployMode)
    : res (list json) :=
  _ ← validate_models input_raw;
  if decide (m = reconcile) then Ok input_raw
  else
    acc ← res_foldM (merge_committed gateway_name) ([], []) effective_raw;
    acc ← res_foldM (merge_input gateway_name) acc input_raw;
    mret (Dict.values acc.1).
End ledger.

(** ** Lemmas *)

Module LedgerFacts.
Section facts.
Context `{Pydantic}.

(** The key of one gateway is never another's. *)
Lemma version_key_inj g g' : version_key g = version_key g' → g = g'.
Proof. apply Str.app_inj. Qed.

Lemma fingerprint_length c :
  digest_format → String.length (fingerprint c) = FINGERPRINT_LEN.
Proof.
  intros Hd. unfold fingerprint. rewrite ConfigFacts.str_take_length; [done|].
  rewrite (proj1 (Hd _)). unfold FINGERPRINT_LEN. lia.
Qed.

Lemma suffix_inj (a b x y : string) :
  String.length x = String.length y → a +:+ x = b +:+ y → a = b ∧ x = y.
Proof.
  intros Hl. revert b. induction a as [|c a IH]; intros [|d b] E; simpl in *.
  - done.
  - subst x. simpl in Hl. rewrite ConfigFacts.length_app in Hl. lia.
  - subst y. simpl in Hl. rewrite ConfigFacts.length_app in Hl. lia.
  - injection E as -> E. destruct (IH _ E) as [-> ->]. done.
Qed.

(** On one gateway, a deployment name belongs to one model name. *)
Lemma deployment_name_inj gw c c' :
  digest_format → deployment_name gw c = deployment_name gw c' → name c = name c'.
Proof.
  intros Hd E. unfold deployment_name in E. do 2 apply Str.app_inj in E.
  apply suffix_inj in E as [E _]; [done|]. simpl. by rewrite !fingerprint_length.
Qed.

Lemma identity_ok raw gw d n :
  identity raw gw = Ok (d, n) ↔
    ∃ c, model_validate raw = Ok c ∧ d = deployment_name gw c ∧ n = name c.
Proof.
  unfold identity. rewrite res_bind_ok. split.
  - intros (c & ? & [= <- <-]). eauto.
  - intros (c & ? & -> & ->). eauto.
Qed.

Lemma identity_inj gw r r' d n n' :
  digest_format → identity r gw = Ok (d, n) → identity r' gw = Ok (d, n') → n = n'.
Proof.
  intros Hd (c & _ & -> & ->)%identity_ok (c' & _ & E & ->)%identity_ok.
  by eapply deployment_name_inj.
Qed.

(** The model name of a raw dict, when it validates. *)
Definition model_name (gw : string) (raw : json) : option string :=
  if identity raw gw is Ok (_, n) then Some n else None.

(** The fold's invariant: [merged] is keyed by deployment name, [by_name] maps each of its
    models to that key, and both hold the models [F] does. *)
Record folded_ok (gw : string) (F : string → option json) (acc : dict json * dict string) : Prop := {
  fo_nodup : NoDup (Dict.keys acc.1);
  fo_key d raw : Dict.get d acc.1 = Some raw → ∃ n, identity raw gw = Ok (d, n) ∧ F n = Some raw;
  fo_name n raw : F n = Some raw →
    ∃ d, identity raw gw = Ok (d, n) ∧ Dict.get n acc.2 = Some d ∧ Dict.get d acc.1 = Some raw;
  fo_only n d : Dict.get n acc.2 = Some d → is_Some (F n);
}.

Definition upd (n : string) (raw : json) (F : string → option json) : string → option json :=
  λ n', if decide (n' = n) then Some raw else F n'.

Lemma folded_ok_empty gw : folded_ok gw (λ _, None) ([], []).
Proof. split; simpl; try done. constructor. Qed.

Lemma folded_ok_dep gw F acc n raw d :
  folded_ok gw F acc → F n = Some raw → Dict.get n acc.2 = Some d → identity raw gw = Ok (d, n).
Proof. intros HF HFn Hd. destruct (fo_name _ _ _ HF _ _ HFn) as (d' & ? & ? & ?). congruence. Qed.

Lemma folded_ok_fresh gw F acc d n raw :
  digest_format → folded_ok gw F acc → identity raw gw = Ok (d, n) → F n = None →
  folded_ok gw (upd n raw F) (Dict.set d raw acc.1, Dict.set n d acc.2).
Proof.
  intros Hd HF Hid HFn. split; simpl.
  - apply Dict.NoDup_keys_set, (fo_nodup _ _ _ HF).
  - intros d' raw'. rewrite Dict.get_set. case_decide; [subst|].
    + intros [= <-]. exists n. unfold upd. by rewrite decide_True.
    + intros Hg. destruct (fo_key _ _ _ HF _ _ Hg) as (n' & ? & ?). exists n'. unfold upd.
      rewrite decide_False; [done|]. congruence.
  - intros n' raw'. unfold upd. rewrite Dict.get_set. case_decide; [subst|].
    + intros [= <-]. exists d. by rewrite Dict.get_set_eq.
    + intros HF'. destruct (fo_name _ _ _ HF _ _ HF') as (d' & ? & ? & ?). exists d'.
      split_and!; [done..|]. rewrite Dict.get_set_ne; [done|]. intros ->.
      by assert (n' = n) by (by eapply identity_inj).
  - intros n' d'. unfold upd. rewrite Dict.get_set. case_decide; [by eauto|].
    apply (fo_only _ _ _ HF).
Qed.

Lemma folded_ok_same gw F acc d n raw :
  digest_format → folded_ok gw F acc → identity raw gw = Ok (d, n) → Dict.mem d acc.1 = true →
  folded_ok gw (upd n raw F) (Dict.set d raw acc.1, acc.2).
Proof.
  intros Hd HF Hid Hm. unfold Dict.mem in Hm.
  destruct (Dict.get d acc.1) as [old|] eqn:Hold; [|done].
  destruct (fo_key _ _ _ HF _ _ Hold) as (n0 & Hid0 & HF0).
  assert (n0 = n) as -> by (by eapply identity_inj).
  destruct (fo_name _ _ _ HF _ _ HF0) as (d0 & Hid0' & Hby & _).
  assert (d0 = d) as -> by congruence. split; simpl.
  - apply Dict.NoDup_keys_set, (fo_nodup _ _ _ HF).
  - intros d' raw'. rewrite Dict.get_set. case_decide; [subst|].
    + intros [= <-]. exists n. unfold upd. by rewrite decide_True.
    + intros Hg. destruct (fo_key _ _ _ HF _ _ Hg) as (n' & ? & HF'). exists n'. unfold upd.
      rewrite decide_False; [done|]. intros ->. congruence.
  - intros n' raw'. unfold upd. case_decide; [subst|].
    + intros [= <-]. exists d. by rewrite Dict.get_set_eq.
    + intros HF'. destruct (fo_name _ _ _ HF _ _ HF') as (d' & ? & ? & ?). exists d'.
      split_and!; [done..|]. rewrite Dict.get_set_ne; [done|]. intros ->.
      by assert (n' = n) by (by eapply identity_inj).
  - intros n' d' Hg. unfold upd. case_decide; [by eauto|]. by eapply (fo_only _ _ _ HF).
Qed.

Lemma folded_ok_pop gw F acc n raw d :
  digest_format → folded_ok gw F acc → F n = Some raw → identity raw gw = Ok (d, n) →
  folded_ok gw (λ n', if decide (n' = n) then None else F n')
    (Dict.pop d acc.1, Dict.pop n acc.2).
Proof.
  intros Hd HF HFn Hid. split; simpl.
  - apply Dict.NoDup_keys_pop, (fo_nodup _ _ _ HF).
  - intros d' raw'. rewrite Dict.get_pop. case_decide; [done|]. intros Hg.
    destruct (fo_key _ _ _ HF _ _ Hg) as (n' & ? & ?). exists n'.
    rewrite decide_False; [done|]. intros ->. congruence.
  - intros n' raw'. rewrite Dict.get_pop. case_decide; [done|]. intros HF'.
    destruct (fo_name _ _ _ HF _ _ HF') as (d' & ? & ? & ?). exists d'.
    split_and!; [done..|]. rewrite Dict.get_pop_ne; [done|]. intros ->.
    by assert (n' = n) by (by eapply identity_inj).
  - intros n' d'. rewrite Dict.get_pop. case_decide; [done|]. apply (fo_only _ _ _ HF).
Qed.

Lemma folded_ok_by_name gw F m b b' :
  (∀ n, Dict.get n b' = Dict.get n b) → folded_ok gw F (m, b) → folded_ok gw F (m, b').
Proof.
  intros E [H1 H2 H3 H4]. split; simpl in *; auto.
  - intros n raw HF. destruct (H3 n raw HF) as (d & ? & ? & ?). exists d. by rewrite E.
  - intros n d. rewrite E. apply H4.
Qed.

Lemma folded_ok_ext gw F F' acc :
  (∀ n, F n = F' n) → folded_ok gw F acc → folded_ok gw F' acc.
Proof.
  intros E [H1 H2 H3 H4]. split; auto.
  - intros d raw Hg. destruct (H2 d raw Hg) as (n & ? & ?). exists n. by rewrite <-E.
  - intros n raw. rewrite <-E. apply H3.
  - intros n d. rewrite <-E. apply H4.
Qed.

(** Each step of the loops succeeds and sets its model; the second one replaces a model of
    the same name, wherever it is deployed. *)
Lemma merge_committed_step gw F acc d n raw :
  digest_format → folded_ok gw F acc → identity raw gw = Ok (d, n) → F n = None →
  ∃ acc', merge_committed gw acc raw = Ok acc' ∧ folded_ok gw (upd n raw F) acc'.
Proof.
  intros Hd HF Hid HFn. unfold merge_committed. rewrite Hid. eexists; split; [done|].
  by apply folded_ok_fresh.
Qed.

Lemma merge_input_step gw F acc d n raw :
  digest_format → folded_ok gw F acc → identity raw gw = Ok (d, n) →
  ∃ acc', merge_input gw acc raw = Ok acc' ∧ folded_ok gw (upd n raw F) acc'.
Proof.
  intros Hd HF Hid. unfold merge_input. rewrite Hid. simpl. destruct acc as [m b].
  destruct (Dict.mem d m) eqn:Hm.
  { eexists; split; [done|]. by apply (folded_ok_same gw F (m, b)). }
  destruct (Dict.get n b) as [prior|] eqn:Hp; simpl.
  - destruct (fo_only _ _ _ HF n prior Hp) as [old HFn].
    destruct (fo_name _ _ _ HF n old HFn) as (d0 & Hid0 & Hb0 & Hm0). simpl in *.
    assert (d0 = prior) as -> by congruence. unfold Dict.mem. rewrite Hm0. simpl.
    eexists; split; [done|].
    apply (folded_ok_by_name _ _ _ (Dict.set n d (Dict.pop n b))).
    { intros n'. rewrite !Dict.get_set, Dict.get_pop. by case_decide. }
    apply (folded_ok_ext _ (upd n raw (λ n', if decide (n' = n) then None else F n'))).
    { intros n'. unfold upd. by case_decide. }
    apply (folded_ok_fresh gw _ (Dict.pop prior m, Dict.pop n b)); [done| |done|by rewrite decide_True].
    by apply (folded_ok_pop gw F (m, b) n old).
  - eexists; split; [done|]. apply (folded_ok_fresh gw F (m, b)); [done..|].
    destruct (F n) as [old|] eqn:HFn; [|done].
    destruct (fo_name _ _ _ HF n old HFn) as (? & _ & ? & _). simpl in *. congruence.
Qed.

(** The models of a list by name, a later entry replacing an earlier one. *)
Definition add_named (gw : string) (F : string → option json) (raw : json) : string → option json :=
  if identity raw gw is Ok (_, n) then upd n raw F else F.

Definition valid_raw (gw : string) (raw : json) : Prop := ∃ dn, identity raw gw = Ok dn.

Lemma merge_input_fold gw F acc l :
  digest_format → folded_ok gw F acc → Forall (valid_raw gw) l →
  ∃ acc', res_foldM (merge_input gw) acc l = Ok acc' ∧
          folded_ok gw (foldl (add_named gw) F l) acc'.
Proof.
  intros Hd HF Hl. revert F acc HF. induction Hl as [|raw l [[d n] Hid] Hl IH]; intros F acc HF.
  { by exists acc. }
  destruct (merge_input_step gw F acc d n raw) as (acc1 & E1 & HF1); [done..|].
  simpl. rewrite E1. simpl. unfold add_named at 2. rewrite Hid. by apply IH.
Qed.

Lemma merge_committed_fold gw F acc l :
  digest_format → folded_ok gw F acc → Forall (valid_raw gw) l →
  NoDup (model_name gw <$> l) → (∀ raw n, raw ∈ l → model_name gw raw = Some n → F n = None) →
  ∃ acc', res_foldM (merge_committed gw) acc l = Ok acc' ∧
          folded_ok gw (foldl (add_named gw) F l) acc'.
Proof.
  intros Hd HF Hl. revert F acc HF.
  induction Hl as [|raw l [[d n] Hid] Hl IH]; intros F acc HF Hnd HFl.
  { by exists acc. }
  assert (model_name gw raw = Some n) as Hn by (unfold model_name; by rewrite Hid).
  destruct (merge_committed_step gw F acc d n raw) as (acc1 & E1 & HF1); [done..| |].
  { apply (HFl raw); [by constructor|done]. }
  simpl. rewrite E1. simpl. unfold add_named at 2. rewrite Hid.
  simpl in Hnd. apply NoDup_cons in Hnd as [Hni Hnd]. apply IH; [done..|].
  intros raw' n' Hin Hn'. unfold upd. case_decide; [subst|].
  - destruct Hni. apply list_elem_of_fmap. exists raw'. by rewrite Hn, Hn'.
  - apply (HFl raw'); [by constructor|done].
Qed.

(** What a fold by name holds: the last entry of each name. *)
Lemma foldl_add_named gw F l n raw :
  Forall (valid_raw gw) l → NoDup (model_name gw <$> l) →
  foldl (add_named gw) F l n = Some raw ↔
    (raw ∈ l ∧ model_name gw raw = Some n) ∨
    (F n = Some raw ∧ ∀ raw', raw' ∈ l → model_name gw raw' ≠ Some n).
Proof.
  intros Hl. revert F. induction Hl as [|x l [[d n'] Hid] Hl IH]; intros F Hnd; simpl.
  { set_solver. }
  apply NoDup_cons in Hnd as [Hni Hnd]. rewrite IH by done.
  assert (model_name gw x = Some n') as Hx by (unfold model_name; by rewrite Hid).
  assert (∀ r, r ∈ l → model_name gw r ≠ Some n') as Hother.
  { intros r Hr E. destruct Hni. apply list_elem_of_fmap. exists r. by rewrite E. }
  unfold add_named. rewrite Hid. unfold upd. case_decide; [subst|].
  - split.
    + intros [[? ?]|[[= ->] _]]; [left|left]; (split; [by constructor|done]).
    + intros [[[->|?]%elem_of_cons ?]|[_ Hno]]; [by right|by left|].
      destruct (Hno x); [constructor|done].
  - setoid_rewrite elem_of_cons. naive_solver.
Qed.

Lemma validate_models_ok raws cs :
  validate_models raws = Ok cs ↔
    Forall2 (λ raw c, model_validate raw = Ok c) raws cs ∧ NoDup (name <$> cs).
Proof.
  unfold validate_models. rewrite res_bind_ok. split.
  - intros (cs' & Hm%res_mapM_ok & ([] & Hu & [= <-])%res_bind_ok). split; [done|].
    apply ConfigFacts.check_unique_names_from_ok in Hu. tauto.
  - intros [Hm Hu]. exists cs. split; [by apply res_mapM_ok|]. apply res_bind_ok. exists ().
    split; [|done]. apply ConfigFacts.check_unique_names_from_ok. split; [done|].
    intros. apply not_elem_of_nil.
Qed.

Lemma model_name_ok gw raw c : model_validate raw = Ok c → model_name gw raw = Some (name c).
Proof. intros E. unfold model_name, identity. by rewrite E. Qed.

Lemma validate_models_named gw raws cs :
  validate_models raws = Ok cs → Forall (valid_raw gw) raws ∧ NoDup (model_name gw <$> raws).
Proof.
  intros [Hf Hnd]%validate_models_ok. split.
  - clear Hnd. induction Hf as [|raw c raws cs E Hf IH]; constructor; [|done].
    exists (deployment_name gw c, name c). apply identity_ok. eauto.
  - rewrite (Forall2_fmap_eq _ (λ c, Some (name c)) raws cs).
    + rewrite (list_fmap_compose name Some). by apply NoDup_fmap; [apply _|].
    + eapply Forall2_impl; [done|]. intros. by apply model_name_ok.
Qed.

(** The values of a fold form a set that validates. *)
Lemma folded_ok_validates gw F acc :
  folded_ok gw F acc → ∃ cs, validate_models (Dict.values acc.1) = Ok cs.
Proof.
  intros HF. set (l := acc.1).
  assert (∀ d raw, (d, raw) ∈ l → ∃ n, identity raw gw = Ok (d, n) ∧ F n = Some raw) as Hl.
  { intros d raw Hin. apply (fo_key _ _ _ HF). by apply Dict.elem_get; [apply (fo_nodup _ _ _ HF)|]. }
  destruct (res_mapM_total model_validate (Dict.values l)) as [cs Hcs].
  { intros raw ([d raw'] & -> & Hin)%list_elem_of_fmap.
    destruct (Hl _ _ Hin) as (n & (c & ? & _)%identity_ok & _). eauto. }
  exists cs. apply validate_models_ok. apply res_mapM_ok in Hcs. split; [done|].
  assert (NoDup (model_name gw <$> Dict.values l)) as Hnd.
  { unfold Dict.values. rewrite <-list_fmap_compose.
    apply (NoDup_fmap_via _ fst); [|apply (fo_nodup _ _ _ HF)].
    intros [d raw] [d' raw'] Hin Hin' E; simpl in *.
    destruct (Hl _ _ Hin) as (n & Hi & Hn), (Hl _ _ Hin') as (n' & Hi' & Hn').
    unfold model_name in E. rewrite Hi, Hi' in E. simplify_eq. congruence. }
  rewrite (Forall2_fmap_eq _ (λ c, Some (name c)) _ cs) in Hnd.
  - rewrite (list_fmap_compose name Some) in Hnd. by apply NoDup_fmap_1 in Hnd.
  - eapply Forall2_impl; [done|]. intros. by apply model_name_ok.
Qed.

(** The additive merge: a map from names to models, the input's first. *)
Lemma merge_additive gw eff inp ecs ics :
  digest_format → validate_models eff = Ok ecs → validate_models inp = Ok ics →
  ∃ out ocs, merge eff inp gw additive = Ok out ∧ validate_models out = Ok ocs ∧
    ∀ raw, raw ∈ out ↔
      raw ∈ inp ∨ (raw ∈ eff ∧ ∀ raw', raw' ∈ inp → model_name gw raw' ≠ model_name gw raw).
Proof.
  intros Hd He Hi. unfold merge. rewrite Hi. simpl.
  destruct (validate_models_named gw _ _ He) as [Hve Hne].
  destruct (validate_models_named gw _ _ Hi) as [Hvi Hni].
  destruct (merge_committed_fold gw (λ _, None) ([], []) eff) as (acc & Ha & HFa);
    [done|apply folded_ok_empty|done..|].
  destruct (merge_input_fold gw _ acc inp Hd HFa Hvi) as (acc' & Ha' & HF).
  rewrite Ha. simpl. rewrite Ha'. simpl.
  destruct (folded_ok_validates gw _ _ HF) as [ocs Hocs].
  exists (Dict.values acc'.1), ocs. split_and!; [done..|].
  assert (∀ l raw, Forall (valid_raw gw) l → raw ∈ l → ∃ n, model_name gw raw = Some n) as Hnamed.
  { intros l raw Hl Hin. rewrite Forall_forall in Hl. destruct (Hl _ Hin) as [[d n] E].
    exists n. unfold model_name. by rewrite E. }
  intros raw. transitivity (∃ n, foldl (add_named gw) (foldl (add_named gw) (λ _, None) eff) inp n = Some raw).
  - split.
    + intros ([d raw'] & -> & Hin)%list_elem_of_fmap. apply Dict.elem_get in Hin; [|apply (fo_nodup _ _ _ HF)].
      destruct (fo_key _ _ _ HF _ _ Hin) as (n & _ & ?). eauto.
    + intros (n & HFn). destruct (fo_name _ _ _ HF _ _ HFn) as (d & _ & _ & Hg).
      apply list_elem_of_fmap. exists (d, raw). split; [done|]. by apply Dict.get_Some_elem.
  - setoid_rewrite foldl_add_named; [|done..]. setoid_rewrite foldl_add_named; [|done..].
    split.
    + intros (n & [[? ?]|[[[? Hn]|[? _]] Hno]]); [by left| |done]. right. split; [done|].
      intros raw' Hin. rewrite Hn. auto.
    + intros [Hin|[Hin Hno]].
      * destruct (Hnamed inp raw) as [n ?]; [done..|]. exists n. by left.
      * destruct (Hnamed eff raw) as [n Hn]; [done..|]. exists n. right. split; [by left|].
        intros raw' Hin'. rewrite <-Hn. auto.
Qed.
End facts.
End LedgerFacts.

Module LedgerStore.
Section facts.
Context `{Pydantic} `{StateStoreOk T}.

Lemma read_versions_ok gw now (s s' : T) r :
  ss_valid s → read_versions gw now s = (s', Ok r) →
  ss_valid s' ∧ versions_of (Spec.get (version_key gw) now (cells s)) = Ok r ∧
  same_from now (cells s') (cells s).
Proof.
  intros Hv (s1 & data & Hg & [-> Hl]%lift_ok)%store_m_bind_ok.
  apply op_get_ok in Hg as (? & -> & ?); [|done]. done.
Qed.

(** What a committed value reads back as. *)
Lemma versions_of_stored v : versions_of (Some (JObj (stored_version v))) = Ok (Some v, None).
Proof. by destruct v. Qed.

Lemma versions_of_stored_previous v c :
  versions_of (Some (JObj (Dict.set "previous" (JObj (stored_version c)) (stored_version v)))) =
    Ok (Some v, Some c).
Proof. by destruct v, c. Qed.

Lemma commit_version_ok gw models now (s s' : T) v :
  ss_valid s → commit_version gw models now s = (s', Ok v) →
  ss_valid s' ∧ ∃ committed previous,
    versions_of (Spec.get (version_key gw) now (cells s)) = Ok (committed, previous) ∧
    v = mkVersion (if committed is Some c then number c + 1 else 1) models ∧
    same_from now (cells s') (Spec.set (version_key gw)
      (JObj (if committed is Some c
             then Dict.set "previous" (JObj (stored_version c)) (stored_version v)
             else stored_version v)) None now (cells s)).
Proof.
  intros Hv (s1 & [committed previous] & Hr & Hc)%store_m_bind_ok.
  apply read_versions_ok in Hr as (Hv1 & Hvs & Hs1); [|done].
  apply store_m_bind_ok in Hc as (s2 & [] & Hset & Hret). injection Hret as -> <-.
  apply op_write_ok in Hset as (Hv2 & _ & Hs2); [|done]. split; [done|].
  exists committed, previous. split_and!; [done|by destruct committed|].
  simpl in Hs2. rewrite Hs2. rewrite (Spec_set_proper _ _ _ _ _ _ Hs1). by destruct committed.
Qed.

(** ** The stored version over time *)

(** From [now] on, what is committed for the gateway reads as [c]. *)
Definition stored (gw : string) (now : Z) (s : T) (c : option (list json)) : Prop :=
  ∀ t, now ≤ t → ∃ cv p, versions_of (Spec.get (version_key gw) t (cells s)) = Ok (cv, p) ∧
    version_models <$> cv = c.

(** The gateway's key does not expire. *)
Definition steady (gw : string) (now : Z) (s : T) : Prop :=
  ∀ t, now ≤ t → Spec.get (version_key gw) t (cells s) = Spec.get (version_key gw) now (cells s).

Lemma stored_same gw now t s s' c :
  now ≤ t → same_from t (cells s') (cells s) → stored gw now s c → stored gw t s' c.
Proof.
  intros Ht Hs Hst t' Ht'. rewrite (Spec_get_proper _ _ _ _ (same_from_mono _ t' _ _ Ht' Hs)).
  apply Hst. lia.
Qed.

Lemma steady_same gw now t s s' :
  now ≤ t → same_from t (cells s') (cells s) → steady gw now s → steady gw t s'.
Proof.
  intros Ht Hs Hst t' Ht'.
  rewrite (Spec_get_proper _ _ _ _ (same_from_mono _ t' _ _ Ht' Hs)), (Spec_get_proper _ _ _ _ Hs).
  rewrite (Hst t'), (Hst t) by lia. done.
Qed.

Lemma read_versions_stored gw now s s' r :
  ss_valid s → steady gw now s → read_versions gw now s = (s', Ok r) →
  stored gw now s' (version_models <$> r.1).
Proof.
  intros Hv Hst Hr. apply read_versions_ok in Hr as (_ & Hr & Hs); [|done].
  intros t Ht. exists r.1, r.2.
  rewrite (Spec_get_proper _ _ _ _ (same_from_mono _ t _ _ Ht Hs)), Hst, Hr by done. by destruct r.
Qed.

(** A commit, seen from its gateway and from another. *)
Lemma commit_stored gw models now s s' v :
  ss_valid s → commit_version gw models now s = (s', Ok v) →
  ss_valid s' ∧ version_models v = models ∧ stored gw now s' (Some models) ∧ steady gw now s' ∧
  ∀ gw', gw' ≠ gw → (steady gw' now s → steady gw' now s') ∧ (∀ c, stored gw' now s c → stored gw' now s' c).
Proof.
  intros Hv Hc. apply commit_version_ok in Hc as (Hv' & c & p & Hr & -> & Hs); [|done].
  set (value := JObj _) in Hs.
  assert (∀ t k, now ≤ t → Spec.get k t (cells s') =
    if decide (k = version_key gw) then Some value else Spec.get k t (cells s)) as Hget.
  { intros t k Ht. rewrite (Spec_get_proper _ _ _ _ (same_from_mono _ t _ _ Ht Hs)).
    apply Spec_get_set_forever. }
  split_and!; [done|done| | |].
  - intros t Ht. rewrite Hget, decide_True by done. subst value. destruct c as [c|].
    + rewrite versions_of_stored_previous. eauto.
    + rewrite versions_of_stored. eauto.
  - intros t Ht. by rewrite !Hget, !decide_True by (done || lia).
  - intros gw' Hne. assert (version_key gw' ≠ version_key gw) by (by intros ?%LedgerFacts.version_key_inj). split.
    + intros Hst t Ht. rewrite !Hget, !decide_False by (done || lia). by apply Hst.
    + intros c' Hst t Ht. rewrite !Hget, !decide_False by (done || lia). by apply Hst.
Qed.
End facts.

Section atomic.
Context `{Pydantic} `{StateStoreAtomic T}.

(** Version code that raises has changed no content. *)
Lemma read_versions_err gw now (s s' : T) e :
  ss_valid s → read_versions gw now s = (s', Err e) → ss_valid s' ∧ same_from now (cells s') (cells s).
Proof.
  intros Hv. unfold read_versions, mbind, store_m_bind.
  pose proof (ss_run_valid (OGet (version_key gw)) now s Hv) as Hv'.
  destruct (ss_run (OGet (version_key gw)) now s) as [s1 [data|x]] eqn:E.
  - unfold lift. intros [= <- _]. by apply op_get_ok in E as (? & _ & ?).
  - intros [= <- <-]. split; [done|]. by eapply ss_raise_same.
Qed.

Lemma commit_version_err gw models now (s s' : T) e :
  ss_valid s → commit_version gw models now s = (s', Err e) →
  ss_valid s' ∧ same_from now (cells s') (cells s).
Proof.
  intros Hv. unfold commit_version, mbind, store_m_bind.
  destruct (read_versions gw now s) as [s1 [r|x]] eqn:E.
  - apply read_versions_ok in E as (Hv1 & _ & Hs1); [|done].
    match goal with |- context [ss_run ?op now s1] => destruct (ss_run op now s1) as [s2 [[]|x]] eqn:E2;
      pose proof (ss_run_valid op now s1 Hv1) as Hv2 end; [done|].
    rewrite E2 in Hv2. intros [= <- <-]. split; [done|]. rewrite <-Hs1. by eapply ss_raise_same.
  - intros [= <- <-]. by eapply read_versions_err.
Qed.
End atomic.
End LedgerStore.

(** ** Theorems *)

Module LedgerTheorems.
Import LedgerFacts LedgerStore.

(** A commit is read back, by every later read of the gateway, as the committed version with
    the version committed before it as its previous one; the version number is one more than
    that one's (1 on a first commit), and no other gateway's versions change. *)
Theorem commit_then_read `{Pydantic} `{StateStoreOk T} gw models now t (s s' : T) v :
  ss_valid s → commit_version gw models now s = (s', Ok v) → now ≤ t →
  ∃ committed previous,
    versions_of (Spec.get (version_key gw) now (cells s)) = Ok (committed, previous) ∧
    number v = (if committed is Some c then number c + 1 else 1) ∧ version_models v = models ∧
    (∀ s'' r, read_versions gw t s' = (s'', Ok r) → r = (Some v, committed)) ∧
    (∀ gw', gw' ≠ gw →
      Spec.get (version_key gw') t (cells s') = Spec.get (version_key gw') t (cells s)).
Proof.
  intros Hv Hc Ht. apply commit_version_ok in Hc as (Hv' & committed & previous & Hr & -> & Hs); [|done].
  exists committed, previous. apply (same_from_mono _ _ _ _ Ht) in Hs. split_and!; [done..| |].
  - intros s'' r Hr'. apply read_versions_ok in Hr' as (_ & Hr' & _); [|done].
    rewrite (Spec_get_proper _ _ _ _ Hs), Spec_get_set_forever, decide_True in Hr' by done.
    destruct committed; [rewrite versions_of_stored_previous in Hr'|rewrite versions_of_stored in Hr'];
      congruence.
  - intros gw' Hne. rewrite (Spec_get_proper _ _ _ _ Hs), Spec_get_set_forever, decide_False; [done|].
    intros E. by apply version_key_inj in E.
Qed.

Import ConfigSchema.Example.

Definition raw_named (n : string) : json := JObj [("name", JStr n); ("model", JStr "m")]%string.

Lemma commit_then_read_witness :
  let s := Actor.init 0 0 in
  let '(s', v) := commit_version "gw" [raw_named "a"] 5 s in
  v = Ok (mkVersion 1 [raw_named "a"]) ∧
  ∀ s'' r, read_versions "gw" 9 s' = (s'', Ok r) → r = (Some (mkVersion 1 [raw_named "a"]), None).
Proof.
  simpl. split; [reflexivity|]. intros s'' r Hr.
  destruct (commit_then_read "gw" [raw_named "a"] 5 9 (Actor.init 0 0)
    (commit_version "gw" [raw_named "a"] 5 (Actor.init 0 0)).1 (mkVersion 1 [raw_named "a"]))
    as (committed & previous & Hvs & _ & _ & Hread & _).
  - constructor.
  - reflexivity.
  - lia.
  - injection Hvs as <- _. by apply (Hread s'').
Defined.

(** An additive merge of a valid input into a valid committed set always succeeds (its [pop]
    never misses), gives a set that validates, and holds exactly the input's models and the
    committed models whose name the input does not use: one entry per model name. *)
Theorem merge_additive_spec `{Pydantic} gw eff inp ecs ics :
  digest_format → validate_models eff = Ok ecs → validate_models inp = Ok ics →
  ∃ out ocs, merge eff inp gw additive = Ok out ∧ validate_models out = Ok ocs ∧
    ∀ raw, raw ∈ out ↔
      raw ∈ inp ∨ (raw ∈ eff ∧ ∀ raw', raw' ∈ inp → model_name gw raw' ≠ model_name gw raw).
Proof. apply merge_additive. Qed.

Lemma merge_additive_spec_witness :
  ∃ out ocs,
    merge [raw_named "a"; raw_named "b"] [raw_named "b"; raw_named "c"] "gw" additive = Ok out ∧
    validate_models out = Ok ocs ∧ raw_named "a" ∈ out.
Proof.
  destruct (merge_additive_spec "gw" [raw_named "a"; raw_named "b"] [raw_named "b"; raw_named "c"]
    (ok_or [] (validate_models [raw_named "a"; raw_named "b"]))
    (ok_or [] (validate_models [raw_named "b"; raw_named "c"])))
    as (out & ocs & Hm & Hv & Hout).
  - intros t. split; reflexivity.
  - vm_compute. reflexivity.
  - vm_compute. reflexivity.
  - exists out, ocs. split; [done|]. split; [done|]. apply Hout. right. split; [constructor|].
    intros raw' [->|[->|[]%elem_of_nil]%elem_of_cons]%elem_of_cons; vm_compute; discriminate.
Defined.

End LedgerTheorems.
