(* ===== verification/Diff.v ===== *)
(** * What a deploy request changes

    [src/modelship/deploy/diff.py] and the reading half of [src/modelship/deploy/strategy.py]:
    the diff of a request against the gateway's committed version and Serve's apps, as the
    actions per model, the apps to delete and the order the steps run in. *)

From S2P Require Import Prelude StateStore ConfigSchema Ledger.
Local Open Scope Z_scope.

(** ** Serve's side ([strategy.py]) *)

(** Ray Serve's application statuses the code tells apart; any other by its value. *)
Inductive ApplicationStatus : Set :=
| RUNNING | DEPLOYING | DEPLOY_FAILED | DELETING | OtherStatus (value : string).

#[export] Instance status_eq_dec : EqDecision ApplicationStatus.
Proof. solve_decision. Defined.

Definition status_value (s : ApplicationStatus) : string :=
  match s with
  | RUNNING => "RUNNING" | DEPLOYING => "DEPLOYING" | DEPLOY_FAILED => "DEPLOY_FAILED"
  | DELETING => "DELETING" | OtherStatus v => v
  end.

(** The replica-count fields Serve holds: [num_replicas] alone, or the autoscaling fields. *)
Inductive serve_scaling_fields : Type :=
| NumReplicas (n : Z)
| Autoscaling (low high : Z) (others : dict json).

(** Python's [==] on the two dicts. *)
Definition scaling_eqb (a b : serve_scaling_fields) : bool :=
  match a, b with
  | NumReplicas n, NumReplicas m => n =? m
  | Autoscaling l h o, Autoscaling l' h' o' => (l =? l') && (h =? h') && Json.eqb (JObj o) (JObj o')
  | _, _ => false
  end.

Record ServeApp : Type := mkServeApp {
  status : ApplicationStatus;
  (** [None] without a deployment *)
  app_scaling : option serve_scaling_fields;
}.

(** What the module takes from Serve, pydantic and Python's formatting: Serve's autoscaling
    defaults filled into the fields that are not replica limits, a model's JSON dump without its
    name, and [str(v)] of a float, list or dict. *)
Class DiffEnv : Type := {
  serve_defaults : dict json → dict json;
  dump_without_name : ModelConfig → json;
  py_repr : json → string;
}.

(** [gateway_apps]: app -> model name, for the gateway's model apps. *)
Definition gateway_apps {V} (apps : dict V) (gateway_name : string) : dict string :=
  omap (λ kv,
    match parse_deployment_name kv.1 with
    | Some (g, m) => if decide (g = gateway_name) then Some (kv.1, m) else None
    | None => None
    end) apps.

Definition serve_scaling `{DiffEnv} (c : ModelConfig) : serve_scaling_fields :=
  match autoscaling_config c with
  | None => NumReplicas (num_replicas c)
  | Some a => Autoscaling (min_replicas a) (max_replicas a) (serve_defaults (to_serve_dict a))
  end.

(** ** Diff data *)

(** Serve has stopped starting replicas for these. *)
Definition not_live (s : ApplicationStatus) : bool :=
  bool_decide (s = DEPLOY_FAILED ∨ s = DELETING).

Inductive action : Set := Add | Replace | Rescale_ | Redeploy | Remove | Keep.

#[export] Instance action_eq_dec : EqDecision action.
Proof. solve_decision. Defined.

(** The order a request's actions run in; 0 for what stays as it is. *)
Definition step_leftovers : nat := 1.
Definition step_scale_down : nat := 2.
Definition step_stop : nat := 3.
Definition step_deploy : nat := 4.
Definition step_scale_up : nat := 5.
Definition step_commit : nat := 6.
Definition step_retire : nat := 7.

Record Rescale : Type := mkRescale {
  rs_model : string;
  rs_app : string;
  rs_scaling : Z * option AutoscalingConfig;
}.

Record Diff : Type := mkDiff {
  diff_gateway : string;
  actions : dict action;
  leftovers : list string;
  scale_downs : list Rescale;
  deploys : list ModelConfig;
  scale_ups : list Rescale;
  retired : list string;
  diff_models : option (list json);
  commits : bool;
  steps : list (nat * string);
}.

Definition empty_diff (gateway : string) (models : option (list json)) : Diff :=
  mkDiff gateway [] [] [] [] [] [] models false [].

(** Field updates. *)
Definition add_action (m : string) (a : action) (d : Diff) : Diff :=
  let '(mkDiff g ac l sd dp su r mo co st) := d in mkDiff g (Dict.set m a ac) l sd dp su r mo co st.
Definition add_deploy (c : ModelConfig) (d : Diff) : Diff :=
  let '(mkDiff g ac l sd dp su r mo co st) := d in mkDiff g ac l sd (dp ++ [c]) su r mo co st.
Definition add_scale_down (x : Rescale) (d : Diff) : Diff :=
  let '(mkDiff g ac l sd dp su r mo co st) := d in mkDiff g ac l (sd ++ [x]) dp su r mo co st.
Definition add_scale_up (x : Rescale) (d : Diff) : Diff :=
  let '(mkDiff g ac l sd dp su r mo co st) := d in mkDiff g ac l sd dp (su ++ [x]) r mo co st.
Definition add_retired (a : string) (d : Diff) : Diff :=
  let '(mkDiff g ac l sd dp su r mo co st) := d in mkDiff g ac l sd dp su (r ++ [a]) mo co st.
Definition add_step (n : nat) (text : string) (d : Diff) : Diff :=
  let '(mkDiff g ac l sd dp su r mo co st) := d in mkDiff g ac l sd dp su r mo co (st ++ [(n, text)]).
Definition set_leftovers (l : list string) (d : Diff) : Diff :=
  let '(mkDiff g ac _ sd dp su r mo co st) := d in mkDiff g ac l sd dp su r mo co st.
Definition set_commits (mo : option (list json)) (co : bool) (d : Diff) : Diff :=
  let '(mkDiff g ac l sd dp su r _ _ st) := d in mkDiff g ac l sd dp su r mo co st.
Definition sort_retired (d : Diff) : Diff :=
  let '(mkDiff g ac l sd dp su r mo co st) := d in mkDiff g ac l sd dp su (Sort.strings r) mo co st.

(** [Diff.lines]: the steps in the order they run, those that change nothing last. *)
Definition step_rank (n : nat) : nat := if decide (n = 0%nat) then S step_retire else n.
Definition lines (d : Diff) : list string :=
  (λ st, if decide (st.1 = 0%nat) then st.2 else pretty st.1 +:+ ". " +:+ st.2) <$>
    Sort.sort (λ a b, (step_rank a.1 <=? step_rank b.1)%nat) (steps d).

(** ** Replica limits *)

(** [_limits]: the fewest and the most replicas. *)
Definition limits (s : serve_scaling_fields) : Z * Z :=
  match s with NumReplicas n => (n, n) | Autoscaling l h _ => (l, h) end.

(** [_rises] *)
Definition rises (have want : serve_scaling_fields) : bool :=
  ((limits have).1 <? (limits want).1) || ((limits have).2 <? (limits want).2).

(** [_shrinks] *)
Definition shrinks (old : ServeApp) (want : serve_scaling_fields) : bool :=
  if not_live (status old) then false
  else match app_scaling old with
       | None => false
       | Some s => negb (bool_decide (limits want = limits s)) && negb (rises s want)
       end.

(** ** Texts *)

Section text.
Context `{DiffEnv}.

(** [str(v)] *)
Definition py_str (v : json) : string :=
  match v with
  | JNull => "None" | JBool b => if b then "True" else "False"
  | JInt z => pretty z | JStr s => s
  | _ => py_repr v
  end.

(** [_replicas] *)
Definition replicas (s : serve_scaling_fields) : string :=
  match s with
  | NumReplicas n => "num_replicas " +:+ pretty n
  | Autoscaling l h _ => "autoscaling_config " +:+ pretty l +:+ ".." +:+ pretty h
  end.

Definition scaling_dict (s : serve_scaling_fields) : dict json :=
  match s with
  | NumReplicas n => [("num_replicas", JInt n)]
  | Autoscaling l h o => ("min_replicas", JInt l) :: ("max_replicas", JInt h) :: o
  end%string.

(** [_scaling_changes] *)
Definition scaling_changes (have : option serve_scaling_fields) (want : serve_scaling_fields) : string :=
  match have with
  | None => "unknown -> " +:+ replicas want
  | Some have =>
      let h := scaling_dict have in let w := scaling_dict want in
      if negb (bool_decide (Forall (λ k, k ∈ Dict.keys w) (Dict.keys h))
               && bool_decide (Forall (λ k, k ∈ Dict.keys h) (Dict.keys w)))
      then replicas have +:+ " -> " +:+ replicas want
      else
        let prefix := if want is NumReplicas _ then "" else "autoscaling_config." in
        Str.join ", " (omap (λ kv,
          let old := default JNull (Dict.get kv.1 h) in
          if Json.eqb old kv.2 then None
          else Some (prefix +:+ kv.1 +:+ ": " +:+ py_str old +:+ " -> " +:+ py_str kv.2)) w)
  end.

(** [_flat]: a value's leaves by dotted path; [prefix] ends with a dot, or is empty. *)
Fixpoint flat (v : json) (prefix : string) : dict json :=
  match v with
  | JObj d =>
      Dict.of_list ((fix go (d : dict json) : list (string * json) := match d with
        | [] => []
        | (k, x) :: d => flat x (prefix +:+ k +:+ ".") ++ go d
        end) d)
  | _ => [(str_take (String.length prefix - 1) prefix, v)]
  end.

(** [_config_changes] *)
Definition config_changes (before after : ModelConfig) : list string :=
  let old := flat (dump_without_name before) "" in
  let new := flat (dump_without_name after) "" in
  let value (d : dict json) k := default JNull (Dict.get k d) in
  omap (λ k, if Json.eqb (value old k) (value new k) then None
             else Some (k +:+ ": " +:+ py_str (value old k) +:+ " -> " +:+ py_str (value new k)))
    (Sort.strings (remove_dups (Dict.keys old ++ Dict.keys new))).
End text.

(** ** The diff *)

Section diff.
Context `{Pydantic} `{DiffEnv}.

(** Python's [==] on a model's replica-count fields. *)
Definition opt_eqb {A} (eqb : A → A → bool) (a b : option A) : bool :=
  match a, b with Some x, Some y => eqb x y | None, None => true | _, _ => false end.
Definition autoscaling_eqb (a b : AutoscalingConfig) : bool :=
  (min_replicas a =? min_replicas b) && (max_replicas a =? max_replicas b)
  && opt_eqb Z.eqb (initial_replicas a) (initial_replicas b)
  && opt_eqb Qeq_bool (target_ongoing_requests a) (target_ongoing_requests b)
  && opt_eqb Qeq_bool (upscale_delay_s a) (upscale_delay_s b)
  && opt_eqb Qeq_bool (downscale_delay_s a) (downscale_delay_s b).
Definition config_scaling_eqb (a b : Z * option AutoscalingConfig) : bool :=
  (a.1 =? b.1) && opt_eqb autoscaling_eqb a.2 b.2.

(** [_deployed]: model name -> its app and replica-count fields. *)
Definition deployed (models : list json) (gateway_name : string)
    : res (dict (string * (Z * option AutoscalingConfig))) :=
  configs ← res_mapM model_validate models;
  mret (Dict.of_list ((λ c, (name c, (deployment_name gateway_name c, scaling c))) <$> configs)).

Definition deployed_eqb (a b : dict (string * (Z * option AutoscalingConfig))) : bool :=
  (length a =? length b)%nat &&
  forallb (λ kv, if Dict.get kv.1 b is Some (app, sc)
                 then bool_decide (kv.2.1 = app) && config_scaling_eqb kv.2.2 sc else false) a.

(** [_decide]: adds one wanted model's action. *)
Definition decide_model (request : DeployRequest) (apps : dict ServeApp) (current : dict ModelConfig)
    (diff : Diff) (config : ModelConfig) : res Diff :=
  let model := name config in
  let app := deployment_name (diff_gateway diff) config in
  let want := serve_scaling config in
  match Dict.get model current with
  | None =>
      mret (add_step step_deploy ("add " +:+ model) (add_deploy config (add_action model Add diff)))
  | Some before =>
      let old_app := deployment_name (diff_gateway diff) before in
      if decide (old_app = app) then
        match Dict.get app apps with
        | Some held =>
            if not_live (status held) then
              mret (add_step step_deploy
                ("redeploy " +:+ model +:+ " (" +:+ status_value (status held) +:+ " in Serve)")
                (add_deploy config (add_action model Redeploy diff)))
            else if opt_eqb scaling_eqb (app_scaling held) (Some want) then
              mret (add_action model Keep diff)
            else
              let up := match app_scaling held with None => true | Some s => rises s want end in
              let r := mkRescale model app (scaling config) in
              let note := if config_scaling_eqb (scaling before) (scaling config)
                          then " (Serve differs from the committed version)" else "" in
              let text := "rescale " +:+ model +:+ ": "
                            +:+ scaling_changes (app_scaling held) want +:+ note in
              let diff := add_action model Rescale_ diff in
              mret (if (up : bool) then add_step step_scale_up text (add_scale_up r diff)
                    else add_step step_scale_down text (add_scale_down r diff))
        | None =>
            mret (add_step step_deploy ("redeploy " +:+ model +:+ " (missing from Serve)")
              (add_deploy config (add_action model Redeploy diff)))
        end
      else
        let diff := add_step step_deploy
          ("replace " +:+ model +:+ ": " +:+ Str.join ", " (config_changes before config))
          (add_retired old_app (add_deploy config (add_action model Replace diff))) in
        match Dict.get old_app apps with
        | Some old =>
            if bool_decide (strategy request = blue_green) && shrinks old want then
              match app_scaling old with
              | None => Err AssertionError
              | Some s =>
                  mret (add_step step_scale_down
                    ("rescale " +:+ model +:+ "'s replaced app: " +:+ scaling_changes (Some s) want)
                    (add_scale_down (mkRescale model old_app (scaling config)) diff))
              end
            else mret diff
        | None => mret diff
        end
  end.

(** A committed model the reconcile request leaves out. *)
Definition remove_model (request : DeployRequest) (current : dict ModelConfig) (diff : Diff)
    (n : string) : Diff :=
  match Dict.get n current with
  | None => diff
  | Some c =>
      add_step (if decide (strategy request = stop_start) then step_stop else step_retire)
        ("remove " +:+ n)
        (add_retired (deployment_name (diff_gateway diff) c) (add_action n Remove diff))
  end.

(** The committed models by name: [{c.name: c for c in to_config(committed).models}]. *)
Definition current_of (committed : option (list json)) : res (dict ModelConfig) :=
  match committed with
  | Some ((_ :: _) as models) =>
      configs ← validate_models models;
      mret (Dict.of_list ((λ c, (name c, c)) <$> configs))
  | _ => Ok []
  end.

(** The request's models and the version it would commit, when it sends models. *)
Definition proposal (request : DeployRequest) (committed : option (list json))
    : res (option (list ModelConfig * list json * bool)) :=
  match req_mode request, req_models request with
  | mode m, Some models =>
      wanted ← validate_models models;
      proposed ← merge (default [] committed) models (gateway request) m;
      commits ← (match committed with
                 | None => Ok true
                 | Some old =>
                     new ← deployed proposed (gateway request);
                     was ← deployed old (gateway request);
                     mret (negb (deployed_eqb new was))
                 end);
      mret (Some (wanted, proposed, commits))
  | _, _ => Ok None
  end.

Definition build_diff (request : DeployRequest) (committed : option (list json))
    (apps : dict ServeApp) : res Diff :=
  current ← current_of committed;
  let gw := gateway request in
  let named := deployment_name gw <$> Dict.values current in
  let lo := Sort.strings (filter (λ n, n ∉ named) (Dict.keys (gateway_apps apps gw))) in
  let diff := set_leftovers lo (empty_diff gw committed) in
  let diff := if lo is [] then diff
              else add_step step_leftovers ("delete leftover apps: " +:+ Str.join ", " lo) diff in
  prop ← proposal request committed;
  let wanted := if prop is Some (w, _, _) then w else Dict.values current in
  let diff := match prop with
              | Some (_, proposed, true) =>
                  add_step step_commit "switch the gateway and commit" (set_commits (Some proposed) true diff)
              | _ => diff
              end in
  diff ← res_foldM (decide_model request apps current) diff wanted;
  let names := name <$> wanted in
  let others := Sort.strings (filter (λ n, n ∉ names) (Dict.keys current)) in
  let diff :=
    if decide (req_mode request = mode reconcile)
    then foldl (remove_model request current) diff others
    else if others is [] then diff
    else add_step 0 ("keep, not in the request: " +:+ Str.join ", " others) diff in
  let kept := Sort.strings ((filter (λ kv, kv.2 = Keep) (actions diff)).*1) in
  let diff := if kept is [] then diff
              else add_step 0 ("keep: " +:+ Str.join ", " kept) diff in
  mret (sort_retired diff).
End diff.

(** ** Lemmas *)

Module DiffFacts.
Section facts.
Context `{Pydantic} `{DiffEnv}.

Lemma res_foldM_ok_cons {A B} (f : A → B → res A) acc x l r :
  res_foldM f acc (x :: l) = Ok r ↔ ∃ acc', f acc x = Ok acc' ∧ res_foldM f acc' l = Ok r.
Proof. simpl. by rewrite res_bind_ok. Qed.

(** An invariant of a fold. *)
Lemma res_foldM_inv {A B} (P : A → Prop) (f : A → B → res A) acc l r :
  (∀ acc x acc', x ∈ l → P acc → f acc x = Ok acc' → P acc') →
  P acc → res_foldM f acc l = Ok r → P r.
Proof.
  revert acc. induction l as [|x l IH]; intros acc Hf Hacc; [by intros [= <-]|].
  intros (acc' & Hx & Hl)%res_foldM_ok_cons. eapply IH; [|by eapply Hf; [constructor|..]|done].
  intros. eapply Hf; [by constructor|..]; done.
Qed.

(** The app a wanted model's own replacement retires. *)
Definition replaced_apps (gw : string) (current : dict ModelConfig) (c : ModelConfig) : list string :=
  match Dict.get (name c) current with
  | Some before =>
      if decide (deployment_name gw before = deployment_name gw c) then []
      else [deployment_name gw before]
  | None => []
  end.

(** A rescale of a live app that Serve runs at other replica counts than the wanted model's,
    and that raises a limit, or raises none. *)
Definition rescale_sound (apps : dict ServeApp) (up : bool) (c : ModelConfig) (r : Rescale) : Prop :=
  rs_model r = name c ∧ rs_scaling r = scaling c ∧
  ∃ held, Dict.get (rs_app r) apps = Some held ∧ not_live (status held) = false ∧
    match app_scaling held with
    | Some s => rises s (serve_scaling c) = up
    | None => up = true
    end.

(** What one decision adds to the diff. *)
Lemma decide_model_adds request apps current d c d' :
  decide_model request apps current d c = Ok d' →
  diff_gateway d' = diff_gateway d ∧ diff_models d' = diff_models d ∧ commits d' = commits d ∧
  leftovers d' = leftovers d ∧
  retired d' = retired d ++ replaced_apps (diff_gateway d) current c ∧
  (∃ a, actions d' = Dict.set (name c) a (actions d) ∧
     deploys d' = deploys d ++ (if decide (a = Add ∨ a = Replace ∨ a = Redeploy) then [c] else [])).
Proof.
  unfold decide_model, replaced_apps. destruct d as [g ac l sd dp su r mo co st]; simpl.
  destruct (Dict.get (name c) current) as [b|].
  2: { intros [= <-]; simpl. rewrite app_nil_r. split_and!; try done. exists Add. done. }
  case_decide.
  - rewrite app_nil_r. destruct (Dict.get (deployment_name g c) apps) as [held|].
    + destruct (not_live (status held)).
      { intros [= <-]; simpl. split_and!; try done. by exists Redeploy. }
      destruct (opt_eqb _ _ _).
      { intros [= <-]; simpl. split_and!; try done. exists Keep. by rewrite app_nil_r. }
      set (up := match app_scaling held with None => true | Some s => rises s (serve_scaling c) end).
      destruct up; intros [= <-]; simpl; split_and!; try done; exists Rescale_; by rewrite app_nil_r.
    + intros [= <-]; simpl. split_and!; try done. by exists Redeploy.
  - assert (∀ x : res Diff, x = Ok d' → x = Ok d') as _ by done.
    destruct (Dict.get (deployment_name g b) apps) as [old|].
    2: { intros [= <-]; simpl. split_and!; try done. by exists Replace. }
    destruct (bool_decide _ && shrinks _ _).
    2: { intros [= <-]; simpl. split_and!; try done. by exists Replace. }
    destruct (app_scaling old); intros [= <-]; simpl. split_and!; try done. by exists Replace.
Qed.

Lemma decide_fold_adds request apps current d l d' :
  res_foldM (decide_model request apps current) d l = Ok d' →
  diff_gateway d' = diff_gateway d ∧ diff_models d' = diff_models d ∧ commits d' = commits d ∧
  leftovers d' = leftovers d ∧
  retired d' = retired d ++ (l ≫= replaced_apps (diff_gateway d) current).
Proof.
  revert d. induction l as [|c l IH]; intros d.
  { intros [= <-]. simpl. by rewrite app_nil_r. }
  intros (d1 & Hc & Hl)%res_foldM_ok_cons.
  apply decide_model_adds in Hc as (Hg & Hm & Hco & Hlo & Hr & _).
  destruct (IH _ Hl) as (-> & -> & -> & -> & ->). rewrite Hr, Hg, <-app_assoc. done.
Qed.

Lemma remove_model_adds request current d n :
  let d' := remove_model request current d n in
  diff_gateway d' = diff_gateway d ∧ diff_models d' = diff_models d ∧ commits d' = commits d ∧
  leftovers d' = leftovers d ∧ deploys d' = deploys d ∧
  scale_downs d' = scale_downs d ∧ scale_ups d' = scale_ups d ∧
  retired d' = retired d ++
    (if Dict.get n current is Some c then [deployment_name (diff_gateway d) c] else []).
Proof.
  unfold remove_model. destruct (Dict.get n current), d; simpl; by rewrite ?app_nil_r.
Qed.

Lemma remove_fold_adds request current d l :
  let d' := foldl (remove_model request current) d l in
  diff_gateway d' = diff_gateway d ∧ diff_models d' = diff_models d ∧ commits d' = commits d ∧
  leftovers d' = leftovers d ∧
  retired d' = retired d ++
    (l ≫= λ n, if Dict.get n current is Some c then [deployment_name (diff_gateway d) c] else []).
Proof.
  simpl. revert d. induction l as [|n l IH]; intros d; simpl; [by rewrite app_nil_r|].
  destruct (remove_model_adds request current d n) as (Hg & Hm & Hc & Hl & _ & _ & _ & Hr).
  destruct (IH (remove_model request current d n)) as (-> & -> & -> & -> & ->).
  rewrite Hg, Hm, Hc, Hl, Hr, <-app_assoc. done.
Qed.

(** The committed models, by name. *)
Lemma current_of_ok committed current :
  current_of committed = Ok current →
  ∃ configs, validate_models (default [] committed) = Ok configs ∧
    Dict.values current = configs ∧
    ∀ n c, Dict.get n current = Some c ↔ c ∈ configs ∧ name c = n.
Proof.
  unfold current_of. intros Hc. destruct committed as [[|raw raws]|].
  1,3: injection Hc as <-; exists []; split_and!; [done|done|]; simpl; set_solver.
  apply res_bind_ok in Hc as (configs & Hv & [= <-]). exists configs. split; [done|].
  apply LedgerFacts.validate_models_ok in Hv as [_ Hnd].
  assert (Dict.keys ((λ c, (name c, c)) <$> configs) = name <$> configs) as Hk.
  { unfold Dict.keys. by rewrite <-list_fmap_compose. }
  rewrite Dict.of_list_NoDup by (by rewrite Hk). split.
  - unfold Dict.values. rewrite <-list_fmap_compose. apply list_fmap_id.
  - intros n c. rewrite <-Dict.elem_get_iff by (by rewrite Hk).
    rewrite list_elem_of_fmap. naive_solver.
Qed.

(** What the built diff holds, in terms of the request's models. *)
Lemma build_diff_parts request committed apps d :
  build_diff request committed apps = Ok d →
  ∃ current prop, current_of committed = Ok current ∧ proposal request committed = Ok prop ∧
    let gw := gateway request in
    let wanted := if prop is Some (w, _, _) then w else Dict.values current in
    let others := filter (λ n, n ∉ name <$> wanted) (Dict.keys current) in
    leftovers d = Sort.strings (filter (λ n, n ∉ deployment_name gw <$> Dict.values current)
                    (Dict.keys (gateway_apps apps gw))) ∧
    diff_models d = (if prop is Some (_, proposed, true) then Some proposed else committed) ∧
    commits d = (if prop is Some (_, _, true) then true else false) ∧
    retired d ≡ₚ (wanted ≫= replaced_apps gw current) ++
      (if decide (req_mode request = mode reconcile)
       then others ≫= λ n, if Dict.get n current is Some c then [deployment_name gw c] else []
       else []).
Proof.
  unfold build_diff. intros H1. apply res_bind_ok in H1 as (current & Hcur & H1).
  apply res_bind_ok in H1 as (prop & Hprop & H1). apply res_bind_ok in H1 as (d1 & Hfold & H1).
  exists current, prop. split; [done|]. split; [done|]. cbv zeta.
  apply decide_fold_adds in Hfold as (Hg & Hm & Hc & Hl & Hr).
  set (wanted := if prop is Some (w, _, _) then w else Dict.values current) in *.
  match type of Hg with _ = diff_gateway ?x => set (d0 := x) in * end.
  assert (diff_gateway d0 = gateway request ∧ retired d0 = [] ∧
    leftovers d0 = Sort.strings (filter (λ n, n ∉ deployment_name (gateway request) <$> Dict.values current)
                    (Dict.keys (gateway_apps apps (gateway request)))) ∧
    diff_models d0 = (if prop is Some (_, proposed, true) then Some proposed else committed) ∧
    commits d0 = (if prop is Some (_, _, true) then true else false)) as (Hg0 & Hr0 & Hl0 & Hm0 & Hc0).
  { unfold d0. clear. set (lo := Sort.strings _).
    by destruct lo, prop as [[[w p] []]|]; simpl. }
  clearbody d0 wanted. revert H1.
  set (others := filter (λ n, n ∉ name <$> wanted) _).
  set (d2 := if decide (req_mode request = mode reconcile) then _ else _).
  assert (diff_models d2 = diff_models d1 ∧ commits d2 = commits d1 ∧ leftovers d2 = leftovers d1 ∧
    retired d2 ≡ₚ retired d1 ++ (if decide (req_mode request = mode reconcile)
       then others ≫= λ n, if Dict.get n current is Some c
              then [deployment_name (gateway request) c] else [] else []))
    as (Hm2 & Hc2 & Hl2 & Hr2).
  { unfold d2. case_decide.
    - pose proof (remove_fold_adds request current d1 (Sort.strings others)) as (_ & -> & -> & -> & ->).
      rewrite Hg, Hg0. split_and!; [done..|]. f_equiv. apply bind_Permutation.
      apply Sort.sort_perm.
    - rewrite app_nil_r. destruct (Sort.strings others), d1; done. }
  clearbody d2. intros [= <-]. set (kept := Sort.strings _).
  set (d3 := if kept is [] then d2 else _).
  assert (diff_models d3 = diff_models d2 ∧ commits d3 = commits d2 ∧ leftovers d3 = leftovers d2
    ∧ retired d3 = retired d2) as (Hm3 & Hc3 & Hl3 & Hr3).
  { unfold d3. by destruct kept, d2. }
  clearbody d3. split_and!.
  - destruct d3; simpl in *. congruence.
  - destruct d3; simpl in *. congruence.
  - destruct d3; simpl in *. congruence.
  - assert (retired (sort_retired d3) ≡ₚ retired d3) as -> by (destruct d3; apply Sort.sort_perm).
    by rewrite Hr3, Hr2, Hr, Hg0, Hr0.
Qed.

Lemma proposal_ok request committed wanted proposed co :
  proposal request committed = Ok (Some (wanted, proposed, co)) →
  ∃ m models, req_mode request = mode m ∧ req_models request = Some models ∧
    validate_models models = Ok wanted ∧
    merge (default [] committed) models (gateway request) m = Ok proposed ∧
    (co = false → ∃ old new was, committed = Some old ∧
       deployed proposed (gateway request) = Ok new ∧ deployed old (gateway request) = Ok was ∧
       deployed_eqb new was = true).
Proof.
  unfold proposal. destruct (req_mode request) as [m|]; [|done].
  destruct (req_models request) as [models|]; [|done]. intros H1.
  apply res_bind_ok in H1 as (w & Hw & H1). apply res_bind_ok in H1 as (p & Hp & H1).
  apply res_bind_ok in H1 as (c & Hc & [= -> -> ->]). exists m, models. split_and!; [done..|].
  intros ->. destruct committed as [old|]; [|done].
  apply res_bind_ok in Hc as (new & Hn & Hc). apply res_bind_ok in Hc as (was & Hwas & [= Hc]).
  exists old, new, was. split_and!; [done..|]. by apply negb_false_iff.
Qed.

(** A diff's [deployed] table, for models that validate. *)
Lemma deployed_ok models gw configs :
  validate_models models = Ok configs →
  ∃ t, deployed models gw = Ok t ∧ NoDup (Dict.keys t) ∧ Dict.keys t = name <$> configs ∧
    ∀ n v, Dict.get n t = Some v ↔
      ∃ c, c ∈ configs ∧ n = name c ∧ v = (deployment_name gw c, scaling c).
Proof.
  intros [Hf Hnd]%LedgerFacts.validate_models_ok. unfold deployed.
  apply res_mapM_ok in Hf. rewrite Hf. simpl. eexists. split; [done|].
  set (l := (λ c, (name c, (deployment_name gw c, scaling c))) <$> configs).
  assert (Dict.keys l = name <$> configs) as Hk.
  { unfold Dict.keys, l. by rewrite <-list_fmap_compose. }
  rewrite Dict.of_list_NoDup by (by rewrite Hk). rewrite Hk. split_and!; [done..|].
  intros n v. rewrite <-Dict.elem_get_iff by (by rewrite Hk).
  unfold l. rewrite list_elem_of_fmap. naive_solver.
Qed.

Lemma deployed_eqb_get a b n v :
  deployed_eqb a b = true → NoDup (Dict.keys a) → Dict.get n a = Some v →
  ∃ sc, Dict.get n b = Some (v.1, sc) ∧ config_scaling_eqb v.2 sc = true.
Proof.
  intros [_ Hall]%andb_true_iff Hnd Hg. apply Dict.get_Some_elem in Hg.
  rewrite forallb_forall in Hall. specialize (Hall (n, v)). simpl in Hall.
  rewrite <-list_elem_of_In in Hall. specialize (Hall Hg).
  destruct (Dict.get n b) as [[app sc]|]; [|done].
  apply andb_true_iff in Hall as [->%bool_decide_eq_true ?]. eauto.
Qed.

(** Two tables that are equal have the same names. *)
Lemma deployed_eqb_keys a b n :
  deployed_eqb a b = true → NoDup (Dict.keys a) → NoDup (Dict.keys b) →
  n ∈ Dict.keys b → n ∈ Dict.keys a.
Proof.
  intros Heq Ha Hb Hn.
  assert (Dict.keys a ⊆ Dict.keys b) as Hsub.
  { intros k [v Hv]%Dict.get_is_Some. destruct (deployed_eqb_get a b k v) as (sc & ? & _); [done..|].
    apply Dict.get_is_Some. eauto. }
  assert (length (Dict.keys a) = length (Dict.keys b)) as Hlen.
  { unfold Dict.keys. rewrite !length_fmap. by apply andb_true_iff in Heq as [?%Nat.eqb_eq _]. }
  assert (Dict.keys a ≡ₚ Dict.keys b) as ->; [|done].
  apply submseteq_length_Permutation; [by apply NoDup_submseteq|lia].
Qed.

(** Which apps a diff retires: a replaced or a removed committed model's. *)
Lemma retired_cases request committed apps d app :
  build_diff request committed apps = Ok d → app ∈ retired d →
  ∃ current prop b, current_of committed = Ok current ∧ proposal request committed = Ok prop ∧
    app = deployment_name (gateway request) b ∧
    let wanted := if prop is Some (w, _, _) then w else Dict.values current in
    (∃ c, c ∈ wanted ∧ Dict.get (name c) current = Some b ∧
          deployment_name (gateway request) b ≠ deployment_name (gateway request) c) ∨
    (req_mode request = mode reconcile ∧ (∃ n, Dict.get n current = Some b ∧ n ∉ name <$> wanted)).
Proof.
  intros Hb Happ. destruct (build_diff_parts _ _ _ _ Hb) as (current & prop & Hcur & Hprop & Hd).
  cbv zeta in Hd. destruct Hd as (_ & _ & _ & Hr). rewrite Hr in Happ.
  set (wanted := if prop is Some (w, _, _) then w else Dict.values current) in *.
  apply elem_of_app in Happ as [Happ|Happ].
  - apply list_elem_of_bind in Happ as (c & Happ & Hc). unfold replaced_apps in Happ.
    destruct (Dict.get (name c) current) as [b|] eqn:E; [|by apply elem_of_nil in Happ].
    destruct (decide (deployment_name _ b = _)) in Happ; [by apply elem_of_nil in Happ|].
    apply list_elem_of_singleton in Happ as ->. exists current, prop, b. split_and!; [done..|]. left. eauto.
  - destruct (decide (req_mode request = _)) in Happ; [|by apply elem_of_nil in Happ].
    apply list_elem_of_bind in Happ as (n & Happ & [Hn _]%list_elem_of_filter).
    destruct (Dict.get n current) as [b|] eqn:E; [|by apply elem_of_nil in Happ].
    apply list_elem_of_singleton in Happ as ->.
    exists current, prop, b. split_and!; [done..|]. right. eauto.
Qed.

(** The configs of a set that validates are those of its raw dicts, one per name. *)
Lemma config_in models configs raw c :
  validate_models models = Ok configs → raw ∈ models → model_validate raw = Ok c → c ∈ configs.
Proof.
  intros [Hf _]%LedgerFacts.validate_models_ok [i Hi]%list_elem_of_lookup Hv.
  destruct (Forall2_lookup_l _ _ _ _ _ Hf Hi) as (c' & Hc' & Hv').
  assert (c' = c) as -> by congruence. apply list_elem_of_lookup. eauto.
Qed.

Lemma config_raw models configs c :
  validate_models models = Ok configs → c ∈ configs →
  ∃ raw, raw ∈ models ∧ model_validate raw = Ok c.
Proof.
  intros [Hf _]%LedgerFacts.validate_models_ok [i Hi]%list_elem_of_lookup.
  destruct (Forall2_lookup_r _ _ _ _ _ Hf Hi) as (raw & Hr & Hv).
  exists raw. split; [|done]. apply list_elem_of_lookup. eauto.
Qed.

Lemma config_unique models configs c c' :
  validate_models models = Ok configs → c ∈ configs → c' ∈ configs → name c = name c' → c = c'.
Proof.
  intros [_ Hnd]%LedgerFacts.validate_models_ok [i Hi]%list_elem_of_lookup
    [j Hj]%list_elem_of_lookup Hn.
  assert (i = j) as ->; [|congruence]. eapply (NoDup_lookup _ _ _ (name c) Hnd).
  - by rewrite list_lookup_fmap, Hi.
  - by rewrite list_lookup_fmap, Hj, Hn.
Qed.

(** In the version a merge proposes, a model whose name the input uses is the input's. *)
Lemma proposed_named gw eff inp m out ecs wanted ocs c c' :
  digest_format → validate_models eff = Ok ecs → validate_models inp = Ok wanted →
  merge eff inp gw m = Ok out → validate_models out = Ok ocs →
  c ∈ wanted → c' ∈ ocs → name c' = name c → c' = c.
Proof.
  intros Hd He Hi Hm Ho Hc Hc' Hn.
  destruct (config_raw _ _ _ Ho Hc') as (raw & Hraw & Hv).
  assert (raw ∈ inp) as Hin.
  { destruct m.
    - destruct (LedgerFacts.merge_additive gw eff inp ecs wanted) as (out' & ? & Hm' & _ & Hout);
        [done..|]. assert (out' = out) as -> by congruence.
      apply Hout in Hraw as [?|[_ Hno]]; [done|]. exfalso.
      destruct (config_raw _ _ _ Hi Hc) as (raw' & Hraw' & Hv').
      apply (Hno raw' Hraw'). erewrite !LedgerFacts.model_name_ok by done. by rewrite Hn.
    - unfold merge in Hm. rewrite Hi in Hm. simpl in Hm. by simplify_eq. }
  eapply (config_unique inp); [done| |done|done]. by eapply config_in.
Qed.

Lemma proposed_names_reconcile gw eff inp out wanted ocs c' :
  validate_models inp = Ok wanted → merge eff inp gw reconcile = Ok out →
  validate_models out = Ok ocs → c' ∈ ocs → name c' ∈ name <$> wanted.
Proof.
  intros Hi Hm Ho Hc'. unfold merge in Hm. rewrite Hi in Hm. simpl in Hm.
  injection Hm as <-. assert (ocs = wanted) as -> by congruence. apply list_elem_of_fmap. eauto.
Qed.

Lemma merge_validates gw eff inp m out ecs wanted :
  digest_format → validate_models eff = Ok ecs → validate_models inp = Ok wanted →
  merge eff inp gw m = Ok out → ∃ ocs, validate_models out = Ok ocs.
Proof.
  intros Hd He Hi Hm. destruct m.
  - destruct (LedgerFacts.merge_additive gw eff inp ecs wanted) as (out' & ocs & Hm' & ? & _);
      [done..|]. exists ocs. congruence.
  - unfold merge in Hm. rewrite Hi in Hm. simpl in Hm. simplify_eq. eauto.
Qed.

(** The input's models are in the version a merge proposes. *)
Lemma input_proposed gw eff inp m out ecs wanted ocs c :
  digest_format → validate_models eff = Ok ecs → validate_models inp = Ok wanted →
  merge eff inp gw m = Ok out → validate_models out = Ok ocs → c ∈ wanted → c ∈ ocs.
Proof.
  intros Hd He Hi Hm Ho Hc. destruct (config_raw _ _ _ Hi Hc) as (raw & Hraw & Hv).
  apply (config_in out _ raw); [done| |done]. destruct m.
  - destruct (LedgerFacts.merge_additive gw eff inp ecs wanted) as (out' & ? & Hm' & _ & Hout);
      [done..|]. assert (out' = out) as -> by congruence. apply Hout. by left.
  - unfold merge in Hm. rewrite Hi in Hm. simpl in Hm. by injection Hm as <-.
Qed.

(** When the merge leaves every app and replica count as committed, no wanted model changes
    its app, and a reconcile request names every committed model. *)
Lemma unchanged_apps gw old models m proposed ccs wanted new was b :
  digest_format → validate_models old = Ok ccs → validate_models models = Ok wanted →
  merge old models gw m = Ok proposed → deployed proposed gw = Ok new → deployed old gw = Ok was →
  deployed_eqb new was = true → b ∈ ccs →
  (∀ c, c ∈ wanted → name b = name c → deployment_name gw b = deployment_name gw c) ∧
  (m = reconcile → name b ∈ name <$> wanted).
Proof.
  intros Hd Ho Hw Hm Hnew Hwas Heq Hb.
  destruct (merge_validates _ _ _ _ _ _ _ Hd Ho Hw Hm) as [pcs Hpcs].
  destruct (deployed_ok _ gw _ Hpcs) as (new' & Hnew' & Hndn & Hkn & Hgn).
  destruct (deployed_ok _ gw _ Ho) as (was' & Hwas' & Hndw & Hkw & Hgw).
  rewrite Hnew in Hnew'. injection Hnew' as <-. rewrite Hwas in Hwas'. injection Hwas' as <-. split.
  - intros c Hc Hn.
    assert (c ∈ pcs) as Hcp by (by apply (input_proposed gw old models m proposed ccs wanted pcs)).
    destruct (deployed_eqb_get new was (name c) (deployment_name gw c, scaling c))
      as (sc & Hgot & _); [done|done|apply Hgn; eauto|].
    apply Hgw in Hgot as (c1 & Hc1 & Hn1 & [= Hdep _]).
    assert (c1 = b) as -> by (apply (config_unique old ccs); [done..|congruence]). congruence.
  - intros ->. assert (name b ∈ Dict.keys new) as Hin.
    { apply (deployed_eqb_keys new was); [done..|]. rewrite Hkw. apply list_elem_of_fmap. eauto. }
    rewrite Hkn in Hin. apply list_elem_of_fmap in Hin as (c1 & -> & Hc1).
    by eapply proposed_names_reconcile.
Qed.

Lemma filter_nothing {A} (P : A → Prop) `{∀ x, Decision (P x)} (l : list A) :
  (∀ x, x ∈ l → ¬ P x) → filter P l = [].
Proof.
  intros Hl. destruct (filter P l) as [|x l'] eqn:E; [done|]. exfalso.
  assert (x ∈ filter P l) as [? ?]%list_elem_of_filter by (rewrite E; constructor). by eapply Hl.
Qed.

(** The four lists of changes a diff holds. *)
Definition changes (d : Diff) : list ModelConfig * list Rescale * list Rescale * list string :=
  (deploys d, scale_downs d, scale_ups d, retired d).

(** A model Serve runs as it is wanted. *)
Definition in_sync (apps : dict ServeApp) (gw : string) (c : ModelConfig) : Prop :=
  ∃ held, Dict.get (deployment_name gw c) apps = Some held ∧ not_live (status held) = false ∧
    opt_eqb scaling_eqb (app_scaling held) (Some (serve_scaling c)) = true.

Lemma decide_keep request apps current d c :
  Dict.get (name c) current = Some c → in_sync apps (diff_gateway d) c →
  decide_model request apps current d c = Ok (add_action (name c) Keep d).
Proof.
  intros Hc (held & Hh & Hl & Hs). unfold decide_model. rewrite Hc, decide_True by done.
  by rewrite Hh, Hl, Hs.
Qed.

Lemma decide_fold_keep request apps current d l :
  (∀ c, c ∈ l → Dict.get (name c) current = Some c ∧ in_sync apps (diff_gateway d) c) →
  ∃ d', res_foldM (decide_model request apps current) d l = Ok d' ∧ changes d' = changes d ∧
    leftovers d' = leftovers d ∧ commits d' = commits d ∧ diff_models d' = diff_models d.
Proof.
  revert d. induction l as [|c l IH]; intros d Hl; [by exists d|]. simpl.
  destruct (Hl c) as [Hc Hs]; [constructor|]. rewrite decide_keep by done. simpl.
  assert (diff_gateway (add_action (name c) Keep d) = diff_gateway d) as Hg by by destruct d.
  destruct (IH (add_action (name c) Keep d)) as (d' & E & Hch & Hlo & Hco & Hm).
  { intros c' Hc'. rewrite Hg. apply Hl. by constructor. }
  exists d'. rewrite E, Hch, Hlo, Hco, Hm. by destruct d.
Qed.

Lemma config_scaling_eqb_refl x : config_scaling_eqb x x = true.
Proof.
  assert (∀ q, Qeq_bool q q = true) as Hq by (intros; by apply QArith_base.Qeq_bool_iff).
  assert (∀ o, opt_eqb Qeq_bool o o = true) as Hoq by (intros [q|]; simpl; auto).
  destruct x as [n [a|]]; unfold config_scaling_eqb, opt_eqb; simpl; rewrite Z.eqb_refl; [|done].
  unfold autoscaling_eqb. rewrite !Z.eqb_refl, !Hoq. simpl. rewrite !andb_true_r.
  destruct (initial_replicas a); simpl; [apply Z.eqb_refl|done].
Qed.

Lemma deployed_eqb_intro a b :
  NoDup (Dict.keys a) → NoDup (Dict.keys b) →
  (∀ n v, Dict.get n a = Some v ↔ Dict.get n b = Some v) → deployed_eqb a b = true.
Proof.
  intros Ha Hb Hab. apply andb_true_iff. split.
  - apply Nat.eqb_eq. assert (Dict.keys a ≡ₚ Dict.keys b) as Hp.
    { apply NoDup_Permutation; [done..|]. intros n. rewrite <-!Dict.get_is_Some.
      split; intros [v Hv]; exists v; by apply Hab. }
    apply Permutation_length in Hp. unfold Dict.keys in Hp. by rewrite !length_fmap in Hp.
  - apply forallb_forall. intros [n [app sc]] Hin. apply list_elem_of_In in Hin.
    apply Dict.elem_get in Hin; [|done]. apply Hab in Hin. simpl. rewrite Hin.
    by rewrite bool_decide_true, config_scaling_eqb_refl by done.
Qed.

(** Whether a model is deployed ([dp]), or its app is left, or among the rescaled ones. *)
Definition decided (gw : string) (apps : dict ServeApp) (current : dict ModelConfig) (c : ModelConfig)
    (dp : list ModelConfig) (moved : list Rescale) : Prop :=
  let app := deployment_name gw c in
  (dp = [c] ∧ ((∃ b, Dict.get (name c) current = Some b ∧ deployment_name gw b = app) →
               ∀ held, Dict.get app apps = Some held → not_live (status held) = true))
  ∨ (dp = [] ∧ ∃ b held, Dict.get (name c) current = Some b ∧
       deployment_name gw b = app ∧ Dict.get app apps = Some held ∧
       not_live (status held) = false ∧
       (opt_eqb scaling_eqb (app_scaling held) (Some (serve_scaling c)) = false →
        mkRescale (name c) app (scaling c) ∈ moved)).

Lemma shrinks_sound apps c app old s :
  Dict.get app apps = Some old → shrinks old (serve_scaling c) = true → app_scaling old = Some s →
  rescale_sound apps false c (mkRescale (name c) app (scaling c)).
Proof.
  intros Hold Hs Hsc. unfold shrinks in Hs. destruct (not_live (status old)) eqn:Hl; [done|].
  rewrite Hsc in Hs. apply andb_true_iff in Hs as [_ Hs%negb_true_iff].
  split_and!; [done..|]. exists old. simpl. by rewrite Hsc.
Qed.

(** What one decision does with its model: deploy it, leave it or rescale its app; every
    rescale is sound. *)
Lemma decide_model_lists request apps current d c d' :
  decide_model request apps current d c = Ok d' →
  ∃ dp sd su, deploys d' = deploys d ++ dp ∧ scale_downs d' = scale_downs d ++ sd ∧
    scale_ups d' = scale_ups d ++ su ∧
    Forall (λ x, x = c) dp ∧ Forall (rescale_sound apps false c) sd ∧
    Forall (rescale_sound apps true c) su ∧
    decided (diff_gateway d) apps current c dp (sd ++ su).
Proof.
  unfold decide_model. destruct d as [g ac l sd dp su r mo co st]; simpl.
  set (app := deployment_name g c). set (rs := mkRescale (name c) app (scaling c)).
  assert (∀ dp0 sd0 su0 d', deploys d' = dp ++ dp0 → scale_downs d' = sd ++ sd0 →
    scale_ups d' = su ++ su0 → Forall (λ x, x = c) dp0 → Forall (rescale_sound apps false c) sd0 →
    Forall (rescale_sound apps true c) su0 → decided g apps current c dp0 (sd0 ++ su0) →
    ∃ dp0 sd0 su0, deploys d' = dp ++ dp0 ∧ scale_downs d' = sd ++ sd0 ∧ scale_ups d' = su ++ su0 ∧
    Forall (λ x, x = c) dp0 ∧ Forall (rescale_sound apps false c) sd0 ∧
    Forall (rescale_sound apps true c) su0 ∧ decided g apps current c dp0 (sd0 ++ su0)) as Hi
    by eauto 15.
  destruct (Dict.get (name c) current) as [b|] eqn:Hcur.
  2: { intros [= <-]. apply (Hi [c] [] []); simpl; rewrite ?app_nil_r; auto.
       left. split; [done|]. naive_solver. }
  case_decide as Happ.
  - destruct (Dict.get app apps) as [held|] eqn:Hheld.
    2: { intros [= <-]. apply (Hi [c] [] []); simpl; rewrite ?app_nil_r; auto.
         left. split; [done|]. subst app. naive_solver. }
    destruct (not_live (status held)) eqn:Hl.
    { intros [= <-]. apply (Hi [c] [] []); simpl; rewrite ?app_nil_r; auto.
      left. split; [done|]. subst app. naive_solver. }
    destruct (opt_eqb _ _ _) eqn:He.
    { intros [= <-]. apply (Hi [] [] []); simpl; rewrite ?app_nil_r; auto.
      right. split; [done|]. exists b, held. split_and!; auto. by rewrite He. }
    set (up := match app_scaling held with None => true | Some s => rises s (serve_scaling c) end).
    assert (rescale_sound apps up c rs) as Hr.
    { split_and!; [done..|]. exists held. simpl. split_and!; [done..|]. by subst up; destruct (app_scaling held). }
    destruct up; intros [= <-].
    + apply (Hi [] [] [rs]); simpl; rewrite ?app_nil_r; auto.
      right. split; [done|]. exists b, held. split_and!; auto. intros _. subst rs app. set_solver.
    + apply (Hi [] [rs] []); simpl; rewrite ?app_nil_r; auto.
      right. split; [done|]. exists b, held. split_and!; auto. intros _. subst rs app. set_solver.
  - assert (∀ moved, decided g apps current c [c] moved) as Hdec.
    { intros moved. left. split; [done|]. intros (b' & ? & ?). subst app; congruence. }
    destruct (Dict.get (deployment_name g b) apps) as [old|] eqn:Hold.
    2: { intros [= <-]. apply (Hi [c] [] []); simpl; rewrite ?app_nil_r; auto. }
    destruct (bool_decide _ && shrinks _ _) eqn:Hs.
    2: { intros [= <-]. apply (Hi [c] [] []); simpl; rewrite ?app_nil_r; auto. }
    apply andb_true_iff in Hs as [_ Hs].
    destruct (app_scaling old) as [s|] eqn:Hsc; [|done]. intros [= <-].
    apply (Hi [c] [mkRescale (name c) (deployment_name g b) (scaling c)] []); simpl;
      rewrite ?app_nil_r; auto.
    constructor; [|done]. by eapply shrinks_sound.
Qed.

Lemma decide_fold_lists request apps current d l d' :
  res_foldM (decide_model request apps current) d l = Ok d' →
  (∀ c, c ∈ deploys d' ↔ c ∈ deploys d ∨ (c ∈ l ∧
     ((∃ b, Dict.get (name c) current = Some b ∧
        deployment_name (diff_gateway d) b = deployment_name (diff_gateway d) c) →
      ∀ held, Dict.get (deployment_name (diff_gateway d) c) apps = Some held →
        not_live (status held) = true))) ∧
  (∀ r, r ∈ scale_downs d' → r ∈ scale_downs d ∨ ∃ c, c ∈ l ∧ rescale_sound apps false c r) ∧
  (∀ r, r ∈ scale_ups d' → r ∈ scale_ups d ∨ ∃ c, c ∈ l ∧ rescale_sound apps true c r) ∧
  (∀ r, r ∈ scale_downs d ++ scale_ups d → r ∈ scale_downs d' ++ scale_ups d') ∧
  (∀ c, c ∈ l → c ∈ deploys d' ∨ in_sync apps (diff_gateway d) c ∨
     mkRescale (name c) (deployment_name (diff_gateway d) c) (scaling c) ∈ scale_downs d' ++ scale_ups d').
Proof.
  revert d. induction l as [|c l IH]; intros d.
  { intros [= <-]. split_and!; set_solver. }
  intros (d1 & Hc & Hl)%res_foldM_ok_cons.
  pose proof (decide_model_adds _ _ _ _ _ _ Hc) as (Hg & _).
  apply decide_model_lists in Hc as (dp & sd & su & Hdp & Hsd & Hsu & Fdp & Fsd & Fsu & Hcase).
  destruct (IH _ Hl) as (I1 & I2 & I3 & I4 & I5). clear IH Hl. rewrite Hg in *.
  rewrite Hdp, Hsd, Hsu in *. rewrite Forall_forall in Fdp. rewrite Forall_forall in Fsd. rewrite Forall_forall in Fsu. unfold decided in Hcase.
  split_and!.
  - intros c'. rewrite I1. setoid_rewrite elem_of_app. setoid_rewrite elem_of_cons. split.
    + intros [[?|Hin]|[? ?]]; [by left| |by right; eauto]. right.
      rewrite (Fdp _ Hin) in *. split; [by left|].
      destruct Hcase as [[_ Hn]|[-> _]]; [done|by apply elem_of_nil in Hin].
    + intros [?|[[->|?] Hn]]; [by left; left| |by right]. left; right.
      destruct Hcase as [[-> _]|(_ & b & held & ? & ? & Hh & Hlive & _)]; [constructor|].
      rewrite (Hn ltac:(eauto) _ Hh) in Hlive. done.
  - intros r [[?|?]%elem_of_app|(c' & ? & ?)]%I2; [by left|right; exists c|right; exists c']; set_solver.
  - intros r [[?|?]%elem_of_app|(c' & ? & ?)]%I3; [by left|right; exists c|right; exists c']; set_solver.
  - intros r Hr. apply I4. set_solver.
  - intros c' [->|?]%elem_of_cons; [|by auto].
    destruct Hcase as [[-> _]|(-> & b & held & ? & ? & Hh & Hlive & Hsc)]; [left; apply I1; set_solver|].
    right. destruct (opt_eqb _ _ _) eqn:He; [left; exists held; done|].
    right. apply I4. specialize (Hsc eq_refl). set_solver.
Qed.

(** The diff's deploys and rescales are those its decisions made. *)
Lemma build_diff_fold request committed apps d :
  build_diff request committed apps = Ok d →
  ∃ current prop d0 d1, current_of committed = Ok current ∧ proposal request committed = Ok prop ∧
    res_foldM (decide_model request apps current) d0
      (if prop is Some (w, _, _) then w else Dict.values current) = Ok d1 ∧
    diff_gateway d0 = gateway request ∧ deploys d0 = [] ∧ scale_downs d0 = [] ∧ scale_ups d0 = [] ∧
    deploys d = deploys d1 ∧ scale_downs d = scale_downs d1 ∧ scale_ups d = scale_ups d1.
Proof.
  unfold build_diff. intros H1. apply res_bind_ok in H1 as (current & Hcur & H1).
  apply res_bind_ok in H1 as (prop & Hprop & H1). apply res_bind_ok in H1 as (d1 & Hfold & H1).
  eexists current, prop, _, d1. split_and!; [done|done|exact Hfold|..].
  1-4: clear; set (lo := Sort.strings _); by destruct lo, prop as [[[w p] []]|].
  all: revert H1; set (d2 := if decide (req_mode request = mode reconcile) then _ else _);
    set (kept := Sort.strings _); intros [= <-];
    assert (deploys d2 = deploys d1 ∧ scale_downs d2 = scale_downs d1 ∧ scale_ups d2 = scale_ups d1)
      as (E1 & E2 & E3); [|by destruct kept, d2].
  all: subst d2; clear; case_decide; [|set (l := Sort.strings _); by destruct l, d1].
  all: clear; set (l := Sort.strings _); clearbody l; revert d1.
  all: induction l as [|n l IH]; intros d1; [done|]; simpl.
  all: destruct (remove_model_adds request current d1 n) as (_ & _ & _ & _ & H5 & H6 & H7 & _).
  all: rewrite <-H5, <-H6, <-H7; apply IH.
Qed.

(** Merging a set into itself proposes the same models. *)
Lemma proposal_self request models configs m :
  digest_format → validate_models models = Ok configs →
  req_mode request = mode m → req_models request = Some models →
  ∃ proposed, proposal request (Some models) = Ok (Some (configs, proposed, false)).
Proof.
  intros Hd Hv Hm Hr. unfold proposal. rewrite Hm, Hr, Hv. simpl.
  assert (∃ out ocs, merge models models (gateway request) m = Ok out ∧ validate_models out = Ok ocs ∧
    ∀ raw, raw ∈ out ↔ raw ∈ models) as (out & ocs & Hout & Hocs & Hin).
  { destruct m.
    - destruct (LedgerFacts.merge_additive (gateway request) models models configs configs)
        as (out & ocs & ? & ? & Hin); [done..|]. exists out, ocs. split_and!; [done..|].
      intros raw. rewrite Hin. naive_solver.
    - exists models, configs. unfold merge. by rewrite Hv. }
  rewrite Hout. simpl.
  destruct (deployed_ok out (gateway request) ocs) as (a & -> & Ha & _ & Hga); [done|].
  destruct (deployed_ok models (gateway request) configs) as (b & -> & Hb & _ & Hgb); [done|].
  simpl. rewrite (deployed_eqb_intro a b); [by eexists|done..|].
  intros n v. rewrite Hga, Hgb. assert (∀ c, c ∈ ocs ↔ c ∈ configs) as Hcs; [|by setoid_rewrite Hcs].
  intros c. split; intros Hc.
  - destruct (config_raw _ _ _ Hocs Hc) as (raw & ?%Hin & ?). by eapply config_in.
  - destruct (config_raw _ _ _ Hv Hc) as (raw & ?%Hin & ?). by eapply config_in.
Qed.
End facts.
End DiffFacts.

(** ** Theorems *)

Module DiffTheorems.
Import DiffFacts.

(** C15: A deploy never retires an app of the version it leads to: no app in the diff's [retired]
    list, the apps deleted once the request has switched or stopped, is the app of a model of
    the gateway's version after the request, whatever the mode, strategy and Serve's state. *)
Theorem retired_not_in_new_version `{Pydantic} `{DiffEnv} request committed apps d configs app c :
  digest_format → build_diff request committed apps = Ok d →
  validate_models (default [] (diff_models d)) = Ok configs →
  app ∈ retired d → c ∈ configs → deployment_name (gateway request) c ≠ app.
Proof.
  intros Hd Hb Hv Happ Hc.
  destruct (retired_cases _ _ _ _ _ Hb Happ) as (current & prop & b & Hcur & Hprop & -> & Hcase).
  destruct (build_diff_parts _ _ _ _ Hb) as (current' & prop' & Hcur' & Hprop' & _ & Hdm & _).
  assert (current' = current) as -> by congruence. assert (prop' = prop) as -> by congruence.
  destruct (current_of_ok _ _ Hcur) as (ccs & Hccs & Hvals & Hget).
  intros E. assert (name c = name b) as Hn by (by eapply LedgerFacts.deployment_name_inj).
  destruct prop as [[[wanted proposed] co]|]; simpl in Hcase.
  - destruct (proposal_ok _ _ _ _ _ Hprop) as (m & models & Hmode & _ & Hw & Hm & Hco).
    destruct co.
    + rewrite Hdm in Hv. simpl in Hv. destruct Hcase as [(c0 & Hc0 & Hg & Hne)|(Hrec & n & Hg & Hno)].
      * apply Hget in Hg as [_ Hnb]. apply Hne.
        assert (c = c0) as <-; [|done].
        apply (proposed_named (gateway request) (default [] committed) models m proposed ccs wanted configs);
          [done..|congruence].
      * apply Hget in Hg as [_ <-]. apply Hno. rewrite Hrec in Hmode. simplify_eq.
        rewrite <-Hn. by eapply proposed_names_reconcile.
    + destruct Hco as (old & new & was & -> & Hnew & Hwas & Heq); [done|].
      destruct Hcase as [(c0 & Hc0 & [Hb' Hnb]%Hget & Hne)|(Hrec & n & [Hb' <-]%Hget & Hno)];
        destruct (unchanged_apps (gateway request) old models m proposed ccs wanted new was b)
          as [Hsame Hall]; try done.
      * by apply Hne, Hsame.
      * apply Hno, Hall. congruence.
  - destruct Hcase as [(c0 & Hc0 & Hg & Hne)|(Hrec & n & Hg & Hno)].
    + rewrite Hvals in Hc0. apply Hget in Hg as [Hb' Hnb]. apply Hne. f_equal.
      by eapply config_unique.
    + apply Hno. apply Hget in Hg as [Hb' <-]. rewrite Hvals. apply list_elem_of_fmap. eauto.
Qed.

(** C16: A diff leaves no wanted model behind and deploys nothing that needs no deploy: a wanted
    model is deployed exactly when it is not committed under the same app or Serve no longer runs
    that app, and any other is either run as wanted or has its own app rescaled to its counts. *)
Theorem wanted_models_handled `{Pydantic} `{DiffEnv} request committed apps d :
  build_diff request committed apps = Ok d →
  ∃ current prop, current_of committed = Ok current ∧ proposal request committed = Ok prop ∧
    let gw := gateway request in
    let wanted := if prop is Some (w, _, _) then w else Dict.values current in
    (∀ c, c ∈ deploys d ↔ c ∈ wanted ∧
       ((∃ b, Dict.get (name c) current = Some b ∧ deployment_name gw b = deployment_name gw c) →
        ∀ held, Dict.get (deployment_name gw c) apps = Some held → not_live (status held) = true)) ∧
    (∀ c, c ∈ wanted → c ∈ deploys d ∨ in_sync apps gw c ∨
       mkRescale (name c) (deployment_name gw c) (scaling c) ∈ scale_downs d ++ scale_ups d).
Proof.
  intros (current & prop & d0 & d1 & Hcur & Hprop & Hf & Hg & Hdp & Hsd & Hsu & -> & -> & ->)%build_diff_fold.
  exists current, prop. split; [done|]. split; [done|]. cbv zeta.
  apply decide_fold_lists in Hf as (I1 & _ & _ & _ & I5). rewrite Hg, Hdp in *. split; [|done].
  intros c. rewrite I1. split; [|by right]. by intros [[]%elem_of_nil|?].
Qed.

(** Rescales run in a safe order: whatever a diff rescales before the deploys raises no replica
    limit of an app Serve runs, so it only frees resources; whatever it rescales after them raises
    one (or Serve does not say what the app runs at). Each rescale carries a wanted model's counts. *)
Theorem rescales_sound `{Pydantic} `{DiffEnv} request committed apps d :
  build_diff request committed apps = Ok d →
  ∃ current prop, current_of committed = Ok current ∧ proposal request committed = Ok prop ∧
    let wanted := if prop is Some (w, _, _) then w else Dict.values current in
    (∀ r, r ∈ scale_downs d → ∃ c held s, c ∈ wanted ∧ rs_model r = name c ∧ rs_scaling r = scaling c ∧
       Dict.get (rs_app r) apps = Some held ∧ not_live (status held) = false ∧
       app_scaling held = Some s ∧
       (limits (serve_scaling c)).1 ≤ (limits s).1 ∧ (limits (serve_scaling c)).2 ≤ (limits s).2) ∧
    (∀ r, r ∈ scale_ups d → ∃ c held, c ∈ wanted ∧ rs_model r = name c ∧ rs_scaling r = scaling c ∧
       Dict.get (rs_app r) apps = Some held ∧ not_live (status held) = false ∧
       ∀ s, app_scaling held = Some s →
         (limits s).1 < (limits (serve_scaling c)).1 ∨ (limits s).2 < (limits (serve_scaling c)).2).
Proof.
  intros (current & prop & d0 & d1 & Hcur & Hprop & Hf & Hg & Hdp & Hsd & Hsu & _ & -> & ->)%build_diff_fold.
  apply decide_fold_lists in Hf as (_ & I2 & I3 & _ & _). rewrite Hsd in I2. rewrite Hsu in I3.
  exists current, prop. split; [done|]. split; [done|]. cbv zeta. split.
  - intros r [[]%elem_of_nil|(c & Hc & Hm & Hs & held & Hh & Hl & Hr)]%I2. exists c, held.
    destruct (app_scaling held) as [s|]; [|done]. exists s. split_and!; try done;
      apply orb_false_iff in Hr as [?%Z.ltb_ge ?%Z.ltb_ge]; done.
  - intros r [[]%elem_of_nil|(c & Hc & Hm & Hs & held & Hh & Hl & Hr)]%I3. exists c, held.
    split_and!; try done. intros s Hsc. rewrite Hsc in Hr.
    apply orb_true_iff in Hr as [?%Z.ltb_lt|?%Z.ltb_lt]; auto.
Qed.

(** Deploying again what is committed and running changes nothing: when Serve runs each
    committed model as wanted and no other app of the gateway, a request for the same models in
    either mode, or a bare one, builds a diff that deploys, rescales, retires, deletes and
    commits nothing. *)
Theorem in_sync_is_a_no_op `{Pydantic} `{DiffEnv} request models configs apps :
  digest_format → validate_models models = Ok configs →
  (∀ c, c ∈ configs → in_sync apps (gateway request) c) →
  (∀ app, app ∈ Dict.keys (gateway_apps apps (gateway request)) →
     app ∈ deployment_name (gateway request) <$> configs) →
  req_mode request = bare ∨ (∃ m, req_mode request = mode m ∧ req_models request = Some models) →
  ∃ d, build_diff request (Some models) apps = Ok d ∧ changes d = ([], [], [], []) ∧
    leftovers d = [] ∧ commits d = false ∧ diff_models d = Some models.
Proof.
  intros Hd Hv Hsync Happs Hreq.
  assert (∃ current, current_of (Some models) = Ok current) as [current Hcur].
  { unfold current_of. destruct models; [by eexists|]. rewrite Hv. by eexists. }
  destruct (current_of_ok _ _ Hcur) as (cs & Hcs & Hvals & Hget). simpl in Hcs.
  assert (cs = configs) as -> by congruence.
  assert (∃ prop, proposal request (Some models) = Ok prop ∧
    (if prop is Some (w, _, _) then w else Dict.values current) = configs ∧
    (if prop is Some (_, _, true) then False else True)) as (prop & Hprop & Hwanted & Hco).
  { destruct Hreq as [Hb|(m & Hm & Hr)].
    - exists None. unfold proposal. by rewrite Hb.
    - destruct (proposal_self request models configs m) as [p Hp]; [done..|]. eauto. }
  assert (Sort.strings (filter (λ n, n ∉ deployment_name (gateway request) <$> Dict.values current)
            (Dict.keys (gateway_apps apps (gateway request)))) = []) as Hlo.
  { rewrite filter_nothing; [done|]. intros app Happ. rewrite Hvals. auto. }
  assert (Sort.strings (filter (λ n, n ∉ name <$> configs) (Dict.keys current)) = []) as Hothers.
  { rewrite filter_nothing; [done|]. intros n [c Hc]%Dict.get_is_Some Hno. apply Hno.
    apply Hget in Hc as [? <-]. apply list_elem_of_fmap. eauto. }
  set (d0 := set_leftovers [] (empty_diff (gateway request) (Some models))).
  destruct (decide_fold_keep request apps current d0 configs) as (d1 & Hfold & Hch & Hl & Hc1 & Hm1).
  { intros c Hc. split; [by apply Hget|by apply Hsync]. }
  unfold build_diff. rewrite Hcur. cbn [mbind res_bind]. rewrite Hlo, Hprop. cbn [mbind res_bind].
  rewrite Hwanted, Hothers. fold d0.
  replace (match prop with Some (_, proposed, true) => _ | _ => d0 end) with d0
    by (by destruct prop as [[[? ?] []]|]).
  rewrite Hfold. cbn [mbind res_bind foldl]. eexists. split; [done|].
  set (kept := Sort.strings _).
  assert (∀ d d' : Diff, changes d = ([], [], [], []) ∧ leftovers d = [] ∧ commits d = false ∧
    diff_models d = Some models → d' = d ∨ (∃ text, d' = add_step 0 text d) →
    changes (sort_retired d') = ([], [], [], []) ∧ leftovers (sort_retired d') = [] ∧
    commits (sort_retired d') = false ∧ diff_models (sort_retired d') = Some models) as Hsteps.
  { intros d d' (Hd1 & ? & ? & ?) Hd'. destruct d; unfold changes in *; simpl in *; simplify_eq.
    by destruct Hd' as [->|[text ->]]. }
  apply (Hsteps d1); [by rewrite Hch, Hl, Hc1, Hm1|].
  destruct (decide _), kept; eauto.
Qed.

(** *** Concrete inputs *)

Import ConfigSchema.Example.

#[local] Instance example_env : DiffEnv := {
  serve_defaults d := d;
  dump_without_name _ := JObj [];
  py_repr _ := "";
}.

Definition example_request (m : RequestMode) (models : option (list json)) : DeployRequest :=
  mkRequest "gw" m blue_green models [] "r1".

(** One committed model, kept, and one that the reconcile request leaves out. *)
Definition example_app (n : string) : string := "gw." +:+ n +:+ "-0000000000".
Definition example_committed : list json := LedgerTheorems.raw_named <$> ["a"; "b"]%string.

Lemma retired_not_in_new_version_witness :
  ∃ d configs, build_diff (example_request (mode reconcile) (Some [LedgerTheorems.raw_named "a"]))
      (Some example_committed) [] = Ok d ∧
    validate_models (default [] (diff_models d)) = Ok configs ∧
    (∃ app, app ∈ retired d) ∧
    ∀ app c, app ∈ retired d → c ∈ configs → deployment_name "gw" c ≠ app.
Proof.
  eexists _, _. split; [vm_compute; reflexivity|]. split; [vm_compute; reflexivity|]. split.
  { eexists. simpl. left. }
  intros app c. eapply (retired_not_in_new_version
    (example_request (mode reconcile) (Some [LedgerTheorems.raw_named "a"])) (Some example_committed) []).
  - intros t. split; reflexivity.
  - vm_compute. reflexivity.
  - vm_compute. reflexivity.
Defined.

Definition running (n : Z) : ServeApp := mkServeApp RUNNING (Some (NumReplicas n)).

Lemma in_sync_is_a_no_op_witness :
  ∃ d, build_diff (example_request (mode reconcile) (Some example_committed)) (Some example_committed)
      [(example_app "a", running 1); (example_app "b", running 1)] = Ok d ∧
    changes d = ([], [], [], []) ∧ leftovers d = [] ∧ commits d = false ∧
    diff_models d = Some example_committed.
Proof.
  apply (in_sync_is_a_no_op _ example_committed (ok_or [] (validate_models example_committed))).
  - intros t. split; reflexivity.
  - vm_compute. reflexivity.
  - intros c [->|[->|[]%elem_of_nil]%elem_of_cons]%elem_of_cons; eexists; split_and!;
      vm_compute; reflexivity.
  - intros app [->|[->|[]%elem_of_nil]%elem_of_cons]%elem_of_cons;
      apply list_elem_of_fmap; eexists; (split; [|]); [|left| |right; left]; vm_compute; reflexivity.
  - right. exists reconcile. split; reflexivity.
Defined.

(** "a" is rescaled up, "b" redeployed, "c" added. *)
Definition grown_request : DeployRequest :=
  example_request (mode additive) (Some (LedgerTheorems.raw_named <$> ["a"; "b"; "c"]%string)).
Definition grown_apps : dict ServeApp :=
  [(example_app "a", running 0); (example_app "b", mkServeApp DEPLOY_FAILED None)].

Lemma wanted_models_handled_witness :
  ∃ d, build_diff grown_request (Some example_committed) grown_apps = Ok d ∧
    name <$> deploys d = ["b"; "c"]%string ∧
    ∃ current prop, current_of (Some example_committed) = Ok current ∧
      proposal grown_request (Some example_committed) = Ok prop.
Proof.
  eexists. split; [vm_compute; reflexivity|]. split; [vm_compute; reflexivity|].
  edestruct (wanted_models_handled grown_request (Some example_committed) grown_apps)
    as (current & prop & Hc & Hp & _); [vm_compute; reflexivity|]. eauto.
Defined.

Lemma rescales_sound_witness :
  ∃ d, build_diff grown_request (Some example_committed) grown_apps = Ok d ∧
    (rs_app <$> scale_ups d) = [example_app "a"] ∧
    ∃ current, current_of (Some example_committed) = Ok current.
Proof.
  eexists. split; [vm_compute; reflexivity|]. split; [vm_compute; reflexivity|].
  edestruct (rescales_sound grown_request (Some example_committed) grown_apps)
    as (current & prop & Hc & _); [vm_compute; reflexivity|]. eauto.
Defined.
End DiffTheorems.
