(* ===== verification/DeployQueue.v ===== *)
(** * The deploy coordinator's queues, routing versions and commits

    [src/modelship/deploy/deploy_coordinator.py], [DeployCoordinator]: one queue of requests per
    gateway, one request running per gateway, the routing version each gateway follows, and the
    commits, cancels and rollbacks that change them. The actor runs on one event loop: each
    definition below is the code between two awaits, and [exec] runs one of them, so a list of
    labels is an interleaving of the actor's calls. Node leases and replica faults, which share
    no state with these, are in [NodeLeases] and [ReplicaFaults]. *)

From S2P Require Import Prelude StateStore MemoryStore ConfigSchema Ledger Diff.
Local Open Scope Z_scope.

(** ** Data *)

(** [_Routing] *)
Record Routing : Type := mkRouting {
  seq : Z;
  (** [None]: the gateway has no committed version *)
  routing_models : option (list json);
  routing_apps : dict string;
}.

Inductive entry_state : Set :=
| Queued | Applying | Switching | Committing | Retiring | RollingBack.

#[export] Instance entry_state_eq_dec : EqDecision entry_state.
Proof. solve_decision. Defined.

Definition entry_state_value (s : entry_state) : string :=
  match s with
  | Queued => "queued" | Applying => "applying" | Switching => "switching"
  | Committing => "committing" | Retiring => "retiring" | RollingBack => "rolling_back"
  end.

(** The dict [_outcome] builds and a worker returns. *)
Record outcome : Type := mkOutcome {
  out_id : string;
  out_state : string;
  out_reason : string;
  out_models : dict string;
  out_diff : list string;
  out_version : option Z;
  out_actions : dict Z;
}.

(** [_Entry]; [done] is the future's result, [worker] whether it has been created. *)
Record Entry : Type := mkEntry {
  e_request : DeployRequest;
  done : option outcome;
  e_state : entry_state;
  cancelled : bool;
  cancel_seen : bool;
  switched : bool;
  worker : bool;
}.

Definition new_entry (request : DeployRequest) : Entry :=
  mkEntry request None Queued false false false false.

(** [_outcome] *)
Definition outcome_of (e : Entry) (state reason : string) : outcome :=
  mkOutcome (id (e_request e)) state reason [] [] None [].

Definition set_done (o : outcome) (e : Entry) : Entry :=
  mkEntry (e_request e) (Some o) (e_state e) (cancelled e) (cancel_seen e) (switched e) (worker e).
Definition set_state (st : entry_state) (e : Entry) : Entry :=
  mkEntry (e_request e) (done e) st (cancelled e) (cancel_seen e) (switched e) (worker e).
Definition set_cancelled (e : Entry) : Entry :=
  mkEntry (e_request e) (done e) (e_state e) true (cancel_seen e) (switched e) (worker e).
Definition set_cancel_seen (e : Entry) : Entry :=
  mkEntry (e_request e) (done e) (e_state e) (cancelled e) true (switched e) (worker e).
Definition set_switched (e : Entry) : Entry :=
  mkEntry (e_request e) (done e) (e_state e) (cancelled e) (cancel_seen e) true (worker e).
Definition set_worker (e : Entry) : Entry :=
  mkEntry (e_request e) (done e) (e_state e) (cancelled e) (cancel_seen e) (switched e) true.

Definition with_id (i : string) (r : DeployRequest) : DeployRequest :=
  mkRequest (gateway r) (req_mode r) (strategy r) (req_models r) (env r) i.

(** Where a gateway's [_drain] task is: before its next request (waiting for the recovery the
    first time), in [worker.run], or in the [_roll_back] after its worker died; [reset] says
    the rollback's [reset_routing] has returned. *)
Inductive drainer : Type :=
| DReady
| DApplying (i : string)
| DRollingBack (i : string) (switching : bool) (reset : bool) (why : string).

(** A call holding or waiting for a gateway's version lock, in the order it asked for it
    ([asyncio.Lock] is fair); [None] until its store call, made with the lock held, has run. *)
Inductive lock_task : Type :=
| TCommit (i : string) (models : list json) (written : option (res Version))
| TReset (rollback_of : option string) (committed : option (res (option (list json))))
| TDiff (request : DeployRequest) (committed : option (res (option (list json)))).

Inductive recovery_state : Set := RecoveryNone | RecoveryRunning | RecoveryDone.

#[export] Instance recovery_state_eq_dec : EqDecision recovery_state.
Proof. solve_decision. Defined.

(** How the rollback after a dead worker ends: its worker returns, or raises, or was never created. *)
Inductive rollback_end : Set := RbReturned | RbRaised | RbNoWorker.

#[export] Instance rollback_end_eq_dec : EqDecision rollback_end.
Proof. solve_decision. Defined.

(** [_seconds_env]: [parsed] is Python's [float(raw)], in clock ticks. *)
Definition seconds_env (parsed : string → option Z) (raw : option string) (dflt : Z) : Z :=
  let value := match raw with
               | None | Some ""%string => dflt
               | Some raw => default 0 (parsed raw)
               end in
  if value <=? 0 then dflt else value.

Definition DEFAULT_SWITCH_TIMEOUT : Z := 60 * second.
Definition DEFAULT_CANCEL_GRACE : Z := 30 * second.

(** ** State *)

(** The [_Entry] objects live in [entries], by request id; the dict, the queues and [running]
    refer to them by that id, as the code's share the objects. *)
Record t (T : Type) : Type := mk {
  store : T;
  entries : gmap string Entry;
  requests : gset string;
  queues : gmap string (list string);
  running : gmap string string;
  drainers : gmap string drainer;
  routing : gmap string Routing;
  locks : gmap string (list lock_task);
  next : Z;
  recovery : recovery_state;
  (** the [_kill_unless_seen] tasks *)
  killers : list string;
  (** [routing_versions] calls that have read a gateway's version but not yet noted it *)
  reads : list (string * option (list json));
}.

Arguments mk {T}.
Arguments store {T}. Arguments entries {T}. Arguments requests {T}. Arguments queues {T}. Arguments running {T}. Arguments drainers {T}. Arguments routing {T}. Arguments locks {T}. Arguments next {T}. Arguments recovery {T}. Arguments killers {T}. Arguments reads {T}.

Definition init {T} (st : T) (now : Z) : t T := mk st ∅ ∅ ∅ ∅ ∅ ∅ ∅ now RecoveryNone [] [].

Definition set_store {T} (x : T) (s : t T) : t T :=
  mk x (entries s) (requests s) (queues s) (running s) (drainers s) (routing s) (locks s) (next s) (recovery s) (killers s) (reads s).
Definition set_entries {T} (x : gmap string Entry) (s : t T) : t T :=
  mk (store s) x (requests s) (queues s) (running s) (drainers s) (routing s) (locks s) (next s) (recovery s) (killers s) (reads s).
Definition set_requests {T} (x : gset string) (s : t T) : t T :=
  mk (store s) (entries s) x (queues s) (running s) (drainers s) (routing s) (locks s) (next s) (recovery s) (killers s) (reads s).
Definition set_queues {T} (x : gmap string (list string)) (s : t T) : t T :=
  mk (store s) (entries s) (requests s) x (running s) (drainers s) (routing s) (locks s) (next s) (recovery s) (killers s) (reads s).
Definition set_running {T} (x : gmap string string) (s : t T) : t T :=
  mk (store s) (entries s) (requests s) (queues s) x (drainers s) (routing s) (locks s) (next s) (recovery s) (killers s) (reads s).
Definition set_drainers {T} (x : gmap string drainer) (s : t T) : t T :=
  mk (store s) (entries s) (requests s) (queues s) (running s) x (routing s) (locks s) (next s) (recovery s) (killers s) (reads s).
Definition set_routing {T} (x : gmap string Routing) (s : t T) : t T :=
  mk (store s) (entries s) (requests s) (queues s) (running s) (drainers s) x (locks s) (next s) (recovery s) (killers s) (reads s).
Definition set_locks {T} (x : gmap string (list lock_task)) (s : t T) : t T :=
  mk (store s) (entries s) (requests s) (queues s) (running s) (drainers s) (routing s) x (next s) (recovery s) (killers s) (reads s).
Definition set_next {T} (x : Z) (s : t T) : t T :=
  mk (store s) (entries s) (requests s) (queues s) (running s) (drainers s) (routing s) (locks s) x (recovery s) (killers s) (reads s).
Definition set_recovery {T} (x : recovery_state) (s : t T) : t T :=
  mk (store s) (entries s) (requests s) (queues s) (running s) (drainers s) (routing s) (locks s) (next s) x (killers s) (reads s).
Definition set_killers {T} (x : list string) (s : t T) : t T :=
  mk (store s) (entries s) (requests s) (queues s) (running s) (drainers s) (routing s) (locks s) (next s) (recovery s) x (reads s).
Definition set_reads {T} (x : list (string * option (list json))) (s : t T) : t T :=
  mk (store s) (entries s) (requests s) (queues s) (running s) (drainers s) (routing s) (locks s) (next s) (recovery s) (killers s) x.

Definition upd_entry {T} (i : string) (f : Entry → Entry) (s : t T) : t T := set_entries (alter f i (entries s)) s.
Definition queue_of {T} (gw : string) (s : t T) : list string := default [] (queues s !! gw).
Definition lock_queue {T} (gw : string) (s : t T) : list lock_task := default [] (locks s !! gw).

(** ** Helpers *)

(** The code over any implementation of the store interface. *)
Section coordinator.
Context `{Pydantic} `{StateStore T}.


(** [_routing] *)
Definition routing_of (n : Z) (models : option (list json)) (gw : string) : res Routing :=
  apps ← (if models is Some ms then apps_of ms gw else Ok []);
  mret (mkRouting n models apps).

(** [_next_seq]: [self._seq += 1] *)
Definition next_seq (s : t T) : t T * Z := (set_next (next s + 1) s, next s + 1).

(** Assigns [self._routing[gw] = _routing(self._next_seq(), models, gw)]; the seq is taken even
    when the models can't be read. *)
Definition route (gw : string) (models : option (list json)) (s : t T) : t T * res Routing :=
  let '(s, n) := next_seq s in
  match routing_of n models gw with
  | Ok r => (set_routing (<[gw := r]> (routing s)) s, Ok r)
  | Err e => (s, Err e)
  end.

(** [_running_entry] *)
Definition running_entry (i gw : string) (s : t T) : res Entry :=
  match running s !! gw with
  | Some j =>
      if decide (j = i) then
        match entries s !! i with
        | Some e => if decide (e_state e = RollingBack) then Err (ValueError "being rolled back") else Ok e
        | None => Err (KeyError i)
        end
      else Err (ValueError "not running")
  | None => Err (ValueError "not running")
  end.

(** [_committed] *)
Definition committed (gw : string) (now : Z) : store_m T (option (list json)) :=
  cp ← read_versions gw now;
  mret (version_models <$> cp.1).

(** [_start_recovery] *)
Definition start_recovery (s : t T) : t T :=
  if decide (recovery s = RecoveryNone) then set_recovery RecoveryRunning s else s.

(** ** Calls *)

(** [submit]; [fresh] is [random_uuid()[:12]]. Returns the id and what it waits behind. *)
Definition submit (fresh : string) (request : DeployRequest) (s : t T) : t T * (string * option string) :=
  let request := with_id fresh request in
  let gw := gateway request in
  let queue := queue_of gw s in
  let behind := match last queue with Some j => Some j | None => running s !! gw end in
  let s := set_entries (<[fresh := new_entry request]> (entries s)) s in
  let s := set_requests ({[fresh]} ∪ requests s) s in
  let s := set_queues (<[gw := queue ++ [fresh]]> (queues s)) s in
  let s := if drainers s !! gw is Some _ then s else set_drainers (<[gw := DReady]> (drainers s)) s in
  (s, (fresh, behind)).

(** [wait], once it returns or is cancelled: the request is collected. *)
Definition wait_over (i : string) (s : t T) : t T := set_requests (requests s ∖ {[i]}) s.

Inductive cancel_reply : Type := CancelRefused (message : string) | CancelAccepted (message : string).

(** [cancel] *)
Definition cancel (i : string) (s : t T) : t T * cancel_reply :=
  match (if decide (i ∈ requests s) then entries s !! i else None) with
  | None => (s, CancelRefused "no queued or running deploy")
  | Some e =>
      if done e then (s, CancelRefused "no queued or running deploy")
      else
        let gw := gateway (e_request e) in
        match e_state e with
        | Queued =>
            let s := set_queues (<[gw := filter (λ j, j ≠ i) (queue_of gw s)]> (queues s)) s in
            (upd_entry i (λ e, set_done (outcome_of e "cancelled" "cancelled before it started") e) s,
             CancelAccepted "cancelled")
        | Committing | Retiring => (s, CancelRefused "already committed and can't be cancelled")
        | RollingBack =>
            if cancelled e then (s, CancelAccepted "being cancelled and rolled back")
            else (s, CancelRefused "failed and is already being rolled back")
        | Applying | Switching =>
            if cancelled e then (s, CancelAccepted "being cancelled and rolled back")
            else (set_killers (i :: killers s) (upd_entry i set_cancelled s),
                  CancelAccepted "being cancelled and rolled back")
        end
  end.

(** [is_cancelled] *)
Definition is_cancelled (i : string) (s : t T) : t T * bool :=
  match (if decide (i ∈ requests s) then entries s !! i else None) with
  | None => (s, true)
  | Some e => if cancelled e then (upd_entry i set_cancel_seen s, true) else (s, false)
  end.

(** [rolling_back] *)
Definition rolling_back (i gw : string) (s : t T) : t T :=
  match running s !! gw with
  | Some j => if decide (j = i) then upd_entry i (set_state RollingBack) s else s
  | None => s
  end.

(** [switch] *)
Definition switch (i gw : string) (models : list json) (s : t T) : t T * res Z :=
  match running_entry i gw s with
  | Err e => (s, Err e)
  | Ok _ =>
      let s := upd_entry i (λ e, set_switched (set_state Switching e)) s in
      let '(s, r) := route gw (Some models) s in
      (s, r ← r; mret (seq r))
  end.

(** [commit], [reset_routing] and [_diff] up to their version lock. [commit] returns [None] for
    a cancelled request. *)
Definition lock_wait (gw : string) (task : lock_task) (s : t T) : t T :=
  set_locks (<[gw := lock_queue gw s ++ [task]]> (locks s)) s.

Definition commit_begin (i gw : string) (models : list json) (s : t T) : t T * res (option unit) :=
  match running_entry i gw s with
  | Err e => (s, Err e)
  | Ok e =>
      if cancelled e then (s, Ok None)
      else (lock_wait gw (TCommit i models None) (upd_entry i (set_state Committing) s), Ok (Some tt))
  end.

Definition reset_begin (gw : string) (rollback_of : option string) (s : t T) : t T :=
  lock_wait gw (TReset rollback_of None) s.

Definition diff_begin (request : DeployRequest) (s : t T) : t T :=
  lock_wait (gateway request) (TDiff request None) s.

(** [rollback_diff]'s request *)
Definition rollback_request (gw : string) : DeployRequest := mkRequest gw bare blue_green None [] "".

(** [diff]: the running request's *)
Definition diff_call (i gw : string) (s : t T) : t T * res unit :=
  match running_entry i gw s with
  | Err e => (s, Err e)
  | Ok e => (diff_begin (e_request e) s, Ok tt)
  end.

(** The store call of the task holding the lock, in its thread. *)
Definition lock_run (gw : string) (now : Z) (s : t T) : option (t T) :=
  match lock_queue gw s with
  | TCommit i models None :: q =>
      let '(st, r) := commit_version gw models now (store s) in
      Some (set_locks (<[gw := TCommit i models (Some r) :: q]> (locks s)) (set_store st s))
  | TReset o None :: q =>
      let '(st, r) := committed gw now (store s) in
      Some (set_locks (<[gw := TReset o (Some r) :: q]> (locks s)) (set_store st s))
  | TDiff rq None :: q =>
      let '(st, r) := committed gw now (store s) in
      Some (set_locks (<[gw := TDiff rq (Some r) :: q]> (locks s)) (set_store st s))
  | _ => None
  end.

(** The rest of [reset_routing], with the committed models. *)
Definition reset_end (gw : string) (c : option (list json)) (s : t T) : t T :=
  match routing s !! gw with
  | Some r =>
      if opt_eqb Json.eqb (JList <$> routing_models r) (JList <$> c) then s else (route gw c s).1
  | None => (route gw c s).1
  end.

(** The rollback of this gateway's dead worker learns that its [reset_routing] returned. *)
Definition note_reset (gw : string) (rollback_of : option string) (s : t T) : t T :=
  match drainers s !! gw with
  | Some (DRollingBack i sw _ why) =>
      if decide (rollback_of = Some i) then set_drainers (<[gw := DRollingBack i sw true why]> (drainers s)) s
      else s
  | _ => s
  end.

(** The task holding the lock releases it and runs to its end. *)
Definition lock_done (gw : string) (s : t T) : option (t T) :=
  match lock_queue gw s with
  | TCommit i _ (Some r) :: q =>
      let s := set_locks (<[gw := q]> (locks s)) s in
      Some (match r with Ok _ => upd_entry i (set_state Retiring) s | Err _ => s end)
  | TReset o (Some r) :: q =>
      let s := set_locks (<[gw := q]> (locks s)) s in
      Some (match r with Ok c => note_reset gw o (reset_end gw c s) | Err _ => s end)
  | TDiff _ (Some _) :: q => Some (set_locks (<[gw := q]> (locks s)) s)
  | _ => None
  end.

(** [routing_versions] for one gateway it hasn't routed yet: the read, and then
    [setdefault] with a new seq. *)
Definition routing_read (gw : string) (now : Z) (s : t T) : t T :=
  let s := start_recovery s in
  if routing s !! gw is Some _ then s
  else
    let '(st, r) := committed gw now (store s) in
    let s := set_store st s in
    match r with Ok c => set_reads ((gw, c) :: reads s) s | Err _ => s end.

Definition routing_note (gw : string) (c : option (list json)) (s : t T) : t T :=
  let '(s, n) := next_seq s in
  match routing_of n c gw with
  | Ok r => if routing s !! gw is Some _ then s else set_routing (<[gw := r]> (routing s)) s
  | Err _ => s
  end.

(** ** The drain task *)

(** A request's end: [del self._running[gw]], [entry.done.set_result(outcome)]. *)
Definition finish (gw i : string) (o : outcome) (s : t T) : t T :=
  let s := set_running (delete gw (running s)) s in
  let s := upd_entry i (set_done o) s in
  set_drainers (<[gw := DReady]> (drainers s)) s.

(** [_drain]: the next request, or the task's end; [created] is [create_worker]'s success. *)
Definition drain_next (gw : string) (created : bool) (s : t T) : t T :=
  let s := start_recovery s in
  if decide (recovery s = RecoveryDone) then
    match queue_of gw s with
    | [] => set_drainers (delete gw (drainers s)) s
    | i :: q =>
        let s := set_queues (<[gw := q]> (queues s)) s in
        let s := set_running (<[gw := i]> (running s)) s in
        let s := upd_entry i (set_state Applying) s in
        if created then set_drainers (<[gw := DApplying i]> (drainers s)) (upd_entry i set_worker s)
        else match entries s !! i with
             | Some e => finish gw i (outcome_of e "failed" "could not create the worker") s
             | None => s
             end
    end
  else s.

(** [_apply]: the worker returns an outcome, or raises. *)
Definition worker_returns (gw : string) (o : outcome) (s : t T) : option (t T) :=
  match drainers s !! gw with
  | Some (DApplying i) => Some (finish gw i o s)
  | _ => None
  end.

Definition worker_raises (gw why : string) (s : t T) : option (t T) :=
  match drainers s !! gw with
  | Some (DApplying i) =>
      e ← entries s !! i; Some (finish gw i (outcome_of e "failed" why) s)
  | _ => None
  end.

(** [_apply]'s [except RayActorError], up to its rollback *)
Definition worker_dies (gw why : string) (s : t T) : option (t T) :=
  match drainers s !! gw with
  | Some (DApplying i) =>
      e ← entries s !! i;
      let switching := switched e && negb (bool_decide (e_state e = Retiring)) in
      let s := if decide (e_state e = Committing ∨ e_state e = Retiring) then s
               else upd_entry i (set_state RollingBack) s in
      Some (set_drainers (<[gw := DRollingBack i switching false why]> (drainers s)) s)
  | _ => None
  end.

(** after the rollback: a rollback that raises is logged, one without a worker fails the request *)
Definition rollback_over (gw : string) (how : rollback_end) (s : t T) : option (t T) :=
  match drainers s !! gw with
  | Some (DRollingBack i _ reset why) =>
      e ← entries s !! i;
      match how with
      | RbReturned | RbRaised =>
          if bool_decide (how = RbReturned) && negb reset then None
          else
            let o := if decide (e_state e = Retiring) then outcome_of e "succeeded" ""
                     else if cancelled e then outcome_of e "cancelled" "cancelled"
                     else outcome_of e "failed" ("the deploy worker died: " +:+ why) in
            Some (finish gw i o s)
      | RbNoWorker => Some (finish gw i (outcome_of e "failed" "could not create the worker") s)
      end
  | _ => None
  end.

(** [_kill_unless_seen], after the grace period: whether it kills the worker. *)
Definition kills (e : Entry) : bool :=
  negb (cancel_seen e) && negb (bool_decide (e_state e = RollingBack))
    && bool_decide (done e = None) && worker e.

(** ** The calls as a transition system

    One label per call or resumed coroutine. [exec] is [None] where the label cannot happen: a
    coroutine that isn't there, or a worker's call out of the order a worker makes its calls in
    ([WorkerOrder] proves that order): one [switch], then one [commit], each waited for, and
    [rolling_back] only without a commit that returned a version. *)
Inductive label : Type :=
| LSubmit (fresh : string) (request : DeployRequest)
| LWaitOver (i : string)
| LCancel (i : string)
| LIsCancelled (i : string)
| LRollingBack (i gw : string)
| LSwitch (i gw : string) (models : list json)
| LCommit (i gw : string) (models : list json)
| LReset (gw : string) (rollback_of : option string)
| LDiff (i gw : string)
| LRollbackDiff (gw : string)
| LLockRun (gw : string) (now : Z)
| LLockDone (gw : string)
| LRoutingRead (gw : string) (now : Z)
| LRoutingNote (n : nat)
| LRecovered
| LDrain (gw : string) (created : bool)
| LWorkerReturns (gw : string) (o : outcome)
| LWorkerRaises (gw why : string)
| LWorkerDies (gw why : string)
| LRollbackOver (gw : string) (how : rollback_end)
| LKillCheck (i : string).

Definition commit_id (task : lock_task) : option string :=
  if task is TCommit i _ _ then Some i else None.
Definition commit_ids (q : list lock_task) : list string := omap commit_id q.

(** The state of request [i], when the gateway runs it. *)
Definition run_state (i gw : string) (s : t T) : option entry_state :=
  match running s !! gw with
  | Some j => if decide (j = i) then e_state <$> entries s !! i else None
  | None => None
  end.

(** A commit in flight for the request, or landed. *)
Definition committing (i gw : string) (s : t T) : bool :=
  bool_decide (i ∈ commit_ids (lock_queue gw s)) || bool_decide (run_state i gw s = Some Retiring).

Definition guard {A} (b : bool) (x : option A) : option A := if b then x else None.

Definition exec (l : label) (s : t T) : option (t T) :=
  match l with
  | LSubmit fresh rq => guard (bool_decide (entries s !! fresh = None)) (Some (submit fresh rq s).1)
  | LWaitOver i => Some (wait_over i s)
  | LCancel i => Some (cancel i s).1
  | LIsCancelled i => Some (is_cancelled i s).1
  | LRollingBack i gw => guard (negb (committing i gw s)) (Some (rolling_back i gw s))
  | LSwitch i gw ms =>
      guard (negb (bool_decide (run_state i gw s ∈ [Some Switching; Some Committing; Some Retiring])))
        (Some (switch i gw ms s).1)
  | LCommit i gw ms =>
      guard (negb (bool_decide (run_state i gw s ∈ [Some Applying; Some Committing; Some Retiring])))
        (Some (commit_begin i gw ms s).1)
  | LReset gw o =>
      guard (match o with
             | None => true
             | Some i => if drainers s !! gw is Some (DRollingBack j _ _ _) then bool_decide (j = i) else false
             end) (Some (reset_begin gw o s))
  | LDiff i gw => Some (diff_call i gw s).1
  | LRollbackDiff gw => Some (diff_begin (rollback_request gw) s)
  | LLockRun gw now => lock_run gw now s
  | LLockDone gw => lock_done gw s
  | LRoutingRead gw now => Some (routing_read gw now s)
  | LRoutingNote n =>
      if reads s !! n is Some (gw, c)
      then Some (routing_note gw c (set_reads (delete n (reads s)) s)) else None
  | LRecovered => guard (bool_decide (recovery s = RecoveryRunning)) (Some (set_recovery RecoveryDone s))
  | LDrain gw created =>
      guard (if drainers s !! gw is Some DReady then true else false) (Some (drain_next gw created s))
  | LWorkerReturns gw o =>
      guard (if running s !! gw is Some i
             then bool_decide (out_state o = "succeeded"%string) || negb (committing i gw s)
             else false) (worker_returns gw o s)
  | LWorkerRaises gw why =>
      guard (if running s !! gw is Some i then negb (committing i gw s) else false) (worker_raises gw why s)
  | LWorkerDies gw why => worker_dies gw why s
  | LRollbackOver gw how => rollback_over gw how s
  | LKillCheck i =>
      guard (bool_decide (i ∈ killers s)) (Some (set_killers (filter (λ j, j ≠ i) (killers s)) s))
  end.

(** The runs of the actor: from a fresh one, any interleaving of its calls. *)
Fixpoint exec_all (ls : list label) (s : t T) : option (t T) :=
  match ls with
  | [] => Some s
  | l :: ls => s ← exec l s; exec_all ls s
  end.
End coordinator.
