(* ===== verification/QueueInvariant.v ===== *)
(** * What holds of every run of the deploy queues

    The invariant of [DeployQueue.exec] and its consequences: one request at a time per gateway
    and in order, none lost, no commit of a cancelled request, truthful outcomes, and routing
    versions that never repeat. *)

From S2P Require Import Prelude StateStore MemoryStore ConfigSchema Ledger Diff DeployQueue.
Local Open Scope Z_scope.

(** The request a drain task is busy with. *)
Definition drainer_id (d : drainer) : option string :=
  match d with DReady => None | DApplying i | DRollingBack i _ _ _ => Some i end.

(** A request that still waits in its gateway's queue, and one that runs. *)
Definition waits (gw : string) (e : Entry) : Prop :=
  gateway (e_request e) = gw ∧ e_state e = Queued ∧ done e = None.
Definition runs (gw : string) (e : Entry) : Prop :=
  gateway (e_request e) = gw ∧ e_state e ≠ Queued ∧ done e = None.

(** The invariant, on the parts of the state it is about. *)
Record inv (E : gmap string Entry) (Q : gmap string (list string)) (R : gmap string string)
    (D : gmap string drainer) (L : gmap string (list lock_task)) : Prop := {
  inv_id i e : E !! i = Some e → id (e_request e) = i;
  inv_queue gw i : i ∈ default [] (Q !! gw) ↔ ∃ e, E !! i = Some e ∧ waits gw e;
  inv_nodup gw : NoDup (default [] (Q !! gw));
  inv_running gw i : R !! gw = Some i ↔ ∃ e, E !! i = Some e ∧ runs gw e;
  inv_drainer gw : (D !! gw ≫= drainer_id) = R !! gw;
  inv_drained gw : default [] (Q !! gw) ≠ [] → is_Some (D !! gw);
  inv_cancelled i e : E !! i = Some e → cancelled e = true →
    e_state e ≠ Queued ∧ e_state e ≠ Committing ∧ e_state e ≠ Retiring;
  inv_seen i e : E !! i = Some e → cancel_seen e = true → cancelled e = true;
  inv_commit gw i : i ∈ commit_ids (default [] (L !! gw)) →
    ∃ e, E !! i = Some e ∧ gateway (e_request e) = gw ∧ e_state e = Committing;
  inv_commit_once gw : NoDup (commit_ids (default [] (L !! gw)));
}.

Definition queue_inv {T} (s : t T) : Prop :=
  inv (entries s) (queues s) (running s) (drainers s) (locks s).

Lemma alter_Some {A} (f : A → A) i (m : gmap string A) x :
  m !! i = Some x → alter f i m = <[i := f x]> m.
Proof.
  intros Hx. apply map_eq. intros j. destruct (decide (j = i)) as [->|Hne].
  - by rewrite lookup_alter_eq, lookup_insert_eq, Hx.
  - by rewrite lookup_alter_ne, lookup_insert_ne.
Qed.

Lemma alter_None {A} (f : A → A) i (m : gmap string A) : m !! i = None → alter f i m = m.
Proof.
  intros Hx. apply map_eq. intros j. destruct (decide (j = i)) as [->|Hne].
  - by rewrite lookup_alter_eq, Hx.
  - by rewrite lookup_alter_ne.
Qed.

Lemma default_insert {A} k k' (q : list A) (m : gmap string (list A)) :
  default [] (<[k := q]> m !! k') = if decide (k' = k) then q else default [] (m !! k').
Proof. case_decide; subst; [by rewrite lookup_insert_eq|by rewrite lookup_insert_ne]. Qed.

Section ex.
Context {A : Type} (m : gmap string A) (P : A → Prop).

Lemma ex_insert i a j :
  (∃ x, <[i := a]> m !! j = Some x ∧ P x) ↔
    if decide (j = i) then P a else ∃ x, m !! j = Some x ∧ P x.
Proof.
  case_decide as Hj; subst.
  - rewrite lookup_insert_eq. naive_solver.
  - by setoid_rewrite lookup_insert_ne; [|done].
Qed.

Lemma ex_lookup i a : m !! i = Some a → (∃ x, m !! i = Some x ∧ P x) ↔ P a.
Proof. intros ->. naive_solver. Qed.

Lemma ex_None i : m !! i = None → (∃ x, m !! i = Some x ∧ P x) ↔ False.
Proof. intros ->. naive_solver. Qed.
End ex.

Section inv_steps.
Implicit Types (E : gmap string Entry) (Q : gmap string (list string)) (R : gmap string string)
  (D : gmap string drainer) (L : gmap string (list lock_task)).

Lemma inv_empty : inv ∅ ∅ ∅ ∅ ∅.
Proof. split; intros *; rewrite ?lookup_empty; simpl; try done; try constructor; set_solver. Qed.

(** An update of a running request that keeps it running. *)
Lemma inv_update E Q R D L i e e' :
  inv E Q R D L → E !! i = Some e → e_request e' = e_request e → done e' = done e →
  (e_state e = Queued ↔ e_state e' = Queued) →
  (cancelled e' = true → e_state e' ≠ Queued ∧ e_state e' ≠ Committing ∧ e_state e' ≠ Retiring) →
  (cancel_seen e' = true → cancelled e' = true) →
  (∀ gw, i ∈ commit_ids (default [] (L !! gw)) → e_state e' = Committing) →
  inv (<[i := e']> E) Q R D L.
Proof.
  intros I Hi Hr Hd Hst Hc Hs Hl. destruct I as [J1 J2 J3 J4 J5 J6 J7 J8 J9 J10].
  assert (∀ gw, waits gw e ↔ waits gw e') as Hw by (intros; unfold waits; rewrite Hr, Hd; tauto).
  assert (∀ gw, runs gw e ↔ runs gw e') as Hrun by (intros; unfold runs; rewrite Hr, Hd; tauto).
  assert (∀ (P : Entry → Prop) j, (P e ↔ P e') →
    (∃ x, <[i := e']> E !! j = Some x ∧ P x) ↔ (∃ x, E !! j = Some x ∧ P x)) as Hex.
  { intros P j HP. rewrite ex_insert. case_decide; [subst|done]. by rewrite (ex_lookup _ _ _ _ Hi). }
  split; auto.
  - intros j x [[-> <-]|[? ?]]%lookup_insert_Some; [|eauto]. rewrite Hr. eauto.
  - intros gw j. rewrite J2. symmetry. by apply Hex.
  - intros gw j. rewrite J4. symmetry. by apply Hex.
  - intros j x [[-> <-]|[? ?]]%lookup_insert_Some; eauto.
  - intros j x [[-> <-]|[? ?]]%lookup_insert_Some; eauto.
  - intros gw j Hj. destruct (J9 _ _ Hj) as (x & Hx & Hgw & Hcs).
    destruct (decide (j = i)) as [->|]; [|exists x; by rewrite lookup_insert_ne].
    exists e'. rewrite lookup_insert_eq. split; [done|]. assert (x = e) as -> by congruence.
    rewrite Hr. eauto.
Qed.

(** The lock queues: a task that isn't a commit; the next one running or leaving. *)
Lemma inv_locks E Q R D L gw q :
  inv E Q R D L → commit_ids q `sublist_of` commit_ids (default [] (L !! gw)) →
  inv E Q R D (<[gw := q]> L).
Proof.
  intros [J1 J2 J3 J4 J5 J6 J7 J8 J9 J10] Hq. split; auto.
  - intros gw' i. rewrite default_insert. case_decide as Hd; [|apply J9]. subst gw'.
    intros Hi. apply J9. by apply (elem_of_submseteq (commit_ids q)), sublist_submseteq.
  - intros gw'. rewrite default_insert. case_decide as Hd; [|apply J10].
    by apply (sublist_NoDup _ _ (J10 gw)).
Qed.

Lemma commit_ids_app q q' : commit_ids (q ++ q') = commit_ids q ++ commit_ids q'.
Proof. apply omap_app. Qed.

Lemma inv_lock_push E Q R D L gw task :
  inv E Q R D L → commit_id task = None → inv E Q R D (<[gw := default [] (L !! gw) ++ [task]]> L).
Proof.
  intros I Ht. apply inv_locks; [done|]. rewrite commit_ids_app. unfold commit_ids at 2. simpl.
  by rewrite Ht, app_nil_r.
Qed.

Lemma inv_commit_push E Q R D L i gw e ms :
  inv E Q R D L → E !! i = Some e → gateway (e_request e) = gw → e_state e = Committing →
  (∀ gw', i ∉ commit_ids (default [] (L !! gw'))) →
  inv E Q R D (<[gw := default [] (L !! gw) ++ [TCommit i ms None]]> L).
Proof.
  intros [J1 J2 J3 J4 J5 J6 J7 J8 J9 J10] Hi Hgw Hst Hno. split; auto.
  - intros gw' j. rewrite default_insert. case_decide as Hd; [|apply J9]. subst gw'.
    rewrite commit_ids_app, elem_of_app. intros [?|Hj]; [eauto|].
    apply list_elem_of_singleton in Hj as ->. eauto.
  - intros gw'. rewrite default_insert. case_decide as Hd; [|apply J10]. subst gw'.
    rewrite commit_ids_app. apply NoDup_app. split_and!; [done| |apply NoDup_singleton].
    intros j Hj ->%list_elem_of_singleton. by eapply Hno.
Qed.

(** A request comes in. *)
Lemma inv_submit E Q R D L i rq gw :
  inv E Q R D L → E !! i = None → gateway rq = gw →
  inv (<[i := new_entry (with_id i rq)]> E) (<[gw := default [] (Q !! gw) ++ [i]]> Q) R
    (if D !! gw is Some _ then D else <[gw := DReady]> D) L.
Proof.
  intros [J1 J2 J3 J4 J5 J6 J7 J8 J9 J10] Hi Hgw.
  assert (∀ gw', i ∉ default [] (Q !! gw')) as Hnq.
  { intros gw' (e & ? & _)%J2. congruence. }
  split.
  - intros j x [[-> <-]|[? ?]]%lookup_insert_Some; [done|eauto].
  - intros gw' j. rewrite default_insert.
    rewrite ex_insert. destruct (decide (j = i)) as [->|Hj].
    + split.
      * intros Hin. case_decide; [|by apply Hnq in Hin]. subst. by split_and!.
      * intros (<- & _). simpl. rewrite decide_True by done. apply elem_of_app. right. constructor.
    + rewrite <-J2. case_decide; [|done]. subst gw'.
      rewrite elem_of_app, list_elem_of_singleton. naive_solver.
  - intros gw'. rewrite default_insert. case_decide; [|done]. apply NoDup_app.
    split_and!; [done| |apply NoDup_singleton]. intros j Hj ->%list_elem_of_singleton. by eapply Hnq.
  - intros gw' j. rewrite J4, ex_insert. case_decide; [subst|done].
    rewrite ex_None by done. split; [done|]. by intros (_ & ? & _).
  - intros gw'. rewrite <-J5. destruct (D !! gw) eqn:Hd; [done|].
    destruct (decide (gw' = gw)) as [->|]; [by rewrite lookup_insert_eq, Hd|by rewrite lookup_insert_ne].
  - intros gw'. rewrite default_insert. case_decide as Hg.
    + subst gw'. intros _. destruct (D !! gw) eqn:Hd; [by rewrite Hd|]. rewrite lookup_insert_eq. eauto.
    + intros Hq. apply J6 in Hq. destruct (D !! gw) eqn:Hd; [done|]. by rewrite lookup_insert_ne.
  - intros j x [[-> <-]|[? ?]]%lookup_insert_Some; [done|eauto].
  - intros j x [[-> <-]|[? ?]]%lookup_insert_Some; [done|eauto].
  - intros gw' j Hj. destruct (J9 _ _ Hj) as (x & Hx & ?). exists x.
    rewrite lookup_insert_ne; [done|]. intros ->. congruence.
  - done.
Qed.

(** A queued request is dropped. *)
Lemma inv_drop E Q R D L i e gw o :
  inv E Q R D L → E !! i = Some e → waits gw e →
  inv (<[i := set_done o e]> E) (<[gw := filter (λ j, j ≠ i) (default [] (Q !! gw))]> Q) R D L.
Proof.
  intros [J1 J2 J3 J4 J5 J6 J7 J8 J9 J10] Hi (Hgw & Hst & Hd). split; auto.
  - intros j x [[-> <-]|[? ?]]%lookup_insert_Some; [|eauto]. simpl. eauto.
  - intros gw' j. rewrite default_insert, ex_insert. destruct (decide (j = i)) as [->|Hj].
    + split.
      * case_decide; [by intros [? _]%list_elem_of_filter|]. intros (e' & ? & (? & _))%J2. congruence.
      * by intros (_ & _ & ?).
    + rewrite <-J2. case_decide; [|done]. subst gw'.
      rewrite list_elem_of_filter. tauto.
  - intros gw'. rewrite default_insert. case_decide; [|done]. by apply NoDup_filter.
  - intros gw' j. rewrite J4, ex_insert. case_decide; [subst|done].
    rewrite (ex_lookup _ _ _ _ Hi). split; intros (_ & ? & ?); done.
  - intros gw'. rewrite default_insert. case_decide; [|apply J6]. subst gw'. intros Hq. apply J6.
    intros E0. by rewrite E0 in Hq.
  - intros j x [[-> <-]|[? ?]]%lookup_insert_Some; [simpl|]; eauto.
  - intros j x [[-> <-]|[? ?]]%lookup_insert_Some; [simpl|]; eauto.
  - intros gw' j Hj. destruct (J9 _ _ Hj) as (x & Hx & ? & ?). exists x.
    rewrite lookup_insert_ne; [done|]. intros ->. congruence.
Qed.

(** The next request of an idle drain task starts. *)
Lemma inv_start E Q R D L i e gw q w :
  inv E Q R D L → Q !! gw = Some (i :: q) → D !! gw = Some DReady → E !! i = Some e →
  inv (<[i := mkEntry (e_request e) (done e) Applying (cancelled e) (cancel_seen e) (switched e) w]> E)
    (<[gw := q]> Q) (<[gw := i]> R) (<[gw := DApplying i]> D) L.
Proof.
  intros [J1 J2 J3 J4 J5 J6 J7 J8 J9 J10] HQ HD Hi.
  assert (waits gw e) as (Hgw & Hst & Hdn).
  { destruct (proj1 (J2 gw i)) as (e' & ? & ?); [rewrite HQ; constructor|]. congruence. }
  assert (R !! gw = None) as HR by (by rewrite <-J5, HD).
  pose proof (J3 gw) as Hnd. rewrite HQ in Hnd. simpl in Hnd. apply NoDup_cons in Hnd as [Hni Hnd].
  split.
  - intros j x [[-> <-]|[? ?]]%lookup_insert_Some; [|eauto]. simpl. eauto.
  - intros gw' j. rewrite default_insert, ex_insert. destruct (decide (j = i)) as [->|Hj].
    + split.
      * case_decide; [done|]. intros (e' & ? & (? & _))%J2. congruence.
      * by intros (_ & ? & _).
    + rewrite <-J2. case_decide; [|done]. subst gw'.
      rewrite HQ. simpl. rewrite elem_of_cons. naive_solver.
  - intros gw'. rewrite default_insert. by case_decide.
  - intros gw' j. rewrite ex_insert. destruct (decide (j = i)) as [->|Hj].
    + split.
      * intros [[-> _]|[Hne Hg]]%lookup_insert_Some; [done|].
        apply J4 in Hg as (x & Hx & (_ & Hq & _)). congruence.
      * intros (<- & _). simpl. by rewrite Hgw, lookup_insert_eq.
    + rewrite <-J4.
      destruct (decide (gw' = gw)) as [->|]; [|by rewrite lookup_insert_ne].
      rewrite lookup_insert_eq, HR. naive_solver.
  - intros gw'. destruct (decide (gw' = gw)) as [->|]; [by rewrite !lookup_insert_eq|].
    by rewrite !lookup_insert_ne.
  - intros gw'. rewrite default_insert. destruct (decide (gw' = gw)) as [->|].
    + rewrite lookup_insert_eq. eauto.
    + rewrite lookup_insert_ne by done. apply J6.
  - intros j x [[-> <-]|[? ?]]%lookup_insert_Some; [|eauto]. simpl. intros _. by split_and!.
  - intros j x [[-> <-]|[? ?]]%lookup_insert_Some; [|eauto]. simpl. eauto.
  - intros gw' j Hj. destruct (J9 _ _ Hj) as (x & Hx & ? & ?). exists x.
    rewrite lookup_insert_ne; [done|]. intros ->. congruence.
  - done.
Qed.

(** A running request ends. *)
Lemma inv_finish E Q R D L i e gw o :
  inv E Q R D L → R !! gw = Some i → E !! i = Some e →
  inv (<[i := set_done o e]> E) Q (delete gw R) (<[gw := DReady]> D) L.
Proof.
  intros [J1 J2 J3 J4 J5 J6 J7 J8 J9 J10] HR Hi.
  assert (runs gw e) as (Hgw & Hst & Hdn).
  { destruct (proj1 (J4 gw i) HR) as (e' & ? & ?). congruence. }
  split; auto.
  - intros j x [[-> <-]|[? ?]]%lookup_insert_Some; [|eauto]. simpl. eauto.
  - intros gw' j. rewrite J2, ex_insert. case_decide; [subst|done].
    rewrite (ex_lookup _ _ _ _ Hi). split; intros (_ & ? & ?); done.
  - intros gw' j. destruct (decide (gw' = gw)) as [->|Hg].
    + rewrite lookup_delete_eq, ex_insert. split; [done|]. case_decide; [by intros (_ & _ & ?)|].
      intros Hx. apply J4 in Hx. congruence.
    + rewrite lookup_delete_ne by done. rewrite J4, ex_insert. case_decide; [subst|done].
      rewrite (ex_lookup _ _ _ _ Hi). split; intros (? & _); simpl in *; congruence.
  - intros gw'. destruct (decide (gw' = gw)) as [->|].
    + by rewrite lookup_insert_eq, lookup_delete_eq.
    + by rewrite lookup_insert_ne, lookup_delete_ne.
  - intros gw' Hq. destruct (decide (gw' = gw)) as [->|]; [rewrite lookup_insert_eq; eauto|].
    rewrite lookup_insert_ne by done. auto.
  - intros j x [[-> <-]|[? ?]]%lookup_insert_Some; [simpl|]; eauto.
  - intros j x [[-> <-]|[? ?]]%lookup_insert_Some; [simpl|]; eauto.
  - intros gw' j Hj. destruct (J9 _ _ Hj) as (x & Hx & ? & ?).
    destruct (decide (j = i)) as [->|]; [|exists x; by rewrite lookup_insert_ne].
    exists (set_done o e). rewrite lookup_insert_eq. by assert (x = e) as -> by congruence.
Qed.

(** A drain task changes what it does with the same request, or ends. *)
Lemma inv_drainer_to E Q R D L gw d :
  inv E Q R D L → drainer_id d = R !! gw → inv E Q R (<[gw := d]> D) L.
Proof.
  intros [J1 J2 J3 J4 J5 J6 J7 J8 J9 J10] Hd. split; auto.
  - intros gw'. destruct (decide (gw' = gw)) as [->|]; [by rewrite lookup_insert_eq|].
    by rewrite lookup_insert_ne.
  - intros gw' Hq. destruct (decide (gw' = gw)) as [->|]; [rewrite lookup_insert_eq; eauto|].
    rewrite lookup_insert_ne by done. auto.
Qed.

Lemma inv_drainer_end E Q R D L gw :
  inv E Q R D L → D !! gw = Some DReady → default [] (Q !! gw) = [] → inv E Q R (delete gw D) L.
Proof.
  intros [J1 J2 J3 J4 J5 J6 J7 J8 J9 J10] HD HQ. split; auto.
  - intros gw'. rewrite <-J5. destruct (decide (gw' = gw)) as [->|].
    + by rewrite lookup_delete_eq, HD.
    + by rewrite lookup_delete_ne.
  - intros gw' Hq. destruct (decide (gw' = gw)) as [->|]; [done|].
    rewrite lookup_delete_ne by done. auto.
Qed.
End inv_steps.

(** ** Each call keeps the invariant *)

(** One goal per path through the call a label makes. *)
Ltac step_paths :=
  simpl;
  unfold guard, submit, wait_over, cancel, is_cancelled, rolling_back, switch, commit_begin, reset_begin,
    diff_call, diff_begin, lock_wait, lock_run, lock_done, note_reset, reset_end, routing_read, routing_note,
    route, next_seq, drain_next, worker_returns, worker_raises, worker_dies, rollback_over,
    finish, upd_entry, start_recovery;
  repeat (case_match; simpl in *; simplify_eq/=); intros; simplify_eq/=;
  repeat (match goal with E : _ ≫= _ = Some _ |- _ => apply bind_Some in E as (? & ? & E) end;
          repeat (case_match; simpl in *); simplify_eq/=).

Ltac step_cases l := destruct l; step_paths.


Section steps.
Context `{Pydantic} `{StateStore T}.
Implicit Types (s : t T).

Lemma upd_entry_Some i (f : Entry → Entry) s e :
  entries s !! i = Some e → upd_entry i f s = set_entries (<[i := f e]> (entries s)) s.
Proof. intros Hi. unfold upd_entry. by rewrite (alter_Some f i _ e). Qed.

(** What [route] leaves alone. *)
Lemma route_same gw ms s :
  let s' := (route gw ms s).1 in
  store s' = store s ∧ entries s' = entries s ∧ requests s' = requests s ∧ queues s' = queues s ∧
  running s' = running s ∧ drainers s' = drainers s ∧ locks s' = locks s ∧ killers s' = killers s ∧
  reads s' = reads s ∧ recovery s' = recovery s.
Proof. unfold route, next_seq. by destruct (routing_of _ _ _). Qed.

Lemma start_recovery_same s :
  let s' := start_recovery s in
  store s' = store s ∧ entries s' = entries s ∧ requests s' = requests s ∧ queues s' = queues s ∧
  running s' = running s ∧ drainers s' = drainers s ∧ routing s' = routing s ∧ locks s' = locks s ∧
  next s' = next s ∧ killers s' = killers s ∧ reads s' = reads s.
Proof. unfold start_recovery. by case_decide. Qed.

(** The invariant of a state depends on five of its fields. *)
Lemma queue_inv_same s s' :
  entries s' = entries s → queues s' = queues s → running s' = running s →
  drainers s' = drainers s → locks s' = locks s → queue_inv s → queue_inv s'.
Proof. unfold queue_inv. by intros -> -> -> -> ->. Qed.

Lemma route_inv gw ms s : queue_inv s → queue_inv (route gw ms s).1.
Proof. by apply queue_inv_same; apply (route_same gw ms s). Qed.

Lemma start_recovery_inv s : queue_inv s → queue_inv (start_recovery s).
Proof. by apply queue_inv_same; apply (start_recovery_same s). Qed.

(** A running request, by the entry it is. *)
Lemma running_runs s gw i :
  queue_inv s → running s !! gw = Some i → ∃ e, entries s !! i = Some e ∧ runs gw e.
Proof. intros I. apply (inv_running _ _ _ _ _ I). Qed.

Lemma run_state_Some s gw i e :
  running s !! gw = Some i → entries s !! i = Some e → run_state i gw s = Some (e_state e).
Proof. intros Hr Hi. unfold run_state. by rewrite Hr, decide_True, Hi. Qed.

Lemma running_entry_ok s gw i e :
  running_entry i gw s = Ok e ↔
    running s !! gw = Some i ∧ entries s !! i = Some e ∧ e_state e ≠ RollingBack.
Proof.
  unfold running_entry. split.
  - destruct (running s !! gw) as [j|]; [|done]. case_decide; [subst|done].
    destruct (entries s !! i) as [x|]; [|done]. case_decide; [done|]. by intros [= ->].
  - intros (-> & -> & ?). by rewrite decide_True, decide_False.
Qed.

(** Commits are in flight only for the gateway that runs, or ran, the request. *)
Lemma no_commit_elsewhere s gw i e gw' :
  queue_inv s → entries s !! i = Some e → gateway (e_request e) = gw →
  i ∉ commit_ids (lock_queue gw s) → i ∉ commit_ids (default [] (locks s !! gw')).
Proof.
  intros I Hi Hgw Hno Hin. destruct (inv_commit _ _ _ _ _ I gw' i Hin) as (x & Hx & Hgw' & _).
  apply Hno. unfold lock_queue. by assert (x = e) as -> by congruence; subst.
Qed.

(** A commit in flight keeps its request's state. *)
Lemma commit_state s gw i e :
  queue_inv s → entries s !! i = Some e → i ∈ commit_ids (default [] (locks s !! gw)) →
  e_state e = Committing.
Proof. intros I Hi (x & Hx & _ & Hst)%(inv_commit _ _ _ _ _ I). congruence. Qed.

Lemma committing_false s gw i :
  committing i gw s = false →
  i ∉ commit_ids (lock_queue gw s) ∧ run_state i gw s ≠ Some Retiring.
Proof. unfold committing. by intros [?%bool_decide_eq_false ?%bool_decide_eq_false]%orb_false_iff. Qed.

Lemma submit_inv fresh rq s :
  queue_inv s → entries s !! fresh = None → queue_inv (submit fresh rq s).1.
Proof.
  intros I Hf. pose proof (inv_submit _ _ _ _ _ fresh rq (gateway rq) I Hf eq_refl) as I'.
  unfold submit, queue_inv. simpl. unfold set_queues, set_requests, set_entries. simpl.
  destruct (drainers s !! gateway rq) as [d|] eqn:Hd; simpl; rewrite ?Hd in I'; done.
Qed.

Lemma cancel_inv i s : queue_inv s → queue_inv (cancel i s).1.
Proof.
  intros I. unfold cancel. destruct (if decide (i ∈ requests s) then _ else None) as [e|] eqn:Hi; [|done].
  case_decide; [|done]. destruct (done e) eqn:Hd; [done|].
  assert (∀ st, e_state e = st → st = Applying ∨ st = Switching →
    queue_inv (set_killers (i :: killers s) (upd_entry i set_cancelled s))) as Hc.
  { intros st Hst Hcase. rewrite (upd_entry_Some _ _ _ e) by done. unfold queue_inv. simpl.
    apply (inv_update _ _ _ _ _ i e); try done; simpl; rewrite Hst.
    - intros _. destruct Hcase as [-> | ->]; by split_and!.
    - intros gw Hin. rewrite <-Hst. by eapply commit_state. }
  destruct (e_state e) eqn:Hst; simpl; try done; try (destruct (cancelled e); [done|]; by eapply Hc; eauto).
  - rewrite (upd_entry_Some _ _ _ e) by done. unfold queue_inv. simpl.
    by apply inv_drop.
  - by destruct (cancelled e).
Qed.

Lemma is_cancelled_inv i s : queue_inv s → queue_inv (is_cancelled i s).1.
Proof.
  intros I. unfold is_cancelled.
  destruct (if decide (i ∈ requests s) then _ else None) as [e|] eqn:Hi; [|done].
  case_decide; [|done]. destruct (cancelled e) eqn:Hc; [|done]. simpl.
  rewrite (upd_entry_Some _ _ _ e) by done. unfold queue_inv. simpl.
  apply (inv_update _ _ _ _ _ i e); try done; simpl.
  - intros _. by eapply (inv_cancelled _ _ _ _ _ I).
  - intros gw. by apply commit_state.
Qed.

(** The state of the running request changes, not to queued. *)
Lemma set_state_inv s gw i e (f : Entry → Entry) st :
  queue_inv s → running s !! gw = Some i → entries s !! i = Some e →
  e_request (f e) = e_request e → done (f e) = done e → cancelled (f e) = cancelled e →
  cancel_seen (f e) = cancel_seen e → e_state (f e) = st → st ≠ Queued →
  (cancelled e = true → st ≠ Committing ∧ st ≠ Retiring) →
  (i ∈ commit_ids (lock_queue gw s) → st = Committing) →
  queue_inv (upd_entry i f s).
Proof.
  intros I Hr Hi Hq Hd Hc Hs Hst Hnq Hcan Hcom.
  destruct (running_runs _ _ _ I Hr) as (x & Hx & Hgw & Hxq & Hxd).
  assert (x = e) as -> by congruence.
  rewrite (upd_entry_Some _ _ _ e) by done. unfold queue_inv. simpl.
  apply (inv_update _ _ _ _ _ i e); [done..| | | |]; rewrite ?Hst, ?Hc, ?Hs.
  - naive_solver.
  - intros Hce. split; auto.
  - by apply (inv_seen _ _ _ _ _ I i).
  - intros gw' Hin. apply Hcom. destruct (inv_commit _ _ _ _ _ I gw' i Hin) as (x & Hx' & Hgw' & _).
    assert (x = e) as -> by congruence. unfold lock_queue. congruence.
Qed.

Lemma rolling_back_inv i gw s :
  queue_inv s → committing i gw s = false → queue_inv (rolling_back i gw s).
Proof.
  intros I [Hno _]%committing_false. unfold rolling_back.
  destruct (running s !! gw) as [j|] eqn:Hr; [|done]. case_decide; [subst j|done].
  destruct (running_runs _ _ _ I Hr) as (e & Hi & _).
  apply (set_state_inv s gw i e _ RollingBack); done.
Qed.

Lemma switch_inv i gw ms s :
  queue_inv s → run_state i gw s ∉ [Some Switching; Some Committing; Some Retiring] →
  queue_inv (switch i gw ms s).1.
Proof.
  intros I Hst. unfold switch. destruct (running_entry i gw s) as [e|] eqn:Hre; [|done].
  apply running_entry_ok in Hre as (Hr & Hi & Hnr).
  rewrite (run_state_Some _ _ _ _ Hr Hi) in Hst.
  assert (queue_inv (upd_entry i (λ e, set_switched (set_state Switching e)) s)) as I'.
  { apply (set_state_inv s gw i e _ Switching); try done.
    intros Hin. rewrite (commit_state _ _ _ _ I Hi Hin) in Hst. set_solver. }
  pose proof (route_inv gw (Some ms) _ I') as Ir.
  by destruct (route gw (Some ms) _) as [s' r].
Qed.

Lemma commit_begin_inv i gw ms s :
  queue_inv s → run_state i gw s ∉ [Some Applying; Some Committing; Some Retiring] →
  queue_inv (commit_begin i gw ms s).1.
Proof.
  intros I Hst. unfold commit_begin. destruct (running_entry i gw s) as [e|] eqn:Hre; [|done].
  apply running_entry_ok in Hre as (Hr & Hi & Hnr).
  rewrite (run_state_Some _ _ _ _ Hr Hi) in Hst.
  destruct (cancelled e) eqn:Hc; [done|]. simpl.
  assert (∀ gw', i ∉ commit_ids (default [] (locks s !! gw'))) as Hno.
  { intros gw' Hin. rewrite (commit_state _ _ _ _ I Hi Hin) in Hst. set_solver. }
  destruct (running_runs _ _ _ I Hr) as (x & Hx & Hgw & _). assert (x = e) as -> by congruence.
  assert (queue_inv (upd_entry i (set_state Committing) s)) as I'.
  { apply (set_state_inv s gw i e _ Committing); try done. by rewrite Hc. }
  rewrite (upd_entry_Some _ _ _ e) in * by done.
  apply (inv_commit_push _ _ _ _ _ i gw (set_state Committing e)); [exact I'| |done..].
  simpl. by rewrite lookup_insert_eq.
Qed.

Lemma lock_wait_inv gw task s : queue_inv s → commit_id task = None → queue_inv (lock_wait gw task s).
Proof. intros I. by apply inv_lock_push. Qed.

Lemma lock_run_inv gw now s s' : queue_inv s → lock_run gw now s = Some s' → queue_inv s'.
Proof.
  intros I. unfold lock_run, lock_queue.
  destruct (default [] (locks s !! gw)) as [|[i ms [w|]|o [w|]|rq [w|]] q] eqn:Hq; try done;
    match goal with |- context [let '(st, r) := ?x in _] => destruct x as [st r] end;
    intros [= <-]; unfold queue_inv; simpl; apply inv_locks; [exact I|by rewrite Hq..|exact I|by rewrite Hq
      |exact I|by rewrite Hq].
Qed.

Lemma reset_end_inv gw c s : queue_inv s → queue_inv (reset_end gw c s).
Proof.
  intros I. unfold reset_end. destruct (routing s !! gw); [case_match; [done|]|]; by apply route_inv.
Qed.

Lemma note_reset_inv gw o s : queue_inv s → queue_inv (note_reset gw o s).
Proof.
  intros I. unfold note_reset. destruct (drainers s !! gw) as [[|i|i sw rs why]|] eqn:Hd; try done.
  case_decide; [|done]. unfold queue_inv. simpl. apply inv_drainer_to; [exact I|].
  rewrite <-(inv_drainer _ _ _ _ _ I gw). by rewrite Hd.
Qed.

Lemma lock_pop_inv gw task q s :
  queue_inv s → lock_queue gw s = task :: q → queue_inv (set_locks (<[gw := q]> (locks s)) s).
Proof.
  intros I Hq. unfold queue_inv. simpl. apply inv_locks; [exact I|]. unfold lock_queue in Hq.
  rewrite Hq. unfold commit_ids. simpl. destruct (commit_id task); [by apply sublist_cons|done].
Qed.

Lemma lock_done_inv gw s s' : queue_inv s → lock_done gw s = Some s' → queue_inv s'.
Proof.
  intros I. unfold lock_done.
  destruct (lock_queue gw s) as [|[i ms [w|]|o [w|]|rq [w|]] q] eqn:Hq; try done; intros [= <-];
    pose proof (lock_pop_inv _ _ _ _ I Hq) as I'; [|by destruct w; [apply note_reset_inv, reset_end_inv|]|done].
  destruct w; [|done].
  destruct (inv_commit _ _ _ _ _ I gw i) as (e & Hi & Hgw & Hst).
  { unfold lock_queue in Hq. rewrite Hq. constructor. }
  rewrite (upd_entry_Some _ _ _ e) by done. unfold queue_inv. simpl.
  assert (∀ gw', i ∉ commit_ids (default [] (<[gw := q]> (locks s) !! gw'))) as Hno.
  { intros gw'. rewrite default_insert. unfold lock_queue in Hq.
    pose proof (inv_commit_once _ _ _ _ _ I gw) as Hnd. rewrite Hq in Hnd.
    unfold commit_ids in Hnd. simpl in Hnd. apply NoDup_cons in Hnd as [Hni _].
    case_decide as Hg; [done|]. intros Hin. destruct (inv_commit _ _ _ _ _ I gw' i Hin) as (x & Hx & Hgw' & _).
    apply Hg. congruence. }
  apply (inv_update _ _ _ _ _ i e); [exact I'|done|done|done|..]; simpl.
  - by rewrite Hst.
  - intros Hc. by destruct (inv_cancelled _ _ _ _ _ I i e Hi Hc) as (_ & ? & _).
  - by apply (inv_seen _ _ _ _ _ I i).
  - intros gw' Hin. by apply Hno in Hin.
Qed.

Lemma finish_inv s gw i o : queue_inv s → running s !! gw = Some i → queue_inv (finish gw i o s).
Proof.
  intros I Hr. destruct (running_runs _ _ _ I Hr) as (e & Hi & _). unfold finish.
  rewrite (upd_entry_Some _ _ _ e) by done. unfold queue_inv. simpl. by eapply inv_finish.
Qed.

Lemma drain_running s gw d i :
  queue_inv s → drainers s !! gw = Some d → drainer_id d = Some i → running s !! gw = Some i.
Proof. intros I Hd Hi. by rewrite <-(inv_drainer _ _ _ _ _ I), Hd. Qed.

(** What starting a request makes of the state, before its worker is created. *)
Lemma drain_start_inv s gw i q w :
  queue_inv s → drainers s !! gw = Some DReady → queue_of gw s = i :: q →
  ∃ e, entries s !! i = Some e ∧ waits gw e ∧
    inv (<[i := mkEntry (e_request e) (done e) Applying (cancelled e) (cancel_seen e) (switched e) w]> (entries s))
      (<[gw := q]> (queues s)) (<[gw := i]> (running s)) (<[gw := DApplying i]> (drainers s)) (locks s).
Proof.
  intros I Hd Hq. assert (queues s !! gw = Some (i :: q)) as HQ.
  { unfold queue_of in Hq. destruct (queues s !! gw); simpl in Hq; [by subst|done]. }
  destruct (proj1 (inv_queue _ _ _ _ _ I gw i)) as (e & Hi & Hw).
  { rewrite HQ. constructor. }
  exists e. split; [done|]. split; [done|]. by apply inv_start.
Qed.

Lemma drain_next_inv gw created s :
  queue_inv s → drainers s !! gw = Some DReady → queue_inv (drain_next gw created s).
Proof.
  intros I0 Hd0. unfold drain_next.
  destruct (start_recovery_same s) as (_ & _ & _ & _ & _ & Hd & _).
  pose proof (start_recovery_inv s I0) as I. rewrite <-Hd in Hd0. clear Hd I0.
  revert Hd0 I. generalize (start_recovery s). clear s. intros s Hd I.
  case_decide; [|done]. destruct (queue_of gw s) as [|i q] eqn:Hq.
  { by apply inv_drainer_end. }
  destruct created.
  - destruct (drain_start_inv _ _ _ _ true I Hd Hq) as (e & Hi & _ & I').
    rewrite (upd_entry_Some i (set_state Applying) _ e) by done.
    rewrite (upd_entry_Some _ _ _ (set_state Applying e)) by (simpl; by rewrite lookup_insert_eq).
    unfold queue_inv. simpl. by rewrite insert_insert_eq.
  - destruct (drain_start_inv _ _ _ _ (worker (default (new_entry (rollback_request "")) (entries s !! i))) I Hd Hq)
      as (e & Hi & _ & I').
    rewrite (upd_entry_Some i (set_state Applying) _ e) by done. simpl.
    rewrite lookup_insert_eq. rewrite Hi in I'. simpl in I'.
    set (s1 := set_entries _ _).
    assert (queue_inv (set_drainers (<[gw := DApplying i]> (drainers s)) s1)) as I1 by exact I'.
    apply (finish_inv _ gw i (outcome_of (set_state Applying e) "failed" "could not create the worker")) in I1;
      [|by apply lookup_insert_eq].
    unfold finish in *. unfold queue_inv in *. simpl in *. by rewrite insert_insert_eq in I1.
Qed.

Lemma worker_dies_inv gw why s s' : queue_inv s → worker_dies gw why s = Some s' → queue_inv s'.
Proof.
  intros I. unfold worker_dies. destruct (drainers s !! gw) as [[|i|]|] eqn:Hd; try done.
  destruct (entries s !! i) as [e|] eqn:Hi; simpl; [|done]. intros [= <-].
  pose proof (drain_running _ _ _ _ I Hd eq_refl) as Hr. case_decide as Hst.
  - unfold queue_inv. simpl. by apply inv_drainer_to; [|by rewrite Hr].
  - assert (queue_inv (upd_entry i (set_state RollingBack) s)) as I'.
    { apply (set_state_inv s gw i e _ RollingBack); try done. intros Hin.
      exfalso. apply Hst. left. by eapply commit_state. }
    unfold queue_inv. simpl. by apply inv_drainer_to; [|by rewrite Hr].
Qed.

Lemma rollback_over_inv gw how s s' : queue_inv s → rollback_over gw how s = Some s' → queue_inv s'.
Proof.
  intros I. unfold rollback_over. destruct (drainers s !! gw) as [[| |i sw rs why]|] eqn:Hd; try done.
  destruct (entries s !! i) as [e|] eqn:Hi; simpl; [|done].
  pose proof (drain_running _ _ _ _ I Hd eq_refl) as Hr.
  destruct how; repeat case_match; intros [= <-]; by apply finish_inv.
Qed.

(** Every call keeps the invariant, so every run does. *)
Lemma exec_inv l s s' : queue_inv s → exec l s = Some s' → queue_inv s'.
Proof.
  intros I. destruct l; simpl; unfold guard; try (case_match eqn:Hg; [|done]).
  - intros [= <-]. apply submit_inv; [done|]. by apply bool_decide_eq_true in Hg.
  - by intros [= <-].
  - intros [= <-]. by apply cancel_inv.
  - intros [= <-]. by apply is_cancelled_inv.
  - intros [= <-]. apply rolling_back_inv; [done|]. by apply negb_true_iff.
  - intros [= <-]. apply switch_inv; [done|]. by apply negb_true_iff, bool_decide_eq_false in Hg.
  - intros [= <-]. apply commit_begin_inv; [done|]. by apply negb_true_iff, bool_decide_eq_false in Hg.
  - intros [= <-]. by apply lock_wait_inv.
  - intros [= <-]. unfold diff_call. destruct (running_entry i gw s); [|done]. by apply lock_wait_inv.
  - intros [= <-]. by apply lock_wait_inv.
  - by apply lock_run_inv.
  - by apply lock_done_inv.
  - intros [= <-]. unfold routing_read. pose proof (start_recovery_inv s I) as I'.
    destruct (routing (start_recovery s) !! gw); [done|].
    by destruct (committed gw now _) as [st [c|]].
  - destruct p as [gw c]. intros [= <-]. unfold routing_note, next_seq.
    destruct (routing_of _ _ _); [|done]. simpl. by destruct (routing s !! gw).
  - by intros [= <-].
  - intros [= <-]. apply drain_next_inv; [done|]. by destruct (drainers s !! gw) as [[]|].
  - unfold worker_returns. destruct (drainers s !! gw) as [[|i|]|] eqn:Hd; try done. intros [= <-].
    apply finish_inv; [done|]. by eapply drain_running.
  - unfold worker_raises. destruct (drainers s !! gw) as [[|i|]|] eqn:Hd; try done.
    destruct (entries s !! i); simpl; [|done]. intros [= <-]. apply finish_inv; [done|].
    by eapply drain_running.
  - by apply worker_dies_inv.
  - by apply rollback_over_inv.
  - by intros [= <-].
Qed.

Lemma exec_all_ind (P : t T → Prop) ls s s' :
  (∀ l s s', P s → exec l s = Some s' → P s') → P s → exec_all ls s = Some s' → P s'.
Proof.
  intros HP. revert s. induction ls as [|l ls IH]; intros s Hs; simpl; [by intros [= <-]|].
  destruct (exec l s) as [s1|] eqn:E; simpl; [|done]. eauto.
Qed.

Lemma exec_all_app ls ls' s s' :
  exec_all (ls ++ ls') s = Some s' ↔ ∃ s1, exec_all ls s = Some s1 ∧ exec_all ls' s1 = Some s'.
Proof.
  revert s. induction ls as [|l ls IH]; intros s; simpl; [naive_solver|].
  destruct (exec l s); simpl; [apply IH|naive_solver].
Qed.

Lemma init_inv (st : T) now : queue_inv (init st now).
Proof. apply inv_empty. Qed.

Lemma reachable_inv ls st now s : exec_all ls (init st now) = Some s → queue_inv s.
Proof. apply (exec_all_ind queue_inv); [apply exec_inv|apply init_inv]. Qed.
End steps.

(** ** Truthful outcomes

    When every rollback after a dead worker runs to its end, a request reported as not succeeded
    has no commit in flight and never gets one. *)

(** A lock task without what its store call returned. *)
Inductive shape : Type := SCommit (i : string) | SReset (o : option string) | SDiff.

Definition shape_of (task : lock_task) : shape :=
  match task with TCommit i _ _ => SCommit i | TReset o _ => SReset o | TDiff _ _ => SDiff end.

Notation shapes L gw := (shape_of <$> default [] (L !! gw)).

Record settled (E : gmap string Entry) (D : gmap string drainer)
    (L : gmap string (list lock_task)) : Prop := {
  st_state gw i sw rs why : D !! gw = Some (DRollingBack i sw rs why) →
    ∃ e, E !! i = Some e ∧ e_state e ≠ Queued ∧ e_state e ≠ Applying ∧ e_state e ≠ Switching;
  st_reset gw i sw why : D !! gw = Some (DRollingBack i sw true why) → SCommit i ∉ shapes L gw;
  st_order gw i sw rs why q1 q2 : D !! gw = Some (DRollingBack i sw rs why) →
    shapes L gw = q1 ++ SReset (Some i) :: q2 → SCommit i ∉ q2;
  st_asked gw i : SReset (Some i) ∈ shapes L gw →
    (∃ sw rs why, D !! gw = Some (DRollingBack i sw rs why)) ∨ (∃ e, E !! i = Some e ∧ done e ≠ None);
  st_done i e o : E !! i = Some e → done e = Some o → out_state o ≠ "succeeded"%string →
    e_state e ≠ Retiring ∧ ∀ gw, SCommit i ∉ shapes L gw;
}.

Definition settled_inv {T} (s : t T) : Prop := settled (entries s) (drainers s) (locks s).

Lemma shape_commit i q : SCommit i ∈ shape_of <$> q ↔ i ∈ commit_ids q.
Proof.
  unfold commit_ids. rewrite list_elem_of_fmap, list_elem_of_omap. split.
  - intros ([j ms w| |] & [= <-] & ?). by exists (TCommit i ms w).
  - intros ([j ms w| |] & ? & [= <-]). by exists (TCommit j ms w).
Qed.

Section settled_steps.
Implicit Types (E : gmap string Entry) (D : gmap string drainer) (L : gmap string (list lock_task)).

Lemma settled_empty : settled ∅ ∅ ∅.
Proof. split; intros *; rewrite ?lookup_empty; simpl; try done. intros []%elem_of_nil. Qed.

Lemma settled_update E D L i e e' :
  settled E D L → E !! i = Some e → done e' = done e →
  (∀ gw sw rs why, D !! gw = Some (DRollingBack i sw rs why) →
     e_state e' ≠ Queued ∧ e_state e' ≠ Applying ∧ e_state e' ≠ Switching) →
  (∀ o, done e = Some o → out_state o ≠ "succeeded"%string → e_state e' ≠ Retiring) →
  settled (<[i := e']> E) D L.
Proof.
  intros [J1 J2 J3 J4 J5] Hi Hd Hst Hret. split; auto.
  - intros gw j sw rs why Hg. rewrite ex_insert. case_decide; [subst; by eapply Hst|by eapply J1].
  - intros gw j Hj. destruct (J4 gw j Hj) as [?|Hdone]; [by left|right].
    rewrite ex_insert. case_decide; [subst|done]. rewrite Hd. by rewrite (ex_lookup _ _ _ _ Hi) in Hdone.
  - intros j x o [[<- <-]|[? ?]]%lookup_insert_Some; [|eauto]. rewrite Hd. intros Ho Hs.
    split; [eauto|]. by apply (J5 i e o).
Qed.

(** A new entry, or a queued one started. *)
Lemma settled_fresh E D L i e' :
  settled E D L → (∀ gw sw rs why, D !! gw ≠ Some (DRollingBack i sw rs why)) →
  (∀ e, E !! i = Some e → done e = None) → done e' = None → settled (<[i := e']> E) D L.
Proof.
  intros [J1 J2 J3 J4 J5] Hd Hno Hn. split; auto.
  - intros gw j sw rs why Hg. rewrite ex_insert. case_decide; [subst; by apply Hd in Hg|by eapply J1].
  - intros gw j Hj. destruct (J4 gw j Hj) as [?|(x & Hx & Hxd)]; [by left|right].
    rewrite ex_insert. case_decide; [subst|by exists x]. by rewrite (Hno _ Hx) in Hxd.
  - intros j x o [[-> <-]|[? ?]]%lookup_insert_Some; [|eauto]. by rewrite Hn.
Qed.

(** A request ends. *)
Lemma settled_done E D L i e o :
  settled E D L → E !! i = Some e → done e = None →
  (∀ gw sw rs why, D !! gw ≠ Some (DRollingBack i sw rs why)) →
  (out_state o ≠ "succeeded"%string → e_state e ≠ Retiring ∧ ∀ gw, SCommit i ∉ shapes L gw) →
  settled (<[i := set_done o e]> E) D L.
Proof.
  intros [J1 J2 J3 J4 J5] Hi Hn Hd Ho. split; auto.
  - intros gw j sw rs why Hg. rewrite ex_insert. case_decide; [subst; by apply Hd in Hg|by eapply J1].
  - intros gw j Hj. destruct (J4 gw j Hj) as [?|Hx]; [by left|right].
    rewrite ex_insert. by case_decide.
  - intros j x o' [[-> <-]|[? ?]]%lookup_insert_Some; [|eauto]. intros [= <-]. apply Ho.
Qed.

(** A drain task leaves [DRollingBack], for good: its request is done by then. *)
Lemma settled_drainer E D L gw d :
  settled E D L → (∀ i sw rs why, d ≠ DRollingBack i sw rs why) →
  (∀ i sw rs why, D !! gw = Some (DRollingBack i sw rs why) → ∃ e, E !! i = Some e ∧ done e ≠ None) →
  settled E (<[gw := d]> D) L.
Proof.
  intros [J1 J2 J3 J4 J5] Hd Hold. split; auto.
  - intros gw' i sw rs why [[_ E0]|[_ ?]]%lookup_insert_Some; [by apply Hd in E0|eauto].
  - intros gw' i sw why [[_ E0]|[_ ?]]%lookup_insert_Some; [by apply Hd in E0|eauto].
  - intros gw' i sw rs why q1 q2 [[_ E0]|[_ ?]]%lookup_insert_Some; [by apply Hd in E0|eauto].
  - intros gw' i Hi. destruct (J4 gw' i Hi) as [(sw & rs & why & Hg)|?]; [|by right].
    destruct (decide (gw' = gw)) as [->|]; [right; by eapply Hold|left].
    rewrite lookup_insert_ne; eauto.
Qed.

Lemma settled_drainer_end E D L gw :
  settled E D L → D !! gw = Some DReady → settled E (delete gw D) L.
Proof.
  intros [J1 J2 J3 J4 J5] Hd. split; auto.
  - intros gw' i sw rs why [_ ?]%lookup_delete_Some; eauto.
  - intros gw' i sw why [_ ?]%lookup_delete_Some; eauto.
  - intros gw' i sw rs why q1 q2 [_ ?]%lookup_delete_Some; eauto.
  - intros gw' i Hi. destruct (J4 gw' i Hi) as [(sw & rs & why & Hg)|?]; [|by right].
    left. exists sw, rs, why. rewrite lookup_delete_ne; [done|]. intros ->. congruence.
Qed.

(** A worker dies before any reset of its rollback was asked for. *)
Lemma settled_dies E D L gw i e sw why :
  settled E D L → D !! gw = Some (DApplying i) → E !! i = Some e → done e = None →
  e_state e ≠ Queued → e_state e ≠ Applying → e_state e ≠ Switching →
  settled E (<[gw := DRollingBack i sw false why]> D) L.
Proof.
  intros [J1 J2 J3 J4 J5] Hd Hi Hn H1 H2 H3. split; auto.
  - intros gw' j sw' rs why' [[_ [= <- <- <- <-]]|[_ ?]]%lookup_insert_Some; eauto.
  - intros gw' j sw' why' [[_ [= <- <- <-]]|[_ ?]]%lookup_insert_Some; eauto.
  - intros gw' j sw' rs why' q1 q2 [[<- [= <- <- <- <-]]|[_ ?]]%lookup_insert_Some; [|eauto].
    intros Hq. destruct (J4 gw i) as [(sw' & rs & why' & Hg)|(x & Hx & Hxd)]; [|congruence|congruence].
    rewrite Hq. set_solver.
  - intros gw' j Hj. destruct (J4 gw' j Hj) as [(sw' & rs & why' & Hg)|?]; [|by right].
    left. exists sw', rs, why'. rewrite lookup_insert_ne; [done|]. intros ->. congruence.
Qed.

(** Lock queues. *)
Lemma settled_push E D L gw task :
  settled E D L →
  match shape_of task with
  | SCommit i => ∃ e, E !! i = Some e ∧ done e = None ∧ ∀ gw sw rs why, D !! gw ≠ Some (DRollingBack i sw rs why)
  | SReset (Some i) => ∃ sw rs why, D !! gw = Some (DRollingBack i sw rs why)
  | _ => True
  end → settled E D (<[gw := default [] (L !! gw) ++ [task]]> L).
Proof.
  intros [J1 J2 J3 J4 J5] Ht.
  assert (∀ gw' x, x ∈ shapes (<[gw := default [] (L !! gw) ++ [task]]> L) gw' →
    x ∈ shapes L gw' ∨ x = shape_of task ∧ gw' = gw) as Hin.
  { intros gw' x. rewrite default_insert. case_decide; [subst|by left].
    rewrite fmap_app, elem_of_app. simpl. rewrite list_elem_of_singleton. naive_solver. }
  split; auto.
  - intros gw' i sw why Hd [Hc|[Hc ->]]%Hin; [by eapply J2|]. rewrite <-Hc in Ht.
    destruct Ht as (_ & _ & _ & Hno). by apply Hno in Hd.
  - intros gw' i sw rs why q1 q2 Hd. rewrite default_insert. case_decide; [subst|eauto].
    rewrite fmap_app. simpl. intros Hq.
    destruct q2 as [|x q2 _] using rev_ind; [by intros []%elem_of_nil|].
    rewrite app_comm_cons, app_assoc in Hq. apply app_inj_tail in Hq as [Hq <-].
    intros [Hc|Hc%list_elem_of_singleton]%elem_of_app; [by eapply J3|]. rewrite <-Hc in Ht.
    destruct Ht as (_ & _ & _ & Hno). by apply Hno in Hd.
  - intros gw' i [Hi|[Hi ->]]%Hin; [by apply J4|]. rewrite <-Hi in Ht. by left.
  - intros i e o Hi Ho Hs. destruct (J5 i e o Hi Ho Hs) as [? Hno]. split; [done|].
    intros gw' [Hc|[Hc ->]]%Hin; [by eapply Hno|]. rewrite <-Hc in Ht.
    destruct Ht as (x & Hx & Hn & _). congruence.
Qed.

Lemma settled_mark E D L gw q :
  settled E D L → shape_of <$> q = shapes L gw → settled E D (<[gw := q]> L).
Proof.
  intros [J1 J2 J3 J4 J5] Hq.
  assert (∀ gw', shapes (<[gw := q]> L) gw' = shapes L gw') as Hs.
  { intros gw'. rewrite default_insert. by case_decide; subst. }
  split; auto.
  - intros gw' i sw why Hd. rewrite Hs. eauto.
  - intros gw' i sw rs why q1 q2 Hd. rewrite Hs. eauto.
  - intros gw' i. rewrite Hs. eauto.
  - intros i e o ???. destruct (J5 i e o) as [? Hno]; [done..|]. split; [done|].
    intros gw'. rewrite Hs. eauto.
Qed.

Lemma settled_pop E D L gw task q :
  settled E D L → default [] (L !! gw) = task :: q → settled E D (<[gw := q]> L).
Proof.
  intros [J1 J2 J3 J4 J5] Hq.
  assert (∀ gw' x, x ∈ shapes (<[gw := q]> L) gw' → x ∈ shapes L gw') as Hin.
  { intros gw' x. rewrite default_insert. case_decide; [subst|done]. rewrite Hq. simpl. set_solver. }
  split; auto.
  - intros gw' i sw why Hd Hc%Hin. by eapply J2.
  - intros gw' i sw rs why q1 q2 Hd. rewrite default_insert. case_decide; [subst|eauto].
    intros Hs. eapply (J3 gw i sw rs why (shape_of task :: q1)); [done|]. rewrite Hq. simpl. unfold fmap in Hs |- *. by rewrite Hs.
  - intros i e o ???. destruct (J5 i e o) as [? Hno]; [done..|]. split; [done|].
    intros gw' Hc%Hin. by eapply Hno.
Qed.

(** A reset of the rollback returns: no commit came after it. *)
Lemma settled_note E D L gw i sw rs why :
  settled E D L → D !! gw = Some (DRollingBack i sw rs why) → SCommit i ∉ shapes L gw →
  settled E (<[gw := DRollingBack i sw true why]> D) L.
Proof.
  intros [J1 J2 J3 J4 J5] Hd Hno. split; auto.
  - intros gw' j sw' rs' why' [[<- [= <- <- <- <-]]|[_ ?]]%lookup_insert_Some; eauto.
  - intros gw' j sw' why' [[<- [= <- <- <-]]|[_ ?]]%lookup_insert_Some; eauto.
  - intros gw' j sw' rs' why' q1 q2 [[<- [= <- <- <- <-]]|[_ ?]]%lookup_insert_Some; eauto.
  - intros gw' j Hj. destruct (J4 gw' j Hj) as [(sw' & rs' & why' & Hg)|?]; [|by right].
    left. destruct (decide (gw' = gw)) as [->|]; [|rewrite lookup_insert_ne; eauto].
    rewrite lookup_insert_eq. rewrite Hd in Hg. injection Hg as <- <- <- <-. eauto.
Qed.
End settled_steps.

(** Every rollback after a dead worker runs to its end. *)
Definition rollback_returns (l : label) : Prop :=
  match l with LRollbackOver _ how => how = RbReturned | _ => True end.

Section settled_exec.
Context `{Pydantic} `{StateStore T}.
Implicit Types (s : t T).

(** A gateway's drain task rolls back the request the gateway runs. *)
Lemma rolling_running s gw i sw rs why :
  queue_inv s → drainers s !! gw = Some (DRollingBack i sw rs why) → running s !! gw = Some i.
Proof. intros I Hd. by eapply drain_running. Qed.

Lemma not_rolling s gw i e :
  queue_inv s → entries s !! i = Some e → ¬ runs gw e ∨ (∀ sw rs why, drainers s !! gw ≠ Some (DRollingBack i sw rs why)) →
  ∀ sw rs why, drainers s !! gw ≠ Some (DRollingBack i sw rs why).
Proof.
  intros I Hi Hcase sw rs why Hd. destruct Hcase as [Hn|Hn]; [|by eapply Hn].
  apply rolling_running in Hd; [|done]. destruct (running_runs _ _ _ I Hd) as (x & Hx & Hr).
  apply Hn. by assert (x = e) as <- by congruence.
Qed.

(** The drain task that runs a request is its gateway's. *)
Lemma rolling_gateway s gw gw' i e sw rs why :
  queue_inv s → running s !! gw = Some i → entries s !! i = Some e →
  drainers s !! gw' = Some (DRollingBack i sw rs why) → gw' = gw.
Proof.
  intros I Hr Hi Hd. apply rolling_running in Hd; [|done].
  destruct (running_runs _ _ _ I Hr) as (x & Hx & Hg & _).
  destruct (running_runs _ _ _ I Hd) as (y & Hy & Hg' & _). congruence.
Qed.

Lemma no_commit_state s i e :
  queue_inv s → entries s !! i = Some e → e_state e ≠ Committing →
  ∀ gw, SCommit i ∉ shapes (locks s) gw.
Proof. intros I Hi Hst gw Hin%shape_commit. apply Hst. by eapply commit_state. Qed.

Lemma no_commit_here s gw i e :
  queue_inv s → entries s !! i = Some e → gateway (e_request e) = gw →
  i ∉ commit_ids (lock_queue gw s) → ∀ gw', SCommit i ∉ shapes (locks s) gw'.
Proof.
  intros I Hi Hgw Hno gw' Hin%shape_commit. by eapply (no_commit_elsewhere s gw i e gw').
Qed.

Lemma submit_settled fresh rq s :
  queue_inv s → settled_inv s → entries s !! fresh = None → settled_inv (submit fresh rq s).1.
Proof.
  intros I J Hf.
  assert (settled (<[fresh := new_entry (with_id fresh rq)]> (entries s)) (drainers s) (locks s)) as J'.
  { apply settled_fresh; [done| |by rewrite Hf|done]. intros gw sw rs why Hd.
    apply rolling_running in Hd; [|done]. destruct (running_runs _ _ _ I Hd) as (x & Hx & _). congruence. }
  unfold submit, settled_inv. simpl. destruct (drainers s !! gateway rq) as [d|] eqn:Hd; simpl; [done|].
  apply settled_drainer; [done..|]. intros i sw rs why ?. congruence.
Qed.

Lemma cancel_settled i s : queue_inv s → settled_inv s → settled_inv (cancel i s).1.
Proof.
  intros I J. unfold cancel.
  destruct (if decide (i ∈ requests s) then _ else None) as [e|] eqn:Hi; [|done].
  case_decide; [|done]. destruct (done e) eqn:Hd; [done|].
  assert (e_state e = Applying ∨ e_state e = Switching →
    settled_inv (set_killers (i :: killers s) (upd_entry i set_cancelled s))) as Hc.
  { intros Hcase. rewrite (upd_entry_Some _ _ _ e) by done. unfold settled_inv. simpl.
    apply (settled_update _ _ _ _ e); [done..| |]; simpl.
    - intros gw sw rs why Hg. destruct (st_state _ _ _ J _ _ _ _ _ Hg) as (x & Hx & ? & ? & ?).
      by assert (x = e) as -> by congruence.
    - intros o. by rewrite Hd. }
  destruct (e_state e) eqn:Hst; simpl; try done; try (destruct (cancelled e); [done|]; by auto).
  - rewrite (upd_entry_Some _ _ _ e) by done. unfold settled_inv. simpl.
    apply settled_done; [done..| |].
    + intros gw. eapply not_rolling; [done..|]. left. by intros (_ & ? & _).
    + intros _. rewrite Hst. split; [done|]. apply (no_commit_state _ _ e); [done..|by rewrite Hst].
Qed.

Lemma is_cancelled_settled i s : settled_inv s → settled_inv (is_cancelled i s).1.
Proof.
  intros J. unfold is_cancelled.
  destruct (if decide (i ∈ requests s) then _ else None) as [e|] eqn:Hi; [|done].
  case_decide; [|done]. destruct (cancelled e) eqn:Hc; [|done]. simpl.
  rewrite (upd_entry_Some _ _ _ e) by done. unfold settled_inv. simpl.
  apply (settled_update _ _ _ _ e); [done..| |]; simpl.
  - intros gw sw rs why Hg. destruct (st_state _ _ _ J _ _ _ _ _ Hg) as (x & Hx & ? & ? & ?).
    by assert (x = e) as -> by congruence.
  - intros o Ho Hs. by eapply (st_done _ _ _ J).
Qed.

Lemma rolling_back_settled i gw s : queue_inv s → settled_inv s → settled_inv (rolling_back i gw s).
Proof.
  intros I J. unfold rolling_back. destruct (running s !! gw) as [j|] eqn:Hr; [|done].
  case_decide; [subst j|done]. destruct (running_runs _ _ _ I Hr) as (e & Hi & (_ & _ & Hd)).
  rewrite (upd_entry_Some _ _ _ e) by done. unfold settled_inv. simpl.
  apply (settled_update _ _ _ _ e); [done..|].
  intros o. by rewrite Hd.
Qed.

(** [switch] and [commit] change the state of a request that isn't being rolled back. *)
Lemma step_settled i gw e (f : Entry → Entry) s :
  queue_inv s → settled_inv s → running_entry i gw s = Ok e →
  e_state e ≠ Committing → e_state e ≠ Retiring → done (f e) = done e →
  settled_inv (upd_entry i f s) ∧ ∀ gw' sw rs why, drainers s !! gw' ≠ Some (DRollingBack i sw rs why).
Proof.
  intros I J (Hr & Hi & Hnr)%running_entry_ok Hc Hret Hf.
  destruct (running_runs _ _ _ I Hr) as (x & Hx & (_ & _ & Hd)). assert (x = e) as -> by congruence.
  assert (∀ gw' sw rs why, drainers s !! gw' ≠ Some (DRollingBack i sw rs why)) as Hno.
  { intros gw' sw rs why Hg. destruct (st_state _ _ _ J _ _ _ _ _ Hg) as (y & Hy & ? & ? & ?).
    assert (y = e) as -> by congruence. by destruct (e_state e). }
  split; [|done]. rewrite (upd_entry_Some _ _ _ e) by done. unfold settled_inv. simpl.
  apply (settled_update _ _ _ _ e); [done..| |].
  - intros gw' sw rs why Hg. by apply Hno in Hg.
  - intros o. by rewrite Hd.
Qed.

Lemma switch_settled i gw ms s :
  queue_inv s → settled_inv s → run_state i gw s ∉ [Some Switching; Some Committing; Some Retiring] →
  settled_inv (switch i gw ms s).1.
Proof.
  intros I J Hst. unfold switch. destruct (running_entry i gw s) as [e|] eqn:Hre; [|done].
  pose proof Hre as (Hr & Hi & _)%running_entry_ok. rewrite (run_state_Some _ _ _ _ Hr Hi) in Hst.
  destruct (step_settled i gw e (λ e, set_switched (set_state Switching e)) s) as [J' _]; try done.
  1,2: intros E; rewrite E in Hst; set_solver.
  destruct (route_same gw (Some ms) (upd_entry i (λ e, set_switched (set_state Switching e)) s))
    as (_ & He & _ & _ & _ & Hd & Hl & _).
  unfold settled_inv in *. rewrite <-He, <-Hd, <-Hl in J'. by destruct (route gw (Some ms) _).
Qed.

Lemma commit_begin_settled i gw ms s :
  queue_inv s → settled_inv s → run_state i gw s ∉ [Some Applying; Some Committing; Some Retiring] →
  settled_inv (commit_begin i gw ms s).1.
Proof.
  intros I J Hst. unfold commit_begin. destruct (running_entry i gw s) as [e|] eqn:Hre; [|done].
  pose proof Hre as (Hr & Hi & _)%running_entry_ok. rewrite (run_state_Some _ _ _ _ Hr Hi) in Hst.
  destruct (cancelled e); [done|]. simpl.
  destruct (step_settled i gw e (set_state Committing) s) as [J' Hno]; try done.
  1,2: intros E; rewrite E in Hst; set_solver.
  destruct (running_runs _ _ _ I Hr) as (x & Hx & (_ & _ & Hd)). assert (x = e) as -> by congruence.
  rewrite (upd_entry_Some _ _ _ e) in * by done.
  apply settled_push; [exact J'|]. simpl. exists (set_state Committing e).
  by rewrite lookup_insert_eq.
Qed.

Lemma lock_run_settled gw now s s' : settled_inv s → lock_run gw now s = Some s' → settled_inv s'.
Proof.
  intros J. unfold lock_run, lock_queue.
  destruct (default [] (locks s !! gw)) as [|[i ms [w|]|o [w|]|rq [w|]] q] eqn:Hq; try done;
    match goal with |- context [let '(st, r) := ?x in _] => destruct x as [st r] end;
    intros [= <-]; unfold settled_inv; simpl; (apply settled_mark; [exact J|by rewrite Hq]).
Qed.

Lemma lock_done_settled gw s s' :
  queue_inv s → settled_inv s → lock_done gw s = Some s' → settled_inv s'.
Proof.
  intros I J. unfold lock_done.
  destruct (lock_queue gw s) as [|[i ms [w|]|o [w|]|rq [w|]] q] eqn:Hq; try done; intros [= <-];
    pose proof (settled_pop _ _ _ _ _ _ J Hq) as J'; [| |done].
  - destruct w; [|done]. destruct (inv_commit _ _ _ _ _ I gw i) as (e & Hi & Hgw & Hst).
    { unfold lock_queue in Hq. rewrite Hq. constructor. }
    rewrite (upd_entry_Some _ _ _ e) by done. unfold settled_inv. simpl.
    apply (settled_update _ _ _ _ e); [done..|]. simpl. intros o Ho Hs.
    destruct (st_done _ _ _ J i e o Hi Ho Hs) as [_ Hno]. exfalso. apply (Hno gw).
    unfold lock_queue in Hq. rewrite Hq. constructor.
  - destruct w as [c|]; [|done]. set (s1 := set_locks _ s) in *.
    assert (settled_inv (reset_end gw c s1) ∧ drainers (reset_end gw c s1) = drainers s ∧
      entries (reset_end gw c s1) = entries s ∧ locks (reset_end gw c s1) = locks s1) as (J1 & Hd & He & Hl).
    { unfold settled_inv, reset_end. destruct (route_same gw c s1) as (_ & He & _ & _ & _ & Hd & Hl & _).
      destruct (routing s1 !! gw); [case_match|]; try done; by rewrite He, Hd, Hl. }
    revert J1 Hd He Hl. generalize (reset_end gw c s1). intros s2 J1 Hd He Hl.
    unfold note_reset. rewrite Hd. destruct (drainers s !! gw) as [[|i|i sw rs why]|] eqn:Hg; try done.
    case_decide; [subst o|done]. unfold settled_inv. simpl. apply (settled_note _ _ _ _ _ sw rs).
    + unfold settled_inv in J1. by rewrite Hd in J1.
    + done.
    + rewrite Hl. simpl. rewrite lookup_insert_eq. simpl.
      eapply (st_order _ _ _ J gw i sw rs why []); [done|]. unfold lock_queue in Hq. by rewrite Hq.
Qed.

Lemma finish_settled s gw i e o d :
  queue_inv s → settled_inv s → drainers s !! gw = Some d → drainer_id d = Some i →
  entries s !! i = Some e →
  (out_state o ≠ "succeeded"%string → e_state e ≠ Retiring ∧ ∀ gw', SCommit i ∉ shapes (locks s) gw') →
  settled_inv (finish gw i o s).
Proof.
  intros I J Hd Hdi Hi Ho. pose proof (drain_running _ _ _ _ I Hd Hdi) as Hr.
  destruct (running_runs _ _ _ I Hr) as (x & Hx & (Hgw & _ & Hn)). assert (x = e) as -> by congruence.
  unfold finish. rewrite (upd_entry_Some _ _ _ e) by done. unfold settled_inv. simpl.
  destruct J as [J1 J2 J3 J4 J5].
  set (E' := <[i := set_done o e]> (entries s)).
  assert (∀ gw' sw rs why, <[gw := DReady]> (drainers s) !! gw' = Some (DRollingBack i sw rs why) → False) as Hno.
  { intros gw' sw rs why [[_ ?]|[Hne Hg]]%lookup_insert_Some; [done|].
    by rewrite (rolling_gateway _ _ _ _ _ _ _ _ I Hr Hi Hg) in Hne. }
  split.
  - intros gw' j sw rs why Hg. unfold E'. rewrite ex_insert. case_decide; [subst; by apply Hno in Hg|].
    apply lookup_insert_Some in Hg as [[_ ?]|[_ Hg]]; [done|]. by eapply J1.
  - intros gw' j sw why [[_ ?]|[_ Hg]]%lookup_insert_Some; [done|by eapply J2].
  - intros gw' j sw rs why q1 q2 [[_ ?]|[_ Hg]]%lookup_insert_Some; [done|by eapply J3].
  - intros gw' j Hj. unfold E'. rewrite ex_insert. case_decide; [by right|].
    destruct (J4 gw' j Hj) as [(sw & rs & why & Hg)|?]; [|by right]. left.
    exists sw, rs, why. rewrite lookup_insert_ne; [done|]. intros ->.
    apply rolling_running in Hg; [|done]. congruence.
  - intros j y o' [[<- <-]|[_ ?]]%lookup_insert_Some; [|by apply J5]. intros [= <-]. apply Ho.
Qed.

Lemma drain_next_settled gw created s :
  queue_inv s → settled_inv s → drainers s !! gw = Some DReady → settled_inv (drain_next gw created s).
Proof.
  intros I0 J0 Hd0. unfold drain_next.
  destruct (start_recovery_same s) as (_ & He & _ & _ & _ & Hd & _ & Hl & _).
  pose proof (start_recovery_inv s I0) as I. unfold settled_inv in J0.
  rewrite <-He, <-Hd, <-Hl in J0. rewrite <-Hd in Hd0. clear He Hd Hl I0.
  change (settled_inv (start_recovery s)) in J0. revert Hd0 I J0. generalize (start_recovery s).
  clear s. intros s Hd I J.
  case_decide; [|done]. destruct (queue_of gw s) as [|i q] eqn:Hq.
  { by apply settled_drainer_end. }
  destruct (drain_start_inv _ _ _ _ false I Hd Hq) as (e & Hi & (Hgw & Hst & Hn) & _).
  assert (∀ gw' sw rs why, drainers s !! gw' ≠ Some (DRollingBack i sw rs why)) as Hno.
  { intros gw'. eapply not_rolling; [done..|]. left. by intros (_ & ? & _). }
  destruct created.
  - rewrite (upd_entry_Some i (set_state Applying) _ e) by done.
    rewrite (upd_entry_Some _ _ _ (set_state Applying e)) by (simpl; by rewrite lookup_insert_eq).
    unfold settled_inv. simpl. rewrite insert_insert_eq.
    apply settled_drainer; [|done|intros j sw rs why Hg; congruence].
    apply settled_fresh; [done|done| |done]. intros x Hx. congruence.
  - rewrite (upd_entry_Some i (set_state Applying) _ e) by done. simpl.
    rewrite lookup_insert_eq. unfold finish.
    rewrite (upd_entry_Some _ _ _ (set_state Applying e)) by (simpl; by rewrite lookup_insert_eq).
    unfold settled_inv. simpl.
    apply settled_drainer; [|done|intros j sw rs why Hg; congruence].
    apply (settled_done _ _ _ _ (set_state Applying e)); [|by rewrite lookup_insert_eq|done|done|].
    + apply settled_fresh; [done|done| |done]. intros x Hx. congruence.
    + intros _. split; [done|]. apply (no_commit_state _ _ e); [done..|by rewrite Hst].
Qed.

Lemma worker_dies_settled gw why s s' :
  queue_inv s → settled_inv s → worker_dies gw why s = Some s' → settled_inv s'.
Proof.
  intros I J. unfold worker_dies. destruct (drainers s !! gw) as [[|i|]|] eqn:Hd; try done.
  destruct (entries s !! i) as [e|] eqn:Hi; simpl; [|done]. intros [= <-].
  pose proof (drain_running _ _ _ _ I Hd eq_refl) as Hr.
  destruct (running_runs _ _ _ I Hr) as (x & Hx & (_ & _ & Hn)). assert (x = e) as -> by congruence.
  unfold settled_inv. case_decide as Hst; simpl.
  - by eapply settled_dies; try done; destruct Hst as [->| ->].
  - rewrite (alter_Some _ _ _ e) by done.
    apply (settled_dies _ _ _ _ _ (set_state RollingBack e)); try done; [|by rewrite lookup_insert_eq].
    apply (settled_update _ _ _ _ e); [done..|]. intros o. by rewrite Hn.
Qed.

Lemma rollback_over_settled gw s s' :
  queue_inv s → settled_inv s → rollback_over gw RbReturned s = Some s' → settled_inv s'.
Proof.
  intros I J. unfold rollback_over. destruct (drainers s !! gw) as [[| |i sw rs why]|] eqn:Hd; try done.
  destruct (entries s !! i) as [e|] eqn:Hi; simpl; [|done]. destruct rs; simpl; [|done]. intros [= <-].
  eapply finish_settled; [done..|]. pose proof (drain_running _ _ _ _ I Hd eq_refl) as Hr.
  destruct (running_runs _ _ _ I Hr) as (x & Hx & (Hgw & _)). assert (x = e) as -> by congruence.
  case_decide; [done|]. intros _. split; [done|]. eapply no_commit_here; [done..|].
  rewrite <-shape_commit. by eapply (st_reset _ _ _ J).
Qed.

Lemma exec_settled l s s' :
  queue_inv s → settled_inv s → rollback_returns l → exec l s = Some s' → settled_inv s'.
Proof.
  intros I J Hl. destruct l; simpl; unfold guard; try (case_match eqn:Hg; [|done]).
  - intros [= <-]. apply submit_settled; [done..|]. by apply bool_decide_eq_true in Hg.
  - by intros [= <-].
  - intros [= <-]. by apply cancel_settled.
  - intros [= <-]. by apply is_cancelled_settled.
  - intros [= <-]. by apply rolling_back_settled.
  - intros [= <-]. apply switch_settled; [done..|]. by apply negb_true_iff, bool_decide_eq_false in Hg.
  - intros [= <-]. apply commit_begin_settled; [done..|]. by apply negb_true_iff, bool_decide_eq_false in Hg.
  - intros [= <-]. apply settled_push; [done|]. simpl. destruct rollback_of as [j|]; [|done].
    destruct (drainers s !! gw) as [[| |j' sw rs why]|] eqn:Hd; try done.
    apply bool_decide_eq_true in Hg as ->. eauto.
  - intros [= <-]. unfold diff_call. destruct (running_entry i gw s); [|done]. by apply settled_push.
  - intros [= <-]. by apply settled_push.
  - by apply lock_run_settled.
  - by apply lock_done_settled.
  - intros [= <-]. unfold routing_read.
    destruct (start_recovery_same s) as (_ & He & _ & _ & _ & Hd & _ & Hlk & _).
    assert (settled_inv (start_recovery s)) as J' by (unfold settled_inv; by rewrite He, Hd, Hlk).
    destruct (routing (start_recovery s) !! gw); [done|].
    by destruct (committed gw now _) as [st [c|]].
  - destruct p as [gw c]. intros [= <-]. unfold routing_note, next_seq.
    destruct (routing_of _ _ _); [|done]. simpl. by destruct (routing s !! gw).
  - by intros [= <-].
  - intros [= <-]. apply drain_next_settled; [done..|]. by destruct (drainers s !! gw) as [[]|].
  - unfold worker_returns. destruct (drainers s !! gw) as [[|i|]|] eqn:Hd; try done. intros [= <-].
    pose proof (drain_running _ _ _ _ I Hd eq_refl) as Hr. rewrite Hr in Hg.
    destruct (running_runs _ _ _ I Hr) as (e & Hi & (Hgw & _)).
    eapply finish_settled; [done..|]. intros Hs. rewrite bool_decide_false in Hg by done.
    apply negb_true_iff, committing_false in Hg as [Hno Hret].
    rewrite (run_state_Some _ _ _ _ Hr Hi) in Hret. split; [congruence|]. by eapply no_commit_here.
  - unfold worker_raises. destruct (drainers s !! gw) as [[|i|]|] eqn:Hd; try done.
    pose proof (drain_running _ _ _ _ I Hd eq_refl) as Hr. rewrite Hr in Hg.
    destruct (running_runs _ _ _ I Hr) as (e & Hi & (Hgw & _)). rewrite Hi. simpl. intros [= <-].
    eapply finish_settled; [done..|]. intros _.
    apply negb_true_iff, committing_false in Hg as [Hno Hret].
    rewrite (run_state_Some _ _ _ _ Hr Hi) in Hret. split; [congruence|]. by eapply no_commit_here.
  - by apply worker_dies_settled.
  - simpl in Hl. subst how. by apply rollback_over_settled.
  - by intros [= <-].
Qed.

Lemma exec_all_settled ls s s' :
  queue_inv s → settled_inv s → Forall rollback_returns ls → exec_all ls s = Some s' →
  queue_inv s' ∧ settled_inv s'.
Proof.
  revert s. induction ls as [|l ls IH]; intros s I J Hl; simpl; [by intros [= <-]|].
  inversion Hl; subst. destruct (exec l s) as [s1|] eqn:E; simpl; [|done].
  apply IH; [by eapply exec_inv|by eapply exec_settled|done].
Qed.

(** ** What entries do over time *)

(** An entry's history: its request never changes, what is done or cancelled stays so, it never
    goes back to the queue, and once done only the landing of its commit changes its state. *)
Record entry_le (e e' : Entry) : Prop := {
  le_request : e_request e' = e_request e;
  le_done o : done e = Some o → done e' = Some o;
  le_cancelled : cancelled e = true → cancelled e' = true;
  le_started : e_state e ≠ Queued → e_state e' ≠ Queued;
  le_end : done e ≠ None → e_state e' = e_state e ∨ (e_state e = Committing ∧ e_state e' = Retiring);
}.

#[local] Instance entry_le_refl : Reflexive entry_le.
Proof. intros e. split; auto. Qed.

Lemma entry_le_trans e1 e2 e3 : entry_le e1 e2 → entry_le e2 e3 → entry_le e1 e3.
Proof.
  intros [A1 A2 A3 A4 A5] [B1 B2 B3 B4 B5]. split; try congruence; auto.
  - intros Hd. destruct (done e1) as [o|] eqn:Ho; [|done].
    assert (done e2 ≠ None) as Hd2 by (by rewrite (A2 o)).
    destruct (A5 Hd) as [E|[E E']]; destruct (B5 Hd2) as [F|[F F']]; try (left; congruence);
      right; split; congruence.
Qed.

Definition entries_le (E E' : gmap string Entry) : Prop :=
  ∀ i e, E !! i = Some e → ∃ e', E' !! i = Some e' ∧ entry_le e e'.

Lemma entries_le_refl E : entries_le E E.
Proof. intros i e Hi. by exists e. Qed.

Lemma entries_le_trans E1 E2 E3 : entries_le E1 E2 → entries_le E2 E3 → entries_le E1 E3.
Proof.
  intros H12 H23 i e Hi. destruct (H12 i e Hi) as (e2 & Hi2 & ?).
  destruct (H23 i e2 Hi2) as (e3 & Hi3 & ?). exists e3. eauto using entry_le_trans.
Qed.

Lemma entries_le_insert E i e e' :
  E !! i = Some e → entry_le e e' → entries_le E (<[i := e']> E).
Proof.
  intros Hi He j x Hj. destruct (decide (j = i)) as [->|].
  - exists e'. rewrite lookup_insert_eq. by assert (x = e) as -> by congruence.
  - exists x. by rewrite lookup_insert_ne.
Qed.

Lemma entries_le_fresh E i e : E !! i = None → entries_le E (<[i := e]> E).
Proof.
  intros Hi j x Hj. exists x. rewrite lookup_insert_ne; [done|]. intros ->. congruence.
Qed.

Lemma entries_le_alter (f : Entry → Entry) i E :
  (∀ e, E !! i = Some e → entry_le e (f e)) → entries_le E (alter f i E).
Proof.
  intros Hf. destruct (E !! i) as [e|] eqn:Hi.
  - rewrite (alter_Some _ _ _ e) by done. by apply (entries_le_insert _ _ e); auto.
  - rewrite alter_None by done. apply entries_le_refl.
Qed.

(** An update of an entry that isn't done, and one of any entry. *)
Definition open (i : string) (E : gmap string Entry) : Prop := ∀ e, E !! i = Some e → done e = None.

Lemma open_alter (f : Entry → Entry) i E : open i E → (∀ e, done (f e) = done e) → open i (alter f i E).
Proof.
  intros Ho Hf x. rewrite lookup_alter_eq. destruct (E !! i) as [e|] eqn:Hi; simpl; [|done].
  intros [= <-]. rewrite Hf. eauto.
Qed.

Lemma entries_le_open (f : Entry → Entry) i E E' :
  open i E' → (∀ e, e_request (f e) = e_request e ∧ (cancelled e = true → cancelled (f e) = true) ∧
    (e_state e ≠ Queued → e_state (f e) ≠ Queued)) →
  entries_le E E' → entries_le E (alter f i E').
Proof.
  intros Ho Hf HE. eapply entries_le_trans; [done|]. apply entries_le_alter. intros e Hi.
  destruct (Hf e) as (? & ? & ?). pose proof (Ho e Hi) as Hd. split; try done; by rewrite Hd.
Qed.

Lemma open_running s gw i : queue_inv s → running s !! gw = Some i → open i (entries s).
Proof. intros I Hr e Hi. destruct (running_runs _ _ _ I Hr) as (x & Hx & (_ & _ & ?)). congruence. Qed.

Lemma open_drainer s gw d i :
  queue_inv s → drainers s !! gw = Some d → drainer_id d = Some i → open i (entries s).
Proof. intros I Hd Hi. eapply open_running; [done|]. by eapply drain_running. Qed.

Lemma open_queue s gw i q : queue_inv s → queue_of gw s = i :: q → open i (entries s).
Proof.
  intros I Hq e Hi. destruct (proj1 (inv_queue _ _ _ _ _ I gw i)) as (x & Hx & (_ & _ & ?)).
  { unfold queue_of in Hq. rewrite Hq. constructor. }
  congruence.
Qed.

Lemma exec_le l s s' : queue_inv s → exec l s = Some s' → entries_le (entries s) (entries s').
Proof.
  intros I. pose proof (entries_le_refl (entries s)) as Hrefl. pose proof (commit_state s) as Hcs.
  pose proof (open_running s) as Hor. pose proof (open_drainer s) as Hod. pose proof (open_queue s) as Hoq.
  step_cases l; try apply Hrefl.
  all: try (apply entries_le_fresh; by match goal with E : bool_decide _ = true |- _ => apply bool_decide_eq_true in E end).
  all: repeat lazymatch goal with
       | |- entries_le _ (alter set_cancel_seen _ _) => fail
       | |- entries_le _ (alter (set_state Retiring) _ _) => fail
       | |- entries_le _ _ => apply entries_le_open; [|simpl; auto; done|]
       end; try apply Hrefl.
  all: try (repeat (apply open_alter; [|done]);
            first [by eapply Hor|by eapply Hod|by eapply Hoq|intros x Hx; congruence]).
  all: try (match goal with E : running_entry _ _ _ = Ok _ |- _ => apply running_entry_ok in E as (? & ? & ?) end;
            by eapply Hor).
  all: apply entries_le_alter; intros x Hx; split; simpl; auto.
  intros _. right. split; [|done]. eapply (Hcs gw); [done..|].
  match goal with E : lock_queue _ _ = _ |- _ => unfold lock_queue in E; rewrite E end. constructor.
Qed.

Lemma exec_all_le ls s s' :
  queue_inv s → exec_all ls s = Some s' → queue_inv s' ∧ entries_le (entries s) (entries s').
Proof.
  revert s. induction ls as [|l ls IH]; intros s I; simpl.
  { intros [= <-]. auto using entries_le_refl. }
  destruct (exec l s) as [s1|] eqn:E; simpl; [|done]. intros Hs.
  destruct (IH s1) as [I' Hle]; [by eapply exec_inv|done|]. split; [done|].
  eapply entries_le_trans; [by eapply exec_le|done].
Qed.
End settled_exec.
