(* ===== verification/QueueTheorems.v ===== *)
(** * Theorems on the deploy queues

    Consequences of [QueueInvariant]'s invariants for every interleaving of the deploy
    coordinator's calls. *)

From S2P Require Import Prelude StateStore MemoryStore ConfigSchema Ledger Diff DeployQueue QueueInvariant.
Local Open Scope Z_scope.

Section lemmas.
Context `{Pydantic} `{StateStore T}.
Implicit Types (s : t T).

(** ** Cancels *)

(** A request that is cancelled, or done without having started, commits nothing. *)
Definition never_commits (e : Entry) : Prop :=
  cancelled e = true ∨ (done e ≠ None ∧ e_state e = Queued).

Lemma never_commits_le e e' : entry_le e e' → never_commits e → never_commits e'.
Proof.
  intros Hle [Hc|[Hd Hq]]; [left; by apply (le_cancelled _ _ Hle)|right].
  destruct (done e) as [o|] eqn:Ho; [|done]. rewrite (le_done _ _ Hle o Ho). split; [done|].
  destruct (le_end _ _ Hle) as [E|[E _]]; [by rewrite Ho|congruence|congruence].
Qed.

Lemma never_commits_state s i e :
  queue_inv s → entries s !! i = Some e → never_commits e →
  e_state e ≠ Committing ∧ e_state e ≠ Retiring ∧ ∀ gw, i ∉ commit_ids (lock_queue gw s).
Proof.
  intros I Hi Hn. assert (e_state e ≠ Committing ∧ e_state e ≠ Retiring) as [H1 H2].
  { destruct Hn as [Hc|[_ Hq]]; [|by rewrite Hq].
    by destruct (inv_cancelled _ _ _ _ _ I i e Hi Hc) as (_ & ? & ?). }
  split_and!; [done..|]. intros gw Hin. apply H1. by eapply commit_state.
Qed.

Lemma cancel_accepted s s1 i m :
  queue_inv s → cancel i s = (s1, CancelAccepted m) → ∃ e, entries s1 !! i = Some e ∧ never_commits e.
Proof.
  intros I. unfold cancel. destruct (if decide (i ∈ requests s) then _ else None) as [e|] eqn:Hi; [|done].
  case_decide; [|done]. destruct (done e) eqn:Hd; [done|].
  destruct (e_state e) eqn:Hst; try done; try (destruct (cancelled e) eqn:Hc); intros [= <- <-]; simpl;
    try (rewrite lookup_alter_eq, Hi; simpl; eexists; split; [done|]);
    try (eexists; split; [done|]); try (by left).
  right. done.
Qed.

(** ** Kills *)

Lemma killers_cancelled ls (st : T) now s i :
  exec_all ls (init st now) = Some s → i ∈ killers s →
  ∃ e, entries s !! i = Some e ∧ cancelled e = true.
Proof.
  set (P := λ s : t T, queue_inv s ∧ ∀ i, i ∈ killers s → ∃ e, entries s !! i = Some e ∧ cancelled e = true).
  intros Hr. revert i. apply (exec_all_ind P) in Hr; [apply Hr| |split; [apply init_inv|set_solver]].
  clear. intros l s s' [I Hk] Hs. split; [by eapply exec_inv|]. intros i Hi.
  assert ((i ∈ killers s) ∨ (∃ e, entries s' !! i = Some e ∧ cancelled e = true)) as [Hin|?]; [|  |done].
  2: { destruct (Hk i Hin) as (e & He & Hc). destruct (exec_le _ _ _ I Hs i e He) as (e' & He' & Hle).
       exists e'. split; [done|]. by apply (le_cancelled _ _ Hle). }
  revert Hs Hi. clear. step_cases l; try by left.
  1,2: match goal with Hi : _ ∈ _ :: _ |- _ => apply elem_of_cons in Hi as [->|?]; [right|by left] end;
    rewrite lookup_alter_eq; by simplify_option_eq; eauto.
  match goal with Hi : _ ∈ filter _ _ |- _ => apply list_elem_of_filter in Hi as [_ ?]; by left end.
Qed.

(** ** Routing versions *)

Lemma routing_of_seq n ms gw r : routing_of n ms gw = Ok r → seq r = n.
Proof. unfold routing_of. intros (apps & _ & [= <-])%res_bind_ok. done. Qed.

(** A call changes the routing of at most one gateway, to a version with the next number. *)
Lemma exec_routing l s s' :
  exec l s = Some s' →
  (routing s' = routing s ∧ next s ≤ next s') ∨
  (∃ gw r, routing s' = <[gw := r]> (routing s) ∧ seq r = next s + 1 ∧ next s' = next s + 1).
Proof.
  step_cases l; try (left; split; [done|lia]).
  all: match goal with E : routing_of _ _ _ = Ok _ |- _ => apply routing_of_seq in E end; right; eexists _, _; done.
Qed.

(** No two routings share a number, and none is past the counter. *)
Definition seqs_ok s : Prop :=
  (∀ gw r, routing s !! gw = Some r → seq r ≤ next s) ∧
  (∀ gw gw' r r', routing s !! gw = Some r → routing s !! gw' = Some r' → seq r = seq r' → gw = gw').

Lemma exec_seqs l s s' : seqs_ok s → exec l s = Some s' → seqs_ok s'.
Proof.
  intros [Hle Hinj] [[Hr Hn]|(gw & r & Hr & Hs & Hn)]%exec_routing; split; rewrite ?Hr, ?Hn.
  - intros gw r Hg. specialize (Hle gw r Hg). lia.
  - done.
  - intros gw' r' [[_ <-]|[_ Hg]]%lookup_insert_Some; [lia|]. specialize (Hle _ _ Hg). lia.
  - intros g1 g2 r1 r2 [[<- <-]|[_ H1]]%lookup_insert_Some [[<- <-]|[_ H2]]%lookup_insert_Some E;
      [done|specialize (Hle _ _ H2); lia|specialize (Hle _ _ H1); lia|eauto].
Qed.

(** Later on, a routing is the one it was or has a later number. *)
Definition seqs_after s s' : Prop :=
  next s ≤ next s' ∧
  ∀ gw r', routing s' !! gw = Some r' → routing s !! gw = Some r' ∨ next s < seq r'.

Lemma exec_all_seqs ls s s' : exec_all ls s = Some s' → seqs_after s s'.
Proof.
  apply (exec_all_ind (seqs_after s)); [|split; [lia|auto]].
  intros l s1 s2 [Hn Hr] [[Hr2 Hn2]|(gw & r & Hr2 & Hs & Hn2)]%exec_routing; split; try lia.
  - intros gw r'. rewrite Hr2. auto.
  - intros gw' r'. rewrite Hr2. intros [[<- <-]|[_ Hg]]%lookup_insert_Some; [right; lia|eauto].
Qed.

Lemma reachable_seqs ls (st : T) now s : exec_all ls (init st now) = Some s → seqs_ok s.
Proof.
  apply (exec_all_ind seqs_ok); [apply exec_seqs|]. split; intros *; simpl; by rewrite lookup_empty.
Qed.

(** ** Progress *)

(** With idle recovery done and workers that return, a drain task works its queue off. *)
Definition good_outcome (i : string) : outcome := mkOutcome i "succeeded" "" [] [] None [].

Lemma serve_one s gw i q :
  queue_inv s → drainers s !! gw = Some DReady → recovery s = RecoveryDone → queue_of gw s = i :: q →
  ∃ s', exec_all [LDrain gw true; LWorkerReturns gw (good_outcome i)] s = Some s' ∧
    drainers s' !! gw = Some DReady ∧ recovery s' = RecoveryDone ∧ queue_of gw s' = q ∧
    ∃ e, entries s' !! i = Some e ∧ done e ≠ None.
Proof.
  intros I Hd Hr Hq. destruct (drain_start_inv _ _ _ _ true I Hd Hq) as (e & Hi & _ & _).
  assert (drain_next gw true s = set_drainers (<[gw := DApplying i]> (drainers s)) (upd_entry i set_worker
    (upd_entry i (set_state Applying) (set_running (<[gw := i]> (running s))
      (set_queues (<[gw := q]> (queues s)) s))))) as E1.
  { unfold drain_next. assert (start_recovery s = s) as -> by (unfold start_recovery; rewrite Hr; done).
    by rewrite decide_True, Hq. }
  cbn [exec_all]. simpl (exec (LDrain _ _) _). rewrite Hd, E1. simpl. unfold worker_returns. simpl.
  rewrite !lookup_insert_eq. simpl.
  eexists. split; [done|]. simpl. rewrite !lookup_insert_eq. split_and!; try done.
  - unfold queue_of. simpl. by rewrite lookup_insert_eq.
  - rewrite !lookup_alter_eq, Hi. simpl. eauto.
Qed.

Lemma serve_all s gw q1 i q2 :
  queue_inv s → drainers s !! gw = Some DReady → recovery s = RecoveryDone →
  queue_of gw s = q1 ++ i :: q2 →
  ∃ ls s' e, exec_all ls s = Some s' ∧ entries s' !! i = Some e ∧ done e ≠ None.
Proof.
  revert s. induction q1 as [|j q1 IH]; intros s I Hd Hr Hq.
  - destruct (serve_one s gw i q2) as (s' & Hs & _ & _ & _ & e & ? & ?); [done..|]. eauto 10.
  - destruct (serve_one s gw j (q1 ++ i :: q2)) as (s1 & Hs & Hd1 & Hr1 & Hq1 & _); [done..|].
    destruct (IH s1) as (ls & s' & e & Hs' & ?); [|done..|].
    { by eapply exec_all_le. }
    eexists _, s', e. split; [|done]. apply exec_all_app. eauto.
Qed.

Lemma finish_ready s gw i o :
  queue_inv s → running s !! gw = Some i →
  drainers (finish gw i o s) !! gw = Some DReady ∧ queue_of gw (finish gw i o s) = queue_of gw s ∧
  recovery (finish gw i o s) = recovery s ∧
  ∃ e, entries (finish gw i o s) !! i = Some e ∧ done e ≠ None.
Proof.
  intros I Hr. destruct (running_runs _ _ _ I Hr) as (e & Hi & _). unfold finish. simpl.
  rewrite lookup_insert_eq. split_and!; try done. rewrite lookup_alter_eq, Hi. simpl. eauto.
Qed.

(** A busy drain task can always end its request. *)
Lemma end_running s gw d i :
  queue_inv s → drainers s !! gw = Some d → drainer_id d = Some i →
  ∃ l o s', exec l s = Some s' ∧ s' = finish gw i o s.
Proof.
  intros I Hd Hi. pose proof (drain_running _ _ _ _ I Hd Hi) as Hr. destruct d as [|j|j sw rs why]; [done|..].
  - injection Hi as ->. exists (LWorkerReturns gw (good_outcome i)), (good_outcome i). simpl.
    unfold worker_returns. rewrite Hr, Hd. simpl. eauto.
  - injection Hi as ->. destruct (running_runs _ _ _ I Hr) as (e & He & _).
    exists (LRollbackOver gw RbNoWorker). simpl. unfold rollback_over. rewrite Hd. simpl. rewrite He. simpl. eauto.
Qed.

Lemma recover s gw :
  queue_inv s → drainers s !! gw = Some DReady →
  ∃ ls s', exec_all ls s = Some s' ∧ drainers s' !! gw = Some DReady ∧ recovery s' = RecoveryDone ∧
    queue_of gw s' = queue_of gw s.
Proof.
  intros I Hd. destruct (recovery s) eqn:Hr.
  - exists [LDrain gw true; LRecovered]. simpl. rewrite Hd. unfold drain_next, start_recovery. rewrite Hr.
    simpl. eauto.
  - exists [LRecovered]. simpl. rewrite Hr. simpl. eauto.
  - exists []. eauto.
Qed.

Lemma can_finish s i e :
  queue_inv s → entries s !! i = Some e → done e = None →
  ∃ ls s' e', exec_all ls s = Some s' ∧ entries s' !! i = Some e' ∧ done e' ≠ None.
Proof.
  intros I Hi Hn. set (gw := gateway (e_request e)).
  assert (∃ ls s1, exec_all ls s = Some s1 ∧
    ((∃ e', entries s1 !! i = Some e' ∧ done e' ≠ None) ∨
     (drainers s1 !! gw = Some DReady ∧ i ∈ queue_of gw s1))) as (ls1 & s1 & Hs1 & [(e' & ? & ?)|[Hd1 Hq1]]);
    [|by eauto 10|].
  { destruct (decide (e_state e = Queued)) as [Hq|Hq].
    - assert (i ∈ queue_of gw s) as Hin by (apply (inv_queue _ _ _ _ _ I); by exists e).
      destruct (inv_drained _ _ _ _ _ I gw) as [d Hd].
      { unfold queue_of in Hin. by destruct (default [] (queues s !! gw)); [apply elem_of_nil in Hin|]. }
      destruct (drainer_id d) as [j|] eqn:Hj.
      + destruct (end_running s gw d j) as (l & o & s1 & Hs1 & ->); [done..|].
        destruct (finish_ready s gw j o) as (? & Hq' & _); [done|by eapply drain_running|].
        exists [l], (finish gw j o s). simpl. rewrite Hs1. split; [done|]. right. by rewrite Hq'.
      + destruct d; try done. exists [], s. split; [done|]. by right.
    - assert (running s !! gw = Some i) as Hr by (apply (inv_running _ _ _ _ _ I); by exists e).
      pose proof (inv_drainer _ _ _ _ _ I gw) as Hd. rewrite Hr in Hd.
      destruct (drainers s !! gw) as [d|] eqn:Hd'; [|done]. simpl in Hd.
      destruct (end_running s gw d i) as (l & o & s1 & Hs1 & ->); [done..|].
      destruct (finish_ready s gw i o) as (_ & _ & _ & ?); [done..|].
      exists [l], (finish gw i o s). simpl. rewrite Hs1. auto. }
  destruct (exec_all_le _ _ _ I Hs1) as [I1 _].
  destruct (recover s1 gw) as (ls2 & s2 & Hs2 & Hd2 & Hr2 & Hq2); [done..|].
  destruct (exec_all_le _ _ _ I1 Hs2) as [I2 _]. rewrite <-Hq2 in Hq1.
  apply list_elem_of_split in Hq1 as (q1 & q2 & Hq).
  destruct (serve_all s2 gw q1 i q2) as (ls3 & s3 & e' & Hs3 & ? & ?); [done..|].
  exists (ls1 ++ ls2 ++ ls3), s3, e'. split; [|done]. apply exec_all_app. exists s1. split; [done|].
  apply exec_all_app. eauto.
Qed.
End lemmas.

(** ** The version lock *)

(** The clock readings of a run never go back. *)
Fixpoint in_order (now : Z) (ls : list label) : Prop :=
  match ls with
  | [] => True
  | (LLockRun _ t | LRoutingRead _ t) :: ls => now ≤ t ∧ in_order t ls
  | _ :: ls => in_order now ls
  end.

(** The last reading. *)
Fixpoint end_time (now : Z) (ls : list label) : Z :=
  match ls with
  | [] => now
  | (LLockRun _ t | LRoutingRead _ t) :: ls => end_time t ls
  | _ :: ls => end_time now ls
  end.

Section lock.
Context `{Pydantic} `{StateStoreAtomic T}.
Implicit Types (s : t T).
Import LedgerStore.

Definition unwritten (task : lock_task) : Prop :=
  match task with TCommit _ _ w => w = None | TReset _ w | TDiff _ w => w = None end.

(** What the lock's holder got from the store is what the store still holds. *)
Definition current_read (gw : string) (now : Z) (st : T) (task : lock_task) : Prop :=
  match task with
  | TCommit _ ms (Some (Ok v)) => version_models v = ms ∧ stored gw now st (Some ms)
  | TReset _ (Some (Ok c)) | TDiff _ (Some (Ok c)) => stored gw now st c
  | _ => True
  end.

Record lock_ok (now : Z) (s : t T) : Prop := {
  lk_valid : ss_valid (store s);
  lk_steady gw : steady gw now (store s);
  lk_head gw task q : lock_queue gw s = task :: q → current_read gw now (store s) task;
  lk_tail gw task q : lock_queue gw s = task :: q → Forall unwritten q;
}.

Lemma lock_ok_same now t s s' :
  now ≤ t → ss_valid (store s') → same_from t (cells (store s')) (cells (store s)) →
  (∀ gw task q, lock_queue gw s' = task :: q → Forall unwritten q ∧
     (current_read gw now (store s) task ∨ current_read gw t (store s') task)) →
  lock_ok now s → lock_ok t s'.
Proof.
  intros Ht Hv Hs Hq [J1 J2 J3 J4]. split; [done| | |].
  - intros gw. by eapply steady_same.
  - intros gw task q Hg. destruct (Hq gw task q Hg) as [_ [Hc|?]]; [|done].
    destruct task as [i ms [[v|]|]|o [[c|]|]|rq [[c|]|]]; simpl in *; try done.
    + destruct Hc as [? ?]. split; [done|]. by eapply stored_same.
    + by eapply stored_same.
    + by eapply stored_same.
  - intros gw task q Hg. by eapply Hq.
Qed.

(** A step that leaves the store and the locks alone. *)
Lemma lock_ok_frame now s s' : store s' = store s → locks s' = locks s → lock_ok now s → lock_ok now s'.
Proof.
  intros Es El J. apply (lock_ok_same now now s); [lia|rewrite Es; apply J|by rewrite Es| |done].
  intros gw task q. unfold lock_queue. rewrite El. intros Hg. split; [by eapply (lk_tail _ _ J)|].
  left. by eapply (lk_head _ _ J).
Qed.

Lemma unwritten_current gw now st task : unwritten task → current_read gw now st task.
Proof. by destruct task as [i ms w|o w|rq w]; simpl; intros ->. Qed.

(** A task joins a lock queue, or leaves it. *)
Lemma lock_ok_push now s gw task :
  unwritten task → lock_ok now s → lock_ok now (set_locks (<[gw := lock_queue gw s ++ [task]]> (locks s)) s).
Proof.
  intros Hu J. apply (lock_ok_same now now s); [lia|apply J|reflexivity| |done].
  intros gw' task' q. unfold lock_queue at 1. simpl. rewrite default_insert. case_decide as Hg.
  - subst gw'. destruct (lock_queue gw s) as [|x l] eqn:Hq; simpl; intros [= <- <-].
    + split; [constructor|]. left. by apply unwritten_current.
    + split; [|left; by eapply (lk_head _ _ J)]. apply Forall_app. split; [by eapply (lk_tail _ _ J)|].
      by repeat constructor.
  - intros Hq. split; [by eapply (lk_tail _ _ J)|left; by eapply (lk_head _ _ J)].
Qed.

Lemma lock_ok_pop now s gw task q :
  lock_queue gw s = task :: q → lock_ok now s → lock_ok now (set_locks (<[gw := q]> (locks s)) s).
Proof.
  intros Hq J. apply (lock_ok_same now now s); [lia|apply J|reflexivity| |done].
  intros gw' task' q'. unfold lock_queue at 1. simpl. rewrite default_insert. case_decide as Hg.
  - subst gw'. intros ->. pose proof (lk_tail _ _ J _ _ _ Hq) as Hf. inversion Hf; subst.
    split; [done|]. left. by apply unwritten_current.
  - intros Hq'. split; [by eapply (lk_tail _ _ J)|left; by eapply (lk_head _ _ J)].
Qed.

(** The holder's store call. *)
Lemma lock_ok_run now t s gw task task' q st :
  now ≤ t → lock_queue gw s = task :: q → ss_valid st → steady gw t st →
  (∀ gw', gw' ≠ gw → steady gw' t st ∧ (∀ c, stored gw' t (store s) c → stored gw' t st c)) →
  current_read gw t st task' → lock_ok now s →
  lock_ok t (set_locks (<[gw := task' :: q]> (locks s)) (set_store st s)).
Proof.
  intros Ht Hq Hv Hst Hother Hcur J. split; simpl; [done| | |].
  - intros gw'. destruct (decide (gw' = gw)) as [->|]; [done|by apply Hother].
  - intros gw' x q'. unfold lock_queue at 1. simpl. rewrite default_insert. case_decide as Hg.
    + subst gw'. by intros [= <- <-].
    + intros Hx. pose proof (lk_head _ _ J gw' x q' Hx) as Hc. destruct (Hother gw' Hg) as [_ Hs].
      assert (∀ c, stored gw' now (store s) c → stored gw' t st c) as Hs'.
      { intros c Hc'. apply Hs. intros t' ?. apply Hc'. lia. }
      destruct x as [i ms [[v|]|]|o [[c|]|]|rq [[c|]|]]; simpl in *; try done; naive_solver.
  - intros gw' x q'. unfold lock_queue at 1. simpl. rewrite default_insert. case_decide as Hg.
    + subst gw'. intros [= <- <-]. by eapply (lk_tail _ _ J).
    + by apply (lk_tail _ _ J).
Qed.

Lemma committed_run gw now s st r :
  ss_valid (store s) → (∀ gw, steady gw now (store s)) → committed gw now (store s) = (st, r) →
  ss_valid st ∧ same_from now (cells st) (cells (store s)) ∧
  (∀ c, r = Ok c → stored gw now st c).
Proof.
  intros Hv Hst. unfold committed, mbind, store_m_bind, mret, store_m_ret.
  destruct (read_versions gw now (store s)) as [s1 [p|e]] eqn:E; intros [= <- <-].
  - pose proof E as (? & _ & ?)%read_versions_ok; [|done]. split_and!; [done|done|].
    intros c [= <-]. by apply (read_versions_stored gw now (store s)).
  - apply read_versions_err in E as [? ?]; [|done]. by split_and!.
Qed.

Lemma steady_later gw now t (st : T) : now ≤ t → steady gw now st → steady gw t st.
Proof. intros ? Hst. eapply steady_same; [done|reflexivity|done]. Qed.

Lemma lock_run_ok now gw t s s' : now ≤ t → lock_ok now s → lock_run gw t s = Some s' → lock_ok t s'.
Proof.
  intros Ht J. pose proof (lk_valid _ _ J) as Hv.
  assert (∀ g, steady g t (store s)) as Hst.
  { intros g. by apply (steady_later g now), J. }
  assert (∀ st g, same_from t (cells st) (cells (store s)) →
    steady g t st ∧ (∀ c, stored g t (store s) c → stored g t st c)) as Hsame.
  { intros st g Hs. split; [|intros c; by apply stored_same; [lia|]].
    by eapply (steady_same g t t); [lia| |]. }
  assert (∀ st task task' q r, lock_queue gw s = task :: q → committed gw t (store s) = (st, r) →
    (∀ c, r = Ok c → stored gw t st c → current_read gw t st task') →
    (∀ e, r = Err e → current_read gw t st task') →
    lock_ok t (set_locks (<[gw := task' :: q]> (locks s)) (set_store st s))) as Hread.
  { intros st task task' q r Hq Hc Hok Herr. apply committed_run in Hc as (Hv' & Hs & Hr); [|done..].
    eapply lock_ok_run; [done..|by apply Hsame|intros; by apply Hsame|destruct r; eauto|done]. }
  unfold lock_run. destruct (lock_queue gw s) as [|[i ms [w|]|o [w|]|rq [w|]] q] eqn:Hq; try done.
  - destruct (commit_version gw ms t (store s)) as [st [v|e]] eqn:E; intros [= <-].
    + apply commit_stored in E as (Hv' & Hms & Hsto & Hstd & Hother); [|done].
      eapply lock_ok_run; try done. intros gw' Hne. destruct (Hother gw' Hne). auto.
    + apply commit_version_err in E as [Hv' Hs]; [|done].
      eapply lock_ok_run; [done..|by apply Hsame|intros; by apply Hsame|done|done].
  - destruct (committed gw t (store s)) as [st r] eqn:E. intros [= <-].
    eapply Hread; [done|done|by intros c ->|by intros e ->].
  - destruct (committed gw t (store s)) as [st r] eqn:E. intros [= <-].
    eapply Hread; [done|done|by intros c ->|by intros e ->].
Qed.

(** What [lock_done] leaves alone. *)
Lemma lock_done_locks gw task q s s' :
  lock_queue gw s = task :: q → lock_done gw s = Some s' →
  store s' = store s ∧ locks s' = <[gw := q]> (locks s).
Proof.
  intros Hq. unfold lock_done. rewrite Hq. destruct task as [i ms [[v|]|]|o [[c|]|]|rq [[c|]|]]; try done;
    intros [= <-]; try done.
  unfold note_reset, reset_end. set (s1 := set_locks _ s).
  destruct (route_same gw c s1) as (Hst & _ & _ & _ & _ & _ & Hl & _).
  repeat case_match; simpl; rewrite ?Hst, ?Hl; done.
Qed.

(** What each call does to the store and the locks. *)
Lemma exec_locks l s s' :
  exec l s = Some s' →
  match l with
  | LLockRun gw now => lock_run gw now s = Some s'
  | LLockDone gw => lock_done gw s = Some s'
  | LRoutingRead gw now => locks s' = locks s ∧
      (store s' = store s ∨ store s' = (committed gw now (store s)).1)
  | _ => store s' = store s ∧ (locks s' = locks s ∨
      ∃ gw task, unwritten task ∧ locks s' = <[gw := lock_queue gw s ++ [task]]> (locks s))
  end.
Proof.
  destruct l as [| | | | | | | | | |gw now|gw|gw now| | | | | | | |].
  11,12: done.
  all: step_paths; try (split; [done|by left]).
  all: try (split; [done|right; eexists _, _; split; [|done]; done]).
  all: split; [done|]; by right.
Qed.

(** The clock after a call. *)
Definition after (now : Z) (l : label) : Z :=
  match l with LLockRun _ t | LRoutingRead _ t => t | _ => now end.

Lemma exec_lock_ok now l s s' : lock_ok now s → now ≤ after now l → exec l s = Some s' → lock_ok (after now l) s'.
Proof.
  intros J Ht Hs%exec_locks.
  destruct l as [| | | | | | | | | |gw t|gw|gw t| | | | | | | |]; simpl in *.
  11: by eapply lock_run_ok.
  11: { destruct (lock_queue gw s) as [|task q] eqn:Hq; [unfold lock_done in Hs; by rewrite Hq in Hs|].
        destruct (lock_done_locks _ _ _ _ _ Hq Hs) as [Hst Hl].
        apply (lock_ok_frame _ (set_locks (<[gw := q]> (locks s)) s) s' Hst Hl). by eapply lock_ok_pop. }
  11: { destruct Hs as [Hl Hst].
        assert (ss_valid (store s') ∧ same_from t (cells (store s')) (cells (store s))) as [Hv Hsame].
        { destruct Hst as [->| ->]; [split; [apply J|done]|].
          destruct (committed gw t (store s)) as [st r] eqn:E.
          apply committed_run in E as (? & ? & _); [done|apply J|].
          intros g. by apply (steady_later g now), J. }
        apply (lock_ok_same now t s); [done..| |done].
        intros g task q. unfold lock_queue. rewrite Hl. intros Hg.
        split; [by eapply (lk_tail _ _ J)|left; by eapply (lk_head _ _ J)]. }
  all: destruct Hs as [Hst [Hl|(gw' & task & Hu & Hl)]]; [by apply (lock_ok_frame _ s)|].
  all: apply (lock_ok_frame _ (set_locks (<[gw' := lock_queue gw' s ++ [task]]> (locks s)) s) s' Hst Hl);
    by apply lock_ok_push.
Qed.

Lemma exec_all_lock_ok now ls s s' :
  lock_ok now s → in_order now ls → exec_all ls s = Some s' → lock_ok (end_time now ls) s'.
Proof.
  revert now s. induction ls as [|l ls IH]; intros now s J Ht; simpl; [by intros [= <-]|].
  destruct (exec l s) as [s1|] eqn:E; simpl; [|done].
  assert (now ≤ after now l ∧ in_order (after now l) ls ∧ end_time now (l :: ls) = end_time (after now l) ls)
    as (Hle & Ho & He) by (destruct l; simpl in *; try destruct Ht; split_and!; done || lia).
  intros Hs. simpl in He. rewrite He. eapply IH; [|done..]. by eapply exec_lock_ok.
Qed.

Lemma init_lock_ok (st : T) n now :
  ss_valid st → (∀ gw, steady gw now st) → lock_ok now (init st n).
Proof. intros Hv Hs. by split. Qed.
End lock.

(** ** What is written for a request *)

Section landed.
Context `{Pydantic} `{StateStore T}.
Implicit Types (s : t T).

(** A commit of the request was written. *)
Definition landed (i : string) s : Prop :=
  (∃ gw ms v, TCommit i ms (Some (Ok v)) ∈ lock_queue gw s) ∨ (∃ e, entries s !! i = Some e ∧ e_state e = Retiring).

Ltac bool_hyps :=
  repeat match goal with
    | E : bool_decide (_ = None) = true |- _ => apply bool_decide_eq_true in E
    | E : negb _ = true |- _ => apply negb_true_iff in E
    | E : bool_decide (_ ∈ _) = false |- _ => apply bool_decide_eq_false in E
    end; try congruence.

Lemma exec_retiring l s s' i e :
  queue_inv s → exec l s = Some s' → entries s !! i = Some e → e_state e = Retiring →
  ∃ e', entries s' !! i = Some e' ∧ e_state e' = Retiring.
Proof.
  intros I Hs Hi Hst. destruct (exec_le _ _ _ I Hs i e Hi) as (e' & Hi' & _). exists e'. split; [done|].
  assert (∀ gw q, queue_of gw s = i :: q → False) as Hq.
  { intros gw q Hq. destruct (proj1 (inv_queue _ _ _ _ _ I gw i)) as (x & Hx & (_ & ? & _)); [|congruence].
    unfold queue_of in Hq. rewrite Hq. constructor. }
  assert (∀ gw x, running_entry i gw s = Ok x → run_state i gw s = Some Retiring) as Hre.
  { intros gw x (Hr & Hx & _)%running_entry_ok. rewrite (run_state_Some s gw i x) by done. congruence. }
  assert (∀ gw, running s !! gw = Some i → committing i gw s = true) as Hrun.
  { intros gw Hr. unfold committing. rewrite (run_state_Some s gw i e) by done. rewrite Hst.
    by rewrite (bool_decide_eq_true_2 (_ = _)), orb_true_r. }
  revert Hs Hi'. step_cases l; try congruence.
  all: repeat match goal with
       | E : <[?a := _]> _ !! _ = Some _ |- _ => apply lookup_insert_Some in E as [[-> <-]|[_ E]]; [bool_hyps|]
       end; try congruence.
  all: repeat match goal with
       | E : alter _ ?j _ !! _ = Some _ |- _ =>
           destruct (decide (j = i)) as [->|]; [|rewrite lookup_alter_ne in E by done]
       end; try congruence.
  all: rewrite ?lookup_alter_eq, ?Hi in *; simplify_eq/=; try congruence.
  all: try (by exfalso; eapply Hq).
  all: bool_hyps; try (destruct_or!; congruence).
  all: try match goal with E : running_entry _ _ _ = Ok _ |- _ => apply Hre in E; set_solver end.
  all: try (exfalso; match goal with N : ¬ (_ ∨ _) |- _ => apply N; right; congruence end).
  all: match goal with E : committing _ _ _ = false |- _ => rewrite Hrun in E; done end.
Qed.

Lemma exec_landed l s s' i : queue_inv s → landed i s → exec l s = Some s' → landed i s'.
Proof.
  intros I [(gw & ms & v & Hin)|(e & Hi & Hst)] Hs; [|right; by eapply exec_retiring].
  assert (∀ q, lock_queue gw s' = lock_queue gw s ++ q → landed i s') as Hkeep.
  { intros q Hq. left. exists gw, ms, v. rewrite Hq. apply elem_of_app. by left. }
  assert (∀ gw' q, locks s' = <[gw' := q]> (locks s) → gw' ≠ gw → lock_queue gw s' = lock_queue gw s ++ []) as Hother.
  { intros gw' q Hl Hne. unfold lock_queue. rewrite Hl, lookup_insert_ne by done. by rewrite app_nil_r. }
  pose proof Hs as Hl%exec_locks. destruct l as [| | | | | | | | | |gw' now|gw'|gw' now| | | | | | | |].
  11: { unfold lock_run in Hl. destruct (lock_queue gw' s) as [|task q] eqn:Hq; [done|].
        assert (∃ task', locks s' = <[gw' := task' :: q]> (locks s) ∧ ∀ j w, task ≠ TCommit j w (Some (Ok v))) as (task' & Hl' & Hne).
        { destruct task as [j ms' [w|]|o [w|]|rq [w|]]; try done; repeat case_match; simplify_eq/=; eexists; done. }
        destruct (decide (gw' = gw)) as [->|Hg]; [|by eapply Hkeep, Hother].
        left. exists gw, ms, v. unfold lock_queue. rewrite Hl', lookup_insert_eq. simpl. right.
        rewrite Hq in Hin. apply elem_of_cons in Hin as [<-|Hin]; [by destruct (Hne i ms)|done]. }
  11: { destruct (lock_queue gw' s) as [|task q] eqn:Hq; [unfold lock_done in Hl; by rewrite Hq in Hl|].
        destruct (lock_done_locks _ _ _ _ _ Hq Hl) as [_ Hl'].
        destruct (decide (gw' = gw)) as [->|Hg]; [|by eapply Hkeep, Hother].
        assert (i ∈ commit_ids (lock_queue gw s)) as Hc.
        { unfold commit_ids. apply list_elem_of_omap. by exists (TCommit i ms (Some (Ok v))). }
        rewrite Hq in Hin. apply elem_of_cons in Hin as [<-|Hin].
        - right. destruct (inv_commit _ _ _ _ _ I gw i Hc) as (e & He & _).
          unfold lock_done in Hl. rewrite Hq in Hl. injection Hl as <-. simpl. rewrite lookup_alter_eq, He. by eexists.
        - left. exists gw, ms, v. unfold lock_queue. by rewrite Hl', lookup_insert_eq. }
  11: { apply (Hkeep []). unfold lock_queue. by rewrite (proj1 Hl), app_nil_r. }
  all: destruct Hl as [_ [Hl|(gw' & task & _ & Hl)]];
    [apply (Hkeep []); unfold lock_queue; by rewrite Hl, app_nil_r|].
  all: destruct (decide (gw' = gw)) as [->|Hg]; [|by eapply Hkeep, Hother].
  all: eapply (Hkeep [task]); unfold lock_queue; by rewrite Hl, lookup_insert_eq.
Qed.

Lemma exec_all_landed ls s s' i : queue_inv s → landed i s → exec_all ls s = Some s' → landed i s'.
Proof.
  intros I Hi. apply (exec_all_ind (λ s, queue_inv s ∧ landed i s)); [|done].
  intros l s1 s2 [I1 H1] Hs. split; [by eapply exec_inv|by eapply exec_landed].
Qed.
End landed.

Section valid.
Context `{Pydantic} `{StateStoreAtomic T}.
Import LedgerStore.
Implicit Types (s : t T).

Lemma committed_valid gw now (st : T) : ss_valid st → ss_valid (committed gw now st).1.
Proof.
  intros Hv. unfold committed, mbind, store_m_bind, mret, store_m_ret. destruct (read_versions gw now st) as [s1 [p|e]] eqn:E.
  - by apply read_versions_ok in E as (? & _).
  - by apply read_versions_err in E as [? _].
Qed.

Lemma exec_valid l s s' : ss_valid (store s) → exec l s = Some s' → ss_valid (store s').
Proof.
  intros Hv Hs%exec_locks. destruct l as [| | | | | | | | | |gw now|gw|gw now| | | | | | | |]; try by destruct Hs as [-> _].
  - unfold lock_run in Hs. destruct (lock_queue gw s) as [|[i ms [w|]|o [w|]|rq [w|]] q]; try done.
    + destruct (commit_version gw ms now (store s)) as [st [v|e]] eqn:E; injection Hs as <-; simpl.
      * by apply commit_stored in E as (? & _).
      * by apply commit_version_err in E as [? _].
    + pose proof (committed_valid gw now _ Hv) as Hc. destruct (committed gw now (store s)); by injection Hs as <-.
    + pose proof (committed_valid gw now _ Hv) as Hc. destruct (committed gw now (store s)); by injection Hs as <-.
  - destruct (lock_queue gw s) as [|task q] eqn:Hq; [unfold lock_done in Hs; by rewrite Hq in Hs|].
    by destruct (lock_done_locks _ _ _ _ _ Hq Hs) as [-> _].
  - destruct Hs as [_ [->| ->]]; [done|by apply committed_valid].
Qed.

Lemma exec_all_valid ls s s' : ss_valid (store s) → exec_all ls s = Some s' → ss_valid (store s').
Proof. intros Hv. apply (exec_all_ind (λ s, ss_valid (store s))); [|done]. intros; by eapply exec_valid. Qed.

(** A commit that runs either changes nothing that is stored, or has landed. *)
Lemma commit_runs gw now s s' i ms q :
  ss_valid (store s) → lock_queue gw s = TCommit i ms None :: q → lock_run gw now s = Some s' →
  same_from now (cells (store s')) (cells (store s)) ∨ landed i s'.
Proof.
  intros Hv Hq. unfold lock_run. rewrite Hq. destruct (commit_version gw ms now (store s)) as [st [v|e]] eqn:E; intros [= <-].
  - right. left. exists gw, ms, v. unfold lock_queue. simpl. rewrite lookup_insert_eq. left.
  - left. by apply commit_version_err in E as [_ ?].
Qed.
End valid.

(** ** Order *)

(** [j] comes before [i]. *)
Definition before (j i : string) (q : list string) : Prop := ∃ q1 q2 q3, q = q1 ++ j :: q2 ++ i :: q3.

Section order.
Context `{Pydantic} `{StateStore T}.
Implicit Types (s : t T).

(** What a call does to the queues: nothing, a new request last, one dropped, or the first started. *)
Definition queue_step (q q' : list string) : Prop :=
  q' = q ∨ (∃ x, q' = q ++ [x]) ∨ (∃ x, q' = filter (λ y, y ≠ x) q) ∨ (∃ x, q = x :: q').

Lemma exec_queue l s s' g : exec l s = Some s' → queue_step (queue_of g s) (queue_of g s').
Proof.
  unfold queue_step, queue_of. step_cases l; try by left.
  all: rewrite default_insert; match goal with |- context [decide (?x = ?y)] =>
         destruct (decide (x = y)) as [->|]; [|by left] end.
  all: unfold queue_of in *; eauto.
Qed.

Lemma before_step j i q q' :
  NoDup q → queue_step q q' → before j i q → j ∈ q' → i ∈ q' → before j i q'.
Proof.
  intros Hnd Hs (q1 & q2 & q3 & ->) Hj Hi. destruct Hs as [->|[[x ->]|[[x ->]|[x Hq]]]].
  - by exists q1, q2, q3.
  - exists q1, q2, (q3 ++ [x]). by rewrite <-!app_assoc, <-app_comm_cons, <-app_assoc.
  - apply list_elem_of_filter in Hj as [Hj _], Hi as [Hi _].
    exists (filter (λ y, y ≠ x) q1), (filter (λ y, y ≠ x) q2), (filter (λ y, y ≠ x) q3).
    by rewrite filter_app, filter_cons_True, filter_app, filter_cons_True.
  - destruct q1 as [|y q1]; simpl in *; injection Hq as -> <-; [|by exists q1, q2, q3].
    by apply NoDup_cons in Hnd as [? _].
Qed.

(** A request starts only as the first of its queue, with nothing running on its gateway. *)
Lemma exec_starts l s s' i e e' :
  queue_inv s → exec l s = Some s' → entries s !! i = Some e → entries s' !! i = Some e' →
  e_state e = Queued → e_state e' ≠ Queued →
  ∃ gw q, drainers s !! gw = Some DReady ∧ queue_of gw s = i :: q.
Proof.
  intros I Hs Hi Hi' Hq Hnq.
  assert (∀ gw j, running s !! gw = Some j → j ≠ i) as Hrun.
  { intros gw j Hr ->. destruct (running_runs _ _ _ I Hr) as (x & Hx & (_ & ? & _)). congruence. }
  assert (∀ gw j d, drainers s !! gw = Some d → drainer_id d = Some j → j ≠ i) as Hdr.
  { intros gw j d Hd Hj. eapply Hrun. by eapply drain_running. }
  assert (∀ gw j ms w q, lock_queue gw s = TCommit j ms w :: q → j ≠ i) as Hlk.
  { intros gw j ms w q Hl ->. assert (e_state e = Committing); [|congruence].
    apply (commit_state s gw i); [done..|]. unfold lock_queue in Hl. rewrite Hl. constructor. }
  assert (∀ gw j x, running_entry j gw s = Ok x → j ≠ i) as Hre.
  { intros gw j x (Hr & _ & _)%running_entry_ok. by eapply Hrun. }
  revert Hs Hi'. step_cases l; try congruence.
  all: repeat match goal with
       | E : <[?a := _]> _ !! _ = Some _ |- _ => apply lookup_insert_Some in E as [[-> <-]|[_ E]]; [done|]
       end; try congruence.
  all: repeat match goal with
       | E : alter _ ?j _ !! _ = Some _ |- _ =>
           destruct (decide (j = i)) as [->|]; [|rewrite lookup_alter_ne in E by done]
       end; try congruence.
  all: try (exfalso; first [by eapply Hrun|by eapply Hdr|by eapply Hlk|by eapply Hre]).
  all: rewrite ?lookup_alter_eq, ?Hi in *; simplify_eq/=; try congruence; eauto.
Qed.

(** [j] was ahead of [i] on their gateway: until [j] is done, [i] waits. *)
Definition ahead (gw j i : string) s : Prop :=
  ∃ ej ei, entries s !! j = Some ej ∧ entries s !! i = Some ei ∧
    gateway (e_request ej) = gw ∧ gateway (e_request ei) = gw ∧
    (done ej ≠ None ∨
     (e_state ei = Queued ∧ (done ei ≠ None ∨ e_state ej ≠ Queued ∨ before j i (queue_of gw s)))).

Lemma exec_ahead l s s' gw j i :
  queue_inv s → j ≠ i → ahead gw j i s → exec l s = Some s' → ahead gw j i s'.
Proof.
  intros I Hji (ej & ei & Hj & Hi & Hgj & Hgi & Hc) Hs. pose proof (exec_inv _ _ _ I Hs) as I'.
  destruct (exec_le _ _ _ I Hs j ej Hj) as (ej' & Hj' & Hlj).
  destruct (exec_le _ _ _ I Hs i ei Hi) as (ei' & Hi' & Hli).
  exists ej', ei'. split_and!; [done|done|by rewrite (le_request _ _ Hlj)|by rewrite (le_request _ _ Hli)|].
  destruct (done ej) as [o|] eqn:Hdj; [left; by rewrite (le_done _ _ Hlj o)|].
  destruct Hc as [?|[Hq Hc]]; [done|]. destruct (done ej') eqn:Hdj'; [by left|right].
  assert (e_state ei' = Queued) as Hq'.
  { destruct (decide (e_state ei' = Queued)) as [|Hnq]; [done|]. exfalso.
    destruct (exec_starts l s s' i ei ei') as (gw' & q & Hd & Hqueue); [done..|].
    destruct (proj1 (inv_queue _ _ _ _ _ I gw' i)) as (x & Hx & (Hgx & _ & Hnx)).
    { unfold queue_of in Hqueue. rewrite Hqueue. constructor. }
    assert (x = ei) as -> by congruence. assert (gw' = gw) as -> by congruence.
    destruct Hc as [?|[Hnj|(q1 & q2 & q3 & Hb)]]; [done| |].
    - assert (running s !! gw = Some j) as Hr by (apply (inv_running _ _ _ _ _ I); by exists ej).
      rewrite <-(inv_drainer _ _ _ _ _ I gw), Hd in Hr. done.
    - pose proof (inv_nodup _ _ _ _ _ I gw) as Hnd. change (default [] (queues s !! gw)) with (queue_of gw s) in Hnd.
      rewrite Hb in Hnd, Hqueue. destruct q1 as [|y q1]; simpl in *; injection Hqueue as -> _; [done|].
      apply NoDup_cons in Hnd as [Hni _]. apply Hni. set_solver. }
  split; [done|]. destruct (done ei') eqn:Hdi'; [by left|right].
  destruct (decide (e_state ej' = Queued)) as [Hqj'|]; [right|by left].
  assert (∀ x e', entries s' !! x = Some e' → gateway (e_request e') = gw → e_state e' = Queued → done e' = None →
    x ∈ queue_of gw s') as Hin.
  { intros x e' ????. apply (inv_queue _ _ _ _ _ I'). by exists e'. }
  destruct Hc as [Hdi|[Hnj|Hb]].
  - exfalso. destruct (done ei) as [o|] eqn:Ho; [|done]. by rewrite (le_done _ _ Hli o Ho) in Hdi'.
  - by apply (le_started _ _ Hlj) in Hnj.
  - eapply before_step; [apply (inv_nodup _ _ _ _ _ I)|by eapply exec_queue|done|..].
    + eapply Hin; [done|by rewrite (le_request _ _ Hlj)|done..].
    + eapply Hin; [done|by rewrite (le_request _ _ Hli)|done..].
Qed.

Lemma exec_all_ahead ls s s' gw j i :
  queue_inv s → j ≠ i → ahead gw j i s → exec_all ls s = Some s' → ahead gw j i s'.
Proof.
  intros I Hji Ha. apply (exec_all_ind (λ s, queue_inv s ∧ ahead gw j i s)); [|done].
  intros l s1 s2 [I1 Ha1] Hs. split; [by eapply exec_inv|by eapply exec_ahead].
Qed.

(** What a submitted request waits behind is ahead of it. *)
Lemma submit_ahead fresh rq s s' i j :
  queue_inv s → entries s !! fresh = None → submit fresh rq s = (s', (i, Some j)) →
  i = fresh ∧ j ≠ i ∧ ahead (gateway rq) j i s'.
Proof.
  intros I Hf Hs.
  assert (entries s' = <[fresh := new_entry (with_id fresh rq)]> (entries s) ∧ i = fresh ∧
    queue_of (gateway rq) s' = queue_of (gateway rq) s ++ [fresh] ∧
    match last (queue_of (gateway rq) s) with
    | Some x => Some x | None => running s !! gateway rq end = Some j) as (He & -> & Hq' & Hb).
  { unfold submit in Hs. injection Hs as <- <- Hb. unfold queue_of. simpl.
    by destruct (drainers s !! gateway rq); simpl; rewrite lookup_insert_eq. }
  split; [done|]. clear Hs. set (gw := gateway rq) in *.
  assert (∃ e, entries s !! j = Some e ∧ gateway (e_request e) = gw ∧
    (e_state e ≠ Queued ∨ before j fresh (queue_of gw s ++ [fresh]))) as (e & Hj & Hg & Hc).
  { destruct (last (queue_of gw s)) as [x|] eqn:Hl.
    - injection Hb as ->. apply last_Some in Hl as [q Hq].
      destruct (proj1 (inv_queue _ _ _ _ _ I gw j)) as (e & He' & (Hg & _)).
      { unfold queue_of in Hq. rewrite Hq. set_solver. }
      exists e. split_and!; [done..|]. right. exists q, [], []. rewrite Hq. by rewrite <-app_assoc.
    - destruct (running_runs _ _ _ I Hb) as (e & He' & (Hg & ? & _)). eauto. }
  assert (j ≠ fresh) as Hne by congruence. split; [done|].
  exists e, (new_entry (with_id fresh rq)). rewrite He, lookup_insert_ne, lookup_insert_eq by done.
  split_and!; [done..|]. right. split; [done|]. right. rewrite Hq'. destruct Hc; [by left|by right].
Qed.
End order.

(** ** Properties *)

Module QueueProperties.
Import LedgerStore ConfigSchema.Example FailureFacts.

(** *** A run to evaluate: two requests, the first switching and committing *)

Definition example_request (models : list json) : DeployRequest :=
  mkRequest "gw" (mode reconcile) blue_green (Some models) [] "".
Definition v1 : list json := [LedgerTheorems.raw_named "a"].

Definition example_start : t Actor.t := init (Actor.init 0 0) 100.

(** Two requests submitted, and the first one's worker past its switch. *)
Definition example_run : list label :=
  [LSubmit "r1" (example_request v1); LSubmit "r2" (example_request v1);
   LDrain "gw" true; LRecovered; LDrain "gw" true; LDiff "r1" "gw"; LLockRun "gw" 1; LLockDone "gw";
   LSwitch "r1" "gw" v1].

Definition example_state : t Actor.t := default example_start (exec_all example_run example_start).

Lemma example_reached : exec_all example_run example_start = Some example_state.
Proof. vm_compute. reflexivity. Qed.

(** C2: An accepted cancel is final: in any interleaving of calls, once [cancel] has said the
    request is cancelled, none of its commits is in flight or ever lands, whatever its worker
    still calls. *)
Theorem cancel_is_final `{Pydantic} `{StateStore T} ls ls' (st : T) now s s1 s2 i m :
  exec_all ls (init st now) = Some s → cancel i s = (s1, CancelAccepted m) →
  exec_all ls' s1 = Some s2 →
  ∃ e, entries s2 !! i = Some e ∧ e_state e ≠ Committing ∧ e_state e ≠ Retiring ∧
    ∀ gw, i ∉ commit_ids (lock_queue gw s2).
Proof.
  intros I%reachable_inv Hc Hs2. destruct (cancel_accepted _ _ _ _ I Hc) as (e & He & Hn).
  assert (queue_inv s1) as I1 by (pose proof (cancel_inv i s I) as I1; by rewrite Hc in I1).
  destruct (exec_all_le _ _ _ I1 Hs2) as [I2 Hle]. destruct (Hle i e He) as (e' & He' & Hl).
  exists e'. split; [done|]. eapply never_commits_state; [done..|]. by eapply never_commits_le.
Qed.

Lemma cancel_is_final_witness :
  let s1 := (cancel "r1" example_state).1 in
  let s2 := default s1 (exec_all [LCommit "r1" "gw" v1] s1) in
  (cancel "r1" example_state).2 = CancelAccepted "being cancelled and rolled back" ∧
  ∀ gw, "r1"%string ∉ commit_ids (lock_queue gw s2).
Proof.
  intros s1 s2. split; [vm_compute; reflexivity|].
  destruct (cancel_is_final example_run [LCommit "r1" "gw" v1] (Actor.init 0 0) 100 example_state s1 s2 "r1"
    "being cancelled and rolled back") as (e & _ & _ & _ & ?);
    [exact example_reached|vm_compute; reflexivity|vm_compute; reflexivity|done].
Defined.

(** C1: Outcomes are truthful even when workers die mid-commit: over a store whose calls take effect or raise, never
    both, and if each rollback after a dead worker runs to its end, a request reported as anything but succeeded has
    nothing in the store. Whatever happened before and whatever happens later, none of its commits has changed or will
    change what the store holds, and none is in flight. The version lock makes the rollback wait out a commit the
    dead worker had sent. *)
Theorem outcomes_truthful `{Pydantic} `{StateStoreAtomic T} ls ls' (st : T) now s s' i e o :
  ss_valid st → exec_all ls (init st now) = Some s → exec_all ls' s = Some s' →
  Forall rollback_returns (ls ++ ls') → entries s !! i = Some e → done e = Some o →
  out_state o ≠ "succeeded"%string →
  (∃ e', entries s' !! i = Some e' ∧ done e' = Some o ∧ e_state e' ≠ Retiring) ∧
  (∀ gw, i ∉ commit_ids (lock_queue gw s')) ∧
  ∀ earlier later gw t s1 s2 ms q,
    ls ++ ls' = earlier ++ LLockRun gw t :: later → exec_all earlier (init st now) = Some s1 →
    lock_queue gw s1 = TCommit i ms None :: q → exec (LLockRun gw t) s1 = Some s2 →
    same_from t (cells (store s2)) (cells (store s1)).
Proof.
  intros Hv Hs Hs' Hf Hi Hd Ho. pose proof Hf as [Hf1 Hf2]%Forall_app.
  destruct (exec_all_settled _ _ _ (init_inv st now) settled_empty Hf1 Hs) as [I J].
  destruct (exec_all_settled _ _ _ I J Hf2 Hs') as [I' J'].
  destruct (exec_all_le _ _ _ I Hs') as [_ Hle]. destruct (Hle i e Hi) as (e' & He' & Hl).
  pose proof (le_done _ _ Hl o Hd) as Hd'. destruct (st_done _ _ _ J' i e' o He' Hd' Ho) as [Hr Hno].
  assert (∀ gw, i ∉ commit_ids (lock_queue gw s')) as Hnone by (intros gw; rewrite <-shape_commit; apply Hno).
  split; [eauto|]. split; [done|]. intros earlier later gw t s1 s2 ms q Hsplit Hs1 Hq Hs2.
  destruct (commit_runs gw t s1 s2 i ms q) as [|Hland]; [by eapply (exec_all_valid earlier (init st now))|done..|]. exfalso.
  assert (exec_all (earlier ++ LLockRun gw t :: later) (init st now) = Some s') as Hall.
  { rewrite <-Hsplit. apply exec_all_app. eauto. }
  apply exec_all_app in Hall as (s1' & Hs1' & Hrest). assert (s1' = s1) as -> by congruence.
  cbn [exec_all] in Hrest. rewrite Hs2 in Hrest. cbn [mbind option_bind] in Hrest.
  destruct (exec_all_le _ _ _ (init_inv st now) Hs1) as [I1 _]. pose proof (exec_inv _ _ _ I1 Hs2) as I2.
  destruct (exec_all_landed _ _ _ _ I2 Hland Hrest) as [(g & ms' & v & Hin)|(x & Hx & Hst)]; [|congruence].
  apply (Hnone g). unfold commit_ids. apply list_elem_of_omap. by exists (TCommit i ms' (Some (Ok v))).
Qed.

(** The worker dies with its commit in flight: the rollback's reset waits, and the request is
    reported as succeeded; one that dies before it commits is reported as failed. *)
Definition died_before_commit : list label :=
  [LWorkerDies "gw" "killed"; LReset "gw" (Some "r1"%string); LCommit "r1" "gw" v1; LLockRun "gw" 2;
   LLockDone "gw"; LRollbackOver "gw" RbReturned].

Lemma outcomes_truthful_witness :
  let s := default example_state (exec_all died_before_commit example_state) in
  (e ← entries s !! "r1"%string; o ← done e; Some (out_state o)) = Some "failed"%string ∧
  ∀ gw, "r1"%string ∉ commit_ids (lock_queue gw s).
Proof.
  intros s. split; [vm_compute; reflexivity|].
  destruct (outcomes_truthful (example_run ++ died_before_commit) [] (Actor.init 0 0) 100 s s "r1"
    (default (new_entry (rollback_request "")) (entries s !! "r1"%string))
    (default (good_outcome "") (entries s !! "r1"%string ≫= done))) as (_ & ? & _);
    [constructor|vm_compute; reflexivity|reflexivity|repeat constructor|vm_compute; reflexivity
    |vm_compute; reflexivity|vm_compute; discriminate|done].
Defined.

(** Without the premise on the store outcomes can lie: a store may write a version and raise all the same, as one does
    whose reply is lost. The request is then reported as failed with its version committed. *)
Definition Lossy : Type := Actor.t.
Definition lossy_run {A} (op : store_op A) (now : Z) (s : Lossy) : Lossy * res A :=
  match op in store_op B return Lossy * res B → Lossy * res B with
  | OSet _ _ _ => λ p, (p.1, Err StateStoreUnavailableError)
  | _ => λ p, p
  end (Actor.run op now s).
Theorem lost_reply_misreports :
  let store : StateStore Lossy := @lossy_run in
  ∃ s e o,
    exec_all (example_run ++ [LCommit "r1" "gw" v1; LLockRun "gw" 2; LLockDone "gw"; LWorkerRaises "gw" "unavailable"])
      (init (Actor.init 0 0 : Lossy) 100) = Some s ∧
    entries s !! "r1"%string = Some e ∧ done e = Some o ∧ out_state o = "failed"%string ∧
    (committed "gw" 3 (DeployQueue.store s)).2 = Ok (Some v1).
Proof.
  intros store. eexists _, _, _. split; [vm_compute; reflexivity|]. repeat (split; [reflexivity|]). vm_compute. reflexivity.
Qed.

(** Without the premise on rollbacks outcomes can lie too: when the rollback after a dead worker fails before
    its reset, a request whose commit was in flight is reported as failed and its version lands
    afterwards all the same. *)
Theorem failed_rollback_misreports :
  ∃ s e o,
    exec_all (example_run ++ [LCommit "r1" "gw" v1; LWorkerDies "gw" "killed";
      LRollbackOver "gw" RbRaised; LLockRun "gw" 2; LLockDone "gw"]) example_start = Some s ∧
    entries s !! "r1"%string = Some e ∧ done e = Some o ∧ out_state o = "failed"%string ∧
    e_state e = Retiring ∧ (committed "gw" 3 (store s)).2 = Ok (Some v1).
Proof.
  eexists _, _, _. split; [vm_compute; reflexivity|]. repeat (split; [reflexivity|]). vm_compute. reflexivity.
Qed.

(** C14: No request is lost, and a gateway runs one at a time: in any interleaving, a request that
    isn't done is in its gateway's queue with a drain task to take it, or it is the one that
    gateway runs; and from there it can always still be brought to its outcome. *)
Theorem requests_never_lost `{Pydantic} `{StateStore T} ls (st : T) now s i e :
  exec_all ls (init st now) = Some s → entries s !! i = Some e → done e = None →
  let gw := gateway (e_request e) in
  ((i ∈ queue_of gw s ∧ is_Some (drainers s !! gw)) ∨ running s !! gw = Some i) ∧
  (∀ j e', entries s !! j = Some e' → done e' = None → gateway (e_request e') = gw →
     e_state e ≠ Queued → e_state e' ≠ Queued → j = i) ∧
  ∃ ls' s' e', exec_all ls' s = Some s' ∧ entries s' !! i = Some e' ∧ done e' ≠ None.
Proof.
  intros I%reachable_inv Hi Hd gw. split_and!; [| |by eapply can_finish].
  - destruct (decide (e_state e = Queued)) as [Hq|Hq].
    + left. assert (i ∈ queue_of gw s) as Hin by (apply (inv_queue _ _ _ _ _ I); by exists e).
      split; [done|]. apply (inv_drained _ _ _ _ _ I). intros E. unfold queue_of in Hin. rewrite E in Hin.
      by apply elem_of_nil in Hin.
    + right. apply (inv_running _ _ _ _ _ I). by exists e.
  - intros j e' Hj Hd' Hg Hq Hq'.
    assert (running s !! gw = Some i) by (apply (inv_running _ _ _ _ _ I); by exists e).
    assert (running s !! gw = Some j) by (apply (inv_running _ _ _ _ _ I); by exists e'). congruence.
Qed.

Lemma requests_never_lost_witness :
  ("r2"%string ∈ queue_of "gw" example_state ∧ is_Some (drainers example_state !! "gw"%string))
    ∨ running example_state !! "gw"%string = Some "r2"%string.
Proof.
  destruct (requests_never_lost example_run (Actor.init 0 0) 100 example_state "r2"
    (new_entry (with_id "r2" (example_request v1)))) as [? _];
    [exact example_reached|vm_compute; reflexivity|reflexivity|done].
Defined.

(** Requests run in the order they came: what [submit] says a request waits behind is ahead of
    it on the same gateway, and the request does not start before that one is done. *)
Theorem runs_in_order `{Pydantic} `{StateStore T} ls ls' (st : T) now s s1 s2 fresh rq i j :
  exec_all ls (init st now) = Some s → entries s !! fresh = None →
  submit fresh rq s = (s1, (i, Some j)) → exec_all ls' s1 = Some s2 →
  ∃ ei ej, entries s2 !! i = Some ei ∧ entries s2 !! j = Some ej ∧
    gateway (e_request ei) = gateway rq ∧ gateway (e_request ej) = gateway rq ∧
    (e_state ei ≠ Queued → done ej ≠ None).
Proof.
  intros I%reachable_inv Hf Hs Hs2. destruct (submit_ahead _ _ _ _ _ _ I Hf Hs) as (-> & Hne & Ha).
  assert (queue_inv s1) as I1 by (pose proof (submit_inv fresh rq s I Hf) as I1; by rewrite Hs in I1).
  destruct (exec_all_ahead _ _ _ _ _ _ I1 Hne Ha Hs2) as (ej & ei & Hj & Hi & Hgj & Hgi & Hc).
  exists ei, ej. split_and!; [done..|]. intros Hq. destruct Hc as [?|[? _]]; done.
Qed.

Lemma runs_in_order_witness :
  let s := default example_start (exec_all [LSubmit "r1" (example_request v1)] example_start) in
  let s1 := (submit "r2" (example_request v1) s).1 in
  (submit "r2" (example_request v1) s).2 = ("r2"%string, Some "r1"%string) ∧
  ∃ ei ej, entries s1 !! "r2"%string = Some ei ∧ entries s1 !! "r1"%string = Some ej ∧
    (e_state ei ≠ Queued → done ej ≠ None).
Proof.
  intros s s1. split; [vm_compute; reflexivity|].
  destruct (runs_in_order [LSubmit "r1" (example_request v1)] [] (Actor.init 0 0) 100 s s1 s1 "r2"
    (example_request v1) "r2" "r1") as (ei & ej & ? & ? & _ & _ & ?);
    [vm_compute; reflexivity|vm_compute; reflexivity|vm_compute; reflexivity|reflexivity|eauto].
Defined.

(** Routing numbers never repeat: if a gateway's routing at one moment and some gateway's at
    that moment or later have the same number, they are the same gateway and the same table, so a
    replica that holds a number holds that table. *)
Theorem routing_numbers_unique `{Pydantic} `{StateStore T} ls ls' (st : T) now s s' gw gw' r r' :
  exec_all ls (init st now) = Some s → exec_all ls' s = Some s' →
  routing s !! gw = Some r → routing s' !! gw' = Some r' → seq r = seq r' → gw = gw' ∧ r = r'.
Proof.
  intros Hs Hs' Hr Hr' E. destruct (reachable_seqs _ _ _ _ Hs) as [Hle Hinj].
  destruct (exec_all_seqs _ _ _ Hs') as [_ Hafter].
  destruct (Hafter gw' r' Hr') as [Hr''|Hlt]; [|specialize (Hle _ _ Hr); lia].
  assert (gw = gw') as -> by (by eapply Hinj). split; [done|congruence].
Qed.

Lemma routing_numbers_unique_witness :
  let r := mkRouting 101 (Some v1) [("a", "gw.a-0000000000")]%string in
  routing example_state !! "gw"%string = Some r ∧ r = r.
Proof.
  intros r. split; [vm_compute; reflexivity|].
  eapply (routing_numbers_unique example_run [LCancel "r2"] (Actor.init 0 0) 100 example_state
    (default example_state (exec_all [LCancel "r2"] example_state)) "gw" "gw" r r);
    [exact example_reached|vm_compute; reflexivity|vm_compute; reflexivity|vm_compute; reflexivity|reflexivity].
Defined.

(** A cancel's kill never hits a request that could still commit or already has: the worker
    killed after the grace period is that of a cancelled request being applied or switched, whose
    commit is refused from the cancel on. *)
Theorem kill_is_safe `{Pydantic} `{StateStore T} ls (st : T) now s i e :
  exec_all ls (init st now) = Some s → i ∈ killers s → entries s !! i = Some e → kills e = true →
  cancelled e = true ∧ (e_state e = Applying ∨ e_state e = Switching) ∧
  ∀ gw ms s', commit_begin i gw ms s = (s', Ok (Some tt)) → False.
Proof.
  intros Hs Hk Hi Hkill. destruct (killers_cancelled _ _ _ _ _ Hs Hk) as (x & Hx & Hc).
  assert (x = e) as -> by congruence. pose proof (reachable_inv _ _ _ _ Hs) as I.
  destruct (inv_cancelled _ _ _ _ _ I i e Hi Hc) as (H1 & H2 & H3). split_and!; [done| |].
  - unfold kills in Hkill. rewrite !andb_true_iff, negb_true_iff, !bool_decide_eq_true in Hkill.
    destruct Hkill as [[[_ Hrb%negb_true_iff%bool_decide_eq_false] _] _].
    destruct (e_state e); auto; done.
  - intros gw ms s'. unfold commit_begin. destruct (running_entry i gw s) as [y|] eqn:Hre; [|done].
    apply running_entry_ok in Hre as (_ & Hy & _). assert (y = e) as -> by congruence. by rewrite Hc.
Qed.

Lemma kill_is_safe_witness :
  let s := (cancel "r1" example_state).1 in
  ∃ e, entries s !! "r1"%string = Some e ∧ kills e = true ∧ cancelled e = true.
Proof.
  intros s. eexists. split; [vm_compute; reflexivity|]. split; [vm_compute; reflexivity|].
  eapply (kill_is_safe (example_run ++ [LCancel "r1"]) (Actor.init 0 0) 100 s "r1");
    [vm_compute; reflexivity|vm_compute; left|vm_compute; reflexivity|vm_compute; reflexivity].
Defined.

(** The version lock works: when [reset_routing] comes back with the committed models it
    routes the gateway by exactly what the store holds from then on, no commit having slipped in
    between; and when [commit] comes back, its models are what the store holds. *)
Theorem lock_reads_current `{Pydantic} `{StateStoreAtomic T} ls (st : T) n now s s' gw task q :
  ss_valid st → (∀ gw, steady gw now st) → in_order now ls →
  exec_all ls (init st n) = Some s → lock_queue gw s = task :: q → lock_done gw s = Some s' →
  let t := end_time now ls in
  (∀ o c, task = TReset o (Some (Ok c)) → (∃ apps, routing_of (next s + 1) c gw = Ok apps) →
     stored gw t (store s') c ∧
     ∃ r, routing s' !! gw = Some r ∧
       (routing_models r = c ∨ opt_eqb Json.eqb (JList <$> routing_models r) (JList <$> c) = true)) ∧
  (∀ i ms v, task = TCommit i ms (Some (Ok v)) →
     stored gw t (store s') (Some ms) ∧ version_models v = ms).
Proof.
  intros Hv Hst Ho Hs Hq Hd t. pose proof (exec_all_lock_ok now ls _ s (init_lock_ok st n now Hv Hst) Ho Hs) as J.
  pose proof (lk_head _ _ J _ _ _ Hq) as Hc. destruct (lock_done_locks _ _ _ _ _ Hq Hd) as [Hst' _].
  rewrite Hst'. split.
  - intros o c -> [r Hr]. split; [done|]. unfold lock_done in Hd. rewrite Hq in Hd. injection Hd as <-.
    assert (∃ r, routing (reset_end gw c (set_locks (<[gw := q]> (locks s)) s)) !! gw = Some r ∧
      (routing_models r = c ∨ opt_eqb Json.eqb (JList <$> routing_models r) (JList <$> c) = true)) as Hre.
    { unfold reset_end. simpl.
      assert (∃ r0, routing (route gw c (set_locks (<[gw := q]> (locks s)) s)).1 !! gw = Some r0 ∧
        (routing_models r0 = c ∨ opt_eqb Json.eqb (JList <$> routing_models r0) (JList <$> c) = true)) as Hroute.
      { unfold route, next_seq. simpl. rewrite Hr. simpl. exists r. rewrite lookup_insert_eq. split; [done|].
        left. unfold routing_of in Hr. by apply res_bind_ok in Hr as (apps & _ & [= <-]). }
      destruct (routing s !! gw) as [r0|] eqn:Hr0; [|done].
      destruct (opt_eqb Json.eqb (JList <$> routing_models r0) (JList <$> c)) eqn:E; [|done].
      exists r0. split; [by rewrite <-Hr0|by right]. }
    unfold note_reset. repeat case_match; done.
  - intros i ms v ->. destruct Hc. done.
Qed.

Lemma lock_reads_current_witness :
  let ls := example_run ++ [LCommit "r1" "gw" v1; LLockRun "gw" 2] in
  let s := default example_start (exec_all ls example_start) in
  ∃ s', lock_done "gw" s = Some s' ∧ stored "gw" 2 (store s') (Some v1).
Proof.
  intros ls s. eexists. split; [vm_compute; reflexivity|].
  destruct (lock_reads_current ls (Actor.init 0 0) 100 0 s
    (default s (lock_done "gw" s)) "gw" (TCommit "r1" v1 (Some (Ok (mkVersion 1 v1)))) []) as [_ Hc].
  - constructor.
  - intros gw t _. reflexivity.
  - simpl. repeat split; lia.
  - vm_compute. reflexivity.
  - vm_compute. reflexivity.
  - vm_compute. reflexivity.
  - apply (Hc "r1"%string v1 (mkVersion 1 v1)). reflexivity.
Defined.
End QueueProperties.
