(* ===== verification/NodeLeases.v ===== *)
(** * Node deploy leases

    [src/modelship/deploy/deploy_coordinator.py] ([acquire], [_load_leases], [_check_leases],
    [_release]): one deploy lease per node, so loads on one node run one at a time, and
    [src/modelship/deploy/deploy_leases.py], the replica's wait for its node's lease. Each
    definition is the code between two awaits; a call that awaits the store is in [grants] until its store
    call has returned, and [LeaseRuns] has the interleavings, with the release that a check waits for. *)

From S2P Require Import Prelude StateStore MemoryStore ConfigSchema.
Local Open Scope Z_scope.

(** ** Data *)

(** [_Lease] *)
Record Lease : Type := mkLease {
  app : string;
  deployment : string;
  replica : string;
  label : string;
}.

#[export] Instance lease_eq_dec : EqDecision Lease.
Proof. solve_decision. Defined.

Definition LEASE_NAMESPACE : string := "deploy-leases".
Definition UNLISTED_CHECKS : Z := 2.

(** [_lease_key] *)
Definition lease_key (node : string) : string := LEASE_NAMESPACE +:+ "/" +:+ node.

(** [lease._asdict()] and [_Lease( **value )]; a value with other fields is a [TypeError]. *)
Definition asdict (l : Lease) : json :=
  JObj [("app", JStr (app l)); ("deployment", JStr (deployment l)); ("replica", JStr (replica l));
        ("label", JStr (label l))]%string.

Definition of_dict (d : dict json) : res Lease :=
  let str k := match Dict.get k d with Some (JStr s) => Ok s | _ => Err (TypeError "lease field") end in
  if bool_decide (Forall (λ k, k ∈ ["app"; "deployment"; "replica"; "label"]%string) (Dict.keys d)) then
    a ← str "app"%string; dp ← str "deployment"%string; r ← str "replica"%string; l ← str "label"%string;
    mret (mkLease a dp r l)
  else Err (TypeError "unexpected lease field").

(** The answer a caller of [acquire] gets: [None] in the code when granted. *)
Inductive reply : Type := Granted | Blocked (by_what : string).

Record t : Type := mk {
  leases : gmap string Lease;
  (** node -> checks in a row that didn't list its lease's replica *)
  unlisted : gmap string Z;
  loaded : bool;
  (** [acquire] calls whose lease is being stored *)
  grants : list (string * Lease);
}.

Definition init : t := mk ∅ ∅ false [].

(** ** Operations *)

(** [acquire] up to its store call. *)
Definition acquire (key : string) (lease : Lease) (s : t) : t * option reply :=
  if loaded s then
    match leases s !! key with
    | Some held =>
        (s, Some (if decide (held = lease) then Granted else Blocked ("held by " +:+ label held)))
    | None =>
        (mk (<[key := lease]> (leases s)) (delete key (unlisted s)) (loaded s) ((key, lease) :: grants s), None)
    end
  else (s, Some (Blocked "deploy lease service starting")).

(** The store call [acquire] awaits. *)
Definition grant_write `{StateStore T} (key : string) (lease : Lease) (now : Z) : store_m T unit :=
  ss_run (OSet (lease_key key) (asdict lease) None) now.

(** [acquire] after it: a lease that couldn't be stored is dropped. *)
Definition grant_end (n : nat) (stored : bool) (s : t) : option (t * reply) :=
  match grants s !! n with
  | Some (key, lease) =>
      let s := mk (leases s) (unlisted s) (loaded s) (delete n (grants s)) in
      Some (if stored then (s, Granted)
            else (mk (if decide (leases s !! key = Some lease) then delete key (leases s) else leases s)
                    (unlisted s) (loaded s) (grants s), Blocked "deploy lease store unavailable"))
  | None => None
  end.

(** [_load_leases]: one attempt, the stored leases by node. *)
Definition removeprefix (p s : string) : string :=
  if Str.startswith s p then str_drop (String.length p) s else s.

Definition note_lease (key : string) (value : option json) (found : gmap string Lease) : gmap string Lease :=
  match value with
  | Some (JObj d) =>
      match of_dict d with
      | Ok l => <[removeprefix (LEASE_NAMESPACE +:+ "/") key := l]> found
      | Err _ => found
      end
  | _ => found
  end.

Fixpoint read_leases `{StateStore T} (keys : list string) (now : Z) (found : gmap string Lease)
    : store_m T (gmap string Lease) :=
  match keys with
  | [] => mret found
  | k :: keys => v ← ss_run (OGet k) now; read_leases keys now (note_lease k v found)
  end.

Definition load_leases `{StateStore T} (now : Z) (s : t) : store_m T t :=
  keys ← ss_run (OList LEASE_NAMESPACE) now;
  found ← read_leases keys now (leases s);
  mret (mk found (unlisted s) true (grants s)).

(** [_check_leases] for one node, with what Serve lists for the lease's replica: the node's lease
    to release, if any. *)
Definition check_node (key : string) (state : option string) (s : t) : t * bool :=
  match state with
  | None =>
      let n := default 0 (unlisted s !! key) + 1 in
      (mk (leases s) (<[key := n]> (unlisted s)) (loaded s) (grants s), negb (n <? UNLISTED_CHECKS))
  | Some "RUNNING"%string => (s, true)
  | Some _ => (mk (leases s) (delete key (unlisted s)) (loaded s) (grants s), false)
  end.

(** [_release]: its store call, and what follows whether or not that succeeded. *)
Definition release_write `{StateStore T} (key : string) (now : Z) : store_m T unit :=
  ss_run (ODelete (lease_key key)) now.

Definition release_end (key : string) (lease : Lease) (s : t) : t :=
  mk (if decide (leases s !! key = Some lease) then delete key (leases s) else leases s)
    (delete key (unlisted s)) (loaded s) (grants s).

(** One pass of [_check_leases] over the leases it found at its start, [states] being what Serve
    lists; the releases' store calls, whose failures are only logged, are not waited for here, as they are in [LeaseRuns]. *)
Definition check_one (states : Lease → option string) (s : t) (kl : string * Lease) : t :=
  let '(s, free) := check_node kl.1 (states kl.2) s in
  if (free : bool) then release_end kl.1 kl.2 s else s.

Definition check_leases (states : Lease → option string) (s : t) : t :=
  foldl (check_one states) s (map_to_list (leases s)).

(** *** The replica's side: [wait_for_deploy_lease] *)

Definition MAX_LOOKUPS : nat := 3.

(** What one round of the loop meets. *)
Inductive answer : Type := Answered (r : reply) | Unreachable.

#[export] Instance reply_eq_dec : EqDecision reply.
Proof. solve_decision. Defined.
#[export] Instance answer_eq_dec : EqDecision answer.
Proof. solve_decision. Defined.

Inductive waited : Type := HasLease | LeaseError | StillWaiting (lookups : nat).

Fixpoint wait_from (lookups : nat) (answers : list answer) : waited :=
  match answers with
  | [] => StillWaiting lookups
  | Answered Granted :: _ => HasLease
  | Answered (Blocked _) :: answers => wait_from lookups answers
  | Unreachable :: answers =>
      if (MAX_LOOKUPS <=? lookups)%nat then LeaseError else wait_from (S lookups) answers
  end.

Definition wait_for_deploy_lease (answers : list answer) : waited := wait_from 1 answers.

(** ** Lemmas *)

(** The checks of one node's lease until it is freed. *)
Fixpoint checks (key : string) (lease : Lease) (seen : list (option string)) (s : t) : t :=
  match seen with
  | [] => s
  | state :: seen =>
      if decide (leases s !! key = Some lease) then
        let '(s, free) := check_node key state s in
        checks key lease seen (if (free : bool) then release_end key lease s else s)
      else s
  end.

(** Serve lists the replica RUNNING, or leaves it out twice in a row; [out] says whether the check
    before left it out. *)
Fixpoint over (out : bool) (seen : list (option string)) : bool :=
  match seen with
  | [] => false
  | None :: seen => out || over true seen
  | Some st :: seen => bool_decide (st = "RUNNING"%string) || over false seen
  end.

Module LeaseFacts.
Lemma check_node_leases key state s : leases (check_node key state s).1 = leases s.
Proof. unfold check_node. by repeat case_match. Qed.

Lemma checks_freed key lease seen s :
  leases s !! key ≠ Some lease → checks key lease seen s = s.
Proof. intros Hn. destruct seen; simpl; [done|]. by rewrite decide_False. Qed.

Lemma release_end_free key lease s : leases (release_end key lease s) !! key ≠ Some lease.
Proof. unfold release_end. simpl. case_decide; [by rewrite lookup_delete_eq|done]. Qed.

(** The counter is 0 or 1 while the lease is held. *)
Lemma checks_over key lease seen s out :
  leases s !! key = Some lease → default 0 (unlisted s !! key) = Z.b2z out →
  leases (checks key lease seen s) !! key = (if over out seen then None else Some lease).
Proof.
  revert s out. induction seen as [|state seen IH]; intros s out Hl Hu; [done|]. simpl.
  rewrite decide_True by done.
  assert (∀ s', leases s' !! key = Some lease →
    leases (checks key lease seen (release_end key lease s')) !! key = None) as Hrel.
  { intros s' Hl'. rewrite checks_freed by apply release_end_free. unfold release_end. simpl.
    by rewrite decide_True, lookup_delete_eq. }
  destruct state as [st|]; unfold check_node.
  - destruct (decide (st = "RUNNING"%string)) as [->|Hne].
    + rewrite bool_decide_true by done. by apply Hrel.
    + rewrite bool_decide_false by done. simpl.
      assert (∀ A (a b : A), match st with "RUNNING"%string => a | _ => b end = b) as Hm.
      { intros A a b. repeat (case_match; try done); subst; done. }
      rewrite Hm. apply IH; [done|]. simpl. by rewrite lookup_delete_eq.
  - rewrite Hu. destruct out; simpl.
    + by apply Hrel.
    + apply IH; [done|]. simpl. by rewrite lookup_insert_eq.
Qed.

Lemma of_dict_asdict l : ∃ d, asdict l = JObj d ∧ of_dict d = Ok l.
Proof. eexists. split; [done|]. by destruct l. Qed.

Lemma startswith_app (p s : string) : Str.startswith (p +:+ s) p = true.
Proof. apply Str.startswith_iff. by exists s. Qed.

Lemma removeprefix_app p s : removeprefix p (p +:+ s) = s.
Proof. unfold removeprefix. by rewrite startswith_app, ConfigFacts.str_drop_app. Qed.

Lemma lease_key_node node : removeprefix (LEASE_NAMESPACE +:+ "/") (lease_key node) = node.
Proof. exact (removeprefix_app (LEASE_NAMESPACE +:+ "/") node). Qed.

Lemma lease_key_under node : under_prefix (normalize_prefix LEASE_NAMESPACE) (lease_key node) = true.
Proof.
  change (normalize_prefix LEASE_NAMESPACE) with LEASE_NAMESPACE. unfold under_prefix.
  change (lease_key node) with ((LEASE_NAMESPACE +:+ "/") +:+ node). by rewrite startswith_app, orb_true_r.
Qed.

(** The node a listed key is noted under has that key, unless the key is the prefix itself. *)
Lemma removeprefix_key k node :
  under_prefix (normalize_prefix LEASE_NAMESPACE) k = true →
  removeprefix (LEASE_NAMESPACE +:+ "/") k = node → k = lease_key node ∨ k = LEASE_NAMESPACE.
Proof.
  change (normalize_prefix LEASE_NAMESPACE) with LEASE_NAMESPACE. unfold under_prefix. intros Hu <-.
  rewrite bool_decide_false in Hu by done. simpl in Hu.
  apply orb_true_iff in Hu as [->%bool_decide_eq_true|Hp]; [by right|left].
  apply Str.startswith_iff in Hp as [r ->]. by rewrite removeprefix_app.
Qed.

(** The rounds that couldn't reach the deploy coordinator. *)
Definition outages (answers : list answer) : nat := length (filter (λ a, a = Unreachable) answers).

Lemma wait_from_ok lookups answers :
  (lookups ≤ MAX_LOOKUPS)%nat →
  (wait_from lookups answers = HasLease → Answered Granted ∈ answers) ∧
  (wait_from lookups answers = LeaseError → (S MAX_LOOKUPS ≤ lookups + outages answers)%nat) ∧
  ((lookups + outages answers ≤ MAX_LOOKUPS)%nat → Answered Granted ∈ answers →
   wait_from lookups answers = HasLease).
Proof.
  unfold outages.
  revert lookups. induction answers as [|[[|m]|] answers IH]; intros lookups Hl; cbn [wait_from].
  - split_and!; [done..|]. by intros _ []%elem_of_nil.
  - split_and!; [constructor|done|done].
  - destruct (IH lookups Hl) as (I1 & I2 & I3). rewrite filter_cons_False by done.
    split_and!; [by intros; constructor; auto|done|]. intros ? [?|?]%elem_of_cons; [done|auto].
  - rewrite filter_cons_True by done. cbn [length]. destruct (Nat.leb_spec MAX_LOOKUPS lookups) as [Hm|Hm].
    + split_and!; [done|lia|lia].
    + destruct (IH (S lookups)) as (I1 & I2 & I3); [lia|].
      split_and!; [by intros; constructor; auto|intros ?%I2; lia|].
      intros ? [?|?]%elem_of_cons; [done|apply I3; [lia|done]].
Qed.

Section load.
Context `{StateStoreOk T}.

(** The last readable lease of each node among the keys read, over what was found before. *)
Lemma read_leases_ok keys now found (s s' : T) found' :
  ss_valid s → read_leases keys now found s = (s', Ok found') →
  found' = foldl (λ f k, note_lease k (Spec.get k now (cells s)) f) found keys ∧
  ss_valid s' ∧ same_from now (cells s') (cells s).
Proof.
  revert found s. induction keys as [|k keys IH]; intros found s Hv; simpl; [by intros [= <- <-]|].
  intros (s1 & v & (Hv1 & -> & Hs1)%op_get_ok & Hr)%store_m_bind_ok; [|done].
  apply IH in Hr as (-> & ? & Hs); [|done]. rewrite Hs, Hs1. split_and!; [|done|done].
  generalize (note_lease k (Spec.get k now (cells s)) found). clear - Hs1.
  induction keys as [|k' keys IH]; intros f; [done|]. simpl.
  by rewrite (Spec_get_proper k' now _ _ Hs1).
Qed.

Lemma note_lease_lookup k v f node :
  note_lease k v f !! node = f !! node ∨
  (removeprefix (LEASE_NAMESPACE +:+ "/") k = node ∧ ∃ d l, v = Some (JObj d) ∧ of_dict d = Ok l ∧
   note_lease k v f !! node = Some l).
Proof.
  unfold note_lease. destruct v as [v|]; [|by left]. destruct v as [| | | | | |d]; try by left.
  destruct (of_dict d) as [l|] eqn:E; [|by left].
  destruct (decide (removeprefix (LEASE_NAMESPACE +:+ "/") k = node)) as [<-|Hne].
  - right. split; [done|]. exists d, l. by rewrite lookup_insert_eq.
  - left. by rewrite lookup_insert_ne.
Qed.

Notation load V := (foldl (λ f k, note_lease k (V k) f)).

Lemma load_from V keys f node l :
  load V f keys !! node = Some l → f !! node = Some l ∨
  ∃ k d, k ∈ keys ∧ removeprefix (LEASE_NAMESPACE +:+ "/") k = node ∧ V k = Some (JObj d) ∧ of_dict d = Ok l.
Proof.
  revert f. induction keys as [|k keys IH]; intros f; simpl; [by left|].
  intros [Hf|(k' & d & ? & ?)]%IH; [|right; exists k', d; split; [by constructor|done]].
  destruct (note_lease_lookup k (V k) f node) as [E|(Hk & d & l' & Hv & Hd & E)]; [left; congruence|right].
  exists k, d. split_and!; [constructor|done|done|congruence].
Qed.

Lemma load_has V keys f node l :
  V (lease_key node) = Some (asdict l) → lease_key node ∈ keys →
  (∀ k, k ∈ keys → removeprefix (LEASE_NAMESPACE +:+ "/") k = node → k = lease_key node) →
  load V f keys !! node = Some l.
Proof.
  intros Hv. assert (∀ keys f, (∀ k, k ∈ keys → removeprefix (LEASE_NAMESPACE +:+ "/") k = node → k = lease_key node) →
    (f !! node = Some l ∨ lease_key node ∈ keys) → load V f keys !! node = Some l) as Hgen; [|by auto].
  clear keys f. induction keys as [|k keys IH]; intros f Hk Hc; simpl.
  { by destruct Hc as [?|[]%elem_of_nil]. }
  apply IH; [by intros; apply Hk; [constructor|]|].
  destruct (note_lease_lookup k (V k) f node) as [E|(Hr & d & l' & Hv' & Hd & E)].
  - destruct Hc as [Hf|[<-|?]%elem_of_cons]; [left; congruence| |by right]. left.
    unfold note_lease. rewrite Hv. destruct (of_dict_asdict l) as (d & -> & ->).
    rewrite lease_key_node. apply lookup_insert_eq.
  - left. rewrite E. assert (k = lease_key node) as -> by (apply Hk; [constructor|done]).
    destruct (of_dict_asdict l) as (d' & Hd' & Ho). congruence.
Qed.
End load.
End LeaseFacts.

(** ** Whole runs

    The coordinator's lease tasks, interleaved at their awaits: calls of [acquire], the store writes they
    wait for, [_load_leases] reading back key by key, and the one task that checks, pass by pass and lease by
    lease, a release waiting for its store call. *)

Module LeaseRuns.
Record system : Type := mkSystem {
  coord : t;
  (** the leases the pass still has to check, what Serve listed for it, and the release it is waiting for *)
  pass : list (string * Lease);
  listing : Lease → option string;
  releasing : option (string * Lease);
}.

Definition start : system := mkSystem init [] (λ _, None) None.

(** What happens, with what is answered. *)
Inductive event : Type :=
| Noted (key : string) (value : option json)
| LoadDone
| Asked (key : string) (lease : Lease) (answer : option reply)
| Stored (key : string) (lease : Lease) (ok : bool) (answer : reply)
| Listed
| Checked (key : string) (lease : Lease) (state : option string) (free : bool)
| Released (key : string) (lease : Lease).

Inductive step : system → event → system → Prop :=
| step_noted k v c ls st r :
    loaded c = false →
    step (mkSystem c ls st r) (Noted k v)
      (mkSystem (mk (note_lease k v (leases c)) (unlisted c) false (grants c)) ls st r)
| step_loaded c ls st r :
    loaded c = false →
    step (mkSystem c ls st r) LoadDone (mkSystem (mk (leases c) (unlisted c) true (grants c)) ls st r)
| step_asked k l c c' a ls st r :
    acquire k l c = (c', a) → step (mkSystem c ls st r) (Asked k l a) (mkSystem c' ls st r)
| step_stored n ok k l c c' a ls st r :
    grants c !! n = Some (k, l) → grant_end n ok c = Some (c', a) →
    step (mkSystem c ls st r) (Stored k l ok a) (mkSystem c' ls st r)
| step_listed c st st' :
    loaded c = true → step (mkSystem c [] st None) Listed (mkSystem c (map_to_list (leases c)) st' None)
| step_checked k l ls c c' free st :
    check_node k (st l) c = (c', free) →
    step (mkSystem c ((k, l) :: ls) st None) (Checked k l (st l) free)
      (mkSystem c' ls st (if (free : bool) then Some (k, l) else None))
| step_released k l c ls st :
    step (mkSystem c ls st (Some (k, l))) (Released k l) (mkSystem (release_end k l c) ls st None).

Inductive run (s : system) : list event → system → Prop :=
| run_nil : run s [] s
| run_snoc es s1 e s2 : run s es s1 → step s1 e s2 → run s (es ++ [e]) s2.

(** What takes a lease from its holder. *)
Definition frees (key : string) (lease : Lease) (e : event) : Prop :=
  e = Released key lease ∨ ∃ a, e = Stored key lease false a.

(** What starts a node's count of checks that left its lease out over again. *)
Definition resets (key : string) (e : event) : Prop :=
  match e with
  | Checked k _ (Some _) _ | Asked k _ None | Released k _ => k = key
  | _ => False
  end.

(** The check before left the node's lease out. *)
Definition missed (key : string) (tr : list event) : Prop :=
  ∃ l tr1 tr2, tr = tr1 ++ Checked key l None false :: tr2 ∧ Forall (λ e, ¬ resets key e) tr2.

(** The pass that frees a lease has just seen its replica RUNNING, or not at all and neither had the check before. *)
Definition seen_over (key : string) (lease : Lease) (tr : list event) : Prop :=
  ∃ state tr1 tr2, tr = tr1 ++ Checked key lease state true :: tr2 ∧
    Forall (λ e, match e with Listed | Checked _ _ _ _ | Released _ _ => False | _ => True end) tr2 ∧
    (state = Some "RUNNING"%string ∨ state = None ∧ missed key tr1).

Lemma check_node_cases key state c :
  let '(c', free) := check_node key state c in
  leases c' = leases c ∧ loaded c' = loaded c ∧ grants c' = grants c ∧
  (∀ k, k ≠ key → unlisted c' !! k = unlisted c !! k) ∧
  match state with
  | None => ∃ n, n = default 0 (unlisted c !! key) + 1 ∧ unlisted c' !! key = Some n ∧ free = negb (n <? UNLISTED_CHECKS)
  | Some st => if decide (st = "RUNNING"%string) then free = true else free = false ∧ unlisted c' !! key = None
  end.
Proof.
  unfold check_node. destruct state as [st|]; 
    [|split_and!; [done..|intros; by apply lookup_insert_ne|eexists; split_and!; [done|apply lookup_insert_eq|done]]].
  case_decide as Hst; [by subst|].
  assert (∀ A (a b : A), match st with "RUNNING"%string => a | _ => b end = b) as Hm.
  { intros A a b. repeat (case_match; try done); subst; done. }
  rewrite Hm. split_and!; [done|done|done|intros; by apply lookup_delete_ne|done|apply lookup_delete_eq].
Qed.

Lemma run_app s es s1 es' s2 : run s es s1 → run s1 es' s2 → run s (es ++ es') s2.
Proof.
  intros H1 H2. induction H2 as [|es' s2 e s3 _ IH Hs]; [by rewrite app_nil_r|]. rewrite app_assoc. by eapply run_snoc.
Qed.

Lemma run_cons s e s1 es s2 : step s e s1 → run s1 es s2 → run s (e :: es) s2.
Proof. intros Hs. apply (run_app s [e]). by apply (run_snoc _ [] s); [constructor|]. Qed.

Lemma run_split s es e es' s2 : run s (es ++ e :: es') s2 → ∃ s1 s1', run s es s1 ∧ step s1 e s1'.
Proof.
  induction es' as [|e' es' IH] in s2 |- * using rev_ind; intros Hr; inversion Hr as [E|es1 s1 e1 ? Hr1 Hs1 E]; subst.
  - by destruct es.
  - apply app_inj_tail in E as [-> ->]. by eauto.
  - by destruct es.
  - rewrite app_comm_cons, app_assoc in E. apply app_inj_tail in E as [-> ->]. by eapply IH.
Qed.

(** *** What a run has been through *)

Record inv (tr : list event) (s : system) : Prop := mkInv {
  inv_grants : ∀ k l, (k, l) ∈ grants (coord s) → Asked k l None ∈ tr;
  inv_releasing : ∀ k l, releasing s = Some (k, l) → seen_over k l tr;
  inv_unlisted : ∀ k n, unlisted (coord s) !! k = Some n → (∀ l, releasing s ≠ Some (k, l)) → 1 ≤ n ∧ missed k tr;
}.

Lemma missed_snoc key tr e : missed key tr → ¬ resets key e → missed key (tr ++ [e]).
Proof.
  intros (l & tr1 & tr2 & -> & Hf) He. exists l, tr1, (tr2 ++ [e]). split; [by rewrite <-app_assoc|].
  apply Forall_app. by split; [|constructor].
Qed.

Lemma seen_over_snoc key l tr e :
  seen_over key l tr → match e with Listed | Checked _ _ _ _ | Released _ _ => False | _ => True end →
  seen_over key l (tr ++ [e]).
Proof.
  intros (st & tr1 & tr2 & -> & Hf & Hst) He. exists st, tr1, (tr2 ++ [e]). split; [by rewrite <-app_assoc|].
  split; [|done]. apply Forall_app. by split; [|constructor].
Qed.

(** A step that leaves the checks alone. *)
Lemma inv_aside tr c c' ls st r e :
  inv tr (mkSystem c ls st r) →
  match e with Listed | Checked _ _ _ _ | Released _ _ => False | _ => True end →
  (∀ k l, (k, l) ∈ grants c' → (k, l) ∈ grants c ∨ e = Asked k l None) →
  (∀ k n, unlisted c' !! k = Some n → unlisted c !! k = Some n ∧ ¬ resets k e) →
  inv (tr ++ [e]) (mkSystem c' ls st r).
Proof.
  intros [H1 H2 H3] He Hg Hu. split; cbn in *.
  - intros k l [Hk| ->]%Hg; apply elem_of_app; [left; by apply H1|right; constructor].
  - intros k l Hr. by apply seen_over_snoc; [apply H2|].
  - intros k n [Hk Hne]%Hu Hr. destruct (H3 _ _ Hk Hr). split; [done|]. by apply missed_snoc.
Qed.

Lemma step_inv tr s e s' : inv tr s → step s e s' → inv (tr ++ [e]) s'.
Proof.
  intros Hi Hs. destruct Hs as [k v c ls st r Hl|c ls st r Hl|k l c c' a ls st r Ha|n ok k l c c' a ls st r Hn Hg|
    c st st' Hl|k l ls c c' free st Hc|k l c ls st].
  - eapply inv_aside; [exact Hi|done|by left|by split; [|intros []]].
  - eapply inv_aside; [exact Hi|done|by left|by split; [|intros []]].
  - unfold acquire in Ha. destruct (loaded c); [|injection Ha as <- <-; by eapply inv_aside; [exact Hi|done|left|split; [|intros []]]].
    destruct (leases c !! k); injection Ha as <- <-; (eapply inv_aside; [exact Hi|done|..]); cbn; [by left|by split; [|intros []]| |].
    + intros k' l' [[= -> ->]|?]%elem_of_cons; [by right|by left].
    + intros k' n. destruct (decide (k = k')) as [->|Hne]; [by rewrite lookup_delete_eq|].
      rewrite lookup_delete_ne by done. by split.
  - unfold grant_end in Hg. rewrite Hn in Hg. destruct ok; injection Hg as <- <-;
      (eapply inv_aside; [exact Hi|done|cbn|by split; [|intros []]]);
      intros k' l' Hin; left; (eapply elem_of_submseteq; [exact Hin|apply sublist_submseteq, sublist_delete]).
  - destruct Hi as [H1 H2 H3]. split; cbn in *; [intros; apply elem_of_app; left; by apply H1|done|].
    intros k n Hk Hr. destruct (H3 _ _ Hk Hr). split; [done|]. by apply missed_snoc; [|intros []].
  - destruct Hi as [H1 H2 H3]. pose proof (check_node_cases k (st l) c) as Hcase. rewrite Hc in Hcase.
    destruct Hcase as (_ & _ & Hgr & Hne & Hcase). cbn in *. split; cbn.
    + intros k' l'. rewrite Hgr. intros ?%H1. apply elem_of_app. by left.
    + intros k' l' Hr. destruct free; [|done]. injection Hr as <- <-. exists (st l), tr, []. split; [done|]. split; [done|].
      destruct (st l) as [s1|]; [case_decide; [left; congruence|by destruct Hcase]|].
      right. split; [done|]. destruct Hcase as (n & En & _ & Hfree). unfold UNLISTED_CHECKS in Hfree.
      destruct (unlisted c !! k) as [n0|] eqn:E; cbn in En; [by eapply H3|]. subst n. done.
    + intros k' n Hk Hr. destruct (decide (k' = k)) as [->|Hkk].
      * destruct free; [by destruct (Hr l)|]. destruct (st l) as [s1|] eqn:Est.
        { case_decide; [done|]. destruct Hcase as [_ E]. congruence. }
        destruct Hcase as (n' & -> & E & _). assert (n = default 0 (unlisted c !! k) + 1) as -> by congruence. split.
        { destruct (unlisted c !! k) as [n0|] eqn:E0; cbn; [|lia]. destruct (H3 _ _ E0); [done|lia]. }
        exists l, tr, []. done.
      * rewrite Hne in Hk by done. destruct (H3 _ _ Hk) as [? Hm]; [done|]. split; [done|]. apply missed_snoc; [done|].
        cbn. destruct (st l); [|by intros []]. congruence.
  - destruct Hi as [H1 H2 H3]. cbn in *. split; cbn; [intros; apply elem_of_app; left; by apply H1|done|].
    intros k' n Hk _. destruct (decide (k' = k)) as [->|Hne]; [by rewrite lookup_delete_eq in Hk|].
    rewrite lookup_delete_ne in Hk by done. destruct (H3 _ _ Hk) as [? Hm]; [congruence|]. split; [done|].
    apply missed_snoc; [done|]. cbn. congruence.
Qed.
Lemma run_inv tr s : run start tr s → inv tr s.
Proof.
  induction 1 as [|es s1 e s2 _ IH Hs]; [|by eapply step_inv]. split; cbn; [set_solver|done|]. intros k n. by rewrite lookup_empty.
Qed.

(** *** Who holds a node *)

Lemma acquire_held k l c c' a key held :
  acquire k l c = (c', a) → loaded c = true → leases c !! key = Some held →
  leases c' !! key = Some held ∧ loaded c' = true ∧
  (k = key → a = Some (if decide (held = l) then Granted else Blocked ("held by " +:+ label held))).
Proof.
  unfold acquire. intros Ha Hl Hk. rewrite Hl in Ha. destruct (decide (k = key)) as [->|Hne].
  - rewrite Hk in Ha. by injection Ha as <- <-.
  - destruct (leases c !! k); injection Ha as <- <-; [done|]. cbn. by rewrite lookup_insert_ne.
Qed.

Lemma step_held s e s' key held :
  step s e s' → loaded (coord s) = true → leases (coord s) !! key = Some held → ¬ frees key held e →
  loaded (coord s') = true ∧ leases (coord s') !! key = Some held ∧
  ∀ l a, e = Asked key l a → a = Some (if decide (held = l) then Granted else Blocked ("held by " +:+ label held)).
Proof.
  intros Hs Hl Hk Hf. destruct Hs as [k v c ls st r Hn|c ls st r Hn|k l c c' a ls st r Ha|n ok k l c c' a ls st r Hn Hg|
    c st st' _|k l ls c c' free st Hc|k l c ls st]; cbn in *; [congruence|congruence| | | | |].
  - destruct (acquire_held _ _ _ _ _ _ _ Ha Hl Hk) as (? & ? & Hans). split_and!; [done..|]. intros l' a' [= -> -> ->]. by apply Hans.
  - unfold grant_end in Hg. rewrite Hn in Hg. destruct ok; injection Hg as <- <-; cbn; [done|]. split_and!; [done| |done].
    case_decide as Hd; [|done]. destruct (decide (k = key)) as [->|Hne]; [|by rewrite lookup_delete_ne].
    destruct Hf. right. eexists. do 2 f_equal; congruence.
  - done.
  - pose proof (check_node_cases k (st l) c) as Hcase. rewrite Hc in Hcase. destruct Hcase as (-> & -> & _). done.
  - split_and!; [done| |done]. case_decide as Hd; [|done].
    destruct (decide (k = key)) as [->|Hne]; [|by rewrite lookup_delete_ne].
    destruct Hf. left. f_equal. congruence.
Qed.

Lemma run_held s es s' key held :
  run s es s' → loaded (coord s) = true → leases (coord s) !! key = Some held → (∀ e, e ∈ es → ¬ frees key held e) →
  loaded (coord s') = true ∧ leases (coord s') !! key = Some held ∧
  ∀ l a, Asked key l a ∈ es → a = Some (if decide (held = l) then Granted else Blocked ("held by " +:+ label held)).
Proof.
  intros Hr Hl Hk. induction Hr as [|es s1 e s2 _ IH Hs]; intros Hf; [split_and!; [done..|set_solver]|].
  destruct IH as (Hl1 & Hk1 & Hasked); [intros; apply Hf; set_solver|].
  destruct (step_held _ _ _ _ _ Hs Hl1 Hk1) as (? & ? & He); [apply Hf; set_solver|]. split_and!; [done..|].
  intros l a [Hin|Hin%list_elem_of_singleton]%elem_of_app; [by eapply Hasked|]. by eapply He.
Qed.
End LeaseRuns.

(** ** Properties *)

Module LeaseProperties.
Import LeaseFacts LeaseRuns.

(** A node's lease outlives slow loads and a missed listing: from a fresh grant, over any
    sequence of checks, the lease is freed exactly when some check lists its replica RUNNING or
    two checks in a row don't list it at all. *)
Theorem lease_freed_iff key lease seen s :
  leases s !! key = Some lease → unlisted s !! key = None →
  leases (checks key lease seen s) !! key = (if over false seen then None else Some lease).
Proof. intros Hl Hu. apply checks_over; [done|by rewrite Hu]. Qed.

Definition example_lease (r : string) : Lease := mkLease "app" "dep" r ("m/" +:+ r).

Lemma lease_freed_iff_witness :
  let s := (acquire "n1" (example_lease "r1") (mk ∅ ∅ true [])).1 in
  leases (checks "n1" (example_lease "r1") [None; Some "STARTING"; None; None]%string s) !! "n1"%string = None.
Proof. intros s. apply (lease_freed_iff "n1" (example_lease "r1")); reflexivity. Defined.


#[local] Ltac compute_state := match goal with |- run ?s _ _ => let s' := eval vm_compute in s in change s with s' end.

(** A node whose replica is left out by two checks, between which another replica is turned away. *)
Definition n1_asked : system := mkSystem (acquire "n1" (example_lease "r1") (mk ∅ ∅ true [])).1 [] (λ _, None) None.


(** Granted leases survive a restart: a deploy coordinator that starts empty and reads the
    store back holds, for each node, exactly the lease stored for it. *)
Theorem leases_survive_restart `{StateStoreOk T} now (s s' : T) c node :
  ss_valid s → load_leases now init s = (s', Ok c) → node ≠ LEASE_NAMESPACE →
  (∀ lease, Spec.get (lease_key node) now (cells s) = Some (asdict lease) → leases c !! node = Some lease) ∧
  (∀ lease, leases c !! node = Some lease →
     ∃ d, Spec.get (lease_key node) now (cells s) = Some (JObj d) ∧ of_dict d = Ok lease).
Proof.
  intros Hv (s1 & keys & Hk & (s2 & found & Hf & Hc)%store_m_bind_ok)%store_m_bind_ok Hnode.
  injection Hc as _ <-. apply op_write_ok in Hk as (Hv1 & Hkeys & Hs1); [|done]. simpl in Hkeys, Hs1.
  apply read_leases_ok in Hf as (-> & _ & _); [|done]. simpl.
  assert (∀ k, k ∈ keys → removeprefix (LEASE_NAMESPACE +:+ "/") k = node → k = lease_key node) as Huniq.
  { intros k [_ Hu]%Hkeys Hr. destruct (removeprefix_key k node Hu Hr) as [?|Hn]; [done|].
    subst k. by rewrite <-Hr in Hnode. }
  assert (Spec.get (lease_key node) now (cells s1) = Spec.get (lease_key node) now (cells s)) as Hget
    by (by apply Spec_get_proper).
  split.
  - intros lease Hl. apply load_has; [congruence| |done]. apply Hkeys. split; [|apply lease_key_under].
    unfold Spec.get in Hl. by destruct (live now _).
  - intros lease [?|(k & d & Hin & Hr & Hv' & Hd)]%load_from; [by rewrite lookup_empty in *|].
    rewrite (Huniq k Hin Hr) in Hv'. exists d. split; [congruence|done].
Qed.

Lemma leases_survive_restart_witness :
  let s := (grant_write "n1" (example_lease "r1") 5 (Actor.init 0 0)).1 in
  ∃ s' c, load_leases 9 init s = (s', Ok c) ∧ leases c !! "n1"%string = Some (example_lease "r1").
Proof.
  intros s. eexists _, _. split; [vm_compute; reflexivity|].
  eapply (leases_survive_restart 9 s (load_leases 9 init s).1 _ "n1");
    [|vm_compute; reflexivity|discriminate|vm_compute; reflexivity].
  repeat constructor. simpl. apply not_elem_of_nil.
Defined.

(** A replica waiting for its lease loads only once it holds it, and gives up only after the
    deploy coordinator was unreachable on every allowed lookup. *)
Theorem wait_sound answers :
  (wait_for_deploy_lease answers = HasLease → Answered Granted ∈ answers) ∧
  (wait_for_deploy_lease answers = LeaseError → (MAX_LOOKUPS ≤ outages answers)%nat) ∧
  ((outages answers < MAX_LOOKUPS)%nat → Answered Granted ∈ answers →
   wait_for_deploy_lease answers = HasLease).
Proof.
  destruct (wait_from_ok 1 answers) as (H1 & H2 & H3); [unfold MAX_LOOKUPS; lia|].
  split_and!; [done|intros ?%H2; lia|]. intros ?. apply H3. lia.
Qed.

(** A grant can be lost behind its holder's back: when a replica repeats [acquire] while its
    first call's lease is still being stored, the repeat is answered as granted at once, and a
    failure of the first store call then drops the lease, so another replica is granted the same
    node. *)
Theorem repeated_grant_can_be_lost :
  ∃ s1 s2 s3 s4 s5,
    acquire "n1" (example_lease "r1") (mk ∅ ∅ true []) = (s1, None) ∧
    acquire "n1" (example_lease "r1") s1 = (s2, Some Granted) ∧
    grant_end 0 false s2 = Some (s3, Blocked "deploy lease store unavailable") ∧
    acquire "n1" (example_lease "r2") s3 = (s4, None) ∧ grant_end 0 true s4 = Some (s5, Granted).
Proof. eexists _, _, _, _, _. split_and!; vm_compute; reflexivity. Qed.
End LeaseProperties.
