(* ===== verification/ReplicaFaults.v ===== *)
(** * Replica faults

    [src/modelship/deploy/deploy_coordinator.py] ([report_replica_death], [crash_looping],
    [forget_deaths], [report_load_failure], [pop_fatal_error]): how the deploy coordinator tells a
    model that keeps dying, or can never start, from one that fails once. Every call runs without
    an await, so a run is a list of calls. *)

From S2P Require Import Prelude ConfigSchema.
Local Open Scope Z_scope.

Definition DEATHS_PER_REPLICA : Z := 3.

Record t : Type := mk {
  deaths : gmap string Z;
  (** deployment -> (death limit, last reason) *)
  last_deaths : gmap string (Z * string);
  fatal_errors : gmap string string;
  (** the (gateway, model) tags [BACKEND_DEATHS_TOTAL] and [MODEL_LOAD_FAILURES_TOTAL] counted *)
  counted : list (string * string);
}.

Definition init : t := mk ∅ ∅ ∅ [].

(** [_model_tags] and the counter it feeds: nothing for a name that isn't a deployment's. *)
Definition count_tags (name : string) (l : list (string * string)) : list (string * string) :=
  if parse_deployment_name name is Some tags then tags :: l else l.

Definition report_replica_death (name : string) (replica_ceiling : Z) (reason : string) (s : t) : t :=
  let n := default 0 (deaths s !! name) + 1 in
  let limit := DEATHS_PER_REPLICA * Z.max replica_ceiling 1 in
  mk (<[name := n]> (deaths s)) (<[name := (limit, reason)]> (last_deaths s)) (fatal_errors s)
    (count_tags name (counted s)).

(** [crash_looping]: a deployment's last reason, when it is past its limit. *)
Definition crash_reason (s : t) (name : string) : option string :=
  match last_deaths s !! name with
  | Some (limit, reason) => if limit <=? default 0 (deaths s !! name) then Some reason else None
  | None => None
  end.

Definition crash_looping (names : list string) (s : t) : dict string :=
  Dict.of_list (omap (λ name, (λ r, (name, r)) <$> crash_reason s name) names).

Definition forget_deaths (names : list string) (s : t) : t :=
  mk (foldl (λ m n, delete n m) (deaths s) names) (foldl (λ m n, delete n m) (last_deaths s) names)
    (fatal_errors s) (counted s).

Definition report_load_failure (name reason : string) (fatal : bool) (s : t) : t :=
  mk (deaths s) (last_deaths s) (if fatal then <[name := reason]> (fatal_errors s) else fatal_errors s)
    (count_tags name (counted s)).

Definition pop_fatal_error (name : string) (s : t) : t * option string :=
  (mk (deaths s) (last_deaths s) (delete name (fatal_errors s)) (counted s), fatal_errors s !! name).

(** ** Runs *)

Inductive call : Type :=
| Death (name : string) (ceiling : Z) (reason : string)
| Forget (names : list string)
| LoadFailure (name reason : string) (fatal : bool)
| PopFatal (name : string).

Definition step (s : t) (c : call) : t :=
  match c with
  | Death n c r => report_replica_death n c r s
  | Forget ns => forget_deaths ns s
  | LoadFailure n r f => report_load_failure n r f s
  | PopFatal n => (pop_fatal_error n s).1
  end.

Definition run (cs : list call) (s : t) : t := foldl step s cs.

(** The deaths of a deployment since it was last forgotten, as (ceiling, reason). *)
Definition note (name : string) (ds : list (Z * string)) (c : call) : list (Z * string) :=
  match c with
  | Death n c r => if decide (n = name) then ds ++ [(c, r)] else ds
  | Forget ns => if decide (name ∈ ns) then [] else ds
  | _ => ds
  end.
Definition deaths_since (name : string) (cs : list call) : list (Z * string) := foldl (note name) [] cs.

(** The last fatal error of a deployment, until it is popped. *)
Definition note_fatal (name : string) (o : option string) (c : call) : option string :=
  match c with
  | LoadFailure n r true => if decide (n = name) then Some r else o
  | PopFatal n => if decide (n = name) then None else o
  | _ => o
  end.
Definition pending_fatal (name : string) (cs : list call) : option string := foldl (note_fatal name) None cs.

Module FaultFacts.
Lemma foldl_delete {A} (m : gmap string A) names n :
  foldl (λ m n, delete n m) m names !! n = if decide (n ∈ names) then None else m !! n.
Proof.
  revert m. induction names as [|x names IH]; intros m; [done|]. cbn [foldl].
  rewrite IH. destruct (decide (n ∈ names)) as [Hin|Hin], (decide (n ∈ x :: names)) as [Hin'|Hin']; try done.
  - destruct Hin'. by constructor.
  - apply elem_of_cons in Hin' as [->|?]; [|done]. apply lookup_delete_eq.
  - rewrite lookup_delete_ne; [done|]. intros ->. destruct Hin'. constructor.
Qed.

(** The state of one deployment after a run. *)
Definition limit_of (d : Z * string) : Z * string := (DEATHS_PER_REPLICA * Z.max d.1 1, d.2).

Record tracks (name : string) (s : t) (ds : list (Z * string)) (fatal : option string) : Prop := {
  tr_deaths : default 0 (deaths s !! name) = Z.of_nat (length ds);
  tr_last : last_deaths s !! name = limit_of <$> last ds;
  tr_fatal : fatal_errors s !! name = fatal;
}.

Lemma step_tracks name s ds fatal c :
  tracks name s ds fatal → tracks name (step s c) (note name ds c) (note_fatal name fatal c).
Proof.
  intros [H1 H2 H3]. destruct c as [n ceiling r|ns|n r f|n]; simpl.
  - case_decide as Hn; [subst|].
    + split; simpl; [|by rewrite lookup_insert_eq, last_snoc|done].
      rewrite lookup_insert_eq, length_app. simpl. lia.
    + split; simpl; [by rewrite lookup_insert_ne|by rewrite lookup_insert_ne|done].
  - split; simpl; rewrite ?foldl_delete; try case_decide; done.
  - split; simpl; [done..|]. destruct f; [|done].
    case_decide; [subst; by rewrite lookup_insert_eq|by rewrite lookup_insert_ne].
  - split; simpl; [done..|]. case_decide; [subst; by rewrite lookup_delete_eq|by rewrite lookup_delete_ne].
Qed.

Lemma run_tracks name cs : tracks name (run cs init) (deaths_since name cs) (pending_fatal name cs).
Proof.
  unfold run, deaths_since, pending_fatal.
  assert (tracks name init [] None) as H by (split; simpl; by rewrite lookup_empty).
  revert H. generalize init, (@nil (Z * string)), (@None string).
  induction cs as [|c cs IH]; intros s ds f H; simpl; [done|]. by apply IH, step_tracks.
Qed.

(** A dict comprehension whose values are a function of the keys. *)
Lemma get_update_fun {V} (F : string → option V) n d l :
  (∀ k v, (k, v) ∈ l → F k = Some v) →
  Dict.get n (Dict.update d l) = if decide (n ∈ Dict.keys l) then F n else Dict.get n d.
Proof.
  revert d. induction l as [|[k v] l IH]; intros d HF; [done|].
  change (Dict.update d ((k, v) :: l)) with (Dict.update (Dict.set k v d) l).
  change (Dict.keys ((k, v) :: l)) with (k :: Dict.keys l). rewrite IH by (intros; apply HF; by constructor). rewrite Dict.get_set.
  assert (F k = Some v) as Hk by (apply HF; constructor).
  destruct (decide (n ∈ Dict.keys l)) as [Hin|Hin].
  - rewrite decide_True; [done|]. by constructor.
  - destruct (decide (n = k)) as [->|Hne].
    + rewrite decide_True; [done|constructor].
    + rewrite decide_False; [done|]. by intros [?|?]%elem_of_cons.
Qed.

Lemma crash_looping_get names s n :
  Dict.get n (crash_looping names s) = if decide (n ∈ names) then crash_reason s n else None.
Proof.
  unfold crash_looping, Dict.of_list. rewrite (get_update_fun (crash_reason s)).
  - assert (n ∈ Dict.keys (omap (λ n, (λ r, (n, r)) <$> crash_reason s n) names) ↔
      n ∈ names ∧ is_Some (crash_reason s n)) as Hk.
    { unfold Dict.keys. rewrite list_elem_of_fmap. setoid_rewrite list_elem_of_omap. split.
      - intros ([k r] & -> & x & Hx & E). destruct (crash_reason s x) as [r'|] eqn:HF; simplify_eq/=. eauto.
      - intros [Hn [r HF]]. exists (n, r). split; [done|]. exists n. by rewrite HF. }
    destruct (decide (n ∈ names)), (decide (n ∈ Dict.keys _)); simpl; try tauto; try done.
    destruct (crash_reason s n) eqn:HF; [|done]. exfalso. naive_solver.
  - intros k v (x & _ & E)%list_elem_of_omap. destruct (crash_reason s x) eqn:HF; simplify_eq/=. done.
Qed.
End FaultFacts.

(** ** Properties *)

Module FaultProperties.
Import FaultFacts.

(** A model counts as crash-looping exactly when its backend has died, since a deploy last
    forgot its deaths, at least three times per replica it may have by its last report, with the
    last death's reason; reports about other deployments never count. *)
Theorem crash_looping_iff cs names n reason :
  Dict.get n (crash_looping names (run cs init)) = Some reason ↔
    n ∈ names ∧ ∃ ceiling, last (deaths_since n cs) = Some (ceiling, reason) ∧
      DEATHS_PER_REPLICA * Z.max ceiling 1 ≤ Z.of_nat (length (deaths_since n cs)).
Proof.
  destruct (run_tracks n cs) as [H1 H2 _]. rewrite crash_looping_get. unfold crash_reason. rewrite H1, H2.
  case_decide; [|naive_solver]. destruct (last (deaths_since n cs)) as [[c r]|]; simpl; [|naive_solver].
  case_match eqn:E; rewrite ?Z.leb_le, ?Z.leb_gt in E; split.
  - intros [= <-]. eauto.
  - intros [_ (c' & [= -> ->] & _)]. done.
  - done.
  - intros [_ (c' & [= -> ->] & ?)]. lia.
Qed.

(** A fatal init error is read back once: popping a deployment's error gives the last fatal
    one reported for it since it was last popped, and a second pop gives nothing. *)
Theorem fatal_error_read_once cs n :
  (pop_fatal_error n (run cs init)).2 = pending_fatal n cs ∧
  (pop_fatal_error n (pop_fatal_error n (run cs init)).1).2 = None.
Proof.
  destruct (run_tracks n cs) as [_ _ H3]. split; [done|]. simpl. apply lookup_delete_eq.
Qed.
End FaultProperties.
