(* ===== verification/GatewayRouting.v ===== *)
(** * Gateway model tables

    [src/modelship/deploy/routing.py], a gateway's model table from its routing version and what
    Serve reports, and [src/modelship/deploy/gateway_coordinator.py], [GatewayCoordinator]: the
    pass that publishes every gateway's table, the replicas' long polls and reports, and whether
    a gateway has switched. Clock readings are integer nanoseconds. *)

From S2P Require Import Prelude StateStore ConfigSchema Diff.
Local Open Scope Z_scope.

(** ** What Serve reports *)

Record Replica : Type := mkReplica { replica_id : string; replica_state : string }.

(** An application of [get_serve_details]. *)
Record AppDetails : Type := mkAppDetails {
  app_status : ApplicationStatus;
  app_message : string;
  app_deployments : dict (list Replica);
}.

(** [ApplicationStatusOverview]: per deployment, how many replicas are in each state. *)
Record Overview : Type := mkOverview {
  ov_status : ApplicationStatus;
  ov_message : string;
  ov_deployments : dict (dict Z);
}.

(** [Counter] *)
Definition count (xs : list string) : dict Z :=
  foldl (λ d x, Dict.set x (default 0 (Dict.get x d) + 1) d) [] xs.

Definition status_overview (a : AppDetails) : Overview :=
  mkOverview (app_status a) (app_message a)
    ((λ nd, (nd.1, count (replica_state <$> nd.2))) <$> app_deployments a).

Definition running_replica_ids (a : AppDetails) : gset string :=
  list_to_set (nd ← app_deployments a;
    r ← nd.2; if decide (replica_state r = "RUNNING"%string) then [replica_id r] else []).

Definition can_serve (o : Overview) : bool :=
  match ov_status o with
  | DELETING => false
  | RUNNING => true
  | _ => existsb (λ nd, existsb (λ sc, bool_decide (sc.1 = "RUNNING"%string) && (0 <? sc.2)) nd.2)
           (ov_deployments o)
  end.

(** ** A gateway's table *)

Record Routing : Type := mkRouting {
  (** app -> model, one app per model *)
  models : dict string;
  expected : list string;
}.

#[export] Instance routing_eq_dec : EqDecision Routing.
Proof. solve_decision. Defined.

Definition compute_routing (gateway_name : string) (targets : dict string) (apps : dict Overview)
    : option Routing :=
  if Dict.get gateway_name apps is None then None
  else
    let table := Dict.of_list (omap (λ ma,
      match Dict.get ma.2 apps with
      | Some o => if can_serve o then Some (ma.2, ma.1) else None
      | None => None
      end) targets) in
    Some (mkRouting table (Dict.keys targets)).

(** ** The gateway coordinator *)

Definition PASS_INTERVAL : Z := second.
Definition WATCH_TIMEOUT : Z := 30 * second.
Definition REPORT_TTL : Z := 2 * WATCH_TIMEOUT.
Definition millisecond : Z := 1000000.

(** [self._versions[gateway]]: as the deploy coordinator last gave it. *)
Record Version : Type := mkVersion { v_seq : Z; v_apps : dict string }.

Record Report : Type := mkReport { r_seq : Z; r_generation : Z; r_at : Z }.

Record t : Type := mk {
  routing : gmap string Routing;
  versions : gmap string Version;
  seqs : gmap string Z;
  first_generation : Z;
  generation : gmap string Z;
  (** the [asyncio.Event] replicas of a gateway wait on, by number, and the ones set *)
  change : gmap string nat;
  set_events : gset nat;
  next_event : nat;
  computed : bool;
  watched : gset string;
  replicas : gmap string (gset string);
  reports : gmap string (gmap string Report);
}.

(** [__init__] at clock reading [now] *)
Definition init (now : Z) : t := mk ∅ ∅ ∅ (now / millisecond) ∅ ∅ ∅ 0 false ∅ ∅ ∅.

Definition current_generation (gw : string) (s : t) : Z := default (first_generation s) (generation s !! gw).

Definition watch (gw : string) (s : t) : t :=
  mk (routing s) (versions s) (seqs s) (first_generation s) (generation s) (change s) (set_events s)
    (next_event s) (computed s) ({[gw]} ∪ watched s) (replicas s) (reports s).

(** [_bump] *)
Definition bump (gw : string) (s : t) : t :=
  mk (routing s) (versions s) (seqs s) (first_generation s)
    (<[gw := current_generation gw s + 1]> (generation s))
    (delete gw (change s))
    (match change s !! gw with Some e => {[e]} ∪ set_events s | None => set_events s end)
    (next_event s) (computed s) (watched s) (replicas s) (reports s).

(** [_publish] *)
Definition publish (gw : string) (r : Routing) (n : Z) (s : t) : t :=
  let previous := routing s !! gw in
  let changed := bool_decide (previous ≠ Some r) in
  let s' := mk (<[gw := r]> (routing s)) (versions s) (seqs s) (first_generation s) (generation s) (change s)
              (set_events s) (next_event s) (computed s) (watched s) (replicas s) (reports s) in
  let s' := if changed || bool_decide (seqs s !! gw ≠ Some n) then bump gw s' else s' in
  mk (routing s') (versions s') (<[gw := n]> (seqs s')) (first_generation s') (generation s') (change s')
    (set_events s') (next_event s') (computed s') (watched s') (replicas s') (reports s').

(** [_fresh_reports], with the stale ones dropped *)
Definition fresh (now : Z) (r : Report) : bool := negb (REPORT_TTL <? now - r_at r).

Definition fresh_reports (gw : string) (now : Z) (s : t) : t * gmap string Report :=
  let kept := filter (λ kr, fresh now kr.2 = true) (default ∅ (reports s !! gw)) in
  (mk (routing s) (versions s) (seqs s) (first_generation s) (generation s) (change s) (set_events s)
     (next_event s) (computed s) (watched s) (replicas s)
     (if reports s !! gw is Some _ then <[gw := kept]> (reports s) else reports s), kept).

(** One gateway in [_compute]: its table published and its replicas noted, when its routing
    version is known and its own app is in Serve; and what [GATEWAY_REPLICAS_BEHIND] is set to. *)
Definition compute_gateway (apps : dict Overview) (running : dict (gset string)) (now : Z) (s : t) (gw : string) : t :=
  match versions s !! gw with
  | None => s
  | Some v =>
      match compute_routing gw (v_apps v) apps with
      | None => s
      | Some r =>
          let s := mk (routing s) (versions s) (seqs s) (first_generation s) (generation s) (change s)
                     (set_events s) (next_event s) (computed s) (watched s)
                     (<[gw := default ∅ (Dict.get gw running)]> (replicas s)) (reports s) in
          let s := publish gw r (v_seq v) s in
          (fresh_reports gw now s).1
      end
  end.

Definition replicas_behind (gw : string) (now : Z) (s : t) : nat :=
  let holding := filter (λ kr, r_generation kr.2 = current_generation gw s) (fresh_reports gw now s).2 in
  size (default ∅ (replicas s !! gw) ∖ dom holding).

(** The gateways a pass computes. *)
Definition pass_gateways (apps : dict AppDetails) (s : t) : gset string :=
  watched s ∪ list_to_set (omap (λ na, fst <$> parse_deployment_name na.1) apps).

(** [_fetch_versions]: what the deploy coordinator answers, [None] when it is absent or fails. *)
Definition fetch_versions (answer : option (gmap string Version)) (s : t) : t :=
  match answer with
  | None => s
  | Some vs =>
      mk (routing s) (vs ∪ versions s) (seqs s) (first_generation s) (generation s) (change s) (set_events s)
        (next_event s) (computed s) (watched s) (replicas s) (reports s)
  end.

(** What [_read_serve] makes of Serve's applications. *)
Definition overviews (apps : dict AppDetails) : dict Overview := (λ na, (na.1, status_overview na.2)) <$> apps.

(** [_compute]: one pass, over the gateways found before the versions were asked for. *)
Definition compute (apps : dict AppDetails) (answer : option (gmap string Version)) (now : Z) (s : t) : t :=
  let running := (λ na, (na.1, running_replica_ids na.2)) <$> apps in
  let gateways := elements (pass_gateways apps s) in
  let s := if gateways is [] then s else fetch_versions answer s in
  let s := foldl (compute_gateway (overviews apps) running now) s gateways in
  mk (routing s) (versions s) (seqs s) (first_generation s) (generation s) (change s) (set_events s)
    (next_event s) true (watched s) (replicas s) (reports s).

(** ** The replicas' calls *)

(** [get_routing], once the first pass is over. *)
Definition get_routing (gw : string) (s : t) : t * (Routing * Z * option Z) :=
  let s := watch gw s in
  (s, (default (mkRouting [] []) (routing s !! gw), current_generation gw s, seqs s !! gw)).

(** [wait_for_change] up to its wait: the generation it returns at once, or the event it waits
    on, [None] for the first pass. A replica passes its id and the routing seq it holds. *)
Inductive poll : Type := Returns (gen : Z) | WaitsFor (event : option nat).

Definition wait_for_change (gw : string) (since_gen : Z) (holder : option (string * Z)) (now : Z) (s : t)
    : t * poll :=
  let s := watch gw s in
  let s := match holder with
           | Some (replica, seq) =>
               mk (routing s) (versions s) (seqs s) (first_generation s) (generation s) (change s) (set_events s)
                 (next_event s) (computed s) (watched s) (replicas s)
                 (<[gw := <[replica := mkReport seq since_gen now]> (default ∅ (reports s !! gw))]> (reports s))
           | None => s
           end in
  if computed s then
    if decide (current_generation gw s ≠ since_gen) then (s, Returns (current_generation gw s))
    else
      match change s !! gw with
      | Some e => (s, WaitsFor (Some e))
      | None =>
          (mk (routing s) (versions s) (seqs s) (first_generation s) (generation s)
             (<[gw := next_event s]> (change s)) (set_events s) (S (next_event s)) (computed s) (watched s)
             (replicas s) (reports s), WaitsFor (Some (next_event s)))
      end
  else (s, WaitsFor None).

(** [_switched] *)
Definition is_switched (gw : string) (n now : Z) (s : t) : t * bool :=
  if negb (computed s) || bool_decide (seqs s !! gw ≠ Some n) then (s, false)
  else
    let '(s, kept) := fresh_reports gw now s in
    let holding := dom (filter (λ kr, r_seq kr.2 = n) kept) in
    (s, bool_decide (default ∅ (replicas s !! gw) ⊆ holding)).

(** [wait_switched], given what each of its looks at the state found, in order, and the looks its
    timeout allows. *)
Fixpoint wait_switched (looks : list bool) : bool :=
  match looks with [] => false | b :: looks => if b then true else wait_switched looks end.

(** ** Runs

    A run is a list of passes and calls; [waits] are the long polls left waiting on an event, with
    their gateway and the generation they wait to see change. *)
Inductive event : Type :=
| Pass (apps : dict AppDetails) (answer : option (gmap string Version)) (now : Z)
| GetRouting (gw : string)
| Poll (gw : string) (since_gen : Z) (holder : option (string * Z)) (now : Z)
| Switched (gw : string) (n now : Z).

Record wait : Type := mkWait { w_gateway : string; w_since : Z; w_event : nat }.

Definition step (sw : t * list wait) (e : event) : t * list wait :=
  let '(s, waits) := sw in
  match e with
  | Pass apps answer now => (compute apps answer now s, waits)
  | GetRouting gw => ((get_routing gw s).1, waits)
  | Poll gw since holder now =>
      let '(s, p) := wait_for_change gw since holder now s in
      (s, if p is WaitsFor (Some e) then mkWait gw since e :: waits else waits)
  | Switched gw n now => ((is_switched gw n now s).1, waits)
  end.

Definition run (es : list event) (s : t) : t * list wait := foldl step (s, []) es.

(** The report a replica's latest poll made. *)
Definition last_report (gw replica : string) (es : list event) : option Report :=
  foldl (λ r e,
    match e with
    | Poll gw' since (Some (replica', seq)) now =>
        if decide (gw' = gw ∧ replica' = replica) then Some (mkReport seq since now) else r
    | _ => r
    end) None es.

(** The deploy coordinator answered a pass with version [v] of the gateway. *)
Definition answered (gw : string) (v : Version) (es : list event) : Prop :=
  ∃ apps vs now, Pass apps (Some vs) now ∈ es ∧ vs !! gw = Some v.

Definition is_pass (e : event) : bool := if e is Pass _ _ _ then true else false.

Definition passes (es : list event) : nat := length (filter (λ e, is_pass e = true) es).

(** ** Lemmas *)

Module RoutingFacts.

Lemma count_get xs k : default 0 (Dict.get k (count xs)) = Z.of_nat (length (filter (λ x, x = k) xs)).
Proof.
  unfold count. assert (∀ d, default 0 (Dict.get k (foldl (λ d x, Dict.set x (default 0 (Dict.get x d) + 1) d) d xs)) =
    default 0 (Dict.get k d) + Z.of_nat (length (filter (λ x, x = k) xs))) as H; [|by rewrite H].
  induction xs as [|x xs IH]; intros d; [cbn; lia|]. cbn [foldl]. rewrite IH, Dict.get_set, filter_cons.
  destruct (decide (k = x)) as [->|Hne].
  - rewrite decide_True by done. simpl. lia.
  - rewrite decide_False by done. done.
Qed.

Lemma count_elem xs k n : (k, n) ∈ count xs → n = Z.of_nat (length (filter (λ x, x = k) xs)).
Proof.
  intros Hin. assert (NoDup (Dict.keys (count xs))) as Hnd.
  { clear Hin. unfold count. assert (∀ d : dict Z, NoDup (Dict.keys d) →
      NoDup (Dict.keys (foldl (λ d x, Dict.set x (default 0 (Dict.get x d) + 1) d) d xs))) as H.
    { induction xs as [|x xs IH]; intros d Hd; [done|]. cbn [foldl]. apply IH. by apply Dict.NoDup_keys_set. }
    apply H. constructor. }
  apply Dict.elem_get in Hin; [|done]. rewrite <-count_get, Hin. done.
Qed.

(** Some deployment has a running replica. *)
Lemma some_running a :
  existsb (λ nd, existsb (λ sc, bool_decide (sc.1 = "RUNNING"%string) && (0 <? sc.2)) nd.2)
    (ov_deployments (status_overview a)) = true ↔
  ∃ n rs r, (n, rs) ∈ app_deployments a ∧ r ∈ rs ∧ replica_state r = "RUNNING"%string.
Proof.
  rewrite existsb_exists. setoid_rewrite <-list_elem_of_In. unfold status_overview. simpl.
  setoid_rewrite list_elem_of_fmap. setoid_rewrite existsb_exists. setoid_rewrite <-list_elem_of_In. split.
  - intros (x & ([n rs] & -> & Hin) & ([k c] & Hc & Hk)). simpl in *.
    apply andb_true_iff in Hk as [->%bool_decide_eq_true Hpos%Z.ltb_lt].
    apply count_elem in Hc. subst c.
    destruct (filter (λ x, x = "RUNNING"%string) (replica_state <$> rs)) as [|y l] eqn:E; [simpl in Hpos; lia|].
    assert (y ∈ filter (λ x, x = "RUNNING"%string) (replica_state <$> rs)) as [-> Hy]%list_elem_of_filter
      by (rewrite E; constructor).
    apply list_elem_of_fmap in Hy as (r & ? & ?). exists n, rs, r. done.
  - intros (n & rs & r & Hin & Hr & Hs). exists (n, count (replica_state <$> rs)).
    split; [by exists (n, rs)|]. simpl.
    assert (Dict.get "RUNNING"%string (count (replica_state <$> rs)) =
      Some (Z.of_nat (length (filter (λ x, x = "RUNNING"%string) (replica_state <$> rs))))) as Hg.
    { pose proof (count_get (replica_state <$> rs) "RUNNING"%string) as Hc.
      destruct (Dict.get _ _) as [c|]; simpl in Hc; [congruence|]. exfalso.
      destruct (filter (λ x, x = "RUNNING"%string) (replica_state <$> rs)) as [|y l] eqn:E; [|simpl in Hc; lia].
      assert ("RUNNING"%string ∈ filter (λ x, x = "RUNNING"%string) (replica_state <$> rs)) as Hin'.
      { apply list_elem_of_filter. split; [done|]. apply list_elem_of_fmap. eauto. }
      rewrite E in Hin'. by apply elem_of_nil in Hin'. }
    eexists. split; [apply Dict.get_Some_elem; exact Hg|]. simpl. apply Z.ltb_lt.
    destruct (filter (λ x, x = "RUNNING"%string) (replica_state <$> rs)) as [|y l] eqn:E; [|simpl; lia].
    assert ("RUNNING"%string ∈ filter (λ x, x = "RUNNING"%string) (replica_state <$> rs)) as Hin'.
    { apply list_elem_of_filter. split; [done|]. apply list_elem_of_fmap. eauto. }
    rewrite E in Hin'. by apply elem_of_nil in Hin'.
Qed.

Lemma elem_of_running a i :
  i ∈ running_replica_ids a ↔
    ∃ n rs r, (n, rs) ∈ app_deployments a ∧ r ∈ rs ∧ replica_state r = "RUNNING"%string ∧ replica_id r = i.
Proof.
  unfold running_replica_ids. rewrite elem_of_list_to_set, list_elem_of_bind. setoid_rewrite list_elem_of_bind. split.
  - intros ([n rs] & (r & Hi & Hr) & Hin). destruct (decide (replica_state r = _)) as [Hs|]; simpl in *;
      [|by apply elem_of_nil in Hi]. apply list_elem_of_singleton in Hi. exists n, rs, r. done.
  - intros (n & rs & r & Hin & Hr & Hs & <-). exists (n, rs). split; [|done]. exists r. simpl.
    rewrite decide_True by done. split; [constructor|done].
Qed.

(** ** Generations and events *)

Lemma current_bump gw gw' s :
  current_generation gw' (bump gw s) =
    if decide (gw' = gw) then current_generation gw s + 1 else current_generation gw' s.
Proof.
  unfold bump, current_generation. simpl. case_decide; subst.
  - by rewrite lookup_insert_eq.
  - by rewrite lookup_insert_ne.
Qed.

(** Two states with the same generations, events and clock base. *)
Record same_core (s s' : t) : Prop := {
  sc_first : first_generation s' = first_generation s;
  sc_generation : generation s' = generation s;
  sc_change : change s' = change s;
  sc_set : set_events s' = set_events s;
  sc_next : next_event s' = next_event s;
}.

Lemma same_core_refl s : same_core s s.
Proof. done. Qed.

Lemma publish_core gw r n s :
  same_core (if bool_decide (routing s !! gw ≠ Some r) || bool_decide (seqs s !! gw ≠ Some n)
             then bump gw s else s) (publish gw r n s).
Proof. unfold publish. simpl. by destruct (_ || _). Qed.

Lemma compute_gateway_core apps running now s gw :
  same_core s (compute_gateway apps running now s gw) ∨
  same_core (bump gw s) (compute_gateway apps running now s gw).
Proof.
  unfold compute_gateway. destruct (versions s !! gw) as [v|]; [|left; done].
  destruct (compute_routing gw (v_apps v) apps) as [r|]; [|left; done].
  set (s1 := mk (routing s) _ _ _ _ _ _ _ _ _ _ _).
  destruct (publish_core gw r (v_seq v) s1) as [H1 H2 H3 H4 H5].
  destruct (bool_decide (routing s1 !! gw ≠ Some r) || bool_decide (seqs s1 !! gw ≠ Some (v_seq v)));
    [right|left]; split; cbn in *; done.
Qed.

(** *** Waiting replicas *)

Record events_ok (s : t) (waits : list wait) : Prop := {
  ev_change gw e : change s !! gw = Some e → (e < next_event s)%nat ∧ e ∉ set_events s;
  ev_inj gw gw' e : change s !! gw = Some e → change s !! gw' = Some e → gw = gw';
  ev_set e : e ∈ set_events s → (e < next_event s)%nat;
  ev_wait w : w ∈ waits → (w_event w < next_event s)%nat ∧
    ((w_event w ∈ set_events s ∧ w_since w < current_generation (w_gateway w) s) ∨
     (change s !! w_gateway w = Some (w_event w) ∧ w_since w = current_generation (w_gateway w) s));
}.

Lemma current_core s s' gw : same_core s s' → current_generation gw s' = current_generation gw s.
Proof. intros [H1 H2 _ _ _]. unfold current_generation. by rewrite H1, H2. Qed.

Lemma events_core s s' waits : same_core s s' → events_ok s waits → events_ok s' waits.
Proof.
  intros Hc [J1 J2 J3 J4]. pose proof Hc as [_ _ H3 H4 H5].
  split; rewrite ?H3, ?H4, ?H5; [done..|]. intros w. rewrite (current_core s s') by done. apply J4.
Qed.

Lemma events_bump gw s waits : events_ok s waits → events_ok (bump gw s) waits.
Proof.
  intros [J1 J2 J3 J4].
  assert (∀ e, e ∈ set_events (bump gw s) ↔ e ∈ set_events s ∨ change s !! gw = Some e) as Hset.
  { intros e. unfold bump. simpl. destruct (change s !! gw) as [x|]; set_solver. }
  split.
  - intros gw' e Hg. unfold bump in Hg. cbn in Hg. apply lookup_delete_Some in Hg as [Hne Hg]. destruct (J1 _ _ Hg). split; [done|].
    rewrite Hset. intros [?|Hg']; [done|]. by rewrite (J2 _ _ _ Hg Hg') in Hne.
  - intros gw1 gw2 e H1 H2. unfold bump in H1, H2. cbn in H1, H2.
    apply lookup_delete_Some in H1 as [_ H1], H2 as [_ H2]. eauto.
  - intros e. rewrite Hset. intros [?|Hg]; [by apply J3|by apply J1 in Hg as [? _]].
  - intros w Hw. destruct (J4 w Hw) as [Hn Hc]. split; [done|]. rewrite Hset, current_bump.
    destruct Hc as [[Hs Hl]|[Hg Hl]].
    + left. split; [by left|]. case_decide as E; [rewrite <-E|]; lia.
    + destruct (decide (w_gateway w = gw)) as [E|E].
      * left. split; [right; congruence|]. rewrite <-E. lia.
      * right. split; [|done]. unfold bump. simpl. by rewrite lookup_delete_ne.
Qed.

Lemma events_gateway apps running now s gw waits :
  events_ok s waits → events_ok (compute_gateway apps running now s gw) waits.
Proof.
  intros J. destruct (compute_gateway_core apps running now s gw) as [Hc|Hc].
  - exact (events_core _ _ _ Hc J).
  - exact (events_core _ _ _ Hc (events_bump _ _ _ J)).
Qed.

Lemma events_pass apps answer now s waits : events_ok s waits → events_ok (compute apps answer now s) waits.
Proof.
  intros J. unfold compute.
  set (ov := overviews apps). set (rn := _ <$> apps). clearbody ov rn.
  generalize (elements (pass_gateways apps s)). intros gws.
  assert (events_ok (if gws is [] then s else fetch_versions answer s) waits) as J0.
  { destruct gws; [exact J|]. destruct answer as [vs|]; [|exact J]. by apply (events_core s). }
  revert J0. generalize (if gws is [] then s else fetch_versions answer s). clear J.
  intros s0 J0.
  assert (events_ok (foldl (compute_gateway ov rn now) s0 gws) waits) as J1; [|by eapply events_core; [|exact J1]].
  revert s0 J0. induction gws as [|gw gws IH]; intros s0 J0; [done|]. simpl. by apply IH, events_gateway.
Qed.

Lemma fresh_reports_core gw now s : same_core s (fresh_reports gw now s).1.
Proof. done. Qed.

Lemma is_switched_core gw n now s : same_core s (is_switched gw n now s).1.
Proof. unfold is_switched. by destruct (_ || _). Qed.

Lemma step_events s waits e :
  events_ok s waits → events_ok (step (s, waits) e).1 (step (s, waits) e).2.
Proof.
  intros J. destruct e as [apps answer now|gw|gw since holder now|gw n now]; simpl.
  - by apply events_pass.
  - by apply (events_core s).
  - unfold wait_for_change. set (s1 := match holder with Some _ => _ | None => _ end).
    assert (same_core s s1) as Hc by (unfold s1; by destruct holder as [[]|]).
    pose proof (events_core _ _ _ Hc J) as J1. clearbody s1. clear Hc J.
    destruct (computed s1); [|done]. case_decide as Hg; [done|].
    destruct J1 as [J1 J2 J3 J4]. destruct (change s1 !! gw) as [e|] eqn:He; simpl.
    + split; [done..|]. intros w [->|Hw]%elem_of_cons; [|by apply J4]. simpl.
      split; [by apply (J1 _ _ He)|]. right. by split.
    + split; simpl.
      * intros gw' e [[<- <-]|[_ Hg']]%lookup_insert_Some; [split; [lia|]|destruct (J1 _ _ Hg'); split; [lia|done]].
        intros Hin%J3. lia.
      * intros g1 g2 e [[<- <-]|[_ H1]]%lookup_insert_Some [[<- E]|[_ H2]]%lookup_insert_Some; [done|..].
        -- destruct (J1 _ _ H2). lia.
        -- subst e. destruct (J1 _ _ H1). lia.
        -- eauto.
      * intros e Hin%J3. lia.
      * intros w [->|Hw]%elem_of_cons; simpl.
        -- split; [lia|]. right. rewrite lookup_insert_eq. by split.
        -- destruct (J4 w Hw) as [Hn Hc]. split; [lia|]. destruct Hc as [?|[Hg' ?]]; [by left|right].
           split; [|done]. rewrite lookup_insert_ne; [done|]. congruence.
  - eapply events_core; [apply is_switched_core|done].
Qed.

Lemma run_events es now0 : events_ok (run es (init now0)).1 (run es (init now0)).2.
Proof.
  unfold run. assert (events_ok (init now0) []) as J.
  { split; intros *; simpl; rewrite ?lookup_empty; try done. intros []%elem_of_nil. }
  revert J. generalize (init now0), (@nil wait).
  induction es as [|e es IH]; intros s ws J; [done|]. cbn [foldl].
  pose proof (step_events s ws e J) as J'. destruct (step (s, ws) e). by apply IH.
Qed.

(** *** How far generations get *)

Lemma fold_generation apps running now gws s gw :
  NoDup gws →
  let g := current_generation gw s in let g' := current_generation gw (foldl (compute_gateway apps running now) s gws) in
  g ≤ g' ≤ g + (if decide (gw ∈ gws) then 1 else 0).
Proof.
  intros Hnd. revert s. induction gws as [|x gws IH]; intros s.
  { rewrite decide_False by apply not_elem_of_nil. simpl. lia. }
  apply NoDup_cons in Hnd as [Hx Hnd]. cbn [foldl]. specialize (IH Hnd (compute_gateway apps running now s x)).
  cbv zeta in IH. set (gw' := gw) in IH. subst gw'.
  destruct (compute_gateway_core apps running now s x) as [Hc|Hc]; rewrite (current_core _ _ gw Hc) in IH.
  - destruct (decide (gw ∈ gws)), (decide (gw ∈ x :: gws)) as [Hin|Hin]; try lia.
    destruct Hin. by constructor.
  - rewrite current_bump in IH. destruct (decide (gw = x)) as [->|Hne].
    + rewrite decide_False in IH by done. rewrite decide_True by constructor. lia.
    + destruct (decide (gw ∈ gws)), (decide (gw ∈ x :: gws)) as [Hin|Hin]; try lia.
      destruct Hin. by constructor.
Qed.

Lemma step_generation s ws e gw :
  current_generation gw s ≤ current_generation gw (step (s, ws) e).1
    ≤ current_generation gw s + Z.of_nat (passes [e]).
Proof.
  destruct e as [apps answer now|gw0|gw0 since holder now|gw0 n now]; unfold passes; simpl.
  - unfold compute. set (gws := elements _).
    set (s1 := if gws is [] then s else fetch_versions answer s).
    assert (current_generation gw s1 = current_generation gw s) as E.
    { unfold s1. destruct gws; [done|]. by destruct answer. }
    pose proof (fold_generation (overviews apps)
      ((λ na, (na.1, running_replica_ids na.2)) <$> apps) now gws s1 gw (NoDup_elements _)) as H.
    cbv zeta in H. rewrite E in H. unfold current_generation in *. cbn in *. case_decide; lia.
  - unfold current_generation, watch. simpl. lia.
  - unfold wait_for_change. set (s1 := match holder with Some _ => _ | None => _ end).
    assert (current_generation gw s1 = current_generation gw s) as E by (unfold s1; by destruct holder as [[]|]).
    clearbody s1. destruct (computed s1); [|simpl; lia]. case_decide; [simpl; lia|].
    destruct (change s1 !! gw0); unfold current_generation in *; simpl; lia.
  - rewrite (current_core s (is_switched gw0 n now s).1); [lia|apply is_switched_core].
Qed.

Lemma run_generation es s ws gw :
  current_generation gw s ≤ current_generation gw (foldl step (s, ws) es).1
    ≤ current_generation gw s + Z.of_nat (passes es).
Proof.
  revert s ws. induction es as [|e es IH]; intros s ws; [unfold passes; simpl; lia|]. cbn [foldl].
  pose proof (step_generation s ws e gw) as H. destruct (step (s, ws) e) as [s1 ws1]. specialize (IH s1 ws1).
  assert (passes (e :: es) = (passes [e] + passes es)%nat) as ->; [|simpl in H; lia].
  by destruct e.
Qed.

(** *** Where tables and reports come from *)

Lemma publish_tables gw r n s gw' :
  routing (publish gw r n s) !! gw' = (if decide (gw' = gw) then Some r else routing s !! gw') ∧
  seqs (publish gw r n s) !! gw' = (if decide (gw' = gw) then Some n else seqs s !! gw') ∧
  reports (publish gw r n s) = reports s ∧ versions (publish gw r n s) = versions s.
Proof.
  unfold publish. cbn. case_decide as E; [subst gw'; rewrite lookup_insert_eq|rewrite (lookup_insert_ne _ gw) by done];
    destruct (_ || _); cbn; rewrite ?lookup_insert_eq, ?lookup_insert_ne by done; done.
Qed.

(** What a state owes to the passes and polls that led to it. *)
Record explained (s : t) (es : list event) : Prop := {
  ex_version gw v : versions s !! gw = Some v → answered gw v es;
  ex_table gw n : seqs s !! gw = Some n →
    ∃ v rt apps answer now, v_seq v = n ∧ answered gw v es ∧ Pass apps answer now ∈ es ∧
      routing s !! gw = Some rt ∧ compute_routing gw (v_apps v) (overviews apps) = Some rt;
  ex_report gw i r : default ∅ (reports s !! gw) !! i = Some r → last_report gw i es = Some r;
}.

Lemma answered_app gw v es e : answered gw v es → answered gw v (es ++ [e]).
Proof. intros (a & vs & now & H & ?). exists a, vs, now. rewrite elem_of_app. auto. Qed.

Lemma last_report_app gw i es e :
  last_report gw i (es ++ [e]) =
    match e with
    | Poll gw' since (Some (i', seq)) now =>
        if decide (gw' = gw ∧ i' = i) then Some (mkReport seq since now) else last_report gw i es
    | _ => last_report gw i es
    end.
Proof. unfold last_report. by rewrite foldl_app. Qed.

(** A state with the same tables and versions, and some of the reports, has the same explanation, and so
    does a longer run that ends in no poll. *)
Lemma explained_mono s s' es e :
  explained s es → versions s' = versions s → seqs s' = seqs s → routing s' = routing s →
  (∀ gw i r, default ∅ (reports s' !! gw) !! i = Some r → last_report gw i (es ++ [e]) = Some r) →
  explained s' (es ++ [e]).
Proof.
  intros [X1 X2 X3] Hv Hq Ht Hr. split; rewrite ?Hv, ?Hq, ?Ht; [|..|done].
  - intros gw v H. by apply answered_app, X1.
  - intros gw n H. destruct (X2 gw n H) as (v & rt & apps & answer & now & ? & ? & ? & ? & ?).
    exists v, rt, apps, answer, now. split_and!; [done|by apply answered_app| |done..]. rewrite elem_of_app. auto.
Qed.

Lemma fresh_reports_sub gw now s gw' i r :
  default ∅ (reports (fresh_reports gw now s).1 !! gw') !! i = Some r →
  default ∅ (reports s !! gw') !! i = Some r.
Proof.
  unfold fresh_reports. cbn. destruct (reports s !! gw) as [m|] eqn:Hm; [|done].
  destruct (decide (gw' = gw)) as [->|]; [rewrite lookup_insert_eq|by rewrite lookup_insert_ne].
  rewrite Hm. cbn. by intros [? _]%map_lookup_filter_Some.
Qed.

Lemma explained_gateway apps answer now s gw es running :
  Pass apps answer now ∈ es → explained s es →
  explained (compute_gateway (overviews apps) running now s gw) es.
Proof.
  intros Hin [X1 X2 X3]. unfold compute_gateway. destruct (versions s !! gw) as [v|] eqn:Hv; [|done].
  destruct (compute_routing _ _ _) as [rt|] eqn:Hrt; [|done].
  set (s1 := mk (routing s) _ _ _ _ _ _ _ _ _ _ _).
  pose proof (publish_tables gw rt (v_seq v) s1) as HP.
  assert (explained (publish gw rt (v_seq v) s1) es) as [Y1 Y2 Y3].
  { split.
    - intros gw' v'. destruct (HP gw') as (_ & _ & _ & ->). apply X1.
    - intros gw' n. destruct (HP gw') as (-> & -> & _). case_decide as E; [subst gw'|apply X2].
      intros [= <-]. exists v, rt, apps, answer, now. split_and!; auto.
    - intros gw' i r. destruct (HP gw') as (_ & _ & -> & _). apply X3. }
  split; [done..|]. intros gw' i r H. by apply fresh_reports_sub, Y3 in H.
Qed.

Lemma explained_pass apps answer now s es :
  explained s es → explained (compute apps answer now s) (es ++ [Pass apps answer now]).
Proof.
  intros X. unfold compute. generalize (elements (pass_gateways apps s)). intros gws.
  set (rn := _ <$> apps). clearbody rn. set (es' := es ++ _).
  assert (Pass apps answer now ∈ es') as Hin by (apply elem_of_app; right; constructor).
  assert (explained s es') as X0.
  { apply (explained_mono s); [done..|]. intros gw i r H. rewrite last_report_app. by apply (ex_report _ _ X). }
  assert (explained (if gws is [] then s else fetch_versions answer s) es') as X1.
  { destruct gws; [exact X0|]. destruct answer as [vs|]; [|exact X0]. destruct X0 as [A B C].
    split; [|exact B|exact C]. intros gw v [H|[_ H]]%lookup_union_Some_raw; [|by apply A].
    exists apps, vs, now. done. }
  revert X1. generalize (if gws is [] then s else fetch_versions answer s). clear X X0. intros s0 X1.
  assert (explained (foldl (compute_gateway (overviews apps) rn now) s0 gws) es') as [A B C]; [|by split].
  revert s0 X1. induction gws as [|gw gws IH]; intros s0 X1; [done|]. cbn [foldl].
  apply IH. by eapply explained_gateway.
Qed.

Lemma explained_step s ws e es : explained s es → explained (step (s, ws) e).1 (es ++ [e]).
Proof.
  intros X. destruct e as [apps answer now|gw|gw since holder now|gw n now]; simpl.
  - by apply explained_pass.
  - apply (explained_mono s); [done..|]. intros gw' i r H. rewrite last_report_app. by apply (ex_report _ _ X).
  - unfold wait_for_change. set (s1 := match holder with Some _ => _ | None => _ end).
    assert (explained s1 (es ++ [Poll gw since holder now])) as X1.
    { unfold s1. apply (explained_mono s); [done|by destruct holder as [[]|]..|].
      intros gw' i r. rewrite last_report_app. destruct holder as [[j q]|]; [|apply (ex_report _ _ X)]. simpl.
      destruct (decide (gw = gw')) as [<-|Hg].
      - rewrite lookup_insert_eq. cbn. intros [[<- <-]|[Hj H]]%lookup_insert_Some; [by rewrite decide_True|].
        rewrite decide_False by tauto. by apply (ex_report _ _ X).
      - rewrite lookup_insert_ne by done. rewrite decide_False by tauto. apply (ex_report _ _ X). }
    clearbody s1. destruct X1 as [A B C].
    destruct (computed s1); [|by split]. case_decide; [by split|]. destruct (change s1 !! gw); by split.
  - unfold is_switched. destruct (_ || _);
      (apply (explained_mono s); [done..|]); intros gw' i r H; rewrite last_report_app; cbn [fst] in H;
      [|apply fresh_reports_sub in H]; by apply (ex_report _ _ X).
Qed.

Lemma run_explained es now0 : explained (run es (init now0)).1 es.
Proof.
  induction es as [|e es IH] using rev_ind.
  - split; intros *; cbn; by rewrite ?lookup_empty.
  - unfold run in *. rewrite foldl_app. cbn [foldl].
    destruct (foldl step (init now0, []) es) as [s ws]. by apply explained_step.
Qed.

Lemma fresh_spec now r : fresh now r = true ↔ now - r_at r ≤ REPORT_TTL.
Proof. unfold fresh. rewrite negb_true_iff, Z.ltb_ge. done. Qed.

Lemma is_switched_spec gw n now s :
  (is_switched gw n now s).2 = true ↔
    computed s = true ∧ seqs s !! gw = Some n ∧
    ∀ i, i ∈ default ∅ (replicas s !! gw) →
      ∃ r, default ∅ (reports s !! gw) !! i = Some r ∧ r_seq r = n ∧ now - r_at r ≤ REPORT_TTL.
Proof.
  unfold is_switched. destruct (computed s); simpl; [|split; [done|by intros (? & _)]].
  destruct (decide (seqs s !! gw = Some n)) as [->|Hn].
  2:{ rewrite bool_decide_eq_true_2 by done. split; [done|by intros (_ & ? & _)]. }
  rewrite bool_decide_eq_false_2 by auto. simpl. rewrite bool_decide_eq_true. split.
  - intros Hs. split_and!; [done..|]. intros i Hi. apply Hs in Hi.
    apply elem_of_dom in Hi as [r [[Hr Hf]%map_lookup_filter_Some He]%map_lookup_filter_Some].
    exists r. by rewrite <-fresh_spec.
  - intros (_ & _ & H) i Hi. destruct (H i Hi) as (r & Hr & He & Hf). apply elem_of_dom. exists r.
    apply map_lookup_filter_Some. split; [|done]. apply map_lookup_filter_Some. by rewrite <-fresh_spec in Hf.
Qed.

Lemma table_elem (targets : dict string) (apps : dict Overview) a m :
  (a, m) ∈ omap (λ ma : string * string,
      match Dict.get ma.2 apps with
      | Some o => if can_serve o then Some (ma.2, ma.1) else None
      | None => None
      end) targets ↔
  (m, a) ∈ targets ∧ ∃ o, Dict.get a apps = Some o ∧ can_serve o = true.
Proof.
  rewrite list_elem_of_omap. split.
  - intros ([m' a'] & Hin & H). simpl in H. repeat case_match; simplify_eq. eauto.
  - intros (Hin & o & Ho & Hc). exists (m, a). split; [done|]. simpl. by rewrite Ho, Hc.
Qed.
End RoutingFacts.


(** ** Properties *)

Module RoutingProperties.
Import RoutingFacts.

Lemma can_serve_iff a :
  can_serve (status_overview a) = true ↔
    app_status a ≠ DELETING ∧ (app_status a = RUNNING ∨ running_replica_ids a ≠ ∅).
Proof.
  assert ((∃ n rs r, (n, rs) ∈ app_deployments a ∧ r ∈ rs ∧ replica_state r = "RUNNING"%string) ↔
    running_replica_ids a ≠ ∅) as E.
  { split.
    - intros (n & rs & r & ? & ? & ?) He. apply (not_elem_of_empty (C := gset string) (replica_id r)).
      rewrite <-He. apply elem_of_running. eauto 10.
    - intros [i (n & rs & r & ? & ? & ? & _)%elem_of_running]%set_choose_L. eauto 10. }
  unfold can_serve. change (ov_status (status_overview a)) with (app_status a). rewrite <-E, <-some_running.
  destruct (app_status a); intuition congruence.
Qed.

Lemma overviews_get app apps : Dict.get app (overviews apps) = status_overview <$> Dict.get app apps.
Proof.
  unfold overviews. induction apps as [|[k a] apps IH]; [done|]. cbn [fmap list_fmap Dict.get].
  cbn. by case_decide.
Qed.

(** the table a pass computes for a gateway whose own application is in Serve maps an
    application to a model exactly when the routing version sends that model to it and Serve has it
    running, or being replaced with a replica still running, and not being deleted; every model of
    the version is expected, and a gateway whose application Serve lacks gets no table. *)
Theorem table_sound_and_complete gw targets apps :
  NoDup (Dict.values targets) →
  (Dict.get gw apps = None → compute_routing gw targets (overviews apps) = None) ∧
  (∀ own, Dict.get gw apps = Some own → ∃ r, compute_routing gw targets (overviews apps) = Some r ∧
    expected r = Dict.keys targets ∧
    ∀ app model, Dict.get app (models r) = Some model ↔
      (model, app) ∈ targets ∧ ∃ a, Dict.get app apps = Some a ∧ app_status a ≠ DELETING ∧
        (app_status a = RUNNING ∨ running_replica_ids a ≠ ∅)).
Proof.
  intros Hnd. unfold compute_routing. rewrite overviews_get. split; [by intros ->|]. intros own ->. cbn.
  eexists. split; [done|]. split; [done|]. intros app model. cbn.
  set (l := omap _ targets).
  assert (NoDup (Dict.keys l)) as Hl.
  { apply (sublist_NoDup _ (Dict.values targets)); [done|]. unfold l. clear.
    induction targets as [|[m a] targets IH]; [constructor|]. cbn.
    destruct (Dict.get a (overviews apps)) as [o|]; [|by apply sublist_cons].
    destruct (can_serve o); [by apply sublist_skip|by apply sublist_cons]. }
  rewrite Dict.of_list_NoDup by done.
  assert (∀ m, Dict.get app l = Some m ↔ (app, m) ∈ l) as ->.
  { split; [apply Dict.get_Some_elem|by apply Dict.elem_get]. }
  unfold l. rewrite table_elem.
  setoid_rewrite overviews_get. split; intros [Hin (o & Ho & Hc)]; (split; [done|]).
  - destruct (Dict.get app apps) as [a|]; simplify_eq/=. exists a. split; [done|]. by apply can_serve_iff.
  - exists (status_overview o). rewrite Ho. split; [done|]. by apply can_serve_iff.
Qed.

Definition starting := mkAppDetails DEPLOYING "" [("m", [mkReplica "r1" "RUNNING"; mkReplica "r2" "STARTING"])]%string.
Definition gone := mkAppDetails DELETING "" [("m", [mkReplica "r3" "RUNNING"])]%string.

Lemma table_sound_and_complete_witness :
  ∃ r, compute_routing "g" [("a", "g/a"); ("b", "g/b")]
         (overviews [("g", starting); ("g/a", starting); ("g/b", gone)]) = Some r ∧
    Dict.get "g/a"%string (models r) = Some "a"%string ∧ Dict.get "g/b"%string (models r) = None.
Proof.
  destruct (table_sound_and_complete "g" [("a", "g/a"); ("b", "g/b")]
    [("g", starting); ("g/a", starting); ("g/b", gone)]) as [_ H];
    [repeat (constructor; [set_solver|]); constructor|].
  destruct (H starting eq_refl) as (r & Hr & _ & Hm). exists r. split; [exact Hr|]. split.
  - apply Hm. split; [constructor|]. exists starting. split; [done|]. split; [done|]. right.
    vm_compute. discriminate.
  - destruct (Dict.get "g/b"%string (models r)) as [m|] eqn:E; [|done].
    apply Hm in E as (_ & a & [= <-] & Hd & _). by destruct Hd.
Defined.

(** a gateway is reported switched to routing version [n] only when the table its replicas copy
    was computed from a version [n] of it the deploy coordinator answered, and the latest poll of
    every replica of the gateway that the last pass saw running reported [n], within the report's
    time to live. *)
Theorem switched_means_held es now0 gw n now :
  let s := (run es (init now0)).1 in
  (is_switched gw n now s).2 = true →
  (∃ v rt apps answer at_, v_seq v = n ∧ answered gw v es ∧ Pass apps answer at_ ∈ es ∧
     (get_routing gw s).2.1.1 = rt ∧ (get_routing gw s).2.2 = Some n ∧
     compute_routing gw (v_apps v) (overviews apps) = Some rt) ∧
  (∀ i, i ∈ default ∅ (replicas s !! gw) →
     ∃ r, last_report gw i es = Some r ∧ r_seq r = n ∧ now - r_at r ≤ REPORT_TTL).
Proof.
  intros s (_ & Hq & Hr)%is_switched_spec. destruct (run_explained es now0) as [_ X2 X3]. fold s in X2, X3. split.
  - destruct (X2 gw n Hq) as (v & rt & apps & answer & a & ? & ? & ? & Hrt & ?).
    exists v, rt, apps, answer, a. cbn. by rewrite Hrt.
  - intros i Hi. destruct (Hr i Hi) as (r & H & ? & ?). exists r. split; [by apply X3|done].
Qed.

Definition two_polls : list event :=
  [GetRouting "g"; Pass [("g", starting); ("g/a", starting)] (Some {["g" := mkVersion 7 [("a", "g/a")]]}) 5;
   Poll "g" 1 (Some ("r1", 7)) (6 * second); Switched "g" 7 (7 * second)]%string.

Lemma switched_means_held_witness :
  ∃ r, last_report "g" "r1" two_polls = Some r ∧ r_seq r = 7.
Proof.
  destruct (switched_means_held two_polls 0 "g" 7 (8 * second)) as [_ H]; [vm_compute; reflexivity|].
  destruct (H "r1"%string) as (r & Hr & Hs & _).
  { apply (bool_decide_unpack _). vm_compute. exact I. }
  exists r. split; [exact Hr|exact Hs].
Defined.

(** C38: no wake-up is lost: a replica left waiting for its gateway's generation to change is woken
    exactly when it has changed, however passes, polls and reads interleave. *)
Theorem no_lost_wakeup es now0 w :
  w ∈ (run es (init now0)).2 →
  w_event w ∈ set_events (run es (init now0)).1 ↔
    current_generation (w_gateway w) (run es (init now0)).1 ≠ w_since w.
Proof.
  intros Hw. destruct (run_events es now0) as [J1 _ _ J4].
  destruct (J4 w Hw) as [_ [[Hs Hl]|[Hg Hl]]].
  - split; [lia|done].
  - destruct (J1 _ _ Hg) as [_ Hn]. split; [done|]. lia.
Qed.

Definition waiting_run : list event :=
  [Pass [] None 0; Poll "g" 0 (Some ("r1", 3)) 0;
   Pass [("g", starting)] (Some {["g" := mkVersion 7 [("a", "g/a")]]}) 5]%string.

Lemma no_lost_wakeup_witness :
  (0%nat ∈ set_events (run waiting_run (init 0)).1 ↔ current_generation "g" (run waiting_run (init 0)).1 ≠ 0) ∧
  current_generation "g" (run waiting_run (init 0)).1 = 1.
Proof.
  split; [|vm_compute; reflexivity].
  apply (no_lost_wakeup waiting_run 0 (mkWait "g" 0 0)).
  assert ((run waiting_run (init 0)).2 = [mkWait "g" 0 0]) as -> by (vm_compute; reflexivity). constructor.
Defined.

(** a restarted gateway coordinator never repeats a generation: one that starts at least a
    millisecond per pass, and one more, after its predecessor only shows generations above every one
    the predecessor showed, so no poll against the old one waits on the new table. *)
Theorem generations_never_repeat es1 es2 t1 t2 gw :
  (Z.of_nat (passes es1) + 1) * millisecond ≤ t2 - t1 →
  current_generation gw (run es1 (init t1)).1 < current_generation gw (run es2 (init t2)).1.
Proof.
  intros Ht. destruct (run_generation es1 (init t1) [] gw) as [_ H1].
  destruct (run_generation es2 (init t2) [] gw) as [H2 _]. unfold run.
  change (current_generation gw (init t1)) with (t1 / millisecond) in H1.
  change (current_generation gw (init t2)) with (t2 / millisecond) in H2.
  enough (t1 / millisecond + (Z.of_nat (passes es1) + 1) ≤ t2 / millisecond) by lia.
  rewrite <-Z.div_add by done. apply Z.div_le_mono; [done|]. lia.
Qed.

Lemma generations_never_repeat_witness :
  current_generation "g" (run waiting_run (init 0)).1 < current_generation "g" (run [] (init second)).1.
Proof. apply (generations_never_repeat waiting_run [] 0 second "g"). vm_compute. discriminate. Defined.
End RoutingProperties.
