(* ===== verification/GatewayReplica.v ===== *)
(** * Gateway replicas

    [src/modelship/openai/api.py], the part of [ModelshipAPI] that keeps a replica's model table: the
    table itself, the snapshots of the gateway coordinator it is reconciled to, the first sync and the
    watch loop, and what is served from it; with [RequestTracker] of [src/modelship/metrics.py]. The
    replicas of a gateway run among the coordinator's passes, call by call. *)

From S2P Require Import Prelude StateStore ConfigSchema Diff GatewayRouting.
Local Open Scope Z_scope.

(** ** A request's outcome *)

Record RequestTracker : Type := mkTracker {
  t_model : string;
  t_operation : string;
  (** the status and error type recorded, once it is finished *)
  t_finished : option (string * option string);
}.

(** [finish]: only the first call counts. *)
Definition finish (status : string) (error_type : option string) (t : RequestTracker) : RequestTracker :=
  match t_finished t with
  | Some _ => t
  | None => mkTracker (t_model t) (t_operation t) (Some (status, error_type))
  end.

(** ** The table *)

(** A deployment's handle, known by the application it is of. *)
Record Handle : Type := mkHandle { h_app : string }.

(** What [get_routing] answers. *)
Record Snapshot : Type := mkSnapshot {
  s_models : dict string;
  s_expected : list string;
  s_generation : Z;
  s_routing : option Z;
}.

(** The fields of [ModelshipAPI] that are reconciled; a card is known by its id. *)
Record ModelshipAPI : Type := mkAPI {
  model_apps : dict (dict Handle);
  model_list : list string;
  expected_models : list string;
  gen : Z;
  routing_seq : option Z;
}.

(** [__init__] *)
Definition new_api : ModelshipAPI := mkAPI [] [] [] 0 None.

Definition with_tables (ms : dict (dict Handle)) (cards : list string) (a : ModelshipAPI) : ModelshipAPI :=
  mkAPI ms cards (expected_models a) (gen a) (routing_seq a).

(** [_register_deployment]; [ready] tells whose handle [serve.get_app_handle] resolves. *)
Definition register_deployment (ready : string → bool) (app_name model_name : string) (a : ModelshipAPI)
    : res ModelshipAPI :=
  handle ← (if ready app_name then Ok (mkHandle app_name) else Err (OtherError "RayServeException"));
  let a := if Dict.mem model_name (model_apps a) then a
           else with_tables (Dict.set model_name [] (model_apps a)) (model_list a ++ [model_name]) a in
  let handles := default [] (Dict.get model_name (model_apps a)) in
  Ok (with_tables (Dict.set model_name (Dict.set app_name handle handles) (model_apps a)) (model_list a) a).

(** The first model that has the application *)
Definition model_of (app_name : string) (ms : dict (dict Handle)) : option string :=
  fst <$> head (filter (λ mh, Dict.mem app_name mh.2 = true) ms).

(** [_drop_apps], for one of them, with the models removed so far *)
Definition drop_app (ar : ModelshipAPI * list string) (app_name : string) : ModelshipAPI * list string :=
  let '(a, removed) := ar in
  match model_of app_name (model_apps a) with
  | None => (a, removed)
  | Some m =>
      let handles := Dict.pop app_name (default [] (Dict.get m (model_apps a))) in
      match handles with
      | [] => (with_tables (Dict.pop m (model_apps a)) (filter (λ c, c ≠ m) (model_list a)) a, removed ++ [m])
      | _ => (with_tables (Dict.set m handles (model_apps a)) (model_list a) a, removed)
      end
  end.
Definition drop_apps (app_names : list string) (a : ModelshipAPI) : ModelshipAPI * list string :=
  foldl drop_app (a, []) app_names.

(** The applications of the table *)
Definition routed (a : ModelshipAPI) : list string := mh ← model_apps a; Dict.keys mh.2.

(** The registrations of [_apply_routing], with the applications that failed *)
Definition register_new (ready : string → bool) (present : list string) (af : ModelshipAPI * list string)
    (am : string * string) : ModelshipAPI * list string :=
  if bool_decide (am.1 ∈ present) then af
  else match register_deployment ready am.1 am.2 af.1 with
       | Ok a => (a, af.2)
       | Err _ => (af.1, af.2 ++ [am.1])
       end.

(** [_apply_routing]: what it leaves, also when it raises *)
Definition apply_routing (ready : string → bool) (desired : dict string) (a : ModelshipAPI)
    : ModelshipAPI * res unit :=
  let present := routed a in
  let '(a, failed) := foldl (register_new ready present) (a, []) desired in
  let stale := filter (λ app, app ∉ Dict.keys desired) present in
  let a := if stale is [] then a else (drop_apps stale a).1 in
  (a, raise_if (negb (bool_decide (failed = []))) (RuntimeError "deployments not yet registerable")).

(** [_apply_snapshot] *)
Definition apply_snapshot (ready : string → bool) (s : Snapshot) (a : ModelshipAPI) : ModelshipAPI * res unit :=
  let a := mkAPI (model_apps a) (model_list a) (s_expected s) (gen a) (routing_seq a) in
  let '(a, r) := apply_routing ready (s_models s) a in
  (match r with
   | Ok _ => mkAPI (model_apps a) (model_list a) (expected_models a) (s_generation s) (s_routing s)
   | Err _ => a
   end, r).

(** ** Serving from it *)

(** [list_deployments] *)
Definition list_deployments (a : ModelshipAPI) : dict (list string) :=
  (λ mh, (mh.1, Dict.keys mh.2)) <$> model_apps a.

Definition in_expected (model_name : option string) (a : ModelshipAPI) : bool :=
  if model_name is Some m then bool_decide (m ∈ expected_models a) else false.

(** [_get_handle], once the replica watches its table *)
Definition get_handle (model_name : option string) (a : ModelshipAPI) (t : RequestTracker)
    : RequestTracker * res Handle :=
  let missing :=
    if in_expected model_name a
    then (finish "error" (Some "model_not_ready"%string) t, Err (HTTPException 503 "model not ready"))
    else (finish "error" (Some "model_not_found"%string) (mkTracker "" (t_operation t) (t_finished t)),
          Err (HTTPException 404 "model not found")) in
  match model_name with
  | Some m =>
      match Dict.get m (model_apps a) with
      | Some handles =>
          match last handles with
          | Some (_, h) => (t, Ok h)
          | None => (t, Err (OtherError "StopIteration"))
          end
      | None => missing
      end
  | None => missing
  end.

(** [_readyz_body], less the uptime *)
Record Readyz : Type := mkReadyz {
  ready_ : bool;
  models_loaded : list string;
  models_expected : list string;
  models_pending : list string;
}.
Definition readyz_body (a : ModelshipAPI) : Readyz :=
  let expected := expected_models a in
  let pending := filter (λ m, Dict.mem m (model_apps a) = false) expected in
  mkReadyz (negb (bool_decide (expected = [])) && (length pending =? 0)%nat)
    (Sort.strings (Dict.keys (model_apps a))) expected pending.

(** [readyz]'s status *)
Definition readyz_status (a : ModelshipAPI) : Z := if ready_ (readyz_body a) then 200 else 503.

(** [model_info]: the card, by its id *)
Definition model_info (model : string) (a : ModelshipAPI) : res string :=
  match filter (λ c, c = model) (model_list a) with
  | c :: _ => Ok c
  | [] => Err (HTTPException 404 "model not found")
  end.

(** ** Replicas among the coordinator's passes

    Where a replica is: before its first sync, with the first snapshot in hand, between two rounds of
    its watch loop, waiting for its long poll, about to ask for the table, with a snapshot in hand. *)

Inductive phase : Type :=
| Cold
| Syncing (s : Snapshot)
| Watching
| Polling (event : option nat)
| Fetching
| Applying (s : Snapshot).

Record replica : Type := mkRep { rep_gateway : string; rep_phase : phase; rep_api : ModelshipAPI }.

(** The coordinator's history says what it holds. *)
Record cluster : Type := mkCluster { history : list event; reps : gmap string replica }.

Definition empty_cluster : cluster := mkCluster [] ∅.
Definition coordinator (now0 : Z) (c : cluster) : GatewayRouting.t := (run (history c) (init now0)).1.

(** A replica's calls may fail at any await; a sync may find no running loop to start the watch on. *)
Inductive label : Type :=
| CoordinatorPass (apps : dict AppDetails) (answer : option (gmap string Version)) (now : Z)
| AskSwitched (gw : string) (n now : Z)
| Start (id gw : string)
| SyncCall (id : string)
| SyncApply (id : string) (ready : string → bool) (loop : bool)
| SyncFail (id : string) (loop : bool)
| PollCall (id : string) (now : Z)
| PollReturn (id : string)
| FetchRouting (id : string)
| Apply (id : string) (ready : string → bool)
| WatchFail (id : string).

Definition snapshot_of (answer : Routing * Z * option Z) : Snapshot :=
  let '(r, g, n) := answer in mkSnapshot (models r) (expected r) g n.

(** The table the coordinator has for a gateway *)
Definition published (gw : string) (s : GatewayRouting.t) : Snapshot := snapshot_of (get_routing gw s).2.

(** [_watch_loop], with a generation in hand *)
Definition polled (g : Z) (a : ModelshipAPI) : phase := if decide (g = gen a) then Watching else Fetching.

Definition put (id : string) (p : phase) (a : ModelshipAPI) (r : replica) (es : list event) (c : cluster) : cluster :=
  mkCluster (history c ++ es) (<[id := mkRep (rep_gateway r) p a]> (reps c)).

Definition after_sync (loop : bool) : phase := if loop then Watching else Cold.

(** A replica's own step *)
Definition replica_step (now0 : Z) (c : cluster) (l : label) (id : string) (r : replica) : cluster :=
  let a := rep_api r in let gw := rep_gateway r in let s := coordinator now0 c in
  match l, rep_phase r with
  | SyncCall _, Cold =>
      if computed s then put id (Syncing (published gw s)) a r [GetRouting gw] c else c
  | SyncApply _ ready loop, Syncing snapshot => put id (after_sync loop) (apply_snapshot ready snapshot a).1 r [] c
  | SyncFail _ loop, Cold | SyncFail _ loop, Syncing _ => put id (after_sync loop) a r [] c
  | PollCall _ now, Watching =>
      let holder := (λ seq, (id, seq)) <$> routing_seq a in
      let p := match (wait_for_change gw (gen a) holder now s).2 with
               | Returns g => polled g a
               | WaitsFor e => Polling e
               end in
      put id p a r [Poll gw (gen a) holder now] c
  | PollReturn _, Polling None => put id Watching a r [] c
  | PollReturn _, Polling (Some _) => put id (polled (current_generation gw s) a) a r [] c
  | FetchRouting _, Fetching =>
      if computed s then put id (Applying (published gw s)) a r [GetRouting gw] c else c
  | Apply _ ready, Applying snapshot => put id Watching (apply_snapshot ready snapshot a).1 r [] c
  | WatchFail _, Polling _ | WatchFail _, Fetching | WatchFail _, Applying _ => put id Watching a r [] c
  | _, _ => c
  end.

Definition cluster_step (now0 : Z) (c : cluster) (l : label) : cluster :=
  match l with
  | CoordinatorPass apps answer now => mkCluster (history c ++ [Pass apps answer now]) (reps c)
  | AskSwitched gw n now => mkCluster (history c ++ [Switched gw n now]) (reps c)
  | Start id gw =>
      if reps c !! id is Some _ then c else mkCluster (history c) (<[id := mkRep gw Cold new_api]> (reps c))
  | SyncCall id | SyncApply id _ _ | SyncFail id _ | PollCall id _ | PollReturn id | FetchRouting id | Apply id _
  | WatchFail id => if reps c !! id is Some r then replica_step now0 c l id r else c
  end.

Definition cluster_run (now0 : Z) (ls : list label) : cluster := foldl (cluster_step now0) empty_cluster ls.
