(* ===== verification/GatewayReplicaFacts.v ===== *)
(** * Gateway replicas: the table

    What registering, dropping and applying a snapshot make of a replica's table. *)

From S2P Require Import Prelude StateStore ConfigSchema Diff GatewayRouting GatewayReplica.
Local Open Scope Z_scope.

(** The replica sends requests for [m] to [app], among others. *)
Definition serves (a : ModelshipAPI) (m app : string) : Prop :=
  ∃ hs, Dict.get m (model_apps a) = Some hs ∧ app ∈ Dict.keys hs.

(** A table: one card per model in the models' order, every model with an application, a handle under its
    application's name, and every application under one model. *)
Record tables_ok (a : ModelshipAPI) : Prop := {
  tb_keys : NoDup (Dict.keys (model_apps a));
  tb_cards : model_list a = Dict.keys (model_apps a);
  tb_handles m hs : Dict.get m (model_apps a) = Some hs →
    hs ≠ [] ∧ NoDup (Dict.keys hs) ∧ ∀ app h, (app, h) ∈ hs → h = mkHandle app;
  tb_one m m' app : serves a m app → serves a m' app → m = m';
}.

Lemma new_api_ok : tables_ok new_api.
Proof. split; [constructor|done|done|]. by intros m m' app (hs & ? & _). Qed.

Lemma tables_ok_core a a' :
  model_apps a' = model_apps a → model_list a' = model_list a → tables_ok a → tables_ok a'.
Proof. intros E1 E2 [H1 H2 H3 H4]. split; unfold serves in *; rewrite ?E1, ?E2; done. Qed.

Lemma elem_of_routed a app : tables_ok a → app ∈ routed a ↔ ∃ m, serves a m app.
Proof.
  intros T. unfold routed, serves. rewrite list_elem_of_bind. split.
  - intros ([m hs] & Hin & Hm). exists m, hs. split; [|done]. apply Dict.elem_get; [apply T|done].
  - intros (m & hs & Hg & Hin). exists (m, hs). split; [done|]. by apply Dict.get_Some_elem.
Qed.

Lemma mem_keys {V} k (d : dict V) : Dict.mem k d = true ↔ k ∈ Dict.keys d.
Proof. unfold Dict.mem. rewrite <-Dict.get_is_Some. destruct (Dict.get k d); naive_solver. Qed.

Lemma model_of_Some a app m : tables_ok a → model_of app (model_apps a) = Some m ↔ serves a m app.
Proof.
  intros T. assert (∀ m', model_of app (model_apps a) = Some m' → serves a m' app) as H1.
  { intros m'. unfold model_of. destruct (filter _ _) as [|[x hs] l] eqn:E; [done|]. intros [= <-].
    assert ((x, hs) ∈ filter (λ mh, Dict.mem app mh.2 = true) (model_apps a)) as [Hm Hin]%list_elem_of_filter
      by (rewrite E; constructor).
    exists hs. split; [apply Dict.elem_get; [apply T|done]|by apply mem_keys]. }
  split; [apply H1|]. intros Hs. pose proof Hs as (hs & Hg & Hin). destruct (model_of app (model_apps a)) as [m'|] eqn:E.
  - f_equal. apply (tb_one a T _ _ app); auto.
  - unfold model_of in E. destruct (filter _ _) eqn:F; [|done]. exfalso.
    assert ((m, hs) ∈ filter (λ mh, Dict.mem app mh.2 = true) (model_apps a)) as Hc.
    { apply list_elem_of_filter. split; [by apply mem_keys|by apply Dict.get_Some_elem]. }
    rewrite F in Hc. by apply elem_of_nil in Hc.
Qed.

(** ** One application *)

Lemma register_spec (ready : string → bool) app m a :
  tables_ok a → app ∉ routed a →
  if ready app
  then ∃ a', register_deployment ready app m a = Ok a' ∧ tables_ok a' ∧
         expected_models a' = expected_models a ∧ gen a' = gen a ∧ routing_seq a' = routing_seq a ∧
         ∀ m' app', serves a' m' app' ↔ serves a m' app' ∨ (m' = m ∧ app' = app)
  else ∃ e, register_deployment ready app m a = Err e.
Proof.
  intros T Hn. unfold register_deployment. destruct (ready app); [|by eexists]. cbn.
  eexists. split; [done|].
  set (a1 := if Dict.mem m (model_apps a) then a else _).
  assert (∀ m', m' ≠ m → Dict.get m' (model_apps a1) = Dict.get m' (model_apps a)) as Hne.
  { intros m' H. unfold a1. destruct (Dict.mem _ _); [done|]. cbn. by apply Dict.get_set_ne. }
  assert (Dict.get m (model_apps a1) = Some (default [] (Dict.get m (model_apps a)))) as Heq.
  { unfold a1, Dict.mem. destruct (Dict.get m (model_apps a)) eqn:E; [done|]. cbn. apply Dict.get_set_eq. }
  assert (expected_models a1 = expected_models a ∧ gen a1 = gen a ∧ routing_seq a1 = routing_seq a) as Hfields.
  { unfold a1. by destruct (Dict.mem _ _). }
  assert (NoDup (Dict.keys (model_apps a1)) ∧ model_list a1 = Dict.keys (model_apps a1)) as [Hnd Hcards].
  { unfold a1. destruct (Dict.mem m (model_apps a)) eqn:E; [split; apply T|]. cbn.
    split; [apply Dict.NoDup_keys_set, T|]. rewrite Dict.keys_set_new by (rewrite <-mem_keys; congruence).
    unfold Dict.keys. rewrite fmap_app. cbn. f_equal. apply T. }
  assert (app ∉ Dict.keys (default [] (Dict.get m (model_apps a)))) as Happ.
  { intros Hin. apply Hn, elem_of_routed; [done|]. exists m. unfold serves.
    destruct (Dict.get m (model_apps a)) as [hs|]; [by exists hs|]. by apply elem_of_nil in Hin. }
  rewrite Heq. cbn. set (a' := with_tables _ _ _).
  assert (∀ m' app', serves a' m' app' ↔ serves a m' app' ∨ (m' = m ∧ app' = app)) as Hs.
  { intros m' app'. unfold serves, a'. cbn. rewrite Dict.get_set. destruct (decide (m' = m)) as [->|H].
    - split.
      + intros (hs & [= <-] & [->|Hin]%Dict.elem_keys_set); [by right|left].
        destruct (Dict.get m (model_apps a)) as [hs|]; [by exists hs|]. by apply elem_of_nil in Hin.
      + intros [(hs & -> & Hin)|[_ ->]]; eexists; (split; [done|]); apply Dict.elem_keys_set; auto.
    - rewrite Hne by done. split; [auto|]. by intros [?|[? _]]. }
  split; [|split_and!; [apply Hfields..|done]]. split; [unfold a'; by apply Dict.NoDup_keys_set| | |].
  - etrans; [exact Hcards|]. symmetry. apply Dict.keys_set_old, Dict.get_is_Some. eauto.
  - intros m' hs. unfold a'. cbn. rewrite Dict.get_set. destruct (decide (m' = m)) as [->|H]; [intros [= <-]|].
    + assert (NoDup (Dict.keys (default [] (Dict.get m (model_apps a)))) ∧
        ∀ app0 h, (app0, h) ∈ default [] (Dict.get m (model_apps a)) → h = mkHandle app0) as [H1 H2].
      { destruct (Dict.get m (model_apps a)) as [hs|] eqn:E; [apply (tb_handles a T) in E as (_ & ? & ?); done|].
        split; [constructor|]. by intros ? ? ?%elem_of_nil. }
      rewrite Dict.keys_set_new by done. split; [by destruct (default _ _)|].
      split; [unfold Dict.keys; rewrite fmap_app; apply NoDup_app; cbn; split; [done|]; split;
        [set_solver|apply NoDup_singleton]|].
      intros app0 h [Hin|[= -> ->]%list_elem_of_singleton]%elem_of_app; auto.
    + rewrite Hne by done. apply T.
  - intros m1 m2 app0. rewrite !Hs. intros [H1|[-> ->]] [H2|[-> E]]; [by eapply tb_one| | |done].
    + destruct Hn. apply elem_of_routed; [done|]. rewrite <-E. eauto.
    + destruct Hn. apply elem_of_routed; eauto.
Qed.

Lemma drop_spec a app l :
  tables_ok a →
  let a' := (drop_app (a, l) app).1 in
  tables_ok a' ∧ expected_models a' = expected_models a ∧ gen a' = gen a ∧ routing_seq a' = routing_seq a ∧
  ∀ m app', serves a' m app' ↔ serves a m app' ∧ app' ≠ app.
Proof.
  intros T. unfold drop_app. destruct (model_of app (model_apps a)) as [m|] eqn:E; cycle 1.
  { cbn. split_and!; [done..|]. intros m app'. split; [|tauto]. intros H. split; [done|]. intros ->.
    apply model_of_Some in H; [congruence|done]. }
  apply model_of_Some in E as (hs & Hg & Hin); [|done]. rewrite Hg. change (default [] (Some hs)) with hs. cbv zeta.
  destruct (tb_handles a T m hs Hg) as (_ & Hnd & Hh).
  assert (∀ m' app', m' ≠ m → serves a m' app' → app' ≠ app) as Hother.
  { intros m' app' Hne H ->. apply Hne, (tb_one a T _ _ app); [done|]. by exists hs. }
  destruct (Dict.pop app hs) as [|x handles] eqn:Ep; cbn.
  - split_and!; [|done..|].
    + split; cbn.
      * apply Dict.NoDup_keys_pop, T.
      * rewrite (tb_cards a T). symmetry. apply Dict.keys_pop.
      * intros m' hs'. rewrite Dict.get_pop. case_decide; [done|]. apply T.
      * intros m1 m2 app0 (h1 & H1 & I1) (h2 & H2 & I2). cbn in *. rewrite Dict.get_pop in H1, H2.
        repeat case_decide; try done. apply (tb_one a T _ _ app0); [by exists h1|by exists h2].
    + intros m' app'. unfold serves at 1. cbn. rewrite Dict.get_pop. destruct (decide (m' = m)) as [->|Hne].
      * split; [by intros (? & ? & _)|]. intros [(hs' & Hg' & Hin') Hd]. exfalso. simplify_eq.
        assert (app' ∈ Dict.keys (Dict.pop app hs)) as Hp by (by apply Dict.elem_keys_pop). rewrite Ep in Hp. by apply elem_of_nil in Hp.
      * split; [|by intros [? _]]. intros H. split; [done|]. by apply (Hother m').
  - split_and!; [|done..|].
    + split; cbn.
      * apply Dict.NoDup_keys_set, T.
      * etrans; [apply (tb_cards a T)|]. symmetry. apply Dict.keys_set_old, Dict.get_is_Some. eauto.
      * intros m' hs'. rewrite Dict.get_set. case_decide; [|apply T]. intros [= <-]. split; [done|].
        rewrite <-Ep. split; [by apply Dict.NoDup_keys_pop|]. intros app0 h. unfold Dict.pop.
        intros [_ ?]%list_elem_of_filter. auto.
      * assert (∀ m0 app0 h0, Dict.get m0 (Dict.set m (x :: handles) (model_apps a)) = Some h0 →
          app0 ∈ Dict.keys h0 → serves a m0 app0) as Hs.
        { intros m0 app0 h0. rewrite Dict.get_set. case_decide as Em; [subst m0|by exists h0].
          intros [= <-]. rewrite <-Ep. intros [_ ?]%Dict.elem_keys_pop. by exists hs. }
        intros m1 m2 app0 (h1 & H1 & I1) (h2 & H2 & I2). apply (tb_one a T _ _ app0); [by eapply Hs|by eapply Hs].
    + intros m' app'. unfold serves at 1. cbn. rewrite Dict.get_set. destruct (decide (m' = m)) as [->|Hne].
      * rewrite <-Ep. split.
        -- intros (? & [= <-] & [? ?]%Dict.elem_keys_pop). split; [by exists hs|done].
        -- intros [(hs' & ? & ?) ?]. simplify_eq. eexists. split; [done|]. by apply Dict.elem_keys_pop.
      * split; [|by intros [? _]]. intros H. split; [done|]. by apply (Hother m').
Qed.

(** ** Many applications *)

(** What registering and dropping leave alone *)
Definition same_rest (a a' : ModelshipAPI) : Prop :=
  expected_models a' = expected_models a ∧ gen a' = gen a ∧ routing_seq a' = routing_seq a.

#[export] Instance same_rest_preorder : PreOrder same_rest.
Proof. split; [done|]. intros a b c (?&?&?) (?&?&?). split_and!; congruence. Qed.

Lemma drop_apps_spec l a :
  tables_ok a →
  let a' := (drop_apps l a).1 in
  tables_ok a' ∧ same_rest a a' ∧ ∀ m app, serves a' m app ↔ serves a m app ∧ app ∉ l.
Proof.
  unfold drop_apps. generalize (@nil string). revert a. induction l as [|x l IH]; intros a removed T.
  - cbn. split_and!; [done..|]. intros. rewrite elem_of_nil. tauto.
  - cbn [foldl]. pose proof (drop_spec a x removed T) as (T1 & E1 & E2 & E3 & Hs).
    destruct (drop_app (a, removed) x) as [a1 r1]. cbn [fst] in *.
    destruct (IH a1 r1 T1) as (T2 & R2 & Hs2). split; [done|]. split.
    + by transitivity a1.
    + intros m app. rewrite Hs2, Hs, not_elem_of_cons. tauto.
Qed.

Lemma register_new_spec (ready : string → bool) present desired a failed :
  tables_ok a → NoDup (Dict.keys desired) →
  (∀ app, app ∈ Dict.keys desired → app ∈ present ∨ app ∉ routed a) →
  let af := foldl (register_new ready present) (a, failed) desired in
  tables_ok af.1 ∧ same_rest a af.1 ∧
  (∀ m app, serves af.1 m app ↔
     serves a m app ∨ ((app, m) ∈ desired ∧ app ∉ present ∧ ready app = true)) ∧
  af.2 = failed ++ filter (λ app, app ∉ present ∧ ready app = false) (Dict.keys desired).
Proof.
  revert a failed. induction desired as [|[x mx] desired IH]; intros a failed T Hnd Hp.
  { cbn. split_and!; [done..| |by rewrite app_nil_r]. intros. rewrite elem_of_nil. tauto. }
  apply NoDup_cons in Hnd as [Hx Hnd]. cbn [foldl]. cbv zeta.
  change (Dict.keys ((x, mx) :: desired)) with (x :: Dict.keys desired). rewrite (filter_cons _ x).
  set (af := register_new _ _ _ _). unfold register_new in af. cbn [fst snd] in af. subst af. destruct (bool_decide_reflect (x ∈ present)) as [Hin|Hout].
  - destruct (IH a failed T Hnd) as (T1 & R1 & Hs & Hf); [intros; apply Hp; by constructor|].
    rewrite decide_False by tauto. split_and!; [done..| |done].
    intros m app. rewrite Hs, elem_of_cons. naive_solver.
  - destruct (Hp x) as [|Hr]; [constructor|done|].
    pose proof (register_spec ready x mx a T Hr) as Hreg. destruct (ready x) eqn:Er.
    + destruct Hreg as (a1 & -> & T1 & E1 & E2 & E3 & Hs1).
      destruct (IH a1 failed T1 Hnd) as (T2 & R2 & Hs & Hf).
      { intros app Happ. destruct (Hp app) as [|Hn]; [by constructor|by left|right].
        rewrite elem_of_routed in Hn |- * by done. intros [m [?|[_ ->]]%Hs1]; [by apply Hn; exists m|done]. }
      rewrite decide_False by naive_solver. split_and!; [done|by transitivity a1| |done].
      intros m app. rewrite Hs, Hs1, elem_of_cons. split.
      * intros [[?|[-> ->]]|(?&?&?)]; [by left|right; auto..].
      * intros [?|([[= -> ->]|?]&?&?)]; auto.
    + destruct Hreg as [e ->]. destruct (IH a (failed ++ [x]) T Hnd) as (T1 & R1 & Hs & Hf).
      { intros app Happ. apply Hp. by constructor. }
      rewrite decide_True by done. split_and!; [done..| |by rewrite Hf, <-app_assoc].
      intros m app. rewrite Hs, elem_of_cons. split; [intros [?|(?&?&?)]; auto|].
      intros [?|([[= -> ->]|?]&?&?)]; [auto|congruence|auto].
Qed.

(** Applying a table leaves exactly its applications, old ones under their old model, less those that do
    not resolve yet: and it raises for those. *)
Lemma apply_routing_spec (ready : string → bool) desired a :
  tables_ok a → NoDup (Dict.keys desired) →
  let ar := apply_routing ready desired a in
  tables_ok ar.1 ∧ same_rest a ar.1 ∧
  (∀ m app, serves ar.1 m app ↔
     (serves a m app ∧ app ∈ Dict.keys desired) ∨
     (Dict.get app desired = Some m ∧ (∀ m', ¬ serves a m' app) ∧ ready app = true)) ∧
  (ar.2 = Ok tt ↔ ∀ app, app ∈ Dict.keys desired → (∃ m, serves a m app) ∨ ready app = true).
Proof.
  intros T Hnd. unfold apply_routing.
  destruct (register_new_spec ready (routed a) desired a [] T Hnd) as (T1 & R1 & Hs & Hf).
  { intros app _. destruct (decide (app ∈ routed a)); auto. }
  destruct (foldl _ _ _) as [a1 failed] eqn:E1. cbn [fst snd] in *. clear E1.
  set (stale := filter (λ app, app ∉ Dict.keys desired) (routed a)).
  set (a2 := if stale is [] then a1 else _).
  assert (tables_ok a2 ∧ same_rest a1 a2 ∧ ∀ m app, serves a2 m app ↔ serves a1 m app ∧ app ∉ stale) as (T2 & R2 & Hs2).
  { unfold a2. pose proof (drop_apps_spec stale a1 T1) as H. destruct stale; [|exact H].
    split_and!; [done..|]. intros. rewrite elem_of_nil. tauto. }
  cbn [fst snd]. split; [done|]. split; [by transitivity a1|]. split.
  - intros m app. rewrite Hs2, Hs. unfold stale. rewrite list_elem_of_filter, !elem_of_routed by done.
    rewrite (Dict.elem_get_iff app m desired Hnd).
    pose proof (Dict.get_is_Some app desired) as Hk. split.
    + intros [[H|(H1 & H2 & H3)] Hns]; [left|right; naive_solver]. split; [done|].
      destruct (decide (app ∈ Dict.keys desired)); [done|]. destruct Hns. eauto.
    + intros [[H1 H2]|(H1 & H2 & H3)]; [split; [by left|]; by intros [? _]|].
      split; [right|]; naive_solver.
  - rewrite Hf. cbn [app]. unfold raise_if. case_bool_decide as En; cbn.
    + split; [intros _ app Happ|done]. destruct (ready app) eqn:Er; [by right|left].
      apply elem_of_routed; [done|]. destruct (decide (app ∈ routed a)); [done|].
      assert (app ∈ filter (λ app, app ∉ routed a ∧ ready app = false) (Dict.keys desired)) as Hc
        by by apply list_elem_of_filter.
      rewrite En in Hc. by apply elem_of_nil in Hc.
    + split; [done|]. intros H. destruct En. apply elem_of_nil_inv. intros app [[H1 H2] H3]%list_elem_of_filter.
      rewrite elem_of_routed in H1 by done. destruct (H app H3) as [?|?]; [done|congruence].
Qed.

(** [_apply_snapshot]: the generation and the routing seq advance only with the whole table. *)
Lemma apply_snapshot_spec (ready : string → bool) s a :
  tables_ok a → NoDup (Dict.keys (s_models s)) →
  let ar := apply_snapshot ready s a in
  tables_ok ar.1 ∧ expected_models ar.1 = s_expected s ∧
  (∀ m app, serves ar.1 m app ↔
     (serves a m app ∧ app ∈ Dict.keys (s_models s)) ∨
     (Dict.get app (s_models s) = Some m ∧ (∀ m', ¬ serves a m' app) ∧ ready app = true)) ∧
  ((ar.2 = Ok tt ∧ gen ar.1 = s_generation s ∧ routing_seq ar.1 = s_routing s ∧
      ∀ app, app ∈ Dict.keys (s_models s) → ∃ m, serves ar.1 m app) ∨
   (ar.2 ≠ Ok tt ∧ gen ar.1 = gen a ∧ routing_seq ar.1 = routing_seq a ∧
      ∃ app, app ∈ Dict.keys (s_models s) ∧ ∀ m, ¬ serves a m app)).
Proof.
  intros T Hnd. unfold apply_snapshot. set (a0 := mkAPI _ _ _ _ _).
  destruct (apply_routing_spec ready (s_models s) a0) as (T1 & (E1 & E2 & E3) & Hs & Hr).
  { by apply (tables_ok_core a). }
  { done. }
  assert (∀ m app, serves a0 m app ↔ serves a m app) as H0 by done. setoid_rewrite H0 in Hs. setoid_rewrite H0 in Hr.
  destruct (apply_routing ready (s_models s) a0) as [a1 r]. cbn [fst snd] in *.
  destruct r as [[]|e]; cbn [fst snd].
  - split; [by apply (tables_ok_core a1)|]. split; [done|]. split; [exact Hs|]. left. split_and!; [done..|].
    intros app Happ. destruct (proj1 Hr eq_refl app Happ) as [[m Hm]|Hready].
    + exists m. apply Hs. by left.
    + destruct (model_of app (model_apps a)) as [m|] eqn:E.
      * apply model_of_Some in E; [|done]. exists m. apply Hs. by left.
      * pose proof Happ as [m Hm]%Dict.get_is_Some. exists m. apply Hs. right. split_and!; [done| |done].
        intros m' H%model_of_Some; [congruence|done].
  - split; [done|]. split; [done|]. split; [done|]. right. split_and!; [done..|].
    destruct (decide (Exists (λ app, model_of app (model_apps a) = None) (Dict.keys (s_models s)))) as [Hx|Hx].
    + apply Exists_exists in Hx as (app & Happ & E). exists app. split; [done|].
      intros m H%model_of_Some; [congruence|done].
    + assert (Err e = Ok tt) as Hc; [|done]. apply Hr. intros app Happ. left.
      destruct (model_of app (model_apps a)) as [m|] eqn:E; [exists m; by apply model_of_Some in E|].
      destruct Hx. apply Exists_exists. eauto.
Qed.

(** ** Requests *)

(** An application of a model, when it has one, is the handle's. *)
Lemma get_handle_spec a model t :
  tables_ok a →
  match (get_handle model a t).2 with
  | Ok h => ∃ m, model = Some m ∧ serves a m (h_app h) ∧ (get_handle model a t).1 = t
  | Err e => (∀ m app, model = Some m → ¬ serves a m app) ∧
      if in_expected model a then e = HTTPException 503 "model not ready" else e = HTTPException 404 "model not found"
  end.
Proof.
  intros T. unfold get_handle.
  destruct model as [m|]; [|by split].
  destruct (Dict.get m (model_apps a)) as [hs|] eqn:Hg; cycle 1.
  { destruct (in_expected (Some m) a); cbn; (split; [|done]); intros ? app [= <-] (hs & ? & _); congruence. }
  destruct (tb_handles a T m hs Hg) as (Hne & Hnd & Hh). destruct (last hs) as [[app h]|] eqn:El; cycle 1.
  { by apply last_None in El. }
  cbn. exists m. split; [done|]. split; [|done].
  assert ((app, h) ∈ hs) as Hin by (apply last_Some in El as [l ->]; apply elem_of_app; right; constructor).
  rewrite (Hh _ _ Hin). exists hs. split; [done|]. apply list_elem_of_fmap. by exists (app, h).
Qed.
