(* ===== verification/GatewayReplicaTheorems.v ===== *)
(** * Gateway replicas: what a gateway serves

    The replicas of a gateway among the coordinator's passes: a gateway that is reported switched serves
    the switched version's applications only, and a replica that holds the current generation answers by
    the published table. *)

From S2P Require Import Prelude StateStore ConfigSchema Diff GatewayRouting GatewayReplica GatewayReplicaFacts.
Local Open Scope Z_scope.

Module CoordinatorFacts.
Import RoutingFacts.

(** ** The coordinator's steps *)

(** The tables of a gateway change with its generation. *)
Definition same_table (gw : string) (s s' : GatewayRouting.t) : Prop :=
  routing s' !! gw = routing s !! gw ∧ seqs s' !! gw = seqs s !! gw.

#[export] Instance same_table_preorder gw : PreOrder (same_table gw).
Proof. split; [done|]. intros a b c [??] [??]. split; congruence. Qed.

Lemma gateway_tables apps running now s x gw :
  current_generation gw s ≤ current_generation gw (compute_gateway apps running now s x) ∧
  (current_generation gw (compute_gateway apps running now s x) = current_generation gw s →
     same_table gw s (compute_gateway apps running now s x)).
Proof.
  unfold compute_gateway. destruct (versions s !! x) as [v|]; [|by split].
  destruct (compute_routing x (v_apps v) apps) as [r|]; [|by split].
  set (s1 := mk (routing s) _ _ _ _ _ _ _ _ _ _ _).
  change (current_generation gw s) with (current_generation gw s1).
  change (same_table gw s ?s') with (same_table gw s1 s').
  rewrite (current_core _ _ gw (fresh_reports_core x now (publish x r (v_seq v) s1))).
  change (same_table gw s1 (fresh_reports x now ?s').1) with (same_table gw s1 s').
  rewrite (current_core _ _ gw (publish_core x r (v_seq v) s1)).
  pose proof (publish_tables x r (v_seq v) s1 gw) as (Hr & Hq & _).
  destruct (bool_decide (routing s1 !! x ≠ Some r)) eqn:E1; cbn [orb];
    [|destruct (bool_decide (seqs s1 !! x ≠ Some (v_seq v))) eqn:E2].
  1,2: rewrite current_bump; destruct (decide (gw = x)) as [E|E]; [subst x; split; lia|by split].
  apply bool_decide_eq_false, dec_stable in E1. apply bool_decide_eq_false, dec_stable in E2.
  split; [done|]. intros _. split; [rewrite Hr|rewrite Hq]; by case_decide; subst.
Qed.

Lemma fold_tables apps running now gws s gw :
  let s' := foldl (compute_gateway apps running now) s gws in
  current_generation gw s ≤ current_generation gw s' ∧
  (current_generation gw s' = current_generation gw s → same_table gw s s').
Proof.
  revert s. induction gws as [|x gws IH]; intros s; cbn [foldl]; [by split|].
  destruct (gateway_tables apps running now s x gw) as [H1 H2]. destruct (IH (compute_gateway apps running now s x)) as [H3 H4].
  cbv zeta. split; [lia|]. intros E. transitivity (compute_gateway apps running now s x); [apply H2|apply H4]; lia.
Qed.

Lemma step_tables s ws e gw :
  let s' := (step (s, ws) e).1 in
  current_generation gw s ≤ current_generation gw s' ∧
  (current_generation gw s' = current_generation gw s → same_table gw s s').
Proof.
  destruct e as [apps answer now|gw0|gw0 since holder now|gw0 n now]; cbn.
  - unfold compute. set (s1 := match elements _ with [] => _ | _ => _ end).
    assert (current_generation gw s = current_generation gw s1 ∧ same_table gw s s1) as [E Et].
    { unfold s1. destruct (elements _); [done|]. by destruct answer. }
    rewrite E. set (rn := _ <$> apps). destruct (fold_tables (overviews apps) rn now (elements (pass_gateways apps s)) s1 gw) as [H1 H2].
    cbv zeta in H1, H2. split; [exact H1|]. intros H. transitivity s1; [done|]. by apply H2.
  - done.
  - unfold wait_for_change. set (s1 := match holder with Some _ => _ | None => _ end).
    assert (current_generation gw s = current_generation gw s1 ∧ same_table gw s s1) as [E Et]
      by (unfold s1; by destruct holder as [[]|]).
    rewrite E. destruct (computed s1); [|done]. case_decide; [done|]. by destruct (change s1 !! gw0).
  - unfold is_switched. by destruct (_ || _).
Qed.

(** ** What a published table is *)

Lemma table_apps gw targets apps rt app :
  compute_routing gw targets apps = Some rt →
  NoDup (Dict.keys (models rt)) ∧
  ∀ m, (app, m) ∈ models rt → (m, app) ∈ targets.
Proof.
  unfold compute_routing. destruct (Dict.get gw apps); [|done]. intros [= <-]. cbn.
  split; [apply Dict.NoDup_keys_of_list|]. intros m Hin%Dict.elem_of_list_sub. by apply table_elem in Hin as [? _].
Qed.

(** A gateway has a table exactly when it has a routing seq. *)
Definition paired (s : GatewayRouting.t) : Prop := ∀ gw, seqs s !! gw = None → routing s !! gw = None.

Lemma paired_gateway apps running now s gw : paired s → paired (compute_gateway apps running now s gw).
Proof.
  intros H x. unfold compute_gateway. destruct (versions s !! gw) as [v|]; [|apply H].
  destruct (compute_routing _ _ _) as [r|]; [|apply H].
  change (seqs (fresh_reports gw now ?s').1) with (seqs s'). change (routing (fresh_reports gw now ?s').1) with (routing s').
  set (s1 := mk (routing s) _ _ _ _ _ _ _ _ _ _ _).
  destruct (publish_tables gw r (v_seq v) s1 x) as (-> & -> & _). case_decide; [done|apply H].
Qed.

Lemma paired_step s ws e : paired s → paired (step (s, ws) e).1.
Proof.
  intros H. destruct e as [apps answer now|gw|gw since holder now|gw n now]; cbn.
  - unfold compute. set (s1 := match elements _ with [] => _ | _ => _ end).
    assert (paired s1) as H1 by (unfold s1; destruct (elements _); [done|]; by destruct answer).
    set (rn := _ <$> apps). clearbody rn s1. unfold paired. cbn [seqs routing].
    generalize (elements (pass_gateways apps s)). intros gws.
    assert (paired (foldl (compute_gateway (overviews apps) rn now) s1 gws)) as Hf; [|exact Hf].
    revert s1 H1. induction gws as [|x gws IH]; intros s1 H1; [done|]. by apply IH, paired_gateway.
  - done.
  - unfold wait_for_change. set (s1 := match holder with Some _ => _ | None => _ end).
    assert (paired s1) as H1 by (unfold s1; by destruct holder as [[]|]). clearbody s1.
    destruct (computed s1); [|done]. case_decide; [done|]. by destruct (change s1 !! gw).
  - unfold is_switched. by destruct (_ || _).
Qed.

Lemma run_snoc es e now0 : (run (es ++ [e]) (init now0)).1 = (step (run es (init now0)) e).1.
Proof. unfold run. by rewrite foldl_app. Qed.

Lemma run_paired es now0 : paired (run es (init now0)).1.
Proof.
  induction es as [|e es IH] using rev_ind; [intros gw; cbn; by rewrite !lookup_empty|].
  rewrite run_snoc. destruct (run es (init now0)). by apply paired_step.
Qed.

(** An application of version [m] of a gateway, as the deploy coordinator answered it *)
Definition of_version (gw : string) (es : list event) (m : Z) (app : string) : Prop :=
  ∃ v, answered gw v es ∧ v_seq v = m ∧ app ∈ Dict.values (v_apps v).

Lemma of_version_app gw es es' m app : of_version gw es m app → of_version gw (es ++ es') m app.
Proof.
  intros (v & (a & vs & now & Hin & Hv) & H). exists v. split; [|done]. exists a, vs, now. rewrite elem_of_app. auto.
Qed.

(** The snapshot the coordinator would give now: its applications are those of the version it names. *)
Lemma published_spec es now0 gw :
  let p := published gw (run es (init now0)).1 in
  NoDup (Dict.keys (s_models p)) ∧
  s_generation p = current_generation gw (run es (init now0)).1 ∧
  s_routing p = seqs (run es (init now0)).1 !! gw ∧
  match s_routing p with
  | Some n => ∃ v, answered gw v es ∧ v_seq v = n ∧ ∀ app m, (app, m) ∈ s_models p → (m, app) ∈ v_apps v
  | None => s_models p = []
  end.
Proof.
  set (s := (run es (init now0)).1). cbn. destruct (seqs s !! gw) as [n|] eqn:Hq.
  - destruct (ex_table _ _ (run_explained es now0) gw n Hq) as (v & rt & apps & answer & now & Hv & Ha & _ & Hr & Hc).
    fold s in Hr. rewrite Hr. cbn.
    split; [apply (table_apps _ _ _ _ ""%string Hc)|]. split_and!; [done..|]. exists v. split_and!; [done..|].
    intros app m Hin. by apply (table_apps _ _ _ _ app Hc).
  - rewrite (run_paired es now0 gw Hq : routing s !! gw = None). cbn. split_and!; [constructor|done..].
Qed.

(** ** Routing numbers grow *)

(** Each answer of the deploy coordinator names at least the version held. *)
Definition grows (gw : string) (now0 : Z) (es : list event) : Prop :=
  ∀ es1 apps vs now es2 v v0, es = es1 ++ Pass apps (Some vs) now :: es2 →
    vs !! gw = Some v → versions (run es1 (init now0)).1 !! gw = Some v0 → v_seq v0 ≤ v_seq v.

Lemma grows_prefix gw now0 es es' : grows gw now0 (es ++ es') → grows gw now0 es.
Proof.
  intros H es1 apps vs now es2 v v0 ->. apply (H es1 apps vs now (es2 ++ es')).
  by rewrite <-app_assoc, <-app_comm_cons.
Qed.

Definition reaches (s : GatewayRouting.t) (gw : string) (m : Z) : Prop := ∃ q, seqs s !! gw = Some q ∧ m ≤ q.

(** The version held is at least the table's. *)
Definition up_to (gw : string) (s : GatewayRouting.t) : Prop :=
  ∀ n, seqs s !! gw = Some n → ∃ v, versions s !! gw = Some v ∧ n ≤ v_seq v.

Lemma up_to_gateway apps running now s x gw :
  up_to gw s → let s' := compute_gateway apps running now s x in
  up_to gw s' ∧ ∀ m, reaches s gw m → reaches s' gw m.
Proof.
  intros H. unfold compute_gateway. destruct (versions s !! x) as [v|] eqn:Hv; [|done].
  destruct (compute_routing _ _ _) as [r|]; [|done].
  set (s1 := mk (routing s) _ _ _ _ _ _ _ _ _ _ _).
  change (up_to gw (fresh_reports x now ?s').1) with (up_to gw s'). cbv zeta.
  change (reaches (fresh_reports x now ?s').1) with (reaches s').
  destruct (publish_tables x r (v_seq v) s1 gw) as (_ & Hq & _ & Hvs). unfold up_to, reaches. rewrite Hq, Hvs.
  change (versions s1) with (versions s). change (seqs s1) with (seqs s). case_decide as E; [subst x|by split; [apply H|]].
  split; [intros n [= <-]; by exists v|]. intros m (q & Hq0 & Hm). destruct (H q Hq0) as (v' & Hv' & Hl).
  exists (v_seq v). split; [done|]. assert (v' = v) as -> by congruence. lia.
Qed.

Lemma up_to_step s ws e gw :
  (∀ apps vs now v v0, e = Pass apps (Some vs) now → vs !! gw = Some v → versions s !! gw = Some v0 → v_seq v0 ≤ v_seq v) →
  up_to gw s → let s' := (step (s, ws) e).1 in up_to gw s' ∧ ∀ m, reaches s gw m → reaches s' gw m.
Proof.
  intros Hg H. destruct e as [apps answer now|gw0|gw0 since holder now|gw0 n now]; cbn.
  - unfold compute. set (s1 := match elements _ with [] => _ | _ => _ end).
    assert (up_to gw s1 ∧ ∀ m, reaches s gw m → reaches s1 gw m) as [H1 R1].
    { unfold s1. destruct (elements _); [done|]. destruct answer as [vs|]; [|done]. split; [|done].
      intros n Hn. destruct (H n Hn) as (v0 & Hv0 & Hl). cbn. destruct (vs !! gw) as [v|] eqn:Hv.
      - exists v. split; [by apply lookup_union_Some_l|]. specialize (Hg apps vs now v v0 eq_refl Hv Hv0). lia.
      - exists v0. by rewrite lookup_union_r. }
    set (rn := _ <$> apps). clearbody rn. generalize (elements (pass_gateways apps s)). intros gws. clearbody s1.
    assert (let s' := foldl (compute_gateway (overviews apps) rn now) s1 gws in
            up_to gw s' ∧ ∀ m, reaches s gw m → reaches s' gw m) as Hf; [|exact Hf].
    revert s1 H1 R1. induction gws as [|x gws IH]; intros s1 H1 R1; [done|].
    destruct (up_to_gateway (overviews apps) rn now s1 x gw H1) as [H2 R2]. apply IH; auto.
  - done.
  - unfold wait_for_change. set (s1 := match holder with Some _ => _ | None => _ end).
    assert (up_to gw s1 ∧ ∀ m, reaches s gw m → reaches s1 gw m) as [H1 R1] by (unfold s1; by destruct holder as [[]|]).
    clearbody s1. destruct (computed s1); [|done]. case_decide; [done|]. by destruct (change s1 !! gw0).
  - unfold is_switched. by destruct (_ || _).
Qed.

Lemma run_up_to es now0 gw : grows gw now0 es → up_to gw (run es (init now0)).1.
Proof.
  induction es as [|e es IH] using rev_ind; [intros _ n; cbn; by rewrite lookup_empty|].
  intros Hg. rewrite run_snoc. specialize (IH (grows_prefix _ _ _ _ Hg)).
  destruct (run es (init now0)) as [s ws] eqn:E. apply up_to_step; [|done].
  intros apps vs now v v0 -> Hv Hv0. apply (Hg es apps vs now [] v v0); [done..|]. by rewrite E.
Qed.

Lemma run_reaches es e now0 gw m :
  grows gw now0 (es ++ [e]) → reaches (run es (init now0)).1 gw m → reaches (run (es ++ [e]) (init now0)).1 gw m.
Proof.
  intros Hg. pose proof (run_up_to es now0 gw (grows_prefix _ _ _ _ Hg)) as Hu. rewrite run_snoc.
  destruct (run es (init now0)) as [s ws] eqn:E. apply up_to_step; [|done].
  intros apps vs now v v0 -> Hv Hv0. apply (Hg es apps vs now [] v v0); [done..|]. by rewrite E.
Qed.
End CoordinatorFacts.

Module ClusterFacts.
Import RoutingFacts CoordinatorFacts.

(** ** What a step can be *)

Definition in_hand (p : phase) : option Snapshot :=
  match p with Syncing s | Applying s => Some s | _ => None end.

(** A replica's step: nothing but where it is, its poll, a snapshot fetched, a snapshot applied. *)
Inductive move (s : GatewayRouting.t) (id : string) : replica → list event → replica → Prop :=
| move_idle gw p a p' : in_hand p' = None → move s id (mkRep gw p a) [] (mkRep gw p' a)
| move_poll gw p a now p' : in_hand p' = None →
    move s id (mkRep gw p a) [Poll gw (gen a) ((λ seq, (id, seq)) <$> routing_seq a) now] (mkRep gw p' a)
| move_fetch gw p a p' : in_hand p' = Some (published gw s) →
    move s id (mkRep gw p a) [GetRouting gw] (mkRep gw p' a)
| move_apply gw p a snapshot ready p' : in_hand p = Some snapshot → in_hand p' = None →
    move s id (mkRep gw p a) [] (mkRep gw p' (apply_snapshot ready snapshot a).1).

(** A step of the cluster: the coordinator's own, a new replica, or a replica's. *)
Inductive cluster_move (now0 : Z) (c : cluster) : cluster → Prop :=
| cm_same : cluster_move now0 c c
| cm_coordinator e : (∀ gw i, last_report gw i (history c ++ [e]) = last_report gw i (history c)) →
    cluster_move now0 c (mkCluster (history c ++ [e]) (reps c))
| cm_start id gw : reps c !! id = None →
    cluster_move now0 c (mkCluster (history c) (<[id := mkRep gw Cold new_api]> (reps c)))
| cm_replica id r es r' : reps c !! id = Some r → move (coordinator now0 c) id r es r' →
    cluster_move now0 c (mkCluster (history c ++ es) (<[id := r']> (reps c))).

Lemma polled_in_hand g a : in_hand (polled g a) = None.
Proof. unfold polled. by case_decide. Qed.

Lemma after_sync_in_hand b : in_hand (after_sync b) = None.
Proof. by destruct b. Qed.

Lemma replica_moves now0 c l id r :
  reps c !! id = Some r →
  cluster_move now0 c (replica_step now0 c l id r).
Proof.
  intros Hr. destruct r as [gw p a]. unfold replica_step, put. cbn [rep_phase rep_api rep_gateway].
  destruct l, p; try apply cm_same;
    try (eapply cm_replica; [exact Hr|]; constructor; (apply polled_in_hand || apply after_sync_in_hand || done)).
  - destruct (computed _); [|apply cm_same]. eapply cm_replica; [exact Hr|]. by constructor.
  - eapply cm_replica; [exact Hr|]. apply move_poll. destruct (wait_for_change _ _ _ _ _).2; [apply polled_in_hand|done].
  - destruct event; (eapply cm_replica; [exact Hr|]); constructor; [apply polled_in_hand|done].
  - destruct (computed _); [|apply cm_same]. eapply cm_replica; [exact Hr|]. by constructor.
Qed.

Lemma step_moves now0 c l : cluster_move now0 c (cluster_step now0 c l).
Proof.
  destruct l; cbn [cluster_step];
    try (destruct (reps c !! id) eqn:E; [by apply replica_moves|apply cm_same]).
  - apply cm_coordinator. intros. by rewrite last_report_app.
  - apply cm_coordinator. intros. by rewrite last_report_app.
  - destruct (reps c !! id) eqn:E; [apply cm_same|by apply cm_start].
Qed.

(** ** Which versions a replica serves *)

Section safe.
Context (now0 : Z).
Notation co es := (run es (init now0)).1.

(** The table holds applications of versions from the routing seq on, whose snapshots are given out. *)
Record rep_safe (es : list event) (r : replica) : Prop := {
  rs_ok : tables_ok (rep_api r);
  rs_seq m : routing_seq (rep_api r) = Some m → reaches (co es) (rep_gateway r) m;
  rs_apps m mo app : routing_seq (rep_api r) = Some m → serves (rep_api r) mo app →
    ∃ m', m ≤ m' ∧ reaches (co es) (rep_gateway r) m' ∧ of_version (rep_gateway r) es m' app;
  rs_hand snapshot : in_hand (rep_phase r) = Some snapshot →
    NoDup (Dict.keys (s_models snapshot)) ∧
    (∀ m, routing_seq (rep_api r) = Some m → ∃ m', s_routing snapshot = Some m' ∧ m ≤ m') ∧
    match s_routing snapshot with
    | Some m' => reaches (co es) (rep_gateway r) m' ∧
        ∀ app, app ∈ Dict.keys (s_models snapshot) → of_version (rep_gateway r) es m' app
    | None => s_models snapshot = []
    end;
}.

Definition reports_known (c : cluster) : Prop := ∀ gw i rp, last_report gw i (history c) = Some rp →
  ∃ r, reps c !! i = Some r ∧ rep_gateway r = gw ∧ ∃ m, routing_seq (rep_api r) = Some m ∧ r_seq rp ≤ m.

Record cluster_safe (c : cluster) : Prop := {
  cs_reps id r : reps c !! id = Some r → rep_safe (history c) r;
  cs_reports : reports_known c;
}.

Lemma rep_safe_later es es' r :
  (∀ m, reaches (co es) (rep_gateway r) m → reaches (co (es ++ es')) (rep_gateway r) m) →
  rep_safe es r → rep_safe (es ++ es') r.
Proof.
  intros Hr [S1 S2 S3 S4]. split; [done|auto| |].
  - intros m mo app Hm Hs. destruct (S3 m mo app Hm Hs) as (m' & ? & ? & ?). exists m'.
    split_and!; [done|auto|by apply of_version_app].
  - intros snapshot H. destruct (S4 _ H) as (? & ? & H3). split_and!; [done..|].
    destruct (s_routing snapshot); [|done]. destruct H3 as [? H3]. split; [auto|].
    intros app Happ. by apply of_version_app, H3.
Qed.

(** A replica of the same table and less in hand *)
Lemma rep_safe_idle es r p' :
  in_hand p' = None → rep_safe es r → rep_safe es (mkRep (rep_gateway r) p' (rep_api r)).
Proof. intros Hp [S1 S2 S3 S4]. split; [done..|]. cbn. by rewrite Hp. Qed.

Lemma rep_safe_fetch es gw p a p' :
  in_hand p' = Some (published gw (co es)) → rep_safe es (mkRep gw p a) → rep_safe es (mkRep gw p' a).
Proof.
  intros Hp [S1 S2 S3 S4]. split; [exact S1|exact S2|exact S3|]. intros snapshot. cbn [rep_phase rep_api rep_gateway].
  rewrite Hp. intros <-%(inj Some).
  destruct (published_spec es now0 gw) as (Hnd & _ & Hq & Hv). split; [exact Hnd|]. split.
  - intros m Hm. destruct (S2 m Hm) as (q & Hs & Hl). exists q. split; [exact (eq_trans Hq Hs)|done].
  - destruct (s_routing (published gw (co es))) as [n|]; [|done].
    destruct Hv as (v & Ha & Hn & Happs). split; [exists n; split; [done|lia]|].
    intros app [m Hm]%Dict.get_is_Some. exists v. split_and!; [done..|].
    apply Dict.get_Some_elem, Happs in Hm. apply list_elem_of_fmap. by exists (m, app).
Qed.

Lemma rep_safe_apply es gw p a snapshot (ready : string → bool) p' :
  in_hand p = Some snapshot → in_hand p' = None →
  rep_safe es (mkRep gw p a) → rep_safe es (mkRep gw p' (apply_snapshot ready snapshot a).1).
Proof.
  intros Hp Hp' [S1 S2 S3 S4]. cbn in *. destruct (S4 _ Hp) as (Hnd & Hm & Hs).
  destruct (apply_snapshot_spec ready snapshot a S1 Hnd) as (T & _ & Hserves & Hend).
  assert (∀ mo app, serves (apply_snapshot ready snapshot a).1 mo app → app ∈ Dict.keys (s_models snapshot)) as Hin.
  { intros mo app [[_ H]|[H _]]%Hserves; [done|]. apply Dict.get_is_Some. eauto. }
  assert (∀ m, routing_seq (apply_snapshot ready snapshot a).1 = Some m →
    ∃ m', s_routing snapshot = Some m' ∧ m ≤ m') as Hseq.
  { destruct Hend as [(_ & _ & -> & _)|(_ & _ & -> & _)]; [|exact Hm]. intros m ->. by exists m. }
  split; cbn; [done| | |by rewrite Hp'].
  - intros m H. destruct (Hseq m H) as (m' & E & Hl). rewrite E in Hs. destruct Hs as [(q & Hq & Hlq) _].
    exists q. split; [done|lia].
  - intros m mo app H Happ. destruct (Hseq m H) as (m' & E & Hl). rewrite E in Hs. destruct Hs as [Hr Hv].
    exists m'. split_and!; [done..|]. eapply Hv, Hin, Happ.
Qed.

(** What is reported is no more than what is held. *)
Lemma seq_grows es gw p a snapshot (ready : string → bool) m :
  in_hand p = Some snapshot → rep_safe es (mkRep gw p a) → routing_seq a = Some m →
  ∃ m', routing_seq (apply_snapshot ready snapshot a).1 = Some m' ∧ m ≤ m'.
Proof.
  intros Hp [S1 _ _ S4] Hm. cbn in *. destruct (S4 _ Hp) as (Hnd & Hle & _).
  destruct (apply_snapshot_spec ready snapshot a S1 Hnd) as (_ & _ & _ & [(_ & _ & -> & _)|(_ & _ & -> & _)]); [auto|].
  exists m. split; [done|lia].
Qed.

Lemma cluster_move_safe c c' :
  (∀ gw, grows gw now0 (history c')) → cluster_move now0 c c' → cluster_safe c → cluster_safe c'.
Proof.
  intros Hg Hmv [H1 H2]. destruct Hmv as [|e He|id gw Hid|id r es r' Hid Hmv].
  - done.
  - split; cbn [history reps] in *.
    + intros id r Hr. apply rep_safe_later; [intros m; by apply run_reaches|eauto].
    + unfold reports_known. cbn [history reps]. intros gw i rp. rewrite He. apply H2.
  - split; cbn [history reps] in *.
    + intros id' r [[<- <-]|[_ Hr]]%lookup_insert_Some; [|eauto].
      split; cbn; [apply new_api_ok|done..].
    + unfold reports_known. cbn [history reps]. intros gw' i rp H. destruct (H2 gw' i rp H) as (r & Hr & ?). exists r. split; [|done].
      rewrite lookup_insert_ne; [done|congruence].
  - assert (∀ gw m, reaches (co (history c)) gw m → reaches (co (history c ++ es)) gw m) as Hre.
    { intros gw m. cbn [history] in Hg. destruct Hmv; rewrite ?app_nil_r; auto; apply run_reaches; apply Hg. }
    assert (rep_safe (history c ++ es) r' ∧ rep_gateway r' = rep_gateway r ∧
      ∀ m, routing_seq (rep_api r) = Some m → ∃ m', routing_seq (rep_api r') = Some m' ∧ m ≤ m') as (Hs & Hgw & Hle).
    { pose proof (H1 id r Hid) as Hs. destruct Hmv as [gw p a p' Hp|gw p a now p' Hp|gw p a p' Hp|gw p a snapshot ready p' Hp Hp'].
      - split; [rewrite app_nil_r; by apply (rep_safe_idle _ (mkRep gw p a))|]. split; [done|]. intros m Hm. exists m. by split.
      - split; [|split; [done|]; intros m Hm; exists m; by split].
        apply (rep_safe_idle _ (mkRep gw p a)); [done|]. apply rep_safe_later; [apply Hre|done].
      - split; [|split; [done|]; intros m Hm; exists m; by split].
        apply rep_safe_later; [apply Hre|]. by eapply rep_safe_fetch.
      - split; [rewrite app_nil_r; by eapply rep_safe_apply|]. split; [done|]. intros m Hm. by eapply seq_grows. }
    split; cbn [history reps] in *.
    + intros id' r0 [[<- <-]|[_ Hr]]%lookup_insert_Some; [done|]. apply rep_safe_later; [apply Hre|eauto].
    + unfold reports_known. cbn [history reps]. intros gw i rp. intros Hrp.
      assert (last_report gw i (history c) = Some rp ∨
        (i = id ∧ rep_gateway r = gw ∧ routing_seq (rep_api r) = Some (r_seq rp))) as Hcase.
      { destruct Hmv as [| gw0 p a now p' Hp | |]; rewrite ?app_nil_r, ?last_report_app in Hrp; auto.
        destruct (routing_seq a) as [q|] eqn:Eq; cbn [fmap option_fmap option_map] in Hrp; [|auto].
        destruct (decide (gw0 = gw ∧ id = i)) as [[-> ->]|]; [|auto]. injection Hrp as <-. auto. }
      destruct (decide (i = id)) as [->|Hne].
      * exists r'. rewrite lookup_insert_eq. split; [done|]. rewrite Hgw.
        destruct Hcase as [(r0 & E & Eg & m & Hm & Hl)%H2|(_ & Eg & Hm)].
        -- rewrite E in Hid. injection Hid as ->. split; [done|]. destruct (Hle m Hm) as (m' & ? & ?). exists m'. split; [done|lia].
        -- split; [done|]. destruct (Hle _ Hm) as (m' & ? & ?). exists m'. split; [done|lia].
      * rewrite lookup_insert_ne by done. destruct Hcase as [?%H2|[? _]]; done.
Qed.
End safe.

Lemma move_history now0 c c' : cluster_move now0 c c' → ∃ es, history c' = history c ++ es.
Proof. intros []; cbn [history]; [exists []; by rewrite app_nil_r|by eexists|exists []; by rewrite app_nil_r|by eexists]. Qed.

Lemma cluster_run_snoc now0 ls l : cluster_run now0 (ls ++ [l]) = cluster_step now0 (cluster_run now0 ls) l.
Proof. unfold cluster_run. by rewrite foldl_app. Qed.

Lemma cluster_run_safe now0 ls :
  (∀ gw, grows gw now0 (history (cluster_run now0 ls))) → cluster_safe now0 (cluster_run now0 ls).
Proof.
  induction ls as [|l ls IH] using rev_ind.
  - intros _. split; [intros id r; cbn; by rewrite lookup_empty|intros gw i rp H; vm_compute in H; discriminate].
  - rewrite cluster_run_snoc. intros Hg. pose proof (step_moves now0 (cluster_run now0 ls) l) as Hmv.
    apply (cluster_move_safe now0 _ _ Hg Hmv), IH. intros gw. destruct (move_history _ _ _ Hmv) as [es E].
    specialize (Hg gw). rewrite E in Hg. by apply grows_prefix in Hg.
Qed.

(** ** Replicas that hold the current generation *)

Section current.
Context (now0 : Z) (Hstart : 0 < now0 / millisecond).
Notation co es := (run es (init now0)).1.

(** A deployment's name says its gateway and model. *)
Definition names_ok (es : list event) : Prop :=
  ∀ gw v m app, answered gw v es → (m, app) ∈ v_apps v → parse_deployment_name app = Some (gw, m).

(** The table is the snapshot's. *)
Definition holds (s : Snapshot) (a : ModelshipAPI) : Prop :=
  expected_models a = s_expected s ∧ routing_seq a = s_routing s ∧
  ∀ m app, serves a m app ↔ Dict.get app (s_models s) = Some m.

Definition named (gw : string) (s : Snapshot) : Prop :=
  ∀ app m, Dict.get app (s_models s) = Some m → parse_deployment_name app = Some (gw, m).

Record rep_current (es : list event) (r : replica) : Prop := {
  rc_ok : tables_ok (rep_api r);
  rc_names m app : serves (rep_api r) m app → parse_deployment_name app = Some (rep_gateway r, m);
  rc_gen : gen (rep_api r) ≤ current_generation (rep_gateway r) (co es);
  rc_holds : gen (rep_api r) = current_generation (rep_gateway r) (co es) →
    holds (published (rep_gateway r) (co es)) (rep_api r);
  rc_hand snapshot : in_hand (rep_phase r) = Some snapshot →
    NoDup (Dict.keys (s_models snapshot)) ∧ named (rep_gateway r) snapshot ∧
    gen (rep_api r) ≤ s_generation snapshot ≤ current_generation (rep_gateway r) (co es) ∧
    (s_generation snapshot = current_generation (rep_gateway r) (co es) →
     snapshot = published (rep_gateway r) (co es));
}.

Lemma published_step es e gw :
  current_generation gw (co es) ≤ current_generation gw (co (es ++ [e])) ∧
  (current_generation gw (co (es ++ [e])) = current_generation gw (co es) →
   published gw (co (es ++ [e])) = published gw (co es)).
Proof.
  rewrite run_snoc. destruct (run es (init now0)) as [s ws]. destruct (step_tables s ws e gw) as [H1 H2].
  split; [done|]. intros E. destruct (H2 E) as [Hr Hq]. unfold published, snapshot_of, get_routing. cbn [fst snd].
  change (current_generation gw (watch gw ?x)) with (current_generation gw x). cbn [watch routing seqs].
  by rewrite Hr, Hq, E.
Qed.

Lemma rep_current_later es e r : rep_current es r → rep_current (es ++ [e]) r.
Proof.
  intros [C1 C2 C3 C4 C5]. destruct (published_step es e (rep_gateway r)) as [H1 H2].
  split; [done|done|lia| |].
  - intros E. rewrite H2 by lia. apply C4. lia.
  - intros s Hs. destruct (C5 s Hs) as (? & ? & ? & H). split_and!; [done|done|lia|lia|].
    intros E. rewrite H2 by lia. apply H. lia.
Qed.

Lemma rep_current_idle es r p' :
  in_hand p' = None → rep_current es r → rep_current es (mkRep (rep_gateway r) p' (rep_api r)).
Proof. intros Hp [C1 C2 C3 C4 C5]. split; [done..|]. cbn. by rewrite Hp. Qed.

Lemma rep_current_fetch es gw p a p' :
  names_ok es → in_hand p' = Some (published gw (co es)) →
  rep_current es (mkRep gw p a) → rep_current es (mkRep gw p' a).
Proof.
  intros Hn Hp [C1 C2 C3 C4 C5]. split; [exact C1|exact C2|exact C3|exact C4|].
  intros s. cbn [rep_phase rep_api rep_gateway] in *. rewrite Hp. intros <-%(inj Some).
  destruct (published_spec es now0 gw) as (Hnd & Hg & _ & Hv). split; [exact Hnd|]. split; [|split; [|done]].
  - intros app m Hm%Dict.get_Some_elem. destruct (s_routing _) as [n|].
    + destruct Hv as (v & Ha & _ & Happs). by eapply Hn, Happs.
    + rewrite Hv in Hm. by apply elem_of_nil in Hm.
  - cbv zeta in Hg. rewrite Hg. lia.
Qed.

(** A whole snapshot applied is held. *)
Lemma applied_holds gw s a a' :
  named gw s → (∀ m app, serves a m app → parse_deployment_name app = Some (gw, m)) →
  expected_models a' = s_expected s → routing_seq a' = s_routing s →
  (∀ m app, serves a' m app → app ∈ Dict.keys (s_models s)) →
  (∀ m app, serves a' m app → parse_deployment_name app = Some (gw, m)) →
  (∀ app, app ∈ Dict.keys (s_models s) → ∃ m, serves a' m app) → holds s a'.
Proof.
  intros Hn Ha He Hq H1 H2 H3. split_and!; [done..|]. intros m app. split.
  - intros Hs. pose proof (H1 _ _ Hs) as [m' Hm']%Dict.get_is_Some. rewrite Hm'.
    apply H2 in Hs. apply Hn in Hm'. congruence.
  - intros Hm. destruct (H3 app) as [m' Hs]; [apply Dict.get_is_Some; eauto|].
    assert (m' = m) as <-; [|done]. apply H2 in Hs. apply Hn in Hm. congruence.
Qed.

Lemma rep_current_apply es gw p a s (ready : string → bool) p' :
  in_hand p = Some s → in_hand p' = None →
  rep_current es (mkRep gw p a) → rep_current es (mkRep gw p' (apply_snapshot ready s a).1).
Proof.
  intros Hp Hp' [C1 C2 C3 C4 C5]. cbn [rep_phase rep_api rep_gateway] in *.
  destruct (C5 _ Hp) as (Hnd & Hn & Hg & Hc).
  destruct (apply_snapshot_spec ready s a C1 Hnd) as (T & He & Hserves & Hend).
  set (a' := (apply_snapshot ready s a).1) in *.
  assert (∀ m app, serves a' m app → app ∈ Dict.keys (s_models s)) as Hin.
  { intros m app [[_ H]|[H _]]%Hserves; [done|]. apply Dict.get_is_Some. eauto. }
  assert (∀ m app, serves a' m app → parse_deployment_name app = Some (gw, m)) as Hnames.
  { intros m app [[H _]|[H _]]%Hserves; auto. }
  destruct Hend as [(_ & Eg & Eq & Hall)|(_ & Eg & Eq & app & Happ & Hno)].
  - split; cbn [rep_phase rep_api rep_gateway]; [done|done|rewrite Eg; lia| |by rewrite Hp'].
    rewrite Eg. intros E. rewrite <-(Hc E). by eapply applied_holds.
  - split; cbn [rep_phase rep_api rep_gateway]; [done|done|rewrite Eg; lia| |by rewrite Hp'].
    rewrite Eg. intros E. exfalso. destruct (C4 E) as (_ & _ & H). rewrite <-Hc in H by lia.
    apply Dict.get_is_Some in Happ as [m Hm]. by eapply Hno, H.
Qed.

Lemma new_rep_current es gw : rep_current es (mkRep gw Cold new_api).
Proof.
  assert (0 < current_generation gw (co es)) as Hpos.
  { pose proof (run_generation es (init now0) [] gw) as [H _].
    change (current_generation gw (init now0)) with (now0 / millisecond) in H. unfold run. lia. }
  split; cbn [rep_phase rep_api rep_gateway gen new_api]; [apply new_api_ok| |lia|lia|done].
  by intros m app (hs & ? & _).
Qed.

Lemma cluster_run_current ls :
  names_ok (history (cluster_run now0 ls)) →
  ∀ id r, reps (cluster_run now0 ls) !! id = Some r → rep_current (history (cluster_run now0 ls)) r.
Proof.
  induction ls as [|l ls IH] using rev_ind; [intros _ id r; cbn; by rewrite lookup_empty|].
  rewrite cluster_run_snoc. set (c := cluster_run now0 ls) in *. intros Hn.
  destruct (step_moves now0 c l) as [|e _|id gw Hid|id r es r' Hid Hmv]; cbn [history reps] in *.
  - by apply IH.
  - intros id r Hr. apply rep_current_later. eapply IH, Hr. intros gw v m app Ha. apply Hn.
    destruct Ha as (x & vs & now & Hin & Hv). exists x, vs, now. rewrite elem_of_app. auto.
  - intros id' r [[<- <-]|[_ Hr]]%lookup_insert_Some; [apply new_rep_current|by eapply IH].
  - assert (names_ok (history c)) as Hn0.
    { intros gw v m app Ha. apply Hn. destruct Ha as (x & vs & now & Hin & Hv). exists x, vs, now. rewrite elem_of_app. auto. }
    specialize (IH Hn0). pose proof (IH _ _ Hid) as Hr.
    intros id' r0 [[<- <-]|[_ Hr0]]%lookup_insert_Some.
    + destruct Hmv as [gw p a p' Hp|gw p a now p' Hp|gw p a p' Hp|gw p a snapshot ready p' Hp Hp'];
        rewrite ?app_nil_r.
      * by apply (rep_current_idle _ (mkRep gw p a)).
      * apply rep_current_later. by apply (rep_current_idle _ (mkRep gw p a)).
      * apply rep_current_later. by eapply rep_current_fetch.
      * by eapply rep_current_apply.
    + apply IH in Hr0. destruct Hmv; rewrite ?app_nil_r; [done|by apply rep_current_later..|done].
Qed.
End current.
End ClusterFacts.

Module ReplicaProperties.
Import RoutingFacts CoordinatorFacts ClusterFacts.

Lemma readyz_spec a :
  tables_ok a →
  ready_ (readyz_body a) = true ↔
    expected_models a ≠ [] ∧ ∀ m, m ∈ expected_models a → ∃ app, serves a m app.
Proof.
  intros T. unfold readyz_body. cbn. rewrite andb_true_iff, negb_true_iff, bool_decide_eq_false.
  apply and_iff_compat_l. rewrite Nat.eqb_eq, length_zero_iff_nil. split.
  - intros Hf m Hm. destruct (Dict.get m (model_apps a)) as [hs|] eqn:Hg.
    + destruct (tb_handles a T m hs Hg) as (Hne & _). destruct hs as [|[app h] hs]; [done|].
      exists app, ((app, h) :: hs). split; [done|]. constructor.
    + assert (m ∈ filter (λ m, Dict.mem m (model_apps a) = false) (expected_models a)) as Hin.
      { apply list_elem_of_filter. split; [|done]. unfold Dict.mem. by rewrite Hg. }
      rewrite Hf in Hin. by apply elem_of_nil in Hin.
  - intros H. apply elem_of_nil_inv. intros m [Hn Hm]%list_elem_of_filter.
    destruct (H m Hm) as (app & hs & Hg & _). unfold Dict.mem in Hn. by rewrite Hg in Hn.
Qed.

(** C8: when a gateway is reported switched to routing version [n], every one of its replicas that the
    last pass saw running serves applications of version [n] only, whatever it had before, and whatever
    calls failed or interleaved since: no request that comes after can reach an application the new
    version left, so the deploy may delete it. Routing numbers are only assumed to grow. *)
Theorem switched_replicas_left_old_apps now0 ls gw n now :
  let c := cluster_run now0 ls in let s := coordinator now0 c in
  (∀ gw', grows gw' now0 (history c)) →
  (is_switched gw n now s).2 = true →
  ∀ id, id ∈ default ∅ (replicas s !! gw) →
    ∃ r, reps c !! id = Some r ∧ rep_gateway r = gw ∧
      (∀ app, app ∈ routed (rep_api r) → of_version gw (history c) n app) ∧
      (∀ model t h, (get_handle model (rep_api r) t).2 = Ok h → of_version gw (history c) n (h_app h)).
Proof.
  intros c s Hg (_ & Hq & Hr)%is_switched_spec id Hid.
  destruct (cluster_run_safe now0 ls Hg) as [S1 S2]. fold c in S1, S2.
  destruct (Hr id Hid) as (rp & Hrp & Hn & _). apply (ex_report _ _ (run_explained (history c) now0)) in Hrp.
  destruct (S2 gw id rp Hrp) as (r & Hrep & Hgw & m & Hm & Hl). exists r. split; [done|]. split; [done|].
  destruct (S1 id r Hrep) as [T _ Happs _]. rewrite Hgw in Happs.
  assert (∀ mo app, serves (rep_api r) mo app → of_version gw (history c) n app) as Hv.
  { intros mo app Hs. destruct (Happs m mo app Hm Hs) as (m' & Hle & (q & Hq' & Hle') & Hof).
    unfold s, coordinator in Hq. assert (q = n) as -> by congruence. by replace n with m' by lia. }
  split.
  - intros app Happ. apply elem_of_routed in Happ as [mo Hs]; [|done]. by eapply Hv.
  - intros model t h Hh. pose proof (get_handle_spec (rep_api r) model t T) as H. rewrite Hh in H.
    destruct H as (mo & _ & Hs & _). by eapply Hv.
Qed.

Definition always : string → bool := λ _, true.

(** A gateway's only replica, through a switch of a model from one deployment to another *)
Definition old_app : string := "g.a-0000000001".
Definition new_app : string := "g.a-0000000002".
Definition serving (apps : list string) : dict AppDetails :=
  (λ app, (app, RoutingProperties.starting)) <$> "g"%string :: apps.
Definition version (n : Z) (app : string) : Version := mkVersion n [("a"%string, app)].

Definition one_switch : list label :=
  [Start "r1" "g"; CoordinatorPass (serving [old_app]) (Some {["g" := version 7 old_app]}) 5;
   SyncCall "r1"; SyncApply "r1" always true; PollCall "r1" (6 * second);
   CoordinatorPass (serving [old_app; new_app]) (Some {["g" := version 8 new_app]}) 7;
   PollReturn "r1"; FetchRouting "r1"; Apply "r1" always; PollCall "r1" (8 * second)]%string.
Definition switched : cluster := cluster_run second one_switch.

Lemma one_switch_history :
  history switched =
    [Pass (serving [old_app]) (Some {["g" := version 7 old_app]}) 5; GetRouting "g";
     Poll "g" 1001 (Some ("r1", 7)) (6 * second);
     Pass (serving [old_app; new_app]) (Some {["g" := version 8 new_app]}) 7; GetRouting "g";
     Poll "g" 1002 (Some ("r1", 8)) (8 * second)]%string.
Proof. vm_compute. reflexivity. Qed.

Lemma one_switch_grows gw : grows gw second (history switched).
Proof.
  rewrite one_switch_history. intros es1 apps vs now es2 v v0.
  destruct es1 as [|e1 [|e2 [|e3 [|e4 [|e5 [|e6 [|]]]]]]]; cbn [app]; intros E; try discriminate E; injection E; intros; subst; clear E; revert select (_ !! gw = Some v); revert select (_ !! gw = Some v0).
  -  cbn. by rewrite lookup_empty.
  - intros Hv0 [<- <-]%lookup_singleton_Some. vm_compute in Hv0. by injection Hv0 as <-.
Qed.

Lemma one_switch_names : names_ok (history switched).
Proof.
  rewrite one_switch_history. intros gw v m app (apps & vs & now & Hin & Hv).
  repeat (apply elem_of_cons in Hin as [Hin|Hin]; [try discriminate Hin|]); [..|by apply elem_of_nil in Hin];
    injection Hin as _ -> _; apply lookup_singleton_Some in Hv as [<- <-];
    intros [= -> ->]%list_elem_of_singleton; vm_compute; reflexivity.
Qed.

Lemma switched_replicas_left_old_apps_witness :
  ∃ r, reps switched !! "r1"%string = Some r ∧
    (get_handle (Some "a"%string) (rep_api r) (mkTracker "a" "create_response" None)).2 = Ok (mkHandle new_app) ∧
    of_version "g" (history switched) 8 new_app.
Proof.
  destruct (switched_replicas_left_old_apps second one_switch "g" 8 (9 * second) one_switch_grows) with (id := "r1"%string)
    as (r & Hr & _ & _ & H); [vm_compute; reflexivity|apply (bool_decide_unpack _); vm_compute; exact I|].
  exists r. split; [exact Hr|].
  assert ((get_handle (Some "a"%string) (rep_api r) (mkTracker "a" "create_response" None)).2 = Ok (mkHandle new_app)) as Hh
    by (vm_compute in Hr; injection Hr as <-; vm_compute; reflexivity).
  split; [exact Hh|exact (H _ _ _ Hh)].
Defined.

(** C9: a replica that holds its gateway's current generation answers by the table the coordinator
    publishes, and by nothing else: a request goes to an application the table gives its model, it is told
    that an expected model is not ready (503) and that any other is unknown (404) exactly when the table
    has none, and the replica is ready exactly when every expected model has one. *)
Theorem current_replica_follows_table now0 ls id r :
  let c := cluster_run now0 ls in let s := coordinator now0 c in
  0 < now0 / millisecond → names_ok (history c) →
  reps c !! id = Some r → gen (rep_api r) = current_generation (rep_gateway r) s →
  let table := published (rep_gateway r) s in
  routing_seq (rep_api r) = s_routing table ∧
  (∀ model t,
     match (get_handle model (rep_api r) t).2 with
     | Ok h => ∃ m, model = Some m ∧ Dict.get (h_app h) (s_models table) = Some m
     | Err e => (∀ m app, model = Some m → Dict.get app (s_models table) ≠ Some m) ∧
         e = if model is Some m then
               if bool_decide (m ∈ s_expected table) then HTTPException 503 "model not ready" else HTTPException 404 "model not found"
             else HTTPException 404 "model not found"
     end) ∧
  (readyz_status (rep_api r) = 200 ↔
     s_expected table ≠ [] ∧ ∀ m, m ∈ s_expected table → ∃ app, Dict.get app (s_models table) = Some m).
Proof.
  intros c s Hpos Hn Hr Hcur table. destruct (cluster_run_current now0 Hpos ls Hn id r Hr) as [T _ _ H _].
  destruct (H Hcur) as (He & Hq & Hs). change (published _ _) with table in He, Hq, Hs. split; [done|]. split.
  - intros model t. pose proof (get_handle_spec (rep_api r) model t T) as Hh.
    destruct (get_handle model (rep_api r) t).2 as [h|e].
    + destruct Hh as (m & Em & Hm & _). exists m. split; [done|]. by apply Hs.
    + destruct Hh as [Hno He']. split; [intros m app Em Hm; by apply (Hno m app Em), Hs|].
      unfold in_expected in He'. rewrite He in He'. destruct model as [m|]; [|done]. by case_bool_decide.
  - transitivity (ready_ (readyz_body (rep_api r)) = true).
    { unfold readyz_status. by destruct (ready_ _). }
    rewrite readyz_spec, He by done. by setoid_rewrite Hs.
Qed.

Lemma current_replica_follows_table_witness :
  ∃ r, reps switched !! "r1"%string = Some r ∧
    ∃ m, Some "a"%string = Some m ∧ Dict.get new_app (s_models (published "g" (coordinator second switched))) = Some m.
Proof.
  destruct (reps switched !! "r1"%string) as [r|] eqn:Hr; [|by vm_compute in Hr]. exists r. split; [done|].
  assert (rep_gateway r = "g"%string ∧ gen (rep_api r) = 1002 ∧
    (get_handle (Some "a"%string) (rep_api r) (mkTracker "a" "create_response" None)).2 = Ok (mkHandle new_app)) as (Hg & Hgen & Hh).
  { vm_compute in Hr. injection Hr as <-. split_and!; vm_compute; reflexivity. }
  destruct (current_replica_follows_table second one_switch "r1" r) as (_ & H & _);
    [vm_compute; reflexivity|exact one_switch_names|exact Hr|rewrite Hg, Hgen; vm_compute; reflexivity|].
  specialize (H (Some "a"%string) (mkTracker "a" "create_response" None)). rewrite Hh, Hg in H. exact H.
Defined.
End ReplicaProperties.
