(* ===== verification/DeployOptions.v ===== *)
(** * What a model deployment asks of Ray

    [src/modelship/deploy/actor_options.py], the actor options of a model's replicas, with
    [src/modelship/utils/runtime_env.py] and the resources of
    [src/modelship/deploy/capabilities.py]; [src/modelship/deploy/gateway_sizing.py];
    [src/modelship/deploy/request_router.py], which replica a request goes to; and the source
    checks of [src/modelship/deploy/config.py]. *)

From S2P Require Import Prelude StateStore ConfigSchema.
Local Open Scope Z_scope.

(** ** Environment variables ([runtime_env.py])

    [environ] is the process's [os.environ]. *)
Module RuntimeEnv.
Definition CLUSTER_ENV_DEFAULTS : dict string :=
  [("MSHIP_LOG_FORMAT", "text"); ("MSHIP_METRICS", "true")]%string.
Definition MODEL_ENV_VARS : list string := ["MSHIP_GATEWAY_NAME"; "MSHIP_PREFLIGHT"]%string.

Definition build_env_vars (environ : dict string) (names : list string) : dict string :=
  omap (λ n, (λ v, (n, v)) <$> Dict.get n environ) names.

Definition env_setting (environ : dict string) (name dflt : string) : string :=
  default dflt (Dict.get name environ).

Definition cluster_env_vars (environ : dict string) : dict string :=
  (λ nd, (nd.1, env_setting environ nd.1 nd.2)) <$> CLUSTER_ENV_DEFAULTS.

(** [state_store_env_var] ([src/modelship/state/__init__.py]) *)
Definition state_store_env_var (environ : dict string) : dict string :=
  let uri := default "" (Dict.get "MSHIP_STATE_STORE" environ) in
  [("MSHIP_STATE_STORE", if decide (uri = "") then "memory://" else uri)]%string.
End RuntimeEnv.

Import RuntimeEnv.

(** ** Actor options *)

Definition build_cache_env_vars : dict string :=
  [("HF_HOME", "${MSHIP_CACHE_DIR}/huggingface");
   ("HF_HUB_CACHE", "${MSHIP_CACHE_DIR}/huggingface/hub");
   ("HF_HUB_DISABLE_XET", "1");
   ("VLLM_CACHE_ROOT", "${MSHIP_NODE_CACHE_DIR}/vllm");
   ("FLASHINFER_WORKSPACE_BASE", "${MSHIP_NODE_CACHE_DIR}/flashinfer");
   ("TRITON_CACHE_DIR", "${MSHIP_NODE_CACHE_DIR}/triton");
   ("VLLM_CONFIG_ROOT", "${MSHIP_NODE_CACHE_DIR}/vllm-config")]%string.

(** [deployment_capability_resources] *)
Definition deployment_capability_resources (c : ModelConfig) : dict Q :=
  [("mship_" +:+ loader_value (loader c), QArith_base.Qmake 1 1000)]%string.

Definition world_size (c : ModelConfig) : Z :=
  if decide (loader c = vllm)
  then tensor_parallel_size (vllm_engine_kwargs c) * pipeline_parallel_size (vllm_engine_kwargs c)
  else 1.

(** The dict of [Deployment.options]'s arguments. *)
Record ActorOptions : Type := mkActor {
  ao_num_gpus : Q;
  ao_num_cpus : Q;
  ao_env_vars : dict string;
  (** not set with bundles *)
  ao_resources : option (dict Q);
}.

Record DeployOptions : Type := mkOptions {
  ray_actor_options : ActorOptions;
  (** strictly packed onto one node *)
  placement_group_bundles : option (list (dict Q));
  opt_max_ongoing_requests : option Z;
}.

Definition Qsum (l : list Q) : Q := foldr QArith_base.Qplus (inject_Z 0) l.

(** [total_gpu_reservation] *)
Definition total_gpu_reservation (o : DeployOptions) : Q :=
  match placement_group_bundles o with
  | Some bs => Qsum ((λ b, default (inject_Z 0) (Dict.get "GPU"%string b)) <$> bs)
  | None => ao_num_gpus (ray_actor_options o)
  end.

(** [force_zero_gpu]; [darwin]: the process runs on macOS. *)
Definition force_zero_gpu (darwin : bool) (c : ModelConfig) : bool :=
  bool_decide (loader c = sherpa_onnx)
  || bool_decide (loader c = stable_diffusion_cpp ∨ loader c = whispercpp) && negb darwin.

Definition build_deployment_options (environ : dict string) (darwin : bool) (c : ModelConfig)
    (env : option (dict string)) : DeployOptions :=
  let env_vars := Dict.update build_cache_env_vars (default (build_env_vars environ MODEL_ENV_VARS) env) in
  let env_vars := Dict.update env_vars (Dict.update (cluster_env_vars environ) (state_store_env_var environ)) in
  let resources := deployment_capability_resources c in
  let '(actor, bundles) :=
    if force_zero_gpu darwin c then (mkActor (inject_Z 0) (num_cpus c) env_vars (Some resources), None)
    else if decide (world_size c = 1) then (mkActor (num_gpus c) (num_cpus c) env_vars (Some resources), None)
    else
      (mkActor (inject_Z 0) (num_cpus c) env_vars None,
       Some (replicate (Z.to_nat (world_size c))
         (Dict.update [("GPU", inject_Z 1); ("CPU", num_cpus c)]%string resources))) in
  let max_ongoing :=
    match max_ongoing_requests c with
    | Some n => Some n
    | None =>
        if decide (loader c = llama_server)
        then Some (if llama_server_config c is Some l then parallel l else 1) else None
    end in
  mkOptions actor bundles max_ongoing.

(** ** Gateway sizing *)

(** A Python [float]. *)
Inductive pyfloat : Type := FNum (q : Q) | FInf | FNegInf | FNaN.

Definition float_le0 (f : pyfloat) : bool :=
  match f with FNum q => Qle_bool q (inject_Z 0) | FNegInf => true | FInf | FNaN => false end.

Record GatewaySizing : Type := mkSizing {
  gs_min_replicas : Z;
  gs_max_replicas : Z;
  gs_target_ongoing : pyfloat;
  gs_max_ongoing : Z;
}.

(** [_positive_number_env]; [kind] is [int] or [float], [None] where it raises a [ValueError]. *)
Definition positive_number_env {A} (environ : dict string) (name : string) (dflt : A) (kind : string → option A)
    (le0 : A → bool) : res A :=
  match Dict.get name environ with
  | None => Ok dflt
  | Some raw =>
      match kind raw with
      | None => Err (ValueError (name +:+ " must be a positive number"))
      | Some v => if le0 v then Err (ValueError (name +:+ " must be > 0")) else Ok v
      end
  end.

(** [gateway_sizing]; [to_float] is Python's [float] on text. *)
Definition gateway_sizing (to_float : string → option pyfloat) (environ : dict string) : res GatewaySizing :=
  let int_env name dflt := positive_number_env environ name dflt Str.to_int (λ n, n <=? 0) in
  lo ← int_env "MSHIP_GATEWAY_MIN_REPLICAS"%string 1;
  hi ← int_env "MSHIP_GATEWAY_MAX_REPLICAS"%string 4;
  _ ← raise_if (hi <? lo) (ValueError "MSHIP_GATEWAY_MAX_REPLICAS must be >= MSHIP_GATEWAY_MIN_REPLICAS");
  target ← positive_number_env environ "MSHIP_GATEWAY_TARGET_ONGOING_REQUESTS" (FNum (inject_Z 64)) to_float float_le0;
  most ← int_env "MSHIP_GATEWAY_MAX_ONGOING_REQUESTS"%string 1024;
  mret (mkSizing lo hi target most).

(** ** The request router

    [score] is [_score]'s keyed BLAKE2b digest of a session key and a replica's id, as a number
    (bytes of one length compare like numbers); [load] the queue-length cache's entry, 0 without. *)
Section router.
Context {R : Type} (score : string → R → Z) (load : R → Z).
Context (balance_factor : Q) (spare_requests : Z).

Definition Qmean (l : list Z) : Q :=
  QArith_base.Qdiv (inject_Z (foldr Z.add 0 l)) (inject_Z (Z.of_nat (length l))).

Definition load_limit (candidates : list R) : Q :=
  QArith_base.Qplus (QArith_base.Qmult balance_factor (Qmean (load <$> candidates))) (inject_Z spare_requests).

Definition fits (limit : Q) (r : R) : bool := Qle_bool (inject_Z (load r)) limit.

Definition ranked (key : string) (candidates : list R) : list R :=
  Sort.sort (λ a b, score key b <=? score key a) candidates.

(** [choose_replicas]; [two_random] is what [_two_random] picks *)
Definition choose_replicas (two_random : list (list R)) (candidates : list R) (session : option string)
    : list (list R) :=
  match session with
  | None | Some ""%string => two_random
  | Some key =>
      if candidates is [] then two_random
      else
        let limit := load_limit candidates in
        let rs := ranked key candidates in
        (λ r, [r]) <$> (filter (λ r, fits limit r = true) rs ++ filter (λ r, fits limit r = false) rs)
  end.
End router.

(** ** Model sources ([config.py]) *)

(** What a source check pins. *)
Record Pinned : Type := mkPinned { resolves_to_gguf : bool; pin_label : string }.

Definition WHISPERCPP_REPO : string := "ggerganov/whisper.cpp".

(** [_whispercpp_source_ref]; [exists_] is [os.path.exists] *)
Definition whispercpp_source_ref (exists_ : string → bool) (m : string) : string :=
  if Registry.is_pathy m || Str.mem "/" m || Str.mem ":" m || exists_ m then m
  else WHISPERCPP_REPO +:+ ":ggml-" +:+ m +:+ ".bin".

Section sources.
(** [os.path.exists], and the checks of [modelship.utils.sources] and the sherpa_onnx bundles,
    which ask the Hugging Face hub or read the file system. *)
Context (exists_ : string → bool) (check_model_source : string → bool → res Pinned)
  (bundle_source : string → res Pinned).

(** One model in [resolve_all_model_sources]: the pins of its source and of its mmproj. *)
Definition resolve_model_source (c : ModelConfig) : res (Pinned * option Pinned) :=
  m ← (if model c is Some m then Ok m else Err AssertionError);
  if decide (loader c = sherpa_onnx) then p ← bundle_source m; mret (p, None)
  else
    let trust := trust_remote_code (vllm_engine_kwargs c) in
    let ref := if decide (loader c = whispercpp) then whispercpp_source_ref exists_ m else m in
    pinned ← (match check_model_source ref trust with
              | Err (FileNotFoundError msg) =>
                  if decide (ref = m) then Err (FileNotFoundError msg)
                  else Err (FileNotFoundError "not a whisper.cpp model name")
              | r => r
              end);
    mm ← (if decide (loader c = llama_server) then
            match llama_server_config c with
            | Some l =>
                match mmproj l with
                | None | Some ""%string => Ok None
                | Some mm =>
                    p ← check_model_source mm trust;
                    _ ← raise_if (negb (resolves_to_gguf p)) (ValueError "mmproj does not resolve to a GGUF file");
                    mret (Some p)
                end
            | None => Ok None
            end
          else Ok None);
    _ ← raise_if (bool_decide (loader c = vllm) && resolves_to_gguf pinned)
          (ValueError "resolves to a GGUF file, which the vllm loader does not support");
    _ ← raise_if (bool_decide (loader c = llama_server) && negb (resolves_to_gguf pinned))
          (ValueError "does not resolve to a GGUF file");
    mret (pinned, mm).

Definition resolve_all_model_sources (cs : list ModelConfig) : res (list (Pinned * option Pinned)) :=
  res_mapM resolve_model_source cs.
End sources.

(** ** Lemmas *)

Module OptionFacts.

Lemma Qsum_replicate n q : QArith_base.Qeq (Qsum (replicate n q)) (QArith_base.Qmult (inject_Z (Z.of_nat n)) q).
Proof.
  induction n as [|n IH]; [by rewrite QArith_base.Qmult_0_l|].
  cbn [replicate Qsum foldr]. unfold Qsum in IH. rewrite IH.
  rewrite Nat2Z.inj_succ. unfold Z.succ. rewrite QArith_base.inject_Z_plus, QArith_base.Qmult_plus_distr_l, QArith_base.Qmult_1_l.
  apply QArith_base.Qplus_comm.
Qed.

Lemma ranked_perm {R} (score : string → R → Z) key rs : ranked score key rs ≡ₚ rs.
Proof. apply Sort.sort_perm. Qed.

Lemma filter_split {A} (f : A → bool) l : filter (λ x, f x = true) l ++ filter (λ x, f x = false) l ≡ₚ l.
Proof.
  induction l as [|x l IH]; [done|]. rewrite !filter_cons. destruct (f x).
  - rewrite decide_True, decide_False by done. by constructor.
  - rewrite decide_False, decide_True by done. rewrite <-Permutation_middle. by constructor.
Qed.

(** The smallest load is at most the mean. *)
Lemma least_le_mean (l : list Z) :
  l ≠ [] → ∃ x, x ∈ l ∧ QArith_base.Qle (inject_Z x) (Qmean l).
Proof.
  intros Hl. assert (∃ x, x ∈ l ∧ ∀ y, y ∈ l → x ≤ y) as (x & Hx & Hmin).
  { induction l as [|a l IH]; [done|]. destruct l as [|b l].
    - exists a. split; [constructor|]. intros y ->%list_elem_of_singleton. lia.
    - destruct IH as (x & Hx & Hmin); [done|]. exists (Z.min a x). split.
      + destruct (Z.min_spec a x) as [[_ ->]|[_ ->]]; [by constructor|by right].
      + intros y [->|Hy]%elem_of_cons; [lia|]. specialize (Hmin y Hy). lia. }
  exists x. split; [done|]. assert (x * Z.of_nat (length l) ≤ foldr Z.add 0 l) as Hs.
  { clear Hl Hx. induction l as [|a l IH]; simpl; [lia|].
    assert (x ≤ a) by (apply Hmin; constructor).
    assert (x * Z.of_nat (length l) ≤ foldr Z.add 0 l) by (apply IH; intros; apply Hmin; by constructor). lia. }
  unfold Qmean. apply QArith_base.Qle_shift_div_l.
  - destruct l; [done|]. unfold QArith_base.Qlt. simpl. lia.
  - rewrite <-QArith_base.inject_Z_mult. by rewrite <-QArith_base.Zle_Qle.
Qed.

Lemma least_fits {R} (load : R → Z) balance spare (rs : list R) :
  rs ≠ [] → (∀ r, r ∈ rs → 0 ≤ load r) → QArith_base.Qle (inject_Z 1) balance → 0 ≤ spare →
  ∃ r, r ∈ rs ∧ fits load (load_limit load balance spare rs) r = true.
Proof.
  intros Hne Hpos Hb Hs. destruct (least_le_mean (load <$> rs)) as (x & (r & -> & Hr)%list_elem_of_fmap & Hx).
  { by destruct rs. }
  exists r. split; [done|]. unfold fits, load_limit. apply QArith_base.Qle_bool_iff.
  assert (QArith_base.Qle (inject_Z 0) (Qmean (load <$> rs))) as H0.
  { eapply QArith_base.Qle_trans; [|exact Hx]. rewrite <-QArith_base.Zle_Qle. by apply Hpos. }
  eapply QArith_base.Qle_trans; [exact Hx|].
  rewrite <-(QArith_base.Qplus_0_r (Qmean _)) at 1.
  apply QArith_base.Qplus_le_compat; [|by rewrite <-(QArith_base.Zle_Qle 0)].
  rewrite <-(QArith_base.Qmult_1_l (Qmean _)) at 1. by apply QArith_base.Qmult_le_compat_r.
Qed.

Lemma ranked_sorted {R} (score : string → R → Z) key rs :
  StronglySorted (λ a b, score key b ≤ score key a) (ranked score key rs).
Proof.
  apply Sorted_StronglySorted; [intros a b c ??; lia|].
  assert (Sorted (λ x y, (score key y <=? score key x) = true) (ranked score key rs)) as H.
  { apply Sort.sort_sorted. intros x y. rewrite !Z.leb_le. lia. }
  induction H as [|x l _ IH Hhd]; [constructor|]. constructor; [done|].
  destruct Hhd as [|y l' Hxy]; constructor. by apply Z.leb_le in Hxy.
Qed.

(** A group of bundles, one GPU each. *)
Lemma bundles_gpus n (c : ModelConfig) : 0 ≤ n →
  QArith_base.Qeq (Qsum ((λ b, default (inject_Z 0) (Dict.get "GPU"%string b)) <$>
    replicate (Z.to_nat n) (Dict.update [("GPU", inject_Z 1); ("CPU", num_cpus c)]%string
      (deployment_capability_resources c)))) (inject_Z n).
Proof.
  intros Hn. rewrite fmap_replicate.
  assert (default (inject_Z 0) (Dict.get "GPU"%string (Dict.update [("GPU", inject_Z 1); ("CPU", num_cpus c)]%string
    (deployment_capability_resources c))) = inject_Z 1) as ->.
  { unfold deployment_capability_resources. by destruct (loader c). }
  rewrite Qsum_replicate, Z2Nat.id by done. apply QArith_base.Qmult_1_r.
Qed.

Lemma force_zero_vllm darwin c : loader c = vllm → force_zero_gpu darwin c = false.
Proof. unfold force_zero_gpu. by intros ->. Qed.

(** What a vLLM model reserves, by its own fields. *)
Lemma vllm_reservation environ darwin env c :
  loader c = vllm → 0 ≤ world_size c →
  QArith_base.Qeq (total_gpu_reservation (build_deployment_options environ darwin c env))
    (if decide (world_size c = 1) then num_gpus c else inject_Z (world_size c)).
Proof.
  intros Hl Hw. unfold build_deployment_options, total_gpu_reservation. rewrite force_zero_vllm by done.
  destruct (decide (world_size c = 1)); [reflexivity|]. by apply bundles_gpus.
Qed.

(** The first element a filter keeps comes before every other it keeps. *)
Lemma filter_first {A} (R : relation A) (P : A → Prop) `{∀ x, Decision (P x)} l x k :
  StronglySorted R l → filter P l = x :: k → ∀ y, y ∈ k → R x y.
Proof.
  induction 1 as [|a l Hs IH Ha]; [done|]. rewrite filter_cons. case_decide; [|done].
  intros [= -> <-] y [_ Hy]%list_elem_of_filter. by eapply Forall_forall in Ha.
Qed.
End OptionFacts.

(** ** Properties *)

Module OptionProperties.
Import OptionFacts.

(** a validated model reserves exactly the GPUs it asks for, whichever way its options ask for
    them: none for a loader without a GPU backend here, one bundle per parallel slot for a vLLM
    model of several, and otherwise its [num_gpus] as a scalar; a vLLM model that sets only its
    parallelism reserves a GPU per slot. *)
Theorem reserves_what_it_asks environ darwin env c c' :
  validate_model c = Ok c' →
  1 ≤ tensor_parallel_size (vllm_engine_kwargs c) → 1 ≤ pipeline_parallel_size (vllm_engine_kwargs c) →
  QArith_base.Qeq (total_gpu_reservation (build_deployment_options environ darwin c' env))
    (if force_zero_gpu darwin c then inject_Z 0
     else if Qle_bool (num_gpus c) (inject_Z 0) && (1 <? world_size c) then inject_Z (world_size c)
     else num_gpus c).
Proof.
  intros H%ConfigFacts.validate_model_normalizes Htp Hpp.
  destruct (decide (loader c = vllm)) as [Ev|Ev].
  2:{ revert H. unfold normalize_num_gpus_and_tp. rewrite bool_decide_true by done. intros [= <-].
      unfold build_deployment_options, total_gpu_reservation.
      destruct (force_zero_gpu darwin c); [reflexivity|].
      assert (world_size c = 1) as -> by (unfold world_size; by rewrite decide_False).
      by rewrite andb_false_r. }
  rewrite force_zero_vllm by done.
  assert (world_size c = tensor_parallel_size (vllm_engine_kwargs c) * pipeline_parallel_size (vllm_engine_kwargs c)) as Hw.
  { unfold world_size. by rewrite decide_True. }
  assert (1 ≤ world_size c) as Hw1 by nia.
  destruct (Qle_bool (inject_Z 1) (num_gpus c)) eqn:H1.
  - pose proof H as H'. apply ConfigFacts.normalize_keeps_gpu_count in H' as [Hg Hq]; [|done..].
    assert (loader c' = vllm) as Hl'.
    { revert H. unfold normalize_num_gpus_and_tp. repeat case_match; intros; simplify_eq; by rewrite ?ConfigFacts.loader_with. }
    assert (Qle_bool (num_gpus c) (inject_Z 0) = false) as ->.
    { destruct (Qle_bool (num_gpus c) (inject_Z 0)) eqn:H0; [|done]. apply QArith_base.Qle_bool_iff in H0, H1.
      by pose proof (QArith_base.Qle_trans _ _ _ H1 H0). }
    assert (world_size c' = tensor_parallel_size (vllm_engine_kwargs c') * pipeline_parallel_size (vllm_engine_kwargs c')) as Hw'.
    { unfold world_size. by rewrite decide_True. }
    rewrite <-Hw' in Hq. apply QArith_base.Qle_bool_iff in H1. rewrite Hq in H1.
    rewrite <-QArith_base.Zle_Qle in H1. rewrite vllm_reservation by (done || lia). cbn.
    case_decide as E; [by rewrite Hg, Hq, E|by rewrite Hq].
  - assert (c' = c ∧ (Qle_bool (num_gpus c) (inject_Z 0) = true ∨ world_size c = 1)) as [-> Hcase].
    { revert H. unfold normalize_num_gpus_and_tp. rewrite bool_decide_false by auto. rewrite <-Hw.
      destruct (Qle_bool (num_gpus c) (inject_Z 0)) eqn:H0; [intros [= <-]; auto|].
      unfold Qlt_bool. rewrite H0, H1. cbn. destruct (1 <? world_size c) eqn:E; [done|].
      intros [= <-]. apply Z.ltb_ge in E. split; [done|]. right. lia. }
    rewrite vllm_reservation by (done || lia). case_decide as E.
    + rewrite E. by rewrite andb_false_r.
    + destruct Hcase as [->|]; [|done]. rewrite (proj2 (Z.ltb_lt _ _)) by lia. done.
Qed.

Lemma reserves_what_it_asks_witness :
  QArith_base.Qeq (total_gpu_reservation (build_deployment_options [] false
    (with_gpus_tp (inject_Z 1) (with_tp 4 default_vllm) Example.example_model) None)) (inject_Z 4).
Proof.
  apply (reserves_what_it_asks [] false None Example.example_model); [reflexivity|discriminate|discriminate].
Defined.

(** a request with a session goes to the replicas in an order that tries every candidate once
    and first the one its session ranks highest among those within the load limit; with a balance
    factor of at least one there always is one, so affinity never overrides an overloaded replica
    and never leaves a request without a replica. *)
Theorem affinity_within_limit {R} (score : string → R → Z) (load : R → Z) balance spare two_random rs key :
  rs ≠ [] → (∀ r, r ∈ rs → 0 ≤ load r) → QArith_base.Qle (inject_Z 1) balance → 0 ≤ spare → key ≠ ""%string →
  ∃ r rest, choose_replicas score load balance spare two_random rs (Some key) = [r] :: rest ∧
    concat ([r] :: rest) ≡ₚ rs ∧ Forall (λ g, length g = 1%nat) rest ∧
    QArith_base.Qle (inject_Z (load r)) (load_limit load balance spare rs) ∧
    ∀ r', r' ∈ rs → QArith_base.Qle (inject_Z (load r')) (load_limit load balance spare rs) →
      score key r' ≤ score key r.
Proof.
  intros Hne Hpos Hb Hs Hkey. destruct (least_fits load balance spare rs) as (f & Hf & Hfits); [done..|].
  unfold choose_replicas. destruct key as [|a key]; [done|]. destruct rs as [|r0 rs]; [done|].
  set (cands := r0 :: rs) in *. set (limit := load_limit _ _ _ _) in *. set (l := ranked _ _ _).
  assert (l ≡ₚ cands) as Hl by apply ranked_perm.
  destruct (filter (λ r, fits load limit r = true) l) as [|r k] eqn:E.
  { exfalso. assert (f ∈ filter (λ r, fits load limit r = true) l) as Hin.
    { apply list_elem_of_filter. by rewrite Hl. }
    rewrite E in Hin. by apply not_elem_of_nil in Hin. }
  exists r, ((λ r, [r]) <$> (k ++ filter (λ r, fits load limit r = false) l)).
  assert (∀ l' : list R, concat ((λ r, [r]) <$> l') = l') as Hcat.
  { induction l' as [|x l' IH]; [done|]. cbn. f_equal. exact IH. }
  assert (r ∈ filter (λ r, fits load limit r = true) l) as [Hr _]%list_elem_of_filter by (rewrite E; constructor).
  split_and!.
  - done.
  - change (concat ((λ r, [r]) <$> ((r :: k) ++ filter (λ r, fits load limit r = false) l)) ≡ₚ cands).
    by rewrite Hcat, <-E, filter_split.
  - by apply Forall_fmap, Forall_true.
  - by apply QArith_base.Qle_bool_iff.
  - intros r' Hr' Hfit%QArith_base.Qle_bool_iff. rewrite <-Hl in Hr'.
    assert (r' ∈ r :: k) as Hk by (rewrite <-E; by apply list_elem_of_filter).
    apply elem_of_cons in Hk as [->|Hk]; [done|].
    by apply (filter_first _ _ _ _ _ (ranked_sorted score (String a key) cands) E).
Qed.

Lemma affinity_within_limit_witness :
  ∃ r rest, choose_replicas (λ _ n, Z.of_nat n) (λ n, if decide (n = 3%nat) then 50 else 1)
      (QArith_base.Qmake 5 4) 2 [] [1; 3; 2]%nat (Some "s"%string) = [r] :: rest ∧ r = 2%nat.
Proof.
  destruct (affinity_within_limit (λ _ n, Z.of_nat n) (λ n, if decide (n = 3%nat) then 50 else 1)
      (QArith_base.Qmake 5 4) 2 [] [1; 3; 2]%nat "s") as (r & rest & Hr & _);
    [done|intros r _; by case_decide|done|done|done|].
  exists r, rest. split; [exact Hr|]. vm_compute in Hr. by injection Hr.
Defined.

(** a gateway's sizing is only accepted with positive replica bounds in order and a positive
    concurrency cap; its target can still be a not-a-number, which is not at most zero either. *)
Theorem sizing_bounds to_float environ g :
  gateway_sizing to_float environ = Ok g →
  1 ≤ gs_min_replicas g ≤ gs_max_replicas g ∧ 1 ≤ gs_max_ongoing g ∧
  match gs_target_ongoing g with FNum q => QArith_base.Qlt (inject_Z 0) q | FInf | FNaN => True | FNegInf => False end.
Proof.
  unfold gateway_sizing. intros (lo & Hlo & (hi & Hhi & ([] & Ho%raise_if_ok & (tg & Ht & (mx & Hm & [= <-])%res_bind_ok)%res_bind_ok)%res_bind_ok)%res_bind_ok)%res_bind_ok.
  assert (∀ n d v, 1 ≤ d → positive_number_env environ n d Str.to_int (λ n, n <=? 0) = Ok v → 1 ≤ v) as Hint.
  { intros n d v Hd. unfold positive_number_env. repeat case_match; intros; simplify_eq; [|done].
    match goal with H : (_ <=? 0) = false |- _ => apply Z.leb_gt in H end. lia. }
  apply Hint in Hlo, Hm; [|done..]. apply Z.ltb_ge in Ho. cbn. split_and!; [done..|].
  revert Ht. unfold positive_number_env. destruct (Dict.get _ _); [|by intros [= <-]].
  destruct (to_float s) as [[q| | |]|]; cbn; try done; [|by intros [= <-]..].
  destruct (Qle_bool q (inject_Z 0)) eqn:E; [done|]. intros [= <-].
  apply QArith_base.Qnot_le_lt. intros H%QArith_base.Qle_bool_iff. congruence.
Qed.

Lemma sizing_bounds_witness :
  gateway_sizing (λ s, if decide (s = "nan"%string) then Some FNaN else None)
    [("MSHIP_GATEWAY_TARGET_ONGOING_REQUESTS", "nan")]%string = Ok (mkSizing 1 4 FNaN 1024) ∧ 1 ≤ 4.
Proof.
  split; [reflexivity|].
  destruct (sizing_bounds (λ s, if decide (s = "nan"%string) then Some FNaN else None)
    [("MSHIP_GATEWAY_TARGET_ONGOING_REQUESTS", "nan")]%string (mkSizing 1 4 FNaN 1024)) as [[_ H] _]; [reflexivity|exact H].
Defined.

(** once every source is checked, each llama_server model is pinned to a GGUF file, and its
    mmproj too when it names one, and no vLLM model is. *)
Theorem checked_sources_fit exists_ check bundle cs pins :
  resolve_all_model_sources exists_ check bundle cs = Ok pins →
  Forall2 (λ c p, (loader c = llama_server → resolves_to_gguf p.1 = true) ∧
    (loader c = vllm → resolves_to_gguf p.1 = false) ∧
    (loader c = llama_server → ∀ l m, llama_server_config c = Some l → mmproj l = Some m → m ≠ ""%string →
       ∃ mm, p.2 = Some mm ∧ resolves_to_gguf mm = true)) cs pins.
Proof.
  unfold resolve_all_model_sources. intros H%res_mapM_ok. eapply Forall2_impl; [exact H|].
  clear. intros c p. unfold resolve_model_source.
  intros (m & _ & Hp)%res_bind_ok. case_decide as Es.
  { apply res_bind_ok in Hp as (q & _ & [= <-]). rewrite Es. split_and!; by intros. }
  apply res_bind_ok in Hp as (q & _ & (mm & Hmm & ([] & Hv%raise_if_ok & ([] & Hl%raise_if_ok & [= <-])%res_bind_ok)%res_bind_ok)%res_bind_ok).
  cbn. split_and!.
  - intros E. rewrite bool_decide_true in Hl by done. by apply negb_false_iff in Hl.
  - intros E. by rewrite bool_decide_true in Hv by done.
  - intros E l m' Hc Hm Hne. rewrite decide_True, Hc, Hm in Hmm by done.
    destruct m'; [done|]. apply res_bind_ok in Hmm as (x & _ & ([] & Hg%raise_if_ok & [= <-])%res_bind_ok).
    apply negb_false_iff in Hg. eauto.
Qed.
End OptionProperties.
