(* ===== verification/Worker.v ===== *)
(** * The deploy worker

    [src/modelship/deploy/worker.py], the actor that runs one deploy request or one rollback, and
    the submitting half of [src/modelship/deploy/strategy.py]. A worker is a sequential program
    over calls that may fail: to the deploy coordinator, to Serve, to the gateway coordinator and
    to the clock. [World] is whatever answers them; a run keeps every answered call in its trace.
    A loop runs for as long as its [fuel] lasts, and a run without fuel is one still under way. *)

From S2P Require Import Prelude Rounding StateStore DeployQueue ConfigSchema Ledger Diff DeployOptions.
Local Open Scope Z_scope.

(** ** Calls *)

(** [ApplicationStatusOverview], as far as the worker reads it. *)
Record App : Type := mkApp { a_status : ApplicationStatus; a_message : string }.

(** [LiveApp]: what Serve holds for an app's deployment; of its [runtime_env], the env vars. *)
Record LiveApp : Type := mkLive {
  live_config : ModelConfig;
  live_env_vars : dict string;
  live_version : string;
}.

(** The [RunTarget] handed to [serve.run_many], with its deployment's options. *)
Record Target : Type := mkTarget {
  t_name : string;
  t_config : ModelConfig;
  (** [num_replicas] or [autoscaling_config], never both *)
  t_scaling : Z + AutoscalingConfig;
  t_options : DeployOptions;
  t_version : option string;
}.

Inductive call : Type → Type :=
| IsCancelled (i : string) : call bool
| RollingBack (i gw : string) : call unit
| CrashLooping (apps : list string) : call (dict string)
| PopFatalError (app : string) : call (option string)
| ForgetDeaths (apps : list string) : call unit
| DiffOf (i gw : string) : call (option Diff)
| RollbackDiff (gw : string) : call (option Diff)
| Switch (i gw : string) (models : list json) : call Z
| ResetRouting (gw : string) : call Z
| Commit (i gw : string) (models : list json) : call (option Z)
(** one [wait_switched] asked of the gateway coordinator *)
| AskSwitched (gw : string) (routing left : Z) : call bool
| ServeStatus : call (dict App)
| ServeDelete (name : string) : call unit
| LiveAppOf (name : string) : call (option LiveApp)
| RunMany (target : Target) : call unit
(** [resolve_all_model_sources], which asks the Hugging Face hub and the file system *)
| ResolveSources (models : list ModelConfig) : call unit
(** [ray.cluster_resources().get("GPU", 0)] *)
| ClusterGpus : call Q.

(** An answered call; an [Err] is the exception it raised. *)
Inductive event : Type := | Called {A : Type} (c : call A) (r : res A).

(** What answers a worker: its calls, [time.monotonic()] and [time.sleep()]. *)
Class World (W : Type) : Type := {
  answer : ∀ {A}, call A → W → W * res A;
  clock : W → W * Z;
  pause : Z → W → W;
}.

(** ** Programs *)

(** The exceptions of the module, and any other. *)
Inductive wexn : Type :=
| RequestFailedError (reason : string)
| RequestCancelledError
| Raised (e : exn).

(** How a program ends, or [Stuck]: it is still running when its fuel is out. *)
Inductive ret (A : Type) : Type := Val (a : A) | Raise (e : wexn) | Stuck.
Arguments Val {A} a. Arguments Raise {A} e. Arguments Stuck {A}.

(** [Run]'s mutable attributes. *)
Record Run : Type := mkRun {
  switching : bool;
  unreadable_since : option Z;
  results : dict string;
  out_lines : list string;
  version : option Z;
  run_actions : dict Z;
}.

Definition new_run : Run := mkRun false None [] [] None [].

Definition set_switching (b : bool) (r : Run) : Run :=
  mkRun b (unreadable_since r) (results r) (out_lines r) (version r) (run_actions r).
Definition set_unreadable (u : option Z) (r : Run) : Run :=
  mkRun (switching r) u (results r) (out_lines r) (version r) (run_actions r).
Definition set_results (d : dict string) (r : Run) : Run :=
  mkRun (switching r) (unreadable_since r) d (out_lines r) (version r) (run_actions r).
Definition set_lines (l : list string) (r : Run) : Run :=
  mkRun (switching r) (unreadable_since r) (results r) l (version r) (run_actions r).
Definition set_version (v : option Z) (r : Run) : Run :=
  mkRun (switching r) (unreadable_since r) (results r) (out_lines r) v (run_actions r).
Definition set_actions (a : dict Z) (r : Run) : Run :=
  mkRun (switching r) (unreadable_since r) (results r) (out_lines r) (version r) a.

Record state (W : Type) : Type := mkState { world : W; trace : list event; self : Run }.
Arguments mkState {W}. Arguments world {W}. Arguments trace {W}. Arguments self {W}.

Definition worker_m (W A : Type) : Type := state W → state W * ret A.

#[export] Instance worker_ret W : MRet (worker_m W) := λ A a s, (s, Val a).
#[export] Instance worker_bind W : MBind (worker_m W) := λ A B f m s,
  match m s with
  | (s, Val a) => f a s
  | (s, Raise e) => (s, Raise e)
  | (s, Stuck) => (s, Stuck)
  end.

Section programs.
Context `{World W}.

Definition raise {A} (e : wexn) : worker_m W A := λ s, (s, Raise e).
Definition stuck {A} : worker_m W A := λ s, (s, Stuck).
Definition lift {A} (r : res A) : worker_m W A :=
  match r with Ok a => mret a | Err e => raise (Raised e) end.

(** [try: m except Exception as e: h(e)] *)
Definition catch {A} (m : worker_m W A) (h : wexn → worker_m W A) : worker_m W A := λ s,
  match m s with (s, Raise e) => h e s | r => r end.

Definition ask {A} (c : call A) : worker_m W A := λ s,
  let '(w, r) := answer c (world s) in
  (mkState w (trace s ++ [Called c r]) (self s), match r with Ok a => Val a | Err e => Raise (Raised e) end).

Definition monotonic : worker_m W Z := λ s,
  let '(w, n) := clock (world s) in (mkState w (trace s) (self s), Val n).
Definition sleep (d : Z) : worker_m W unit := λ s,
  (mkState (pause d (world s)) (trace s) (self s), Val tt).

Definition get_self : worker_m W Run := λ s, (s, Val (self s)).
Definition modify (f : Run → Run) : worker_m W unit := λ s,
  (mkState (world s) (trace s) (f (self s)), Val tt).

(** [while True], whose body continues with new loop variables or leaves with a result. *)
Fixpoint loop {A B} (n : nat) (body : A → worker_m W (A + B)) (a : A) : worker_m W B :=
  match n with
  | 0%nat => stuck
  | S n => r ← body a; match r with inl a => loop n body a | inr b => mret b end
  end.

(** [for] loops *)
Fixpoint for_each {A} (body : A → worker_m W unit) (l : list A) : worker_m W unit :=
  match l with [] => mret tt | x :: l => _ ← body x; for_each body l end.

(** A [for] over [list(pending.items())] that updates or drops each entry. *)
Fixpoint for_pending {A} (body : string → A → worker_m W (option A)) (l : dict A) : worker_m W (dict A) :=
  match l with
  | [] => mret []
  | (k, x) :: l =>
      r ← body k x;
      rest ← for_pending body l;
      mret (match r with Some x => (k, x) :: rest | None => rest end)
  end.
End programs.

(** ** The code *)

Definition POLL_SECONDS : Z := 2 * second.
Definition UNREADABLE_LIMIT : Z := 30 * second.
Definition MAX_TRANSIENT_FAILURES : nat := 3.
Definition RETRY_SLEEP : Z := 2 * second.

(** [_STARTS_AS] *)
Definition starts_as (a : action) : string :=
  match a with
  | Add | Replace | Redeploy => "coming up" | Rescale_ => "rescaling" | Keep => "unchanged" | Remove => ""
  end.

(** ["{type(e).__name__}: {e}"] *)
Definition exn_text (e : exn) : string :=
  match e with
  | ValueError m => "ValueError: " +:+ m | TypeError m => "TypeError: " +:+ m
  | KeyError m => "KeyError: '" +:+ m +:+ "'" | AssertionError => "AssertionError: "
  | FileNotFoundError m => "FileNotFoundError: " +:+ m | RuntimeError m => "RuntimeError: " +:+ m
  | NotImplementedError m => "NotImplementedError: " +:+ m
  | StateStoreUnavailableError => "StateStoreUnavailableError: " | CancelledError => "CancelledError: "
  | RayTaskError _ m | OtherError m => m
  | HTTPException n m => "HTTPException: " +:+ pretty n +:+ ": " +:+ m
  | ResponsesApiError err => "ResponsesApiError: " +:+ pretty (http_status err) +:+ ": " +:+ err_message err
  end.
Definition wexn_str (e : wexn) : string :=
  match e with RequestFailedError r => r | RequestCancelledError => "" | Raised e => exn_str e end.
Definition wexn_text (e : wexn) : string :=
  match e with
  | RequestFailedError r => "RequestFailedError: " +:+ r
  | RequestCancelledError => "RequestCancelledError: "
  | Raised e => exn_text e
  end.

(** [_Add] *)
Record Attempt : Type := mkAttempt {
  at_config : ModelConfig;
  failures : nat;
  last_error : string;
  (** set while waiting out the backoff before being submitted again *)
  retry_at : option Z;
  (** set once Serve reports the app, not being deleted *)
  seen : bool;
}.

Definition new_attempt (c : ModelConfig) : Attempt := mkAttempt c 0 "" None false.

Section worker.
Context `{Pydantic} `{DiffEnv} `{World W}.
(** The process's environment, whether it runs on macOS, and every loop's fuel. *)
Context (environ : dict string) (darwin : bool) (fuel : nat).
Notation M := (worker_m W).

(** *** Submits ([strategy.py]) *)

(** [_run] *)
Definition run_target (c : ModelConfig) (deployment : string) (opts : DeployOptions) (v : option string) : Target :=
  mkTarget deployment c
    (match autoscaling_config c with Some a => inr a | None => inl (num_replicas c) end) opts v.

Definition submit_target (c : ModelConfig) (gw : string) (env : dict string) : Target :=
  run_target c (deployment_name gw c) (build_deployment_options environ darwin c (Some env)) None.

Definition submit_app (c : ModelConfig) (gw : string) (env : dict string) : M unit :=
  ask (RunMany (submit_target c gw env)).

Definition with_env_vars (vars : dict string) (o : DeployOptions) : DeployOptions :=
  let a := ray_actor_options o in
  mkOptions (mkActor (ao_num_gpus a) (ao_num_cpus a) vars (ao_resources a))
    (placement_group_bundles o) (opt_max_ongoing_requests o).

Definition rescale_target (app : string) (live : LiveApp) (sc : Z * option AutoscalingConfig) : Target :=
  let c := with_scaling sc.1 sc.2 (live_config live) in
  run_target c app
    (with_env_vars (live_env_vars live) (build_deployment_options environ darwin c (Some [])))
    (Some (live_version live)).

Definition rescale_app (app : string) (live : LiveApp) (sc : Z * option AutoscalingConfig) : M unit :=
  ask (RunMany (rescale_target app live sc)).

(** *** Deletes *)

Definition read_until_readable : M (dict App) :=
  loop fuel (λ _ : unit,
    catch (apps ← ask ServeStatus; mret (inr apps)) (λ _, _ ← sleep POLL_SECONDS; mret (inl tt))) tt.

(** The deletes of one round of [delete_apps]. *)
Definition delete_round (apps : dict App) (left : gset string) : M unit :=
  for_each (λ n,
    match Dict.get n apps with
    | Some a =>
        if decide (a_status a = DELETING) then mret tt
        else catch (ask (ServeDelete n)) (λ _, mret tt)
    | None => mret tt
    end) (Sort.strings (elements left)).

Definition delete_apps (names : list string) (read : M (dict App)) : M unit :=
  loop fuel (λ left : gset string,
    apps ← read;
    let left := left ∩ list_to_set (Dict.keys apps) in
    if decide (left = ∅) then mret (inr tt)
    else
      _ ← delete_round apps left;
      _ ← sleep POLL_SECONDS;
      mret (inl left)) (list_to_set names).

(** *** Waiting for the gateway ([GatewayReplicas.wait_switched]) *)
Definition wait_switched (gw : string) (routing timeout : Z) : M bool :=
  t0 ← monotonic;
  let deadline := t0 + timeout in
  loop fuel (λ _ : unit,
    now ← monotonic;
    let left := deadline - now in
    if 0 <? left then
      catch (b ← ask (AskSwitched gw routing left); mret (inr b)) (λ _, _ ← sleep second; mret (inl tt))
    else mret (inr false)) tt.

(** *** Rollback *)

(** One app of [restore_scaling]: dropped once re-submitted, gone, or given up on. *)
Definition restore_one (deadline : Z) (app : string) (r : Rescale) : M (option Rescale) :=
  catch
    (live ← ask (LiveAppOf app);
     _ ← (match live with Some l => rescale_app app l (rs_scaling r) | None => mret tt end);
     mret None)
    (λ _, now ← monotonic; mret (if now <? deadline then Some r else None)).

Definition restore_scaling (rescales : list Rescale) : M unit :=
  let left := Dict.of_list ((λ r, (rs_app r, r)) <$> rescales) in
  t0 ← monotonic;
  let deadline := t0 + UNREADABLE_LIMIT in
  if left is [] then mret tt
  else loop fuel (λ left,
    left ← for_pending (restore_one deadline) left;
    if left is [] then mret (inr tt) else _ ← sleep POLL_SECONDS; mret (inl left)) left.

Definition roll_back (gw : string) (switching : bool) (switch_timeout : Z) : M (list string) :=
  routing ← ask (ResetRouting gw);
  _ ← (if switching then _ ← wait_switched gw routing switch_timeout; mret tt else mret tt);
  diff ← loop fuel (λ _ : unit,
    d ← ask (RollbackDiff gw);
    match d with Some d => mret (inr d) | None => _ ← sleep POLL_SECONDS; mret (inl tt) end) tt;
  _ ← delete_apps (leftovers diff) read_until_readable;
  _ ← restore_scaling (scale_downs diff ++ scale_ups diff);
  mret (leftovers diff).

(** *** A request *)

Context (request : DeployRequest) (switch_timeout : Z).

Definition set_result (model result : string) : M unit :=
  modify (λ r, set_results (Dict.set model result (results r)) r).

(** [_fail] *)
Definition fail {A} (model reason : string) : M A :=
  _ ← set_result model ("failed: " +:+ reason);
  raise (RequestFailedError ("model " +:+ py_repr (JStr model) +:+ ": " +:+ reason)).

(** [_unreadable] *)
Definition unreadable : M unit :=
  now ← monotonic;
  me ← get_self;
  since ← (match unreadable_since me with
           | Some since => mret since
           | None => _ ← modify (set_unreadable (Some now)); mret now
           end);
  if UNREADABLE_LIMIT <=? now - since
  then raise (RequestFailedError "Serve's status could not be read for 30 s") else mret tt.

(** [_try_read] *)
Definition try_read : M (option (dict App)) :=
  c ← ask (IsCancelled (id request));
  if c : bool then raise RequestCancelledError
  else
    apps ← catch (apps ← ask ServeStatus; mret (Some apps)) (λ _, _ ← unreadable; mret None);
    match apps with
    | Some apps => _ ← modify (set_unreadable None); mret (Some apps)
    | None => mret None
    end.

(** [_read] *)
Definition read : M (dict App) :=
  loop fuel (λ _ : unit,
    apps ← try_read;
    match apps with Some apps => mret (inr apps) | None => _ ← sleep POLL_SECONDS; mret (inl tt) end) tt.

(** [_diff] *)
Definition get_diff : M Diff :=
  loop fuel (λ _ : unit,
    c ← ask (IsCancelled (id request));
    if c : bool then raise RequestCancelledError
    else
      d ← ask (DiffOf (id request) (gateway request));
      match d with
      | Some d => _ ← modify (set_unreadable None); mret (inr d)
      | None => _ ← unreadable; _ ← sleep POLL_SECONDS; mret (inl tt)
      end) tt.

(** [_log], whose GPU demand is only logged but whose calls may raise. *)
Definition log (d : Diff) : M unit :=
  match diff_models d with
  | Some ((_ :: _) as models) => _ ← lift (validate_models models); _ ← ask ClusterGpus; mret tt
  | _ => mret tt
  end.

(** [_failed_attempt] *)
Definition failed_attempt (app : string) (item : Attempt) (message : string) : M Attempt :=
  fatal ← ask (PopFatalError app);
  match fatal with
  | Some f => fail (name (at_config item)) f
  | None =>
      let n := S (failures item) in
      if decide (MAX_TRANSIENT_FAILURES ≤ n)%nat then
        fail (name (at_config item)) (pretty n +:+ " failed attempts; last: " +:+ message)
      else
        now ← monotonic;
        mret (mkAttempt (at_config item) n message (Some (now + RETRY_SLEEP * 2 ^ Z.of_nat n)) (seen item))
  end.

(** [_submit] *)
Definition submit (app : string) (item : Attempt) : M Attempt :=
  r ← catch (_ ← submit_app (at_config item) (gateway request) (env request); mret None)
        (λ e, mret (Some (wexn_text e)));
  match r with Some text => failed_attempt app item text | None => mret item end.

(** One app's due resubmit in [_bring_up]. *)
Definition resubmit (now : Z) (app : string) (item : Attempt) : M (option Attempt) :=
  match retry_at item with
  | Some at_ =>
      if at_ <=? now then
        item ← submit app (mkAttempt (at_config item) (failures item) (last_error item) None (seen item));
        mret (Some item)
      else mret (Some item)
  | None => mret (Some item)
  end.

(** One app's poll in [_bring_up]: dropped once it is up. *)
Definition poll_up (statuses : dict App) (crashing : dict string) (app : string) (item : Attempt)
    : M (option Attempt) :=
  let model := name (at_config item) in
  _ ← (match Dict.get app crashing with
       | Some why => fail model ("its backend keeps dying: " +:+ why)
       | None => mret tt
       end);
  if retry_at item is Some _ then mret (Some item)
  else
    let gone := if seen item then fail model ("deployment " +:+ app +:+ " was deleted") else mret (Some item) in
    match Dict.get app statuses with
    | None => gone
    | Some a =>
        if decide (a_status a = DELETING) then gone
        else
          let item := mkAttempt (at_config item) (failures item) (last_error item) (retry_at item) true in
          if decide (a_status a = RUNNING) then _ ← set_result model "up"; mret None
          else if decide (a_status a = DEPLOY_FAILED) then
            item ← failed_attempt app item (a_message a); mret (Some item)
          else mret (Some item)
    end.

(** [_bring_up] *)
Definition bring_up (adds : list ModelConfig) : M unit :=
  let pending := Dict.of_list ((λ c, (deployment_name (gateway request) c, new_attempt c)) <$> adds) in
  if pending is [] then mret tt
  else
    _ ← ask (ForgetDeaths (Dict.keys pending));
    pending ← for_pending (λ app item, item ← submit app item; mret (Some item)) pending;
    loop fuel (λ pending : dict Attempt,
      if pending is [] then mret (inr tt)
      else
        _ ← sleep POLL_SECONDS;
        now ← monotonic;
        pending ← for_pending (resubmit now) pending;
        apps ← try_read;
        match apps with
        | None => mret (inl pending)
        | Some statuses =>
            crashing ← ask (CrashLooping (Dict.keys pending));
            pending ← for_pending (poll_up statuses crashing) pending;
            mret (inl pending)
        end) pending.

(** One app's submit in [_rescale]. *)
Definition rescale_submit (app : string) (r : Rescale) : M (option Rescale) :=
  _ ← ask (PopFatalError app);
  live ← catch
    (live ← ask (LiveAppOf app);
     _ ← (match live with Some l => rescale_app app l (rs_scaling r) | None => mret tt end);
     mret live)
    (λ e, fail (rs_model r) (wexn_text e));
  if live is None then fail (rs_model r) ("deployment " +:+ app +:+ " was deleted") else mret (Some r).

(** One app's poll in [_rescale]: dropped once it is up. *)
Definition poll_rescaled (statuses : dict App) (crashing : dict string) (app : string) (r : Rescale)
    : M (option Rescale) :=
  let model := rs_model r in
  _ ← (match Dict.get app crashing with
       | Some why => fail model ("its backend keeps dying: " +:+ why)
       | None => mret tt
       end);
  fatal ← ask (PopFatalError app);
  _ ← (match fatal with Some f => fail model f | None => mret tt end);
  match Dict.get app statuses with
  | None => fail model ("deployment " +:+ app +:+ " was deleted")
  | Some a =>
      if decide (a_status a = DELETING) then fail model ("deployment " +:+ app +:+ " was deleted")
      else if decide (a_status a = RUNNING) then
        me ← get_self;
        _ ← (if decide (Dict.get model (results me) = Some "rescaling"%string)
             then set_result model "rescaled" else mret tt);
        mret None
      else mret (Some r)
  end.

(** [_rescale] *)
Definition rescale (rescales : list Rescale) : M unit :=
  let pending := Dict.of_list ((λ r, (rs_app r, r)) <$> rescales) in
  if pending is [] then mret tt
  else
    _ ← ask (ForgetDeaths (Dict.keys pending));
    pending ← for_pending rescale_submit pending;
    loop fuel (λ pending : dict Rescale,
      if pending is [] then mret (inr tt)
      else
        _ ← sleep POLL_SECONDS;
        apps ← try_read;
        match apps with
        | None => mret (inl pending)
        | Some statuses =>
            crashing ← ask (CrashLooping (Dict.keys pending));
            pending ← for_pending (poll_rescaled statuses crashing) pending;
            mret (inl pending)
        end) pending.

(** [_switch_and_commit] *)
Definition switch_and_commit (proposed : list json) : M unit :=
  routing ← ask (Switch (id request) (gateway request) proposed);
  _ ← modify (set_switching true);
  b ← wait_switched (gateway request) routing switch_timeout;
  if negb b then
    raise (RequestFailedError ("gateway " +:+ py_repr (JStr (gateway request))
      +:+ " did not switch to the new models within " +:+ pretty (round_half_even switch_timeout second) +:+ " s"))
  else
    v ← ask (Commit (id request) (gateway request) proposed);
    match v with
    | None => raise RequestCancelledError
    | Some v => _ ← modify (set_switching false); modify (set_version (Some v))
    end.

(** [_apply], once the diff is there. *)
Definition apply_diff (d : Diff) : M unit :=
  _ ← modify (set_lines (lines d));
  _ ← for_each (λ ma, if decide (ma.2 = Remove) then mret tt else set_result ma.1 (starts_as ma.2)) (actions d);
  _ ← log d;
  _ ← (if deploys d is [] then mret tt
       else catch (ask (ResolveSources (deploys d))) (λ e, raise (RequestFailedError (wexn_str e))));
  _ ← delete_apps (leftovers d) read;
  _ ← rescale (scale_downs d);
  _ ← (if decide (strategy request = stop_start) then delete_apps (retired d) read else mret tt);
  _ ← bring_up (deploys d);
  _ ← rescale (scale_ups d);
  _ ← (if commits d then
         match diff_models d with
         | Some models => switch_and_commit models
         | None => raise (Raised AssertionError)
         end
       else mret tt);
  for_each (λ ma, if decide (ma.2 = Remove) then set_result ma.1 "removed" else mret tt) (actions d).

(** [_apply] *)
Definition apply : M Diff := d ← get_diff; _ ← apply_diff d; mret d.

(** [_outcome] *)
Definition outcome (state reason : string) : M DeployQueue.outcome :=
  me ← get_self;
  mret (DeployQueue.mkOutcome (id request) state reason (results me) (out_lines me) (version me) (run_actions me)).

(** [_rolled_back] *)
Definition rolled_back (state reason : string) : M DeployQueue.outcome :=
  _ ← ask (RollingBack (id request) (gateway request));
  me ← get_self;
  _ ← roll_back (gateway request) (switching me) switch_timeout;
  _ ← modify (λ r, set_results ((λ mr, (mr.1,
        if decide (mr.2 ∈ ["up"; "coming up"; "rescaled"; "rescaling"]%string) then "rolled back"%string else mr.2))
        <$> results r) r);
  outcome state reason.

(** [self._actions] of a request that succeeded *)
Definition action_counts (d : Diff) : dict Z :=
  filter (λ kv, kv.2 ≠ 0)
    [("add", Z.of_nat (length (deploys d))); ("remove", Z.of_nat (length (retired d)));
     ("rescale", Z.of_nat (length (filter (λ ma, ma.2 = Rescale_) (actions d))))]%string.

(** [execute], after [_apply] *)
Definition succeed (d : Diff) : M DeployQueue.outcome :=
  _ ← (if decide (strategy request = blue_green) then delete_apps (retired d) read_until_readable else mret tt);
  _ ← modify (λ r, set_actions (Dict.update (run_actions r) (action_counts d)) r);
  outcome "succeeded" "".

(** [execute] *)
Definition execute : M DeployQueue.outcome :=
  d ← catch (d ← apply; mret (inl d)) (λ e, mret (inr e));
  match d with
  | inl d => succeed d
  | inr RequestCancelledError => rolled_back "cancelled" "cancelled"
  | inr (RequestFailedError reason) => rolled_back "failed" reason
  | inr (Raised e) => rolled_back "failed" (exn_text e)
  end.
End worker.

(** [DeployWorker.run]: a request's run in a fresh worker. *)
Definition run `{Pydantic} `{DiffEnv} `{World W} (environ : dict string) (darwin : bool) (fuel : nat)
    (request : DeployRequest) (switch_timeout : Z) (w : W) : state W * ret DeployQueue.outcome :=
  execute environ darwin fuel request switch_timeout (mkState w [] new_run).
