(* ===== verification/WorkerLogic.v ===== *)
(** * Reasoning about worker programs

    [emits]: which calls a program adds to the trace; [triple]: what holds of the trace when a
    program returns, raises or is still running; and the rules of both for each construct of
    [Worker]. *)

From S2P Require Import Prelude StateStore ConfigSchema Ledger Diff DeployOptions Worker.
Local Open Scope Z_scope.

Section logic.
Context `{World W}.
Notation M := (worker_m W).
Implicit Types (C : event → Prop) (s : state W).

  (** ** Emitted calls

    The run appends only calls that satisfy [C] to its trace, and doesn't set the version. *)
Definition emits C {A} (m : M A) : Prop :=
  ∀ s, ∃ es, trace (m s).1 = trace s ++ es ∧ Forall C es ∧ version (self (m s).1) = version (self s).

Lemma emits_ret C {A} (a : A) : emits C (mret a : M A).
Proof. intros s. exists []. by rewrite app_nil_r. Qed.
Lemma emits_raise C {A} e : emits C (raise e : M A).
Proof. intros s. exists []. by rewrite app_nil_r. Qed.
Lemma emits_lift C {A} (r : res A) : emits C (lift r : M A).
Proof. destruct r; [apply emits_ret|apply emits_raise]. Qed.
Lemma emits_stuck C {A} : emits C (stuck : M A).
Proof. intros s. exists []. by rewrite app_nil_r. Qed.
Lemma emits_get C : emits C (get_self : M Run).
Proof. intros s. exists []. by rewrite app_nil_r. Qed.
Lemma emits_modify C f : (∀ r, version (f r) = version r) → emits C (modify f : M unit).
Proof. intros Hf s. exists []. cbn. by rewrite app_nil_r, Hf. Qed.
Lemma emits_monotonic C : emits C (monotonic : M Z).
Proof. intros s. exists []. unfold monotonic. destruct (clock _). cbn. by rewrite app_nil_r. Qed.
Lemma emits_sleep C d : emits C (sleep d : M unit).
Proof. intros s. exists []. cbn. by rewrite app_nil_r. Qed.

Lemma emits_ask C {A} (c : call A) : (∀ r, C (Called c r)) → emits C (ask c : M A).
Proof.
  intros Hc s. unfold ask. destruct (answer c (world s)) as [w r]. exists [Called c r]. cbn.
  split; [done|]. split; [|done]. by constructor.
Qed.

Lemma emits_bind C {A B} (m : M A) (f : A → M B) :
  emits C m → (∀ a, emits C (f a)) → emits C (m ≫= f).
Proof.
  intros Hm Hf s. unfold mbind, worker_bind. destruct (Hm s) as (es & Ht & Hes & Hv).
  destruct (m s) as [s' [a|e|]]; [|by exists es..]. cbn in *.
  destruct (Hf a s') as (es' & Ht' & Hes' & Hv'). exists (es ++ es').
  rewrite Ht', Ht, app_assoc. split; [done|]. split; [by apply Forall_app|congruence].
Qed.

Lemma emits_catch C {A} (m : M A) h : emits C m → (∀ e, emits C (h e)) → emits C (catch m h).
Proof.
  intros Hm Hh s. unfold catch. destruct (Hm s) as (es & Ht & Hes & Hv).
  destruct (m s) as [s' [a|e|]]; [by exists es| |by exists es]. cbn in *.
  destruct (Hh e s') as (es' & Ht' & Hes' & Hv'). exists (es ++ es').
  rewrite Ht', Ht, app_assoc. split; [done|]. split; [by apply Forall_app|congruence].
Qed.

(** A loop whose variables keep an invariant. *)
Lemma emits_loop_inv C {A B} n (body : A → M (A + B)) a (I : A → Prop) :
  I a → (∀ a, I a → emits C (body a)) →
  (∀ a s s' a', I a → body a s = (s', Val (inl a')) → I a') → emits C (loop n body a).
Proof.
  intros Ha Hb HI. revert a Ha. induction n as [|n IH]; intros a Ha s; [by apply emits_stuck|].
  cbn [loop]. unfold mbind, worker_bind. destruct (Hb a Ha s) as (es & Ht & Hes & Hv).
  destruct (body a s) as [s' [r|e|]] eqn:E; [|by exists es..]. cbn in Ht, Hv.
  destruct r as [a'|b]; [|by exists es].
  destruct (IH a' (HI _ _ _ _ Ha E) s') as (es' & Ht' & Hes' & Hv'). exists (es ++ es').
  rewrite Ht', Ht, app_assoc. split; [done|]. split; [by apply Forall_app|congruence].
Qed.

Lemma emits_loop C {A B} n (body : A → M (A + B)) a :
  (∀ a, emits C (body a)) → emits C (loop n body a).
Proof. intros Hb. by apply (emits_loop_inv _ _ _ _ (λ _, True)). Qed.

Lemma emits_for_each C {A} (body : A → M unit) l :
  (∀ x, x ∈ l → emits C (body x)) → emits C (for_each body l).
Proof.
  induction l as [|x l IH]; cbn [for_each]; intros Hb; [apply emits_ret|].
  apply emits_bind; [apply Hb; constructor|]. intros _. apply IH. intros. apply Hb. by constructor.
Qed.

Lemma emits_for_pending C {A} (body : string → A → M (option A)) l :
  (∀ k x, emits C (body k x)) → emits C (for_pending body l).
Proof.
  intros Hb. induction l as [|[k x] l IH]; cbn [for_pending]; [apply emits_ret|].
  apply emits_bind; [done|]. intros r. apply emits_bind; [done|]. intros. apply emits_ret.
Qed.

Lemma emits_mono C C' {A} (m : M A) : (∀ e, C e → C' e) → emits C m → emits C' m.
Proof. intros HC Hm s. destruct (Hm s) as (es & ? & ? & ?). exists es. eauto using Forall_impl. Qed.

  (** ** Triples

    From a state with [P], the program returns [a] in a state with [Q a]; where it raises, or is
    still running, [E] holds. *)
Definition triple {A} (P : state W → Prop) (m : M A) (Q : A → state W → Prop) (E : state W → Prop) : Prop :=
  ∀ s, P s → match m s with (s', Val a) => Q a s' | (s', _) => E s' end.

Lemma triple_ret {A} (a : A) (P : state W → Prop) Q E : (∀ s, P s → Q a s) → triple P (mret a) Q E.
Proof. intros HP s Hs. by apply HP. Qed.

Lemma triple_raise {A} e (P E : state W → Prop) Q : (∀ s, P s → E s) → triple P (raise e : M A) Q E.
Proof. intros HP s Hs. by apply HP. Qed.

Lemma triple_bind {A B} (m : M A) (f : A → M B) P R Q E :
  triple P m R E → (∀ a, triple (R a) (f a) Q E) → triple P (m ≫= f) Q E.
Proof.
  intros Hm Hf s Hs. unfold mbind, worker_bind. specialize (Hm s Hs).
  destruct (m s) as [s' [a|e|]]; [|done..]. by apply Hf.
Qed.

Lemma triple_catch {A} (m : M A) h P Q E E' :
  triple P m Q E' → (∀ s, E' s → E s) → (∀ e, triple E' (h e) Q E) → triple P (catch m h) Q E.
Proof.
  intros Hm HE Hh s Hs. unfold catch. specialize (Hm s Hs).
  destruct (m s) as [s' [a|e|]]; [done| |by apply HE]. by apply Hh.
Qed.

Lemma triple_loop {A B} n (body : A → M (A + B)) a (I : A → state W → Prop) Q E :
  (∀ a s, I a s → E s) →
  (∀ a, triple (I a) (body a) (λ r, match r with inl a => I a | inr b => Q b end) E) →
  triple (I a) (loop n body a) Q E.
Proof.
  intros HE Hb. revert a. induction n as [|n IH]; intros a s Hs; [by eapply HE|].
  cbn [loop]. refine (triple_bind _ _ (I a) _ Q E (Hb a) _ s Hs).
  intros [a'|b]; [apply IH|]. by apply triple_ret.
Qed.

Lemma triple_mono {A} (m : M A) P P' Q Q' E E' :
  triple P m Q E → (∀ s, P' s → P s) → (∀ a s, Q a s → Q' a s) → (∀ s, E s → E' s) → triple P' m Q' E'.
Proof.
  intros Hm HP HQ HE s Hs. specialize (Hm s (HP s Hs)). destruct (m s) as [s' [a|e|]]; auto.
Qed.

(** What holds of a program's trace and version whatever it adds of the calls it makes. *)
Lemma emits_triple C (I : list event → option Z → Prop) {A} (m : M A) :
  emits C m → (∀ tr es v, I tr v → Forall C es → I (tr ++ es) v) →
  triple (λ s, I (trace s) (version (self s))) m (λ _ s, I (trace s) (version (self s)))
    (λ s, I (trace s) (version (self s))).
Proof.
  intros Hm HI s Hs. destruct (Hm s) as (es & Ht & Hes & Hv).
  assert (I (trace (m s).1) (version (self (m s).1))) as Hs' by (rewrite Ht, Hv; auto).
  by destruct (m s) as [s' [a|e|]].
Qed.

Lemma triple_ask {A} (c : call A) (P E : state W → Prop) Q :
  (∀ s w r, P s → let s' := mkState w (trace s ++ [Called c r]) (self s) in
     match r with Ok a => Q a s' | Err _ => E s' end) → triple P (ask c) Q E.
Proof.
  intros Hc s Hs. unfold ask. destruct (answer c (world s)) as [w r]. specialize (Hc s w r Hs).
  cbn in Hc. by destruct r.
Qed.

  (** ** Programs that raise nothing *)

Definition no_raise {A} (m : M A) : Prop := ∀ s, if (m s).2 is Raise _ then False else True.

Lemma no_raise_ret {A} (a : A) : no_raise (mret a : M A).
Proof. done. Qed.
Lemma no_raise_modify f : no_raise (modify f : M unit).
Proof. done. Qed.
Lemma no_raise_get : no_raise (get_self : M Run).
Proof. done. Qed.
Lemma no_raise_sleep d : no_raise (sleep d : M unit).
Proof. done. Qed.
Lemma no_raise_monotonic : no_raise (monotonic : M Z).
Proof. intros s. unfold monotonic. by destruct (clock _). Qed.
Lemma no_raise_bind {A B} (m : M A) (f : A → M B) : no_raise m → (∀ a, no_raise (f a)) → no_raise (m ≫= f).
Proof.
  intros Hm Hf s. unfold mbind, worker_bind. specialize (Hm s).
  destruct (m s) as [s' [a|e|]]; [apply Hf|done..].
Qed.
Lemma no_raise_catch {A} (m : M A) h : (∀ e, no_raise (h e)) → no_raise (catch m h).
Proof. intros Hh s. unfold catch. destruct (m s) as [s' [a|e|]]; [done|apply Hh|done]. Qed.
Lemma no_raise_loop {A B} n (body : A → M (A + B)) a : (∀ a, no_raise (body a)) → no_raise (loop n body a).
Proof.
  intros Hb. revert a. induction n as [|n IH]; intros a; [done|]. cbn [loop].
  apply no_raise_bind; [done|]. intros [a'|b]; [apply IH|done].
Qed.
Lemma no_raise_for_each {A} (body : A → M unit) l : (∀ x, no_raise (body x)) → no_raise (for_each body l).
Proof.
  intros Hb. induction l as [|x l IH]; [done|]. cbn [for_each]. by apply no_raise_bind.
Qed.
Lemma no_raise_for_pending {A} (body : string → A → M (option A)) l :
  (∀ k x, no_raise (body k x)) → no_raise (for_pending body l).
Proof.
  intros Hb. induction l as [|[k x] l IH]; [done|]. cbn [for_pending].
  apply no_raise_bind; [done|]. intros r. apply no_raise_bind; [done|]. done.
Qed.

(** A program that raises nothing only leaves its triple's [E] where it is still running. *)
Lemma triple_no_raise {A} (m : M A) P Q E s :
  triple P m Q E → no_raise m → P s →
  match m s with (s', Val a) => Q a s' | (s', Raise _) => False | (s', Stuck) => E s' end.
Proof. intros Hm Hn Hs. specialize (Hm s Hs). specialize (Hn s). by destruct (m s) as [s' [a|e|]]. Qed.

  (** ** Loops over pending apps

    The trace relates to each pending app on its own: [P] of the apps a round has yet to come
    to, [Q] of those it has kept, [D] of those it has dropped. *)
Lemma triple_for_pending {A} (body : string → A → M (option A)) (P Q : string → A → list event → Prop)
    (D : string → list event → Prop) (E : list event → Prop) l :
  NoDup (Dict.keys l) →
  (∀ k x, triple (λ s, P k x (trace s) ∧ E (trace s)) (body k x)
     (λ r s, match r with Some x => Q k x (trace s) | None => D k (trace s) end ∧ E (trace s))
     (λ s, E (trace s))) →
  (∀ k x s k', P k x (trace s) → k' ≠ k → let tr := trace s in let tr' := trace (body k x s).1 in
     (∀ x', P k' x' tr → P k' x' tr') ∧ (∀ x', Q k' x' tr → Q k' x' tr') ∧ (D k' tr → D k' tr')) →
  triple (λ s, (∀ k x, (k, x) ∈ l → P k x (trace s)) ∧ E (trace s)) (for_pending body l)
    (λ l' s, NoDup (Dict.keys l') ∧ (∀ k x, (k, x) ∈ l' → Q k x (trace s)) ∧
       (∀ k, k ∈ Dict.keys l' → k ∈ Dict.keys l) ∧
       (∀ k, k ∈ Dict.keys l → k ∈ Dict.keys l' ∨ D k (trace s)) ∧ E (trace s))
    (λ s, E (trace s)).
Proof.
  intros Hnd Hb Hf.
  enough (∀ s, (∀ k x, (k, x) ∈ l → P k x (trace s)) → E (trace s) →
    match for_pending body l s with
    | (s', Val l') =>
        (NoDup (Dict.keys l') ∧ (∀ k x, (k, x) ∈ l' → Q k x (trace s')) ∧
         (∀ k, k ∈ Dict.keys l' → k ∈ Dict.keys l) ∧
         (∀ k, k ∈ Dict.keys l → k ∈ Dict.keys l' ∨ D k (trace s')) ∧ E (trace s')) ∧
        ∀ k, k ∉ Dict.keys l →
          (∀ x, Q k x (trace s) → Q k x (trace s')) ∧ (D k (trace s) → D k (trace s'))
    | (s', _) => E (trace s')
    end) as Hgo.
  { intros s [HP HE]. specialize (Hgo s HP HE). destruct (for_pending body l s) as [s' [l'|e|]]; [|done..].
    apply Hgo. }
  induction l as [|[k x] l IH]; intros s HP HE.
  { cbn. split; [|by intros]. split_and!; [constructor|by intros ?? ?%elem_of_nil|done|by intros ? ?%elem_of_nil|done]. }
  apply NoDup_cons in Hnd as [Hk Hnd]. cbn [for_pending]. unfold mbind, worker_bind.
  assert (P k x (trace s)) as HPk by (apply HP; constructor).
  pose proof (Hb k x s (conj HPk HE)) as H1. pose proof (λ k', Hf k x s k' HPk) as Hf1. cbv zeta in Hf1.
  destruct (body k x s) as [s1 [r|e|]]; [|done..]. destruct H1 as [Hr HE1]. cbn in Hf1.
  assert (∀ k' x', (k', x') ∈ l → P k' x' (trace s1)) as HP1.
  { intros k' x' Hin. apply Hf1; [|apply HP; by constructor]. intros ->. apply Hk.
    apply list_elem_of_fmap. by exists (k, x'). }
  specialize (IH Hnd s1 HP1 HE1).
  destruct (for_pending body l s1) as [s2 [l'|e|]]; [|done..].
  destruct IH as [(Hnd' & HQ & Hsub & Hcov & HE2) Hframe]. destruct (Hframe k Hk) as [HqF HdF]. cbn.
  split.
  2: { intros k' [Hne Hk']%not_elem_of_cons. destruct (Hframe k' Hk') as [Hq2 Hd2].
       destruct (Hf1 k' Hne) as (_ & Hq1 & Hd1). auto. }
  destruct r as [x'|].
  - split_and!; [..|done].
    + constructor; [|done]. intros Hin. by apply Hk, Hsub.
    + intros k' y [[= -> ->]|Hin]%elem_of_cons; auto.
    + intros k' [->|Hin]%elem_of_cons; constructor. by apply Hsub.
    + intros k' [->|Hin]%elem_of_cons; [left; constructor|].
      destruct (Hcov k' Hin); [left; by constructor|by right].
  - split_and!; [done|done| |intros k' [->|Hin]%elem_of_cons|done]; [|by right; auto|by apply Hcov].
    intros k' Hin. right. by apply Hsub.
Qed.

Lemma triple_and {A} (m : M A) P P' Q Q' E E' :
  triple P m Q E → triple P' m Q' E' →
  triple (λ s, P s ∧ P' s) m (λ a s, Q a s ∧ Q' a s) (λ s, E s ∧ E' s).
Proof. intros Hm Hm' s [Hs Hs']. specialize (Hm s Hs). specialize (Hm' s Hs'). by destruct (m s) as [s' [a|e|]]. Qed.

  (** ** What a growing trace keeps *)

Definition monotone (K : list event → Prop) : Prop := ∀ tr es, K tr → K (tr ++ es).

Lemma monotone_and K K' : monotone K → monotone K' → monotone (λ tr, K tr ∧ K' tr).
Proof. intros HK HK' tr es [??]. split; auto. Qed.

Lemma monotone_all {A} (K : A → list event → Prop) : (∀ x, monotone (K x)) → monotone (λ tr, ∀ x, K x tr).
Proof. intros HK tr es Ht x. by apply HK. Qed.

Lemma monotone_imp (P : Prop) K : monotone K → monotone (λ tr, P → K tr).
Proof. intros HK tr es Ht HP. auto. Qed.

Lemma monotone_in e : monotone (λ tr, e ∈ tr).
Proof. intros tr es Hin. cbv beta. apply elem_of_app. by left. Qed.

Lemma keeps_monotone K {A} (m : M A) C :
  monotone K → emits C m → triple (λ s, K (trace s)) m (λ _ s, K (trace s)) (λ s, K (trace s)).
Proof.
  intros HK Hm. eapply (emits_triple _ (λ tr _, K tr)); [exact Hm|]. intros. by apply HK.
Qed.

Lemma triple_for_pending_mono {A} (body : string → A → M (option A)) (P Q : string → A → list event → Prop)
    (D : string → list event → Prop) l :
  NoDup (Dict.keys l) →
  (∀ k x, monotone (P k x)) → (∀ k x, monotone (Q k x)) → (∀ k, monotone (D k)) →
  (∀ k x, emits (λ _, True) (body k x)) →
  (∀ k x, triple (λ s, P k x (trace s)) (body k x)
     (λ r s, match r with Some x => Q k x (trace s) | None => D k (trace s) end) (λ _, True)) →
  triple (λ s, ∀ k x, (k, x) ∈ l → P k x (trace s)) (for_pending body l)
    (λ l' s, NoDup (Dict.keys l') ∧ (∀ k x, (k, x) ∈ l' → Q k x (trace s)) ∧
       (∀ k, k ∈ Dict.keys l → k ∈ Dict.keys l' ∨ D k (trace s)))
    (λ _, True).
Proof.
  intros Hnd HP HQ HD He Hb. eapply triple_mono.
  - apply (triple_for_pending body P Q D (λ _, True)); [done|..].
    + intros k x s [Hs _]. specialize (Hb k x s Hs). by destruct (body k x s) as [s' [r|e|]].
    + intros k x s k' _ _. cbn. destruct (He k x s) as (es & -> & _).
      split_and!; intros *; [apply HP|apply HQ|apply HD].
  - intros s Hs. by split.
  - by intros l' s (? & ? & _ & ? & _).
  - done.
Qed.

  (** ** Rules on prefixes of the trace

      Each call satisfies a rule about the calls before it. *)
  Section prefixes.
Context (rule : list event → event → Prop).

Definition obeyed (tr : list event) : Prop := ∀ tr1 e tr2, tr = tr1 ++ e :: tr2 → rule tr1 e.

Lemma obeyed_nil : obeyed [].
Proof. by intros [] ? ?. Qed.

Lemma obeyed_app K tr es :
  monotone K → obeyed tr → K tr → Forall (λ e, ∀ tr', K tr' → rule tr' e) es → obeyed (tr ++ es).
Proof.
  intros HK Htr Hk. induction es as [|e es IH] using rev_ind; intros Hes; [by rewrite app_nil_r|].
  apply Forall_app in Hes as [Hes He]. apply Forall_cons in He as [He _]. specialize (IH Hes).
  intros tr1 e' tr2. rewrite app_assoc. destruct tr2 as [|e2 tr2 _] using rev_ind.
  - intros [<- <-]%app_inj_tail. apply He. by apply HK.
  - rewrite app_comm_cons, app_assoc. intros [Heq _]%app_inj_tail. by eapply IH.
Qed.

(** A part of a program that, knowing [K], obeys the rule. *)
Lemma obeys K {A} (m : M A) :
  monotone K → emits (λ e, ∀ tr, K tr → rule tr e) m →
  triple (λ s, obeyed (trace s) ∧ K (trace s)) m (λ _ s, obeyed (trace s) ∧ K (trace s))
    (λ s, obeyed (trace s) ∧ K (trace s)).
Proof.
  intros HK Hm. eapply (emits_triple _ (λ tr _, obeyed tr ∧ K tr)); [exact Hm|].
  intros tr es _ [Htr Hk] Hes. split; [by eapply obeyed_app|by apply HK].
Qed.
  End prefixes.
End logic.

(** Decomposes a program into the calls it makes. *)
Ltac emits_step :=
  match goal with
  | |- emits _ (mret _) => apply emits_ret
  | |- emits _ (raise _) => apply emits_raise
  | |- emits _ (lift _) => apply emits_lift
  | |- emits _ stuck => apply emits_stuck
  | |- emits _ get_self => apply emits_get
  | |- emits _ monotonic => apply emits_monotonic
  | |- emits _ (sleep _) => apply emits_sleep
  | |- emits _ (modify _) => apply emits_modify; done
  | |- emits _ (ask _) => apply emits_ask; intros ?; cbn
  | |- emits _ (catch _ _) => apply emits_catch; [|intros ?]
  | |- emits _ (loop _ _ _) => apply emits_loop; intros ?
  | |- emits _ (for_each _ _) => apply emits_for_each; intros ? ?
  | |- emits _ (for_pending _ _) => apply emits_for_pending; intros ? ?
  | |- emits _ (_ ≫= _) => apply emits_bind; [|intros ?]
  | |- emits _ (match ?x with _ => _ end) => destruct x
  | |- emits _ (let _ := _ in _) => cbv zeta
  end.

Ltac no_raise_step :=
  match goal with
  | |- no_raise (mret _) => apply no_raise_ret
  | |- no_raise (modify _) => apply no_raise_modify
  | |- no_raise get_self => apply no_raise_get
  | |- no_raise (sleep _) => apply no_raise_sleep
  | |- no_raise monotonic => apply no_raise_monotonic
  | |- no_raise (catch _ _) => apply no_raise_catch; intros ?
  | |- no_raise (loop _ _ _) => apply no_raise_loop; intros ?
  | |- no_raise (for_each _ _) => apply no_raise_for_each; intros ?
  | |- no_raise (for_pending _ _) => apply no_raise_for_pending; intros ? ?
  | |- no_raise (_ ≫= _) => apply no_raise_bind; [|intros ?]
  | |- no_raise (match ?x with _ => _ end) => destruct x
  | |- no_raise (let _ := _ in _) => cbv zeta
  end.
