(* ===== verification/WorkerOrder.v ===== *)
(** * The order of a deploy worker's calls

    The phases of a request by its worker's calls, as a step relation, and that every run of
    [Worker.execute] follows it: the order of calls [DeployQueue.exec] relies on. *)

From S2P Require Import Prelude StateStore DeployQueue ConfigSchema Ledger Diff DeployOptions Worker WorkerLogic.
Local Open Scope Z_scope.

(** ** The order of a worker's calls *)

(** How far a request is, by its calls so far. *)
Inductive phase : Type :=
| Deploying
| Switched (routing : Z) (models : list json)
| Held (models : list json)
| Doomed
| Committed (version : Z)
| Undoing.

Definition undoable (ph : phase) : Prop := match ph with Deploying | Switched _ _ | Doomed => True | _ => False end.

Section order.
(** The request's id and gateway, and how it replaces apps. *)
Context (i gw : string) (st : ReplaceStrategy).

Definition deploying_call {A} (c : call A) : bool :=
  match c with
  | IsCancelled _ | CrashLooping _ | PopFatalError _ | ForgetDeaths _ | DiffOf _ _ | ServeStatus
  | ServeDelete _ | LiveAppOf _ | RunMany _ | ResolveSources _ | ClusterGpus => true
  | _ => false
  end.
Definition retiring_call {A} (c : call A) : bool :=
  match c with ServeStatus => true | ServeDelete _ => bool_decide (st = blue_green) | _ => false end.
Definition undoing_call {A} (c : call A) : bool :=
  match c with
  | ResetRouting g | RollbackDiff g | AskSwitched g _ _ => bool_decide (g = gw)
  | ServeStatus | ServeDelete _ | LiveAppOf _ | RunMany _ => true
  | _ => false
  end.

Definition plain_call {A} (c : call A) : bool :=
  match c with
  | IsCancelled _ | CrashLooping _ | PopFatalError _ | ForgetDeaths _ | DiffOf _ _ | ServeStatus
  | LiveAppOf _ | ResolveSources _ | ClusterGpus => true
  | _ => false
  end.

(** A call a worker may make, and where it leads. *)
Inductive legal : phase → event → phase → Prop :=
| legal_deploy {A} (c : call A) r : deploying_call c = true → legal Deploying (Called c r) Deploying
| legal_switch ms n : legal Deploying (Called (Switch i gw ms) (Ok n)) (Switched n ms)
| legal_switch_raises ms e : legal Deploying (Called (Switch i gw ms) (Err e)) Doomed
| legal_wait n ms left r : r ≠ Ok true → legal (Switched n ms) (Called (AskSwitched gw n left) r) (Switched n ms)
| legal_held n ms left : legal (Switched n ms) (Called (AskSwitched gw n left) (Ok true)) (Held ms)
| legal_commit ms v : legal (Held ms) (Called (Commit i gw ms) (Ok (Some v))) (Committed v)
| legal_refused ms r : (∀ v, r ≠ Ok (Some v)) → legal (Held ms) (Called (Commit i gw ms) r) Doomed
| legal_retire {A} v (c : call A) r : retiring_call c = true → legal (Committed v) (Called c r) (Committed v)
| legal_roll_back ph r : undoable ph → legal ph (Called (RollingBack i gw) r) Undoing
| legal_undo {A} (c : call A) r : undoing_call c = true → legal Undoing (Called c r) Undoing.

(** A worker's calls so far. *)
Inductive legal_run : list event → phase → Prop :=
| legal_nil : legal_run [] Deploying
| legal_snoc tr ph e ph' : legal_run tr ph → legal ph e ph' → legal_run (tr ++ [e]) ph'.
End order.

Module WorkerFacts.
Section facts.
Context `{Pydantic} `{DiffEnv} `{World W}.
Context (environ : dict string) (darwin : bool) (fuel : nat) (request : DeployRequest) (switch_timeout : Z).
Notation M := (worker_m W).
Notation gw := (gateway request).
Notation i := (id request).
Notation st := (strategy request).

  (** ** Calls of each part *)

  Section calls.
Context (C : event → Prop).

Lemma emits_read_until_readable :
  (∀ r, C (Called ServeStatus r)) → emits C (read_until_readable fuel : M _).
Proof. intros. unfold read_until_readable. repeat emits_step; auto. Qed.

Lemma emits_delete_apps names (rd : M (dict App)) :
  (∀ n r, n ∈ names → C (Called (ServeDelete n) r)) → emits C rd → emits C (delete_apps fuel names rd).
Proof.
  intros Hd Hr. unfold delete_apps.
  apply (emits_loop_inv _ _ _ _ (λ left : gset string, left ⊆ list_to_set names)); [done|..].
  - intros left Hl. apply emits_bind; [done|]. intros apps. cbv zeta. case_decide; [apply emits_ret|].
    apply emits_bind; [|intros _; repeat emits_step]. unfold delete_round.
    apply emits_for_each. intros n Hn. unfold Sort.strings in Hn. rewrite Sort.elem_of_sort, elem_of_elements in Hn.
    repeat emits_step. apply Hd. set_solver.
  - intros left s s' left' Hl E. unfold mbind, worker_bind in E.
    destruct (rd s) as [s1 [apps|e|]]; [|done..]. cbv zeta in E. case_decide; [done|].
    destruct (delete_round _ _ s1) as [s2 [u|e|]]; [|done..]. injection E as <- <-. set_solver.
Qed.

Lemma emits_wait_switched routing timeout :
  (∀ left r, C (Called (AskSwitched gw routing left) r)) → emits C (wait_switched fuel gw routing timeout : M _).
Proof. intros. unfold wait_switched. repeat emits_step; auto. Qed.

Lemma emits_rescale_app app live sc :
  (∀ t r, is_Some (t_version t) → C (Called (RunMany t) r)) → emits C (rescale_app environ darwin app live sc : M _).
Proof. intros Ht. unfold rescale_app. repeat emits_step. apply Ht. by eexists. Qed.

Lemma emits_restore_scaling rs :
  (∀ n r, C (Called (LiveAppOf n) r)) → (∀ t r, is_Some (t_version t) → C (Called (RunMany t) r)) →
  emits C (restore_scaling environ darwin fuel rs : M _).
Proof.
  intros Hl Ht. unfold restore_scaling, restore_one. cbv zeta. repeat emits_step; auto using emits_rescale_app.
Qed.

(** Any calls that neither delete nor submit, nor move the request on. *)
Context (Hplain : ∀ A (c : call A) r, plain_call c = true → C (Called c r)).

Local Ltac calls := repeat (emits_step || (apply Hplain; reflexivity)).

Lemma emits_unreadable : emits C (unreadable : M _).
Proof. unfold unreadable. calls. Qed.

Lemma emits_try_read : emits C (try_read request : M _).
Proof. unfold try_read. calls. apply emits_unreadable. Qed.

Lemma emits_read : emits C (read fuel request : M _).
Proof. unfold read. calls. apply emits_try_read. Qed.

Lemma emits_fail {A} model reason : emits C (fail model reason : M A).
Proof. unfold fail, set_result. calls. Qed.

Lemma emits_get_diff : emits C (get_diff fuel request : M _).
Proof. unfold get_diff. calls. apply emits_unreadable. Qed.

Lemma emits_log d : emits C (log d : M _).
Proof. unfold log. calls. Qed.

Lemma emits_rescale rs :
  (∀ t r, is_Some (t_version t) → C (Called (RunMany t) r)) → emits C (rescale environ darwin fuel request rs : M _).
Proof.
  intros Ht. unfold rescale, rescale_submit, poll_rescaled, set_result. cbv zeta.
  calls; eauto using emits_fail, emits_try_read, emits_rescale_app.
Qed.

Lemma emits_failed_attempt app item text : emits C (failed_attempt app item text : M _).
Proof. unfold failed_attempt. calls; apply emits_fail. Qed.

(** A submit only ever names the app it is for, without a version. *)
Lemma emits_submit app item :
  (∀ t r, t_version t = None → t_name t = deployment_name gw (at_config item) → C (Called (RunMany t) r)) →
  emits C (submit environ darwin request app item : M _).
Proof.
  intros Ht. unfold submit, submit_app. calls; [by apply Ht|apply emits_failed_attempt].
Qed.

Lemma emits_resubmit now app item :
  (∀ t r, t_version t = None → t_name t = deployment_name gw (at_config item) → C (Called (RunMany t) r)) →
  emits C (resubmit environ darwin request now app item : M _).
Proof. intros Ht. unfold resubmit. calls. by apply emits_submit. Qed.

Lemma emits_poll_up statuses crashing app item : emits C (poll_up statuses crashing app item : M _).
Proof. unfold poll_up, set_result. calls; eauto using emits_fail, emits_failed_attempt. Qed.

Lemma emits_bring_up cs :
  (∀ t r, t_version t = None → C (Called (RunMany t) r)) → emits C (bring_up environ darwin fuel request cs : M _).
Proof.
  intros Ht. unfold bring_up. calls; eauto using emits_submit, emits_resubmit, emits_poll_up, emits_try_read.
Qed.

  End calls.

  (** ** The order of the calls *)

Definition at_phase (ph : phase) (s : state W) : Prop :=
  legal_run i gw st (trace s) ph ∧ version (self s) = None.
Definition undone (s : state W) : Prop := ∃ ph, undoable ph ∧ at_phase ph s.
Definition committed (s : state W) : Prop :=
  ∃ v, legal_run i gw st (trace s) (Committed v) ∧ version (self s) = Some v.

Lemma legal_many tr ph es :
  legal_run i gw st tr ph → Forall (λ e, legal i gw st ph e ph) es → legal_run i gw st (tr ++ es) ph.
Proof.
  intros Htr. induction es as [|e es IH] using rev_ind; intros Hes; [by rewrite app_nil_r|].
  apply Forall_app in Hes as [Hes He]. rewrite app_assoc.
  eapply legal_snoc; [by apply IH|by inversion He].
Qed.

Lemma at_phase_stays ph {A} (m : M A) :
  emits (λ e, legal i gw st ph e ph) m → triple (at_phase ph) m (λ _, at_phase ph) (at_phase ph).
Proof.
  intros Hm. eapply (emits_triple _ (λ tr v, legal_run i gw st tr ph ∧ v = None)); [exact Hm|].
  intros tr es v [? ?] ?. eauto using legal_many.
Qed.

(** A part of the request before its switch. *)
Lemma deploying_part {A} (m : M A) :
  emits (λ e, legal i gw st Deploying e Deploying) m → triple (at_phase Deploying) m (λ _, at_phase Deploying) undone.
Proof.
  intros Hm. eapply triple_mono; [by apply at_phase_stays|done..|]. intros s Hs. by exists Deploying.
Qed.

Lemma wait_order n ms timeout :
  triple (at_phase (Switched n ms)) (wait_switched fuel gw n timeout)
    (λ b, at_phase (if b then Held ms else Switched n ms)) (at_phase (Switched n ms)).
Proof.
  unfold wait_switched. eapply triple_bind; [apply at_phase_stays; emits_step|]. intros t0. cbv zeta.
  apply (triple_loop _ _ _ (λ _, at_phase (Switched n ms))); [done|]. intros _.
  eapply triple_bind; [apply at_phase_stays; emits_step|]. intros now.
  destruct (0 <? _); [|by apply triple_ret].
  apply (triple_catch _ _ _ _ _ (at_phase (Switched n ms))); [|done|].
  - apply (triple_bind _ _ _ (λ b : bool, at_phase (if b then Held ms else Switched n ms))); [|by intros b; apply triple_ret].
    apply triple_ask. intros s w r [Hs Hv]. cbn.
    destruct r as [[]|e]; (split; [|done]); (eapply legal_snoc; [exact Hs|]); by constructor.
  - intros e. eapply triple_bind; [apply at_phase_stays; emits_step|]. intros. by apply triple_ret.
Qed.

Lemma commit_order ms :
  triple (at_phase Deploying) (switch_and_commit fuel request switch_timeout ms) (λ _, committed) undone.
Proof.
  unfold switch_and_commit.
  eapply (triple_bind _ _ _ (λ n, at_phase (Switched n ms))).
  { apply triple_ask. intros s w [n|e] [Hs Hv]; [split|exists Doomed; split; [done|]; split]; try done;
      (eapply legal_snoc; [exact Hs|]); constructor. }
  intros n. eapply (triple_bind _ _ _ (λ _, at_phase (Switched n ms))).
  { eapply triple_mono; [apply at_phase_stays; emits_step|done..|]. intros s Hs. by exists (Switched n ms). }
  intros _. eapply triple_bind.
  { eapply triple_mono; [apply wait_order|done..|]. intros s Hs. by exists (Switched n ms). }
  intros [|]; cbn.
  2: { apply triple_raise. intros s Hs. by exists (Switched n ms). }
  eapply (triple_bind _ _ _ (λ v s, match v with
    | Some v => legal_run i gw st (trace s) (Committed v) | None => undone s end)).
  { apply triple_ask. intros s w r [Hs Hv]. cbn.
    assert ((∀ v, r ≠ Ok (Some v)) → undone (mkState w (trace s ++ [Called (Commit i gw ms) r]) (self s))) as Hd.
    { intros Hr. exists Doomed. split; [done|]. split; [|done]. eapply legal_snoc; [exact Hs|]. by constructor. }
    destruct r as [[v|]|e]; [|by apply Hd..]. eapply legal_snoc; [exact Hs|]. constructor. }
  intros [v|]; [|by apply triple_raise]. intros s Hs. cbn. by exists v.
Qed.

Lemma apply_diff_order d :
  triple (at_phase Deploying) (apply_diff environ darwin fuel request switch_timeout d)
    (λ _ s, if commits d then committed s else at_phase Deploying s) undone.
Proof.
  unfold apply_diff.
  assert (∀ A (c : call A) r, deploying_call c = true → legal i gw st Deploying (Called c r) Deploying) as Hc
    by (intros; by constructor).
  assert (∀ A (c : call A) r, plain_call c = true → legal i gw st Deploying (Called c r) Deploying) as Hp
    by (intros A c r Hr; apply Hc; by destruct c).
  do 9 (eapply (triple_bind _ _ _ (λ _, at_phase Deploying));
    [apply deploying_part; unfold set_result; repeat emits_step;
     auto using emits_log, emits_delete_apps, emits_read, emits_rescale, emits_bring_up|intros _]).
  eapply (triple_bind _ _ _ (λ _ s, if commits d then committed s else at_phase Deploying s)).
  - destruct (commits d); [|by apply triple_ret].
    destruct (diff_models d) as [ms|]; [apply commit_order|]. apply triple_raise. intros s Hs. by exists Deploying.
  - intros _ s Hs. set (f := λ ma : string * action, _).
    assert (no_raise (for_each f (actions d))) as Hn.
    { apply no_raise_for_each. intros x. unfold f, set_result. by repeat no_raise_step. }
    assert (emits (λ _, False) (for_each f (actions d))) as He.
    { apply emits_for_each. intros x _. unfold f, set_result. repeat emits_step. }
    destruct (He s) as (es & Ht & Hes & Hv). destruct es as [|e es]; [|by inversion Hes].
    rewrite app_nil_r in Ht. specialize (Hn s).
    assert ((for_each f (actions d) s).2 ≠ Stuck) as Hstuck.
    { clear. revert s. induction (actions d) as [|x l IH]; intros s; [done|]. cbn [for_each].
      unfold mbind, worker_bind. unfold f at 1. case_decide; cbn; apply IH. }
    destruct (for_each f (actions d) s) as [s' [[]|e|]]; cbn in *; [|done..].
    unfold committed, at_phase in *. by rewrite Ht, Hv.
Qed.

  (** ** After the request *)

Lemma no_raise_delete_apps names (rd : M (dict App)) : no_raise rd → no_raise (delete_apps fuel names rd).
Proof. intros Hr. unfold delete_apps, delete_round. repeat no_raise_step; done. Qed.

Lemma no_raise_read_until_readable : no_raise (read_until_readable fuel : M _).
Proof. unfold read_until_readable. by repeat no_raise_step. Qed.

Lemma no_raise_succeed d : no_raise (succeed fuel request d : M _).
Proof.
  unfold succeed, outcome. repeat no_raise_step; auto using no_raise_delete_apps, no_raise_read_until_readable.
Qed.

(** What a request's end says of its calls. *)
Definition ends_at (o : DeployQueue.outcome) (ph : phase) : Prop :=
  (DeployQueue.out_state o = "succeeded"%string ∧ DeployQueue.out_version o = None ∧ ph = Deploying) ∨
  (∃ v, DeployQueue.out_state o = "succeeded"%string ∧ DeployQueue.out_version o = Some v ∧ ph = Committed v) ∨
  (DeployQueue.out_state o ∈ ["failed"; "cancelled"]%string ∧ DeployQueue.out_version o = None ∧ ph = Undoing).

Lemma succeed_order d :
  triple (λ s, if commits d then committed s else at_phase Deploying s) (succeed fuel request d)
    (λ o s, ∃ ph, legal_run i gw st (trace s) ph ∧ ends_at o ph) (λ s, ∃ ph, legal_run i gw st (trace s) ph).
Proof.
  assert (∀ v ph, (if commits d then ph = Committed (default 0 v) ∧ is_Some v else ph = Deploying ∧ v = None) →
    triple (λ s, legal_run i gw st (trace s) ph ∧ version (self s) = v) (succeed fuel request d)
      (λ o s, ∃ ph, legal_run i gw st (trace s) ph ∧ ends_at o ph) (λ s, ∃ ph, legal_run i gw st (trace s) ph)) as Hgo.
  { intros v ph Hph. unfold succeed.
    assert (∀ {A} (m : M A), emits (λ e, legal i gw st ph e ph) m →
      triple (λ s, legal_run i gw st (trace s) ph ∧ version (self s) = v) m
        (λ _ s, legal_run i gw st (trace s) ph ∧ version (self s) = v) (λ s, ∃ ph, legal_run i gw st (trace s) ph)) as Hstay.
    { intros A m Hm. eapply triple_mono.
      - eapply (emits_triple _ (λ tr v', legal_run i gw st tr ph ∧ v' = v)); [exact Hm|].
        intros tr es v' [? ?] ?. eauto using legal_many.
      - done.
      - done.
      - intros s [Hs _]. by exists ph. }
    assert (∀ A (c : call A) r, retiring_call st c = true → legal i gw st ph (Called c r) ph) as Hc.
    { intros A c r Hr. destruct (commits d), Hph as [-> _]; constructor; [done|]. by destruct c. }
    eapply triple_bind.
    { apply Hstay. case_decide as Hst; [|emits_step].
      apply emits_delete_apps; [intros; apply Hc; cbn; by apply bool_decide_eq_true|].
      apply emits_read_until_readable. intros; by apply Hc. }
    intros []. eapply triple_bind; [apply Hstay; repeat emits_step|]. intros [] s [Hs Hv]. cbn.
    exists ph. split; [done|]. unfold ends_at. cbn. rewrite Hv.
    destruct (commits d), Hph as [-> Hv']; [right; left|by left]. destruct Hv' as [v' ->]. by exists v'. }
  intros s Hs. destruct (commits d) eqn:E.
  - destruct Hs as (v & Hs & Hv). by apply (Hgo (Some v) (Committed v)).
  - destruct Hs as [Hs Hv]. by apply (Hgo None Deploying).
Qed.

Lemma rolled_back_order state reason :
  state ∈ ["failed"; "cancelled"]%string →
  triple undone (rolled_back environ darwin fuel request switch_timeout state reason)
    (λ o s, ∃ ph, legal_run i gw st (trace s) ph ∧ ends_at o ph)
    (λ s, ∃ ph, (undoable ph ∨ ph = Undoing) ∧ legal_run i gw st (trace s) ph).
Proof.
  intros Hstate. unfold rolled_back.
  assert (∀ {A} (m : M A), emits (λ e, legal i gw st Undoing e Undoing) m →
    triple (at_phase Undoing) m (λ _, at_phase Undoing)
      (λ s, ∃ ph, (undoable ph ∨ ph = Undoing) ∧ legal_run i gw st (trace s) ph)) as Hstay.
  { intros A m Hm. eapply triple_mono; [by apply at_phase_stays|done..|]. intros s [Hs _]. exists Undoing. auto. }
  assert (∀ A (c : call A) r, undoing_call gw c = true → legal i gw st Undoing (Called c r) Undoing) as Hc
    by (intros; by constructor).
  eapply (triple_bind _ _ _ (λ _, at_phase Undoing)).
  { apply triple_ask. intros s w r (ph & Hph & Hs & Hv). cbn.
    assert (legal_run i gw st (trace s ++ [Called (RollingBack i gw) r]) Undoing)
      by (eapply legal_snoc; [exact Hs|]; by constructor).
    destruct r; [done|]. exists Undoing. auto. }
  intros []. eapply triple_bind; [apply Hstay; emits_step|]. intros me.
  eapply triple_bind.
  { apply Hstay. unfold roll_back. repeat emits_step;
      try (apply Hc; cbn; by apply bool_decide_eq_true); try (apply Hc; reflexivity).
    - apply emits_wait_switched. intros. apply Hc. by apply bool_decide_eq_true.
    - apply emits_delete_apps; [intros; by apply Hc|]. apply emits_read_until_readable. intros; by apply Hc.
    - apply emits_restore_scaling; intros; by apply Hc. }
  intros gone. eapply triple_bind; [apply Hstay; repeat emits_step|]. intros [] s [Hs Hv]. cbn.
  exists Undoing. split; [done|]. right. right. by cbn.
Qed.

Lemma apply_order :
  triple (at_phase Deploying) (apply environ darwin fuel request switch_timeout)
    (λ d s, if commits d then committed s else at_phase Deploying s) undone.
Proof.
  unfold apply. eapply (triple_bind _ _ _ (λ _, at_phase Deploying)).
  { apply deploying_part, emits_get_diff. intros A c r Hr. constructor. by destruct c. }
  intros d. eapply triple_bind; [apply apply_diff_order|]. intros []. by apply triple_ret.
Qed.

(** Where a run's calls have got to, however it ended. *)
Definition well_ended (r : state W * ret DeployQueue.outcome) : Prop :=
  ∃ ph, legal_run i gw st (trace r.1) ph ∧
    match r.2 with
    | Val o => ends_at o ph
    | Raise _ => undoable ph ∨ ph = Undoing
    | Stuck => True
    end.

Lemma execute_order s :
  at_phase Deploying s → well_ended (execute environ darwin fuel request switch_timeout s).
Proof.
  intros Hs. unfold execute, mbind at 1, worker_bind at 1, catch.
  unfold mbind at 1, worker_bind at 1. pose proof (apply_order s Hs) as Ha.
  destruct (apply environ darwin fuel request switch_timeout s) as [s1 [d|e|]]; cbn.
  - pose proof (triple_no_raise _ _ _ _ s1 (succeed_order d) (no_raise_succeed d) Ha) as Hd.
    destruct (succeed fuel request d s1) as [s2 [o|e|]]; [..|destruct Hd as (ph & Hph)].
    + destruct Hd as (ph & Hph & Ho). by exists ph.
    + done.
    + by exists ph.
  - assert (∀ st why, st ∈ ["failed"; "cancelled"]%string →
      well_ended (rolled_back environ darwin fuel request switch_timeout st why s1)) as Hr.
    { intros st why Hst. pose proof (rolled_back_order st why Hst s1 Ha) as Hd.
      destruct (rolled_back _ _ _ _ _ st why s1) as [s2 [o|e'|]].
      - destruct Hd as (ph & Hph & Ho). by exists ph.
      - destruct Hd as (ph & Hph & Ho). by exists ph.
      - destruct Hd as (ph & Hph & Ho). by exists ph. }
    destruct e; apply Hr; set_solver.
  - destruct Ha as (ph & Hph & Ho & _). by exists ph.
Qed.
End facts.
End WorkerFacts.
