(* ===== verification/WorkerPlan.v ===== *)
(** * What a deploy worker switches to, deletes and submits

    That a worker switches its gateway only to apps it submitted and then saw running, deletes
    only what its diff names and when it may, submits a model at most three times, and that a
    rollback's rescales end. *)

From S2P Require Import Prelude StateStore DeployQueue ConfigSchema Ledger Diff DeployOptions Worker WorkerLogic WorkerOrder.
Import WorkerFacts.
Local Open Scope Z_scope.

(** ** What the trace says *)

(** The app was submitted with a target [G] allows after the calls so far, and a later read of
    Serve reported it running. *)
Definition up_after (G : list event → Target → Prop) (app : string) (tr : list event) : Prop :=
  ∃ tr1 t tr2 apps a tr3, tr = tr1 ++ Called (RunMany t) (Ok tt) :: tr2 ++ Called ServeStatus (Ok apps) :: tr3 ∧
    G tr1 t ∧ Dict.get app apps = Some a ∧ a_status a = RUNNING.

(** The app was submitted with a target of [G]. *)
Definition submitted (G : list event → Target → Prop) (tr : list event) : Prop :=
  ∃ tr1 t tr2, tr = tr1 ++ Called (RunMany t) (Ok tt) :: tr2 ∧ G tr1 t.

(** It was, and Serve was read since. *)
Definition read_after (G : list event → Target → Prop) (apps : dict App) (tr : list event) : Prop :=
  ∃ tr1 t tr2 tr3, tr = tr1 ++ Called (RunMany t) (Ok tt) :: tr2 ++ Called ServeStatus (Ok apps) :: tr3 ∧ G tr1 t.

Module PlanFacts.

Lemma monotone_up G app : monotone (up_after G app).
Proof.
  intros tr es (tr1 & t & tr2 & apps & a & tr3 & -> & ?). exists tr1, t, tr2, apps, a, (tr3 ++ es).
  split; [|done]. rewrite <-app_assoc. cbn. by rewrite <-app_assoc.
Qed.

Lemma monotone_submitted G : monotone (submitted G).
Proof. intros tr es (tr1 & t & tr2 & -> & ?). exists tr1, t, (tr2 ++ es). by rewrite <-app_assoc. Qed.

Lemma monotone_read G apps : monotone (read_after G apps).
Proof.
  intros tr es (tr1 & t & tr2 & tr3 & -> & ?). exists tr1, t, tr2, (tr3 ++ es).
  split; [|done]. rewrite <-app_assoc. cbn. by rewrite <-app_assoc.
Qed.

Lemma submitted_read G apps tr : submitted G tr → read_after G apps (tr ++ [Called ServeStatus (Ok apps)]).
Proof. intros (tr1 & t & tr2 & -> & ?). exists tr1, t, tr2, []. by rewrite <-app_assoc. Qed.

Lemma read_up G apps app a tr :
  read_after G apps tr → Dict.get app apps = Some a → a_status a = RUNNING → up_after G app tr.
Proof. intros (tr1 & t & tr2 & tr3 & ? & ?) ??. by exists tr1, t, tr2, apps, a, tr3. Qed.

Section facts.
Context `{Pydantic} `{DiffEnv} `{World W}.
Context (environ : dict string) (darwin : bool) (fuel : nat) (request : DeployRequest) (switch_timeout : Z).
Notation M := (worker_m W).
Notation gw := (gateway request).
Notation i := (id request).

Definition anything : event → Prop := λ _, True.
Local Hint Unfold anything : core.

(** A read of Serve by a request: the last call of the trace. *)
Lemma try_read_reads K :
  monotone K →
  triple (λ s, K (trace s)) (try_read request)
    (λ r s, match r with
            | Some apps => ∃ tr, trace s = tr ++ [Called ServeStatus (Ok apps)] ∧ K tr
            | None => K (trace s)
            end) (λ _, True).
Proof.
  intros HK. unfold try_read.
  eapply (triple_bind _ _ _ (λ _ s, K (trace s))).
  { apply triple_ask. intros s w [c|e] Hs; [by apply HK|done]. }
  intros [|]; [by apply triple_raise|].
  eapply (triple_bind _ _ _ (λ r s, match r with
    | Some apps => ∃ tr, trace s = tr ++ [Called ServeStatus (Ok apps)] ∧ K tr
    | None => K (trace s) end)).
  - apply (triple_catch _ _ _ _ _ (λ s, K (trace s))); [|done|].
    + eapply (triple_bind _ _ _ (λ apps s, ∃ tr, trace s = tr ++ [Called ServeStatus (Ok apps)] ∧ K tr));
        [|intros apps; by apply triple_ret].
      apply triple_ask. intros s w [apps|e] Hs; [by exists (trace s)|by apply HK].
    + intros e. apply (triple_bind _ _ _ (λ _ s, K (trace s))); [|intros []; by apply triple_ret].
      eapply triple_mono; [apply (keeps_monotone K _ anything)|..]; [done| |done..]. by apply emits_unreadable.
  - intros [apps|]; [|by apply triple_ret].
    eapply (triple_bind _ _ _ (λ _ s, ∃ tr, trace s = tr ++ [Called ServeStatus (Ok apps)] ∧ K tr));
      [by intros s Hs|intros []; by apply triple_ret].
Qed.

  (** *** Polling pending apps

      [inv k x]: what the trace says of a pending app; one that is [ready] has been submitted. *)
  Section polls.
Context {A : Type} (inv : string → A → list event → Prop) (ready : A → Prop) (G : string → list event → Target → Prop).
Context (Hmono : ∀ k x, monotone (inv k x)) (Hready : ∀ k x tr, inv k x tr → ready x → submitted (G k) tr).
Context (names : list string).

(** Every app is pending or up. *)
Definition polling (pending : dict A) (tr : list event) : Prop :=
  NoDup (Dict.keys pending) ∧ (∀ k x, (k, x) ∈ pending → inv k x tr) ∧
  ∀ k, k ∈ names → k ∈ Dict.keys pending ∨ up_after (G k) k tr.

Lemma monotone_polling pending : monotone (polling pending).
Proof.
  intros tr es (Hnd & Hi & Hc). split_and!; [done|..].
  - intros k x Hin. by apply Hmono, Hi.
  - intros k Hk. destruct (Hc k Hk); [by left|right]. by apply monotone_up.
Qed.

(** A round over all pending apps. *)
Lemma round_polling (body : string → A → M (option A)) (inv' : string → A → list event → Prop) pending :
  (∀ k x, emits anything (body k x)) → (∀ k x, monotone (inv' k x)) →
  (∀ k x, triple (λ s, inv' k x (trace s)) (body k x)
     (λ r s, match r with Some x => inv k x (trace s) | None => up_after (G k) k (trace s) end) (λ _, True)) →
  triple (λ s, NoDup (Dict.keys pending) ∧ (∀ k x, (k, x) ∈ pending → inv' k x (trace s)) ∧
            ∀ k, k ∈ names → k ∈ Dict.keys pending ∨ up_after (G k) k (trace s))
    (for_pending body pending) (λ pending s, polling pending (trace s)) (λ _, True).
Proof.
  intros He Hm Hb s (Hnd & Hi & Hc).
  pose proof (triple_and _ _ _ _ _ _ _
    (triple_for_pending_mono body inv' inv (λ k, up_after (G k) k) pending Hnd Hm Hmono
      (λ k, monotone_up _ _) He Hb)
    (keeps_monotone (λ tr, ∀ k, k ∈ names → k ∈ Dict.keys pending ∨ up_after (G k) k tr)
      (for_pending body pending) anything
      ltac:(intros tr es Hk k Hin; destruct (Hk k Hin); [by left|right; by apply monotone_up])
      (emits_for_pending _ _ _ He)) s (conj Hi Hc)) as Ht.
  destruct (for_pending body pending s) as [s' [p|e|]]; [|done..].
  destruct Ht as [(Hnd' & Hi' & Hcov) Hc']. split_and!; [done|done|].
  intros k Hk. destruct (Hc' k Hk) as [Hin|Hup]; [by apply Hcov|by right].
Qed.

(** A read of Serve and the poll of every pending app. *)
Lemma poll_polling (poll : dict App → dict string → string → A → M (option A)) pending :
  (∀ st cr k x, emits anything (poll st cr k x)) →
  (∀ st cr k x, triple (λ s, inv k x (trace s) ∧ (ready x → read_after (G k) st (trace s))) (poll st cr k x)
     (λ r s, match r with Some x => inv k x (trace s) | None => up_after (G k) k (trace s) end) (λ _, True)) →
  triple (λ s, polling pending (trace s))
    (apps ← try_read request;
     match apps with
     | None => mret (inl pending)
     | Some statuses =>
         crashing ← ask (CrashLooping (Dict.keys pending));
         pending ← for_pending (poll statuses crashing) pending;
         mret (inl pending)
     end)
    (λ r s, match r with inl p => polling p (trace s) | inr tt => False end) (λ _, True).
Proof.
  intros He Hb. eapply triple_bind; [apply (try_read_reads (polling pending)), monotone_polling|].
  intros [st|]; [|by apply triple_ret].
  set (inv' := λ k x tr, inv k x tr ∧ (ready x → read_after (G k) st tr)).
  assert (∀ k x, monotone (inv' k x)) as Hm.
  { intros k x tr es [Hi Hr]. split; [by apply Hmono|]. intros Hx. by apply monotone_read, Hr. }
  set (K tr := NoDup (Dict.keys pending) ∧ (∀ k x, (k, x) ∈ pending → inv' k x tr) ∧
                 ∀ k, k ∈ names → k ∈ Dict.keys pending ∨ up_after (G k) k tr).
  eapply (triple_bind _ _ _ (λ _ s, K (trace s))).
  { apply triple_ask. intros s w [cr|e]; [|done]. intros (tr & Ht & Hnd & Hi & Hc). cbn. rewrite Ht.
    split_and!; [done|..].
    - intros k x Hin. apply Hm. split; [by apply Hmono, Hi|]. intros Hx. eapply submitted_read, Hready; eauto.
    - intros k Hk. destruct (Hc k Hk); [by left|right]. by do 2 apply monotone_up. }
  intros cr. eapply triple_bind; [apply (round_polling (poll st cr) inv'); [intros; apply He|exact Hm|intros; apply Hb]|].
  intros p. by apply triple_ret.
Qed.
  End polls.

Lemma fail_triple {A} model why (P : state W → Prop) (Q : A → state W → Prop) :
  triple P (fail model why) Q (λ _, True).
Proof. by intros s _. Qed.

  (** *** Bringing models up *)

  Section adds.
Context (adds : list ModelConfig).

Definition add_target (k : string) (before : list event) (t : Target) : Prop :=
  ∃ c, c ∈ adds ∧ deployment_name gw c = k ∧ t = submit_target environ darwin c gw (env request).

Definition is_add (k : string) (item : Attempt) : Prop :=
  at_config item ∈ adds ∧ deployment_name gw (at_config item) = k.

(** Unless it waits out a backoff, a pending model's last submit succeeded. *)
Definition add_inv (k : string) (item : Attempt) (tr : list event) : Prop :=
  is_add k item ∧ (retry_at item = None → submitted (add_target k) tr).

Lemma monotone_add_inv k item : monotone (add_inv k item).
Proof. intros tr es [Ha Hs]. split; [done|]. intros Hr. by apply monotone_submitted, Hs. Qed.

Lemma failed_attempt_spec k item text P :
  triple P (failed_attempt k item text : M _)
    (λ item' _, at_config item' = at_config item ∧ is_Some (retry_at item')) (λ _, True).
Proof.
  unfold failed_attempt. eapply (triple_bind _ _ _ (λ _ _, True)); [by apply triple_ask; intros ??[]|].
  intros [f|]; [apply fail_triple|]. case_decide; [apply fail_triple|].
  eapply (triple_bind _ _ _ (λ _ _, True)); [|intros now; apply triple_ret; cbn; eauto].
  intros s _. unfold monotonic. by destruct (clock _).
Qed.

Lemma submit_spec k item :
  is_add k item →
  triple (λ _, True) (submit environ darwin request k item)
    (λ item' s, add_inv k item' (trace s)) (λ _ : state W, True).
Proof.
  intros Ha. unfold submit.
  eapply (triple_bind _ _ _ (λ r s, r = None → submitted (add_target k) (trace s))).
  - apply (triple_catch _ _ _ _ _ (λ _, True)); [|done|by intros e; apply triple_ret].
    eapply (triple_bind _ _ _ (λ _ s, submitted (add_target k) (trace s))); [|intros []; by apply triple_ret].
    unfold submit_app. apply triple_ask. intros s w [[]|e] _; [|done]. cbn.
    eexists _, _, []. split; [done|]. exists (at_config item). by destruct Ha.
  - intros [text|]; [|apply triple_ret; intros s Hs; split; auto].
    eapply triple_mono; [apply (failed_attempt_spec k item text (λ _, True))|done| |done].
    intros item' s [E [x Hx]]. unfold add_inv, is_add. rewrite E. split; [done|]. by rewrite Hx.
Qed.

Lemma resubmit_spec now k item :
  triple (λ s, add_inv k item (trace s)) (resubmit environ darwin request now k item)
    (λ r s, match r with Some x => add_inv k x (trace s) | None => up_after (add_target k) k (trace s) end)
    (λ _ : state W, True).
Proof.
  unfold resubmit. destruct (retry_at item) as [at_|]; [|by apply triple_ret].
  destruct (at_ <=? now); [|by apply triple_ret].
  intros s [Ha _]. eapply (triple_bind _ _ (λ _, True)); [by apply submit_spec|intros; by apply triple_ret|done].
Qed.

Lemma poll_up_spec st cr k item :
  triple (λ s, add_inv k item (trace s) ∧ (retry_at item = None → read_after (add_target k) st (trace s)))
    (poll_up st cr k item)
    (λ r s, match r with Some x => add_inv k x (trace s) | None => up_after (add_target k) k (trace s) end)
    (λ _ : state W, True).
Proof.
  unfold poll_up. eapply (triple_bind _ _ _ (λ _ s, add_inv k item (trace s) ∧
    (retry_at item = None → read_after (add_target k) st (trace s)))).
  { destruct (Dict.get k cr); [apply fail_triple|by apply triple_ret]. }
  intros []. destruct (retry_at item) as [at_|] eqn:Er.
  { apply triple_ret. by intros s [? _]. }
  assert (∀ why, triple (λ s, add_inv k item (trace s) ∧ (@None Z = None → read_after (add_target k) st (trace s)))
    (if seen item then fail (name (at_config item)) why else mret (Some item))
    (λ r s, match r with Some x => add_inv k x (trace s) | None => up_after (add_target k) k (trace s) end)
    (λ _ : state W, True)) as Hgone.
  { intros why. destruct (seen item); [apply fail_triple|]. apply triple_ret. by intros s [? _]. }
  destruct (Dict.get k st) as [a|] eqn:Ea; [|apply Hgone].
  destruct (decide (a_status a = DELETING)); [apply Hgone|].
  destruct (decide (a_status a = RUNNING)) as [Hrun|].
  - intros s [_ Hr]. cbn. eapply read_up; eauto.
  - destruct (decide _).
    + intros s [[Ha _] _]. eapply (triple_bind _ _ (λ _, True)); [apply failed_attempt_spec| |done].
      intros item'. apply triple_ret. intros s' [E [x Hx]]. cbn in E. unfold add_inv, is_add. rewrite E.
      split; [done|]. by rewrite Hx.
    + apply triple_ret. intros s [[Ha Hs] _]. split; [done|]. cbn. auto.
Qed.

(** Every model of [adds] is submitted, and then read as running. *)
Lemma bring_up_spec :
  triple (λ _, True) (bring_up environ darwin fuel request adds)
    (λ _ s, ∀ c, c ∈ adds → up_after (add_target (deployment_name gw c)) (deployment_name gw c) (trace s))
    (λ _ : state W, True).
Proof.
  unfold bring_up. set (pending := Dict.of_list _).
  set (names := deployment_name gw <$> adds).
  assert (∀ k, k ∈ names → k ∈ Dict.keys pending) as Hcov.
  { intros k (c & -> & Hc)%list_elem_of_fmap. unfold pending. apply Dict.elem_keys_of_list.
    apply list_elem_of_fmap. exists (deployment_name gw c, new_attempt c). split; [done|].
    apply list_elem_of_fmap. by exists c. }
  assert (∀ k x, (k, x) ∈ pending → is_add k x) as Hadd.
  { intros k x (c & [= -> ->] & Hc)%Dict.elem_of_list_sub%list_elem_of_fmap. done. }
  assert (∀ tr, (∀ k, k ∈ names → up_after (add_target k) k tr) →
    ∀ c, c ∈ adds → up_after (add_target (deployment_name gw c)) (deployment_name gw c) tr) as Hdone.
  { intros tr Htr c Hc. apply Htr. apply list_elem_of_fmap. by exists c. }
  destruct pending as [|p0 pending0] eqn:Ep.
  { apply triple_ret. intros s _. apply Hdone. intros k Hk%Hcov. by apply elem_of_nil in Hk. }
  rewrite <-Ep in *. clear p0 pending0 Ep.
  eapply (triple_bind _ _ _ (λ _ _, True)); [by apply triple_ask; intros ??[]|]. intros [].
  set (I p (s : state W) := polling add_inv add_target names p (trace s)).
  eapply (triple_bind _ _ _ I).
  { eapply triple_mono; [apply (round_polling add_inv add_target monotone_add_inv names _ (λ k x _, is_add k x))|..].
    - intros k x. repeat emits_step. by apply emits_submit.
    - by intros k x tr es.
    - intros k x s Ha. eapply (triple_bind _ _ (λ _, True)); [by apply submit_spec|intros; by apply triple_ret|done].
    - intros s _. split; [apply Dict.NoDup_keys_of_list|]. split; [done|]. intros k Hk. left. by apply Hcov.
    - done.
    - done. }
  intros p. apply (triple_loop _ _ _ I); [done|]. clear p. intros p. unfold I.
  destruct p as [|p0 p'] eqn:Ep.
  { apply triple_ret. intros s (_ & _ & Hc). apply Hdone. intros k Hk.
    destruct (Hc k Hk) as [Hin|]; [by apply elem_of_nil in Hin|done]. }
  rewrite <-Ep. clear p0 p' Ep.
  eapply (triple_bind _ _ _ (λ _ s, I p s)); [by intros s|]. intros [].
  eapply (triple_bind _ _ _ (λ _ s, I p s)).
  { intros s. unfold monotonic. by destruct (clock _). }
  intros now. eapply (triple_bind _ _ _ I).
  { eapply (round_polling add_inv add_target monotone_add_inv names _ add_inv);
      [|apply monotone_add_inv|apply resubmit_spec].
    intros k x. by apply emits_resubmit. }
  clear p. intros p. unfold I.
  eapply triple_mono; [apply (poll_polling add_inv (λ x, retry_at x = None) add_target monotone_add_inv (λ k x tr Hi, proj2 Hi) names)|done| |done].
  - intros st cr k x. by apply emits_poll_up.
  - apply poll_up_spec.
  - by intros [p'|[]] s.
Qed.
  End adds.

  (** *** Rescaling *)

  Section rescales.
Context (rescales : list Rescale).

(** The app as Serve's controller has just told it, with new replica counts. *)
Definition scaled_target (k : string) (before : list event) (t : Target) : Prop :=
  ∃ r live tr, r ∈ rescales ∧ rs_app r = k ∧ before = tr ++ [Called (LiveAppOf k) (Ok (Some live))] ∧
    t = rescale_target environ darwin k live (rs_scaling r).

Definition rescale_inv (k : string) (r : Rescale) (tr : list event) : Prop :=
  (r ∈ rescales ∧ rs_app r = k) ∧ submitted (scaled_target k) tr.

Lemma monotone_rescale_inv k r : monotone (rescale_inv k r).
Proof. intros tr es [Hr Hs]. split; [done|]. by apply monotone_submitted. Qed.

Lemma rescale_submit_spec k r :
  r ∈ rescales → rs_app r = k →
  triple (λ _, True) (rescale_submit environ darwin k r)
    (λ x s, match x with Some x => rescale_inv k x (trace s) | None => up_after (scaled_target k) k (trace s) end)
    (λ _ : state W, True).
Proof.
  intros Hr Hk. unfold rescale_submit.
  eapply (triple_bind _ _ _ (λ _ _, True)); [by apply triple_ask; intros ??[]|]. intros fatal.
  eapply (triple_bind _ _ _ (λ live s, is_Some live → submitted (scaled_target k) (trace s))).
  - apply (triple_catch _ _ _ _ _ (λ _, True)); [|done|intros e; apply fail_triple].
    eapply (triple_bind _ _ _ (λ live s, ∃ tr, trace s = tr ++ [Called (LiveAppOf k) (Ok live)])).
    { apply triple_ask. intros s w [live|e] _; [|done]. by exists (trace s). }
    intros live.
    eapply (triple_bind _ _ _ (λ _ s, is_Some live → submitted (scaled_target k) (trace s)));
      [|intros []; by apply triple_ret].
    destruct live as [live|]; [|apply triple_ret; by intros s _ []].
    unfold rescale_app. apply triple_ask. intros s w [[]|e] (tr & Ht); [|done]. cbn. intros _.
    eexists _, _, []. split; [done|]. by exists r, live, tr.
  - intros [live|]; [|apply fail_triple]. apply triple_ret. intros s Hs. split; [done|]. apply Hs. by eexists.
Qed.

Lemma poll_rescaled_spec st cr k r :
  triple (λ s, rescale_inv k r (trace s) ∧ (True → read_after (scaled_target k) st (trace s)))
    (poll_rescaled st cr k r)
    (λ x s, match x with Some x => rescale_inv k x (trace s) | None => up_after (scaled_target k) k (trace s) end)
    (λ _ : state W, True).
Proof.
  set (K tr := rescale_inv k r tr ∧ (True → read_after (scaled_target k) st tr)).
  assert (monotone K) as HK.
  { intros tr es [Hi Hr]. split; [by apply monotone_rescale_inv|]. intros _. by apply monotone_read, Hr. }
  unfold poll_rescaled. eapply (triple_bind _ _ _ (λ _ s, K (trace s))).
  { destruct (Dict.get k cr); [apply fail_triple|by apply triple_ret]. }
  intros []. eapply (triple_bind _ _ _ (λ _ s, K (trace s))).
  { apply triple_ask. intros s w [x|e] Hs; [by apply HK|done]. }
  intros fatal. eapply (triple_bind _ _ _ (λ _ s, K (trace s))).
  { destruct fatal; [apply fail_triple|by apply triple_ret]. }
  intros []. destruct (Dict.get k st) as [a|] eqn:Ea; [|apply fail_triple].
  case_decide; [apply fail_triple|]. case_decide as Hrun; [|apply triple_ret; by intros s [Hs _]].
  eapply (triple_bind _ _ _ (λ _ s, K (trace s))); [by intros s|]. intros me.
  eapply (triple_bind _ _ _ (λ _ s, K (trace s))); [by case_decide; intros s|]. intros [].
  apply triple_ret. intros s [_ Hr]. by eapply read_up; [apply Hr|..].
Qed.

(** Every app of [rescales] is submitted, and then read as running. *)
Lemma rescale_spec :
  triple (λ _, True) (rescale environ darwin fuel request rescales)
    (λ _ s, ∀ r, r ∈ rescales → up_after (scaled_target (rs_app r)) (rs_app r) (trace s))
    (λ _ : state W, True).
Proof.
  unfold rescale. set (pending := Dict.of_list _). set (names := rs_app <$> rescales).
  assert (∀ k, k ∈ names → k ∈ Dict.keys pending) as Hcov.
  { intros k (r & -> & Hr)%list_elem_of_fmap. unfold pending. apply Dict.elem_keys_of_list.
    apply list_elem_of_fmap. exists (rs_app r, r). split; [done|]. apply list_elem_of_fmap. by exists r. }
  assert (∀ k x, (k, x) ∈ pending → x ∈ rescales ∧ rs_app x = k) as Hin.
  { by intros k x (r & [= -> ->] & Hr)%Dict.elem_of_list_sub%list_elem_of_fmap. }
  assert (∀ tr, (∀ k, k ∈ names → up_after (scaled_target k) k tr) →
    ∀ r, r ∈ rescales → up_after (scaled_target (rs_app r)) (rs_app r) tr) as Hdone.
  { intros tr Htr r Hr. apply Htr. apply list_elem_of_fmap. by exists r. }
  destruct pending as [|p0 pending0] eqn:Ep.
  { apply triple_ret. intros s _. apply Hdone. intros k Hk%Hcov. by apply elem_of_nil in Hk. }
  rewrite <-Ep in *. clear p0 pending0 Ep.
  eapply (triple_bind _ _ _ (λ _ _, True)); [by apply triple_ask; intros ??[]|]. intros [].
  set (I p (s : state W) := polling rescale_inv scaled_target names p (trace s)).
  eapply (triple_bind _ _ _ I).
  { eapply triple_mono; [apply (round_polling rescale_inv scaled_target monotone_rescale_inv names _
      (λ k x _, x ∈ rescales ∧ rs_app x = k))|..].
    - intros k x. unfold rescale_submit. repeat emits_step; try done; [by apply emits_rescale_app|..];
        by apply emits_fail.
    - by intros k x tr es.
    - intros k x s [Hr Hk]. by apply rescale_submit_spec.
    - intros s _. split; [apply Dict.NoDup_keys_of_list|]. split; [done|]. intros k Hk. left. by apply Hcov.
    - done.
    - done. }
  intros p. apply (triple_loop _ _ _ I); [done|]. clear p. intros p. unfold I.
  destruct p as [|p0 p'] eqn:Ep.
  { apply triple_ret. intros s (_ & _ & Hc). apply Hdone. intros k Hk.
    destruct (Hc k Hk) as [Hk'|]; [by apply elem_of_nil in Hk'|done]. }
  rewrite <-Ep. clear p0 p' Ep.
  eapply (triple_bind _ _ _ (λ _ s, I p s)); [by intros s|]. intros []. unfold I.
  eapply triple_mono; [apply (poll_polling rescale_inv (λ _, True) scaled_target monotone_rescale_inv
    (λ k x tr Hi _, proj2 Hi) names)|done| |done].
  - intros st cr k x. unfold poll_rescaled, set_result. repeat emits_step; try done; by apply emits_fail.
  - apply poll_rescaled_spec.
  - by intros [p'|[]] s.
Qed.
  End rescales.
End facts.
End PlanFacts.
