(* ===== verification/WorkerSafety.v ===== *)
(** * What a deploy worker may do, and when

    Rules on each call of a worker, over the calls before it: what it switches its gateway to and
    which apps it deletes. *)

From S2P Require Import Prelude StateStore DeployQueue ConfigSchema Ledger Diff DeployOptions Worker WorkerLogic WorkerOrder WorkerPlan.
Import WorkerFacts PlanFacts.
Local Open Scope Z_scope.

Section rules.
Context `{Pydantic} `{DiffEnv}.
Context (environ : dict string) (darwin : bool) (request : DeployRequest).
Notation gw := (gateway request).
Notation i := (id request).

(** The deploy coordinator answered the request with diff [d]. *)
Definition diffed (d : Diff) (tr : list event) : Prop := Called (DiffOf i gw) (Ok (Some d)) ∈ tr.

Definition landed (tr : list event) : Prop := ∃ ms v, Called (Commit i gw ms) (Ok (Some v)) ∈ tr.

(** Once it was told of a rollback and has reset the routing, it answered with rollback diff [d]. *)
Definition undo_diffed (d : Diff) (tr : list event) : Prop :=
  Called (RollingBack i gw) (Ok tt) ∈ tr ∧ (∃ n, Called (ResetRouting gw) (Ok n) ∈ tr) ∧
  Called (RollbackDiff gw) (Ok (Some d)) ∈ tr.

(** Every app the diff deploys was submitted with its model's config and read as running since,
    and so was every app it rescales, with its new replica counts. *)
Definition all_up (d : Diff) (tr : list event) : Prop :=
  (∀ r, r ∈ scale_downs d → up_after (scaled_target environ darwin (scale_downs d) (rs_app r)) (rs_app r) tr) ∧
  (∀ c, c ∈ deploys d →
     up_after (add_target environ darwin request (deploys d) (deployment_name gw c)) (deployment_name gw c) tr) ∧
  (∀ r, r ∈ scale_ups d → up_after (scaled_target environ darwin (scale_ups d) (rs_app r)) (rs_app r) tr).

Definition may_switch (ms : list json) (tr : list event) : Prop :=
  ∃ d, diffed d tr ∧ commits d = true ∧ diff_models d = Some ms ∧ all_up d tr.

Definition may_delete (app : string) (tr : list event) : Prop :=
  (∃ d, diffed d tr ∧
     (app ∈ leftovers d ∨
      app ∈ retired d ∧ (strategy request = stop_start ∨
                         strategy request = blue_green ∧ (commits d = true → landed tr)))) ∨
  (∃ d, undo_diffed d tr ∧ app ∈ leftovers d).

Definition rule (tr : list event) (e : event) : Prop :=
  let '(Called c _) := e in
  match c with
  | Switch _ _ ms => may_switch ms tr
  | ServeDelete app => may_delete app tr
  | _ => True
  end.
End rules.

Module SafetyFacts.
Section facts.
Context `{Pydantic} `{DiffEnv} `{World W}.
Context (environ : dict string) (darwin : bool) (fuel : nat) (request : DeployRequest) (switch_timeout : Z).
Notation M := (worker_m W).
Notation gw := (gateway request).
Notation i := (id request).
Notation rule := (rule environ darwin request).
Notation obeyed := (obeyed rule).

Lemma monotone_landed : monotone (landed request).
Proof. intros tr es (ms & v & Hin). exists ms, v. by apply monotone_in. Qed.

Lemma monotone_undo d : monotone (undo_diffed request d).
Proof.
  intros tr es (H1' & (n & H2) & H3). split_and!; [by apply monotone_in|exists n; by apply monotone_in|by apply monotone_in].
Qed.

Lemma monotone_all_up d : monotone (all_up environ darwin request d).
Proof. intros tr es (Hd & Hc & Hu). split_and!; intros x Hx; apply monotone_up; auto. Qed.

(** A part of a run that keeps the rules, knowing [K]. *)
Definition keeps (K : list event → Prop) {A} (m : M A) (K' : A → list event → Prop) : Prop :=
  triple (λ s, obeyed (trace s) ∧ K (trace s)) m (λ a s, obeyed (trace s) ∧ K' a (trace s))
    (λ s, obeyed (trace s)).

Lemma keeps_bind K {A B} (m : M A) (f : A → M B) K1 K2 :
  keeps K m K1 → (∀ a, keeps (K1 a) (f a) K2) → keeps K (m ≫= f) K2.
Proof. apply triple_bind. Qed.

Lemma keeps_ret K {A} (a : A) : keeps K (mret a) (λ _, K).
Proof. by apply triple_ret. Qed.

Lemma keeps_modify K f : keeps K (modify f) (λ _, K).
Proof. intros s Hs. exact Hs. Qed.

Lemma keeps_calls K {A} (m : M A) :
  monotone K → emits (λ e, ∀ tr, K tr → rule tr e) m → keeps K m (λ _, K).
Proof.
  intros HK Hm. eapply triple_mono; [by apply (obeys rule K)|done|done|]. by intros s [? _].
Qed.

(** ... and learns [F] on its way *)
Lemma keeps_learns {A} K (F : A → list event → Prop) (m : M A) :
  monotone K → emits (λ e, ∀ tr, K tr → rule tr e) m →
  triple (λ _, True) m (λ a s, F a (trace s)) (λ _, True) →
  keeps K m (λ a tr, K tr ∧ F a tr).
Proof.
  intros HK He Hm s Hs. pose proof (keeps_calls K m HK He s Hs) as H'. specialize (Hm s I).
  by destruct (m s) as [s' [a|e|]]; [destruct H'|..].
Qed.

Lemma plain_rule {A} (c : call A) r tr : plain_call c = true → rule tr (Called c r).
Proof. by destruct c. Qed.

Lemma delete_keeps K names (rd : M (dict App)) :
  monotone K → (∀ n tr, n ∈ names → K tr → may_delete request n tr) →
  emits (λ e, ∀ tr, K tr → rule tr e) rd → keeps K (delete_apps fuel names rd) (λ _, K).
Proof. intros HK Hn Hr. apply keeps_calls; [done|]. apply emits_delete_apps; [|done]. intros n r Hin tr Ht. by apply Hn. Qed.

Lemma get_diff_knows :
  keeps (λ _, True) (get_diff fuel request) (λ d, diffed request d).
Proof.
  eapply triple_mono; [apply (keeps_learns (λ _, True) (diffed request))|done| |done].
  - done.
  - apply emits_get_diff. intros A c r Hc tr _. by apply plain_rule.
  - unfold get_diff. apply (triple_loop _ _ _ (λ _ _, True)); [done|]. intros [].
    eapply (triple_bind _ _ _ (λ _ _, True)); [by apply triple_ask; intros ??[]|].
    intros [|]; [by apply triple_raise|].
    eapply (triple_bind _ _ _ (λ d s, if d is Some d then diffed request d (trace s) else True)).
    { apply triple_ask. intros s w [[d|]|e] _; [|done..]. cbn. apply elem_of_app. right. constructor. }
    intros [d|].
    + eapply (triple_bind _ _ _ (λ _ s, diffed request d (trace s))); [by intros s|]. intros []. by apply triple_ret.
    + eapply (triple_bind _ _ _ (λ _ _, True)); [intros s _; by destruct (unreadable s) as [s' []]|].
      intros []. eapply (triple_bind _ _ _ (λ _ _, True)); [by intros s|]. intros []. by apply triple_ret.
  - by intros d s (? & _ & ?).
Qed.

Lemma switch_keeps K ms :
  monotone K → (∀ tr, K tr → may_switch environ darwin request ms tr) →
  keeps K (switch_and_commit fuel request switch_timeout ms : M _) (λ _, K).
Proof.
  intros HK Hms. unfold switch_and_commit.
  eapply keeps_bind; [apply keeps_calls; [done|by emits_step]|intros n].
  eapply keeps_bind; [apply keeps_modify|intros []].
  eapply keeps_bind; [apply keeps_calls; [done|by apply emits_wait_switched]|intros [|]]; [|by intros s [? _]].
  eapply keeps_bind; [apply keeps_calls; [done|by emits_step]|intros [v|]]; [|by intros s [? _]].
  eapply keeps_bind; [apply keeps_modify|intros []]. apply keeps_modify.
Qed.

Lemma apply_diff_keeps d :
  keeps (diffed request d) (apply_diff environ darwin fuel request switch_timeout d) (λ _, diffed request d).
Proof.
  pose proof (monotone_in (Called (DiffOf i gw) (Ok (Some d)))) as Hm. fold (diffed request d) in Hm.
  assert (∀ K A (c : call A) r, plain_call c = true → ∀ tr, K tr → rule tr (Called c r)) as Hp by (intros; by apply plain_rule).
  assert (∀ K rs, emits (λ e, ∀ tr, K tr → rule tr e) (rescale environ darwin fuel request rs : M _)) as Hrs.
  { intros K rs. by apply emits_rescale; [apply Hp|]. }
  assert (∀ K, emits (λ e, ∀ tr, K tr → rule tr e) (read fuel request : M _)) as Hread by (intros K; apply emits_read, Hp).
  unfold apply_diff.
  eapply keeps_bind; [apply keeps_calls; [exact Hm|by emits_step]|intros []].
  eapply keeps_bind; [apply keeps_calls; [exact Hm|unfold set_result; repeat emits_step]|intros []].
  eapply keeps_bind; [apply keeps_calls; [exact Hm|apply emits_log, Hp]|intros []].
  eapply keeps_bind; [apply keeps_calls; [exact Hm|by repeat emits_step]|intros []].
  eapply keeps_bind; [apply delete_keeps; [exact Hm| |done]|intros []].
  { intros n tr Hn Ht. left. exists d. auto. }
  set (K1 tr := diffed request d tr ∧ ∀ r, r ∈ scale_downs d →
    up_after (scaled_target environ darwin (scale_downs d) (rs_app r)) (rs_app r) tr).
  assert (monotone K1) as HK1 by (intros tr es [Hd Hr]; split; [by apply Hm|]; intros r Hin; by apply monotone_up, Hr).
  eapply (keeps_bind _ _ _ (λ _, K1)); [apply keeps_learns; [exact Hm|done|apply rescale_spec]|intros []].
  eapply (keeps_bind _ _ _ (λ _, K1)).
  { case_decide as Hst; [|by apply keeps_ret]. apply delete_keeps; [done| |done].
    intros n tr Hn [Hd _]. left. exists d. auto. }
  intros []. set (K2 tr := K1 tr ∧ ∀ c, c ∈ deploys d →
    up_after (add_target environ darwin request (deploys d) (deployment_name gw c)) (deployment_name gw c) tr).
  assert (monotone K2) as HK2 by (intros tr es [Hd Hr]; split; [by apply HK1|]; intros c Hin; by apply monotone_up, Hr).
  eapply (keeps_bind _ _ _ (λ _, K2)); [apply keeps_learns; [done|by apply emits_bring_up; [apply Hp|]|apply bring_up_spec]|intros []].
  set (K3 tr := K2 tr ∧ ∀ r, r ∈ scale_ups d →
    up_after (scaled_target environ darwin (scale_ups d) (rs_app r)) (rs_app r) tr).
  assert (monotone K3) as HK3 by (intros tr es [Hd Hr]; split; [by apply HK2|]; intros c Hin; by apply monotone_up, Hr).
  eapply (keeps_bind _ _ _ (λ _, K3)); [apply keeps_learns; [done|done|apply rescale_spec]|intros []].
  eapply (keeps_bind _ _ _ (λ _, K3)).
  - destruct (commits d) eqn:Ec; [|by apply keeps_ret].
    destruct (diff_models d) as [ms|] eqn:Em; [|by intros s [? _]]. apply switch_keeps; [done|].
    intros tr [[[Hd Hdn] Hc] Hu]. exists d. done.
  - intros []. eapply triple_mono; [apply (keeps_calls K3); [done|unfold set_result; repeat emits_step]|done| |done].
    by intros [] s [? [[[? _] _] _]].
Qed.

(** *** After the request *)

Lemma committed_landed tr v : legal_run i gw (strategy request) tr (Committed v) → landed request tr.
Proof.
  remember (Committed v) as ph eqn:E. intros Hr. revert E.
  induction Hr as [|tr ph e ph' Hr IH He]; [done|]. intros ->.
  inversion He; subst.
  - exists ms, v. apply elem_of_app. right. constructor.
  - by apply monotone_landed, IH.
Qed.

Lemma succeed_keeps d :
  keeps (λ tr, diffed request d tr ∧ (commits d = true → landed request tr)) (succeed fuel request d : M _)
    (λ _ _, True).
Proof.
  set (K tr := diffed request d tr ∧ (commits d = true → landed request tr)).
  assert (monotone K) as HK.
  { intros tr es [Hd Hl]. split; [by apply monotone_in|]. intros Hc. by apply monotone_landed, Hl. }
  unfold succeed. eapply (keeps_bind _ _ _ (λ _, K)).
  { case_decide as Hst; [|by apply keeps_ret]. apply delete_keeps; [done| |by apply emits_read_until_readable].
    intros n tr Hn [Hd Hl]. left. exists d. auto 10. }
  intros []. eapply keeps_bind; [apply keeps_modify|intros []].
  eapply triple_mono; [apply (keeps_calls K); [done|unfold outcome; repeat emits_step]|done| |done].
  by intros o s [? _].
Qed.

Lemma roll_back_keeps sw :
  keeps (λ tr : list event, Called (RollingBack i gw) (Ok tt) ∈ tr) (roll_back environ darwin fuel gw sw switch_timeout : M _)
    (λ _ _, True).
Proof.
  unfold roll_back.
  set (K1 (tr : list event) := Called (RollingBack i gw) (Ok tt) ∈ tr ∧ ∃ n, Called (ResetRouting gw) (Ok n) ∈ tr).
  assert (monotone K1) as HK1.
  { intros tr es [Hr [n Hn]]. split; [by apply monotone_in|]. exists n. by apply monotone_in. }
  eapply (keeps_bind _ _ _ (λ _, K1)).
  { intros s Hs. pose proof (keeps_learns _ (λ n (tr : list event), Called (ResetRouting gw) (Ok n) ∈ tr) (ask (ResetRouting gw))
      (monotone_in _) ltac:(by emits_step) ltac:(apply triple_ask; intros ?? [n|e] _; [|done]; cbn;
        apply elem_of_app; right; constructor) s Hs) as H'.
    destruct (ask _ s) as [s' [n|e|]]; [|done..]. destruct H' as (? & ? & ?). split; [done|]. split; eauto. }
  intros n. eapply (keeps_bind _ _ _ (λ _, K1)).
  { apply keeps_calls; [done|]. repeat emits_step. by apply emits_wait_switched. }
  intros []. eapply (keeps_bind _ _ _ (λ d, undo_diffed request d)).
  { eapply triple_mono; [apply (keeps_learns K1 (λ d (tr : list event), Called (RollbackDiff gw) (Ok (Some d)) ∈ tr))|done| |done].
    - done.
    - by repeat emits_step.
    - apply (triple_loop _ _ _ (λ _ _, True)); [done|]. intros [].
      eapply (triple_bind _ _ _ (λ d s, if d is Some d then Called (RollbackDiff gw) (Ok (Some d)) ∈ trace s else True)).
      { apply triple_ask. intros s w [[d|]|e] _; [|done..]. cbn. apply elem_of_app. right. constructor. }
      intros [d|]; [by apply triple_ret|]. eapply (triple_bind _ _ _ (λ _ _, True)); [by intros s|].
      intros []. by apply triple_ret.
    - intros d s (? & [? ?] & ?). done. }
  intros d. eapply (keeps_bind _ _ _ (λ _, undo_diffed request d)).
  { apply delete_keeps; [apply monotone_undo| |by apply emits_read_until_readable].
    intros m tr Hm Hd. right. by exists d. }
  intros []. eapply (keeps_bind _ _ _ (λ _ _, True)).
  { eapply triple_mono; [apply (keeps_calls (undo_diffed request d)); [apply monotone_undo|by apply emits_restore_scaling]|done| |done].
    by intros [] s [? _]. }
  intros []. by apply triple_ret.
Qed.

Lemma rolled_back_keeps state reason :
  keeps (λ _, True) (rolled_back environ darwin fuel request switch_timeout state reason : M _) (λ _ _, True).
Proof.
  unfold rolled_back. eapply (keeps_bind _ _ _ (λ _ (tr : list event), Called (RollingBack i gw) (Ok tt) ∈ tr)).
  { eapply triple_mono; [apply (keeps_learns (λ _, True) (λ (_ : ()) (tr : list event), Called (RollingBack i gw) (Ok tt) ∈ tr))|done| |done].
    - done.
    - by emits_step.
    - apply triple_ask. intros s w [[]|e] _; [|done]. cbn. apply elem_of_app. right. constructor.
    - by intros [] s (? & _ & ?). }
  intros []. eapply keeps_bind; [apply keeps_calls; [apply monotone_in|by emits_step]|]. intros me.
  eapply keeps_bind; [apply roll_back_keeps|]. intros gone.
  eapply keeps_bind; [apply keeps_modify|]. intros []. apply keeps_calls; [done|]. unfold outcome. by repeat emits_step.
Qed.

(** *** The whole run *)

Lemma execute_keeps s :
  at_phase request Deploying s → obeyed (trace s) →
  obeyed (trace (execute environ darwin fuel request switch_timeout s).1).
Proof.
  intros Hph Hs. unfold execute, mbind at 1, worker_bind at 1, catch.
  unfold mbind at 1, worker_bind at 1.
  pose proof (apply_order environ darwin fuel request switch_timeout s Hph) as Ho.
  assert (keeps (λ _, True) (apply environ darwin fuel request switch_timeout : M _) (λ d, diffed request d)) as Hk.
  { unfold apply. eapply keeps_bind; [apply get_diff_knows|]. intros d.
    eapply keeps_bind; [apply apply_diff_keeps|]. intros []. by apply triple_ret. }
  specialize (Hk s (conj Hs I)).
  destruct (apply environ darwin fuel request switch_timeout s) as [s1 [d|e|]]; cbn; [| |done].
  - destruct Hk as [Hs1 Hd]. pose proof (succeed_keeps d s1) as Hd1. cbv beta in Hd1.
    destruct (succeed fuel request d s1) as [s2 [o|e|]]; cbn; apply Hd1; (split; [done|]; split; [done|]);
      intros Hc; rewrite Hc in Ho; destruct Ho as (v & Hr & _); by eapply committed_landed.
  - assert (∀ st why, obeyed (trace (rolled_back environ darwin fuel request switch_timeout st why s1).1)) as Hr.
    { intros st why. pose proof (rolled_back_keeps st why s1 (conj Hk I)) as Hr.
      destruct (rolled_back _ _ _ _ _ st why s1) as [s2 [o|e'|]]; [by destruct Hr|done..]. }
    destruct e; apply Hr.
Qed.
End facts.
End SafetyFacts.
