(* ===== verification/WorkerAttempts.v ===== *)
(** * How often a deploy worker tries

    The submits of a model's app, at most three in a request, and the end of a rollback's rescales. *)

From S2P Require Import Prelude StateStore DeployQueue ConfigSchema Ledger Diff DeployOptions Worker WorkerLogic WorkerOrder WorkerPlan.
Import WorkerFacts PlanFacts.
Local Open Scope Z_scope.

(** A submit of the app as a new model; a rescale submits it under the version it runs. *)
Definition submits (app : string) (e : event) : bool :=
  let '(Called c _) := e in
  match c with RunMany t => bool_decide (t_name t = app) && bool_decide (t_version t = None) | _ => false end.

Definition attempts (app : string) (tr : list event) : nat := length (filter (λ e, submits app e = true) tr).

Module AttemptFacts.

Lemma attempts_app app tr es : attempts app (tr ++ es) = (attempts app tr + attempts app es)%nat.
Proof. unfold attempts. by rewrite filter_app, length_app. Qed.

Lemma attempts_none app es : Forall (λ e, submits app e = false) es → attempts app es = 0%nat.
Proof.
  induction 1 as [|e es He _ IH]; [done|]. unfold attempts in *. rewrite filter_cons. by rewrite decide_False by congruence.
Qed.

Lemma attempts_one app e : (attempts app [e] ≤ 1)%nat ∧ (submits app e = false → attempts app [e] = 0%nat).
Proof.
  unfold attempts. rewrite filter_cons. case_decide as E; cbn; [split; [lia|congruence]|split; lia].
Qed.

Lemma attempts_submit t r : t_version t = None → attempts (t_name t) [Called (RunMany t) r] = 1%nat.
Proof.
  intros Hv. unfold attempts. rewrite filter_cons, decide_True; [done|]. cbn. by rewrite Hv, !bool_decide_true by done.
Qed.

Section facts.
Context `{Pydantic} `{DiffEnv} `{World W}.
Context (environ : dict string) (darwin : bool) (fuel : nat) (request : DeployRequest) (switch_timeout : Z).
Notation M := (worker_m W).
Notation gw := (gateway request).

(** At most three submits of every app so far. *)
Definition few (tr : list event) : Prop := ∀ app, (attempts app tr ≤ MAX_TRANSIENT_FAILURES)%nat.

Definition no_submit (e : event) : Prop := ∀ app, submits app e = false.

Lemma few_app tr es : few tr → Forall no_submit es → few (tr ++ es).
Proof.
  intros Htr Hes app. rewrite attempts_app, (attempts_none app es); [by rewrite Nat.add_0_r|].
  eapply Forall_impl; [exact Hes|]. intros e He. apply He.
Qed.

(** A part that submits nothing new. *)
Lemma few_keeps {A} (m : M A) : emits no_submit m → triple (λ s, few (trace s)) m (λ _ s, few (trace s)) (λ s, few (trace s)).
Proof.
  intros Hm. eapply (emits_triple _ (λ tr _, few tr)); [exact Hm|]. intros. by apply few_app.
Qed.

Lemma plain_no_submit : ∀ A (c : call A) r, plain_call c = true → no_submit (Called c r).
Proof. intros A c r Hc app. by destruct c. Qed.

Lemma rescale_no_submit t r : is_Some (t_version t) → no_submit (Called (RunMany t) r).
Proof. intros [v Hv] app. cbn. rewrite Hv. by rewrite andb_false_r. Qed.

  (** *** One model's attempts *)

  Section adds.
Context (adds : list ModelConfig).
Notation is_add := (is_add request adds).

(** Each failure was a submit, and one is under way unless the model waits out a backoff. *)
Definition counted (k : string) (item : Attempt) (tr : list event) : Prop :=
  is_add k item ∧ (failures item < MAX_TRANSIENT_FAILURES)%nat ∧
  attempts k tr = (failures item + (if retry_at item is None then 1 else 0))%nat.

(** The model is about to be submitted. *)
Definition due (k : string) (item : Attempt) (tr : list event) : Prop :=
  is_add k item ∧ (failures item < MAX_TRANSIENT_FAILURES)%nat ∧ retry_at item = None ∧
  attempts k tr = failures item.

Lemma stable_attempts {A} (m : M A) s k :
  emits (λ e, submits k e = false) m → attempts k (trace (m s).1) = attempts k (trace s).
Proof.
  intros Hm. destruct (Hm s) as (es & -> & Hes & _). rewrite attempts_app, (attempts_none k es) by done. lia.
Qed.

Lemma failed_attempt_counts k item text :
  is_add k item →
  triple (λ s, few (trace s) ∧ attempts k (trace s) = S (failures item)) (failed_attempt k item text : M _)
    (λ item' s, counted k item' (trace s) ∧ few (trace s)) (λ s, few (trace s)).
Proof.
  intros Hadd s [Hf Hn].
  assert (emits no_submit (failed_attempt k item text : M _)) as He.
  { apply emits_failed_attempt, plain_no_submit. }
  pose proof (few_keeps _ He s Hf) as Hf'.
  assert (attempts k (trace (failed_attempt k item text s).1) = S (failures item)) as Hn'.
  { rewrite stable_attempts; [done|]. eapply emits_mono; [|exact He]. intros e Hx. apply Hx. }
  assert (match failed_attempt k item text s with
          | (_, Val item') => is_add k item' ∧ failures item' = S (failures item) ∧
              (S (failures item) < MAX_TRANSIENT_FAILURES)%nat ∧ is_Some (retry_at item')
          | _ => True end) as Hi.
  { clear -Hadd. unfold failed_attempt, mbind, worker_bind. destruct (ask _ s) as [s1 [f|e|]]; [|done..].
    destruct f; [done|]. case_decide as Hd; [done|]. unfold monotonic. destruct (clock _) as [w now]. cbn.
    split_and!; [done|done|lia|by eexists]. }
  destruct (failed_attempt k item text s) as [s' [item'|e|]]; [|done..]. cbn in *.
  destruct Hi as (Ha & Hfa & Hlt & [x Hx]). split; [|done]. unfold counted. rewrite Hfa, Hx.
  split_and!; [done|done|lia].
Qed.

Lemma submit_counts k item :
  triple (λ s, due k item (trace s) ∧ few (trace s)) (submit environ darwin request k item)
    (λ item' s, counted k item' (trace s) ∧ few (trace s)) (λ s : state W, few (trace s)).
Proof.
  intros s [(Ha & Hlt & Hr & Hn) Hf]. unfold submit.
  set (Q (s : state W) := few (trace s) ∧ attempts k (trace s) = S (failures item)).
  refine (triple_bind _ _ (λ s : state W, few (trace s) ∧ attempts k (trace s) = failures item)
    (λ r (s : state W), Q s) _ _ _ _ s (conj Hf Hn)).
  - apply (triple_catch _ _ _ _ _ Q); [|by intros ? []|intros e; by apply triple_ret].
    eapply (triple_bind _ _ _ (λ _ s, Q s)); [|intros []; by apply triple_ret].
    unfold submit_app. apply triple_ask. intros s1 w r [Hf1 Hn1]. cbn.
    assert (Q (mkState w (trace s1 ++ [Called (RunMany (submit_target environ darwin (at_config item) gw (env request))) r]) (self s1))) as HQ.
    { split; cbn [trace].
      - intros app. rewrite attempts_app. destruct Ha as [_ <-].
        destruct (decide (deployment_name gw (at_config item) = app)) as [<-|Hne].
        + pose proof (proj1 (attempts_one (deployment_name gw (at_config item))
            (Called (RunMany (submit_target environ darwin (at_config item) gw (env request))) r))). lia.
        + rewrite (proj2 (attempts_one _ _)); [specialize (Hf1 app); lia|]. cbn. by rewrite bool_decide_false.
      - rewrite attempts_app, Hn1. destruct Ha as [_ <-].
        pose proof (attempts_submit (submit_target environ darwin (at_config item) gw (env request)) r eq_refl) as E1.
        cbn [t_name submit_target run_target] in E1. rewrite E1. lia. }
    by destruct r.
  - intros [text|]; [by apply failed_attempt_counts|]. apply triple_ret. intros s1 [Hf1 Hn1]. split; [|done].
    unfold counted. rewrite Hr. split_and!; [done|done|lia].
Qed.

Lemma submit_others k item k' :
  is_add k item → k' ≠ k → emits (λ e, submits k' e = false) (submit environ darwin request k item : M _).
Proof.
  intros [_ <-] Hne. apply emits_submit.
  - intros A c r Hc. by apply plain_no_submit.
  - intros t r _ Ht. cbn. rewrite Ht. by rewrite bool_decide_false.
Qed.

Lemma resubmit_counts now k item :
  triple (λ s, counted k item (trace s) ∧ few (trace s)) (resubmit environ darwin request now k item)
    (λ r s, match r with Some x => counted k x (trace s) | None => True end ∧ few (trace s))
    (λ s : state W, few (trace s)).
Proof.
  unfold resubmit. destruct (retry_at item) as [at_|] eqn:Er; [|by apply triple_ret].
  destruct (at_ <=? now); [|by apply triple_ret].
  intros s [(Ha & Hlt & Hn) Hf]. rewrite Er, Nat.add_0_r in Hn.
  refine (triple_bind _ _ _ _ _ _ (submit_counts k (mkAttempt (at_config item) (failures item) (last_error item) None (seen item))) _ s (conj (conj Ha (conj Hlt (conj eq_refl Hn))) Hf)).
  intros item'. by apply triple_ret.
Qed.

Lemma poll_up_counts st cr k item :
  triple (λ s, counted k item (trace s) ∧ few (trace s)) (poll_up st cr k item)
    (λ r s, match r with Some x => counted k x (trace s) | None => True end ∧ few (trace s))
    (λ s : state W, few (trace s)).
Proof.
  assert (∀ why (Q : option Attempt → state W → Prop), triple (λ s, counted k item (trace s) ∧ few (trace s))
    (fail (name (at_config item)) why) Q (λ s, few (trace s))) as Hfail by (by intros why Q s [_ ?]).
  unfold poll_up. eapply (triple_bind _ _ _ (λ _ s, counted k item (trace s) ∧ few (trace s))).
  { destruct (Dict.get k cr) as [why|]; [by intros s [_ ?]|by apply triple_ret]. }
  intros []. destruct (retry_at item) as [at_|] eqn:Er; [by apply triple_ret|].
  assert (∀ why, triple (λ s, counted k item (trace s) ∧ few (trace s))
    (if seen item then fail (name (at_config item)) why else mret (Some item))
    (λ r s, match r with Some x => counted k x (trace s) | None => True end ∧ few (trace s))
    (λ s : state W, few (trace s))) as Hgone.
  { intros why. destruct (seen item); [apply Hfail|by apply triple_ret]. }
  destruct (Dict.get k st) as [a|]; [|apply Hgone].
  destruct (decide (a_status a = DELETING)); [apply Hgone|].
  destruct (decide (a_status a = RUNNING)).
  { eapply (triple_bind _ _ _ (λ _ s, few (trace s))); [by intros s [_ ?]|]. intros []. by apply triple_ret. }
  destruct (decide _); [|apply triple_ret; intros s [(Ha & Hlt & Hn) Hf]; rewrite Er in Hn; done].
  set (item' := mkAttempt (at_config item) (failures item) (last_error item) None true).
  eapply (triple_bind _ _ _ (λ x s, counted k x (trace s) ∧ few (trace s)));
    [|intros x; by apply triple_ret].
  intros s [(Ha & Hlt & Hn) Hf]. rewrite Er in Hn.
  apply (failed_attempt_counts k item' (a_message a) Ha). split; [done|]. cbn. lia.
Qed.

Lemma same_counted k item tr tr' : attempts k tr' = attempts k tr → counted k item tr → counted k item tr'.
Proof. unfold counted. by intros ->. Qed.

(** Each pending model is counted, and no app has too many submits. *)
Definition counting (p : dict Attempt) (tr : list event) : Prop :=
  NoDup (Dict.keys p) ∧ (∀ k x, (k, x) ∈ p → counted k x tr) ∧ few tr.

(** A part without submits keeps the counts. *)
Lemma counting_keeps p {A} (m : M A) :
  emits no_submit m →
  triple (λ s, counting p (trace s)) m (λ _ s, counting p (trace s)) (λ s, few (trace s)).
Proof.
  intros Hm. eapply triple_mono; [eapply (emits_triple _ (λ tr _, counting p tr)); [exact Hm|]|done|done|].
  - intros tr es _ (Hnd & Hc & Hf) Hes. split_and!; [done| |by apply few_app].
    intros k x Hin. eapply same_counted; [|by apply Hc]. rewrite attempts_app, (attempts_none k es); [lia|].
    eapply Forall_impl; [exact Hes|]. intros e He. apply He.
  - by intros s (_ & _ & ?).
Qed.

(** A round of one step per pending model, which submits no other model. *)
Lemma counting_round (body : string → Attempt → M (option Attempt)) p :
  (∀ k x k', is_add k x → k' ≠ k → emits (λ e, submits k' e = false) (body k x)) →
  (∀ k x, triple (λ s, counted k x (trace s) ∧ few (trace s)) (body k x)
    (λ r s, match r with Some x => counted k x (trace s) | None => True end ∧ few (trace s))
    (λ s, few (trace s))) →
  triple (λ s, counting p (trace s)) (for_pending body p) (λ p s, counting p (trace s)) (λ s, few (trace s)).
Proof.
  intros He Hb s (Hnd & Hc & Hf).
  pose proof (triple_for_pending body counted counted (λ _ _, True) few p Hnd Hb) as Ht.
  assert (∀ k x s k', counted k x (trace s) → k' ≠ k → attempts k' (trace (body k x s).1) = attempts k' (trace s)) as Hfr.
  { intros k x s0 k' [Ha _] Hne. apply stable_attempts. by apply He. }
  specialize (Ht ltac:(intros k x s0 k' Hk Hne; cbv zeta; split_and!; [| |done]; intros x';
    by apply same_counted, Hfr) s (conj Hc Hf)).
  destruct (for_pending body p s) as [s' [p'|e|]]; [|done..]. destruct Ht as (? & ? & _ & _ & ?). done.
Qed.

Lemma bring_up_few :
  triple (λ s, ∀ app, attempts app (trace s) = 0%nat) (bring_up environ darwin fuel request adds)
    (λ _ s, few (trace s)) (λ s : state W, few (trace s)).
Proof.
  unfold bring_up. set (pending := Dict.of_list _).
  assert (∀ k x, (k, x) ∈ pending → is_add k x ∧ x = new_attempt (at_config x)) as Hadd.
  { by intros k x (c & [= -> ->] & Hc)%Dict.elem_of_list_sub%list_elem_of_fmap. }
  assert (∀ s : state W, (∀ app, attempts app (trace s) = 0%nat) → few (trace s)) as Hzero.
  { intros s Hs app. rewrite Hs. apply le_0_n || lia. }
  assert (NoDup (Dict.keys pending)) as Hnd by apply Dict.NoDup_keys_of_list.
  destruct pending as [|p0 pending0] eqn:Ep; [by apply triple_ret|].
  rewrite <-Ep in *. clear p0 pending0 Ep.
  eapply (triple_bind _ _ _ (λ _ s, ∀ app, attempts app (trace s) = 0%nat)).
  { apply triple_ask. intros s w r Hs. cbv zeta.
    assert (∀ app, attempts app (trace s ++ [Called (ForgetDeaths (Dict.keys pending)) r]) = 0%nat) as Hs'.
    { intros app. by rewrite attempts_app, Hs, attempts_none by (by constructor). }
    destruct r; [done|]. intros app. cbn [trace]. rewrite Hs'. lia. }
  intros []. eapply (triple_bind _ _ _ (λ p s, counting p (trace s))).
  { eapply triple_mono; [apply (triple_for_pending _ due counted (λ _ _, True) few _ Hnd)|..].
    - intros k x. eapply triple_bind; [apply submit_counts|]. intros x'. by apply triple_ret.
    - intros k x s k' [Ha _] Hne.
      assert (attempts k' (trace ((item ← submit environ darwin request k x; mret (Some item)) s).1) =
        attempts k' (trace s)) as E.
      { apply stable_attempts. apply emits_bind; [by apply submit_others|]. intros. emits_step. }
      cbv zeta. split_and!; [| |done]; intros x'; [unfold due; by rewrite E|by apply same_counted].
    - intros s Hs. split; [|by apply Hzero]. intros k x Hin. destruct (Hadd k x Hin) as [Ha Hx].
      rewrite Hx. unfold due. rewrite Hx in Ha. cbn. split_and!; [done|unfold MAX_TRANSIENT_FAILURES; lia|done|apply Hs].
    - intros p s (? & ? & _ & _ & ?). done.
    - done. }
  intros p. apply (triple_loop _ _ _ (λ p s, counting p (trace s))); [by intros ? s (_ & _ & ?)|].
  clear p. intros p. destruct p as [|p0 p'] eqn:Ep; [apply triple_ret; by intros s (_ & _ & ?)|].
  rewrite <-Ep. clear p0 p' Ep.
  eapply triple_bind; [apply counting_keeps; emits_step|]. intros [].
  eapply triple_bind; [apply counting_keeps; emits_step|]. intros now.
  eapply triple_bind.
  { apply counting_round; [|apply resubmit_counts]. intros k x k' [_ <-] Hne. apply emits_resubmit.
    - intros A c r Hc. by apply plain_no_submit.
    - intros t r _ Ht. cbn. rewrite Ht. by rewrite bool_decide_false. }
  clear p. intros p. eapply triple_bind; [apply counting_keeps, emits_try_read, plain_no_submit|].
  intros [st|]; [|by apply triple_ret].
  eapply triple_bind; [apply counting_keeps; emits_step; by intros app|]. intros cr.
  eapply (triple_bind _ _ _ (λ p s, counting p (trace s))); [|intros p'; by apply triple_ret].
  apply counting_round; [|apply poll_up_counts]. intros k x k' _ _. apply emits_poll_up.
  intros A c r Hc. by apply plain_no_submit.
Qed.
  End adds.

  (** *** The whole run *)

Definition none_yet (s : state W) : Prop := ∀ app, attempts app (trace s) = 0%nat.

Lemma none_few s : none_yet s → few (trace s).
Proof. intros Hs app. rewrite Hs. unfold MAX_TRANSIENT_FAILURES. lia. Qed.

Lemma none_keeps {A} (m : M A) : emits no_submit m → triple none_yet m (λ _, none_yet) (λ s, few (trace s)).
Proof.
  intros Hm. eapply triple_mono; [eapply (emits_triple _ (λ tr _, ∀ app, attempts app tr = 0%nat)); [exact Hm|]|done|done|apply none_few].
  intros tr es _ Htr Hes app. rewrite attempts_app, Htr, (attempts_none app es); [done|].
  eapply Forall_impl; [exact Hes|]. intros e He. apply He.
Qed.

Lemma apply_diff_few d :
  triple none_yet (apply_diff environ darwin fuel request switch_timeout d) (λ _ s, few (trace s)) (λ s : state W, few (trace s)).
Proof.
  assert (∀ rs, emits no_submit (rescale environ darwin fuel request rs : M _)) as Hrs.
  { intros rs. apply emits_rescale; [apply plain_no_submit|apply rescale_no_submit]. }
  assert (∀ names, emits no_submit (delete_apps fuel names (read fuel request) : M _)) as Hdel.
  { intros names. apply emits_delete_apps; [by intros n r _ app|apply emits_read, plain_no_submit]. }
  unfold apply_diff.
  do 7 (eapply (triple_bind _ _ _ (λ _, none_yet)); [apply none_keeps; unfold set_result; repeat emits_step;
    first [done|apply emits_log, plain_no_submit|apply Hrs|apply Hdel|by intros app]|intros []]).
  eapply (triple_bind _ _ _ (λ _ s, few (trace s))); [apply bring_up_few|intros []].
  eapply (triple_bind _ _ _ (λ _ s, few (trace s))); [apply few_keeps, Hrs|intros []].
  eapply (triple_bind _ _ _ (λ _ s, few (trace s))); [|intros []; apply few_keeps; unfold set_result; repeat emits_step].
  destruct (commits d); [|by apply triple_ret]. destruct (diff_models d) as [ms|]; [|by apply triple_raise].
  unfold switch_and_commit.
  eapply (triple_bind _ _ _ (λ _ s, few (trace s))); [apply few_keeps; emits_step; by intros app|intros n].
  eapply (triple_bind _ _ _ (λ _ s, few (trace s))); [apply few_keeps; emits_step|intros []].
  eapply (triple_bind _ _ _ (λ _ s, few (trace s))).
  { apply few_keeps, emits_wait_switched. by intros l r app. }
  intros [|]; [|by apply triple_raise].
  eapply (triple_bind _ _ _ (λ _ s, few (trace s))); [apply few_keeps; emits_step; by intros app|intros [v|]];
    [|by apply triple_raise].
  eapply (triple_bind _ _ _ (λ _ s, few (trace s))); [by intros s|]. intros []. by intros s.
Qed.

Lemma rolled_back_no_submit st why :
  emits no_submit (rolled_back environ darwin fuel request switch_timeout st why : M _).
Proof.
  unfold rolled_back, roll_back, outcome. repeat emits_step; try by intros app.
  - apply emits_wait_switched. by intros l r app.
  - apply emits_delete_apps; [by intros n r _ app|]. apply emits_read_until_readable. by intros r app.
  - apply emits_restore_scaling; [by intros n r app|apply rescale_no_submit].
Qed.

Lemma execute_few s : none_yet s → few (trace (execute environ darwin fuel request switch_timeout s).1).
Proof.
  intros Hs. unfold execute, mbind at 1, worker_bind at 1, catch. unfold mbind at 1, worker_bind at 1.
  assert (triple none_yet (apply environ darwin fuel request switch_timeout : M _) (λ _ s, few (trace s))
    (λ s, few (trace s))) as Ha.
  { unfold apply. eapply triple_bind; [apply none_keeps, emits_get_diff, plain_no_submit|]. intros d.
    eapply triple_bind; [apply apply_diff_few|]. intros []. by apply triple_ret. }
  specialize (Ha s Hs).
  destruct (apply environ darwin fuel request switch_timeout s) as [s1 [d|e|]]; cbn; [| |done].
  - assert (emits no_submit (succeed fuel request d : M _)) as Hd.
    { unfold succeed, outcome. repeat emits_step; try done.
      apply emits_delete_apps; [by intros n r _ app|]. apply emits_read_until_readable. by intros r app. }
    pose proof (few_keeps _ Hd s1 Ha) as H'. by destruct (succeed fuel request d s1) as [s2 [o|e|]].
  - assert (∀ st why, few (trace (rolled_back environ darwin fuel request switch_timeout st why s1).1)) as Hr.
    { intros st why. pose proof (few_keeps _ (rolled_back_no_submit st why) s1 Ha) as H'.
      by destruct (rolled_back _ _ _ _ _ st why s1) as [s2 [o|e'|]]. }
    destruct e; apply Hr.
Qed.
End facts.
End AttemptFacts.
