(* ===== verification/WorkerTheorems.v ===== *)
(** * What every run of a deploy worker guarantees

    The theorems about [Worker.run] over any world, with a small simulated Serve and deploy
    coordinator to apply them to. *)

From S2P Require Import Prelude StateStore DeployQueue ConfigSchema Ledger Diff DeployOptions Worker WorkerLogic WorkerOrder WorkerPlan WorkerSafety WorkerAttempts.
Import WorkerFacts PlanFacts SafetyFacts AttemptFacts.
Local Open Scope Z_scope.

(** ** A simulated world

    A Serve that runs what it is given at once, and a deploy coordinator with one diff. *)

Module Simulation.
Import ConfigSchema.Example.

Record Sim : Type := mkSim { sim_now : Z; sim_apps : dict App; sim_diff : Diff; sim_undo : Diff; sim_switches : bool }.

Definition set_apps (apps : dict App) (w : Sim) : Sim :=
  mkSim (sim_now w) apps (sim_diff w) (sim_undo w) (sim_switches w).

Definition sim_answer {A} (c : call A) (w : Sim) : Sim * res A :=
  match c in call A return Sim * res A with
  | IsCancelled _ => (w, Ok false)
  | RollingBack _ _ => (w, Ok tt)
  | CrashLooping _ => (w, Ok [])
  | PopFatalError _ => (w, Ok None)
  | ForgetDeaths _ => (w, Ok tt)
  | DiffOf _ _ => (w, Ok (Some (sim_diff w)))
  | RollbackDiff _ => (w, Ok (Some (sim_undo w)))
  | Switch _ _ _ => (w, Ok 1)
  | ResetRouting _ => (w, Ok 2)
  | Commit _ _ _ => (w, Ok (Some 5))
  | AskSwitched _ _ _ => (w, Ok (sim_switches w))
  | ServeStatus => (w, Ok (sim_apps w))
  | ServeDelete n => (set_apps (Dict.pop n (sim_apps w)) w, Ok tt)
  | LiveAppOf _ => (w, Err (RuntimeError "no controller"))
  | RunMany t => (set_apps (Dict.set (t_name t) (mkApp RUNNING "") (sim_apps w)) w, Ok tt)
  | ResolveSources _ => (w, Ok tt)
  | ClusterGpus => (w, Ok (inject_Z 8))
  end.

#[export] Instance sim_world : World Sim := {
  answer A c w := sim_answer c w;
  clock w := (w, sim_now w);
  pause d w := mkSim (sim_now w + d) (sim_apps w) (sim_diff w) (sim_undo w) (sim_switches w);
}.

#[export] Instance sim_env : DiffEnv := {
  serve_defaults d := d;
  dump_without_name _ := JObj [];
  py_repr _ := "";
}.

Definition sim_request : DeployRequest := mkRequest "gw" (mode additive) blue_green None [] "r1".

(** One model to add, one app to retire, and one left behind. *)
Definition model_a : ModelConfig := with_name "a" example_model.
Definition add_diff : Diff :=
  mkDiff "gw" [("a", Add)]%string ["gw.x-0000000000"]%string [] [model_a] [] ["gw.b-0000000000"]%string
    (Some [LedgerTheorems.raw_named "a"]) true [].
Definition undo_diff : Diff := mkDiff "gw" [] [deployment_name "gw" model_a] [] [] [] [] None false [].

Definition sim (switches : bool) : Sim :=
  mkSim 0 [("gw.x-0000000000", mkApp RUNNING ""); ("gw.b-0000000000", mkApp RUNNING "")]%string
    add_diff undo_diff switches.

Definition sim_run (switches : bool) : state Sim * ret DeployQueue.outcome :=
  run [] false 20 sim_request (60 * second) (sim switches).
End Simulation.

(** ** Properties *)

Module WorkerProperties.
Import ConfigSchema.Example Simulation.




(** a request submits each app as a new model at most three times, however often its submits
    raise, Serve reports its deploy failed or its backoffs run out; only rescales, under the version
    an app already runs, come on top. *)
Theorem at_most_three_attempts `{Pydantic} `{DiffEnv} `{World W} environ darwin fuel request timeout (w : W) app :
  (attempts app (trace (run environ darwin fuel request timeout w).1) ≤ 3)%nat.
Proof. apply execute_few. done. Qed.

(** *** The end of a rollback's rescales *)

(** A clock that no call turns back, and that a pause moves on by at least its length. *)
Record clock_runs {W} `{World W} (time : W → Z) : Prop := {
  runs_clock w : time w ≤ (clock w).2 ∧ (clock w).2 ≤ time (clock w).1;
  runs_answer A (c : call A) w : time w ≤ time (answer c w).1;
  runs_pause d w : 0 ≤ d → time w + d ≤ time (pause d w);
}.

Section ends.
Context `{Pydantic} `{World W} (time : W → Z) (Hclock : clock_runs time).
Context (environ : dict string) (darwin : bool) (fuel : nat).

Lemma ask_time {A} (c : call A) (s : state W) : time (world s) ≤ time (world (ask c s).1).
Proof.
  unfold ask. pose proof (runs_answer _ Hclock _ c (world s)) as Ht. by destruct (answer c (world s)).
Qed.

(** One app's step ends, and past the deadline it gives the app up. *)
Lemma restore_one_ends deadline app r (s : state W) :
  ∃ s' x, restore_one environ darwin deadline app r s = (s', Val x) ∧ time (world s) ≤ time (world s') ∧
    (deadline ≤ time (world s) → x = None).
Proof.
  unfold restore_one, catch. unfold mbind at 1, worker_bind at 1. unfold mbind at 1, worker_bind at 1.
  assert (∀ s1 : state W, time (world s) ≤ time (world s1) → ∃ s' x,
    ((now ← monotonic; mret (if now <? deadline then Some r else None)) : worker_m W (option Rescale)) s1 = (s', Val x) ∧
    time (world s) ≤ time (world s') ∧ (deadline ≤ time (world s) → x = None)) as Hfail.
  { intros s1 Hs1. unfold mbind, worker_bind, monotonic. pose proof (runs_clock _ Hclock (world s1)) as [Hc1 Hc2].
    destruct (clock (world s1)) as [w n]. cbn in *. do 2 eexists. split; [reflexivity|]. cbn. split; [lia|].
    intros Hd. by rewrite (proj2 (Z.ltb_ge _ _)) by lia. }
  pose proof (ask_time (LiveAppOf app) s) as H1'.
  assert (∀ x, ask (LiveAppOf app) s ≠ (x, Stuck)) as Hstuck.
  { intros x. unfold ask. destruct (answer _ _) as [w []]; congruence. }
  destruct (ask (LiveAppOf app) s) as [s1 [live|e|]]; cbn in *; [|by apply Hfail|by destruct (Hstuck s1)].
  destruct live as [live|]; cbn; [|do 2 eexists; split; [reflexivity|]; by split].
  unfold rescale_app. pose proof (ask_time (RunMany (rescale_target environ darwin app live (rs_scaling r))) s1) as H2'.
  assert (∀ x, ask (RunMany (rescale_target environ darwin app live (rs_scaling r))) s1 ≠ (x, Stuck)) as Hstuck'.
  { intros x. unfold ask. destruct (answer _ _) as [w []]; congruence. }
  destruct (ask (RunMany _) s1) as [s2 [u|e|]]; cbn in *; [|apply Hfail; lia|by destruct (Hstuck' s2)].
  do 2 eexists. split; [reflexivity|]. split; [lia|done].
Qed.

Lemma restore_round_ends deadline l (s : state W) :
  ∃ s' l', for_pending (restore_one environ darwin deadline) l s = (s', Val l') ∧ time (world s) ≤ time (world s') ∧
    (deadline ≤ time (world s) → l' = []).
Proof.
  revert s. induction l as [|[k x] l IH]; intros s; [do 2 eexists; split; [reflexivity|]; by split|].
  cbn [for_pending]. unfold mbind, worker_bind.
  destruct (restore_one_ends deadline k x s) as (s1 & y & -> & Ht1 & Hy).
  destruct (IH s1) as (s2 & l' & -> & Ht2 & Hl). do 2 eexists. split; [reflexivity|]. split; [lia|].
  intros Hd. rewrite Hy by lia. apply Hl. lia.
Qed.

Lemma restore_loop_ends deadline n l (s : state W) :
  deadline - time (world s) ≤ POLL_SECONDS * Z.of_nat n → (n < fuel)%nat →
  ∃ s', loop fuel (λ left,
    left ← for_pending (restore_one environ darwin deadline) left;
    if left is [] then mret (inr tt) else _ ← sleep POLL_SECONDS; mret (inl left)) l s = (s', Val tt).
Proof.
  revert n l s. induction fuel as [|f IH]; intros n l s Hd Hn; [lia|].
  cbn [loop]. unfold mbind at 1, worker_bind at 1. unfold mbind at 1, worker_bind at 1.
  destruct (restore_round_ends deadline l s) as (s1 & l' & -> & Ht & Hl).
  destruct l' as [|p l']; [by eexists|]. unfold mbind, worker_bind, sleep. cbn [mret worker_ret].
  pose proof (runs_pause _ Hclock POLL_SECONDS (world s1) ltac:(done)) as Hp.
  destruct n as [|n]; [discriminate Hl; lia|]. apply (IH n); [|lia]. cbn [world]. lia.
Qed.
End ends.

(** a rollback's rescales always end: with a clock that runs, the loop that gives the apps back
    their committed replica counts returns within sixteen polls, whatever Serve answers or raises. *)
Theorem rollback_rescales_end `{Pydantic} `{World W} (time : W → Z) environ darwin fuel rescales (s : state W) :
  clock_runs time → (16 ≤ fuel)%nat →
  ∃ s', restore_scaling environ darwin fuel rescales s = (s', Val tt).
Proof.
  intros Hclock Hfuel. unfold restore_scaling. cbv zeta. unfold mbind at 1, worker_bind at 1, monotonic.
  pose proof (runs_clock _ Hclock (world s)) as [H1' H2']. destruct (clock (world s)) as [w n]. cbn in H1', H2'.
  destruct (Dict.of_list _); [by eexists|].
  apply (restore_loop_ends time Hclock environ darwin fuel _ 15); [|lia].
  cbn [world]. unfold UNREADABLE_LIMIT, POLL_SECONDS. lia.
Qed.

(** A Serve that answers no [live_app], for ever. *)
Lemma rollback_rescales_end_witness :
  ∃ s', restore_scaling [] false 16 [mkRescale "a" "gw.a-0000000000" (2, None)]
    (mkState (sim true) [] new_run) = (s', Val tt).
Proof.
  apply (rollback_rescales_end sim_now); [|done]. split.
  - intros w. split; reflexivity.
  - intros A c w. destruct c; reflexivity.
  - intros d w _. reflexivity.
Defined.
End WorkerProperties.
