(* ===== verification/DownloadLeases.v ===== *)
(** * Download leases

    [src/modelship/utils/download_leases.py], [DownloadLeases]: an actor that grants one download
    lease per key, reaps the ones their holders stop renewing, and frees a reaped key once its
    holder's leftovers are removed. Clock readings are integer nanoseconds. *)

From S2P Require Import Prelude StateStore.
Local Open Scope Z_scope.

Definition LEASE_SECONDS : Z := 30 * second.
Definition IDLE_EXIT_SECONDS : Z := 60 * second.

Section leases.
(** [RemoteSource] *)
Context {Source : Type}.

(** [_Lease] *)
Record Lease : Type := mkLease {
  holder : string;
  node_id : string;
  source : Source;
  expires_at : Z;
  cleaning : bool;
}.

(** [cleanups]: the keys whose [_clean] task is running. *)
Record t : Type := mk {
  leases : gmap string Lease;
  grants_from : Z;
  last_call : Z;
  closing : bool;
  cleanups : list string;
}.

(** [__init__] at clock reading [now] *)
Definition init (now : Z) : t := mk ∅ (now + LEASE_SECONDS) now false [].

Inductive grant : Type := Granted | HeldUp (why : string).

Definition acquire (key : string) (src : Source) (who node : string) (now : Z) (s : t) : t * grant :=
  let s := mk (leases s) (grants_from s) now (closing s) (cleanups s) in
  if closing s then (s, HeldUp "lease service shutting down")
  else if now <? grants_from s then (s, HeldUp "lease service starting")
  else
    match leases s !! key with
    | Some l =>
        (s, HeldUp (if cleaning l then "cleaning up after " +:+ holder l else "held by " +:+ holder l))
    | None =>
        (mk (<[key := mkLease who node src (now + LEASE_SECONDS) false]> (leases s)) (grants_from s) now
           (closing s) (cleanups s), Granted)
    end.

Definition renew (key who : string) (now : Z) (s : t) : t * bool :=
  let s := mk (leases s) (grants_from s) now (closing s) (cleanups s) in
  match leases s !! key with
  | Some l =>
      if cleaning l || negb (bool_decide (holder l = who)) then (s, false)
      else
        (mk (<[key := mkLease (holder l) (node_id l) (source l) (now + LEASE_SECONDS) (cleaning l)]> (leases s))
           (grants_from s) now (closing s) (cleanups s), true)
  | None => (s, false)
  end.

Definition release (key who : string) (now : Z) (s : t) : t :=
  let s := mk (leases s) (grants_from s) now (closing s) (cleanups s) in
  match leases s !! key with
  | Some l =>
      if negb (cleaning l) && bool_decide (holder l = who)
      then mk (delete key (leases s)) (grants_from s) now (closing s) (cleanups s)
      else s
  | None => s
  end.

(** [_idle] *)
Definition idle (now : Z) (s : t) : bool :=
  bool_decide (leases s = ∅) && (IDLE_EXIT_SECONDS <=? now - last_call s).

(** A lease [_reap] starts to clean up. *)
Definition reaped (now : Z) (l : Lease) : bool := negb (cleaning l) && (expires_at l <=? now).

Definition start_cleaning (now : Z) (l : Lease) : Lease :=
  if reaped now l then mkLease (holder l) (node_id l) (source l) (expires_at l) true else l.

(** [_reap]; closing kills the actor *)
Definition reap (now : Z) (s : t) : t :=
  let due := (filter (λ kl, reaped now kl.2 = true) (map_to_list (leases s))).*1 in
  let s := mk (start_cleaning now <$> leases s) (grants_from s) (last_call s) (closing s) (cleanups s ++ due) in
  if negb (closing s) && idle now s
  then mk (leases s) (grants_from s) (last_call s) true (cleanups s) else s.

(** The end of a [_clean], whether the leftovers could be removed or not. *)
Definition clean_over (key : string) (now : Z) (s : t) : t :=
  mk (delete key (leases s)) (grants_from s) now (closing s) (filter (λ k, k ≠ key) (cleanups s)).

(** ** Runs

    The calls and tasks of the actor in the order its event loop runs them, with the clock, and
    its restarts: a crashed or idle actor is created afresh by the next caller. *)
Inductive op : Type :=
| Acquire (key : string) (src : Source) (who node : string)
| Renew (key who : string)
| Release (key who : string)
| Reap
| CleanOver (key : string)
| Recreated.

(** A run so far: its state, its clock, and its calls with when they ran and whether they were
    granted or renewed, the latest first. *)
Record run_state : Type := mkRunState { now_ : Z; state_ : t; calls : list (op * Z * bool) }.

Definition start (now : Z) : run_state := mkRunState now (init now) [].

Definition exec (o : op) (now : Z) (r : run_state) : option run_state :=
  let s := state_ r in
  if decide (now_ r ≤ now) then
    match o with
    | Acquire k src who node =>
        let '(s, g) := acquire k src who node now s in
        Some (mkRunState now s ((o, now, if g is Granted then true else false) :: calls r))
    | Renew k who =>
        let '(s, b) := renew k who now s in Some (mkRunState now s ((o, now, b) :: calls r))
    | Release k who => Some (mkRunState now (release k who now s) ((o, now, true) :: calls r))
    | Reap => Some (mkRunState now (reap now s) ((o, now, true) :: calls r))
    | CleanOver k =>
        if decide (k ∈ cleanups s) then Some (mkRunState now (clean_over k now s) ((o, now, true) :: calls r)) else None
    | Recreated => Some (mkRunState now (init now) ((o, now, true) :: calls r))
    end
  else None.

Fixpoint exec_all (os : list (op * Z)) (r : run_state) : option run_state :=
  match os with [] => Some r | (o, now) :: os => r ← exec o now r; exec_all os r end.

(** Until when a holder may go on, by its own calls and their answers: a lease period from its
    latest acquire or renewal that was answered yes, unless it has released the key since. *)
Fixpoint held_until (key who : string) (cs : list (op * Z * bool)) : option Z :=
  match cs with
  | [] => None
  | (Acquire k _ h _, now, true) :: cs | (Renew k h, now, true) :: cs =>
      if decide (k = key ∧ h = who) then Some (now + LEASE_SECONDS) else held_until key who cs
  | (Release k h, _, _) :: cs => if decide (k = key ∧ h = who) then None else held_until key who cs
  | _ :: cs => held_until key who cs
  end.
End leases.

Arguments Lease : clear implicits. Arguments t : clear implicits. Arguments op : clear implicits.
Arguments run_state : clear implicits.

(** ** Lemmas *)

Module LeaseFacts.
Section facts.
Context {Source : Type}.
Implicit Types (r : run_state Source) (s : t Source).

(** A cleaned-up lease had expired; a lease in the table was granted by this actor; a holder that
    may go on has the key's lease, or had it from a predecessor and its period ends before this
    actor grants anything. No two holders may go on. *)
Record inv r : Prop := {
  iv_cleaning k l : leases (state_ r) !! k = Some l → cleaning l = true → expires_at l ≤ now_ r;
  iv_granted k l : leases (state_ r) !! k = Some l → grants_from (state_ r) ≤ now_ r;
  iv_cleanups k : k ∈ cleanups (state_ r) → ∃ l, leases (state_ r) !! k = Some l ∧ cleaning l = true;
  iv_held k h u : held_until k h (calls r) = Some u → now_ r < u →
    (∃ l, leases (state_ r) !! k = Some l ∧ holder l = h ∧ u ≤ expires_at l) ∨ u ≤ grants_from (state_ r);
  iv_bound k h u : held_until k h (calls r) = Some u → u ≤ now_ r + LEASE_SECONDS;
  iv_excl k h h' u u' : held_until k h (calls r) = Some u → held_until k h' (calls r) = Some u' →
    now_ r < u → now_ r < u' → h = h';
}.

Lemma inv_lease_start now : inv (start now).
Proof. split; cbn; try done. by intros k ?%elem_of_nil. Qed.

(** A call that changes no lease: refused, or for a holder's own good. *)
Lemma inv_unchanged r now s o b :
  inv r → now_ r ≤ now → leases s = leases (state_ r) → grants_from s = grants_from (state_ r) →
  cleanups s = cleanups (state_ r) →
  (∀ k h u, held_until k h ((o, now, b) :: calls r) = Some u → held_until k h (calls r) = Some u) →
  inv (mkRunState now s ((o, now, b) :: calls r)).
Proof.
  intros [J1 J2 J3 J4 J5 J6] Hn Hl Hg Hc Hh. split; cbn [state_ now_ calls]; rewrite ?Hl, ?Hg, ?Hc.
  - intros k l Hk Hcl. specialize (J1 k l Hk Hcl). lia.
  - intros k l Hk. specialize (J2 k l Hk). lia.
  - done.
  - intros k h u Hu Hlt. apply (J4 k h u); [auto|lia].
  - intros k h u Hu%Hh%J5. lia.
  - intros k h h' u u' Hu%Hh Hu'%Hh ? ?. eapply (J6 k h h' u u'); eauto; lia.
Qed.

Lemma inv_granted r now key src who node c :
  inv r → now_ r ≤ now → leases (state_ r) !! key = None → grants_from (state_ r) ≤ now →
  inv (mkRunState now
    (mk (<[key := mkLease who node src (now + LEASE_SECONDS) false]> (leases (state_ r))) (grants_from (state_ r)) now
       c (cleanups (state_ r)))
    ((Acquire key src who node, now, true) :: calls r)).
Proof.
  intros [J1 J2 J3 J4 J5 J6] Hn Hk Hg.
  assert (∀ h u, held_until key h (calls r) = Some u → now < u → False) as Hfree.
  { intros h u Hu Hlt. destruct (J4 key h u Hu ltac:(lia)) as [(l & Hl & _)|Hle]; [congruence|lia]. }
  split; cbn [state_ now_ calls leases grants_from cleanups].
  - intros k l [[<- <-]|[_ Hl]]%lookup_insert_Some Hcl; [done|]. specialize (J1 k l Hl Hcl). lia.
  - intros k l [[<- <-]|[_ Hl]]%lookup_insert_Some; [done|]. specialize (J2 k l Hl). lia.
  - intros k Hc. destruct (J3 k Hc) as (l & Hl & ?). exists l. rewrite lookup_insert_ne; [done|congruence].
  - intros k h u. cbn. case_decide as E; [destruct E as [<- <-]|]; intros Hu Hlt.
    + left. injection Hu as <-. eexists. by rewrite lookup_insert_eq.
    + destruct (decide (key = k)) as [<-|Hne]; [exfalso; eauto|].
      destruct (J4 k h u Hu ltac:(lia)) as [(l & Hl & ?)|?]; [left|by right].
      exists l. by rewrite lookup_insert_ne.
  - intros k h u. cbn. case_decide; [intros [= <-]; lia|]. intros Hu%J5. lia.
  - intros k h h' u u'. cbn. case_decide as E; case_decide as E'; intros Hu Hu' Hlt Hlt'.
    + destruct E as [_ <-], E' as [_ <-]. done.
    + destruct E as [<- _]. exfalso. eauto.
    + destruct E' as [<- _]. exfalso. eauto.
    + eapply (J6 k h h' u u'); eauto; lia.
Qed.

Lemma inv_renewed r now key who l :
  inv r → now_ r ≤ now → leases (state_ r) !! key = Some l → cleaning l = false → holder l = who →
  inv (mkRunState now
    (mk (<[key := mkLease (holder l) (node_id l) (source l) (now + LEASE_SECONDS) (cleaning l)]> (leases (state_ r)))
       (grants_from (state_ r)) now (closing (state_ r)) (cleanups (state_ r)))
    ((Renew key who, now, true) :: calls r)).
Proof.
  intros [J1 J2 J3 J4 J5 J6] Hn Hk Hcl Hwho. pose proof (J2 _ _ Hk) as Hg.
  assert (∀ h u, held_until key h (calls r) = Some u → now < u → h = who) as Hown.
  { intros h u Hu Hlt. destruct (J4 key h u Hu ltac:(lia)) as [(l' & Hl & Hh & _)|Hle]; [congruence|lia]. }
  split; cbn [state_ now_ calls leases grants_from cleanups].
  - intros k l' [[<- <-]|[_ Hl]]%lookup_insert_Some; cbn; [by rewrite Hcl|]. intros Hc. specialize (J1 k l' Hl Hc). lia.
  - intros k l' [[<- <-]|[_ Hl]]%lookup_insert_Some; [lia|]. specialize (J2 k l' Hl). lia.
  - intros k Hc. destruct (J3 k Hc) as (l' & Hl & ?). exists l'. rewrite lookup_insert_ne; [done|congruence].
  - intros k h u. cbn. case_decide as E; [destruct E as [<- <-]|]; intros Hu Hlt.
    + left. injection Hu as <-. eexists. rewrite lookup_insert_eq. split; [done|]. cbn. split; [done|lia].
    + destruct (decide (key = k)) as [<-|Hne]; [destruct E; split; [done|]; symmetry; eauto|].
      destruct (J4 k h u Hu ltac:(lia)) as [(l' & Hl & ?)|?]; [left|by right].
      exists l'. by rewrite lookup_insert_ne.
  - intros k h u. cbn. case_decide; [intros [= <-]; lia|]. intros Hu%J5. lia.
  - intros k h h' u u'. cbn. case_decide as E; case_decide as E'; intros Hu Hu' Hlt Hlt'.
    + destruct E as [_ <-], E' as [_ <-]. done.
    + destruct E as [<- <-]. symmetry. eauto.
    + destruct E' as [<- <-]. eauto.
    + eapply (J6 k h h' u u'); eauto; lia.
Qed.

(** A key freed: by its holder, or after its cleanup. *)
Lemma inv_freed r now key l o c' :
  inv r → now_ r ≤ now → leases (state_ r) !! key = Some l →
  (∀ k, k ∈ c' → k ∈ cleanups (state_ r) ∧ k ≠ key) →
  (∀ k h u, held_until k h ((o, now, true) :: calls r) = Some u → held_until k h (calls r) = Some u) →
  (∀ u, held_until key (holder l) ((o, now, true) :: calls r) = Some u → u ≤ now) →
  inv (mkRunState now (mk (delete key (leases (state_ r))) (grants_from (state_ r)) now (closing (state_ r)) c')
    ((o, now, true) :: calls r)).
Proof.
  intros [J1 J2 J3 J4 J5 J6] Hn Hk Hc Hh Hown. pose proof (J2 _ _ Hk) as Hg.
  split; cbn [state_ now_ calls leases grants_from cleanups].
  - intros k l' [_ Hl]%lookup_delete_Some Hcl. specialize (J1 k l' Hl Hcl). lia.
  - intros k l' [_ Hl]%lookup_delete_Some. specialize (J2 k l' Hl). lia.
  - intros k [Hin Hne]%Hc. destruct (J3 k Hin) as (l' & Hl & ?). exists l'. by rewrite lookup_delete_ne.
  - intros k h u Hu Hlt. destruct (J4 k h u ltac:(auto) ltac:(lia)) as [(l' & Hl & Hl' & ?)|?]; [|by right].
    destruct (decide (key = k)) as [<-|Hne].
    + rewrite Hk in Hl. injection Hl as <-. subst h. specialize (Hown u Hu). lia.
    + left. exists l'. by rewrite lookup_delete_ne.
  - intros k h u Hu%Hh%J5. lia.
  - intros k h h' u u' Hu%Hh Hu'%Hh ? ?. eapply (J6 k h h' u u'); eauto; lia.
Qed.

Lemma inv_reap r now : inv r → now_ r ≤ now → inv (mkRunState now (reap now (state_ r)) ((Reap, now, true) :: calls r)).
Proof.
  intros [J1 J2 J3 J4 J5 J6] Hn.
  assert (∀ k l, leases (reap now (state_ r)) !! k = Some l ↔
    ∃ l0, leases (state_ r) !! k = Some l0 ∧ l = start_cleaning now l0) as Hl.
  { intros k l. unfold reap. destruct (_ && _); cbn; rewrite lookup_fmap, fmap_Some; naive_solver. }
  assert (grants_from (reap now (state_ r)) = grants_from (state_ r)) as Hg by (unfold reap; by destruct (_ && _)).
  assert (∀ l0 : Lease Source, holder (start_cleaning now l0) = holder l0 ∧ expires_at (start_cleaning now l0) = expires_at l0) as Hs.
  { intros l0. unfold start_cleaning. by destruct (reaped now l0). }
  split; cbn [state_ now_ calls]; rewrite ?Hg.
  - intros k l (l0 & H0 & ->)%Hl. rewrite (proj2 (Hs l0)). unfold start_cleaning.
    destruct (reaped now l0) eqn:E; cbn.
    + apply andb_true_iff in E as [_ E%Z.leb_le]. done.
    + intros Hc. specialize (J1 k l0 H0 Hc). lia.
  - intros k l (l0 & H0 & _)%Hl. specialize (J2 k l0 H0). lia.
  - intros k Hk. assert (k ∈ cleanups (state_ r) ∨ ∃ l0, leases (state_ r) !! k = Some l0 ∧ reaped now l0 = true) as Hc.
    { revert Hk. unfold reap. destruct (_ && _); cbn; (intros [?|Hd]%elem_of_app; [by left|right]);
        apply list_elem_of_fmap in Hd as ([k' l0] & -> & [Hr Hm%elem_of_map_to_list]%list_elem_of_filter); eauto. }
    destruct Hc as [Hc|(l0 & H0 & Hr)].
    + destruct (J3 k Hc) as (l0 & H0 & Hcl). exists (start_cleaning now l0). split; [by apply Hl; eauto|].
      unfold start_cleaning. by destruct (reaped now l0).
    + exists (start_cleaning now l0). split; [by apply Hl; eauto|]. unfold start_cleaning. by rewrite Hr.
  - intros k h u Hu Hlt. destruct (J4 k h u Hu ltac:(lia)) as [(l0 & H0 & ? & ?)|?]; [left|by right].
    exists (start_cleaning now l0). rewrite (proj1 (Hs l0)), (proj2 (Hs l0)). split; [by apply Hl; eauto|done].
  - intros k h u Hu%J5. lia.
  - intros k h h' u u' Hu Hu' ? ?. eapply (J6 k h h' u u'); eauto; lia.
Qed.

Lemma inv_recreated r now : inv r → now_ r ≤ now → inv (mkRunState now (init now) ((Recreated, now, true) :: calls r)).
Proof.
  intros [J1 J2 J3 J4 J5 J6] Hn. split; cbn; try done.
  - by intros k ?%elem_of_nil.
  - intros k h u Hu _. right. specialize (J5 k h u Hu). lia.
  - intros k h u Hu%J5. lia.
  - intros k h h' u u' Hu Hu' ? ?. eapply (J6 k h h' u u'); eauto; lia.
Qed.

Lemma exec_lease_inv o now r r' : exec o now r = Some r' → inv r → inv r'.
Proof.
  unfold exec. case_decide as Hn; [|done]. intros E J. destruct o as [k src who node|k who|k who| |k|].
  - unfold acquire in E. destruct (closing (state_ r)) eqn:Ec; [injection E as <-; by apply inv_unchanged|].
    cbn [grants_from leases closing cleanups] in E.
    destruct (now <? grants_from (state_ r)) eqn:Eg; [injection E as <-; by apply inv_unchanged|].
    destruct (leases (state_ r) !! k) as [l|] eqn:El; injection E as <-; [by apply inv_unchanged|].
    apply inv_granted; [done..|]. by apply Z.ltb_ge in Eg.
  - unfold renew in E. cbn [leases grants_from closing cleanups] in E.
    destruct (leases (state_ r) !! k) as [l|] eqn:El; [|injection E as <-; by apply inv_unchanged].
    destruct (cleaning l || negb (bool_decide (holder l = who))) eqn:Ec; injection E as <-; [by apply inv_unchanged|].
    apply orb_false_iff in Ec as [Ec Ew%negb_false_iff%bool_decide_eq_true]. by apply inv_renewed.
  - assert (∀ k' h u, held_until k' h ((Release k who, now, true) :: calls r) = Some u →
      held_until k' h (calls r) = Some u) as Hh by (intros k' h u; cbn; by case_decide).
    unfold release in E. cbn [leases grants_from closing cleanups] in E.
    destruct (leases (state_ r) !! k) as [l|] eqn:El; [|injection E as <-; by apply inv_unchanged].
    destruct (negb (cleaning l) && bool_decide (holder l = who)) eqn:Ec; injection E as <-; [|by apply inv_unchanged].
    apply andb_true_iff in Ec as [Ec%negb_true_iff Ew%bool_decide_eq_true].
    eapply (inv_freed r now k l); [done..| |done|].
    + intros k' Hk'. split; [done|]. intros ->. destruct (iv_cleanups _ J k Hk') as (l' & Hl & Hcl). congruence.
    + intros u. cbn. by rewrite decide_True by done.
  - injection E as <-. by apply inv_reap.
  - case_decide as Hk; [|done]. injection E as <-. destruct (iv_cleanups _ J k Hk) as (l & Hl & Hcl).
    eapply (inv_freed r now k l); [done..| |done|].
    + intros k' [? ?]%list_elem_of_filter. done.
    + cbn. intros u Hu. pose proof (iv_cleaning _ J k l Hl Hcl).
      destruct (decide (now_ r < u)) as [Hlt|]; [|lia].
      destruct (iv_held _ J k _ u Hu Hlt) as [(l' & Hl' & _ & Hle)|Hle].
      * rewrite Hl in Hl'. injection Hl' as <-. lia.
      * pose proof (iv_granted _ J k l Hl). lia.
  - injection E as <-. by apply inv_recreated.
Qed.

Lemma exec_all_inv os r r' : exec_all os r = Some r' → inv r → inv r'.
Proof.
  revert r. induction os as [|[o now] os IH]; intros r; cbn; [by intros [= <-]|].
  intros (r1 & Hr & Ho)%bind_Some J. eapply IH; [done|]. by eapply exec_lease_inv.
Qed.
End facts.
End LeaseFacts.

(** ** Properties *)

Module LeaseProperties.
Import LeaseFacts.

(** C39: at most one holder at a time may go on with a key's download: for a lease period from its
    latest acquire or renewal answered yes and not yet released, no other holder of the key has one
    that still runs, across reaps, cleanups and crashes of the lease actor. *)
Theorem one_downloader {Source} t0 os (r : run_state Source) key who who' u u' :
  exec_all os (start t0) = Some r →
  held_until key who (calls r) = Some u → held_until key who' (calls r) = Some u' →
  now_ r < u → now_ r < u' → who = who'.
Proof.
  intros Hr Hu Hu' Hlt Hlt'. pose proof (exec_all_inv _ _ _ Hr (inv_lease_start t0)) as J.
  by eapply (iv_excl _ J key who who' u u').
Qed.

(** A lease that isn't renewed, its cleanup, the next holder, and a crash. *)
Definition crash_run : list (op () * Z) :=
  [(Acquire "k" () "h1" "n1", 30 * second); (Acquire "k" () "h2" "n2", 31 * second); (Reap, 61 * second);
   (CleanOver "k", 62 * second); (Acquire "k" () "h2" "n2", 63 * second); (Recreated, 64 * second);
   (Acquire "k" () "h1" "n1", 65 * second)]%string.

Lemma one_downloader_witness :
  ∃ r, exec_all crash_run (start 0) = Some r ∧ held_until "k" "h2" (calls r) = Some (93 * second) ∧
    ∀ who u, held_until "k" who (calls r) = Some u → now_ r < u → who = "h2"%string.
Proof.
  eexists. split; [vm_compute; reflexivity|]. split; [vm_compute; reflexivity|].
  intros who u Hu Hlt.
  eapply (one_downloader 0 crash_run _ "k" who "h2" u (93 * second)); [vm_compute; reflexivity|exact Hu|vm_compute; reflexivity|exact Hlt|].
  vm_compute. reflexivity.
Defined.

End LeaseProperties.
