(* ===== verification/Liveness.v ===== *)
(** * Disconnects and heartbeats

    The two registries with entries that expire: [src/modelship/infer/infer_config.py],
    [_DisconnectStore], [DisconnectRegistry] and [RawRequestProxy.is_disconnected]; and
    [src/modelship/openai/state/responses.py], [_HeartbeatStore] and [HeartbeatRegistry]. Each call
    of an actor is given its clock reading; deadlines are in the same unit. *)

From S2P Require Import Prelude StateStore.
Local Open Scope Z_scope.

(** ** Disconnects *)

Module Disconnect.
(** [_DISCONNECT_TTL_SECONDS] *)
Definition DISCONNECT_TTL : Z := 300 * second.

(** [self._deadlines] *)
Notation store := (gmap string Z) (only parsing).

Definition evict_expired (now : Z) (s : store) : store := filter (λ kd, ¬ kd.2 ≤ now) s.

Definition set (ttl : Z) (request_id : string) (now : Z) (s : store) : store :=
  <[request_id := now + ttl]> (evict_expired now s).

Definition is_set (request_id : string) (now : Z) (s : store) : store * bool :=
  match s !! request_id with
  | None => (s, false)
  | Some deadline => if deadline <=? now then (delete request_id s, false) else (s, true)
  end.

(** [is_set_many], with one clock reading per id *)
Fixpoint is_set_many (request_ids : list (string * Z)) (s : store) : store * list string :=
  match request_ids with
  | [] => (s, [])
  | (i, now) :: ids =>
      let '(s, b) := is_set i now s in
      let '(s, r) := is_set_many ids s in
      (s, if b then i :: r else r)
  end.

Definition clear (request_id : string) (s : store) : store := delete request_id s.

(** [RawRequestProxy.is_disconnected]; the registry's answer is an error when its actor died, and
    the proxy then looks its successor up. [None] for a proxy without a registry. *)
Definition is_disconnected (answer : option (res bool)) : bool :=
  match answer with Some (Ok b) => b | _ => false end.

(** [RawRequestProxy.is_watchable] *)
Definition is_watchable (has_registry : bool) (request_id : option string) : bool :=
  has_registry && bool_decide (is_Some request_id).

(** The registry's calls, and its restarts, in order with its clock. *)
Inductive op : Type := Set_ (i : string) | IsSet (i : string) | Clear (i : string) | Restarted.

Definition exec (ttl : Z) (s : store) (o : op * Z) : store :=
  match o.1 with
  | Set_ i => set ttl i o.2 s
  | IsSet i => (is_set i o.2 s).1
  | Clear i => clear i s
  | Restarted => ∅
  end.

Definition run (ttl : Z) (os : list (op * Z)) : store := foldl (exec ttl) ∅ os.
End Disconnect.

(** ** Heartbeats *)

Module Heartbeat.
(** [self._entries]: key -> request id and deadline *)
Notation store := (gmap string (string * Z)) (only parsing).

Definition evict_expired (now : Z) (s : store) : store := filter (λ kd, ¬ kd.2.2 ≤ now) s.

Definition heartbeat (ttl : Z) (key req_id : string) (now : Z) (s : store) : store :=
  <[key := (req_id, now + ttl)]> (evict_expired now s).

(** [_live_entry] *)
Definition live_entry (key : string) (now : Z) (s : store) : store * option (string * Z) :=
  match s !! key with
  | None => (s, None)
  | Some e => if e.2 <=? now then (delete key s, None) else (s, Some e)
  end.

(** [HeartbeatRegistry]: the store, and when the actor started. *)
Record registry : Type := mk { entries : store; started : Z }.

Definition init (now : Z) : registry := mk ∅ now.

Definition beat (ttl : Z) (key req_id : string) (now : Z) (r : registry) : registry :=
  mk (heartbeat ttl key req_id now (entries r)) (started r).

(** [is_alive]; the store reads the clock before the registry does *)
Definition is_alive (ttl : Z) (key : string) (now now' : Z) (r : registry) : registry * bool :=
  let '(s, e) := live_entry key now (entries r) in
  (mk s (started r), bool_decide (is_Some e) || (now' - started r <? ttl)).

Definition req_id (key : string) (now : Z) (r : registry) : registry * option string :=
  let '(s, e) := live_entry key now (entries r) in (mk s (started r), fst <$> e).

(** The registry's calls, and its restarts, in order with its clock. *)
Inductive op : Type := Beat (key req_id : string) | IsAlive (key : string) | ReqId (key : string) | Restarted.

Definition exec (ttl : Z) (r : registry) (o : op * Z) : registry :=
  match o.1 with
  | Beat k i => beat ttl k i o.2 r
  | IsAlive k => (is_alive ttl k o.2 o.2 r).1
  | ReqId k => (req_id k o.2 r).1
  | Restarted => init o.2
  end.

Definition run (ttl : Z) (start : Z) (os : list (op * Z)) : registry := foldl (exec ttl) (init start) os.
End Heartbeat.

(** ** Reference: what the calls so far say *)

(** A clock that goes forward through the calls. *)
Fixpoint forward {O} (from : Z) (os : list (O * Z)) (to : Z) : Prop :=
  match os with [] => from ≤ to | (_, now) :: os => from ≤ now ∧ forward now os to end.

(** The latest set of the request, since its latest clear or the latest restart. *)
Definition last_set (i : string) (os : list (Disconnect.op * Z)) : option Z :=
  foldl (λ r o, match o.1 with
    | Disconnect.Set_ j => if decide (j = i) then Some o.2 else r
    | Disconnect.Clear j => if decide (j = i) then None else r
    | Disconnect.IsSet _ => r
    | Disconnect.Restarted => None
    end) None os.

(** The latest heartbeat of the key, with its request id and whether the registry restarted since. *)
Definition last_beat (k : string) (os : list (Heartbeat.op * Z)) : option (string * Z * bool) :=
  foldl (λ r o, match o.1 with
    | Heartbeat.Beat j i => if decide (j = k) then Some (i, o.2, false) else r
    | Heartbeat.Restarted => (λ b, (b.1, true)) <$> r
    | _ => r
    end) None os.

(** ** Lemmas *)

Module LivenessFacts.

Lemma forward_app {O} (os : list (O * Z)) o now from to :
  forward from (os ++ [(o, now)]) to ↔ forward from os now ∧ now ≤ to.
Proof. revert from. induction os as [|[o' n'] os IH]; intros from; cbn; [tauto|]. rewrite IH. tauto. Qed.

(** The store's entry, as far as it is read before it expires. *)
Lemma disconnect_store ttl os from now i :
  forward from os now →
  (∀ d, Disconnect.run ttl os !! i = Some d → (λ t, t + ttl) <$> last_set i os = Some d) ∧
  (∀ t, last_set i os = Some t → now < t + ttl → Disconnect.run ttl os !! i = Some (t + ttl)).
Proof.
  revert now. induction os as [|[o n] os IH] using rev_ind; intros now; [by cbn|].
  intros [Hf Hn]%forward_app. destruct (IH n Hf) as [IH1 IH2].
  unfold Disconnect.run, last_set in *. rewrite !foldl_app. cbn [foldl].
  set (s := foldl (Disconnect.exec ttl) ∅ os) in *. set (r := foldl _ None os) in *. clearbody s r.
  destruct o as [j|j|j|]; unfold Disconnect.exec; cbn [fst snd].
  - unfold Disconnect.set. destruct (decide (j = i)) as [->|Hne].
    + rewrite lookup_insert_eq. split; [by intros d [= <-]|by intros t [= <-]].
    + rewrite lookup_insert_ne by done. unfold Disconnect.evict_expired. split.
      * intros d [Hd _]%map_lookup_filter_Some. auto.
      * intros t Ht Hlt. apply map_lookup_filter_Some. split; [apply IH2; [done|lia]|cbn; lia].
  - unfold Disconnect.is_set. destruct (s !! j) as [d|] eqn:Ej; [|split; [done|]; intros t Ht Hlt; apply IH2; [done|lia]].
    destruct (d <=? n) eqn:Ed; cbn; [|split; [done|]; intros t Ht Hlt; apply IH2; [done|lia]].
    split; [intros d' [_ Hd']%lookup_delete_Some; auto|]. intros t Ht Hlt.
    specialize (IH2 t Ht ltac:(lia)). rewrite lookup_delete_ne; [done|]. intros ->.
    rewrite Ej in IH2. apply Z.leb_le in Ed. injection IH2 as ->. lia.
  - unfold Disconnect.clear. destruct (decide (j = i)) as [->|Hne].
    + rewrite lookup_delete_eq. by split.
    + rewrite lookup_delete_ne by done. split; [done|]. intros t Ht Hlt. apply IH2; [done|lia].
  - by rewrite lookup_empty.
Qed.

Lemma beats_before k os from now i t b :
  forward from os now → last_beat k os = Some (i, t, b) → t ≤ now.
Proof.
  revert now i t b. induction os as [|[o n] os IH] using rev_ind; intros now i t b; [done|].
  intros [Hf Hn]%forward_app. unfold last_beat in *. rewrite foldl_app. cbn [foldl].
  set (r := foldl _ None os) in *. clearbody r.
  assert (∀ i t b, r = Some (i, t, b) → t ≤ now) as Hr by (intros i' t' b' Hr; specialize (IH n i' t' b' Hf Hr); lia).
  destruct o; cbn; [|by apply Hr|by apply Hr|].
  - case_decide; [intros [= <- <- <-]; lia|apply Hr].
  - destruct r as [[[i' t'] b']|]; [|done]. intros [= <- <- <-]. eapply Hr; done.
Qed.

Lemma heartbeat_store ttl os start now k i t b :
  forward start os now → last_beat k os = Some (i, t, b) → now < t + ttl →
  (b = false → Heartbeat.entries (Heartbeat.run ttl start os) !! k = Some (i, t + ttl)) ∧
  (b = true → t ≤ Heartbeat.started (Heartbeat.run ttl start os)).
Proof.
  revert now i t b. induction os as [|[o n] os IH] using rev_ind; intros now i t b; [done|].
  intros [Hf Hn]%forward_app. unfold Heartbeat.run, last_beat in *. rewrite !foldl_app. cbn [foldl].
  set (s := foldl (Heartbeat.exec ttl) _ os) in *.
  pose proof (beats_before k os start n) as Hbefore. unfold last_beat in Hbefore.
  set (r := foldl _ None os) in *. clearbody s r.
  assert (∀ j i t b, r = Some (i, t, b) → now < t + ttl → b = false →
    (Heartbeat.live_entry j n (Heartbeat.entries s)).1 !! k = Some (i, t + ttl)) as Hlive.
  { intros j i' t' b' Hr Hlt Hb. destruct (IH n i' t' b' Hf Hr ltac:(lia)) as [Hs _]. specialize (Hs Hb).
    unfold Heartbeat.live_entry. destruct (Heartbeat.entries s !! j) as [e|] eqn:Ej; [|done].
    destruct (e.2 <=? n) eqn:Ee; [|done]. cbn. rewrite lookup_delete_ne; [done|]. intros ->.
    rewrite Ej in Hs. injection Hs as ->. apply Z.leb_le in Ee. cbn in Ee. lia. }
  destruct o as [j i'|j|j|]; unfold Heartbeat.exec; cbn [fst snd].
  - unfold Heartbeat.beat, Heartbeat.heartbeat; cbn [Heartbeat.entries Heartbeat.started]. case_decide as Hj; [subst j|].
    + intros [= <- <- <-] _. by rewrite lookup_insert_eq.
    + intros Hr Hlt. destruct (IH n i t b Hf Hr ltac:(lia)) as [Hs Hst]. split; [|exact Hst]. intros Hb.
      rewrite lookup_insert_ne by done. apply map_lookup_filter_Some. split; [by apply Hs|cbn; lia].
  - intros Hr Hlt. unfold Heartbeat.is_alive. destruct (IH n i t b Hf Hr ltac:(lia)) as [_ Hst].
    specialize (Hlive j i t b Hr Hlt). by destruct (Heartbeat.live_entry j n _).
  - intros Hr Hlt. unfold Heartbeat.req_id. destruct (IH n i t b Hf Hr ltac:(lia)) as [_ Hst].
    specialize (Hlive j i t b Hr Hlt). by destruct (Heartbeat.live_entry j n _).
  - destruct r as [[[i' t'] b']|] eqn:Er; [|done]. cbn. intros [= <- <- <-] Hlt. split; [done|]. intros _.
    by apply (Hbefore i' t' b').
Qed.
End LivenessFacts.

(** ** Properties *)

Module LivenessProperties.
Import LivenessFacts.

(** the disconnect registry reports a request exactly while a set of it is younger than the
    time to live and neither cleared since nor lost to a restart. *)
Theorem disconnect_reported_iff ttl os from now i :
  forward from os now →
  (Disconnect.is_set i now (Disconnect.run ttl os)).2 = true ↔
    ∃ t, last_set i os = Some t ∧ now < t + ttl.
Proof.
  intros Hf. destruct (disconnect_store ttl os from now i Hf) as [H1 H2]. unfold Disconnect.is_set. split.
  - destruct (Disconnect.run ttl os !! i) as [d|] eqn:E; [|done]. destruct (d <=? now) eqn:Ed; [done|]. intros _.
    specialize (H1 d eq_refl). destruct (last_set i os) as [t|]; [|done]. injection H1 as <-.
    apply Z.leb_gt in Ed. by exists t.
  - intros (t & Ht & Hlt). rewrite (H2 t Ht Hlt). by rewrite (proj2 (Z.leb_gt _ _)) by lia.
Qed.

Lemma disconnect_reported_iff_witness :
  (Disconnect.is_set "r" 250 (Disconnect.run 300 [(Disconnect.Set_ "r", 5); (Disconnect.IsSet "q", 7)])).2 = true.
Proof.
  apply (disconnect_reported_iff 300 [(Disconnect.Set_ "r", 5); (Disconnect.IsSet "q", 7)] 0).
  - cbn. lia.
  - exists 5. split; [reflexivity|lia].
Defined.

(** a background run that heartbeats within the time to live is never reported dead, also by a
    registry that restarted since its heartbeat and lost it; and while none restarted, its request
    id can be found to cancel it. *)
Theorem beating_run_is_alive ttl os start now now' k i t b :
  forward start os now → now ≤ now' → last_beat k os = Some (i, t, b) → now' < t + ttl →
  (Heartbeat.is_alive ttl k now now' (Heartbeat.run ttl start os)).2 = true ∧
  (b = false → (Heartbeat.req_id k now (Heartbeat.run ttl start os)).2 = Some i).
Proof.
  intros Hf Hn Hb Hlt. destruct (heartbeat_store ttl os start now k i t b Hf Hb ltac:(lia)) as [H1 H2].
  unfold Heartbeat.is_alive, Heartbeat.req_id, Heartbeat.live_entry. destruct b.
  - split; [|done]. specialize (H2 eq_refl).
    destruct (Heartbeat.entries _ !! k) as [e|]; [destruct (e.2 <=? now)|]; cbn;
      rewrite ?orb_true_l; try done; by rewrite (proj2 (Z.ltb_lt _ _)) by lia.
  - rewrite (H1 eq_refl). cbn. rewrite (proj2 (Z.leb_gt _ _)) by lia. done.
Qed.

Lemma beating_run_is_alive_witness :
  (Heartbeat.is_alive 30 "k" 40 40 (Heartbeat.run 30 0 [(Heartbeat.Beat "k" "q", 20); (Heartbeat.Restarted, 25)])).2 = true.
Proof.
  apply (beating_run_is_alive 30 [(Heartbeat.Beat "k" "q", 20); (Heartbeat.Restarted, 25)] 0 40 40 "k" "q" 20 true);
    [cbn; lia|lia|reflexivity|lia].
Defined.
End LivenessProperties.
