(* ===== verification/ResponsesState.v ===== *)
(** * Conversation state of the Responses API

    [src/modelship/openai/state/responses.py], but for its heartbeats ([Liveness]): the records,
    logs and stream buffers of [/v1/responses] over any state store. Callers run concurrently and
    a store call is where one may be overtaken by another, so an operation is a program over store
    calls ([prog]), run alone ([run]) or interleaved with others call by call ([resume]). *)

From S2P Require Import Prelude StateStore.
Local Open Scope Z_scope.

(** ** Programs over a store *)

Inductive prog (A : Type) : Type :=
| Done (a : A)
| Fail (e : exn)
| Op {B : Type} (op : store_op B) (k : B → prog A).
Arguments Done {A} a. Arguments Fail {A} e. Arguments Op {A B} op k.

Fixpoint prog_bind {A B} (f : A → prog B) (p : prog A) : prog B :=
  match p with
  | Done a => f a
  | Fail e => Fail e
  | Op op k => Op op (λ b, prog_bind f (k b))
  end.

#[export] Instance prog_ret : MRet prog := @Done.
#[export] Instance prog_mbind : MBind prog := @prog_bind.

Definition call {B} (op : store_op B) : prog B := Op op Done.

(** A pure step that may raise. *)
Definition pure {A} (r : res A) : prog A := match r with Ok a => Done a | Err e => Fail e end.

(** The program's next store call, at clock reading [now]. *)
Definition resume `{StateStore T} {A} (p : prog A) (now : Z) (s : T) : T * prog A :=
  match p with
  | Op op k => let '(s, r) := ss_run op now s in (s, match r with Ok b => k b | Err e => Fail e end)
  | _ => (s, p)
  end.

(** The whole program, with nothing in between. *)
Fixpoint run `{StateStore T} {A} (p : prog A) (now : Z) (s : T) : T * res A :=
  match p with
  | Done a => (s, Ok a)
  | Fail e => (s, Err e)
  | Op op k => let '(s, r) := ss_run op now s in match r with Ok b => run (k b) now s | Err e => (s, Err e) end
  end.

(** ** Reading JSON as Python does *)

(** [j.get(k)] *)
Definition get_field (k : string) (j : json) : res json :=
  match j with
  | JObj d => Ok (default JNull (Dict.get k d))
  | _ => Err (OtherError "AttributeError")
  end.

(** [a or b] *)
Definition py_or (a b : json) : json := if Json.truthy a then a else b.

(** [d[k]] *)
Definition item (k : string) (d : dict json) : res json :=
  match Dict.get k d with Some v => Ok v | None => Err (KeyError k) end.

(** [isinstance(v, int)]: a [bool] is one. *)
Definition int_of (v : json) : option Z :=
  match v with JInt z => Some z | JBool b => Some (Z.b2z b) | _ => None end.

(** A range bound; only integers are modelled. *)
Definition bound (v : json) : res Z :=
  match int_of v with Some z => Ok z | None => Err (TypeError "not an integer") end.

(** A [for] loop over a list value; a dict gives its keys, a string its characters. *)
Definition iter (v : json) : res (list json) :=
  match v with
  | JList l => Ok l
  | JObj d => Ok (JStr <$> Dict.keys d)
  | JStr s => Ok ((λ a, JStr (String a "")) <$> String.list_ascii_of_string s)
  | _ => Err (TypeError "not iterable")
  end.

(** Dicts keyed by JSON values, in insertion order: keys are compared with [==], and a list or a
    dict is no key. *)
Definition hashable (k : json) : res json :=
  match k with JList _ | JObj _ => Err (TypeError "unhashable type") | _ => Ok k end.
Fixpoint jget {V} (k : json) (d : list (json * V)) : option V :=
  match d with [] => None | (k', v) :: d => if Json.eqb k k' then Some v else jget k d end.
Fixpoint jset {V} (k : json) (v : V) (d : list (json * V)) : list (json * V) :=
  match d with
  | [] => [(k, v)]
  | (k', v') :: d => if Json.eqb k k' then (k', v) :: d else (k', v') :: jset k v d
  end.
Definition setdefault {V} (k : json) (v : V) (d : list (json * V)) : list (json * V) :=
  if jget k d is Some _ then d else jset k v d.

(** ** Settings *)

Definition DEFAULT_TTL : Z := 30 * 24 * 60 * 60 * second.
Definition DEFAULT_STALE : Z := 30 * second.
Definition DEFAULT_STREAM_TTL : Z := 600 * second.
Definition ONE_DAY : Z := 24 * 60 * 60 * second.

Section settings.
Context (parsed : string → option Z).

(** [ttl_seconds], of the variable's text; [parsed] is [float], in clock ticks. *)
Definition ttl_seconds (raw : option string) : option Z :=
  match raw with
  | None | Some ""%string => Some DEFAULT_TTL
  | Some raw =>
      match parsed raw with
      | None => Some DEFAULT_TTL
      | Some t => if 0 <? t then Some (Z.max t ONE_DAY) else None
      end
  end.

(** A duration that is always positive. *)
Definition positive_seconds (raw : option string) (dflt : Z) : Z :=
  match raw with
  | None | Some ""%string => dflt
  | Some raw => match parsed raw with None => dflt | Some t => if 0 <? t then t else dflt end
  end.
Definition stale_seconds (raw : option string) : Z := positive_seconds raw DEFAULT_STALE.
Definition stream_buffer_ttl_seconds (raw : option string) : Z := positive_seconds raw DEFAULT_STREAM_TTL.
End settings.

Definition TERMINAL_STATUSES : list string := ["completed"; "incomplete"; "failed"; "cancelled"]%string.

(** ** Keys *)

(** [_key], [_log_key], [_stream_key] *)
Definition key (identity response_id : string) : string := "responses/" +:+ identity +:+ "/" +:+ response_id.
Definition log_key (identity log : string) : string := "responses-log/" +:+ identity +:+ "/" +:+ log.
Definition stream_key (identity response_id : string) : string :=
  "responses-stream/" +:+ identity +:+ "/" +:+ response_id.

#[global] Arguments key : simpl never.
#[global] Arguments log_key : simpl never.
#[global] Arguments stream_key : simpl never.

(** ** Positions and entries *)

(** A position as the store holds it, with the log and depth it names. *)
Record Position : Type := mkPosition { raw_position : dict json; pos_log : string; pos_depth : Z }.

(** [_is_position], and the position it finds *)
Definition position_of (v : json) : option Position :=
  match v with
  | JObj d =>
      match Dict.get "log" d, default JNull (Dict.get "depth" d) with
      | Some (JStr l), v => z ← int_of v; Some (mkPosition d l z)
      | _, _ => None
      end
  | _ => None
  end.

(** [{"log": log, "depth": depth}] *)
Definition position_at (log : string) (depth : Z) : Position :=
  mkPosition [("log"%string, JStr log); ("depth"%string, JInt depth)] log depth.

(** [_is_entry], and its fields *)
Definition entry_of (v : json) : option (dict json * list json * list json) :=
  match v with
  | JObj d =>
      match Dict.get "input" d, Dict.get "output" d with
      | Some (JList i), Some (JList o) => Some (d, i, o)
      | _, _ => None
      end
  | _ => None
  end.

Notation entry := (dict json * list json * list json)%type (only parsing).
Definition entry_input (e : entry) : list json := e.1.2.
Definition entry_output (e : entry) : list json := e.2.

(** [_items] *)
Definition items (es : list entry) : list json := e ← es; entry_input e ++ entry_output e.

(** ** Records *)

(** A valid record: its dict, with the response in it. [_read_record]'s check *)
Definition well_formed (d : dict json) : bool :=
  match Dict.get "response" d with
  | Some (JObj _) =>
      bool_decide (is_Some (position_of (JObj d))) ||
      match Dict.get "input" d with
      | Some (JList _) =>
          match default JNull (Dict.get "parent" d) with
          | JNull => true
          | p => bool_decide (is_Some (position_of p))
          end
      | _ => false
      end
  | _ => false
  end.

(** [record["response"]] of a valid record *)
Definition response_of (d : dict json) : dict json :=
  if Dict.get "response" d is Some (JObj r) then r else [].

Section responses.
(** How an f-string shows a value that is no string; the configured time to live. *)
Context (py_format : json → string) (ttl : option Z).

Definition fmt (v : json) : string := if v is JStr s then s else py_format v.

(** [_read_record] *)
Definition read_record (identity response_id : string) : prog (option (dict json)) :=
  record ← call (OGet (key identity response_id));
  mret (if record is Some (JObj d) then if well_formed d then Some d else None else None).

(** [read_async] *)
Definition read (identity response_id : string) (with_output : bool) : prog (option (dict json)) :=
  record ← read_record identity response_id;
  match record with
  | None => mret None
  | Some d =>
      if negb with_output || negb (Dict.mem "log" d) then mret (Some d)
      else
        log ← pure (item "log" d);
        depth ← pure (item "depth" d);
        n ← pure (bound depth);
        entries ← call (OReadRange (log_key identity (fmt log)) n (Some n));
        match entries with
        | e :: _ =>
            mret (match entry_of e with
                  | Some (ed, _, _) =>
                      Some (Dict.set "response"
                        (JObj (Dict.set "output" (default JNull (Dict.get "output" ed)) (response_of d))) d)
                  | None => None
                  end)
        | [] => mret None
        end
  end.

(** [_refresh] *)
Definition refresh (identity log : string) : prog unit :=
  match ttl with Some t => call (OExpire (log_key identity log) t) | None => mret tt end.

(** One segment in [_entries]: its entries and the base its first one names. *)
Definition segment (entries : list json) (depth : Z) : option (list entry * option Position) :=
  es ← mapM entry_of entries;
  match es with
  | [] => None
  | (d, _, _) :: _ =>
      match default JNull (Dict.get "base" d) with
      | JNull => guard (Z.of_nat (length es) = depth);; Some (es, None)
      | b =>
          p ← position_of b;
          guard (Z.of_nat (length es) = depth - pos_depth p);; Some (es, Some p)
      end
  end.

(** [_entries]; [None] also when the fuel is out, [acc] holds the later segments' entries. *)
Fixpoint entries_from (fuel : nat) (identity log : string) (depth : Z) (acc : list entry)
    : prog (option (list entry)) :=
  match fuel with
  | O => Fail (RuntimeError "out of fuel")
  | S fuel =>
      entries ← call (OReadRange (log_key identity log) 1 (Some depth));
      match segment entries depth with
      | None => mret None
      | Some (es, None) => mret (Some (es ++ acc))
      | Some (es, Some p) =>
          _ ← refresh identity (pos_log p);
          entries_from fuel identity (pos_log p) (pos_depth p) (es ++ acc)
      end
  end.

(** A segment's base lies below it, so [depth] rounds are enough. *)
Definition entries (identity log : string) (depth : Z) : prog (option (list entry)) :=
  entries_from (S (Z.to_nat depth)) identity log depth [].

(** *** MCP listings *)

(** [mcp_listings_in], of the response's [tools] and [output] *)
Definition tools_by_label (tools : json) : res (list (json * json)) :=
  l ← iter (py_or tools (JList []));
  (fix go (l : list json) (acc : list (json * json)) :=
    match l with
    | [] => Ok acc
    | tool :: l =>
        ty ← get_field "type" tool;
        if Json.eqb ty (JStr "mcp")
        then label ← get_field "server_label" tool; k ← hashable label; go l (jset k tool acc)
        else go l acc
    end) l [].

(** A listing: the tool's server and filter, and the tools it listed; [None] for a failed one. *)
Definition listing_of (tools : list (json * json)) (it : json) : res (json * option json) :=
  label ← get_field "server_label" it;
  k ← hashable label;
  error ← get_field "error" it;
  match jget k tools with
  | Some tool =>
      if Json.truthy error then Ok (k, None)
      else
        url ← get_field "server_url" tool;
        allowed ← get_field "allowed_tools" tool;
        listed ← get_field "tools" it;
        Ok (k, Some (JObj [("server_url"%string, url); ("allowed_tools"%string, allowed); ("tools"%string, py_or listed (JList []))]))
  | None => Ok (k, None)
  end.

Definition mcp_listings_in (tools output : json) : res (list (json * option json)) :=
  by_label ← tools_by_label tools;
  l ← iter (py_or output (JList []));
  (fix go (l : list json) (acc : list (json * option json)) :=
    match l with
    | [] => Ok acc
    | it :: l =>
        ty ← get_field "type" it;
        if Json.eqb ty (JStr "mcp_list_tools")
        then kl ← listing_of by_label it; go l (jset kl.1 kl.2 acc)
        else go l acc
    end) l [].

(** The labels an entry's output lists tools of. *)
Fixpoint listed_labels (output : list json) : res (list json) :=
  match output with
  | [] => Ok []
  | it :: output =>
      ty ← get_field "type" it;
      if Json.eqb ty (JStr "mcp_list_tools")
      then label ← get_field "server_label" it; k ← hashable label; ks ← listed_labels output; Ok (k :: ks)
      else listed_labels output
  end.

(** [_mcp_listings]: the latest listing of each server, over the entries from the last one back *)
Fixpoint mcp_from (identity : string) (record : dict json) (es : list entry)
    (found : list (json * option json)) : prog (list (json * option json)) :=
  match es with
  | [] => mret found
  | e :: es =>
      labels ← pure (listed_labels (entry_output e));
      if forallb (λ k, bool_decide (is_Some (jget k found))) labels then mcp_from identity record es found
      else
        let response_id := default JNull (Dict.get "response_id" e.1.1) in
        origin ← (if Json.eqb response_id (default JNull (Dict.get "id" (response_of record)))
                  then mret (Some record)
                  else if Json.truthy response_id then read_record identity (fmt response_id) else mret None);
        let tools := if origin is Some o then default JNull (Dict.get "tools" (response_of o)) else JNull in
        listings ← pure (mcp_listings_in tools (JList (entry_output e)));
        mcp_from identity record es (foldl (λ f kl, setdefault kl.1 kl.2 f) found listings)
  end.

Definition usable (found : list (json * option json)) : list (json * json) :=
  omap (λ kl, match kl.2 with Some l => Some (kl.1, l) | None => None end) found.

Definition mcp_listings (identity : string) (record : dict json) (es : list entry) : prog (list (json * json)) :=
  found ← mcp_from identity record (rev es) [];
  mret (usable found).

(** [history_async] *)
Definition history (identity : string) (record : dict json)
    : prog (option (list json * Position * list (json * json))) :=
  log ← pure (item "log" record);
  _ ← refresh identity (fmt log);
  depth ← pure (item "depth" record);
  n ← pure (bound depth);
  es ← entries identity (fmt log) n;
  match es with
  | None => mret None
  | Some es =>
      listings ← mcp_listings identity record es;
      mret (Some (items es, mkPosition [("log"%string, log); ("depth"%string, depth)] (fmt log) n, listings))
  end.

(** The items up to the last turn's input. *)
Definition up_to_input (es : list entry) : option (list json) :=
  match last es with Some e => Some (items (removelast es) ++ entry_input e) | None => None end.

(** [input_items_async] *)
Definition input_items (identity : string) (record : dict json) : prog (option (list json)) :=
  if Dict.mem "log" record then
    log ← pure (item "log" record);
    depth ← pure (item "depth" record);
    n ← pure (bound depth);
    es ← entries identity (fmt log) n;
    mret (match es with Some es => up_to_input es | None => None end)
  else
    parent ← pure (item "parent" record);
    match parent with
    | JNull =>
        input ← pure (item "input" record); l ← pure (iter input); mret (Some l)
    | p =>
        match position_of p with
        | None => Fail (TypeError "not a position")
        | Some p =>
            es ← entries identity (pos_log p) (pos_depth p);
            match es with
            | None => mret None
            | Some es =>
                input ← pure (item "input" record); l ← pure (iter input); mret (Some (items es ++ l))
            end
        end
    end.

(** *** Writes *)

Definition id_prefixes : dict string :=
  [("message", "msg"); ("function_call", "fc"); ("function_call_output", "fco"); ("reasoning", "rs");
   ("mcp_call", "mcp"); ("mcp_list_tools", "mcpl"); ("mcp_approval_request", "mcpr");
   ("mcp_approval_response", "mcpr"); ("compaction", "cmp")]%string.

(** [_with_ids]; [uuid] is the [random_uuid()] drawn for it *)
Definition with_id (uuid : string) (it : json) : res json :=
  match it with
  | JObj d =>
      ty ← hashable (default (JStr "message") (Dict.get "type" d));
      match (if ty is JStr ty then Dict.get ty id_prefixes else None) with
      | Some prefix =>
          if Json.truthy (default JNull (Dict.get "id" d)) then Ok it
          else Ok (JObj (Dict.set "id" (JStr (prefix +:+ "_" +:+ uuid)) d))
      | None => Ok it
      end
  | _ => Err (OtherError "AttributeError")
  end.

Fixpoint with_ids (uuids : nat → string) (l : list json) : res (list json) :=
  match l with
  | [] => Ok []
  | it :: l => it ← with_id (uuids 0%nat) it; l ← with_ids (λ n, uuids (S n)) l; Ok (it :: l)
  end.

(** The entry and the record of a turn. *)
Definition turn_entry (response_id : string) (response : dict json) (input : list json) : dict json :=
  [("response_id", JStr response_id); ("input", JList input);
   ("output", py_or (default JNull (Dict.get "output" response)) (JList []))]%string.
Definition turn_fields (response : dict json) (log : string) (depth : Z) : dict json :=
  [("response", JObj (Dict.set "output" (JList []) response)); ("log", JStr log); ("depth", JInt depth)]%string.
Definition turn_record (response : dict json) (log : string) (depth : Z) : json :=
  JObj (turn_fields response log depth).

(** The append of a turn to [log]. *)
Definition append_turn (identity response_id : string) (response : dict json) (log : string) (depth : Z)
    (entry : dict json) (if_exists : bool) : prog bool :=
  call (OAppendAndSet (log_key identity log) depth (JObj entry) (key identity response_id)
    (turn_record response log depth) ttl if_exists).

(** What the position a turn was refused at holds: this very turn. *)
Definition is_this_turn (response_id : string) (taken : list json) : bool :=
  match taken with
  | JObj d :: _ => Json.eqb (default JNull (Dict.get "response_id" d)) (JStr response_id)
  | _ => false
  end.

(** [_store_turn] *)
Definition store_turn (identity response_id : string) (response : dict json) (parent : option Position)
    (input : list json) (if_exists : bool) : prog unit :=
  let entry := turn_entry response_id response input in
  match parent with
  | None => _ ← append_turn identity response_id response response_id 1 entry if_exists; mret tt
  | Some p =>
      let depth := pos_depth p + 1 in
      stored ← append_turn identity response_id response (pos_log p) depth entry if_exists;
      if (stored : bool) then mret tt
      else
        taken ← call (OReadRange (log_key identity (pos_log p)) depth (Some depth));
        if is_this_turn response_id taken then mret tt
        else
          _ ← append_turn identity response_id response response_id depth
                (Dict.set "base" (JObj (raw_position p)) entry) if_exists;
          mret tt
  end.

(** [write_async] *)
Definition write (uuids : nat → string) (identity response_id : string) (response : dict json)
    (parent : option Position) (input : list json) : prog unit :=
  input ← pure (with_ids uuids input);
  store_turn identity response_id response parent input false.

(** [delete_async] *)
Definition delete (identity response_id : string) : prog unit := call (ODelete (key identity response_id)).

(** [write_background] *)
Definition write_background (uuids : nat → string) (identity response_id : string) (response : dict json)
    (parent : option Position) (input : list json) : prog unit :=
  input ← pure (with_ids uuids input);
  call (OSet (key identity response_id)
    (JObj [("response", JObj response);
           ("parent", if parent is Some p then JObj (raw_position p) else JNull); ("input", JList input)]%string) ttl).

(** A response's status, when it is one that no longer changes. *)
Definition is_terminal (response : dict json) : res bool :=
  status ← hashable (default JNull (Dict.get "status" response));
  Ok (if status is JStr s then bool_decide (s ∈ TERMINAL_STATUSES) else false).

(** [write_terminal_if_not_terminal] *)
Definition write_terminal_if_not_terminal (identity response_id : string) (response : dict json) : prog unit :=
  record ← read_record identity response_id;
  match record with
  | None => mret tt
  | Some d =>
      if Dict.mem "log" d then mret tt
      else
        terminal ← pure (is_terminal (response_of d));
        if (terminal : bool) then mret tt
        else
          parent ← pure (item "parent" d);
          input ← pure (item "input" d);
          input ← pure (iter input);
          store_turn identity response_id response (position_of parent) input true
  end.

(** *** Stream buffers *)

(** [append_stream_event], with the buffer's time to live *)
Definition append_stream_event (stream_ttl : Z) (identity response_id : string) (event : dict json) : prog unit :=
  match int_of (default JNull (Dict.get "sequence_number" event)) with
  | Some n => _ ← call (OAppend (stream_key identity response_id) (n + 1) (JObj event) (Some stream_ttl)); mret tt
  | None => mret tt
  end.

(** [read_stream_events_after] *)
Definition read_stream_events_after (identity response_id : string) (after_sequence : Z) : prog (list json) :=
  call (OReadRange (stream_key identity response_id) (after_sequence + 2) None).

(** [discard_stream_buffer] *)
Definition discard_stream_buffer (identity response_id : string) : prog unit :=
  call (ODelete (stream_key identity response_id)).
End responses.
