(* ===== verification/ResponsesLogs.v ===== *)
(** * The conversation logs under concurrent callers

    What every operation of [ResponsesState] does to the logs ([issues], [allowed]): a log is only
    appended to, past its last position, and never expires earlier than it would have ([grown]),
    so a chain of log segments that is readable stays readable ([chain]). *)

From S2P Require Import Prelude StateStore MemoryStore ResponsesState.
Import SessionFacts.
Local Open Scope Z_scope.

(** ** Which store calls a program may make *)

Fixpoint issues (P : ∀ B, store_op B → Prop) {A} (p : prog A) : Prop :=
  match p with Op op k => P _ op ∧ ∀ b, issues P (k b) | _ => True end.

(** A position whose log and depth are those of its dict. *)
Definition consistent (p : Position) : Prop := position_of (JObj (raw_position p)) = Some p.

(** The operations of the module for one identity, with any other arguments, as callers run them. *)
Inductive operation (py_format : json → string) (ttl : option Z) (i : string) : ∀ {A : Type}, prog A → Prop :=
| op_read r b : operation py_format ttl i (read py_format i r b)
| op_history d : operation py_format ttl i (history py_format ttl i d)
| op_input_items d : operation py_format ttl i (input_items py_format ttl i d)
| op_write us r x p l : (∀ b, p = Some b → consistent b) → operation py_format ttl i (write ttl us i r x p l)
| op_delete r : operation py_format ttl i (delete i r)
| op_write_background us r x p l : operation py_format ttl i (write_background ttl us i r x p l)
| op_write_terminal r x : operation py_format ttl i (write_terminal_if_not_terminal ttl i r x)
| op_append_event st r e : operation py_format ttl i (append_stream_event st i r e)
| op_read_events r n : operation py_format ttl i (read_stream_events_after i r n)
| op_discard r : operation py_format ttl i (discard_stream_buffer i r).

(** The base a log entry names. *)
Definition base_of (v : json) : option Position :=
  match v with
  | JObj d => match default JNull (Dict.get "base" d) with JNull => None | b => position_of b end
  | _ => None
  end.

Section logs.
Context (ttl : option Z).

Definition is_log (k : string) : Prop := ∃ i l, k = log_key i l.

(** An entry that names a base comes right after it. *)
Definition follows_base (p : Z) (v : json) : Prop := ∀ b, base_of v = Some b → p = pos_depth b + 1.

(** The store calls that keep the logs in order. *)
Definition allowed (B : Type) (op : store_op B) : Prop :=
  match op with
  | OSet k _ _ | ODelete k | OAppend k _ _ _ => ¬ is_log k
  | OAppendAndSet lk p e k _ t _ => is_log lk ∧ ¬ is_log k ∧ t = ttl ∧ follows_base p e
  | OExpire _ t => ttl = Some t
  | OGet _ | OList _ | OReadRange _ _ _ => True
  end.

(** The store calls of the module's operations for identity [i]. *)
Inductive emitted (i : string) : ∀ B, store_op B → Prop :=
| emit_get r : emitted i _ (OGet (key i r))
| emit_set r v : emitted i _ (OSet (key i r) v ttl)
| emit_delete r : emitted i _ (ODelete (key i r))
| emit_discard r : emitted i _ (ODelete (stream_key i r))
| emit_range l a b : emitted i _ (OReadRange (log_key i l) a b)
| emit_events r a : emitted i _ (OReadRange (stream_key i r) a None)
| emit_expire l t : ttl = Some t → emitted i _ (OExpire (log_key i l) t)
| emit_event r n e t : int_of (default JNull (Dict.get "sequence_number" e)) = Some n →
    emitted i _ (OAppend (stream_key i r) (n + 1) (JObj e) t)
| emit_turn l d e r v b : follows_base d e → emitted i _ (OAppendAndSet (log_key i l) d e (key i r) v ttl b).

(** ** Logs in order *)

Record in_order (es : list (Z * json)) : Prop := {
  order_sorted : StronglySorted Z.lt es.*1;
  order_bases p v : (p, v) ∈ es → follows_base p v
}.

(** No log outlives a write made now; none expires when conversations are kept for ever. *)
Definition bounded (now : Z) (e : option Z) : Prop :=
  match ttl with Some t => ∃ e', e = Some e' ∧ e' ≤ now + t | None => e = None end.

(** Every visible log is in order. *)
Definition tidy (now : Z) (m : content) : Prop :=
  ∀ k v e, is_log k → live now (m k) = Some (v, e) →
    bounded now e ∧ ∃ es, v = JList (log_of es) ∧ in_order es.

(** From [now] on, [m'] shows every log that [m] shows, with nothing but later entries added. *)
Definition grown (now : Z) (m m' : content) : Prop :=
  ∀ k t es e, is_log k → now ≤ t → live t (m k) = Some (JList (log_of es), e) →
    ∃ es' e', live t (m' k) = Some (JList (log_of (es ++ es')), e') ∧ StronglySorted Z.lt (es ++ es').*1.

(** ** What stays readable *)

Definition read_at (t : Z) (m : content) (identity log : string) (depth : Z) : res (list json) :=
  Spec.read_range (log_key identity log) 1 (Some depth) t m.

(** The turns up to a position, segment by segment. *)
Inductive chain (t : Z) (m : content) (identity : string)
    : string → Z → list (dict json * list json * list json) → Prop :=
| chain_first log depth raw es :
    read_at t m identity log depth = Ok raw → segment raw depth = Some (es, None) →
    chain t m identity log depth es
| chain_base log depth raw es p es0 :
    read_at t m identity log depth = Ok raw → segment raw depth = Some (es, Some p) →
    chain t m identity (pos_log p) (pos_depth p) es0 →
    chain t m identity log depth (es0 ++ es).
End logs.

(** ** Lemmas *)

Module LogFacts.

Lemma issues_bind P {A B} (p : prog A) (f : A → prog B) :
  issues P p → (∀ a, issues P (f a)) → issues P (p ≫= f).
Proof.
  intros Hp Hf. change (issues P (prog_bind f p)). induction p as [a|e|C op k IH]; cbn; [auto|done|].
  destruct Hp as [Ho Hk]. split; [done|]. intros b. apply IH, Hk.
Qed.

Lemma issues_call P {B} (op : store_op B) : P _ op → issues P (call op).
Proof. cbn. auto. Qed.

Lemma issues_pure P {A} (r : res A) : issues P (pure r).
Proof. by destruct r. Qed.

Lemma key_not_log i r : ¬ is_log (key i r).
Proof. intros (i' & l & E). unfold key, stream_key, log_key in E. cbn in E. discriminate. Qed.
Lemma stream_not_log i r : ¬ is_log (stream_key i r).
Proof. intros (i' & l & E). unfold key, stream_key, log_key in E. cbn in E. discriminate. Qed.
Lemma log_is_log i l : is_log (log_key i l).
Proof. by exists i, l. Qed.
#[local] Hint Resolve key_not_log stream_not_log log_is_log : core.

Create HintDb calls.

(** Decomposes a program into its calls. *)
Ltac by_calls :=
  repeat first
    [ done
    | solve [auto with calls nocore]
    | apply issues_pure
    | apply issues_call; by constructor
    | apply issues_bind; [|intros ?]
    | case_match ].

Section operations.
Context (py_format : json → string) (ttl : option Z).
Notation ok i := (issues (emitted ttl i)).

Lemma read_record_ok i r : ok i (read_record i r).
Proof. unfold read_record. by_calls. Qed.

Lemma refresh_ok i l : ok i (refresh ttl i l).
Proof. unfold refresh. destruct ttl as [t|] eqn:E; [|done]. apply issues_call. by constructor. Qed.

Lemma entries_ok fuel i l d acc : ok i (entries_from ttl fuel i l d acc).
Proof.
  revert l d acc. induction fuel as [|fuel IH]; intros l d acc; cbn [entries_from]; [done|].
  apply issues_bind; [apply issues_call; constructor|]. intros raw.
  destruct (segment raw d) as [[es [p|]]|]; [|done..].
  apply issues_bind; [apply refresh_ok|]. intros _. apply IH.
Qed.

Lemma mcp_ok i d es found : ok i (mcp_from py_format i d es found).
Proof.
  revert found. induction es as [|e es IH]; intros found; cbn [mcp_from]; [done|].
  apply issues_bind; [apply issues_pure|]. intros ls. case_match; [apply IH|].
  apply issues_bind; [repeat case_match; [done|apply read_record_ok|done]|]. intros o.
  apply issues_bind; [apply issues_pure|]. intros ?. apply IH.
Qed.

#[local] Hint Resolve read_record_ok refresh_ok entries_ok mcp_ok : calls.

Lemma append_turn_ok i r x l d e b :
  follows_base d (JObj e) → ok i (append_turn ttl i r x l d e b).
Proof. intros. unfold append_turn. apply issues_call. by constructor. Qed.

Lemma turn_entry_base r x l d : follows_base d (JObj (turn_entry r x l)).
Proof. intros b. cbn. by destruct (py_or _ _). Qed.

Lemma turn_entry_based r x l p :
  consistent p →
  follows_base (pos_depth p + 1) (JObj (Dict.set "base" (JObj (raw_position p)) (turn_entry r x l))).
Proof.
  unfold consistent. intros Hp b. unfold base_of.
  rewrite Dict.get_set_eq. 
  change (position_of (JObj (raw_position p)) = Some b → pos_depth p + 1 = pos_depth b + 1). rewrite Hp. by intros [= <-].
Qed.

Lemma position_consistent v p : position_of v = Some p → consistent p.
Proof.
  destruct v as [| | | | | |d]; try done. unfold position_of.
  destruct (Dict.get "log" d) as [[| | | |l| |]|] eqn:El; try done.
  destruct (int_of (default JNull (Dict.get "depth" d))) as [z|] eqn:Ez; [|done]. intros [= <-].
  unfold consistent, position_of. cbn [raw_position]. by rewrite El, Ez.
Qed.

Lemma store_turn_ok i r x p l b :
  (∀ q, p = Some q → consistent q) → ok i (store_turn ttl i r x p l b).
Proof.
  intros Hp. unfold store_turn. destruct p as [p|].
  - apply issues_bind; [apply append_turn_ok, turn_entry_base|]. intros []; [done|].
    apply issues_bind; [apply issues_call; constructor|]. intros taken. case_match; [done|].
    apply issues_bind; [|done]. apply append_turn_ok, turn_entry_based; auto.
  - apply issues_bind; [apply append_turn_ok, turn_entry_base|done].
Qed.

(** Every operation makes only these calls. *)
Lemma operation_ok {A} i (p : prog A) : operation py_format ttl i p → ok i p.
Proof.
  destruct 1; unfold read, history, input_items, write, delete, write_background, write_terminal_if_not_terminal,
    append_stream_event, read_stream_events_after, discard_stream_buffer, entries, mcp_listings;
    try (by_calls; fail).
  - apply issues_bind; [apply issues_pure|]. intros l'. by apply store_turn_ok.
  - by_calls. apply store_turn_ok. intros q. apply position_consistent.
Qed.

Lemma issues_mono (P Q : ∀ B, store_op B → Prop) {A} (p : prog A) :
  (∀ B op, P B op → Q B op) → issues P p → issues Q p.
Proof. intros HPQ. induction p as [a|e|B op k IH]; cbn; [done..|]. intros [Hop Hk]. split; auto. Qed.

(** They keep the logs in order. *)
Lemma emitted_ok i {A} (p : prog A) : ok i p → issues (allowed ttl) p.
Proof. apply issues_mono. intros B op []; cbn; auto. Qed.
End operations.

Section effects.
Context (ttl : option Z).

Lemma live_later now t c c' : now ≤ t → live t c = Some c' → live now c = Some c'.
Proof.
  intros Ht. destruct c as [[v [e|]]|]; unfold live, expired; cbn; try done.
  destruct (Z.leb_spec e t), (Z.leb_spec e now); try done; lia.
Qed.

Lemma bounded_mono now now' e : now ≤ now' → bounded ttl now e → bounded ttl now' e.
Proof. unfold bounded. destruct ttl; [|done]. intros ? (e' & -> & ?). exists e'. split; [done|lia]. Qed.

Lemma log_of_inj es es' : log_of es = log_of es' → es = es'.
Proof.
  revert es'. induction es as [|[p v] es IH]; intros [|[q w] es']; [done..|].
  cbn. intros [= -> -> H]. by rewrite (IH es' H).
Qed.

Lemma in_order_nil : in_order [].
Proof. split; [constructor|]. by intros ?? ?%elem_of_nil. Qed.

Lemma tidy_mono now now' m : now ≤ now' → tidy ttl now m → tidy ttl now' m.
Proof.
  intros Hn Hm k v e Hk Hv. destruct (Hm k v e Hk) as [Hb Hes]; [by eapply live_later|].
  split; [by eapply bounded_mono|done].
Qed.

Lemma tidy_same now m m' : same_from now m m' → tidy ttl now m → tidy ttl now m'.
Proof. intros E Hm k v e Hk Hv. eapply Hm; [done|]. by rewrite (same_from_now _ _ _ k E). Qed.

Lemma tidy_empty now m : (∀ k, live now (m k) = None) → tidy ttl now m.
Proof. intros Hm k v e _ Hv. by rewrite Hm in Hv. Qed.

Lemma grown_trans now m1 m2 m3 : grown now m1 m2 → grown now m2 m3 → grown now m1 m3.
Proof.
  intros H12 H23 k t es e Hk Ht Hes. destruct (H12 k t es e Hk Ht Hes) as (es' & e' & Hes' & _).
  destruct (H23 k t _ e' Hk Ht Hes') as (es2 & e2 & H2 & Hs). rewrite <-app_assoc in H2, Hs. eauto.
Qed.

Lemma grown_mono now now' m m' : now ≤ now' → grown now m m' → grown now' m m'.
Proof. intros ? H k t es e Hk ?. apply H; [done|lia]. Qed.

Lemma grown_same now m m' : same_from now m m' → tidy ttl now m → grown now m m'.
Proof.
  intros E Hm k t es e Hk Ht Hes. destruct (Hm k _ e Hk (live_later _ _ _ _ Ht Hes)) as (_ & es' & Hes' & Ho).
  exists [], e. rewrite app_nil_r. destruct E as [E]. rewrite <-(E t k) by done. split; [done|].
  injection Hes' as Hl. apply log_of_inj in Hl as ->. apply Ho.
Qed.

(** An effect that leaves the logs as they were. *)
Lemma untouched now m m' :
  tidy ttl now m → (∀ k, is_log k → m' k = m k) → tidy ttl now m' ∧ grown now m m'.
Proof.
  intros Hm E. split.
  - intros k v e Hk. rewrite E by done. by apply Hm.
  - intros k t es e Hk Ht. rewrite E by done. intros Hes.
    destruct (grown_same now m m ltac:(done) Hm k t es e Hk Ht Hes) as (es' & e' & H & Hs). eauto.
Qed.

Lemma log_tidy now m k :
  tidy ttl now m → is_log k →
  ∃ es, Spec.log k now m = log_of es ∧ in_order es ∧
    (live now (m k) = None ∧ es = [] ∨ ∃ e, live now (m k) = Some (JList (log_of es), e) ∧ bounded ttl now e).
Proof.
  intros Hm Hk. unfold Spec.log. destruct (live now (m k)) as [[v e]|] eqn:E.
  - destruct (Hm k v e Hk E) as (Hb & es & -> & Ho). exists es. split_and!; [done..|]. right. eauto.
  - exists []. split_and!; [done| |by left]. split; [constructor|]. by intros ?? ?%elem_of_nil.
Qed.

Lemma fmap_app_sorted (es es' : list (Z * json)) :
  StronglySorted Z.lt (es ++ es').*1 → StronglySorted Z.lt es.*1.
Proof.
  rewrite fmap_app. induction (es.*1) as [|x l IH]; [constructor|]. cbn.
  intros [Hl Hx]%StronglySorted_inv. apply Forall_app in Hx as [Hx _]. constructor; auto.
Qed.

Lemma sorted_snoc (l : list Z) (p : Z) :
  StronglySorted Z.lt l → (∀ q, last l = Some q → q < p) → StronglySorted Z.lt (l ++ [p]).
Proof.
  induction l as [|x l IH]; intros Hl Hp; [repeat constructor|]. apply StronglySorted_inv in Hl as [Hl Hx].
  cbn. constructor.
  - apply IH; [done|]. intros q Hq. apply Hp. destruct l; [done|]. done.
  - apply Forall_app. split; [done|]. constructor; [|done].
    destruct (last l) as [q|] eqn:E.
    + assert (q < p) by (apply Hp; by destruct l). rewrite Forall_forall in Hx.
      assert (x < q); [|lia]. apply Hx. apply last_Some in E as (l' & ->). set_solver.
    + apply last_None in E as ->. by apply Hp.
Qed.

Lemma append_sets k p v t now m m' :
  Spec.append k p v t now m = Ok (Some m') → ∃ x, m' = Spec.set k x t now m.
Proof.
  unfold Spec.append. destruct (last _) as [j|]; [|intros [= <-]; eauto].
  destruct (py_item0 j) as [q|]; [|done]. cbn. destruct (py_ge q p) as [[]|]; [done| |done].
  intros [= <-]. eauto.
Qed.

(** An append either is refused, or adds one later entry. *)
Lemma append_log now m k p v es :
  Spec.log k now m = log_of es → in_order es → follows_base p v →
  Spec.append k p v ttl now m = Ok None ∨
  Spec.append k p v ttl now m = Ok (Some (Spec.set k (JList (log_of (es ++ [(p, v)]))) ttl now m)) ∧
    in_order (es ++ [(p, v)]).
Proof.
  intros Hl [Hs Hb] Hp. unfold Spec.append. rewrite Hl, last_log_of.
  assert (log_of es ++ [Spec.pair_of p v] = log_of (es ++ [(p, v)])) as -> by (unfold log_of; by rewrite fmap_app).
  assert ((∀ q, last es.*1 = Some q → q < p) → in_order (es ++ [(p, v)])) as Hnew.
  { intros Hlt. split; [rewrite fmap_app; by apply sorted_snoc|].
    intros q w [Hin|[= -> ->]%list_elem_of_singleton]%elem_of_app; auto. }
  rewrite fmap_last in Hnew. destruct (last es) as [[q w]|]; cbn in *; [|right; split; [done|by apply Hnew]].
  unfold py_ge; cbn. destruct (Z.leb_spec p q); [by left|]. right. split; [done|].
  apply Hnew. intros ? [= <-]. done.
Qed.

Lemma set_log now m k es es2 e :
  tidy ttl now m → is_log k → (∀ t, ttl = Some t → 0 < t) →
  (live now (m k) = None ∧ es = [] ∨ live now (m k) = Some (JList (log_of es), e) ∧ bounded ttl now e) →
  in_order (es ++ es2) →
  let m' := Spec.set k (JList (log_of (es ++ es2))) ttl now m in tidy ttl now m' ∧ grown now m m'.
Proof.
  intros Hm Hk Httl Hold Ho m'. split.
  - intros k' v e' Hk'. unfold m', Spec.set, Spec.upd. case_decide as E; [|by apply Hm].
    intros [= <- <-]%live_Some. split; [|by exists (es ++ es2)].
    unfold bounded, expires_at. destruct ttl as [t|]; [|done]. exists (now + t). split; [done|lia].
  - intros k' t es0 e0 Hk' Ht Hes0. unfold m', Spec.set, Spec.upd. case_decide as E.
    + subst k'. pose proof (live_later _ _ _ _ Ht Hes0) as Hnow.
      destruct Hold as [[Hn _]|[Hn Hb]]; rewrite Hnow in Hn; [done|]. injection Hn as Hl ->.
      exists es2, (expires_at now ttl). apply log_of_inj in Hl as ->.
      split; [|apply Ho]. unfold live, expired, expires_at. cbn.
      destruct ttl as [T|]; [|done]. destruct Hb as (e' & -> & He). cbn.
      unfold live, expired in Hes0. destruct (m k) as [[v' [x|]]|]; cbn in Hes0; try done.
      destruct (Z.leb_spec x t); [done|]. injection Hes0 as -> ->. destruct (Z.leb_spec (now + T) t); [lia|done].
    + eapply untouched; [done|done|done|done|done].
Qed.

Lemma expire_log now m k T :
  tidy ttl now m → ttl = Some T →
  let m' := Spec.expire k T now m in tidy ttl now m' ∧ grown now m m'.
Proof.
  intros Hm HT m'. unfold m', Spec.expire. destruct (live now (m k)) as [[v x]|] eqn:Ek; [|by apply untouched].
  split.
  - intros k' v' e' Hk'. unfold Spec.upd. case_decide as E; [subst k'|by apply Hm].
    intros [= <- <-]%live_Some. split; [|by eapply Hm]. unfold bounded. rewrite HT. eauto with lia.
  - intros k' t es e Hk' Ht Hes. unfold Spec.upd. case_decide as E; [subst k'|by eapply untouched].
    pose proof (live_later _ _ _ _ Ht Hes) as Hnow. rewrite Ek in Hnow. injection Hnow as -> ->.
    destruct (Hm k _ _ Hk' Ek) as (Hb & es' & Hl & Ho).
    destruct (grown_same now m m ltac:(done) Hm k t es e Hk' Ht Hes) as (es2 & e2 & H2 & Hs).
    exists [], (Some (now + T)). rewrite app_nil_r. split; [|by apply fmap_app_sorted in Hs].
    unfold bounded in Hb. rewrite HT in Hb. destruct Hb as (e' & -> & He).
    unfold live, expired; cbn. apply live_Some in Hes as Hc. rewrite Hc in Hes. unfold live, expired in Hes. cbn in Hes.
    destruct (Z.leb_spec e' t); [done|]. by destruct (Z.leb_spec (now + T) t); [lia|].
Qed.

(** An allowed store call keeps the logs in order and only makes them grow. *)
Lemma allowed_effect {B} (op : store_op B) now m :
  allowed ttl B op → (∀ t, ttl = Some t → 0 < t) → tidy ttl now m →
  tidy ttl now (effect op now m) ∧ grown now m (effect op now m).
Proof.
  intros Hop Httl Hm. destruct op as [k|k v t|k|prefix|k p v t|lk p x k v t ife|k lo hi|k t]; cbn [effect allowed] in *;
    try (apply untouched; [done|done]); try (apply untouched; [done|]; intros k' Hk'; unfold Spec.set, Spec.delete, Spec.upd;
      rewrite decide_False; [done|congruence]).
  - destruct (Spec.append k p v t now m) as [[m'|]|] eqn:E; [|by apply untouched..].
    destruct (append_sets _ _ _ _ _ _ _ E) as [x ->].
    apply untouched; [done|]. intros k' Hk'. unfold Spec.set, Spec.upd. rewrite decide_False; [done|congruence].
  - destruct Hop as (Hlk & Hk & -> & Hx). unfold Spec.append_and_set.
    destruct (ife && _); [by apply untouched|].
    destruct (log_tidy now m lk Hm Hlk) as (es & Hes & Ho & Hlive).
    destruct (append_log now m lk p x es Hes Ho Hx) as [-> | [-> Ho']]; [by apply untouched|].
    destruct (set_log now m lk es [(p, x)] (if live now (m lk) is Some (_, e) then e else None) Hm Hlk Httl) as [Ht Hg]; [|done|].
    { destruct Hlive as [[-> ->]|(e & -> & Hb)]; [by left|by right]. }
    destruct (untouched now _ (Spec.set k v ttl now (Spec.set lk (JList (log_of (es ++ [(p, x)]))) ttl now m)) Ht)
      as [Ht' Hg'].
    { intros k' Hk'. unfold Spec.set at 1, Spec.upd. rewrite decide_False; [done|congruence]. }
    split; [done|]. by eapply grown_trans.
  - by apply expire_log.
Qed.

(** *** Segments *)

Lemma segment_Some raw depth es o :
  segment raw depth = Some (es, o) →
  mapM entry_of raw = Some es ∧
  ∃ d rest, raw = JObj d :: rest ∧ base_of (JObj d) = o ∧
    Z.of_nat (length raw) = depth - default 0 (pos_depth <$> o).
Proof.
  unfold segment. intros (l & Hl & H)%bind_Some. pose proof (length_mapM _ _ _ Hl) as Hlen.
  destruct raw as [|v rest]; [by injection Hl as <-|]. rewrite Hlen. clear Hlen. pose proof Hl as Hall.
  cbn in Hl. apply bind_Some in Hl as ([[d i] x] & Hv & Hl). apply bind_Some in Hl as (l' & Hl' & [= <-]).
  assert (v = JObj d) as ->.
  { unfold entry_of in Hv. by repeat case_match; simplify_eq. }
  unfold base_of. destruct (default JNull (Dict.get "base" d)) eqn:Eb;
    [|apply bind_Some in H as (p & Hp & H)..];
    (case_guard as Hd; [|done]); cbn in H; simplify_eq; (split; [done|]); exists d, rest; cbn in *; (split_and!; [done|by rewrite Eb|lia]).
Qed.

(** A full run of positions ends at its depth. *)
Lemma full_run (l : list Z) (base depth : Z) :
  l ≠ [] → StronglySorted Z.lt l → Forall (λ p, base < p ≤ depth) l →
  Z.of_nat (length l) = depth - base → depth ∈ l.
Proof.
  revert base. induction l as [|x l IH]; intros base Hne Hs Hr Hl; [done|].
  apply StronglySorted_inv in Hs as [Hs Hx]. apply Forall_cons in Hr as [Hx' Hr].
  destruct l as [|y l]; [cbn in Hl; assert (x = depth) as -> by lia; by left|].
  right. apply (IH x); [done|done| |].
  - apply Forall_forall. intros q Hq. rewrite Forall_forall in Hx, Hr. specialize (Hx q Hq). specialize (Hr q Hq). lia.
  - cbn in Hl |- *. rewrite Forall_forall in Hx, Hr.
    assert (∀ (l : list Z) (a b : Z), StronglySorted Z.lt l → Forall (λ p, a < p ≤ b) l → Z.of_nat (length l) ≤ Z.max 0 (b - a)) as Hmax.
    { clear. induction l as [|z l IH]; intros a b Hs Hr; [cbn; lia|].
      apply StronglySorted_inv in Hs as [Hs Hz]. apply Forall_cons in Hr as [? Hr].
      assert (Forall (λ p, z < p ≤ b) l) as Hr'.
      { apply Forall_forall. intros q Hq. rewrite Forall_forall in Hz, Hr. specialize (Hz q Hq). specialize (Hr q Hq). lia. }
      specialize (IH z b Hs Hr'). cbn. lia. }
    specialize (Hmax (y :: l) x depth Hs). cbn in Hmax.
    assert (Z.pos (Pos.of_succ_nat (length l)) ≤ Z.max 0 (depth - x)); [|lia]. apply Hmax.
    apply Forall_forall. intros q Hq. specialize (Hx q Hq). specialize (Hr q Hq). lia.
Qed.

Lemma filter_sorted (f : Z * json → Prop) `{∀ x, Decision (f x)} (es : list (Z * json)) :
  StronglySorted Z.lt es.*1 → StronglySorted Z.lt (filter f es).*1.
Proof.
  induction es as [|x es IH]; [done|]. cbn [fmap list_fmap]. intros [Hs Hx]%StronglySorted_inv.
  rewrite filter_cons. case_decide; [|auto]. cbn. constructor; [auto|].
  rewrite Forall_forall in Hx |- *. intros q (y & -> & Hy)%list_elem_of_fmap.
  apply Hx, list_elem_of_fmap. exists y. split; [done|]. by apply list_elem_of_filter in Hy as [_ ?].
Qed.

(** What a readable segment reads stays what it was. *)
Lemma segment_stable t m m' i l d raw sg :
  tidy ttl t m → grown t m m' → read_at t m i l d = Ok raw → segment raw d = Some sg →
  read_at t m' i l d = Ok raw.
Proof.
  intros Hm Hg Hr Hsg. destruct sg as [es0 o]. apply segment_Some in Hsg as (_ & v & rest & -> & Ho & Hlen).
  destruct (log_tidy t m (log_key i l) Hm (log_is_log i l)) as (es & Hes & [Hs Hb] & Hlive).
  unfold read_at, Spec.read_range in *. rewrite Hes, select_log_of in Hr. injection Hr as Hr.
  destruct Hlive as [[_ ->]|(e & Hlive & _)]; [done|].
  destruct (Hg _ t es e (log_is_log i l) ltac:(lia) Hlive) as (es' & e' & Hlive' & Hs').
  unfold Spec.log. rewrite Hlive', select_log_of. f_equal. rewrite <-Hr, filter_app, fmap_app.
  cut (filter (λ pv, within 1 (Some d) pv.1 = true) es' = []); [intros ->; by rewrite app_nil_r|].
  set (F := filter (λ pv, within 1 (Some d) pv.1 = true) es) in *.
  assert (∀ q w, (q, w) ∈ F → (q, w) ∈ es ∧ 1 ≤ q ≤ d) as HF.
  { intros q w [Hw Hin]%list_elem_of_filter. split; [done|]. unfold within in Hw. cbn in Hw. lia. }
  assert (d ∈ F.*1) as ([d' w] & Ed & Hd)%list_elem_of_fmap.
  { apply (full_run _ (default 0 (pos_depth <$> o))).
    - intros HF0. apply fmap_nil_inv in HF0. by rewrite HF0 in Hr.
    - by apply filter_sorted.
    - assert (default 0 (pos_depth <$> o) < (default (1, JNull) (head F)).1) as Hhead.
      { destruct F as [|[q w] F]; [done|]. cbn in Hr. injection Hr as -> _.
        destruct (HF q (JObj v)) as [Hin Hq]; [by left|]. cbn.
        destruct o as [b|]; cbn; [|lia]. rewrite (Hb q _ Hin b Ho). lia. }
      assert (StronglySorted Z.lt F.*1) as HsF by by apply filter_sorted.
      apply Forall_forall. intros q Hq. apply list_elem_of_fmap in Hq as ([q' w] & -> & Hq). cbn.
      destruct (HF q' w Hq) as [_ ?]. split; [|lia].
      destruct F as [|[q0 w0] F]; [by apply elem_of_nil in Hq|]. cbn in Hhead, HsF.
      apply elem_of_cons in Hq as [[= -> ->]|Hq]; [done|].
      apply StronglySorted_inv in HsF as [_ Hall]. rewrite Forall_forall in Hall.
      assert (q0 < q'); [|lia]. apply Hall, list_elem_of_fmap. by exists (q', w).
    - rewrite length_fmap. rewrite <-Hlen, <-Hr, length_fmap. done. }
  cbn in Ed. subst d'. destruct (HF d w Hd) as [Hin _].
  destruct (filter _ es') as [|[q x] rest'] eqn:Ef; [done|]. exfalso.
  assert ((q, x) ∈ (q, x) :: rest') as Hq by by left. rewrite <-Ef in Hq. apply list_elem_of_filter in Hq as [Hw Hq].
  unfold within in Hw. cbn in Hw.
  assert (d < q); [|lia]. rewrite fmap_app in Hs'. clear -Hs' Hin Hq.
  apply (StronglySorted_app_1_elem_of Z.lt (es.*1) (es'.*1)); [done| |];
    apply list_elem_of_fmap; [by exists (d, w)|by exists (q, x)].
Qed.

Lemma chain_stable t m m' i l d es :
  tidy ttl t m → grown t m m' → chain t m i l d es → chain t m' i l d es.
Proof.
  intros Hm Hg. induction 1 as [l d raw es Hr Hsg|l d raw es p es0 Hr Hsg Hc IH].
  - eapply chain_first; [|done]. by eapply segment_stable.
  - eapply chain_base; [|done|done]. by eapply segment_stable.
Qed.
End effects.
End LogFacts.
