(* ===== verification/ResponsesTheorems.v ===== *)
(** * What callers may rely on

    Conversations over any store that keeps its promise: what a read returns stays what every later
    read of that position returns, whatever other callers do in between; a stored turn reads back
    after its parent's turns; and every read of a history ends. *)

From S2P Require Import Prelude StateStore MemoryStore ResponsesState ResponsesLogs.
Import SessionFacts FailureFacts LogFacts.
Local Open Scope Z_scope.

(** ** Concurrent callers *)

(** A caller of an operation that takes no notice of its result. *)
Definition caller (py_format : json → string) (ttl : option Z) (p : prog unit) : Prop :=
  ∃ i A (q : prog A), operation py_format ttl i q ∧ p = (_ ← q; mret tt).

(** Runs the next store call of the caller the schedule names, at its clock reading. *)
Definition turn_of `{StateStore T} (c : list (prog unit) * T) (it : nat * Z) : list (prog unit) * T :=
  match c.1 !! it.1 with
  | Some p => let '(s, p) := resume p it.2 c.2 in (<[it.1 := p]> c.1, s)
  | None => c
  end.

Definition interleave `{StateStore T} (sched : list (nat * Z)) (c : list (prog unit) * T) : list (prog unit) * T :=
  foldl turn_of c sched.

(** The schedule's clock runs from [from] to [to]. *)
Fixpoint clocked (from : Z) (sched : list (nat * Z)) (to : Z) : Prop :=
  match sched with [] => from ≤ to | (_, now) :: sched => from ≤ now ∧ clocked now sched to end.

(** [t] is within the time to live from [now]. *)
Definition in_time (ttl : option Z) (now t : Z) : Prop := ∀ T, ttl = Some T → t < now + T.

(** ** Lemmas *)

Module ConversationFacts.
Section facts.
Context `{StateStoreAtomic T} (py_format : json → string) (ttl : option Z).
Context (ttl_positive : ∀ t, ttl = Some t → 0 < t).
Implicit Types (s : T).

(** From a store's state to a later one, at [now]. *)
Record keeps (now : Z) (s s' : T) : Prop := {
  keeps_valid : ss_valid s';
  keeps_tidy : tidy ttl now (cells s');
  keeps_grown : grown now (cells s) (cells s')
}.

Lemma keeps_refl now s : ss_valid s → tidy ttl now (cells s) → keeps now s s.
Proof. intros Hv Ht. split; [done..|]. by eapply grown_same. Qed.

Lemma keeps_trans now s1 s2 s3 : keeps now s1 s2 → keeps now s2 s3 → keeps now s1 s3.
Proof. intros [? ? ?] [? ? ?]. split; [done..|]. by eapply grown_trans. Qed.

Lemma op_keeps {B} (op : store_op B) now s :
  ss_valid s → tidy ttl now (cells s) → allowed ttl B op → keeps now s (ss_run op now s).1.
Proof.
  intros Hv Ht Hop. pose proof (ss_run_valid op now s Hv) as Hv'.
  destruct (ss_run op now s) as [s' [b|e]] eqn:E; cbn in *.
  - destruct (ss_run_ok op now s s' b Hv E) as [_ Hs].
    destruct (allowed_effect ttl op now (cells s) Hop ttl_positive Ht) as [Ht' Hg].
    split; [done| |].
    + eapply tidy_same; [|exact Ht']. done.
    + eapply grown_trans; [exact Hg|]. eapply grown_same; [|exact Ht']. done.
  - pose proof (ss_raise_same _ op now s s' e Hv E) as Hs. split; [done| |].
    + eapply tidy_same; [|exact Ht]. done.
    + eapply grown_same; [|exact Ht]. done.
Qed.

Lemma run_keeps {A} (p : prog A) now s :
  ss_valid s → tidy ttl now (cells s) → issues (allowed ttl) p → keeps now s (run p now s).1.
Proof.
  revert s. induction p as [a|e|B op k IH]; intros s Hv Ht Hp; [by apply keeps_refl..|].
  destruct Hp as [Hop Hk]. pose proof (op_keeps op now s Hv Ht Hop) as Ho. cbn.
  destruct (ss_run op now s) as [s1 [b|e]]; cbn in *; [|done].
  eapply keeps_trans; [exact Ho|]. apply IH; [apply Ho|apply Ho|done].
Qed.

Lemma run_keeps_valid {A} (p : prog A) now s : ss_valid s → ss_valid (run p now s).1.
Proof.
  revert s. induction p as [a|e|B op k IH]; intros s Hv; [done..|]. cbn.
  pose proof (ss_run_valid op now s Hv) as Hv1. destruct (ss_run op now s) as [s1 [b|e]]; cbn in *; auto.
Qed.

Lemma run_bind {A B} (p : prog A) (f : A → prog B) now s :
  run (p ≫= f) now s =
    let '(s, r) := run p now s in match r with Ok a => run (f a) now s | Err e => (s, Err e) end.
Proof.
  change (p ≫= f) with (prog_bind f p). revert s.
  induction p as [a|e|C op k IH]; intros s; [done..|]. cbn.
  by destruct (ss_run op now s) as [s1 [b|e]].
Qed.

Lemma run_bind_ok {A B} (p : prog A) (f : A → prog B) now s s' b :
  run (p ≫= f) now s = (s', Ok b) ↔ ∃ s1 a, run p now s = (s1, Ok a) ∧ run (f a) now s1 = (s', Ok b).
Proof.
  rewrite run_bind. destruct (run p now s) as [s1 [a|e]].
  - split; [eauto|]. by intros (? & ? & [= <- <-] & ?).
  - split; [done|]. by intros (? & ? & ? & ?).
Qed.

Lemma run_pure {A} (r : res A) now s : run (pure r) now s = (s, r).
Proof. by destruct r. Qed.

Lemma run_call {B} (op : store_op B) now s : run (call op) now s = ss_run op now s.
Proof. unfold call. cbn. by destruct (ss_run op now s) as [s1 [b|e]]. Qed.

Lemma run_bind_ok_pure {A B} (r : res A) (f : A → prog B) now s s' b :
  run (pure r ≫= f) now s = (s', Ok b) → ∃ s1 a, (s, r) = (s1, Ok a) ∧ run (f a) now s1 = (s', Ok b).
Proof. intros H2. apply run_bind_ok in H2 as (s1 & a & E & H2). rewrite run_pure in E. eauto. Qed.

(** *** Interleavings *)

Lemma resume_issues {A} P (p : prog A) now s : issues P p → issues P (resume p now s).2.
Proof. destruct p as [a|e|B op k]; [done..|]. intros [_ Hk]. cbn. destruct (ss_run op now s) as [s1 [b|e]]; cbn; auto. Qed.

Lemma resume_keeps {A} (p : prog A) now s :
  ss_valid s → tidy ttl now (cells s) → issues (allowed ttl) p → keeps now s (resume p now s).1.
Proof.
  intros Hv Ht. destruct p as [a|e|B op k]; [intros _; by apply keeps_refl..|]. intros [Hop _].
  pose proof (op_keeps op now s Hv Ht Hop). cbn. by destruct (ss_run op now s).
Qed.

Lemma caller_ok p : caller py_format ttl p → issues (allowed ttl) p.
Proof. intros (i & A & q & Hq & ->). apply issues_bind; [by eapply emitted_ok, operation_ok|done]. Qed.

Lemma clocked_le from sched to : clocked from sched to → from ≤ to.
Proof.
  revert from. induction sched as [|[j m] sched IH]; cbn; intros from Hc; [lia|].
  destruct Hc as [? Hc]. specialize (IH m Hc). lia.
Qed.

Lemma interleave_keeps sched from to ps s :
  ss_valid s → tidy ttl from (cells s) → Forall (issues (allowed ttl)) ps → clocked from sched to →
  Forall (issues (allowed ttl)) (interleave sched (ps, s)).1 ∧
  ∀ now, to ≤ now → keeps now s (interleave sched (ps, s)).2.
Proof.
  revert from ps s. induction sched as [|[i now] sched IH]; intros from ps s Hv Ht Hps Hc.
  { split; [done|]. cbn in Hc |- *. intros now Hnow. apply keeps_refl; [done|]. eapply tidy_mono; [|done]. lia. }
  destruct Hc as [Hfrom Hc]. unfold interleave. cbn [foldl]. unfold turn_of at 2 4. cbn [fst snd].
  assert (tidy ttl now (cells s)) as Htn by by eapply tidy_mono.
  destruct (ps !! i) as [p|] eqn:Ei; [|by apply (IH now)].
  assert (issues (allowed ttl) p) as Hp by (rewrite Forall_forall in Hps; by eapply Hps, list_elem_of_lookup_2).
  pose proof (resume_keeps p now s Hv Htn Hp) as [Hv1 Ht1 Hg1].
  pose proof (resume_issues _ p now s Hp) as Hp1. destruct (resume p now s) as [s1 p1]. cbn in *.
  destruct (IH now (<[i:=p1]> ps) s1 Hv1 Ht1 ltac:(by apply Forall_insert) Hc) as [Hps' Hk].
  split; [done|]. intros t Hto. destruct (Hk t Hto) as [Hv2 Ht2 Hg2]. split; [done..|].
  eapply grown_trans; [|exact Hg2]. eapply grown_mono; [|exact Hg1].
  pose proof (clocked_le _ _ _ Hc). lia.
Qed.

(** *** Reading a chain *)

(** A log that shows the same until its time to live is over. *)
Definition lasting (now : Z) (k : string) (m : content) : Prop :=
  ∀ t, now ≤ t → in_time ttl now t → live t (m k) = live now (m k).

Lemma refresh_lasting i l now s s' u :
  ss_valid s → tidy ttl now (cells s) → run (refresh ttl i l) now s = (s', Ok u) →
  lasting now (log_key i l) (cells s').
Proof.
  intros Hv Ht. unfold refresh. destruct ttl as [T'|] eqn:ET.
  - rewrite run_call. intros E t Hnow Hin. specialize (Hin T' ET).
    destruct (op_write_ok _ _ _ _ _ Hv E) as (_ & _ & [Hs]). rewrite !(Hs _ (log_key i l)) by lia.
    cbn [effect]. unfold Spec.expire. destruct (live now (cells s (log_key i l))) as [[v e]|] eqn:El.
    + unfold Spec.upd. rewrite decide_True by done. unfold live, expired. cbn.
      destruct (Z.leb_spec (now + T') t), (Z.leb_spec (now + T') now); done || lia.
    + rewrite El. by eapply live_mono.
  - intros [= <- _] t Hnow _. destruct (live now (cells s (log_key i l))) as [[v e]|] eqn:El.
    + destruct (Ht _ _ _ (log_is_log i l) El) as [Hb _]. cbn in Hb. subst e.
      apply live_Some in El as ->. done.
    + by eapply live_mono.
Qed.

Lemma read_lasting now t m i l d :
  lasting now (log_key i l) m → now ≤ t → in_time ttl now t → read_at t m i l d = read_at now m i l d.
Proof. intros Hl ? ?. unfold read_at, Spec.read_range, Spec.log. by rewrite Hl. Qed.

(** What [entries_from] returns is the chain, and stays it for the time to live. *)
Lemma entries_sound fuel i l d acc now s s' es :
  ss_valid s → tidy ttl now (cells s) → lasting now (log_key i l) (cells s) →
  run (entries_from ttl fuel i l d acc) now s = (s', Ok (Some es)) →
  ∃ es0, es = es0 ++ acc ∧ ∀ t, now ≤ t → in_time ttl now t → chain t (cells s') i l d es0.
Proof.
  revert l d acc s. induction fuel as [|fuel IH]; intros l d acc s Hv Ht Hl; [done|].
  cbn [entries_from]. intros (s1 & raw & E1 & E)%run_bind_ok. rewrite run_call in E1.
  pose proof (op_keeps (OReadRange (log_key i l) 1 (Some d)) now s Hv Ht I) as [Hv1 Ht1 Hg1]. rewrite E1 in *. cbn in *.
  destruct (op_write_ok _ _ _ _ _ Hv E1) as (_ & Hraw & Hs1). cbn [effect result] in *.
  assert (∀ t, now ≤ t → in_time ttl now t → read_at t (cells s1) i l d = Ok raw) as Hread.
  { intros t ? ?. rewrite <-Hraw. unfold read_at.
    rewrite (Spec_read_range_proper _ _ _ t _ _ (same_from_mono _ t _ _ ltac:(done) Hs1)).
    by apply read_lasting. }
  destruct (segment raw d) as [[seg [p|]]|] eqn:Eseg; [| |done].
  - apply run_bind_ok in E as (s2 & [] & E2 & E3).
    pose proof (run_keeps (refresh ttl i (pos_log p)) now s1 Hv1 Ht1 ltac:(eapply emitted_ok, refresh_ok)) as [Hv2 Ht2 Hg2].
    pose proof (refresh_lasting _ _ _ _ _ _ Hv1 Ht1 E2) as Hl2. rewrite E2 in *. cbn in *.
    destruct (IH _ _ _ s2 Hv2 Ht2 Hl2 E3) as (es0 & -> & Hc).
    pose proof (run_keeps (entries_from ttl fuel i (pos_log p) (pos_depth p) (seg ++ acc)) now s2 Hv2 Ht2
      ltac:(eapply emitted_ok, entries_ok)) as [Hv3 Ht3 Hg3]. rewrite E3 in *. cbn in *.
    exists (es0 ++ seg). split; [by rewrite <-app_assoc|]. intros t Hnow Hin.
    eapply chain_base; [|done|by apply Hc]. eapply (segment_stable ttl t (cells s1)); [by eapply tidy_mono| |by apply Hread|done].
    eapply grown_mono; [done|]. by eapply grown_trans.
  - injection E as <- <-. exists seg. split; [done|]. intros t ? ?. eapply chain_first; [by apply Hread|done].
Qed.

(** A chain is what [entries_from] returns. *)
Lemma entries_complete fuel i l d es acc now s s' r :
  ss_valid s → tidy ttl now (cells s) → chain now (cells s) i l d es →
  run (entries_from ttl fuel i l d acc) now s = (s', Ok r) → r = Some (es ++ acc).
Proof.
  revert l d es acc s. induction fuel as [|fuel IH]; intros l d es acc s Hv Ht Hc; [done|].
  cbn [entries_from]. intros (s1 & raw & E1 & E)%run_bind_ok. rewrite run_call in E1.
  pose proof (op_keeps (OReadRange (log_key i l) 1 (Some d)) now s Hv Ht I) as [Hv1 Ht1 Hg1]. rewrite E1 in *. cbn in *.
  destruct (op_write_ok _ _ _ _ _ Hv E1) as (_ & Hraw & _). cbn [effect result] in *.
  inversion Hc as [l' d' raw' es' Hr Hseg|l' d' raw' es' p es0 Hr Hseg Hc']; subst;
    unfold read_at in Hr; rewrite Hr in Hraw; injection Hraw as ->; rewrite Hseg in E.
  - by injection E as <- <-.
  - apply run_bind_ok in E as (s2 & [] & E2 & E3).
    pose proof (run_keeps (refresh ttl i (pos_log p)) now s1 Hv1 Ht1 ltac:(eapply emitted_ok, refresh_ok)) as [Hv2 Ht2 Hg2].
    rewrite E2 in *. cbn in *. rewrite <-app_assoc. eapply IH; [done|done| |done].
    eapply (chain_stable ttl); [exact Ht1|exact Hg2|]. by eapply (chain_stable ttl); [exact Ht|exact Hg1|].
Qed.

(** What [history] returns is the chain at its position, and stays it for the time to live. *)
Lemma history_sound i record now s s' its pos ls :
  ss_valid s → tidy ttl now (cells s) →
  run (history py_format ttl i record) now s = (s', Ok (Some (its, pos, ls))) →
  ss_valid s' ∧ tidy ttl now (cells s') ∧ ∃ es, items es = its ∧
    ∀ t, now ≤ t → in_time ttl now t → chain t (cells s') i (pos_log pos) (pos_depth pos) es.
Proof.
  intros Hv Ht. unfold history. intros (? & log & [= <- El] & Hr)%run_bind_ok_pure.
  apply run_bind_ok in Hr as (s1 & [] & E1 & Hr).
  pose proof (run_keeps (refresh ttl i (fmt py_format log)) now s Hv Ht ltac:(eapply emitted_ok, refresh_ok)) as [Hv1 Ht1 _].
  pose proof (refresh_lasting _ _ _ _ _ _ Hv Ht E1) as Hl1. rewrite E1 in *. cbn [fst] in *.
  apply run_bind_ok_pure in Hr as (? & depth & [= <- Ed] & Hr).
  apply run_bind_ok_pure in Hr as (? & n & [= <- En] & Hr).
  apply run_bind_ok in Hr as (s2 & oes & E2 & Hr). destruct oes as [es|]; [|done].
  apply run_bind_ok in Hr as (s3 & ls' & E3 & Hr). injection Hr as <- <- <- <-.
  destruct (entries_sound _ _ _ _ _ _ _ _ _ Hv1 Ht1 Hl1 E2) as (es0 & -> & Hc).
  pose proof (run_keeps (entries ttl i (fmt py_format log) n) now s1 Hv1 Ht1 ltac:(eapply emitted_ok, entries_ok)) as [Hv2 Ht2 _].
  rewrite E2 in *. cbn [fst] in *.
  pose proof (run_keeps (mcp_listings py_format i record (es0 ++ [])) now s2 Hv2 Ht2) as Hk.
  rewrite E3 in Hk. cbn [fst] in Hk. destruct Hk as [Hv3 Ht3 Hg3].
  { unfold mcp_listings. apply issues_bind; [eapply emitted_ok, mcp_ok|done]. }
  split_and!; [done..|]. exists es0. rewrite app_nil_r. split; [done|]. cbn [pos_log pos_depth]. intros t Hnow Hin.
  eapply (chain_stable ttl); [|eapply grown_mono; [exact Hnow|exact Hg3]|by apply Hc]. by eapply tidy_mono.
Qed.

(** A chain is what [history] returns. *)
Lemma history_complete i record log depth es now s s' r :
  ss_valid s → tidy ttl now (cells s) → chain now (cells s) i log depth es →
  Dict.get "log" record = Some (JStr log) → Dict.get "depth" record = Some (JInt depth) →
  run (history py_format ttl i record) now s = (s', Ok r) →
  ∃ ls, r = Some (items es, position_at log depth, ls).
Proof.
  intros Hv Ht Hc Hlog Hdepth. unfold history, item. rewrite Hlog, Hdepth. cbn [pure fmt].
  change (Done ?a ≫= ?f) with (f a). cbn beta.
  intros (s1 & [] & E1 & Hr)%run_bind_ok. change (fmt py_format (JStr log)) with log in *.
  pose proof (run_keeps (refresh ttl i log) now s Hv Ht ltac:(eapply emitted_ok, refresh_ok)) as [Hv1 Ht1 Hg1].
  rewrite E1 in *. cbn [fst] in *. change (Done ?a ≫= ?f) with (f a) in Hr. cbn beta in Hr.
  change (pure (bound (JInt depth)) ≫= ?f) with (f depth) in Hr. cbn beta in Hr.
  apply run_bind_ok in Hr as (s2 & oes & E2 & Hr).
  apply (entries_complete _ _ _ _ es) in E2 as ->; [|done|done|eapply (chain_stable ttl); [exact Ht|exact Hg1|exact Hc]]. rewrite app_nil_r in Hr.
  apply run_bind_ok in Hr as (s3 & ls & E3 & Hr). injection Hr as _ <-. by exists ls.
Qed.

(** *** Storing a turn *)

Lemma live_set now t v : in_time ttl now t → live t (Some (v, expires_at now ttl)) = Some (v, expires_at now ttl).
Proof.
  intros Hin. unfold live, expired, expires_at. cbn. destruct ttl as [T'|]; cbn; [|done].
  specialize (Hin T' eq_refl). by destruct (Z.leb_spec (now + T') t); [lia|].
Qed.

(** The content after an append of a turn. *)
Definition after_append i rid x log depth (entry : dict json) (es : list (Z * json)) now (m : content) : content :=
  Spec.set (key i rid) (turn_record x log depth) ttl now
    (Spec.set (log_key i log) (JList (log_of (es ++ [(depth, JObj entry)]))) ttl now m).

Lemma append_turn_run i rid x log depth entry es now s s' b :
  ss_valid s → Spec.log (log_key i log) now (cells s) = log_of es → in_order es → follows_base depth (JObj entry) →
  run (append_turn ttl i rid x log depth entry false) now s = (s', Ok b) →
  if b then in_order (es ++ [(depth, JObj entry)]) ∧ same_from now (cells s') (after_append i rid x log depth entry es now (cells s))
  else (es ≠ [] ∧ same_from now (cells s') (cells s)).
Proof.
  intros Hv Hl Ho Hf. unfold append_turn. rewrite run_call. intros E.
  destruct (op_write_ok _ _ _ _ _ Hv E) as (_ & (r & Hr & ->) & Hs). cbn [effect] in Hs.
  unfold Spec.append_and_set in Hr, Hs. cbn [andb] in Hr, Hs.
  destruct (append_log ttl now (cells s) (log_key i log) depth (JObj entry) es Hl Ho Hf) as [Ha|[Ha Ho']];
    rewrite Ha in Hr, Hs; injection Hr as <-.
  - rewrite bool_decide_false by (by intros []). split; [|done]. intros ->.
    unfold Spec.append in Ha. by rewrite Hl in Ha.
  - by rewrite bool_decide_true.
Qed.

Lemma after_append_live i rid x log depth entry es now t m :
  now ≤ t → in_time ttl now t →
  Spec.log (log_key i log) t (after_append i rid x log depth entry es now m) = log_of (es ++ [(depth, JObj entry)]) ∧
  Spec.get (key i rid) t (after_append i rid x log depth entry es now m) = Some (turn_record x log depth).
Proof.
  intros Hnow Hin. unfold after_append, Spec.log, Spec.get, Spec.set, Spec.upd.
  rewrite (decide_False (P := log_key i log = key i rid)); [|intros E; by apply (key_not_log i rid); rewrite <-E].
  by rewrite !decide_True, !live_set.
Qed.

Lemma filter_below (n : Z) (es : list (Z * json)) : filter (λ pv, within n (Some (n - 1)) pv.1 = true) es = [].
Proof. induction es as [|[q w] es IH]; [done|]. rewrite filter_cons, decide_False; [done|]. unfold within. cbn. lia. Qed.

(** The entries read back after an append at [depth]: the earlier ones and the new one. *)
Lemma read_after_append lo depth es v :
  in_order (es ++ [(depth, v)]) → lo ≤ depth →
  Spec.select lo (Some depth) (log_of (es ++ [(depth, v)])) =
    Ok ((filter (λ pv, within lo (Some (depth - 1)) pv.1 = true) es).*2 ++ [v]).
Proof.
  intros [Hs _] Hlo. rewrite select_log_of, filter_app, fmap_app. f_equal. f_equal.
  - f_equal. rewrite fmap_app in Hs. assert (∀ q w, (q, w) ∈ es → q < depth) as Hlt.
    { intros q w Hq. eapply (StronglySorted_app_1_elem_of Z.lt es.*1 [depth]); [exact Hs| |by left].
      apply list_elem_of_fmap. by exists (q, w). }
    clear -Hlt. induction es as [|[q w] es IH]; [done|].
    assert (q < depth) by (eapply Hlt; by left). rewrite !filter_cons, IH by (intros; eapply Hlt; by right).
    unfold within; cbn. repeat case_decide; done || lia.
  - rewrite filter_cons, decide_True by (unfold within; cbn; lia). done.
Qed.

Lemma segment_snoc raw d seg o v e :
  segment raw d = Some (seg, o) → entry_of v = Some e → segment (raw ++ [v]) (d + 1) = Some (seg ++ [e], o).
Proof.
  unfold segment. intros (l & Hl & H2)%bind_Some Hv.
  assert (mapM entry_of (raw ++ [v]) = Some (l ++ [e])) as ->.
  { apply mapM_Some, Forall2_app; [by apply mapM_Some|]. by constructor. }
  cbn -[position_of length]. destruct l as [|[[d0 i0] o0] l]; [done|]. cbn [app].
  assert (Z.of_nat (length ((d0, i0, o0) :: l ++ [e])) = Z.of_nat (length ((d0, i0, o0) :: l)) + 1) as Hlen
    by (cbn [length]; rewrite length_app; cbn [length]; lia).
  destruct (default JNull (Dict.get "base" d0)) eqn:Eb; [|apply bind_Some in H2 as (p & Hp & H2); rewrite Hp; cbn -[length]..];
    (case_guard as Hd; [|done]); cbn in H2; injection H2 as <- <-; rewrite Hlen;
    (rewrite option_guard_True by lia); done.
Qed.

(** The entry of a turn as it is read back. *)
Lemma turn_entry_of rid x input outs :
  py_or (default JNull (Dict.get "output" x)) (JList []) = JList outs →
  entry_of (JObj (turn_entry rid x input)) = Some (turn_entry rid x input, input, outs).
Proof. intros Ho. unfold turn_entry. by rewrite Ho. Qed.

Lemma based_entry_of rid x input outs b :
  py_or (default JNull (Dict.get "output" x)) (JList []) = JList outs →
  let ed := Dict.set "base" b (turn_entry rid x input) in entry_of (JObj ed) = Some (ed, input, outs).
Proof. intros Ho ed. subst ed. unfold turn_entry. by rewrite Ho. Qed.

(** A log shown later is shown now. *)
Lemma log_shown now t k m : now ≤ t → Spec.log k t m ≠ [] → Spec.log k now m = Spec.log k t m.
Proof.
  unfold Spec.log. intros Ht Hne. destruct (live t (m k)) as [c|] eqn:E; [|done].
  by rewrite (live_later _ _ _ _ Ht E).
Qed.

Lemma chain_read t m i l d es :
  chain t m i l d es →
  ∃ raw seg o es0, read_at t m i l d = Ok raw ∧ segment raw d = Some (seg, o) ∧ es = es0 ++ seg ∧ raw ≠ [] ∧
    match o with Some p => chain t m i (pos_log p) (pos_depth p) es0 | None => es0 = [] end.
Proof.
  inversion 1 as [? ? raw seg Hr Hs|? ? raw seg p es0 Hr Hs Hc]; subst.
  - exists raw, es, None, []. split_and!; [done..| |done].
    by apply segment_Some in Hs as (_ & ? & ? & -> & _).
  - exists raw, seg, (Some p), es0. split_and!; [done..| |done].
    by apply segment_Some in Hs as (_ & ? & ? & -> & _).
Qed.

(** A turn appended after its parent's. *)
Lemma chain_appended now t m m' i l d es esl v e :
  tidy ttl now m → now ≤ t → grown t m m' → chain t m i l d es → entry_of v = Some e →
  Spec.log (log_key i l) now m = log_of esl → in_order (esl ++ [(d + 1, v)]) →
  Spec.log (log_key i l) t m' = log_of (esl ++ [(d + 1, v)]) → chain t m' i l (d + 1) (es ++ [e]).
Proof.
  intros Hm Ht Hg (raw & seg & o & es0 & Hr & Hseg & -> & Hne & Ho)%chain_read Hv Hl Hio Hl'.
  unfold read_at, Spec.read_range in Hr.
  assert (Spec.log (log_key i l) t m = log_of esl) as Hlt.
  { rewrite <-Hl. symmetry. apply log_shown; [done|]. intros E. rewrite E in Hr. by injection Hr as <-. }
  rewrite Hlt, select_log_of in Hr. injection Hr as Hr.
  assert (1 ≤ d) as Hd.
  { destruct (filter _ esl) as [|[q w] ?] eqn:Ef; [by rewrite <-Hr in Hne|].
    assert ((q, w) ∈ (q, w) :: l0) as Hin by by left. rewrite <-Ef in Hin.
    apply list_elem_of_filter in Hin as [Hw _]. unfold within in Hw. cbn in Hw. lia. }
  assert (read_at t m' i l (d + 1) = Ok (raw ++ [v])) as Hr'.
  { unfold read_at, Spec.read_range. rewrite Hl', read_after_append by (done || lia).
    replace (d + 1 - 1) with d by lia. by rewrite <-Hr. }
  rewrite <-app_assoc. destruct o as [p|].
  - eapply chain_base; [exact Hr'|by apply segment_snoc|]. eapply (chain_stable ttl); [|exact Hg|exact Ho]. by eapply tidy_mono.
  - subst es0. eapply chain_first; [exact Hr'|by apply segment_snoc].
Qed.

Lemma segment_one ed ei eo p d :
  entry_of (JObj ed) = Some (ed, ei, eo) → base_of (JObj ed) = Some p → d = pos_depth p + 1 →
  segment [JObj ed] d = Some ([(ed, ei, eo)], Some p).
Proof.
  intros He Hb ->. unfold segment. rewrite (mapM_Some_2 entry_of [JObj ed] [(ed, ei, eo)]) by by constructor.
  cbn -[position_of length]. unfold base_of in Hb.
  destruct (default JNull (Dict.get "base" ed)) eqn:Eb; [done|..];
    rewrite Hb; cbn -[length]; (rewrite option_guard_True; [done|cbn; lia]).
Qed.

(** A turn that starts a log of its own. *)
Lemma chain_forked t m i l p es v e :
  chain t m i (pos_log p) (pos_depth p) es → 0 ≤ pos_depth p →
  entry_of v = Some e → base_of v = Some p → v = JObj e.1.1 →
  Spec.log (log_key i l) t m = log_of [(pos_depth p + 1, v)] → chain t m i l (pos_depth p + 1) (es ++ [e]).
Proof.
  intros Hc Hp Hv Hb -> Hl. eapply chain_base; [| |exact Hc].
  - unfold read_at, Spec.read_range. rewrite Hl, select_log_of, filter_cons, decide_True; [done|].
    unfold within. cbn. lia.
  - destruct e as [[ed ei] eo]. cbn [fst] in *. by apply segment_one.
Qed.

(** The parent's turns: readable, for the time to live, at the position a turn continues. *)
Definition continues now i s (parent : option Position) (es : list (dict json * list json * list json)) : Prop :=
  match parent with
  | None => es = []
  | Some p => consistent p ∧ 0 ≤ pos_depth p ∧
      ∀ t, now ≤ t → in_time ttl now t → chain t (cells s) i (pos_log p) (pos_depth p) es
  end.

(** No turn of this response is stored yet. *)
Definition unstored now i rid s (parent : option Position) : Prop :=
  Spec.log (log_key i rid) now (cells s) = [] ∧
  ∀ p raw, parent = Some p →
    Spec.read_range (log_key i (pos_log p)) (pos_depth p + 1) (Some (pos_depth p + 1)) now (cells s) = Ok raw →
    is_this_turn rid raw = false.

(** What a stored turn shows: its record, its entry, and its turns after the parent's. *)
Record shown t i rid x s (log : string) (depth : Z) es (e : dict json * list json * list json) : Prop := {
  shown_record : Spec.get (key i rid) t (cells s) = Some (turn_record x log depth);
  shown_entry : Spec.read_range (log_key i log) depth (Some depth) t (cells s) = Ok [JObj e.1.1];
  shown_chain : chain t (cells s) i log depth (es ++ [e])
}.

(** A turn appended to a log is shown, once its chain is. *)
Lemma appended_shown i rid x log depth entry esl now t s s' es e :
  now ≤ t → in_time ttl now t → 0 < depth → e.1.1 = entry → in_order (esl ++ [(depth, JObj entry)]) →
  same_from now (cells s') (after_append i rid x log depth entry esl now (cells s)) →
  (Spec.log (log_key i log) t (cells s') = log_of (esl ++ [(depth, JObj entry)]) →
   chain t (cells s') i log depth (es ++ [e])) →
  shown t i rid x s' log depth es e.
Proof.
  intros Hnow Hin Hd <- Ho Hs Hc. destruct (after_append_live i rid x log depth e.1.1 esl now t (cells s) Hnow Hin) as [Hl Hg].
  apply (same_from_mono _ t) in Hs; [|done].
  assert (Spec.log (log_key i log) t (cells s') = log_of (esl ++ [(depth, JObj e.1.1)])) as Hl'
    by by rewrite (Spec_log_proper _ t _ _ Hs).
  split; [by rewrite (Spec_get_proper _ t _ _ Hs)| |by apply Hc].
  unfold Spec.read_range. rewrite Hl', read_after_append by (done || lia). f_equal.
  by rewrite filter_below.
Qed.

Lemma turn_stored i rid x parent input outs es now s s' :
  ss_valid s → tidy ttl now (cells s) → continues now i s parent es → unstored now i rid s parent →
  py_or (default JNull (Dict.get "output" x)) (JList []) = JList outs →
  run (store_turn ttl i rid x parent input false) now s = (s', Ok tt) →
  ss_valid s' ∧ tidy ttl now (cells s') ∧ ∃ log depth ed, entry_of (JObj ed) = Some (ed, input, outs) ∧
    ∀ t, now ≤ t → in_time ttl now t → shown t i rid x s' log depth es (ed, input, outs).
Proof.
  intros Hv Ht Hp [Hown Hnew] Ho Hr.
  pose proof (run_keeps (store_turn ttl i rid x parent input false) now s Hv Ht) as Hk.
  rewrite Hr in Hk. cbn [fst] in Hk. destruct Hk as [Hv' Ht' Hg'].
  { eapply emitted_ok, store_turn_ok. intros q ->. apply Hp. }
  split_and!; [done..|]. unfold store_turn in Hr. destruct parent as [p|].
  - destruct Hp as (Hcon & Hpos & Hc).
    destruct (log_tidy ttl now (cells s) (log_key i (pos_log p)) Ht (log_is_log _ _)) as (esl & Hl & Hol & _).
    apply run_bind_ok in Hr as (s1 & b & E1 & Hr).
    pose proof (append_turn_run _ _ _ _ _ _ _ _ _ _ _ Hv Hl Hol (turn_entry_base rid x input _) E1) as Hb.
    pose proof (run_keeps (append_turn ttl i rid x (pos_log p) (pos_depth p + 1) (turn_entry rid x input) false) now s Hv Ht
      ltac:(eapply emitted_ok, append_turn_ok, turn_entry_base)) as [Hv1 Ht1 Hg1].
    rewrite E1 in *. cbn [fst] in *. destruct b.
    + injection Hr as <-. destruct Hb as [Hio Hs].
      exists (pos_log p), (pos_depth p + 1), (turn_entry rid x input). split; [by apply turn_entry_of|].
      intros t Hnow Hin. eapply appended_shown; [done|done|lia|done|done|exact Hs|]. intros Hl'.
      eapply (chain_appended now t (cells s)); [done|done|by eapply grown_mono|by apply Hc|by apply turn_entry_of|done..].
    + destruct Hb as [_ Hs].
      apply run_bind_ok in Hr as (s2 & taken & E2 & Hr). rewrite run_call in E2.
      destruct (op_write_ok _ _ _ _ _ Hv1 E2) as (Hv2 & Htaken & Hs2). cbn [effect result] in *.
      rewrite (Hnew p taken eq_refl) in Hr by (by rewrite <-(Spec_read_range_proper _ _ _ now _ _ Hs)).
      apply run_bind_ok in Hr as (s3 & b & E3 & Hr). injection Hr as ->.
      assert (Spec.log (log_key i rid) now (cells s2) = log_of []) as Hown2
        by by rewrite (Spec_log_proper _ now _ _ Hs2), (Spec_log_proper _ now _ _ Hs).
      pose proof (append_turn_run _ _ _ _ _ _ _ _ _ _ _ Hv2 Hown2 in_order_nil (turn_entry_based rid x input p Hcon) E3) as Hb.
      destruct b; [|by destruct Hb]. destruct Hb as [Hio Hs3].
      exists rid, (pos_depth p + 1), (Dict.set "base" (JObj (raw_position p)) (turn_entry rid x input)).
      split; [by apply based_entry_of|]. intros t Hnow Hin.
      eapply appended_shown; [done|done|lia|done|done|exact Hs3|]. intros Hl'.
      eapply chain_forked; [|done|by apply based_entry_of| |done|exact Hl'].
      * eapply (chain_stable ttl); [|eapply grown_mono; [exact Hnow|exact Hg']|by apply Hc]. by eapply tidy_mono.
      * unfold base_of. by rewrite Dict.get_set_eq.
  - cbn in Hp. subst es. apply run_bind_ok in Hr as (s1 & b & E1 & Hr). injection Hr as ->.
    pose proof (append_turn_run _ _ _ _ _ _ [] _ _ _ _ Hv Hown in_order_nil (turn_entry_base rid x input _) E1) as Hb.
    destruct b; [|by destruct Hb]. destruct Hb as [Hio Hs].
    exists rid, 1, (turn_entry rid x input). split; [by apply turn_entry_of|]. intros t Hnow Hin.
    eapply appended_shown; [done|done|lia|done|done|exact Hs|]. intros Hl'. cbn [app].
    eapply chain_first; [unfold read_at, Spec.read_range; rewrite Hl'; reflexivity|].
    unfold segment. rewrite (mapM_Some_2 _ _ [(turn_entry rid x input, input, outs)]); [done|].
    constructor; [by apply turn_entry_of|done].
Qed.

Lemma run_keeps_same {A} (p : prog A) now s s' r :
  ss_valid s → tidy ttl now (cells s) → issues (allowed ttl) p → run p now s = (s', r) → keeps now s s'.
Proof. intros Hv Ht Hp E. pose proof (run_keeps p now s Hv Ht Hp) as Hk. by rewrite E in Hk. Qed.

(** Reading a record that is there. *)
Lemma read_record_shown i rid x log depth now s s' r :
  ss_valid s → Spec.get (key i rid) now (cells s) = Some (turn_record x log depth) →
  run (read_record i rid) now s = (s', Ok r) →
  ss_valid s' ∧ same_from now (cells s') (cells s) ∧ JObj (default [] r) = turn_record x log depth ∧ is_Some r.
Proof.
  intros Hv Hg. unfold read_record. intros (s1 & rec & E1 & Hr)%run_bind_ok. rewrite run_call in E1.
  apply op_get_ok in E1 as (Hv1 & -> & Hs); [|done]. injection Hr as <- <-.
  rewrite Hg. unfold turn_record, turn_fields. cbn -[well_formed]. change (well_formed _) with true. cbn. eauto.
Qed.

Lemma read_shown i rid x log depth es e outs now s s' r :
  ss_valid s → shown now i rid x s log depth es e → entry_of (JObj e.1.1) = Some (e.1.1, e.1.2, outs) →
  run (read py_format i rid true) now s = (s', Ok r) →
  r = Some (Dict.set "response" (JObj (Dict.set "output" (JList outs) (Dict.set "output" (JList []) x)))
    (turn_fields x log depth)).
Proof.
  intros Hv [Hg He _] Hout. unfold read. intros (s1 & rec & E1 & Hr)%run_bind_ok.
  destruct (read_record_shown _ _ _ _ _ _ _ _ _ Hv Hg E1) as (Hv1 & Hs1 & Hrec & [d ->]). cbn in Hrec.
  injection Hrec as ->. cbn [negb orb] in Hr.
  apply run_bind_ok_pure in Hr as (? & ? & [= <- <-] & Hr). apply run_bind_ok_pure in Hr as (? & ? & [= <- <-] & Hr).
  apply run_bind_ok_pure in Hr as (? & ? & [= <- <-] & Hr). apply run_bind_ok in Hr as (s2 & raw & E2 & Hr).
  rewrite run_call in E2. apply op_write_ok in E2 as (_ & Hraw & _); [|done]. cbn [result] in Hraw.
  cbn [fmt] in Hraw. rewrite (Spec_read_range_proper _ _ _ now _ _ Hs1), He in Hraw. injection Hraw as <-.
  rewrite Hout in Hr. injection Hr as _ <-.
  unfold entry_of in Hout. destruct (Dict.get "input" e.1.1) as [[]|]; try done.
  destruct (Dict.get "output" e.1.1) as [[]|]; try done. by injection Hout as _ ->.
Qed.

End facts.

(** *** The end of a walk *)

Section walk.
Context `{StateStoreOk T} (ttl : option Z).
Implicit Types (s : T).

Lemma select_within lo hi l v vs : Spec.select lo (Some hi) l = Ok (v :: vs) → lo ≤ hi.
Proof.
  induction l as [|e l IH] in v, vs |- *; [done|]. cbn [Spec.select].
  destruct (py_unpack2 e) as [[p x]|]; [|done]. cbn [mbind res_bind fst snd].
  destruct (Spec.in_range lo (Some hi) p) as [b|] eqn:Eb; [|done]. cbn [mbind res_bind].
  destruct (Spec.select lo (Some hi) l) as [vs'|]; [|done]. cbn [mbind res_bind].
  destruct b; [|intros [= ->]; by eapply IH]. intros _. revert Eb.
  unfold Spec.in_range, py_ge, py_le, py_cmp, flip. destruct p as [|b|z|q| | |]; try done; cbn [mbind res_bind].
  - destruct (Z.leb_spec lo (Z.b2z b)); [|done]. intros [= ?%Z.leb_le]. lia.
  - destruct (Z.leb_spec lo z); [|done]. intros [= ?%Z.leb_le]. lia.
  - destruct (Qle_bool (inject_Z lo) q) eqn:E1; [|done]. intros [= E2].
    apply QArith_base.Qle_bool_iff in E1, E2. pose proof (QArith_base.Qle_trans _ _ _ E1 E2) as E3.
    unfold QArith_base.Qle in E3. cbn in E3. lia.
Qed.

(** Enough fuel for the depth: every other end is the store's. *)
Lemma entries_from_end fuel i l d acc now s :
  ss_valid s → (Z.to_nat d < fuel)%nat →
  (∃ r, (run (entries_from ttl fuel i l d acc) now s).2 = Ok r) ∨
  ∃ B (op : store_op B) s1 e, ss_valid s1 ∧ (ss_run op now s1).2 = Err e ∧
    (run (entries_from ttl fuel i l d acc) now s).2 = Err e.
Proof.
  revert l d acc s. induction fuel as [|fuel IH]; intros l d acc s Hv Hf; [lia|].
  cbn [entries_from]. rewrite run_bind, run_call.
  pose proof (ss_run_valid (OReadRange (log_key i l) 1 (Some d)) now s Hv) as Hv1.
  destruct (ss_run (OReadRange (log_key i l) 1 (Some d)) now s) as [s1 [raw|e]] eqn:E1;
    [|right; eexists _, _, s, e; split_and!; [done| |done]; by rewrite E1].
  cbn [fst] in Hv1. destruct (op_write_ok _ _ _ _ _ Hv E1) as (_ & Hraw & _). cbn [result] in Hraw.
  destruct (segment raw d) as [[seg [p|]]|] eqn:Eseg; [|left; eexists; done..].
  apply segment_Some in Eseg as (_ & v & rest & -> & _ & Hlen). cbn in Hlen.
  apply select_within in Hraw. rewrite run_bind.
  pose proof (run_keeps_valid (refresh ttl i (pos_log p)) now s1 Hv1) as Hv2.
  destruct (run (refresh ttl i (pos_log p)) now s1) as [s2 [[]|e]] eqn:E2.
  - apply IH; [done|]. lia.
  - right. unfold refresh in E2. destruct ttl as [T'|]; [|done]. rewrite run_call in E2.
    eexists _, _, s1, e. split_and!; [done| |done]. by rewrite E2.
Qed.
End walk.
End ConversationFacts.

(** ** Theorems *)

Module ConversationProperties.
Import ConversationFacts.

(** C17: What a conversation's history returned stays its history: from a fresh store, whatever any
    number of callers do with the operations of the module, their store calls interleaved in any
    way before and after, every later read of the position that returns within the time to live
    gives the same turns. Turns that continue it, forks, deletions and background runs never change
    or hide them. *)
Theorem history_stays `{StateStoreAtomic T} py_format ttl threads (s0 s1' s2' : T) t0 before t after t' i record its pos ls r :
  (∀ d, ttl = Some d → 0 < d) → ss_valid s0 → (∀ k, live t0 (cells s0 k) = None) →
  Forall (caller py_format ttl) threads → clocked t0 before t → clocked t after t' → in_time ttl t t' →
  let c1 := interleave before (threads, s0) in
  run (history py_format ttl i record) t c1.2 = (s1', Ok (Some (its, pos, ls))) →
  let c2 := interleave after (c1.1, s1') in
  run (entries ttl i (pos_log pos) (pos_depth pos)) t' c2.2 = (s2', Ok r) →
  ∃ es, r = Some es ∧ items es = its.
Proof.
  intros Httl Hv Hempty Hps Hb Ha Hin c1 Hr1 c2 Hr2.
  assert (Forall (issues (allowed ttl)) threads) as Hok by (eapply Forall_impl; [done|]; intros p; apply caller_ok).
  destruct (interleave_keeps ttl Httl before t0 t threads s0 Hv (tidy_empty ttl t0 _ Hempty) Hok Hb) as [Hps1 Hk1].
  destruct (Hk1 t (Z.le_refl t)) as [Hv1 Ht1 _]. fold c1 in Hps1, Hv1, Ht1.
  destruct (history_sound py_format ttl Httl _ _ _ _ _ _ _ _ Hv1 Ht1 Hr1) as (Hvf & Htf & es & Hes & Hc).
  destruct (interleave_keeps ttl Httl after t t' c1.1 s1' Hvf Htf Hps1 Ha) as [_ Hk2].
  destruct (Hk2 t' (Z.le_refl t')) as [Hv2 Ht2 Hg2]. fold c2 in Hv2, Ht2, Hg2.
  exists es. split; [|done]. rewrite <-(app_nil_r es).
  eapply (entries_complete ttl Httl); [exact Hv2|exact Ht2| |exact Hr2].
  pose proof (clocked_le _ _ _ Ha). eapply (chain_stable ttl); [|exact Hg2|by apply Hc]. by eapply tidy_mono.
Qed.

(** A first turn; then two turns that both continue it, and its record's deletion, interleaved. *)
Definition no_format : json → string := λ _, "".
Definition answered (text : string) : dict json := [("id", JStr text); ("output", JList [JObj [("type", JStr "message"); ("content", JStr text)]])]%string.
Definition example_uuids : nat → string := λ _, "0".
Definition example_input (text : string) : list json := [JObj [("type", JStr "message"); ("content", JStr text)]]%string.
Definition example_threads : list (prog unit) :=
  [(_ ← write (Some DEFAULT_TTL) example_uuids "ann" "r1" (answered "a1") None (example_input "hi"); mret tt);
   (_ ← write (Some DEFAULT_TTL) example_uuids "ann" "r2" (answered "a2") (Some (position_at "r1" 1)) (example_input "more"); mret tt);
   (_ ← write (Some DEFAULT_TTL) example_uuids "ann" "r3" (answered "a3") (Some (position_at "r1" 1)) (example_input "again"); mret tt);
   (_ ← delete "ann" "r1"; mret tt)]%string.
Definition example_before : list (nat * Z) := [(0%nat, 1)].
Definition example_after : list (nat * Z) := [(1%nat, 3); (2%nat, 3); (3%nat, 4); (2%nat, 5); (2%nat, 6)].
Definition example_record : dict json := turn_fields (answered "a1") "r1" 1.

Lemma example_callers : Forall (caller no_format (Some DEFAULT_TTL)) example_threads.
Proof. repeat (constructor; [eexists _, _, _; split; [|reflexivity]; constructor; by intros b ?; simplify_eq|]). constructor. Qed.

Lemma history_stays_witness :
  let c1 := interleave example_before (example_threads, Actor.init 0 10) in
  let h := run (history no_format (Some DEFAULT_TTL) "ann" example_record) 2 c1.2 in
  let c2 := interleave example_after (c1.1, h.1) in
  ∃ es, (run (entries (Some DEFAULT_TTL) "ann" "r1" 1) 7 c2.2).2 = Ok (Some es) ∧
    (fst ∘ fst <$> ok_or None h.2) = Some (items es) ∧ length (items es) = 2%nat.
Proof.
  intros c1 h c2.
  destruct (history_stays no_format (Some DEFAULT_TTL) example_threads (Actor.init 0 10) h.1
    (run (entries (Some DEFAULT_TTL) "ann" "r1" 1) 7 c2.2).1 0 example_before 2 example_after 7 "ann" example_record
    (default [] (fst ∘ fst <$> ok_or None h.2)) (position_at "r1" 1) []
    (ok_or None (run (entries (Some DEFAULT_TTL) "ann" "r1" 1) 7 c2.2).2)) as (es & E1 & E2).
  - intros d [= <-]. reflexivity.
  - constructor.
  - done.
  - apply example_callers.
  - vm_compute. intuition discriminate.
  - vm_compute. intuition discriminate.
  - intros T' [= <-]. reflexivity.
  - vm_compute. reflexivity.
  - vm_compute. reflexivity.
  - exists es. rewrite <-E1, E2. split_and!; vm_compute; reflexivity.
Defined.

(** A stored turn reads back after its parent's: when a finished turn was written as the
    continuation of a readable position (or as a first turn), then within the time to live its record
    is the response it was stored with, [output] included when asked for, and its history is the
    parent's items, then its own input with ids and its output; also when another turn already
    held the position and it forked into a log of its own. *)
Theorem turn_reads_back `{StateStoreAtomic T} py_format ttl uuids i rid response parent input outs es now (s s' : T) :
  (∀ d, ttl = Some d → 0 < d) → ss_valid s → tidy ttl now (cells s) →
  continues ttl now i s parent es → unstored now i rid s parent →
  py_or (default JNull (Dict.get "output" response)) (JList []) = JList outs →
  run (write ttl uuids i rid response parent input) now s = (s', Ok tt) →
  ∃ input' record, with_ids uuids input = Ok input' ∧ response_of record = Dict.set "output" (JList []) response ∧
  ∀ t, now ≤ t → in_time ttl now t →
    (∀ s2 r, run (read py_format i rid false) t s' = (s2, Ok r) → r = Some record) ∧
    (∀ s2 r, run (read py_format i rid true) t s' = (s2, Ok r) →
       r = Some (Dict.set "response" (JObj (Dict.set "output" (JList outs) (response_of record))) record)) ∧
    (∀ s2 r, run (history py_format ttl i record) t s' = (s2, Ok r) →
       ∃ pos ls, r = Some (items es ++ input' ++ outs, pos, ls)).
Proof.
  intros Httl Hv Ht Hc Hu Ho. unfold write. intros (? & input' & [= <- Hi] & Hr)%run_bind_ok_pure.
  destruct (turn_stored ttl Httl _ _ _ _ _ _ _ _ _ _ Hv Ht Hc Hu Ho Hr) as (Hv' & Ht' & log & depth & ed & He & Hs).
  exists input', (turn_fields response log depth). split_and!; [done..|]. intros t Hnow Hin.
  specialize (Hs t Hnow Hin). split_and!.
  - intros s2 r. unfold read. intros (s1 & rec & E1 & E2)%run_bind_ok.
    destruct (read_record_shown _ _ _ _ _ _ _ _ _ Hv' (shown_record _ _ _ _ _ _ _ _ _ Hs) E1) as (_ & _ & Hrec & [d ->]).
    injection Hrec as ->. by injection E2 as _ <-.
  - intros s2 r E. by apply (read_shown _ _ _ _ _ _ _ _ outs _ _ _ _ Hv' Hs He E).
  - intros s2 r E. eapply history_complete in E as [ls ->]; [|done|done|by eapply tidy_mono|by apply Hs|done..].
    eexists _, ls. unfold items. rewrite bind_app. cbn. by rewrite app_nil_r.
Qed.

(** The turn "r3" of the example, at a position "r2" already holds: it forks. *)
Definition example_read : Actor.t * res (option (list json * Position * list (json * json))) :=
  run (history no_format (Some DEFAULT_TTL) "ann" example_record) 4
    (interleave [(0%nat, 1); (1%nat, 3)] (example_threads, Actor.init 0 10)).2.
Definition example_fork : Actor.t * res unit :=
  run (write (Some DEFAULT_TTL) example_uuids "ann" "r3" (answered "a3") (Some (position_at "r1" 1)) (example_input "again"))
    4 example_read.1.

Lemma turn_reads_back_witness :
  let its := default [] (fst ∘ fst <$> ok_or None example_read.2) in
  let input := [JObj [("type", JStr "message"); ("content", JStr "again"); ("id", JStr "msg_0")]]%string in
  let output := [JObj [("type", JStr "message"); ("content", JStr "a3")]]%string in
  length its = 2%nat ∧
  ∀ s2 r, run (history no_format (Some DEFAULT_TTL) "ann" (turn_fields (answered "a3") "r3" 2)) 6 example_fork.1 = (s2, Ok r) →
  ∃ pos ls, r = Some (its ++ input ++ output, pos, ls).
Proof.
  intros its input output. split; [vm_compute; reflexivity|].
  assert (∀ d, Some DEFAULT_TTL = Some d → 0 < d) as Httl by by intros d [= <-].
  destruct (interleave_keeps (Some DEFAULT_TTL) Httl [(0%nat, 1); (1%nat, 3)] 0 4 example_threads (Actor.init 0 10)) as [_ Hk];
    [constructor|by apply tidy_empty|eapply Forall_impl; [apply example_callers|intros q; apply caller_ok]|vm_compute; intuition discriminate|].
  destruct (Hk 4 ltac:(lia)) as [Hv Ht _].
  destruct (history_sound no_format (Some DEFAULT_TTL) Httl "ann" example_record 4 _ example_read.1 its (position_at "r1" 1) [] Hv Ht)
    as (Hv1 & Ht1 & es & Hes & Hc); [vm_compute; reflexivity|].
  destruct (turn_reads_back no_format (Some DEFAULT_TTL) example_uuids "ann" "r3" (answered "a3") (Some (position_at "r1" 1))
    (example_input "again") output es 4 example_read.1 example_fork.1 Httl Hv1 Ht1) as (input' & record & Hi & _ & Hr).
  - split; [reflexivity|]. by split.
  - split; [vm_compute; reflexivity|]. intros q raw [= <-]. vm_compute. by intros [= <-].
  - reflexivity.
  - vm_compute. reflexivity.
  - vm_compute in Hi. injection Hi as <-.
    destruct (Hr 6 ltac:(lia) ltac:(intros T' [= <-]; reflexivity)) as (H1 & _ & H3).
    assert (run (read no_format "ann" "r3" false) 6 example_fork.1 =
      ((run (read no_format "ann" "r3" false) 6 example_fork.1).1, Ok (Some (turn_fields (answered "a3") "r3" 2)))) as E
      by (vm_compute; reflexivity).
    apply H1 in E. injection E as <-. rewrite <-Hes. exact H3.
Defined.

(** Reading a conversation always ends: the walk from a position over its log's segments takes
    at most as many rounds as the position is deep, whatever the store holds, also logs whose bases
    point in a circle or upwards; it returns, or a store call raised. *)
Theorem walk_ends `{StateStoreOk T} ttl i log depth now (s : T) :
  ss_valid s →
  (∃ r, (run (entries ttl i log depth) now s).2 = Ok r) ∨
  ∃ B (op : store_op B) s1 e, ss_valid s1 ∧ (ss_run op now s1).2 = Err e ∧ (run (entries ttl i log depth) now s).2 = Err e.
Proof. intros Hv. unfold entries. apply entries_from_end; [done|lia]. Qed.

(** A log whose base is itself. *)
Definition circular_store : Actor.t :=
  Actor.set (log_key "ann" "r1") (JList [JList [JInt 2; JObj [("input", JList []); ("output", JList []);
    ("base", JObj [("log", JStr "r1"); ("depth", JInt 1)])]]]%string) None 0 (Actor.init 0 10).

Lemma walk_ends_witness :
  (run (entries None "ann" "r1" 2) 5 circular_store).2 = Ok None ∧
  ((∃ r, (run (entries None "ann" "r1" 2) 5 circular_store).2 = Ok r) ∨
   ∃ B (op : store_op B) (s1 : Actor.t) e, ss_valid s1 ∧ (ss_run op 5 s1).2 = Err e ∧ (run (entries None "ann" "r1" 2) 5 circular_store).2 = Err e).
Proof. split; [vm_compute; reflexivity|]. apply (walk_ends (T := Actor.t) None "ann" "r1" 2 5 circular_store). repeat constructor. apply not_elem_of_nil. Defined.
End ConversationProperties.
