(* ===== verification/Identity.v ===== *)
(** * Caller identities

    [src/modelship/openai/auth.py]: the identity a request runs as, and what it isolates: the
    operations of [ResponsesState] run for one identity never name a key of another. Text is ASCII. *)

From S2P Require Import Prelude StateStore ConfigSchema ResponsesState ResponsesLogs.
Import LogFacts.
Local Open Scope Z_scope.

Definition UNSCOPED_IDENTITY : string := "unscoped".

(** ** [_SAFE_IDENTITY_RE] *)

(** [[A-Za-z0-9_.:-]] *)
Definition safe_char (a : ascii) : bool :=
  let n := nat_of_ascii a in
  (((65 <=? n) && (n <=? 90)) || ((97 <=? n) && (n <=? 122)) || ((48 <=? n) && (n <=? 57)))%nat
  || bool_decide (a ∈ ["_"; "."; ":"; "-"])%char.

Definition safe_text (s : string) : bool :=
  negb (bool_decide (s ∈ ["."; ".."]%string)) && str_all safe_char s
  && (1 <=? String.length s)%nat && (String.length s <=? 128)%nat.

(** [re.match]: a dollar also matches before a last newline. *)
Definition safe_identity (s : string) : bool :=
  let n := Nat.pred (String.length s) in
  safe_text s || (bool_decide (str_drop n s = String newline "") && safe_text (str_take n s)).

(** ** The trusted header *)

(** [get_trusted_identity_header], with its cache: the text of the variable it holds the answer of. *)
Definition get_trusted_identity_header (raw : string) (cache : option (string * option string))
    : option (string * option string) * option string :=
  match cache with
  | Some (r, v) => if decide (r = raw) then (cache, v)
                   else let v := (let s := Str.strip raw in if decide (s = ""%string) then None else Some s) in (Some (raw, v), v)
  | None => let v := (let s := Str.strip raw in if decide (s = ""%string) then None else Some s) in (Some (raw, v), v)
  end.

Section identity.
Context (sha256_hex : string → string).

(** [resolve_identity]; [get] is [request.headers.get], [state] is [request.state]: [None] without
    one, else its cached identity. Returns the identity and its tier. *)
Definition resolve_identity (raw : string) (cache : option (string * option string)) (get : string → option string)
    (state : option (option (string * string))) : string * string :=
  match state with
  | Some (Some cached) => cached
  | _ =>
      match (get_trusted_identity_header raw cache).2 with
      | Some name =>
          let value := Str.strip (default ""%string (get name)) in
          if decide (value = ""%string) then (UNSCOPED_IDENTITY, "unscoped"%string)
          else (if safe_identity value then value else sha256_hex value, "header"%string)
      | None => (UNSCOPED_IDENTITY, "unscoped"%string)
      end
  end.

(** [identity_key] and [identity_tier] of a request seen for the first time. *)
Definition identity_key (raw : string) (cache : option (string * option string)) (get : string → option string) : string :=
  (resolve_identity raw cache get (Some None)).1.
Definition identity_tier (raw : string) (cache : option (string * option string)) (get : string → option string) : string :=
  (resolve_identity raw cache get (Some None)).2.
End identity.

(** ** What an identity owns *)

(** The keys of an identity: those under one of its three prefixes. *)
Definition owned (i k : string) : bool :=
  Str.startswith k ("responses/" +:+ i +:+ "/") || Str.startswith k ("responses-log/" +:+ i +:+ "/")
  || Str.startswith k ("responses-stream/" +:+ i +:+ "/").

(** A store call that names only keys satisfying [P], and lists none. *)
Definition names_only (P : string → Prop) (B : Type) (op : store_op B) : Prop :=
  match op with
  | OGet k | OSet k _ _ | ODelete k | OAppend k _ _ _ | OReadRange k _ _ | OExpire k _ => P k
  | OAppendAndSet lk _ _ k _ _ _ => P lk ∧ P k
  | OList _ => False
  end.

(** ** Lemmas *)

Module IdentityFacts.

Lemma under_identity p i r : Str.startswith (p +:+ i +:+ "/" +:+ r) (p +:+ i +:+ "/") = true.
Proof. apply Str.startswith_iff. exists r. by rewrite !Str.app_assoc. Qed.

Lemma owned_key i r : owned i (key i r) = true.
Proof. unfold owned, key. by rewrite under_identity. Qed.
Lemma owned_log i l : owned i (log_key i l) = true.
Proof. unfold owned, log_key. by rewrite (under_identity "responses-log/"), orb_true_r. Qed.
Lemma owned_stream i r : owned i (stream_key i r) = true.
Proof. unfold owned, stream_key. by rewrite (under_identity "responses-stream/"), orb_true_r. Qed.

(** Two slash-free identities with a common key are one. *)
Lemma prefix_owner p i j k :
  Str.mem "/" i = false → Str.mem "/" j = false →
  Str.startswith k (p +:+ i +:+ "/") = true → Str.startswith k (p +:+ j +:+ "/") = true → i = j.
Proof.
  intros Hi Hj [r ->]%Str.startswith_iff [r' E]%Str.startswith_iff. rewrite !Str.app_assoc in E.
  apply Str.app_inj in E. cbn in E. by apply Str.first_sep_inj in E as [? _].
Qed.

Lemma owner_unique i j k :
  Str.mem "/" i = false → Str.mem "/" j = false → owned i k = true → owned j k = true → i = j.
Proof.
  intros Hi Hj. unfold owned. rewrite !orb_true_iff.
  intros [[H1|H1]|H1] [[H2|H2]|H2]; try (by eapply prefix_owner);
    apply Str.startswith_iff in H1 as [r ->], H2 as [r' E]; cbn in E; discriminate.
Qed.

Lemma safe_no_slash s : safe_text s = true → Str.mem "/" s = false.
Proof.
  unfold safe_text. rewrite !andb_true_iff. intros [[[_ Hs] _] _]. induction s as [|a s IH]; [done|].
  cbn in Hs |- *. apply andb_true_iff in Hs as [Ha Hs]. rewrite IH by done.
  destruct (decide (a = "/"%char)) as [->|]; [by vm_compute in Ha|]. by rewrite bool_decide_false.
Qed.

Lemma hex_no_slash s : str_all is_hex s = true → Str.mem "/" s = false.
Proof.
  induction s as [|a s IH]; [done|]. cbn. intros [Ha Hs]%andb_true_iff. rewrite IH by done.
  destruct (decide (a = "/"%char)) as [->|]; [by vm_compute in Ha|]. by rewrite bool_decide_false.
Qed.

Lemma safe_identity_no_slash s : safe_identity s = true → Str.mem "/" s = false.
Proof.
  unfold safe_identity. intros [Hs|[Hn%bool_decide_eq_true Hs]%andb_true_iff]%orb_true_iff; [by apply safe_no_slash|].
  pose proof (ConfigFacts.str_take_drop (Nat.pred (String.length s)) s) as E. rewrite Hn in E.
  rewrite E, Str.mem_app. by rewrite (safe_no_slash _ Hs).
Qed.

(** No identity holds a slash. *)
Lemma identity_no_slash sha256_hex raw cache get :
  (∀ t, str_all is_hex (sha256_hex t) = true) → Str.mem "/" (identity_key sha256_hex raw cache get) = false.
Proof.
  intros Hsha. unfold identity_key, resolve_identity. destruct (_ raw cache) as [c [name|]]; [|done]. cbn [snd].
  case_decide; [done|]. cbn [fst]. destruct (safe_identity _) eqn:E; [by apply safe_identity_no_slash|by apply hex_no_slash].
Qed.
End IdentityFacts.

(** ** Theorems *)

Module IdentityProperties.
Import IdentityFacts.

(** C29: Conversations are isolated by key alone: an operation run for one caller's identity only
    ever names keys of that identity, whatever ids, positions and records it is given and whatever
    the store holds, and none of them is a key of a caller with another identity. *)
Theorem callers_isolated sha256_hex raw cache get cache' get' py_format ttl {A} (p : prog A) :
  (∀ t, str_all is_hex (sha256_hex t) = true) →
  let mine := identity_key sha256_hex raw cache get in
  let theirs := identity_key sha256_hex raw cache' get' in
  mine ≠ theirs → operation py_format ttl mine p →
  issues (names_only (λ k, owned mine k = true ∧ owned theirs k = false)) p.
Proof.
  intros Hsha mine theirs Hne Hp. eapply issues_mono; [|eapply operation_ok, Hp].
  assert (∀ k, owned mine k = true → owned mine k = true ∧ owned theirs k = false) as Hk.
  { intros k Hk. split; [done|]. destruct (owned theirs k) eqn:E; [|done]. destruct Hne.
    apply (owner_unique _ _ k); [by apply identity_no_slash..|done|done]. }
  intros B op []; cbn; eauto using owned_key, owned_log, owned_stream.
Qed.

(** Two callers named by the proxy's header. *)
Definition header_of (v : string) : string → option string := λ _, Some v.

Lemma callers_isolated_witness :
  identity_key (λ _, "0") "X-User" None (header_of " bob ") = "bob"%string ∧
  issues (names_only (λ k, owned "bob" k = true ∧ owned "ann" k = false)) (delete "bob" "r1").
Proof.
  split; [vm_compute; reflexivity|].
  apply (callers_isolated (λ _, "0"%string) "X-User" None (header_of " bob ") None (header_of "ann") (λ _, ""%string) None).
  - intros t. reflexivity.
  - vm_compute. discriminate.
  - apply op_delete.
Defined.
End IdentityProperties.
