(* ===== verification/ResponsesTerminal.v ===== *)
(** * One terminal state

    Several callers may end the same background response at once (its run, a cancel, a staleness
    check): [write_terminal_if_not_terminal], interleaved store call by store call with any callers
    that don't store that response's record themselves. *)

From S2P Require Import Prelude StateStore MemoryStore ResponsesState ResponsesLogs ResponsesTheorems.
Import SessionFacts FailureFacts LogFacts ConversationFacts.
Local Open Scope Z_scope.

(** A store call that does not store the cell at [k]; it may delete it. *)
Definition leaves (k : string) (B : Type) (op : store_op B) : Prop :=
  match op with
  | OSet k' _ _ | OAppend k' _ _ _ => k' ≠ k
  | OAppendAndSet lk _ _ k' _ _ _ => lk ≠ k ∧ k' ≠ k
  | _ => True
  end.

(** No log that shows at [now] expires by [stop]. *)
Definition logs_last (now stop : Z) (m : content) : Prop :=
  ∀ k v e, is_log k → live now (m k) = Some (v, Some e) → stop < e.

(** A background response's record that has not ended. *)
Definition pending (d : dict json) : Prop :=
  well_formed d = true ∧ Dict.mem "log" d = false ∧ is_terminal (response_of d) = Ok false ∧
  is_Some (Dict.get "parent" d).

Section terminal.
Context (ttl : option Z) (i rid : string) (d0 : dict json).

(** A caller that ends the response, and one that does something else. *)
Definition ender (p : prog unit) : Prop := ∃ x, p = write_terminal_if_not_terminal ttl i rid x.
Definition bystander py_format (p : prog unit) : Prop :=
  caller py_format ttl p ∧ issues (leaves (key i rid)) p.

Definition parent0 : option Position := position_of (default JNull (Dict.get "parent" d0)).
Definition input0 : list json := if Dict.get "input" d0 is Some (JList l) then l else [].

(** *** Where an ender is *)

Definition own_append (x : dict json) : prog bool :=
  match parent0 with
  | None => append_turn ttl i rid x rid 1 (turn_entry rid x input0) true
  | Some p => append_turn ttl i rid x rid (pos_depth p + 1)
      (Dict.set "base" (JObj (raw_position p)) (turn_entry rid x input0)) true
  end.

(** A log shows an entry at [n] or later: an append at [n] is refused. *)
Definition reached (k : string) (n now : Z) (m : content) : Prop :=
  ∃ es q, Spec.log k now m = log_of es ∧ q ∈ es.*1 ∧ n ≤ q.

(** The parent's log shows this response's turn right after the parent. *)
Definition claimed (p : Position) (now : Z) (m : content) : Prop :=
  ∃ raw, Spec.read_range (log_key i (pos_log p)) (pos_depth p + 1) (Some (pos_depth p + 1)) now m = Ok raw ∧
    is_this_turn rid raw = true.

Definition gone (now : Z) (m : content) : Prop := live now (m (key i rid)) = None.

Definition after_refusal (x : dict json) (p : Position) : prog unit :=
  taken ← call (OReadRange (log_key i (pos_log p)) (pos_depth p + 1) (Some (pos_depth p + 1)));
  if is_this_turn rid taken then mret tt else _ ← own_append x; mret tt.

(** What is known at each point of an ender. *)
Inductive at_point (now : Z) (m : content) : prog unit → Prop :=
| at_start x : at_point now m (write_terminal_if_not_terminal ttl i rid x)
| at_store x : at_point now m (store_turn ttl i rid x parent0 input0 true)
| at_refused x p : parent0 = Some p → gone now m ∨ reached (log_key i (pos_log p)) (pos_depth p + 1) now m →
    at_point now m (after_refusal x p)
| at_fork x p : parent0 = Some p →
    gone now m ∨ (reached (log_key i (pos_log p)) (pos_depth p + 1) now m ∧ ¬ claimed p now m) →
    at_point now m (_ ← own_append x; mret tt)
| at_end : at_point now m (Done tt)
| at_error e : at_point now m (Fail e).

(** The response's turn is stored. *)
Definition settled (now : Z) (m : content) : Prop :=
  match parent0 with
  | None => reached (log_key i rid) 1 now m
  | Some p => reached (log_key i (pos_log p)) (pos_depth p + 1) now m ∧
      (claimed p now m ∨ reached (log_key i rid) (pos_depth p + 1) now m)
  end.

(** The record: not there, as it was, or ended for good. *)
Definition record_state (now : Z) (m : content) : Prop :=
  gone now m ∨ Spec.get (key i rid) now m = Some (JObj d0) ∨
  ∃ x l n, Spec.get (key i rid) now m = Some (turn_record x l n) ∧ settled now m.
End terminal.

(** ** Lemmas *)

Module TerminalFacts.
Section facts.
Context (ttl : option Z) (i rid : string) (d0 : dict json) (stop : Z).
Context (ttl_positive : ∀ t, ttl = Some t → 0 < t).
Notation K := (key i rid).

(** What a later content at a later time keeps of an earlier one. *)
Record stays (now : Z) (m : content) (now' : Z) (m' : content) : Prop := {
  stays_gone : gone i rid now m → gone i rid now' m';
  stays_reached k n : is_log k → reached k n now m → reached k n now' m';
  stays_read k n : is_log k → reached k n now m →
    Spec.read_range k n (Some n) now' m' = Spec.read_range k n (Some n) now m
}.

Lemma grown_reads now m m' :
  tidy ttl now m → grown now m m' → ∀ k n, is_log k → reached k n now m →
  reached k n now m' ∧ Spec.read_range k n (Some n) now m' = Spec.read_range k n (Some n) now m.
Proof.
  intros Ht Hg k n Hk (es0 & q & Hl0 & Hq & Hn).
  destruct (log_tidy ttl now m k Ht Hk) as (es & Hl & _ & Hlive). rewrite Hl in Hl0.
  assert (es0 = es) as -> by by apply log_of_inj. destruct Hlive as [[_ ->]|(e & Hlive & _)]; [by apply elem_of_nil in Hq|].
  destruct (Hg k now es e Hk ltac:(lia) Hlive) as (es' & e' & Hlive' & Hs).
  assert (Spec.log k now m' = log_of (es ++ es')) as Hl' by (unfold Spec.log; by rewrite Hlive').
  split; [exists (es ++ es'), q; split_and!; [done| |done]; rewrite fmap_app; set_solver|].
  unfold Spec.read_range. rewrite Hl, Hl', !select_log_of, filter_app, fmap_app. f_equal.
  cut (filter (λ pv, within n (Some n) pv.1 = true) es' = []); [intros ->; by rewrite app_nil_r|].
  destruct (filter _ es') as [|[x w] rest] eqn:Ef; [done|]. exfalso.
  assert ((x, w) ∈ (x, w) :: rest) as Hin by by left. rewrite <-Ef in Hin.
  apply list_elem_of_filter in Hin as [Hw Hin]. unfold within in Hw. cbn in Hw. rewrite fmap_app in Hs.
  assert (q < x); [|lia]. eapply (StronglySorted_app_1_elem_of Z.lt es.*1 es'.*1); [exact Hs|done|].
  apply list_elem_of_fmap. by exists (x, w).
Qed.

Lemma grown_stays now m m' :
  tidy ttl now m → grown now m m' → (gone i rid now m → gone i rid now m') → stays now m now m'.
Proof. intros Ht Hg Hgone. split; [done|..]; intros k n Hk Hr; by apply (grown_reads now m m' Ht Hg k n Hk Hr). Qed.

Lemma claimed_stays now m now' m' p :
  stays now m now' m' → reached (log_key i (pos_log p)) (pos_depth p + 1) now m →
  claimed i rid p now m ↔ claimed i rid p now' m'.
Proof. intros Hs Hr. unfold claimed. by rewrite (stays_read _ _ _ _ Hs _ _ (log_is_log _ _) Hr). Qed.

Lemma settled_stays now m now' m' : stays now m now' m' → settled i rid d0 now m → settled i rid d0 now' m'.
Proof.
  intros Hs. unfold settled. destruct (parent0 d0) as [p|]; [|by apply Hs, log_is_log].
  intros [Hr [Hc|Ho]]; (split; [by apply (stays_reached _ _ _ _ Hs); [apply log_is_log|]|]).
  - left. by apply (claimed_stays now m).
  - right. by apply (stays_reached _ _ _ _ Hs); [apply log_is_log|].
Qed.

Lemma at_point_stays now m now' m' p : stays now m now' m' → at_point ttl i rid d0 now m p → at_point ttl i rid d0 now' m' p.
Proof.
  intros Hs. destruct 1 as [x|x|x q Hq [Hg|Hr]|x q Hq [Hg|[Hr Hc]]| |e]; try by constructor.
  - apply at_refused; [done|]. left. by apply Hs.
  - apply at_refused; [done|]. right. by apply (stays_reached _ _ _ _ Hs); [apply log_is_log|].
  - apply at_fork with q; [done|]. left. by apply Hs.
  - apply at_fork with q; [done|]. right. split; [by apply (stays_reached _ _ _ _ Hs); [apply log_is_log|]|].
    by rewrite <-(claimed_stays now m).
Qed.

Lemma stays_trans n1 m1 n2 m2 n3 m3 : stays n1 m1 n2 m2 → stays n2 m2 n3 m3 → stays n1 m1 n3 m3.
Proof.
  intros H12 H23. split.
  - intros Hg. by apply H23, H12.
  - intros k n Hk Hr. apply H23; [done|]. by apply H12.
  - intros k n Hk Hr. rewrite (stays_read _ _ _ _ H23), (stays_read _ _ _ _ H12); [done..|]. by apply H12.
Qed.

(** *** Time goes by *)

Lemma logs_last_live now now' m k :
  logs_last now stop m → is_log k → now ≤ now' ≤ stop → live now' (m k) = live now (m k).
Proof.
  intros Hl Hk Hn. destruct (live now (m k)) as [[v [e|]]|] eqn:E.
  - specialize (Hl k v e Hk E). apply live_Some in E as ->. unfold live, expired. cbn.
    destruct (Z.leb_spec e now'); [lia|done].
  - by apply live_Some in E as ->.
  - eapply live_mono; [|done]. lia.
Qed.

Lemma time_stays now now' m : logs_last now stop m → now ≤ now' ≤ stop → stays now m now' m.
Proof.
  intros Hl Hn. split.
  - intros Hg. unfold gone in *. eapply live_mono; [|done]. lia.
  - intros k n Hk. unfold reached, Spec.log. by rewrite (logs_last_live now now').
  - intros k n Hk _. unfold Spec.read_range, Spec.log. by rewrite (logs_last_live now now').
Qed.

Lemma logs_last_mono now now' m : now ≤ now' → logs_last now stop m → logs_last now' stop m.
Proof. intros Hn Hl k v e Hk Hv. eapply Hl; [done|]. by eapply live_later. Qed.

Lemma get_later now now' m f : now ≤ now' → Spec.get K now' m = Some f → Spec.get K now m = Some f.
Proof.
  unfold Spec.get. intros Hn. destruct (live now' (m K)) as [c|] eqn:E; [|done]. by rewrite (live_later _ _ _ _ Hn E).
Qed.

Lemma gone_get now m : gone i rid now m ↔ Spec.get K now m = None.
Proof. unfold gone, Spec.get. by destruct (live now (m K)). Qed.

(** Whatever keeps the logs and changes the record at most by removing it keeps the record's state. *)
Lemma record_state_stays now m now' m' :
  stays now m now' m' → (gone i rid now' m' ∨ Spec.get K now' m' = Spec.get K now m) →
  record_state i rid d0 now m → record_state i rid d0 now' m'.
Proof.
  intros Hs [Hg|Hg]; [by left|]. unfold record_state. rewrite !gone_get, Hg. intros [Hn|[Hd|(x & l & n & Hf & Hset)]]; [by left|by right; left|].
  right; right. exists x, l, n. split; [done|]. by eapply settled_stays.
Qed.

(** *** Steps *)

(** The world between two steps, and what a step may do to the record. *)
Record world (now : Z) (m : content) : Prop := {
  world_tidy : tidy ttl now m;
  world_logs : logs_last now stop m;
  world_record : record_state i rid d0 now m
}.

Definition record_moves (now : Z) (m : content) (now' : Z) (m' : content) : Prop :=
  (gone i rid now m → gone i rid now' m') ∧
  ∀ f, Spec.get K now m = Some f → f ≠ JObj d0 → gone i rid now' m' ∨ Spec.get K now' m' = Some f.

Lemma same_moves now m now' m' :
  (gone i rid now' m' ∨ Spec.get K now' m' = Spec.get K now m) → record_moves now m now' m'.
Proof.
  intros [Hg|Hg].
  - split; [done|]. intros f _ _. by left.
  - split; [by rewrite !gone_get, Hg|]. intros f Hf _. right. by rewrite Hg.
Qed.

Lemma moves_trans n1 m1 n2 m2 n3 m3 : record_moves n1 m1 n2 m2 → record_moves n2 m2 n3 m3 → record_moves n1 m1 n3 m3.
Proof.
  intros [Hg1 Hf1] [Hg2 Hf2]. split; [auto|]. intros f Hf Hne. destruct (Hf1 f Hf Hne); [left; auto|]. by apply Hf2.
Qed.

(** A log written within the window lasts it out. *)
Lemma logs_last_effect {B} (op : store_op B) now m :
  (∀ t, ttl = Some t → stop < now + t) → allowed ttl B op → logs_last now stop m → logs_last now stop (effect op now m).
Proof.
  intros Hw Hop Hl k v e Hk.
  destruct op as [k'|k' v' t|k'|prefix|k' p v' t|lk p x k' v' t ife|k' lo hi|k' t]; cbn [effect allowed] in *; try by apply Hl.
  - unfold Spec.set, Spec.upd. rewrite decide_False by congruence. by apply Hl.
  - unfold Spec.delete, Spec.upd. rewrite decide_False by congruence. by apply Hl.
  - destruct (Spec.append k' p v' t now m) as [[m'|]|] eqn:E; [|by apply Hl..].
    destruct (append_sets _ _ _ _ _ _ _ E) as [x ->]. unfold Spec.set, Spec.upd. rewrite decide_False by congruence. by apply Hl.
  - destruct Hop as (Hlk & Hk' & -> & _). unfold Spec.append_and_set. destruct (ife && _); [by apply Hl|].
    destruct (Spec.append lk p x ttl now m) as [[m'|]|] eqn:E; [|by apply Hl..].
    destruct (append_sets _ _ _ _ _ _ _ E) as [y ->]. unfold Spec.set, Spec.upd. rewrite decide_False by congruence.
    case_decide; [|by apply Hl]. intros Hv. apply live_Some in Hv. injection Hv as _ Hv. unfold expires_at in Hv.
    destruct ttl as [T|]; [|done]. injection Hv as <-. by apply Hw.
  - unfold Spec.expire. destruct (live now (m k')) as [[v' c]|]; [|by apply Hl]. unfold Spec.upd.
    case_decide; [|by apply Hl]. intros Hv. apply live_Some in Hv. injection Hv as _ <-. by apply Hw.
Qed.

(** A call that leaves the record changes it at most by removing it. *)
Lemma leaves_get {B} (op : store_op B) now m :
  allowed ttl B op → leaves K B op → gone i rid now (effect op now m) ∨ Spec.get K now (effect op now m) = Spec.get K now m.
Proof.
  intros Hop Hl. rewrite gone_get.
  destruct op as [k'|k' v' t|k'|prefix|k' p v' t|lk p x k' v' t ife|k' lo hi|k' t]; cbn [effect allowed leaves] in *; auto.
  - right. unfold Spec.get, Spec.set, Spec.upd. by rewrite decide_False by congruence.
  - unfold Spec.get, Spec.delete, Spec.upd. case_decide; [by left|by right].
  - right. destruct (Spec.append k' p v' t now m) as [[m'|]|] eqn:E; [|done..].
    destruct (append_sets _ _ _ _ _ _ _ E) as [x ->]. unfold Spec.get, Spec.set, Spec.upd. by rewrite decide_False by congruence.
  - right. unfold Spec.append_and_set. destruct (ife && _); [done|].
    destruct (Spec.append lk p x t now m) as [[m'|]|] eqn:E; [|done..].
    destruct (append_sets _ _ _ _ _ _ _ E) as [y ->]. unfold Spec.get, Spec.set, Spec.upd.
    rewrite !decide_False by (destruct Hl; congruence). done.
  - right. unfold Spec.expire. destruct (live now (m k')) as [[v' c]|] eqn:E; [|done].
    unfold Spec.get, Spec.upd. case_decide as Hd; [|done]. subst k'. rewrite E. unfold live, expired. cbn.
    specialize (ttl_positive t Hop). destruct (Z.leb_spec (now + t) now); [lia|done].
Qed.

Section store.
Context `{StateStoreAtomic T}.
Implicit Types (s : T).
Context (in_window : Z → Prop) (window : ∀ now, in_window now → now ≤ stop ∧ ∀ t, ttl = Some t → stop < now + t).

(** A step of a caller that leaves the logs in order, at the store's level. *)
Lemma world_same now m m' : same_from now m' m → world now m → world now m' ∧ stays now m now m' ∧ record_moves now m now m'.
Proof.
  intros E [Ht Hl Hr]. symmetry in E. pose proof (grown_same ttl now m m' E Ht) as Hg.
  assert (stays now m now m') as Hs.
  { apply grown_stays; [done..|]. unfold gone. by rewrite (same_from_now _ _ _ K E). }
  assert (Spec.get K now m' = Spec.get K now m) as HK by by rewrite (Spec_get_proper K now _ _ E).
  split_and!; [|done|by apply same_moves; right]. split.
  - by eapply tidy_same.
  - intros k v e Hk. rewrite <-(same_from_now _ _ _ k E). by apply Hl.
  - by eapply record_state_stays; [done|right|].
Qed.

Lemma op_world {B} (op : store_op B) now s s' r :
  in_window now → ss_valid s → world now (cells s) → allowed ttl B op → leaves K B op →
  ss_run op now s = (s', r) →
  ss_valid s' ∧ world now (cells s') ∧ stays now (cells s) now (cells s') ∧ record_moves now (cells s) now (cells s').
Proof.
  intros Hw Hv Hworld Hop Hl E. pose proof (ss_run_valid op now s Hv) as Hv'. rewrite E in Hv'. cbn in Hv'.
  split; [done|]. destruct r as [b|e].
  - destruct (ss_run_ok _ _ _ _ _ Hv E) as [_ Hs]. pose proof Hworld as [Ht Hlogs Hr].
    destruct (allowed_effect ttl op now (cells s) Hop ttl_positive Ht) as [Ht' Hg].
    pose proof (leaves_get op now (cells s) Hop Hl) as HK.
    assert (stays now (cells s) now (effect op now (cells s))) as Hst.
    { apply grown_stays; [done..|]. rewrite !gone_get. destruct HK as [HK|HK]; [by rewrite gone_get in HK|by rewrite HK]. }
    assert (world now (effect op now (cells s))) as Hworld'.
    { split; [done|apply logs_last_effect; [by apply window|done|done]|by eapply record_state_stays]. }
    destruct (world_same now _ (cells s') Hs Hworld') as (Hw' & Hst' & Hm').
    split_and!; [done|by eapply stays_trans|]. eapply moves_trans; [by apply same_moves|done].
  - pose proof (ss_raise_same _ op now s s' e Hv E) as Hs. by apply world_same.
Qed.

(** The append of a turn whose record must be there. *)
Definition ender_append (lk : string) (n : Z) (entry : json) (v : json) : store_op bool :=
  OAppendAndSet lk n entry K v ttl true.

Definition refused_append (lk : string) (n now : Z) (m : content) : Prop := gone i rid now m ∨ reached lk n now m.

Lemma reached_append lk n now m es x :
  Spec.log lk now m = log_of es → in_order es → follows_base n x →
  (reached lk n now m ∧ Spec.append lk n x ttl now m = Ok None) ∨
  (¬ reached lk n now m ∧ in_order (es ++ [(n, x)]) ∧
   Spec.append lk n x ttl now m = Ok (Some (Spec.set lk (JList (log_of (es ++ [(n, x)]))) ttl now m))).
Proof.
  intros Hl Ho Hx. destruct (append_log ttl now m lk n x es Hl Ho Hx) as [Ha|[Ha Ho']].
  - left. split; [|done]. unfold Spec.append in Ha. rewrite Hl, last_log_of in Ha.
    destruct (last es) as [[q w]|] eqn:El; [|done]. cbn in Ha. unfold py_ge in Ha. cbn in Ha.
    exists es, q. apply last_Some in El as (es' & ->). split_and!; [done|rewrite fmap_app; set_solver|].
    by destruct (Z.leb_spec n q).
  - right. split_and!; [|done|done]. intros (es0 & q & Hl' & Hq & Hn). rewrite Hl in Hl'. apply log_of_inj in Hl' as ->.
    destruct Ho' as [Hs _]. rewrite fmap_app in Hs.
    assert (q < n); [|lia]. eapply (StronglySorted_app_1_elem_of Z.lt es0.*1 [n]); [exact Hs|done|by left].
Qed.

(** Stored, or refused for a reason. *)
Lemma append_step lk n entry v now s s' r :
  in_window now → ss_valid s → world now (cells s) → is_log lk → follows_base n entry →
  ss_run (ender_append lk n entry v) now s = (s', r) →
  ss_valid s' ∧
  match r with
  | Ok true =>
      ¬ gone i rid now (cells s) ∧ ¬ reached lk n now (cells s) ∧
      tidy ttl now (cells s') ∧ logs_last now stop (cells s') ∧ stays now (cells s) now (cells s') ∧
      Spec.get K now (cells s') = Some v ∧ reached lk n now (cells s') ∧
      Spec.read_range lk n (Some n) now (cells s') = Ok [entry]
  | Ok false => same_from now (cells s') (cells s) ∧ refused_append lk n now (cells s)
  | Err _ => same_from now (cells s') (cells s)
  end.
Proof.
  intros Hw Hv [Ht Hlogs Hrec] Hlk Hx E. pose proof (ss_run_valid (ender_append lk n entry v) now s Hv) as Hv'.
  rewrite E in Hv'. cbn in Hv'. split; [done|]. destruct r as [b|e]; [|by eapply ss_raise_same].
  destruct (ss_run_ok _ _ _ _ _ Hv E) as [(r & Hr & ->) Hs]. unfold ender_append in Hs. cbn [effect] in Hs.
  destruct (log_tidy ttl now (cells s) lk Ht Hlk) as (es & Hl & Ho & _).
  unfold Spec.append_and_set in Hr, Hs. cbn [andb] in Hr, Hs.
  destruct (decide (live now (cells s K) = None)) as [Hg|Hg];
    [rewrite bool_decide_true in Hr, Hs by done; injection Hr as <-; rewrite bool_decide_false by (by intros []); split; [done|by left]|].
  rewrite bool_decide_false in Hr, Hs by done.
  destruct (reached_append lk n now (cells s) es entry Hl Ho Hx) as [[Hre Ha]|(Hre & Hio & Ha)]; rewrite Ha in Hr, Hs; injection Hr as <-.
  { rewrite bool_decide_false by (by intros []). split; [done|by right]. }
  rewrite bool_decide_true by done. set (m' := Spec.set K v ttl now _) in *.
  destruct (window now Hw) as [_ Hwin].
  assert (allowed ttl _ (ender_append lk n entry v)) as Hop by (split_and!; [done|apply key_not_log|done|done]).
  assert (effect (ender_append lk n entry v) now (cells s) = m') as Heff.
  { unfold ender_append. cbn [effect]. unfold Spec.append_and_set. cbn [andb]. by rewrite bool_decide_false, Ha. }
  destruct (allowed_effect ttl _ now (cells s) Hop ttl_positive Ht) as [Ht' Hgr]. rewrite Heff in Ht', Hgr.
  pose proof (logs_last_effect _ now (cells s) Hwin Hop Hlogs) as Hlogs'. rewrite Heff in Hlogs'.
  assert (Spec.log lk now m' = log_of (es ++ [(n, entry)]) ∧ Spec.get K now m' = Some v) as [Hl' Hk'].
  { assert (in_time ttl now now) as Hin by (intros T' HT; specialize (ttl_positive T' HT); lia).
    subst m'. unfold Spec.log, Spec.get, Spec.set, Spec.upd.
    rewrite (decide_False (P := lk = K)) by (intros ->; by apply (key_not_log i rid)).
    rewrite !decide_True, !(live_set ttl ttl_positive) by done. done. }
  symmetry in Hs. split_and!; [done|done|by eapply tidy_same| | | | |].
  - intros k v' e Hk. rewrite <-(same_from_now _ _ _ k Hs). by apply Hlogs'.
  - eapply grown_stays; [done|eapply grown_trans; [exact Hgr|by eapply grown_same]|done].
  - by rewrite <-(Spec_get_proper K now _ _ Hs).
  - exists (es ++ [(n, entry)]), n. rewrite <-(Spec_log_proper lk now _ _ Hs).
    split_and!; [done|rewrite fmap_app; set_solver|lia].
  - rewrite <-(Spec_read_range_proper lk n (Some n) now _ _ Hs). unfold Spec.read_range.
    rewrite Hl', read_after_append by (done || lia). by rewrite filter_below.
Qed.

(** What a step leaves, whatever its caller. *)
Record stepped now s s' : Prop := {
  stepped_valid : ss_valid s';
  stepped_world : world now (cells s');
  stepped_stays : stays now (cells s) now (cells s');
  stepped_moves : record_moves now (cells s) now (cells s')
}.

Lemma op_stepped {B} (op : store_op B) now s s' r :
  in_window now → ss_valid s → world now (cells s) → allowed ttl B op → leaves K B op →
  ss_run op now s = (s', r) → stepped now s s'.
Proof.
  intros Hw Hv Hwo Hop Hl E. destruct (op_world op now s s' r Hw Hv Hwo Hop Hl E) as (? & ? & ? & ?). by split.
Qed.

Lemma same_stepped now s s' :
  ss_valid s' → same_from now (cells s') (cells s) → world now (cells s) → stepped now s s'.
Proof. intros Hv Hs Hw. destruct (world_same now _ _ Hs Hw) as (? & ? & ?). by split. Qed.

Context (pending0 : pending d0).

(** A turn that was stored, over a record that had not ended. *)
Lemma stored_stepped x l n now s s' :
  ss_valid s' → world now (cells s) →
  ¬ gone i rid now (cells s) → ¬ settled i rid d0 now (cells s) →
  tidy ttl now (cells s') → logs_last now stop (cells s') → stays now (cells s) now (cells s') →
  Spec.get K now (cells s') = Some (turn_record x l n) → settled i rid d0 now (cells s') →
  stepped now s s'.
Proof.
  intros Hv [Ht Hl Hr] Hg Hset Ht' Hl' Hst Hk Hset'. split; [done| |done|].
  - split; [done..|]. right; right. by exists x, l, n.
  - split; [done|]. intros f Hf Hne. destruct Hr as [?|[Hd|(? & ? & ? & _ & ?)]]; [done| |done].
    by rewrite Hf in Hd; injection Hd as ->.
Qed.

Lemma own_append_step x now s s' r :
  in_window now → ss_valid s → world now (cells s) →
  match parent0 d0 with
  | None => True
  | Some p => gone i rid now (cells s) ∨ reached (log_key i (pos_log p)) (pos_depth p + 1) now (cells s) ∧ ¬ claimed i rid p now (cells s)
  end →
  run (own_append ttl i rid d0 x) now s = (s', r) → stepped now s s'.
Proof.
  intros Hw Hv Hworld Hpt. unfold own_append, append_turn. destruct (parent0 d0) as [p|] eqn:Ep; rewrite run_call; intros E.
  - assert (consistent p) as Hcon by by eapply position_consistent.
    destruct (append_step _ _ _ _ _ _ _ _ Hw Hv Hworld (log_is_log i rid) (turn_entry_based rid x (input0 d0) p Hcon) E) as [Hv' Hr].
    destruct r as [[]|e]; [|by apply same_stepped; [..|done]; destruct Hr|by apply same_stepped].
    destruct Hr as (Hg & Hre & Ht & Hl & Hst & Hk & Hre' & _). destruct Hpt as [?|[Hp Hc]]; [done|].
    eapply stored_stepped; try done; unfold settled; rewrite Ep.
    + intros [_ [?|?]]; done.
    + split; [by apply (stays_reached _ _ _ _ Hst); [apply log_is_log|]|by right].
  - destruct (append_step _ _ _ _ _ _ _ _ Hw Hv Hworld (log_is_log i rid) (turn_entry_base rid x (input0 d0) 1) E) as [Hv' Hr].
    destruct r as [[]|e]; [|by apply same_stepped; [..|done]; destruct Hr|by apply same_stepped].
    destruct Hr as (Hg & Hre & Ht & Hl & Hst & Hk & Hre' & _).
    eapply stored_stepped; try done; unfold settled; by rewrite Ep.
Qed.

Lemma after_refusal_eq x p :
  parent0 d0 = Some p →
  after_refusal ttl i rid d0 x p =
    (taken ← call (OReadRange (log_key i (pos_log p)) (pos_depth p + 1) (Some (pos_depth p + 1)));
     if is_this_turn rid taken then mret tt
     else _ ← append_turn ttl i rid x rid (pos_depth p + 1)
            (Dict.set "base" (JObj (raw_position p)) (turn_entry rid x (input0 d0))) true; mret tt).
Proof. intros Hp. unfold after_refusal, own_append. by rewrite Hp. Qed.

Lemma pending_input d : pending d → ∃ l, Dict.get "input" d = Some (JList l).
Proof.
  intros (Hwf & Hlog & _ & _). unfold well_formed in Hwf. unfold Dict.mem in Hlog.
  destruct (Dict.get "response" d) as [[| | | | | |r]|]; try done. apply orb_true_iff in Hwf as [Hp%bool_decide_eq_true|Hwf].
  - unfold position_of in Hp. destruct (Dict.get "log" d); [done|]. by destruct Hp.
  - destruct (Dict.get "input" d) as [[]|]; try done. by eexists.
Qed.

Lemma pending_continues d x :
  pending d →
  (parent ← pure (item "parent" d); input ← pure (item "input" d); input ← pure (iter input);
   store_turn ttl i rid x (position_of parent) input true) =
  store_turn ttl i rid x (parent0 d) (input0 d) true.
Proof.
  intros Hd. destruct (pending_input d Hd) as [l Hl]. destruct Hd as (_ & _ & _ & [v Hv]).
  unfold item, parent0, input0. by rewrite Hl, Hv.
Qed.

(** A step of an ender. *)
Lemma ender_step p now s :
  in_window now → ss_valid s → world now (cells s) → at_point ttl i rid d0 now (cells s) p →
  stepped now s (resume p now s).1 ∧ at_point ttl i rid d0 now (cells (resume p now s).1) (resume p now s).2.
Proof.
  intros Hw Hv Hworld Hp. destruct Hp as [x|x|x p Hp Hpt|x p Hp Hpt| |e].
  - unfold write_terminal_if_not_terminal, read_record. cbn.
    destruct (ss_run (OGet K) now s) as [s' r] eqn:E. cbn.
    pose proof (op_stepped (OGet K) now s s' r Hw Hv Hworld I I E) as Hst. split; [done|].
    destruct r as [r|e]; [|constructor]. apply op_get_ok in E as (_ & -> & _); [|done].
    destruct Hworld as [_ _ [Hg|[Hd|(y & l & n & Hf & _)]]].
    + apply gone_get in Hg. rewrite Hg. constructor.
    + rewrite Hd. destruct pending0 as (Hwf & Hlog & Hend & Hpar). rewrite Hwf. cbn. rewrite Hlog, Hend. cbn.
      rewrite pending_continues by done. constructor.
    + rewrite Hf. cbn. constructor.
  - unfold store_turn. destruct (parent0 d0) as [p|] eqn:Ep.
    + cbn -[turn_entry turn_record].
      destruct (ss_run _ now s) as [s' r] eqn:E. cbn [fst snd].
      destruct (append_step _ _ _ _ _ _ _ _ Hw Hv Hworld (log_is_log i (pos_log p)) (turn_entry_base rid x (input0 d0) _) E) as [Hv' Hr].
      destruct r as [[]|e].
      * destruct Hr as (Hg & Hre & Ht & Hl & Hst & Hk & Hre' & Hread). split; [|constructor].
        eapply stored_stepped; try done; unfold settled; rewrite Ep; [by intros [? _]|]. split; [done|]. left.
        exists [JObj (turn_entry rid x (input0 d0))]. split; [done|]. change (Json.eqb (JStr rid) (JStr rid) = true). by apply Json.eqb_refl.
      * destruct Hr as [Hs Hr]. pose proof (same_stepped now s s' Hv' Hs Hworld) as Hst. split; [done|].
        pose proof (at_refused ttl i rid d0 now (cells s') x p Ep) as HA. rewrite after_refusal_eq in HA by done. apply HA.
        destruct Hr as [Hg|Hre]; [left; by apply Hst|right]. by apply (stays_reached _ _ _ _ (stepped_stays _ _ _ Hst)); [apply log_is_log|].
      * split; [by apply same_stepped|constructor].
    + assert (stepped now s (run (own_append ttl i rid d0 x) now s).1) as Hst.
      { destruct (run (own_append ttl i rid d0 x) now s) as [s' r] eqn:E. eapply own_append_step; [done..| |exact E]. by rewrite Ep. }
      revert Hst. unfold own_append, append_turn. rewrite Ep, run_call. cbn -[turn_entry turn_record].
      destruct (ss_run _ now s) as [s' [b|e]]; cbn; intros Hst; (split; [done|constructor]).
  - unfold after_refusal. cbn -[own_append].
    destruct (ss_run _ now s) as [s' r] eqn:E. cbn [fst snd].
    pose proof (op_stepped (OReadRange (log_key i (pos_log p)) (pos_depth p + 1) (Some (pos_depth p + 1))) now s s' r
      Hw Hv Hworld I I E) as Hst. split; [done|].
    destruct r as [raw|e]; [|constructor]. destruct (is_this_turn rid raw) eqn:Et; [constructor|].
    apply (at_fork _ _ _ _ _ _ x p Hp). destruct Hpt as [Hg|Hre]; [left; by apply Hst|right].
    split; [by apply (stays_reached _ _ _ _ (stepped_stays _ _ _ Hst)); [apply log_is_log|]|].
    rewrite <-(claimed_stays now (cells s)) by (done || apply Hst).
    apply op_write_ok in E as (_ & Hraw & _); [|done]. cbn [result] in Hraw. intros (raw' & Hr' & Ht').
    rewrite Hraw in Hr'. injection Hr' as <-. congruence.
  - assert (stepped now s (run (own_append ttl i rid d0 x) now s).1) as Hst.
    { destruct (run (own_append ttl i rid d0 x) now s) as [s' r] eqn:E. eapply own_append_step; [done..| |exact E]. by rewrite Hp. }
    revert Hst. unfold own_append, append_turn. rewrite Hp, run_call. cbn -[turn_entry turn_record].
    destruct (ss_run _ now s) as [s' [b|e]]; cbn; intros Hst; (split; [done|constructor]).
  - cbn. split; [|constructor]. by apply same_stepped.
  - cbn. split; [|constructor]. by apply same_stepped.
Qed.


(** *** Runs *)

(** A caller between its steps: an ender, or one that leaves the record. *)
Definition ready (now : Z) (m : content) (p : prog unit) : Prop :=
  at_point ttl i rid d0 now m p ∨ (issues (allowed ttl) p ∧ issues (leaves K) p).

Lemma ready_stays now m now' m' p : stays now m now' m' → ready now m p → ready now' m' p.
Proof. intros Hs [Hp|Hp]; [left; by eapply at_point_stays|by right]. Qed.

Lemma ready_step p now s :
  in_window now → ss_valid s → world now (cells s) → ready now (cells s) p →
  stepped now s (resume p now s).1 ∧ ready now (cells (resume p now s).1) (resume p now s).2.
Proof.
  intros Hw Hv Hworld [Hp|[Ha Hl]].
  - destruct (ender_step p now s Hw Hv Hworld Hp). split; [done|by left].
  - split; [|right; split; by apply resume_issues]. destruct p as [a|e|B op k]; cbn; [by apply same_stepped..|].
    destruct Ha as [Ha _], Hl as [Hl _]. destruct (ss_run op now s) as [s' r] eqn:E. by eapply op_stepped.
Qed.

Lemma time_passes now now' s :
  ss_valid s → world now (cells s) → now ≤ now' ≤ stop →
  world now' (cells s) ∧ stays now (cells s) now' (cells s) ∧ record_moves now (cells s) now' (cells s).
Proof.
  intros Hv [Ht Hl Hr] Hn. pose proof (time_stays now now' _ Hl Hn) as Hs.
  assert (gone i rid now' (cells s) ∨ Spec.get K now' (cells s) = Spec.get K now (cells s)) as HK.
  { destruct (Spec.get K now' (cells s)) as [f|] eqn:E; [|left; by apply gone_get].
    right. symmetry. eapply get_later; [|done]. lia. }
  split_and!; [|done|by apply same_moves].
  split; [eapply tidy_mono; [|done]; lia|eapply logs_last_mono; [|done]; lia|by eapply record_state_stays].
Qed.

Lemma interleave_world sched from to ps s :
  (∀ now, from ≤ now ≤ to → in_window now) → clocked from sched to →
  ss_valid s → world from (cells s) → Forall (ready from (cells s)) ps →
  let c := interleave sched (ps, s) in
  ss_valid c.2 ∧ world to (cells c.2) ∧ Forall (ready to (cells c.2)) c.1 ∧ record_moves from (cells s) to (cells c.2).
Proof.
  revert from ps s. induction sched as [|[j now] sched IH]; intros from ps s Hwin Hc Hv Hw Hps.
  { cbn in Hc |- *. destruct (window to) as [Hto _]; [apply Hwin; lia|].
    destruct (time_passes from to s Hv Hw ltac:(lia)) as (? & Hs & ?).
    split_and!; [done..| |done]. eapply Forall_impl; [exact Hps|]. intros p. by apply ready_stays. }
  destruct Hc as [Hfrom Hc]. pose proof (clocked_le _ _ _ Hc) as Hto.
  destruct (window now) as [Hnow _]; [apply Hwin; lia|].
  destruct (time_passes from now s Hv Hw ltac:(lia)) as (Hw1 & Hs1 & Hm1).
  assert (Forall (ready now (cells s)) ps) as Hps1 by (eapply Forall_impl; [exact Hps|]; intros p; by apply ready_stays).
  cbn zeta. change (interleave ((j, now) :: sched) (ps, s)) with (interleave sched (turn_of (ps, s) (j, now))).
  unfold turn_of. cbn [fst snd]. destruct (ps !! j) as [p|] eqn:Ej.
  - assert (ready now (cells s) p) as Hp by (rewrite Forall_forall in Hps1; by eapply Hps1, list_elem_of_lookup_2).
    destruct (ready_step p now s) as [[Hv2 Hw2 Hs2 Hm2] Hp2]; [apply Hwin; lia|done..|].
    destruct (resume p now s) as [s2 p2]. cbn [fst snd] in *.
    destruct (IH now (<[j:=p2]> ps) s2) as (Hv3 & Hw3 & Hps3 & Hm3); [intros n Hn; apply Hwin; lia|done..| |].
    { apply Forall_insert; [|done]. eapply Forall_impl; [exact Hps1|]. intros q. by apply ready_stays. }
    split_and!; [done..|]. eapply moves_trans; [exact Hm1|]. by eapply moves_trans.
  - destruct (IH now ps s) as (Hv3 & Hw3 & Hps3 & Hm3); [intros n Hn; apply Hwin; lia|done..|].
    split_and!; [done..|]. by eapply moves_trans.
Qed.
End store.
End facts.
End TerminalFacts.

(** ** Theorems *)

Module TerminalProperties.
Import TerminalFacts.

(** C4: A background response ends once, and never comes back, for as long as its record cannot
    expire: over a store with atomic calls, from a moment its record is pending and up to less than
    one time to live later. The logs are as this module leaves them ([tidy]) and none of them runs
    out in that time ([logs_last]). The callers, whose store calls interleave in any way, are any
    number of writers that end the response and any other operations of the module, deletes
    included, except those that store that very record again ([bystander]). Then its record is as
    it was, or a finished turn's, or gone; a finished turn's record never changes again, and a record
    that is gone (deleted, say, while a writer was about to end it) stays gone. *)
Theorem one_terminal_state `{StateStoreAtomic T} py_format ttl i rid d0 callers (s0 : T) t0 before t1 after t2 :
  (∀ t, ttl = Some t → t2 < t0 + t) → ss_valid s0 → tidy ttl t0 (cells s0) → logs_last t0 t2 (cells s0) →
  pending d0 → Spec.get (key i rid) t0 (cells s0) = Some (JObj d0) →
  Forall (λ p, ender ttl i rid p ∨ bystander ttl i rid py_format p) callers →
  clocked t0 before t1 → clocked t1 after t2 →
  let c1 := interleave before (callers, s0) in let c2 := interleave after c1 in
  let record1 := Spec.get (key i rid) t1 (cells c1.2) in let record2 := Spec.get (key i rid) t2 (cells c2.2) in
  (record1 = None → record2 = None) ∧
  ∀ f, record1 = Some f → f ≠ JObj d0 →
    (∃ x log depth, f = turn_record x log depth) ∧ (record2 = None ∨ record2 = Some f).
Proof.
  intros Httl Hv Ht Hl Hd Hget Hcs Hc1 Hc2 c1 c2 record1 record2.
  pose proof (clocked_le _ _ _ Hc1) as H01. pose proof (clocked_le _ _ _ Hc2) as H12.
  assert (∀ t, ttl = Some t → 0 < t) as Hpos by (intros t Et; specialize (Httl t Et); lia).
  assert (∀ now, t0 ≤ now ≤ t2 → now ≤ t2 ∧ ∀ t, ttl = Some t → t2 < now + t) as Hwin.
  { intros now Hn. split; [lia|]. intros t Et. specialize (Httl t Et). lia. }
  destruct (interleave_world ttl i rid d0 t2 Hpos (λ now, t0 ≤ now ≤ t2) Hwin Hd before t0 t1 callers s0)
    as (Hv1 & Hw1 & Hps1 & _); [lia|done|done|split; [done|done|by right; left]| |].
  { eapply Forall_impl; [exact Hcs|]. intros p [[x ->]|[Hp Hk]]; [left; constructor|right].
    split; [by eapply caller_ok|done]. }
  fold c1 in Hv1, Hw1, Hps1.
  destruct (interleave_world ttl i rid d0 t2 Hpos (λ now, t0 ≤ now ≤ t2) Hwin Hd after t1 t2 c1.1 c1.2)
    as (_ & _ & _ & Hg & Hf); [lia|done|done|done|done|].
  replace (interleave after (c1.1, c1.2)) with c2 in * by (by destruct c1).
  unfold record1, record2 in *. rewrite !gone_get in Hg. split; [done|]. intros f E Hne. split.
  - destruct (world_record _ _ _ _ _ _ _ Hw1) as [Hg1|[Hg1|(x & l & n & Hg1 & _)]].
    + apply gone_get in Hg1. congruence.
    + rewrite E in Hg1. by injection Hg1.
    + rewrite E in Hg1. injection Hg1 as ->. eauto.
  - destruct (Hf f E Hne) as [Hg2|Hg2]; [left; by apply gone_get in Hg2|by right].
Qed.

(** A completion and a cancel that both read the queued record before either stores its end, and a
    deletion after them. *)
Definition example_pending : dict json :=
  [("response", JObj [("status", JStr "queued")]); ("parent", JNull); ("input", JList [])]%string.
Definition example_store : Actor.t := Actor.set (key "ann" "r1") (JObj example_pending) None 0 (Actor.init 0 10).
Definition example_end (status : string) : dict json := [("status", JStr status); ("output", JList [])]%string.
Definition example_enders : list (prog unit) :=
  [write_terminal_if_not_terminal None "ann" "r1" (example_end "completed");
   write_terminal_if_not_terminal None "ann" "r1" (example_end "cancelled");
   (_ ← delete "ann" "r1"; mret tt)]%string.

Lemma example_store_cells k : cells example_store k = if decide (k = key "ann" "r1") then Some (JObj example_pending, None) else None.
Proof. change (Dict.get k [(key "ann" "r1", (JObj example_pending, @None Z))] = if decide (k = key "ann" "r1") then Some (JObj example_pending, None) else None). cbn [Dict.get]. by case_decide. Qed.

Lemma one_terminal_state_witness :
  let c1 := interleave [(0%nat, 1); (1%nat, 2); (0%nat, 3)] (example_enders, example_store) in
  let c2 := interleave [(1%nat, 4); (2%nat, 5)] c1 in
  Spec.get (key "ann" "r1") 3 (cells c1.2) = Some (turn_record (example_end "completed") "r1" 1) ∧
  (Spec.get (key "ann" "r1") 4 (cells (interleave [(1%nat, 4)] c1).2) = Some (turn_record (example_end "completed") "r1" 1)) ∧
  (Spec.get (key "ann" "r1") 6 (cells c2.2) = None ∨
   Spec.get (key "ann" "r1") 6 (cells c2.2) = Some (turn_record (example_end "completed") "r1" 1)).
Proof.
  intros c1 c2.
  destruct (one_terminal_state ConversationProperties.no_format None "ann" "r1" example_pending example_enders example_store 0
    [(0%nat, 1); (1%nat, 2); (0%nat, 3)] 3 [(1%nat, 4); (2%nat, 5)] 6) as [_ Hf].
  - done.
  - repeat constructor. apply not_elem_of_nil.
  - intros k v e Hk. rewrite example_store_cells. case_decide; [subst k; by apply key_not_log in Hk|done].
  - intros k v e Hk. rewrite example_store_cells. case_decide; [subst k; by apply key_not_log in Hk|done].
  - repeat split; vm_compute; eauto.
  - vm_compute. reflexivity.
  - constructor; [left; by eexists|]. constructor; [left; by eexists|]. constructor; [|constructor]. right. split.
    + eexists _, _, _. split; [|reflexivity]. apply op_delete.
    + by repeat split.
  - vm_compute. intuition discriminate.
  - vm_compute. intuition discriminate.
  - split; [vm_compute; reflexivity|]. split; [vm_compute; reflexivity|].
    destruct (Hf (turn_record (example_end "completed") "r1" 1)) as [_ H]; [vm_compute; reflexivity|discriminate|exact H].
Defined.
End TerminalProperties.
