(* ===== verification/McpPolicy.v ===== *)
(** * MCP tool policy

    [src/modelship/openai/mcp/spec.py]: an [mcp] tool of a request as a typed spec, which of its
    server's tools it allows, which of them need an approval, and the names two servers may not
    share. Reading a spec's fields is pydantic's. *)

From S2P Require Import Prelude Errors ResponsesState.
Local Open Scope Z_scope.

(** ** Data *)

(** [McpListToolsTool] of [protocol/responses/schemas.py] *)
Record Tool : Type := mkTool {
  t_name : string;
  input_schema : dict json;
  annotations : option (dict json);
  description : option string;
}.

Record McpToolSpec : Type := mkSpec {
  server_label : string;
  server_url : string;
  headers : option (dict string);
  authorization : option string;
  allowed_tools : json;
  require_approval : json;
}.

(** What the module uses of pydantic and of [repr]. [read_spec] is [McpToolSpec(...)] with the
    error's text for a refused one; a field of type [str] takes strings only, one of type [Any]
    anything. *)
Class SpecReader : Type := {
  py_repr : json → string;
  read_spec : ∀ label url headers authorization allowed approval : json, string + McpToolSpec;
  read_spec_ok : ∀ label url h a allowed approval spec,
    read_spec label url h a allowed approval = inr spec →
    label = JStr (server_label spec) ∧ url = JStr (server_url spec) ∧
    allowed_tools spec = allowed ∧ require_approval spec = approval;
}.

(** [d.get(k)] *)
Definition field (k : string) (d : dict json) : json := default JNull (Dict.get k d).

Definition type_is (ty : string) (d : dict json) : bool := Json.eqb (field "type" d) (JStr ty).

(** [_mcp_error]: a 400 on [tools] *)
Definition mcp_error (msg : string) : exn := api_error msg "invalid_request_error" 400 (Some "tools"%string) None.

(** [bool(annotations.get("readOnlyHint") or annotations.get("read_only_hint"))] *)
Definition read_only (t : Tool) : bool :=
  let a := default [] (annotations t) in
  Json.truthy (py_or (field "readOnlyHint" a) (field "read_only_hint" a)).

Section policy.
Context `{SpecReader}.

Definition for_server (spec : McpToolSpec) : string :=
  " for server " +:+ py_repr (JStr (server_label spec)) +:+ ".".

(** [_tool_names] *)
Definition tool_names (value : json) (spec : McpToolSpec) (where_ : string) : res (list string) :=
  let bad := Err (mcp_error ("'" +:+ where_ +:+ "' must be a list of strings" +:+ for_server spec)) in
  match value with
  | JList l =>
      match mapM (λ v, if v is JStr s then Some s else None) l with Some names => Ok names | None => bad end
  | _ => bad
  end.

(** [_require_bool] *)
Definition require_bool (value : json) (spec : McpToolSpec) (where_ : string) : res unit :=
  match value with
  | JBool _ => Ok tt
  | _ => Err (mcp_error ("'" +:+ where_ +:+ "' must be a boolean" +:+ for_server spec))
  end.

Definition named (names : list string) (ts : list Tool) : list Tool := filter (λ t, t_name t ∈ names) ts.

(** [filter_tools] *)
Definition filter_tools (spec : McpToolSpec) (tools : list Tool) : res (list Tool) :=
  match allowed_tools spec with
  | JNull => Ok tools
  | JList l => names ← tool_names (JList l) spec "allowed_tools"; Ok (named names tools)
  | JObj d =>
      let names := field "tool_names" d in
      out ← (if names is JNull then Ok tools
             else ns ← tool_names names spec "allowed_tools.tool_names"; Ok (named ns tools));
      Ok (if Json.truthy (field "read_only" d) then filter read_only out else out)
  | _ => Err (mcp_error ("unsupported 'allowed_tools' shape" +:+ for_server spec))
  end.

Definition approval_shape (spec : McpToolSpec) : exn :=
  mcp_error ("unsupported 'require_approval' shape" +:+ for_server spec).

(** [name in names], where the names are read only when they are there. *)
Definition names_tool (names : json) (name : string) (spec : McpToolSpec) (where_ : string) : res bool :=
  if names is JNull then Ok false else ns ← tool_names names spec where_; Ok (bool_decide (name ∈ ns)).

(** [requires_approval] *)
Definition requires_approval (spec : McpToolSpec) (tool : Tool) : res bool :=
  match require_approval spec with
  | JNull => Ok true
  | JStr s =>
      if decide (s = "always"%string) then Ok true
      else if decide (s = "never"%string) then Ok false
      else Err (approval_shape spec)
  | JObj d =>
      match py_or (field "never" d) (JObj []), py_or (field "always" d) (JObj []) with
      | JObj never, JObj always =>
          off ← names_tool (field "tool_names" never) (t_name tool) spec "require_approval.never.tool_names";
          if (off : bool) then Ok false
          else
            on ← names_tool (field "tool_names" always) (t_name tool) spec "require_approval.always.tool_names";
            if (on : bool) then Ok true
            else if Json.truthy (field "read_only" never) && read_only tool then Ok false
            else Ok true
      | _, _ => Err (approval_shape spec)
      end
  | _ => Err (approval_shape spec)
  end.

(** One of the two buckets in [_validate_policy_shapes]. *)
Definition validate_bucket (spec : McpToolSpec) (approval : dict json) (key : string) : res unit :=
  match Dict.get key approval with
  | None => Ok tt
  | Some (JObj bucket) =>
      match Dict.get "read_only" bucket with
      | Some v => require_bool v spec ("require_approval." +:+ key +:+ ".read_only")
      | None => Ok tt
      end
  | Some _ => Err (mcp_error ("'require_approval." +:+ key +:+ "' must be an object" +:+ for_server spec))
  end.

(** The tool the checks are tried on. *)
Definition nameless_tool : Tool := mkTool "" [] None None.

(** [_validate_policy_shapes] *)
Definition validate_policy_shapes (spec : McpToolSpec) : res unit :=
  _ ← (if allowed_tools spec is JObj d then
         match Dict.get "read_only" d with
         | Some v => require_bool v spec "allowed_tools.read_only"
         | None => Ok tt
         end
       else Ok tt);
  _ ← (if require_approval spec is JObj d then
         _ ← validate_bucket spec d "never"; validate_bucket spec d "always"
       else Ok tt);
  _ ← filter_tools spec [];
  _ ← requires_approval spec nameless_tool;
  Ok tt.

(** One [mcp] tool in [split_mcp_tools]: its spec. *)
Definition parse_mcp_tool (seen_labels : list json) (tool : dict json) : res McpToolSpec :=
  let label := field "server_label" tool in
  _ ← raise_if (Json.truthy (field "connector_id" tool))
        (mcp_error "OpenAI-hosted MCP connectors ('connector_id') are not supported; supply 'server_url'.");
  _ ← raise_if (negb (Json.truthy (field "server_url" tool)))
        (mcp_error "mcp tool requires a non-empty 'server_url'.");
  _ ← raise_if (negb (Json.truthy label)) (mcp_error "mcp tool requires a non-empty 'server_label'.");
  label ← hashable label;
  _ ← raise_if (existsb (Json.eqb label) seen_labels)
        (mcp_error ("duplicate mcp server_label " +:+ py_repr label +:+ "."));
  match read_spec label (field "server_url" tool) (field "headers" tool) (field "authorization" tool)
          (field "allowed_tools" tool) (field "require_approval" tool) with
  | inl why => Err (mcp_error ("invalid mcp tool " +:+ py_repr label +:+ ": " +:+ why))
  | inr spec => _ ← validate_policy_shapes spec; Ok spec
  end.

(** [split_mcp_tools] *)
Fixpoint split_from (seen_labels : list json) (tools : list (dict json))
    : res (list McpToolSpec * list (dict json)) :=
  match tools with
  | [] => Ok ([], [])
  | tool :: tools =>
      if type_is "mcp" tool then
        spec ← parse_mcp_tool seen_labels tool;
        r ← split_from (field "server_label" tool :: seen_labels) tools;
        Ok (spec :: r.1, r.2)
      else r ← split_from seen_labels tools; Ok (r.1, tool :: r.2)
  end.

Definition split_mcp_tools (tools : option (list (dict json))) : res (list McpToolSpec * list (dict json)) :=
  split_from [] (default [] tools).

(** [check_collisions]: the client's function names, and the server each name seen so far is from *)
Definition client_names (client_tools : list (dict json)) : res (list json) :=
  res_mapM hashable
    (field "name" <$> filter (λ t, type_is "function" t && Json.truthy (field "name" t)) client_tools).

Definition check_tool (names : list json) (spec : McpToolSpec) (seen : dict string) (t : Tool) : res (dict string) :=
  let label := server_label spec in
  _ ← raise_if (existsb (Json.eqb (JStr (t_name t))) names)
        (mcp_error ("tool name " +:+ py_repr (JStr (t_name t)) +:+ " from server " +:+ py_repr (JStr label)
           +:+ " collides with a client tool."));
  _ ← match Dict.get (t_name t) seen with
      | Some owner =>
          raise_if (negb (bool_decide (owner = label)))
            (mcp_error ("tool name " +:+ py_repr (JStr (t_name t)) +:+ " is exposed by both "
               +:+ py_repr (JStr owner) +:+ " and " +:+ py_repr (JStr label) +:+ "."))
      | None => Ok tt
      end;
  Ok (Dict.set (t_name t) label seen).

Fixpoint check_tools (names : list json) (spec : McpToolSpec) (seen : dict string) (ts : list Tool) : res (dict string) :=
  match ts with
  | [] => Ok seen
  | t :: ts => seen ← check_tool names spec seen t; check_tools names spec seen ts
  end.

Fixpoint check_specs (names : list json) (discovered : dict (list Tool)) (seen : dict string)
    (specs : list McpToolSpec) : res (dict string) :=
  match specs with
  | [] => Ok seen
  | spec :: specs =>
      seen ← check_tools names spec seen (default [] (Dict.get (server_label spec) discovered));
      check_specs names discovered seen specs
  end.

Definition check_collisions (specs : list McpToolSpec) (discovered : dict (list Tool))
    (client_tools : list (dict json)) : res unit :=
  names ← client_names client_tools;
  _ ← check_specs names discovered [] specs;
  Ok tt.
End policy.

(** ** Facts *)

Module PolicyFacts.
Section facts.
Context `{SpecReader}.
Implicit Types (spec : McpToolSpec) (ts : list Tool).

Lemma tool_names_elem l spec w ns n :
  tool_names (JList l) spec w = Ok ns → n ∈ ns → existsb (Json.eqb (JStr n)) l = true.
Proof.
  unfold tool_names. destruct (mapM _ l) as [ns'|] eqn:E; [|done]. intros [= ->] Hn.
  apply mapM_Some in E. induction E as [|v m l ns Hv _ IH]; [by apply not_elem_of_nil in Hn|].
  destruct v; try done. injection Hv as ->. cbn [existsb].
  change (Json.eqb (JStr n) (JStr m)) with (bool_decide (n = m)).
  apply elem_of_cons in Hn as [->|Hn].
  - by rewrite bool_decide_eq_true_2.
  - rewrite IH by done. apply orb_true_r.
Qed.

Lemma named_sub ns ts : named ns ts ⊆ ts.
Proof. intros t Ht. by apply list_elem_of_filter in Ht as [_ ?]. Qed.

(** Neither answer's shape depends on the tools it is asked for. *)
Lemma filter_tools_any spec ts ts' r :
  filter_tools spec ts = Ok r → ∃ r', filter_tools spec ts' = Ok r' ∧ r' ⊆ ts'.
Proof.
  unfold filter_tools. destruct (allowed_tools spec) as [| | | | |l|d]; try done.
  - intros _. by exists ts'.
  - destruct (tool_names _ _ _) as [ns|]; [|done]. intros _. eexists. split; [done|]. apply named_sub.
  - intros Hr.
    assert (∃ out, (if field "tool_names" d is JNull then Ok ts'
      else ns ← tool_names (field "tool_names" d) spec "allowed_tools.tool_names"; Ok (named ns ts')) = Ok out
      ∧ out ⊆ ts') as (out & -> & Hout).
    { destruct (field "tool_names" d); [by exists ts'| | | | |..];
        (destruct (tool_names _ _ _) as [ns|]; [|done]; eexists; split; [done|apply named_sub]). }
    cbn. eexists. split; [done|]. destruct (Json.truthy _); [|done].
    intros t [_ Ht]%list_elem_of_filter. auto.
Qed.

(** The empty name is one that [require_approval] never asks an approval for. *)
Definition excuses_nameless (spec : McpToolSpec) : bool :=
  match require_approval spec with
  | JObj d => match field "never" d with
              | JObj never => if field "tool_names" never is JList l then existsb (Json.eqb (JStr "")) l else false
              | _ => false
              end
  | _ => false
  end.

Lemma names_tool_any v n n' spec w b : names_tool v n spec w = Ok b → ∃ b', names_tool v n' spec w = Ok b'.
Proof. unfold names_tool. destruct v; [eauto|..]; destruct (tool_names _ _ _); cbn; eauto; done. Qed.

Lemma names_tool_nameless l spec w :
  names_tool l "" spec w = Ok true → ∃ l', l = JList l' ∧ existsb (Json.eqb (JStr "")) l' = true.
Proof.
  unfold names_tool. destruct l as [| | | | |l|]; try done. destruct (tool_names _ _ _) as [ns|] eqn:E; [|done].
  cbn. intros [= Hn%bool_decide_eq_true]. exists l. split; [done|]. by eapply tool_names_elem.
Qed.

Lemma requires_approval_any spec b :
  requires_approval spec nameless_tool = Ok b → excuses_nameless spec = false →
  ∀ tool, ∃ b', requires_approval spec tool = Ok b'.
Proof.
  unfold requires_approval, excuses_nameless. destruct (require_approval spec) as [| | | |s| |d]; try done.
  - intros _ _ tool. by eexists.
  - intros Hb _ tool. repeat case_decide; eauto; done.
  - intros Hb He tool.
    destruct (py_or (field "never" d) (JObj [])) as [| | | | | |never] eqn:En; try done.
    destruct (py_or (field "always" d) (JObj [])) as [| | | | | |always]; try done.
    cbn [t_name nameless_tool] in Hb.
    destruct (names_tool (field "tool_names" never) "" _ _) as [off|] eqn:Eoff; [|done]. cbn in Hb.
    destruct (names_tool_any _ _ (t_name tool) _ _ _ Eoff) as [off' ->]. cbn.
    destruct off'; [by eexists|]. destruct off.
    + apply names_tool_nameless in Eoff as (l & El & Hl). exfalso.
      unfold py_or in En. destruct (Json.truthy (field "never" d)).
      * rewrite En, El in He. cbn in *. congruence.
      * injection En as <-. discriminate El.
    + destruct (names_tool (field "tool_names" always) "" _ _) as [on|] eqn:Eon; [|done].
      destruct (names_tool_any _ _ (t_name tool) _ _ _ Eon) as [on' ->]. cbn.
      destruct on'; [by eexists|]. repeat case_match; by eexists.
Qed.

Lemma validate_policy_ok spec :
  validate_policy_shapes spec = Ok tt →
  (∃ r, filter_tools spec [] = Ok r) ∧ (∃ b, requires_approval spec nameless_tool = Ok b).
Proof.
  unfold validate_policy_shapes. intros (? & _ & H1)%res_bind_ok. apply res_bind_ok in H1 as (? & _ & H1).
  apply res_bind_ok in H1 as (r & Hr & H1). apply res_bind_ok in H1 as (b & Hb & _). eauto.
Qed.

Lemma parse_mcp_tool_ok seen tool spec :
  parse_mcp_tool seen tool = Ok spec →
  field "server_label" tool = JStr (server_label spec) ∧
  existsb (Json.eqb (field "server_label" tool)) seen = false ∧ validate_policy_shapes spec = Ok tt.
Proof.
  unfold parse_mcp_tool. intros (? & _ & H1)%res_bind_ok. do 2 apply res_bind_ok in H1 as (? & _ & H1).
  apply res_bind_ok in H1 as (label & Hl & H1). apply res_bind_ok in H1 as (? & Hs%raise_if_ok & H1).
  assert (label = field "server_label" tool) as -> by (unfold hashable in Hl; destruct (field _ _); congruence).
  destruct (read_spec _ _ _ _ _ _) as [|spec'] eqn:Er; [done|].
  apply res_bind_ok in H1 as ([] & Hv & [= ->]). apply read_spec_ok in Er as (? & _). done.
Qed.

Lemma split_from_ok tools : ∀ seen specs other,
  split_from seen tools = Ok (specs, other) →
  other = filter (λ t, ¬ type_is "mcp" t) tools ∧
  NoDup (server_label <$> specs) ∧
  (∀ spec, spec ∈ specs → existsb (Json.eqb (JStr (server_label spec))) seen = false ∧
     validate_policy_shapes spec = Ok tt).
Proof.
  induction tools as [|tool tools IH]; cbn [split_from]; intros seen specs other.
  - intros [= <- <-]. split; [done|]. split; [constructor|]. intros ? []%not_elem_of_nil.
  - rewrite filter_cons. destruct (type_is "mcp" tool) eqn:Et.
    + intros (spec & Hp & H1)%res_bind_ok. apply res_bind_ok in H1 as ([specs' other'] & Hs & [= <- <-]).
      apply parse_mcp_tool_ok in Hp as (Hl & Hn & Hv). apply IH in Hs as (-> & Hnd & Hall).
      rewrite decide_False by (cbn; tauto). split; [done|]. split.
      * cbn. apply NoDup_cons. split; [|done]. intros (spec' & E & Hin)%list_elem_of_fmap.
        destruct (Hall _ Hin) as [Ho _]. cbn [existsb] in Ho. rewrite Hl in Ho. cbn in Ho.
        rewrite <-E, bool_decide_eq_true_2 in Ho by done. done.
      * intros spec' [->|Hin]%elem_of_cons; [by rewrite <-Hl|].
        destruct (Hall _ Hin) as [Ho ?]. split; [|done]. cbn [existsb] in Ho. by apply orb_false_iff in Ho as [_ ?].
    + intros ([specs' other'] & Hs & [= <- <-])%res_bind_ok. apply IH in Hs as (-> & ?).
      by rewrite decide_True by (cbn; tauto).
Qed.
End facts.
End PolicyFacts.

Module CollisionFacts.
Section facts.
Context `{SpecReader}.

Definition keeps (seen seen' : dict string) : Prop := ∀ n l, Dict.get n seen = Some l → Dict.get n seen' = Some l.

#[export] Instance keeps_preorder : PreOrder keeps.
Proof. split; [by intros ???|]. intros a b c Hab Hbc n l ?. by apply Hbc, Hab. Qed.

Lemma check_tool_ok names spec seen t seen' :
  check_tool names spec seen t = Ok seen' →
  existsb (Json.eqb (JStr (t_name t))) names = false ∧
  Dict.get (t_name t) seen' = Some (server_label spec) ∧ keeps seen seen'.
Proof.
  unfold check_tool. intros (? & Hn%raise_if_ok & H1)%res_bind_ok. apply res_bind_ok in H1 as (? & Ho & [= <-]).
  split; [done|]. rewrite Dict.get_set_eq. split; [done|]. intros n l Hl. rewrite Dict.get_set.
  case_decide as En; [subst n|done]. rewrite Hl in Ho. apply raise_if_ok, negb_false_iff, bool_decide_eq_true in Ho. by subst.
Qed.

Lemma check_tools_ok names spec ts : ∀ seen seen', check_tools names spec seen ts = Ok seen' →
  keeps seen seen' ∧ ∀ t, t ∈ ts → existsb (Json.eqb (JStr (t_name t))) names = false ∧
    Dict.get (t_name t) seen' = Some (server_label spec).
Proof.
  induction ts as [|t ts IH]; cbn [check_tools]; intros seen seen'.
  - intros [= <-]. split; [done|]. intros ? []%not_elem_of_nil.
  - intros (seen1 & Ht%check_tool_ok & Hts%IH)%res_bind_ok. destruct Ht as (Hn & Hg & Hk). destruct Hts as [Hk' Hall].
    split; [by etrans|]. intros t' [->|Hin]%elem_of_cons; auto.
Qed.

Lemma check_specs_ok names discovered specs : ∀ seen seen', check_specs names discovered seen specs = Ok seen' →
  keeps seen seen' ∧ ∀ spec t, spec ∈ specs → t ∈ default [] (Dict.get (server_label spec) discovered) →
    existsb (Json.eqb (JStr (t_name t))) names = false ∧ Dict.get (t_name t) seen' = Some (server_label spec).
Proof.
  induction specs as [|spec specs IH]; cbn [check_specs]; intros seen seen'.
  - intros [= <-]. split; [done|]. intros ?? []%not_elem_of_nil.
  - intros (seen1 & Ht%check_tools_ok & Hts%IH)%res_bind_ok. destruct Ht as (Hk & Hg). destruct Hts as [Hk' Hall].
    split; [by etrans|]. intros spec' t [->|Hin]%elem_of_cons Ht; [|auto]. destruct (Hg _ Ht). auto.
Qed.

Lemma client_names_elem client_tools names c :
  client_names client_tools = Ok names → c ∈ client_tools → type_is "function" c →
  Json.truthy (field "name" c) → field "name" c ∈ names.
Proof.
  unfold client_names. intros Hn%res_mapM_ok Hc Ht Hf.
  assert (field "name" c ∈ field "name" <$> filter (λ t, type_is "function" t && Json.truthy (field "name" t)) client_tools) as Hin.
  { apply list_elem_of_fmap. exists c. split; [done|]. apply list_elem_of_filter. split; [|done].
    by apply andb_prop_intro. }
  induction Hn as [|v n l k Hv _ IH]; [by apply not_elem_of_nil in Hin|].
  apply elem_of_cons in Hin as [<-|Hin]; [|right; auto].
  assert (n = field "name" c) as -> by (unfold hashable in Hv; destruct (field "name" c); congruence). by left.
Qed.

Lemma existsb_str_notin n names : existsb (Json.eqb (JStr n)) names = false → JStr n ∉ names.
Proof.
  intros He Hin. enough (existsb (Json.eqb (JStr n)) names = true) by congruence.
  apply existsb_exists. exists (JStr n). split; [by apply list_elem_of_In|]. by apply bool_decide_eq_true.
Qed.
End facts.
End CollisionFacts.

Module PolicyTheorems.
Import PolicyFacts CollisionFacts.

(** What a refused tool list means for the client is a 400; what an accepted one means is that its
    policies can be applied in mid-response: the servers' labels are distinct, each server's
    [allowed_tools] filters any list of tools without an error, and its [require_approval] answers
    for any tool, if it doesn't excuse the empty name. *)
Theorem accepted_policies_apply `{SpecReader} tools specs other :
  split_mcp_tools tools = Ok (specs, other) →
  other = filter (λ t, ¬ type_is "mcp" t) (default [] tools) ∧
  NoDup (server_label <$> specs) ∧
  ∀ spec, spec ∈ specs →
    (∀ ts, ∃ ts', filter_tools spec ts = Ok ts' ∧ ts' ⊆ ts) ∧
    (excuses_nameless spec = false → ∀ t, ∃ b, requires_approval spec t = Ok b).
Proof.
  intros (-> & Hnd & Hall)%split_from_ok. split; [done|]. split; [done|]. intros spec Hin.
  destruct (Hall _ Hin) as [_ ([r Hr] & b & Hb)%validate_policy_ok]. split.
  - intros ts. by eapply filter_tools_any.
  - intros He. by eapply requires_approval_any.
Qed.

(** Pydantic's reading of a spec, without the types of [headers] and [authorization]. *)
Definition example_read (label url headers authorization allowed approval : json) : string + McpToolSpec :=
  match label, url with
  | JStr l, JStr u => inr (mkSpec l u None None allowed approval)
  | _, _ => inl "Input should be a valid string"%string
  end.

Lemma example_read_ok label url h a allowed approval spec :
  example_read label url h a allowed approval = inr spec →
  label = JStr (server_label spec) ∧ url = JStr (server_url spec) ∧
  allowed_tools spec = allowed ∧ require_approval spec = approval.
Proof. destruct label, url; try done. cbn. intros [= <-]. done. Qed.

#[export] Instance example_reader : SpecReader := {|
  py_repr j := if j is JStr s then "'" +:+ s +:+ "'" else "";
  read_spec := example_read;
  read_spec_ok := example_read_ok
|}.

Definition example_tool (label : string) (approval : json) : dict json :=
  [("type", JStr "mcp"); ("server_label", JStr label); ("server_url", JStr "http://tools/mcp");
   ("allowed_tools", JObj [("read_only", JBool true)]); ("require_approval", approval)]%string.
Definition example_function : dict json := [("type", JStr "function"); ("name", JStr "lookup")]%string.
Definition example_spec (label : string) (approval : json) : McpToolSpec :=
  mkSpec label "http://tools/mcp" None None (JObj [("read_only"%string, JBool true)]) approval.

Lemma accepted_policies_apply_witness :
  let tools := Some [example_tool "dice" (JStr "never"); example_function] in
  split_mcp_tools tools = Ok ([example_spec "dice" (JStr "never")], [example_function]) ∧
  ∃ b, requires_approval (example_spec "dice" (JStr "never")) (mkTool "roll" [] None None) = Ok b.
Proof.
  intros tools. split; [vm_compute; reflexivity|].
  destruct (accepted_policies_apply tools [example_spec "dice" (JStr "never")] [example_function])
    as (_ & _ & Hall); [vm_compute; reflexivity|].
  destruct (Hall (example_spec "dice" (JStr "never"))) as [_ Hb]; [by left|]. apply Hb. reflexivity.
Defined.

(** The checks made while a request is read try each policy on a tool with the empty name, and a
    list that excuses that name hides a malformed one: the request is accepted, and the policy
    raises in mid-response for the first tool it is asked about. *)
Theorem malformed_policy_accepted :
  let approval := JObj [("never", JObj [("tool_names", JList [JStr ""])]);
                        ("always", JObj [("tool_names", JStr "roll")])]%string in
  split_mcp_tools (Some [example_tool "dice" approval]) = Ok ([example_spec "dice" approval], []) ∧
  requires_approval (example_spec "dice" approval) (mkTool "roll" [] None None) =
    Err (mcp_error "'require_approval.always.tool_names' must be a list of strings for server 'dice'.").
Proof. split; vm_compute; reflexivity. Qed.

(** Tool names are unambiguous once [check_collisions] has passed: a name is a tool of one server
    only, and no client function with a name has it. *)
Theorem names_unambiguous `{SpecReader} specs discovered client_tools spec spec' t t' :
  check_collisions specs discovered client_tools = Ok tt →
  spec ∈ specs → spec' ∈ specs →
  t ∈ default [] (Dict.get (server_label spec) discovered) →
  t' ∈ default [] (Dict.get (server_label spec') discovered) →
  (t_name t = t_name t' → server_label spec = server_label spec') ∧
  ∀ c, c ∈ client_tools → type_is "function" c → t_name t ≠ ""%string → field "name" c ≠ JStr (t_name t).
Proof.
  unfold check_collisions. intros (names & Hn & H1)%res_bind_ok Hs Hs' Ht Ht'.
  apply res_bind_ok in H1 as (seen & [_ Hall]%check_specs_ok & _).
  destruct (Hall _ _ Hs Ht) as [Hc Hg], (Hall _ _ Hs' Ht') as [_ Hg']. split.
  - intros E. rewrite E in Hg. congruence.
  - intros c Hin Hf Hne E. apply (existsb_str_notin _ _ Hc). rewrite <-E.
    eapply client_names_elem; [done..|]. rewrite E. cbn. by rewrite bool_decide_eq_false_2.
Qed.

Lemma names_unambiguous_witness :
  let dice := example_spec "dice" (JStr "never") in
  let roll := mkTool "roll" [] None None in
  check_collisions [dice] [("dice"%string, [roll])] [example_function] = Ok tt ∧
  field "name" example_function ≠ JStr "roll".
Proof.
  intros dice roll. split; [vm_compute; reflexivity|].
  destruct (names_unambiguous [dice] [("dice"%string, [roll])] [example_function] dice dice roll roll) as [_ Hc];
    [vm_compute; reflexivity|by left..|]. apply Hc; [by left|done|done].
Defined.
End PolicyTheorems.
