(* ===== verification/Egress.v ===== *)
(** * Egress policy

    [src/modelship/openai/mcp/egress.py]: which servers an MCP tool may be on. What it uses of the standard library,
    [urllib.parse.urlsplit] and [ipaddress.ip_address], is written out here, for ASCII text. *)

From S2P Require Import Prelude ConfigSchema Errors ResponsesState McpPolicy.
Local Open Scope Z_scope.

(** ** Text *)

Fixpoint str_map (f : ascii → ascii) (s : string) : string :=
  match s with EmptyString => EmptyString | String a s => String (f a) (str_map f s) end.
Fixpoint str_filter (f : ascii → bool) (s : string) : string :=
  match s with EmptyString => EmptyString | String a s => if f a then String a (str_filter f s) else str_filter f s end.
Definition between (lo hi : nat) (a : ascii) : bool := ((lo <=? nat_of_ascii a) && (nat_of_ascii a <=? hi))%nat.
Definition is_upper : ascii → bool := between 65 90.
Definition is_lower : ascii → bool := between 97 122.
Definition is_decimal : ascii → bool := between 48 57.
Definition hex_digit (a : ascii) : bool := is_decimal a || between 97 102 a || between 65 70 a.

(** [s.lower()] *)
Definition lower (s : string) : string :=
  str_map (λ a, if is_upper a then ascii_of_nat (nat_of_ascii a + 32) else a) s.

(** [s.partition(c)]: with [None] for what comes after, when [c] is not there *)
Definition partition (c : ascii) (s : string) : string * option string :=
  match split_first c s with Some (a, b) => (a, Some b) | None => (s, None) end.

(** [s.rpartition(c)[2]] *)
Definition after_last (c : ascii) (s : string) : string := default s (last (Str.split c s)).

(** The text up to the first character of a kind, and from it on *)
Fixpoint upto (stop : ascii → bool) (s : string) : string * string :=
  match s with
  | EmptyString => (EmptyString, EmptyString)
  | String a s' => if stop a then (EmptyString, s) else let '(p, r) := upto stop s' in (String a p, r)
  end.
Fixpoint drop_while (f : ascii → bool) (s : string) : string :=
  match s with String a s' => if f a then drop_while f s' else s | EmptyString => EmptyString end.

(** ** [ipaddress.ip_address] *)

Inductive address : Type := IPv4 (a b c d : Z) | IPv6.

(** [_parse_octet] *)
Definition octet (s : string) : option Z :=
  if bool_decide (s = ""%string) || negb (str_all is_decimal s) || (3 <? String.length s)%nat then None
  else if negb (bool_decide (s = "0"%string)) && Str.startswith s "0" then None
  else n ← Str.digits 0 false s; (if n <=? 255 then Some n else None).

Definition ipv4 (s : string) : option address :=
  match Str.split "." s with
  | [a; b; c; d] => a ← octet a; b ← octet b; c ← octet c; d ← octet d; Some (IPv4 a b c d)
  | _ => None
  end.

(** [_parse_hextet] *)
Definition hextet (s : string) : bool := str_all hex_digit s && (String.length s <=? 4)%nat.

(** The places, but for the first and the last, of empty parts *)
Definition skips (parts : list string) : list nat :=
  filter (λ i, parts !! i = Some ""%string) (seq 1 (length parts - 2)).

(** [_ip_int_from_string], as far as it accepts the text *)
Definition ipv6_parts (parts : list string) : bool :=
  if (length parts <? 3)%nat || (9 <? length parts)%nat then false
  else
    let first_empty := bool_decide (head parts = Some ""%string) in
    let last_empty := bool_decide (last parts = Some ""%string) in
    match skips parts with
    | _ :: _ :: _ => false
    | [i] =>
        let hi := (i - (if first_empty then 1 else 0))%nat in
        let lo := (length parts - i - 1 - (if last_empty then 1 else 0))%nat in
        negb (first_empty && negb (hi =? 0)%nat) && negb (last_empty && negb (lo =? 0)%nat)
        && (1 <=? 8 - (hi + lo))%nat
        && forallb hextet (take hi parts) && forallb hextet (drop (length parts - lo) parts)
    | [] =>
        (length parts =? 8)%nat && negb first_empty && negb last_empty && forallb hextet parts
    end.

(** The parts, with the two that a dotted end stands for *)
Definition colon_parts (s : string) : option (list string) :=
  let parts := Str.split ":" s in
  match last parts with
  | Some p =>
      if Str.mem "." p && (3 <=? length parts)%nat
      then _ ← ipv4 p; Some (take (length parts - 1) parts ++ ["0"; "0"]%string)
      else Some parts
  | None => Some parts
  end.

Definition ipv6 (s : string) : option address :=
  let '(addr, scope) := partition "%" s in
  if Str.mem "/" s || (if scope is Some z then bool_decide (z = ""%string) || Str.mem "%" z else false) then None
  else parts ← colon_parts addr; (if ipv6_parts parts then Some IPv6 else None).

Definition ip_address (s : string) : option address := if ipv4 s is Some a then Some a else ipv6 s.

(** ** [urllib.parse.urlsplit] *)

Definition invalid_url : exn := ValueError "Invalid IPv6 URL".

(** [_check_bracketed_host]; a version is hexadecimal, and something comes after its point. *)
Definition check_bracketed_host (hostname : string) : res unit :=
  if Str.startswith hostname "v" then
    let '(version, rest) := partition "." (str_drop 1 hostname) in
    raise_if (negb (str_all hex_digit version) || bool_decide (version = ""%string)
              || (if rest is Some r then bool_decide (r = ""%string) else true)) (ValueError "IPvFuture address is invalid")
  else
    match ip_address hostname with
    | Some IPv6 => Ok tt
    | Some (IPv4 _ _ _ _) => Err (ValueError "An IPv4 address cannot be in brackets")
    | None => Err (ValueError (hostname +:+ " does not appear to be an IPv4 or IPv6 address"))
    end.

(** [_check_bracketed_netloc] *)
Definition check_bracketed_netloc (netloc : string) : res unit :=
  let hostinfo := after_last "@" netloc in
  match partition "[" hostinfo with
  | (before, Some bracketed) =>
      let '(hostname, port) := partition "]" bracketed in
      let port := default ""%string port in
      _ ← raise_if (negb (bool_decide (before = ""%string))) invalid_url;
      _ ← raise_if (negb (bool_decide (port = ""%string)) && negb (Str.startswith port ":")) invalid_url;
      check_bracketed_host hostname
  | (_, None) => check_bracketed_host (partition ":" hostinfo).1
  end.

(** The network location, in what follows the scheme *)
Definition read_netloc (url : string) : res string :=
  if Str.startswith url "//" then
    let netloc := (upto (λ a, bool_decide (a ∈ ["/"; "?"; "#"]%char)) (str_drop 2 url)).1 in
    let opening := Str.mem "[" netloc in
    let closing := Str.mem "]" netloc in
    _ ← raise_if (xorb opening closing) invalid_url;
    _ ← (if opening && closing then check_bracketed_netloc netloc else Ok tt);
    Ok netloc
  else Ok ""%string.

(** The scheme, if there is one, and what follows it *)
Definition read_scheme (url : string) : string * string :=
  let scheme_char a := is_upper a || is_lower a || is_decimal a || bool_decide (a ∈ ["+"; "-"; "."]%char) in
  match split_first ":" url with
  | Some (String a s, rest) =>
      if (is_upper a || is_lower a) && str_all scheme_char (String a s) then (lower (String a s), rest) else (""%string, url)
  | _ => (""%string, url)
  end.

(** The scheme and the network location *)
Definition urlsplit (url : string) : res (string * string) :=
  let url := drop_while (between 0 32) url in
  let url := str_filter (λ a, negb (bool_decide (a ∈ ["009"; "010"; "013"]%char))) url in
  let '(scheme, url) := read_scheme url in
  netloc ← read_netloc url;
  Ok (scheme, netloc).

(** [SplitResult.hostname]; [None] is the empty text here. *)
Definition hostname_of (netloc : string) : string :=
  let hostinfo := after_last "@" netloc in
  let hostname :=
    match partition "[" hostinfo with
    | (_, Some bracketed) => (partition "]" bracketed).1
    | (_, None) => (partition ":" hostinfo).1
    end in
  let '(name, zone) := partition "%" hostname in
  lower name +:+ (if zone is Some z then String "%" z else ""%string).

(** ** The policy *)

Definition METADATA_HOSTS : list string := ["metadata.google.internal"; "metadata.goog"]%string.

(** [addr in _METADATA_NETWORK]: an IPv6 address is in no IPv4 network. *)
Definition in_metadata_network (a : address) : bool :=
  match a with IPv4 a b _ _ => (a =? 169) && (b =? 254) | IPv6 => false end.

Section policy.
Context `{SpecReader} (environ : string → option string).

(** [_egress_error] *)
Definition egress_error (message : string) : exn :=
  api_error message "invalid_request_error" 400 (Some "tools"%string) None.

Definition environ_text (name : string) : string := Str.strip (default ""%string (environ name)).

Definition require_https : bool :=
  bool_decide (lower (environ_text "MSHIP_MCP_REQUIRE_HTTPS") ∈ ["1"; "true"; "yes"]%string).

Definition allowed_hosts : string := environ_text "MSHIP_MCP_ALLOWED_HOSTS".
Definition allowed (hosts : string) : list string :=
  (λ h, lower (Str.strip h)) <$> filter (λ h, Str.strip h ≠ ""%string) (Str.split "," hosts).

Definition blocked (hostname : string) : exn :=
  egress_error ("mcp server_url host " +:+ py_repr (JStr hostname) +:+ " is a cloud metadata endpoint and is always blocked.").

(** [validate_server_url] *)
Definition validate_server_url (url : string) : res unit :=
  parts ← urlsplit url;
  let '(scheme, netloc) := parts in
  _ ← raise_if (negb (bool_decide (scheme ∈ ["http"; "https"]%string)))
        (egress_error ("mcp server_url must be http or https, got " +:+ py_repr (JStr scheme) +:+ "."));
  _ ← raise_if (require_https && negb (bool_decide (scheme = "https"%string)))
        (egress_error "MSHIP_MCP_REQUIRE_HTTPS is set; mcp server_url must use https.");
  let hostname := hostname_of netloc in
  _ ← raise_if (bool_decide (hostname = ""%string))
        (egress_error ("mcp server_url " +:+ py_repr (JStr url) +:+ " is missing a hostname."));
  _ ← raise_if (bool_decide (lower hostname ∈ METADATA_HOSTS)) (blocked hostname);
  _ ← raise_if (if ip_address hostname is Some a then in_metadata_network a else false) (blocked hostname);
  raise_if (negb (bool_decide (allowed_hosts = ""%string)) && negb (bool_decide (lower hostname ∈ allowed allowed_hosts)))
    (egress_error ("mcp server_url host " +:+ py_repr (JStr hostname) +:+ " is not in MSHIP_MCP_ALLOWED_HOSTS.")).
End policy.
