(* ===== verification/Tasks.v ===== *)
(** * Tasks of the event loop

    The coroutines of [src/modelship/openai/utils/responses.py] that do more than call the state
    store: they catch what a store call raises, ask the registries, take items from a loader's stream
    and yield events. A task ([proc]) is overtaken by others only where it waits, at a call ([io]). *)

From S2P Require Import Prelude StateStore ResponsesState.
Local Open Scope Z_scope.

(** ** Calls *)

(** What a loader's generator gives: a whole response with its id and dump, an event, or an error. *)
Inductive stream_item : Type :=
| SResponse (id : string) (dump : dict json)
| SEvent (e : dict json)
| SError (err : ErrorResponse).

(** A call, indexed by its answer. The heartbeat registry's and the disconnect registry's may raise;
    [Next] takes an item from the loader's stream. [Buffer] and [Flushed] are the stream buffer's:
    scheduling an append, and waiting for those that are scheduled. *)
Inductive io : Type → Type :=
| Store {B} (op : store_op B) : io (res B)
| Dispatch : io (res unit)
| Next : io (res (option stream_item))
| Emit (e : dict json) : io unit
| Buffer (e : dict json) : io unit
| Flushed : io unit
| IsAlive (identity response_id : string) : io (res bool)
| Beat (identity response_id req_id : string) : io (res unit)
| ReqIdFor (identity response_id : string) : io (res (option string))
| SetCancelled (req_id : string) : io (res unit)
| IsCancelled (req_id : string) : io (res bool)
| Sleep (ticks : Z) : io unit
| Time : io Z
| Uuid : io string.

(** ** Tasks *)

Inductive proc (A : Type) : Type :=
| Ret (a : A)
| Raise (e : exn)
| Do {B : Type} (c : io B) (k : B → proc A).
Arguments Ret {A} a. Arguments Raise {A} e. Arguments Do {A B} c k.

Fixpoint proc_bind {A B} (f : A → proc B) (p : proc A) : proc B :=
  match p with
  | Ret a => f a
  | Raise e => Raise e
  | Do c k => Do c (λ b, proc_bind f (k b))
  end.

#[export] Instance proc_ret : MRet proc := @Ret.
#[export] Instance proc_mbind : MBind proc := @proc_bind.

Definition ask {B} (c : io B) : proc B := Do c Ret.

Definition raise_err {A} (r : res A) : proc A := match r with Ok a => Ret a | Err e => Raise e end.

(** A call that may raise. *)
Definition invoke {B} (c : io (res B)) : proc B := Do c raise_err.

(** A program over the store *)
Fixpoint of_prog {A} (p : prog A) : proc A :=
  match p with
  | Done a => Ret a
  | Fail e => Raise e
  | Op op k => Do (Store op) (λ r, match r with Ok b => of_prog (k b) | Err e => Raise e end)
  end.

(** [try]: what the body returns or raises *)
Fixpoint attempt {A} (p : proc A) : proc (res A) :=
  match p with
  | Ret a => Ret (Ok a)
  | Raise e => Ret (Err e)
  | Do c k => Do c (λ b, attempt (k b))
  end.

(** [except StateStoreUnavailableError: raise e] *)
Definition unavailable_as {A} (e : exn) (p : proc A) : proc A :=
  r ← attempt p;
  match r with Err StateStoreUnavailableError => Raise e | r => raise_err r end.

(** [suppress(StateStoreUnavailableError)] and [suppress(Exception)] *)
Definition suppress_unavailable (p : proc unit) : proc unit :=
  r ← attempt p;
  match r with Err StateStoreUnavailableError => Ret tt | r => raise_err r end.
Definition suppress {A} (d : A) (p : proc A) : proc A :=
  r ← attempt p;
  match r with Ok a => Ret a | Err _ => Ret d end.

(** A task of store calls alone, with nothing in between; [None] when it makes another call. *)
Definition store_call `{StateStore T} {B} (c : io B) (now : Z) (s : T) : option (T * B) :=
  match c with Store op => Some (ss_run op now s) | _ => None end.
Fixpoint run_task `{StateStore T} {A} (p : proc A) (now : Z) (s : T) : option (T * res A) :=
  match p with
  | Ret a => Some (s, Ok a)
  | Raise e => Some (s, Err e)
  | Do c k => match store_call c now s with Some (s, b) => run_task (k b) now s | None => None end
  end.

(** ** What a task does *)

(** A call and its answer. *)
Inductive answer : Type := | Did {B : Type} (c : io B) (b : B).

(** The calls of a task that ends so, with whatever answers. *)
Fixpoint traces {A} (p : proc A) (t : list answer) (r : res A) : Prop :=
  match p with
  | Ret a => t = [] ∧ r = Ok a
  | Raise e => t = [] ∧ r = Err e
  | Do c k => ∃ b t', t = Did c b :: t' ∧ traces (k b) t' r
  end.

(** ** Lemmas *)

Lemma proc_bind_ret {A B} (a : A) (f : A → proc B) : (Ret a ≫= f) = f a.
Proof. done. Qed.

Lemma traces_bind {A B} (p : proc A) (f : A → proc B) t r :
  traces (p ≫= f) t r ↔
    (∃ a t1 t2, t = t1 ++ t2 ∧ traces p t1 (Ok a) ∧ traces (f a) t2 r) ∨
    (∃ e, r = Err e ∧ traces p t (Err e)).
Proof.
  change (p ≫= f) with (proc_bind f p). induction p as [a|e|C c k IH] in t |- *; cbn.
  - split; [intros Ht; left; by exists a, [], t|].
    by intros [(a' & t1 & t2 & -> & [-> [= ->]] & H2)|(e & _ & _ & H1)].
  - split; [intros [-> ->]; right; by exists e|].
    by intros [(a' & t1 & t2 & _ & [_ H1] & _)|(e' & -> & -> & [= ->])].
  - split.
    + intros (b & t' & -> & [(a & t1 & t2 & -> & H1 & H2)|(e & -> & H1)]%IH).
      * left. exists a, (Did c b :: t1), t2. split; [done|]. split; [|done]. by exists b, t1.
      * right. exists e. split; [done|]. by exists b, t'.
    + intros [(a & ? & t2 & -> & (b & t' & -> & H1) & H2)|(e & -> & b & t' & -> & H1)]; exists b; eexists; (split; [done|]); apply IH.
      * left. by exists a, t', t2.
      * right. by exists e.
Qed.

Lemma traces_attempt {A} (p : proc A) t r : traces (attempt p) t r ↔ ∃ r', r = Ok r' ∧ traces p t r'.
Proof.
  induction p as [a|e|C c k IH] in t |- *; cbn.
  - split; [by intros [-> ->]; eexists|]. by intros (? & -> & -> & ->).
  - split; [by intros [-> ->]; eexists|]. by intros (? & -> & -> & ->).
  - setoid_rewrite IH. naive_solver.
Qed.
