(* ===== verification/ResponseObjects.v ===== *)
(** * Response objects

    What the tool loop builds: the request and response schemas it uses of
    [src/modelship/openai/protocol/responses/schemas.py] and the envelope of
    [src/modelship/openai/protocol/responses/adapter.py]; and the types that a response's fields are declared
    with, which is what pydantic is asked to accept ([Validates]). Validating and dumping a model is its own. *)

From S2P Require Import Prelude ResponsesState McpPolicy.
Local Open Scope Z_scope.

(** ** Requests *)

(** [ResponsesRequest]; a field that is only echoed keeps its JSON value. *)
Record Request : Type := mkRequest {
  r_input : string + list json;
  r_model : json;
  instructions : json;
  max_output_tokens : json;
  temperature : json;
  top_p : json;
  r_tools : option (list (dict json));
  tool_choice : json;
  parallel_tool_calls : json;
  r_text : json;
  reasoning : json;
  metadata : json;
  prompt_cache_key : json;
  r_store : json;
  previous_response_id : option string;
  background : json;
  max_tool_calls : option Z;
  r_stream : json;
  r_user : json;
}.

(** [as_input_items] *)
Definition as_input_items (input : string + list json) : list json :=
  match input with
  | inl text => [JObj [("type", JStr "message"); ("role", JStr "user"); ("content", JStr text)]%string]
  | inr l => l
  end.

(** ** Usage *)

(** [ResponseUsage]: its counts, and those of its details when it has them; extra fields a loader adds
    are left out. *)
Record Usage : Type := mkUsage {
  input_tokens : Z;
  output_tokens : Z;
  total_tokens : Z;
  cached_tokens : option Z;
  reasoning_tokens : option Z;
}.

(** [_sum_usage] *)
Definition sum_usage (a b : option Usage) : option Usage :=
  match a, b with
  | None, _ => b
  | _, None => a
  | Some a, Some b =>
      Some (mkUsage (input_tokens a + input_tokens b) (output_tokens a + output_tokens b)
        (total_tokens a + total_tokens b)
        (Some (default 0 (cached_tokens a) + default 0 (cached_tokens b)))
        (Some (default 0 (reasoning_tokens a) + default 0 (reasoning_tokens b))))
  end.

Definition usage_json (u : option Usage) : json :=
  match u with
  | None => JNull
  | Some u =>
      JObj [("input_tokens", JInt (input_tokens u)); ("output_tokens", JInt (output_tokens u));
            ("total_tokens", JInt (total_tokens u));
            ("input_tokens_details", if cached_tokens u is Some n then JObj [("cached_tokens", JInt n)] else JNull);
            ("output_tokens_details",
              if reasoning_tokens u is Some n then JObj [("reasoning_tokens", JInt n)] else JNull)]%string
  end.

(** ** Output items *)

(** A field of type [str], or [str | None]. *)
Definition str_field (v : json) : res json :=
  match v with JStr _ => Ok v | _ => Err (OtherError "ValidationError") end.
Definition opt_str_field (v : json) : res json :=
  match v with JStr _ | JNull => Ok v | _ => Err (OtherError "ValidationError") end.

Definition tool_json (t : Tool) : json :=
  JObj [("name", JStr (t_name t)); ("input_schema", JObj (input_schema t));
        ("annotations", if annotations t is Some a then JObj a else JNull);
        ("description", if description t is Some d then JStr d else JNull)]%string.

(** [McpListToolsItem(...).model_dump()] *)
Definition McpListToolsItem (id label : string) (tools : list Tool) (error : option string) : dict json :=
  [("type", JStr "mcp_list_tools"); ("id", JStr id); ("server_label", JStr label);
   ("tools", JList (tool_json <$> tools)); ("error", if error is Some e then JStr e else JNull)]%string.

(** [McpCallItem(...).model_dump()] *)
Definition McpCallItem (id : string) (name arguments label approval_request_id : json)
    (error output : option string) (status : string) : res (dict json) :=
  name ← str_field name;
  arguments ← str_field arguments;
  label ← str_field label;
  approval ← opt_str_field approval_request_id;
  Ok [("type", JStr "mcp_call"); ("id", JStr id); ("name", name); ("arguments", arguments);
      ("server_label", label); ("approval_request_id", approval);
      ("error", if error is Some e then JStr e else JNull);
      ("output", if output is Some o then JStr o else JNull); ("status", JStr status)]%string.

(** [McpApprovalRequestItem(...).model_dump()] *)
Definition McpApprovalRequestItem (id : string) (name arguments : json) (label : string) : res (dict json) :=
  name ← str_field name;
  arguments ← str_field arguments;
  Ok [("type", JStr "mcp_approval_request"); ("id", JStr id); ("name", name); ("arguments", arguments);
      ("server_label", JStr label)]%string.

(** ** The envelope *)

(** pydantic's models: [ResponseObject(...).model_dump()] of its arguments, an output item of a class
    from its dict, and the readings of a usage and of a listed tool. *)
Class Envelope : Type := {
  ResponseObject : dict json → res (dict json);
  validate_item : string → dict json → res json;
  validate_usage : json → res Usage;
  validate_tool : json → option Tool;
}.

(** [_echo_tools] *)
Definition echo_tool (tool : dict json) : dict json :=
  if type_is "mcp" tool then Dict.pop "authorization" (Dict.set "headers" JNull tool)
  else if type_is "function" tool then
    [("type", JStr "function"); ("name", field "name" tool); ("description", field "description" tool);
     ("parameters", field "parameters" tool); ("strict", field "strict" tool)]%string
  else tool.
Definition echo_tools (tools : option (list (dict json))) : list json := JObj ∘ echo_tool <$> default [] tools.

Definition if_null (d v : json) : json := if v is JNull then d else v.

(** [build_response_object]'s arguments; a [model] that isn't given is empty. *)
Record ResponseFields : Type := mkFields {
  f_status : string;
  f_output : list json;
  f_usage : option Usage;
  f_incomplete : json;
  f_id : string;
  f_created_at : Z;
  f_completed_at : option Z;
  f_error : option json;
  f_background : bool;
  f_model : string;
}.

Section envelope.
Context `{Envelope}.

Definition response_kwargs (request : Request) (f : ResponseFields) : dict json :=
  [("model", py_or (py_or (JStr (f_model f)) (r_model request)) (JStr "")); ("status", JStr (f_status f)); ("output", JList (f_output f));
   ("usage", usage_json (f_usage f)); ("incomplete_details", f_incomplete f);
   ("background", JBool (f_background f)); ("instructions", instructions request);
   ("max_output_tokens", max_output_tokens request);
   ("temperature", if_null (JFloat (inject_Z 1)) (temperature request));
   ("top_p", if_null (JFloat (inject_Z 1)) (top_p request)); ("tools", JList (echo_tools (r_tools request)));
   ("tool_choice", if_null (JStr "auto") (tool_choice request));
   ("parallel_tool_calls", if_null (JBool true) (parallel_tool_calls request));
   ("text", py_or (r_text request) (JObj [("format", JObj [("type", JStr "text")])]));
   ("reasoning", reasoning request); ("metadata", py_or (metadata request) (JObj []));
   ("prompt_cache_key", prompt_cache_key request);
   ("store", JBool (if r_store request is JBool false then false else true));
   ("previous_response_id", if previous_response_id request is Some p then JStr p else JNull);
   ("id", JStr (f_id f)); ("created_at", JInt (f_created_at f))]%string
  ++ (if f_completed_at f is Some n then [("completed_at"%string, JInt n)] else [])
  ++ (if f_error f is Some e then [("error"%string, e)] else []).

(** [build_response_object(...).model_dump(mode="json")] *)
Definition build_response_object (request : Request) (f : ResponseFields) : res (dict json) :=
  ResponseObject (response_kwargs request f).

(** [_OUTPUT_ITEM_CLASSES] *)
Definition OUTPUT_ITEM_CLASSES : dict string :=
  [("reasoning", "ResponseReasoningItem"); ("message", "ResponseOutputMessage");
   ("function_call", "ResponseFunctionToolCall"); ("mcp_list_tools", "McpListToolsItem");
   ("mcp_call", "McpCallItem"); ("mcp_approval_request", "McpApprovalRequestItem")]%string.

(** [parse_output_item] *)
Definition parse_output_item (d : dict json) : res json :=
  ty ← hashable (default (JStr "") (Dict.get "type" d));
  match (if ty is JStr ty then Dict.get ty OUTPUT_ITEM_CLASSES else None) with
  | Some cls => validate_item cls d
  | None => Err (OtherError "UnsupportedResponsesFeatureError")
  end.
End envelope.

(** ** The schema of a response ([schemas.py])

    What pydantic accepts of a field of each declared type; it also converts some values of other types. *)

Definition is_str (v : json) : bool := if v is JStr _ then true else false.
Definition is_int (v : json) : bool := if v is JInt _ then true else false.
Definition is_float (v : json) : bool := match v with JInt _ | JFloat _ => true | _ => false end.
Definition is_bool (v : json) : bool := if v is JBool _ then true else false.
Definition is_object (v : json) : bool := if v is JObj _ then true else false.
Definition is_any (_ : json) : bool := true.
Definition literal (l : list string) (v : json) : bool := if v is JStr s then bool_decide (s ∈ l) else false.
Definition optional (ok : json → bool) (v : json) : bool := if v is JNull then true else ok v.
Definition list_of (ok : json → bool) (v : json) : bool := if v is JList l then forallb ok l else false.
Definition either (ok ok' : json → bool) (v : json) : bool := ok v || ok' v.

(** A class's fields, each with whether it has a default; a field that isn't declared is let through. *)
Definition schema : Type := list (string * (bool * (json → bool))).
Definition conforms (fields : schema) (d : dict json) : bool :=
  forallb (λ kf, if Dict.get kf.1 d is Some v then kf.2.2 v else kf.2.1) fields.
Definition object_of (fields : schema) (v : json) : bool := if v is JObj d then conforms fields d else false.

Definition has_default (ok : json → bool) : bool * (json → bool) := (true, ok).
Definition required (ok : json → bool) : bool * (json → bool) := (false, ok).

Definition ResponseOutputText : schema :=
  [("type", has_default (literal ["output_text"])); ("text", required is_str);
   ("annotations", has_default (list_of is_any))]%string.
Definition ResponseOutputMessage : schema :=
  [("type", has_default (literal ["message"])); ("id", has_default is_str); ("role", has_default (literal ["assistant"]));
   ("status", has_default (literal ["in_progress"; "completed"; "incomplete"]));
   ("content", has_default (list_of (object_of ResponseOutputText)))]%string.
Definition ResponseReasoningText : schema :=
  [("type", has_default (literal ["reasoning_text"])); ("text", required is_str)]%string.
Definition ResponseReasoningSummary : schema :=
  [("type", has_default (literal ["summary_text"])); ("text", required is_str)]%string.
Definition ResponseReasoningItem : schema :=
  [("type", has_default (literal ["reasoning"])); ("id", has_default is_str);
   ("summary", has_default (list_of (object_of ResponseReasoningSummary)));
   ("content", has_default (list_of (object_of ResponseReasoningText)));
   ("encrypted_content", has_default (optional is_str))]%string.
Definition ResponseFunctionToolCall : schema :=
  [("type", has_default (literal ["function_call"])); ("id", has_default is_str); ("call_id", has_default is_str);
   ("name", required is_str); ("arguments", required is_str);
   ("status", has_default (literal ["in_progress"; "completed"; "incomplete"]))]%string.
Definition McpListToolsTool_fields : schema :=
  [("name", required is_str); ("input_schema", required is_object); ("annotations", has_default (optional is_object));
   ("description", has_default (optional is_str))]%string.
Definition McpListToolsItem_fields : schema :=
  [("type", has_default (literal ["mcp_list_tools"])); ("id", has_default is_str); ("server_label", required is_str);
   ("tools", has_default (list_of (object_of McpListToolsTool_fields))); ("error", has_default (optional is_str))]%string.
Definition McpCallItem_fields : schema :=
  [("type", has_default (literal ["mcp_call"])); ("id", has_default is_str); ("name", required is_str);
   ("arguments", has_default is_str); ("server_label", required is_str);
   ("approval_request_id", has_default (optional is_str)); ("error", has_default (optional is_str));
   ("output", has_default (optional is_str));
   ("status", has_default (literal ["in_progress"; "calling"; "completed"; "incomplete"; "failed"]))]%string.
Definition McpApprovalRequestItem_fields : schema :=
  [("type", has_default (literal ["mcp_approval_request"])); ("id", has_default is_str); ("name", required is_str);
   ("arguments", required is_str); ("server_label", required is_str)]%string.

(** [ResponseOutputItem], a plain union *)
Definition ResponseOutputItem (v : json) : bool :=
  existsb (λ fields, object_of fields v)
    [ResponseReasoningItem; ResponseOutputMessage; ResponseFunctionToolCall; McpListToolsItem_fields;
     McpCallItem_fields; McpApprovalRequestItem_fields].

Definition ResponseUsage : schema :=
  [("input_tokens", has_default is_int); ("output_tokens", has_default is_int); ("total_tokens", has_default is_int);
   ("input_tokens_details", has_default (optional (object_of [("cached_tokens", has_default is_int)])));
   ("output_tokens_details", has_default (optional (object_of [("reasoning_tokens", has_default is_int)])))]%string.

Definition STATUSES : list string :=
  ["queued"; "in_progress"; "completed"; "incomplete"; "failed"; "cancelled"]%string.

Definition ResponseObject_fields : schema :=
  [("id", has_default is_str); ("object", has_default (literal ["response"])); ("created_at", has_default is_int);
   ("completed_at", has_default (optional is_int)); ("status", has_default (literal STATUSES));
   ("model", required is_str); ("output", has_default (list_of ResponseOutputItem));
   ("usage", has_default (optional (object_of ResponseUsage))); ("instructions", has_default (optional is_str));
   ("max_output_tokens", has_default (optional is_int)); ("max_tool_calls", has_default (optional is_int));
   ("temperature", has_default (optional is_float)); ("top_p", has_default (optional is_float));
   ("top_logprobs", has_default is_int); ("presence_penalty", has_default is_float);
   ("frequency_penalty", has_default is_float); ("tools", has_default (list_of is_object));
   ("tool_choice", has_default (either is_str is_object)); ("parallel_tool_calls", has_default is_bool);
   ("text", has_default (optional is_object)); ("reasoning", has_default (optional is_object));
   ("truncation", has_default is_str); ("background", has_default is_bool); ("service_tier", has_default is_str);
   ("safety_identifier", has_default (optional is_str)); ("prompt_cache_key", has_default (optional is_str));
   ("metadata", has_default is_object); ("previous_response_id", has_default (optional is_str));
   ("store", has_default is_bool); ("error", has_default is_any); ("incomplete_details", has_default is_any)]%string.

(** The settings a request has, by [ResponsesRequest]'s types, of those that a response echoes. *)
Definition echoes (request : Request) : bool :=
  optional is_str (r_model request) && optional is_str (instructions request)
  && optional is_int (max_output_tokens request) && optional is_float (temperature request)
  && optional is_float (top_p request) && optional (either is_str is_object) (tool_choice request)
  && optional is_bool (parallel_tool_calls request) && optional is_object (r_text request)
  && optional is_object (reasoning request) && optional is_object (metadata request)
  && optional is_str (prompt_cache_key request).

(** pydantic accepts what a class declares. *)
Class Validates `{Envelope} : Prop :=
  accepts kwargs : conforms ResponseObject_fields kwargs → ∃ response, ResponseObject kwargs = Ok response.

(** It takes exactly what the class declares, and dumps it as it came. *)
Definition strict_envelope : Envelope := {|
  ResponseObject kwargs :=
    if conforms ResponseObject_fields kwargs then Ok kwargs else Err (OtherError "ValidationError");
  validate_item _ d := Ok (JObj d);
  validate_usage _ := Err (OtherError "ValidationError");
  validate_tool _ := None
|}.

#[export] Instance strict_validates : Validates (H := strict_envelope).
Proof. intros kwargs Hk. exists kwargs. cbn [ResponseObject strict_envelope]. by destruct (conforms _ _). Qed.

(** A request's settings and an envelope's own fields, of their types, make a response. *)
Lemma response_conforms request f :
  echoes request → f_status f ∈ STATUSES → forallb ResponseOutputItem (f_output f) →
  conforms ResponseObject_fields (response_kwargs request f).
Proof.
  intros Hr Hs Ho. unfold echoes in Hr. rewrite !andb_True in Hr.
  destruct Hr as [[[[[[[[[[Hmodel Hinst] Hmax] Htemp] Htop] Hchoice] Hpar] Htext] Hreas] Hmeta] Hkey].
  assert (is_str (py_or (py_or (JStr (f_model f)) (r_model request)) (JStr ""))) as Em.
  { destruct (f_model f); [|done]. by destruct (r_model request) as [| | | |[]| |]. }
  assert (list_of is_object (JList (echo_tools (r_tools request)))) as Et.
  { unfold echo_tools. cbn. apply forallb_True, Forall_fmap, Forall_forall. done. }
  assert (optional is_float (if_null (JFloat (inject_Z 1)) (temperature request))) as Ete by by destruct (temperature request).
  assert (optional is_float (if_null (JFloat (inject_Z 1)) (top_p request))) as Eto by by destruct (top_p request).
  assert (either is_str is_object (if_null (JStr "auto") (tool_choice request))) as Ec by by destruct (tool_choice request).
  assert (is_bool (if_null (JBool true) (parallel_tool_calls request))) as Ep by by destruct (parallel_tool_calls request).
  assert (is_object (py_or (metadata request) (JObj []))) as Eme by by (unfold py_or; destruct (metadata request) as [| | | | | |[]]; try done).
  assert (optional is_object (py_or (r_text request) (JObj [("format", JObj [("type", JStr "text")])]))%string) as Etx
    by (unfold py_or; destruct (r_text request) as [| | | | | |[]]; try done).
  assert (optional (object_of ResponseUsage) (usage_json (f_usage f))) as Eu
    by by destruct (f_usage f) as [[? ? ? [|] [|]]|].
  assert (literal STATUSES (JStr (f_status f))) as Es by by apply bool_decide_pack.
  assert (is_bool (JBool (if r_store request is JBool false then false else true))) as Est by done.
  assert (optional is_str (if previous_response_id request is Some p then JStr p else JNull : json)) as Epr
    by by destruct (previous_response_id request).
  clear Hs. unfold response_kwargs. change (Is_true (list_of ResponseOutputItem (JList (f_output f)))) in Ho.
  revert Em Et Ete Eto Ec Ep Eme Etx Eu Es Ho Est Epr.
  generalize (py_or (py_or (JStr (f_model f)) (r_model request)) (JStr "")),
    (if_null (JFloat (inject_Z 1)) (temperature request)), (if_null (JFloat (inject_Z 1)) (top_p request)),
    (if_null (JStr "auto") (tool_choice request)), (if_null (JBool true) (parallel_tool_calls request)),
    (py_or (metadata request) (JObj [])), (py_or (r_text request) (JObj [("format", JObj [("type", JStr "text")])]))%string,
    (JList (echo_tools (r_tools request))), (usage_json (f_usage f)), (JStr (f_status f)), (JList (f_output f)),
    (JBool (if r_store request is JBool false then false else true)),
    (if previous_response_id request is Some p then JStr p else JNull).
  intros. unfold conforms. apply forallb_True. unfold ResponseObject_fields.
  repeat (apply Forall_cons; split); [..|by constructor]; destruct (f_completed_at f), (f_error f);
  cbn [fst snd];
  match goal with |- context [Dict.get ?k ?d] => let o := eval vm_compute in (Dict.get k d) in change (Dict.get k d) with o end; try done.
Qed.

