(* ===== verification/ResponsesApi.v ===== *)
(** * Conversations at the gateway

    [src/modelship/openai/utils/responses.py], the part between a request and the conversation state:
    resolving a previous response, storing a response as it passes, loading and deleting one, as
    tasks. *)

From S2P Require Import Prelude StateStore MemoryStore ConfigSchema ResponsesState McpPolicy Tasks Errors ResponseObjects.
Local Open Scope Z_scope.

(** ** Response ids *)

(** [[A-Za-z0-9_-]] *)
Definition id_char (a : ascii) : bool :=
  let n := nat_of_ascii a in
  (((65 <=? n) && (n <=? 90)) || ((97 <=? n) && (n <=? 122)) || ((48 <=? n) && (n <=? 57)))%nat
  || bool_decide (a ∈ ["_"; "-"])%char.
Definition id_text (s : string) : bool :=
  str_all id_char s && (1 <=? String.length s)%nat && (String.length s <=? 128)%nat.

(** [RESPONSE_ID_RE.match]: a dollar also matches before a last newline. *)
Definition valid_response_id (s : string) : bool :=
  let n := Nat.pred (String.length s) in
  id_text s || (bool_decide (str_drop n s = String newline "") && id_text (str_take n s)).

(** ** Errors *)

Definition not_found_error (response_id : string) (previous : bool) : exn :=
  if previous then
    api_error ("Previous response with id '" +:+ response_id +:+ "' not found.") "invalid_request_error" 404
      (Some "previous_response_id"%string) (Some "previous_response_not_found"%string)
  else api_error ("Response with id '" +:+ response_id +:+ "' not found.") "invalid_request_error" 404 None None.
Definition store_unavailable_error : exn :=
  api_error "Conversation state store is unavailable; retry shortly." "api_error" 503 None None.
Definition previous_in_progress_error (response_id : string) : exn :=
  api_error ("Previous response with id '" +:+ response_id +:+ "' is still in progress.") "invalid_request_error" 400
    (Some "previous_response_id"%string) None.

(** ** Terminal events ([protocol/responses/streaming.py]) *)

Definition TERMINAL_EVENT_TYPES : list string := ["response.completed"; "response.incomplete"]%string.
Definition ends_turn (e : dict json) : bool := existsb (λ ty, type_is ty e) TERMINAL_EVENT_TYPES.

(** [store_failure_event] *)
Definition store_failure_event (terminal : dict json) (message : string) : res (dict json) :=
  match py_or (field "response" terminal) (JObj []) with
  | JObj response =>
      Ok [("type", JStr "response.failed");
          ("sequence_number", default (JInt 0) (Dict.get "sequence_number" terminal));
          ("response", JObj (Dict.set "error" (JObj [("code", JStr "server_error"); ("message", JStr message)])
             (Dict.set "status" (JStr "failed") response)))]%string
  | _ => Err (TypeError "not a mapping")
  end.

Section api.
Context (py_format : json → string) (ttl : option Z).

(** ** Reading *)

(** [resolve_previous] *)
Definition resolve_previous (identity previous_id : string) : proc (list json * Position * list (json * json)) :=
  if negb (valid_response_id previous_id) then Raise (not_found_error previous_id true)
  else
    resolved ← unavailable_as store_unavailable_error (of_prog
      (record ← read py_format identity previous_id false;
       match record with
       | None => Fail (not_found_error previous_id true)
       | Some record =>
           let status := field "status" (response_of record) in
           if Json.eqb status (JStr "queued") || Json.eqb status (JStr "in_progress")
           then Fail (previous_in_progress_error previous_id)
           else history py_format ttl identity record
       end));
    match resolved with Some h => Ret h | None => Raise (not_found_error previous_id true) end.

(** [load_record] *)
Definition load_record (identity response_id : string) : proc (dict json) :=
  if negb (valid_response_id response_id) then Raise (not_found_error response_id false)
  else
    record ← unavailable_as store_unavailable_error (of_prog (read py_format identity response_id true));
    match record with Some d => Ret d | None => Raise (not_found_error response_id false) end.

(** [load_input_items] *)
Definition load_input_items (identity response_id : string) : proc (list json) :=
  if negb (valid_response_id response_id) then Raise (not_found_error response_id false)
  else
    items ← unavailable_as store_unavailable_error (of_prog
      (record ← read py_format identity response_id false;
       match record with None => mret None | Some d => input_items py_format ttl identity d end));
    match items with Some l => Ret l | None => Raise (not_found_error response_id false) end.

(** [delete_record]; an unavailable store is no error for the stream buffer. *)
Definition delete_record (identity response_id : string) : proc unit :=
  _ ← unavailable_as store_unavailable_error (of_prog (delete identity response_id));
  suppress_unavailable (of_prog (discard_stream_buffer identity response_id)).

(** ** Storing a response as it passes *)

Section persist.
Context (uuids : nat → string) (identity : string) (parent : option Position) (input : list json) (conditional : bool).

Definition store_response (response_id : string) (response : dict json) : prog unit :=
  if conditional then write_terminal_if_not_terminal ttl identity response_id response
  else write ttl uuids identity response_id response parent input.

(** The response of a terminal event, when it has a usable id. *)
Definition stored_response (e : dict json) : option (json * dict json) :=
  match field "response" e with
  | JObj response => let id := field "id" response in if Json.truthy id then Some (id, response) else None
  | _ => None
  end.

Definition not_stored : string :=
  "Conversation state store is unavailable; the response was generated but not stored.".

(** One item of [persist_response]: what is yielded for it, and whether there is more. *)
Definition persist_item (it : stream_item) : proc (stream_item * bool) :=
  match it with
  | SResponse id dump =>
      r ← attempt (of_prog (store_response id dump));
      match r with
      | Err StateStoreUnavailableError => Ret (SError (create_error_response not_stored (Some "api_error"%string) 503 None None), false)
      | Err e => Raise e
      | Ok _ => Ret (it, true)
      end
  | SEvent e =>
      match (if ends_turn e then stored_response e else None) with
      | Some (id, response) =>
          r ← attempt (of_prog (store_response (fmt py_format id) response));
          match r with
          | Err StateStoreUnavailableError => e' ← raise_err (store_failure_event e not_stored); Ret (SEvent e', false)
          | Err e => Raise e
          | Ok _ => Ret (it, true)
          end
      | None => Ret (it, true)
      end
  | SError _ => Ret (it, true)
  end.
End persist.
End api.

(** ** Lemmas *)

(** What tells a client that its response is complete. *)
Definition tells_end (it : stream_item) : option (json * dict json) :=
  match it with
  | SResponse id dump => Some (JStr id, dump)
  | SEvent e => if ends_turn e then stored_response e else None
  | SError _ => None
  end.

Lemma store_failure_no_end e message e' : store_failure_event e message = Ok e' → ends_turn e' = false.
Proof. unfold store_failure_event. destruct (py_or _ _); try done. by intros [= <-]. Qed.

(** A body's end, after [attempt]. *)
Lemma traces_attempt_bind {A B} (p : proc A) (f : res A → proc B) t r :
  traces (attempt p ≫= f) t r ↔ ∃ r' t1 t2, t = t1 ++ t2 ∧ traces p t1 r' ∧ traces (f r') t2 r.
Proof.
  rewrite traces_bind. setoid_rewrite traces_attempt. split.
  - intros [(a & t1 & t2 & -> & (r' & [= ->] & H1) & H2)|(e & -> & r' & [=] & _)]. by exists r', t1, t2.
  - intros (r' & t1 & t2 & -> & H1 & H2). left. exists r', t1, t2. eauto.
Qed.

Module ApiProperties.
(** A client is told that its response is complete only once it is stored: when what is yielded for an
    item is a whole response, or a terminal event with a response id, then it is that very item, and all
    the calls made for it are those of a store of that response that returned. *)
Theorem stored_before_told py_format ttl uuids identity parent input conditional it out more id response t :
  traces (persist_item py_format ttl uuids identity parent input conditional it) t (Ok (out, more)) →
  tells_end out = Some (id, response) →
  out = it ∧ traces (of_prog (store_response ttl uuids identity parent input conditional (fmt py_format id) response)) t (Ok tt).
Proof.
  unfold persist_item. destruct it as [id' dump|e|err].
  - intros (r & t1 & t2 & -> & H1 & H2)%traces_attempt_bind. destruct r as [[]|ex].
    + destruct H2 as [-> [= -> ->]]. rewrite app_nil_r. by intros [= <- <-].
    + destruct ex; destruct H2 as [? H2]; try discriminate H2. injection H2 as -> ->. done.
  - destruct (ends_turn e) eqn:Ee.
    + destruct (stored_response e) as [[id' response']|] eqn:Er.
      * intros (r & t1 & t2 & -> & H1 & H2)%traces_attempt_bind. destruct r as [[]|ex].
        -- destruct H2 as [-> [= -> ->]]. rewrite app_nil_r. unfold tells_end. rewrite Ee, Er. by intros [= <- <-].
        -- destruct ex; try (destruct H2 as [? H2]; discriminate H2).
           destruct (store_failure_event e not_stored) as [e'|] eqn:Ef; [|by destruct H2].
           destruct H2 as [_ [= -> ->]]. unfold tells_end. by rewrite (store_failure_no_end _ _ _ Ef).
      * intros [_ [= -> ->]]. unfold tells_end. by rewrite Ee, Er.
    + intros [_ [= -> ->]]. unfold tells_end. by rewrite Ee.
  - by intros [_ [= -> ->]].
Qed.
End ApiProperties.
