(* ===== verification/Background.v ===== *)
(** * Background responses

    [src/modelship/openai/utils/responses.py], background mode: starting, running, cancelling and
    reconciling a run that outlives its request, the stream buffer its events go through, and the
    tailers that replay it. Loops are given by their rounds; [exec] interleaves the tasks of any
    number of runs and tailers with other callers of the store, call by call. *)

From S2P Require Import Prelude StateStore MemoryStore ConfigSchema ResponsesState McpPolicy Tasks Errors ResponseObjects ResponsesApi.
Local Open Scope Z_scope.

Definition HEARTBEAT_INTERVAL : Z := 5 * second.
(** A quarter of a second *)
Definition TAIL_POLL_INTERVAL : Z := 250000000.

Definition TERMINAL_EVENT_OR_FAILED : list string := TERMINAL_EVENT_TYPES ++ ["response.failed"%string].
Definition ends_stream (e : dict json) : bool := existsb (λ ty, type_is ty e) TERMINAL_EVENT_OR_FAILED.

(** [_not_background_error] *)
Definition not_background_error (response_id : string) : exn :=
  api_error ("Response with id '" +:+ response_id +:+ "' is not a background response.")
    "invalid_request_error" 400 None None.

(** [_mark_failed] *)
Definition mark_failed (response : dict json) (message code : string) : dict json :=
  Dict.set "error" (JObj [("code", JStr code); ("message", JStr message)]%string)
    (Dict.set "status" (JStr "failed") response).

(** ** Tailing *)

(** [_terminal_event_from_response] *)
Definition terminal_event_from_response (response : dict json) (after_sequence : Z) : res (option (dict json)) :=
  status ← hashable (py_or (field "status" response) (JStr ""));
  let event_type :=
    if status is JStr s
    then Dict.get s [("completed", "response.completed"); ("incomplete", "response.incomplete"); ("failed", "response.failed")]%string
    else None in
  Ok ((λ ty, [("type", JStr ty); ("sequence_number", JInt (after_sequence + 1)); ("response", JObj response)]%string) <$> event_type).

(** The opening envelope of a response that has ended, and its event *)
Definition created_response (response : dict json) : dict json :=
  Dict.update response
    [("status", JStr "in_progress"); ("output", JList []); ("usage", JNull); ("incomplete_details", JNull);
     ("error", JNull); ("completed_at", JNull)]%string.
Definition created_event (response : dict json) : dict json :=
  [("type", JStr "response.created"); ("sequence_number", JInt 0); ("response", JObj (created_response response))]%string.

(** An event of the buffer; its number, when it has one. *)
Definition event_of (v : json) : res (dict json) :=
  match v with JObj e => Ok e | _ => Err (OtherError "AttributeError") end.
Definition sequence_of (e : dict json) (after_sequence : Z) : res Z :=
  match Dict.get "sequence_number" e with Some v => bound v | None => Ok after_sequence end.

(** The buffered events, in order; the number of the last. *)
Fixpoint replay (events : list json) (after_sequence : Z) : proc Z :=
  match events with
  | [] => Ret after_sequence
  | v :: events =>
      e ← raise_err (event_of v);
      n ← raise_err (sequence_of e after_sequence);
      _ ← ask (Emit e);
      replay events n
  end.

Definition last_ends (events : list json) : bool :=
  match last events with Some (JObj e) => ends_stream e | _ => false end.

Section background.
Context (py_format : json → string) (ttl : option Z).

(** [reconcile_staleness] *)
Definition reconcile_staleness (identity response_id : string) (record : dict json) : proc (dict json) :=
  let response := response_of record in
  let status := field "status" response in
  if negb (Json.eqb status (JStr "queued") || Json.eqb status (JStr "in_progress")) then Ret record
  else
    alive ← suppress true (invoke (IsAlive identity response_id));
    if (alive : bool) then Ret record
    else
      let failed := mark_failed response "Background response orphaned: its worker stopped reporting progress." "server_error" in
      _ ← unavailable_as store_unavailable_error
            (of_prog (write_terminal_if_not_terminal ttl identity response_id failed));
      _ ← suppress_unavailable (of_prog (discard_stream_buffer identity response_id));
      updated ← unavailable_as store_unavailable_error (of_prog (read py_format identity response_id true));
      Ret (default record updated).

(** What a tailer yields for a response that has ended. *)
Definition tail_end (response : dict json) (after_sequence : Z) : proc (option Z) :=
  after_sequence ← (if after_sequence <? 0 then _ ← ask (Emit (created_event response)); Ret 0 else Ret after_sequence);
  terminal ← raise_err (terminal_event_from_response response after_sequence);
  _ ← match terminal with Some e => ask (Emit e) | None => Ret tt end;
  Ret None.

(** A round of [tail_background_events]: where the next one goes on, or [None] at its return. *)
Definition tail_round (identity response_id : string) (after_sequence : Z) : proc (option Z) :=
  events ← attempt (of_prog (read_stream_events_after identity response_id after_sequence));
  match events with
  | Err StateStoreUnavailableError => Ret None
  | Err e => Raise e
  | Ok [] =>
      record ← attempt (of_prog (read py_format identity response_id true));
      match record with
      | Err StateStoreUnavailableError | Ok None => Ret None
      | Err e => Raise e
      | Ok (Some record) =>
          record ← reconcile_staleness identity response_id record;
          let response := response_of record in
          terminal ← raise_err (is_terminal response);
          if (terminal : bool) then tail_end response after_sequence
          else _ ← ask (Sleep TAIL_POLL_INTERVAL); Ret (Some after_sequence)
      end
  | Ok events =>
      n ← replay events after_sequence;
      Ret (if last_ends events then None else Some n)
  end.

(** ** Starting *)

(** [start_background] *)
Definition start_background `{Envelope} (uuids : nat → string) (identity : string) (request : Request) (req_id : string)
    (parent : option Position) (input_items : list json) : proc (dict json) :=
  uuid ← ask Uuid;
  let response_id := "resp_" +:+ uuid in
  created_at ← ask Time;
  response ← raise_err (build_response_object request
    (mkFields "queued" [] None JNull response_id created_at None None true ""));
  _ ← unavailable_as store_unavailable_error
        (of_prog (write_background ttl uuids identity response_id response parent input_items));
  _ ← suppress tt (invoke (Beat identity response_id req_id));
  Ret response.

(** ** Running *)

(** A run's arguments, and the request id its errors are logged under ([request_id_var]). *)
Record job : Type := mkJob {
  j_identity : string;
  j_response : string;
  j_request : string;
  j_buffered : bool;
  j_logged : string;
}.

(** [buffer_stream_events], for one item; [flush_and_discard] *)
Definition flush_and_discard (j : job) : proc unit :=
  _ ← ask Flushed;
  suppress_unavailable (of_prog (discard_stream_buffer (j_identity j) (j_response j))).
Definition tee (j : job) (it : stream_item) : proc unit :=
  match it with
  | SEvent e =>
      if j_buffered j then _ ← ask (Buffer e); if ends_stream e then flush_and_discard j else Ret tt
      else Ret tt
  | _ => Ret tt
  end.

(** What a run's stream says of its end: [_drain_background_stream]'s variables. *)
Inductive failure : Type :=
| FailedWith (err : ErrorResponse)
| FailedResponse (response : json).
Record drained : Type := mkDrained {
  saw_ok_terminal : bool;
  failed_response : option failure;
  error_type : string;
  started : bool;
}.
Definition not_drained : drained := mkDrained false None "stream_error" false.

Definition took (it : stream_item) (d : drained) : drained :=
  match it with
  | SError err => mkDrained (saw_ok_terminal d) (Some (FailedWith err)) "inference_error" true
  | SResponse _ _ => mkDrained (saw_ok_terminal d) (failed_response d) (error_type d) true
  | SEvent e =>
      if ends_turn e then mkDrained true (failed_response d) (error_type d) true
      else if type_is "response.failed" e then
        mkDrained (saw_ok_terminal d) (match field "response" e with JNull => None | r => Some (FailedResponse r) end)
          (error_type d) true
      else mkDrained (saw_ok_terminal d) (failed_response d) (error_type d) true
  end.

(** The stream raised. *)
Definition broke (e : exn) (d : drained) : drained :=
  match started d, e with
  | false, RayTaskError (ValueError m) _ =>
      mkDrained (saw_ok_terminal d) (Some (FailedWith (validation_error_from_cause (ValueError m)))) "validation_error" false
  | _, _ => d
  end.

(** The next item through [persist_response] and [buffer_stream_events]; and whether there is more. *)
Definition next_item (j : job) : proc (option (stream_item * bool)) :=
  it ← invoke Next;
  match it with
  | None => Ret None
  | Some it =>
      out ← persist_item py_format ttl (λ _, ""%string) (j_identity j) None [] true it;
      _ ← tee j out.1;
      Ret (Some out)
  end.

(** A round of [_drain_background_stream]. *)
Definition drain_round (j : job) (d : drained) : proc (drained * bool) :=
  r ← attempt (next_item j);
  Ret (match r with
       | Err e => (broke e d, false)
       | Ok None => (d, false)
       | Ok (Some (it, more)) => (took it d, more)
       end).

(** A round of [_heartbeat_loop]: whether the run was found cancelled. *)
Definition heartbeat_round (j : job) : proc bool :=
  _ ← ask (Sleep HEARTBEAT_INTERVAL);
  _ ← suppress tt (invoke (Beat (j_identity j) (j_response j) (j_request j)));
  suppress false (invoke (IsCancelled (j_request j))).

(** [_write_failed] *)
Definition write_failed (j : job) (error : ErrorResponse) : proc unit :=
  record ← of_prog (read py_format (j_identity j) (j_response j) true);
  match record with
  | None => Ret tt
  | Some record =>
      let code := (if http_status error <? 500 then "invalid_prompt"%string else "server_error"%string) in
      of_prog (write_terminal_if_not_terminal ttl (j_identity j) (j_response j)
        (mark_failed (response_of record) (err_message error) code))
  end.

(** The end of [run_background], once its stream is drained. A failed response that is no object
    would raise in the store's write. *)
Definition ending (j : job) (d : drained) : proc unit :=
  match failed_response d with
  | Some (FailedWith err) => write_failed j err
  | Some (FailedResponse (JObj response)) =>
      of_prog (write_terminal_if_not_terminal ttl (j_identity j) (j_response j) response)
  | Some (FailedResponse _) => Raise (OtherError "AttributeError")
  | None =>
      if saw_ok_terminal d then Ret tt
      else _ ← suppress false (invoke (IsCancelled (j_request j))); write_failed j (server_error (j_logged j) 500)
  end.

(** ** Cancelling *)

(** [signal_background_cancel_if_in_progress] *)
Definition signal_cancel (identity response_id : string) : proc unit :=
  req_id ← suppress None (invoke (ReqIdFor identity response_id));
  match req_id with
  | Some req_id => if bool_decide (req_id = ""%string) then Ret tt else suppress tt (invoke (SetCancelled req_id))
  | None => Ret tt
  end.
Definition signal_background_cancel_if_in_progress (identity response_id : string) (record : dict json) : proc unit :=
  let response := response_of record in
  if negb (Json.truthy (field "background" response)) then Ret tt
  else
    terminal ← raise_err (is_terminal response);
    if (terminal : bool) then Ret tt else signal_cancel identity response_id.

(** [cancel_background] *)
Definition cancel_background (identity response_id : string) : proc (dict json) :=
  record ← load_record py_format identity response_id;
  let response := response_of record in
  if negb (Json.truthy (field "background" response)) then Raise (not_background_error response_id)
  else
    terminal ← raise_err (is_terminal response);
    if (terminal : bool) then Ret response
    else
      _ ← signal_cancel identity response_id;
      completed_at ← ask Time;
      let cancelled := Dict.set "completed_at" (JInt completed_at) (Dict.set "status" (JStr "cancelled") response) in
      _ ← unavailable_as store_unavailable_error
            (of_prog (write_terminal_if_not_terminal ttl identity response_id cancelled));
      _ ← suppress_unavailable (of_prog (discard_stream_buffer identity response_id));
      updated ← load_record py_format identity response_id;
      Ret (response_of updated).
End background.

(** ** Tasks among others

    The registries' answers, the clock in seconds and the ids drawn, at each clock reading. *)

Class Env : Type := {
  dispatched : Z → res unit;
  is_alive : string → string → Z → res bool;
  beat : string → string → string → Z → res unit;
  req_id_for : string → string → Z → res (option string);
  set_cancelled : string → Z → res unit;
  is_cancelled : string → Z → res bool;
  time : Z → Z;
  random_uuid : Z → string;
}.

(** What a task has of its own: what is left of the loader's stream, the scheduled appends, and what it
    yielded. *)
Record local : Type := mkLocal {
  stream : list (res stream_item);
  queue : list (dict json);
  yielded : list (dict json);
}.
Definition fresh : local := mkLocal [] [] [].

Section exec.
Context `{Env} `{StateStore T}.

(** A call at clock reading [now]: [None] while it has to wait. An exception ends the loader's stream. *)
Definition perform {B} (c : io B) (now : Z) (l : local) (s : T) : option (B * local * T) :=
  match c with
  | Store op => let '(s, r) := ss_run op now s in Some (r, l, s)
  | Dispatch => Some (dispatched now, l, s)
  | Next =>
      match stream l with
      | [] => Some (Ok None, l, s)
      | Ok it :: rest => Some (Ok (Some it), mkLocal rest (queue l) (yielded l), s)
      | Err e :: _ => Some (Err e, mkLocal [] (queue l) (yielded l), s)
      end
  | Emit e => Some (tt, mkLocal (stream l) (queue l) (yielded l ++ [e]), s)
  | Buffer e => Some (tt, mkLocal (stream l) (queue l ++ [e]) (yielded l), s)
  | Flushed => match queue l with [] => Some (tt, l, s) | _ => None end
  | IsAlive i r => Some (is_alive i r now, l, s)
  | Beat i r q => Some (beat i r q now, l, s)
  | ReqIdFor i r => Some (req_id_for i r now, l, s)
  | SetCancelled q => Some (set_cancelled q now, l, s)
  | IsCancelled q => Some (is_cancelled q now, l, s)
  | Sleep _ => Some (tt, l, s)
  | Time => Some (time now, l, s)
  | Uuid => Some (random_uuid now, l, s)
  end.

(** The task's next call. *)
Definition advance {A} (p : proc A) (now : Z) (l : local) (s : T) : proc A * local * T :=
  match p with
  | Do c k => match perform c now l s with Some (b, l, s) => (k b, l, s) | None => (p, l, s) end
  | _ => (p, l, s)
  end.

(** Where [run_background] is: before [asyncio.wait], after it, in its [finally], or over. *)
Inductive phase : Type :=
| Starting (p : proc (res unit))
| Draining (d : drained) (p : proc (drained * bool))
| Ending (p : proc unit)
| Discarding (e : option exn) (p : proc unit)
| Over (e : option exn).

(** A run: its main and drain tasks, its heartbeat, and its buffer's appends. *)
Record background_run : Type := mkRun { r_job : job; r_phase : phase; r_heart : proc bool; r_local : local }.

Context (py_format : json → string) (ttl : option Z) (stream_ttl : Z).

Definition new_run (j : job) (items : list (res stream_item)) : background_run :=
  mkRun j (Starting (attempt (invoke Dispatch))) (heartbeat_round j) (mkLocal items [] []).

(** [finally] *)
Definition finish (j : job) (e : option exn) : phase :=
  if j_buffered j then Discarding e (flush_and_discard j) else Over e.

(** What follows a step of the main task. *)
Definition settle_phase (j : job) (ph : phase) : phase :=
  match ph with
  | Starting (Ret (Ok _)) => Draining not_drained (drain_round py_format ttl j not_drained)
  | Starting (Ret (Err _)) => Ending (write_failed py_format ttl j (server_error (j_logged j) 500))
  | Draining _ (Ret (d, true)) => Draining d (drain_round py_format ttl j d)
  | Draining _ (Ret (d, false)) => Ending (ending py_format ttl j d)
  | Starting (Raise e) | Draining _ (Raise e) | Ending (Raise e) => finish j (Some e)
  | Ending (Ret _) => finish j None
  | Discarding e (Ret _) => Over e
  | Discarding _ (Raise e) => Over (Some e)
  | ph => ph
  end.

Definition main_step (now : Z) (r : background_run) (s : T) : background_run * T :=
  let to ph l := mkRun (r_job r) (settle_phase (r_job r) ph) (r_heart r) l in
  match r_phase r with
  | Starting p => let '(p, l, s) := advance p now (r_local r) s in (to (Starting p) l, s)
  | Draining d p => let '(p, l, s) := advance p now (r_local r) s in (to (Draining d p) l, s)
  | Ending p => let '(p, l, s) := advance p now (r_local r) s in (to (Ending p) l, s)
  | Discarding e p => let '(p, l, s) := advance p now (r_local r) s in (to (Discarding e p) l, s)
  | Over _ => (r, s)
  end.

(** Whether the drain task waits for the scheduled appends. *)
Definition awaits_flush {A} (p : proc A) : bool := match p with Do Flushed _ => true | _ => false end.

(** The heartbeat found the run cancelled. A drain task that waits for the appends takes them with it, and
    the [finally] that waits for them again is cancelled too. *)
Definition cancelled (r : background_run) : background_run :=
  match r_phase r with
  | Draining _ p =>
      let l := r_local r in
      if awaits_flush p && negb (bool_decide (queue l = []))
      then mkRun (r_job r) (Over (Some CancelledError)) (r_heart r) (mkLocal (stream l) [] (yielded l))
      else mkRun (r_job r) (finish (r_job r) None) (r_heart r) l
  | _ => r
  end.

Definition heart_step (now : Z) (r : background_run) (s : T) : background_run * T :=
  match r_phase r with
  | Draining _ _ =>
      let '(p, l, s) := advance (r_heart r) now (r_local r) s in
      let r := mkRun (r_job r) (r_phase r) p l in
      (match p with
       | Ret true => cancelled r
       | Ret false => mkRun (r_job r) (r_phase r) (heartbeat_round (r_job r)) l
       | _ => r
       end, s)
  | _ => (r, s)
  end.

(** [_chained_append]: the first scheduled append, whatever comes of it. *)
Definition append_step (now : Z) (r : background_run) (s : T) : background_run * T :=
  match queue (r_local r) with
  | [] => (r, s)
  | e :: q =>
      let '(s, _) := run (append_stream_event stream_ttl (j_identity (r_job r)) (j_response (r_job r)) e) now s in
      (mkRun (r_job r) (r_phase r) (r_heart r) (mkLocal (stream (r_local r)) q (yielded (r_local r))), s)
  end.

(** The tasks that share a store: a caller of its operations, one of the tasks above, a tailer, a run. *)
Inductive actor : Type :=
| Caller (p : prog unit)
| Once {A : Type} (p : proc A) (l : local)
| Tailer (identity response_id : string) (p : proc (option Z)) (l : local)
| Running (r : background_run).

(** [tail_background_events] *)
Definition new_tailer (identity response_id : string) (after_sequence : Z) : actor :=
  Tailer identity response_id (tail_round py_format ttl identity response_id after_sequence) fresh.

(** Which task of a run takes its step. *)
Inductive turn : Set := Main | Heart | Append.

Definition actor_step (t : turn) (now : Z) (a : actor) (s : T) : actor * T :=
  match a with
  | Caller p => let '(s, p) := resume p now s in (Caller p, s)
  | Once p l => let '(p, l, s) := advance p now l s in (Once p l, s)
  | Tailer i rid p l =>
      let '(p, l, s) := advance p now l s in
      (Tailer i rid (match p with Ret (Some n) => tail_round py_format ttl i rid n | _ => p end) l, s)
  | Running r =>
      let '(r, s) := match t with Main => main_step now r s | Heart => heart_step now r s | Append => append_step now r s end in
      (Running r, s)
  end.

(** A step of the task the schedule names, at its clock reading. *)
Definition step (c : list actor * T) (it : nat * turn * Z) : list actor * T :=
  match c.1 !! it.1.1 with
  | Some a => let '(a, s) := actor_step it.1.2 it.2 a c.2 in (<[it.1.1 := a]> c.1, s)
  | None => c
  end.
Definition exec (sched : list (nat * turn * Z)) (c : list actor * T) : list actor * T := foldl step c sched.
End exec.
