(* ===== verification/BackgroundTheorems.v ===== *)
(** * What a tailer yields

    The events that are replayed of a background response come in order, each once, whatever other
    callers, runs and tailers do meanwhile. *)

From S2P Require Import Prelude StateStore MemoryStore ConfigSchema ResponsesState ResponsesLogs ResponsesTheorems Liveness.
From S2P Require Import McpPolicy Tasks Errors ResponseObjects ResponsesApi Background.
Import SessionFacts FailureFacts LogFacts.
Local Open Scope Z_scope.

(** ** The buffers *)

Definition is_stream (k : string) : Prop := ∃ i r, k = stream_key i r.

(** An event's number, when it has one. *)
Definition number (e : dict json) : option Z := int_of (default JNull (Dict.get "sequence_number" e)).

(** Entries at their events' numbers plus one, in order. *)
Record numbered (es : list (Z * json)) : Prop := {
  numbered_sorted : StronglySorted Z.lt es.*1;
  numbered_events : Forall (λ pv, ∃ e, pv.2 = JObj e ∧ number e = Some (pv.1 - 1)) es
}.

(** Every buffer that shows is numbered. *)
Definition buffers_ok (now : Z) (m : content) : Prop :=
  ∀ k v x, is_stream k → live now (m k) = Some (v, x) → ∃ es, v = JList (log_of es) ∧ numbered es.

(** A store call that keeps them so. *)
Definition keeps_buffers (B : Type) (op : store_op B) : Prop :=
  match op with
  | OSet k _ _ => ¬ is_stream k
  | OAppend k p v _ => is_stream k → ∃ e, v = JObj e ∧ number e = Some (p - 1)
  | OAppendAndSet lk _ _ k _ _ _ => ¬ is_stream lk ∧ ¬ is_stream k
  | _ => True
  end.

(** ** What a task stores and yields *)

(** The store calls of a task *)
Fixpoint storing (P : ∀ B, store_op B → Prop) {A} (p : proc A) : Prop :=
  match p with
  | Do c k => match c with Store op => P _ op | _ => True end ∧ ∀ b, storing P (k b)
  | _ => True
  end.

(** What is known of a store's answer: a buffer's events are numbered, from where they are read. *)
Definition store_answer {B} (op : store_op B) : res B → Prop :=
  match op with
  | OReadRange k lo None => λ r, is_stream k → ∀ l, r = Ok l →
      ∃ es, l = es.*2 ∧ numbered es ∧ Forall (λ pv, lo ≤ pv.1) es
  | _ => λ _, True
  end.
Definition may_answer {B} (c : io B) : B → Prop :=
  match c with Store op => store_answer op | _ => λ _, True end.
Definition emission {B} (c : io B) : option (dict json) := match c with Emit e => Some e | _ => None end.

(** From number [a] on, the task's events are numbered upwards; [Q] holds of the last number and the
    value at its return. *)
Fixpoint upwards (a : Z) {A} (p : proc A) (Q : Z → A → Prop) : Prop :=
  match p with
  | Ret x => Q a x
  | Raise _ => True
  | Do c k => ∀ b, may_answer c b →
      match emission c with
      | Some e => ∃ n, number e = Some n ∧ a < n ∧ upwards n (k b) Q
      | None => upwards a (k b) Q
      end
  end.

(** The task yields nothing. *)
Fixpoint quiet {A} (p : proc A) : Prop :=
  match p with Do c k => emission c = None ∧ ∀ b, quiet (k b) | _ => True end.

(** ** Who takes part *)

Section parts.
Context (py_format : json → string) (ttl : option Z).

(** A request's own task. *)
Inductive request_task : ∀ {A : Type}, proc A → Prop :=
| does_start `{Envelope} us i q rid p l : request_task (start_background ttl us i q rid p l)
| does_cancel i rid : request_task (cancel_background py_format ttl i rid)
| does_signal i rid d : request_task (signal_background_cancel_if_in_progress i rid d)
| does_delete i rid : request_task (delete_record i rid)
| does_load i rid : request_task (load_record py_format i rid)
| does_reconcile i rid d : request_task (reconcile_staleness py_format ttl i rid d).

Inductive joins : actor → Prop :=
| join_caller p : caller py_format ttl p → joins (Caller p)
| join_request A (p : proc A) : request_task p → joins (Once p fresh)
| join_tailer i rid a : joins (new_tailer py_format ttl i rid a)
| join_run j items : joins (Running (new_run j items)).
End parts.

(** ** Lemmas *)

Module BufferFacts.

Lemma stream_is_stream i r : is_stream (stream_key i r).
Proof. by exists i, r. Qed.
Lemma key_not_stream i r : ¬ is_stream (key i r).
Proof. intros (i' & l & E). unfold key, stream_key in E. cbn in E. discriminate. Qed.
Lemma log_not_stream i r : ¬ is_stream (log_key i r).
Proof. intros (i' & l & E). unfold log_key, stream_key in E. cbn in E. discriminate. Qed.

Lemma emitted_keeps ttl i {B} (op : store_op B) : emitted ttl i B op → keeps_buffers B op.
Proof.
  destruct 1; cbn; auto using key_not_stream, log_not_stream.
  intros _. exists e. split; [done|]. unfold number. rewrite H. f_equal. lia.
Qed.

Lemma buffers_mono now now' m : now ≤ now' → buffers_ok now m → buffers_ok now' m.
Proof. intros Hn Hm k v x Hk Hv. eapply Hm; [done|]. by eapply live_later. Qed.

Lemma buffers_same now m m' : same_from now m m' → buffers_ok now m → buffers_ok now m'.
Proof. intros E Hm k v x Hk Hv. eapply Hm; [done|]. by rewrite (same_from_now _ _ _ k E). Qed.

Lemma buffer_log now m k : buffers_ok now m → is_stream k → ∃ es, Spec.log k now m = log_of es ∧ numbered es.
Proof.
  intros Hm Hk. unfold Spec.log. destruct (live now (m k)) as [[v x]|] eqn:E.
  - destruct (Hm k v x Hk E) as (es & -> & Hn). by exists es.
  - exists []. split; [done|]. repeat constructor.
Qed.

Lemma buffer_snoc es p v e :
  numbered es → (∀ q, last es.*1 = Some q → q < p) → v = JObj e → number e = Some (p - 1) → numbered (es ++ [(p, v)]).
Proof.
  intros [Hs He] Hp -> Hn. split; [rewrite fmap_app; by apply sorted_snoc|].
  apply Forall_app. split; [done|]. repeat constructor. by exists e.
Qed.

(** A call that keeps the buffers, at the store's level. *)
Lemma keeps_effect {B} (op : store_op B) now m :
  keeps_buffers B op → buffers_ok now m → buffers_ok now (effect op now m).
Proof.
  intros Hop Hm k v x Hk.
  destruct op as [k'|k' v' t|k'|prefix|k' p v' t|lk p e k' v' t ife|k' lo hi|k' t]; cbn [effect keeps_buffers] in *; try by apply Hm.
  - unfold Spec.set, Spec.upd. rewrite decide_False by congruence. by apply Hm.
  - unfold Spec.delete, Spec.upd. case_decide; [done|by apply Hm].
  - destruct (Spec.append k' p v' t now m) as [[m'|]|] eqn:E; [|by apply Hm..].
    destruct (decide (k = k')) as [->|Hne].
    + specialize (Hop Hk) as (e & Hv & He). destruct (buffer_log now m k' Hm Hk) as (es & Hl & Hn).
      unfold Spec.append in E. rewrite Hl, last_log_of in E.
      assert (Spec.set k' (JList (log_of (es ++ [(p, v')]))) t now m = m' ∧ ∀ q, last es.*1 = Some q → q < p) as [<- Hq].
      { rewrite fmap_last. unfold log_of in *. rewrite fmap_app. destruct (last es) as [[q w]|]; cbn in *; [|by injection E as <-].
        unfold py_ge in E; cbn in E. destruct (Z.leb_spec p q); [done|]. injection E as <-. split; [done|]. by intros ? [= <-]. }
      unfold Spec.set, Spec.upd. rewrite decide_True by done. intros [= <- _]%live_Some.
      eexists. split; [done|]. by eapply buffer_snoc.
    + destruct (append_sets _ _ _ _ _ _ _ E) as [y ->]. unfold Spec.set, Spec.upd. rewrite decide_False by done. by apply Hm.
  - destruct Hop as [Hlk Hk']. unfold Spec.append_and_set. destruct (ife && _); [by apply Hm|].
    destruct (Spec.append lk p e t now m) as [[m'|]|] eqn:E; [|by apply Hm..].
    destruct (append_sets _ _ _ _ _ _ _ E) as [y ->]. unfold Spec.set, Spec.upd. rewrite !decide_False by congruence. by apply Hm.
  - unfold Spec.expire. destruct (live now (m k')) as [[w y]|] eqn:E; [|by apply Hm]. unfold Spec.upd.
    case_decide as Hd; [|by apply Hm]. subst k'. intros [= <- _]%live_Some. by eapply Hm.
Qed.

Section store.
Context `{StateStoreAtomic T}.
Implicit Types (s : T).

Lemma op_buffers {B} (op : store_op B) now s :
  ss_valid s → buffers_ok now (cells s) → keeps_buffers B op →
  ss_valid (ss_run op now s).1 ∧ buffers_ok now (cells (ss_run op now s).1) ∧ store_answer op (ss_run op now s).2.
Proof.
  intros Hv Hb Hop. pose proof (ss_run_valid op now s Hv) as Hv'.
  destruct (ss_run op now s) as [s' [b|e]] eqn:E; cbn [fst snd] in *.
  - destruct (ss_run_ok op now s s' b Hv E) as [Hr Hs]. split_and!; [done| |].
    + eapply buffers_same; [symmetry; exact Hs|by apply keeps_effect].
    + destruct op as [| | | | | |k lo [hi|]|]; try done. intros Hk l [= <-].
      cbn [result] in Hr. destruct (buffer_log now (cells s) k Hb Hk) as (es & Hl & [Hn He]).
      unfold Spec.read_range in Hr. rewrite Hl, select_log_of in Hr. injection Hr as <-.
      eexists. split; [done|]. split.
      * split; [by apply filter_sorted|]. rewrite Forall_forall in He |- *. intros x [_ Hx]%list_elem_of_filter. by apply He.
      * apply Forall_forall. intros x [Hw _]%list_elem_of_filter. unfold within in Hw. lia.
  - pose proof (ss_raise_same _ op now s s' e Hv E) as Hs. split_and!; [done|eapply buffers_same; [symmetry; exact Hs|done]|].
    by destruct op as [| | | | | |k lo [hi|]|].
Qed.
End store.

(** *** Tasks *)

Section storing.
Context (P : ∀ B, store_op B → Prop).

Lemma storing_bind {A B} (p : proc A) (f : A → proc B) :
  storing P p → (∀ a, storing P (f a)) → storing P (p ≫= f).
Proof.
  intros Hp Hf. change (storing P (proc_bind f p)). induction p as [a|e|C c k IH]; cbn; [auto|done|].
  destruct Hp as [Hc Hk]. auto.
Qed.
Lemma storing_raise_err {A} (r : res A) : storing P (raise_err r).
Proof. by destruct r. Qed.
Lemma storing_invoke {B} (c : io (res B)) : match c with Store op => P _ op | _ => True end → storing P (invoke c).
Proof. intros Hc. split; [done|]. intros b. apply storing_raise_err. Qed.
Lemma storing_attempt {A} (p : proc A) : storing P p → storing P (attempt p).
Proof. induction p as [a|e|C c k IH]; cbn; [done..|]. intros [? ?]. auto. Qed.
Lemma storing_of_prog {A} (p : prog A) : issues P p → storing P (of_prog p).
Proof. induction p as [a|e|C op k IH]; cbn; [done..|]. intros [? ?]. split; [done|]. intros [b|e]; cbn; auto. Qed.
Lemma storing_unavailable_as {A} e (p : proc A) : storing P p → storing P (unavailable_as e p).
Proof.
  intros Hp. unfold unavailable_as. apply storing_bind; [by apply storing_attempt|].
  intros [a|x]; [done|]. by destruct x.
Qed.
Lemma storing_suppress_unavailable (p : proc unit) : storing P p → storing P (suppress_unavailable p).
Proof.
  intros Hp. unfold suppress_unavailable. apply storing_bind; [by apply storing_attempt|].
  intros [a|x]; [done|]. by destruct x.
Qed.
Lemma storing_suppress {A} (d : A) (p : proc A) : storing P p → storing P (suppress d p).
Proof.
  intros Hp. unfold suppress. apply storing_bind; [by apply storing_attempt|]. by intros [a|x].
Qed.
End storing.

Lemma upwards_bind {A B} (p : proc A) (f : A → proc B) a Q :
  upwards a p (λ n x, upwards n (f x) Q) → upwards a (p ≫= f) Q.
Proof.
  change (p ≫= f) with (proc_bind f p). induction p as [x|e|C c k IH] in a |- *; cbn; [done..|].
  intros Hp b Hb. specialize (Hp b Hb). destruct (emission c) as [e|]; [|by apply IH].
  destruct Hp as (n & He & Hn & Hp). exists n. split_and!; [done..|]. by apply IH.
Qed.
Lemma upwards_mono {A} (p : proc A) a (Q R : Z → A → Prop) :
  (∀ n x, a ≤ n → Q n x → R n x) → upwards a p Q → upwards a p R.
Proof.
  induction p as [x|e|C c k IH] in a |- *; cbn; [intros HQ; apply HQ; lia|done|].
  intros HQ Hp b Hb. specialize (Hp b Hb). destruct (emission c) as [e|]; [|by apply IH].
  destruct Hp as (n & He & Hn & Hp). exists n. split_and!; [done..|]. apply IH; [|done]. intros m x Hm. apply HQ. lia.
Qed.
Lemma quiet_upwards {A} (p : proc A) a (Q : Z → A → Prop) : quiet p → (∀ x, Q a x) → upwards a p Q.
Proof. intros Hp HQ. induction p as [x|e|C c k IH]; cbn; [done..|]. destruct Hp as [-> Hp]. auto. Qed.

Lemma quiet_bind {A B} (p : proc A) (f : A → proc B) : quiet p → (∀ x, quiet (f x)) → quiet (p ≫= f).
Proof.
  intros Hp Hf. change (quiet (proc_bind f p)). induction p as [a|e|C c k IH]; cbn; [auto|done|].
  destruct Hp as [Hc Hk]. auto.
Qed.
Lemma quiet_raise_err {A} (r : res A) : quiet (raise_err r).
Proof. by destruct r. Qed.
Lemma quiet_invoke {B} (c : io (res B)) : emission c = None → quiet (invoke c).
Proof. split; [done|]. intros b. apply quiet_raise_err. Qed.
Lemma quiet_attempt {A} (p : proc A) : quiet p → quiet (attempt p).
Proof. induction p as [a|e|C c k IH]; cbn; [done..|]. intros [? ?]. auto. Qed.
Lemma quiet_of_prog {A} (p : prog A) : quiet (of_prog p).
Proof. induction p as [a|e|C op k IH]; cbn; [done..|]. split; [done|]. by intros [b|e]. Qed.
Lemma quiet_unavailable_as {A} e (p : proc A) : quiet p → quiet (unavailable_as e p).
Proof. intros Hp. apply quiet_bind; [by apply quiet_attempt|]. intros [a|x]; [done|]. by destruct x. Qed.
Lemma quiet_suppress_unavailable (p : proc unit) : quiet p → quiet (suppress_unavailable p).
Proof. intros Hp. apply quiet_bind; [by apply quiet_attempt|]. intros [a|x]; [done|]. by destruct x. Qed.
Lemma quiet_suppress {A} (d : A) (p : proc A) : quiet p → quiet (suppress d p).
Proof. intros Hp. apply quiet_bind; [by apply quiet_attempt|]. by intros [a|x]. Qed.

(** Decomposes a task into its calls. *)
Create HintDb tasks.
#[local] Hint Resolve storing_raise_err quiet_raise_err quiet_of_prog : tasks.
Ltac by_tasks :=
  repeat first
    [ done
    | solve [auto with tasks nocore]
    | apply storing_attempt | apply storing_unavailable_as | apply storing_suppress_unavailable | apply storing_suppress
    | apply storing_invoke; done
    | apply storing_bind; [|intros ?]
    | apply quiet_attempt | apply quiet_unavailable_as | apply quiet_suppress_unavailable | apply quiet_suppress
    | apply quiet_invoke; done
    | apply quiet_bind; [|intros ?]
    | split; [done|intros ?]
    | case_match ].

Section tasks.
Context (py_format : json → string) (ttl : option Z).
Notation keeps p := (storing keeps_buffers p).

Lemma operation_keeps {A} i (p : prog A) : operation py_format ttl i p → issues keeps_buffers p.
Proof. intros Hp. eapply issues_mono; [|by eapply operation_ok]. intros B op. apply emitted_keeps. Qed.

Lemma op_task {A} i (p : prog A) : operation py_format ttl i p → keeps (of_prog p).
Proof. intros Hp. by eapply storing_of_prog, operation_keeps. Qed.

Lemma read_task i r b : keeps (of_prog (read py_format i r b)).
Proof. eapply op_task, op_read. Qed.
Lemma read_events_task i r n : keeps (of_prog (read_stream_events_after i r n)).
Proof. eapply op_task, op_read_events. Qed.
Lemma discard_task i r : keeps (of_prog (discard_stream_buffer i r)).
Proof. eapply op_task, op_discard. Qed.
Lemma delete_task i r : keeps (of_prog (delete i r)).
Proof. eapply op_task, op_delete. Qed.
Lemma write_terminal_task i r x : keeps (of_prog (write_terminal_if_not_terminal ttl i r x)).
Proof. eapply op_task, op_write_terminal. Qed.
Lemma write_background_task us i r x p l : keeps (of_prog (write_background ttl us i r x p l)).
Proof. eapply op_task, op_write_background. Qed.
#[local] Hint Resolve read_task read_events_task discard_task delete_task write_terminal_task write_background_task : tasks.

Lemma load_record_task i r : keeps (load_record py_format i r).
Proof. unfold load_record. by_tasks. Qed.
Lemma reconcile_task i r d : keeps (reconcile_staleness py_format ttl i r d).
Proof. unfold reconcile_staleness. by_tasks. Qed.
Lemma reconcile_quiet i r d : quiet (reconcile_staleness py_format ttl i r d).
Proof. unfold reconcile_staleness. by_tasks. Qed.
Lemma signal_task i r : keeps (signal_cancel i r).
Proof. unfold signal_cancel. by_tasks. Qed.
Lemma replay_task l n : keeps (replay l n).
Proof. revert n. induction l as [|v l IH]; intros n; cbn [replay]; by_tasks. Qed.
#[local] Hint Resolve load_record_task reconcile_task reconcile_quiet signal_task replay_task : tasks.

Lemma tail_round_task i r n : keeps (tail_round py_format ttl i r n).
Proof. unfold tail_round, tail_end. by_tasks. Qed.
Lemma cancel_task i r : keeps (cancel_background py_format ttl i r).
Proof. unfold cancel_background. by_tasks. Qed.
Lemma delete_record_task i r : keeps (delete_record i r).
Proof. unfold delete_record. by_tasks. Qed.
Lemma start_task `{Envelope} us i q rid p l : keeps (start_background ttl us i q rid p l).
Proof. unfold start_background. by_tasks. Qed.
Lemma flush_task j : keeps (flush_and_discard j).
Proof. unfold flush_and_discard. by_tasks. Qed.
Lemma write_failed_task j e : keeps (write_failed py_format ttl j e).
Proof. unfold write_failed. by_tasks. Qed.
#[local] Hint Resolve flush_task write_failed_task : tasks.
Lemma persist_task j it : keeps (persist_item py_format ttl (λ _, ""%string) (j_identity j) None [] true it).
Proof. unfold persist_item, store_response. by_tasks. Qed.
#[local] Hint Resolve persist_task : tasks.
Lemma drain_task j d : keeps (drain_round py_format ttl j d).
Proof. unfold drain_round, next_item, tee. by_tasks. Qed.
Lemma heart_task j : keeps (heartbeat_round j).
Proof. unfold heartbeat_round. by_tasks. Qed.
Lemma ending_task j d : keeps (ending py_format ttl j d).
Proof. unfold ending. by_tasks. Qed.

(** *** A tailer's numbers *)

Lemma sequence_of_number e n a : number e = Some n → sequence_of e a = Ok n.
Proof.
  unfold number, sequence_of, bound. destruct (Dict.get "sequence_number" e) as [v|]; [|done]. cbn. by intros ->.
Qed.

Lemma replay_upwards es a :
  numbered es → Forall (λ pv, a + 2 ≤ pv.1) es → upwards a (replay es.*2 a) (λ n x, x = n).
Proof.
  induction es as [|[p v] es IH] in a |- *; [done|]. intros [Hs He] Ha.
  apply Forall_cons in He as [(e & Hv & He) Hes]. apply Forall_cons in Ha as [Ha _]. cbn in *. subst v.
  apply StronglySorted_inv in Hs as [Hs Hp]. cbn. rewrite (sequence_of_number _ _ _ He). cbn. intros _ _.
  exists (p - 1). split_and!; [done|lia|]. apply IH; [done|].
  rewrite Forall_fmap in Hp. eapply Forall_impl; [exact Hp|]. cbn. lia.
Qed.

(** A round goes on after the last number it yielded. *)
Definition goes_on (n : Z) (x : option Z) : Prop := ∀ m, x = Some m → m = n.

Lemma tail_end_upwards response a : upwards a (tail_end response a) goes_on.
Proof.
  assert (∀ a, upwards a (terminal ← raise_err (terminal_event_from_response response a);
    _ ← match terminal with Some e => ask (Emit e) | None => Ret tt end; Ret None) goes_on) as Hend.
  { intros b. unfold terminal_event_from_response. destruct (hashable _) as [v|]; [|done]. cbn.
    destruct (match v with JStr s => _ | _ => _ end) as [ty|]; cbn; [|done]. intros _ _.
    exists (b + 1). split_and!; [done|lia|done]. }
  unfold tail_end. apply upwards_bind. destruct (Z.ltb_spec a 0); [|by apply Hend]. cbn -[created_event]. intros _ _.
  exists 0. split_and!; [done|lia|]. apply Hend.
Qed.

Lemma tail_round_upwards i r a : upwards a (tail_round py_format ttl i r a) goes_on.
Proof.
  unfold tail_round. unfold read_stream_events_after, call. cbn -[read replay is_terminal tail_end].
  intros b Hb. destruct b as [l|e]; cbn -[read replay is_terminal tail_end]; [|by destruct e].
  destruct (Hb (stream_is_stream i r) l eq_refl) as (es & -> & Hn & Hlo). destruct es as [|x es].
  - cbn [fmap list_fmap]. apply upwards_bind, quiet_upwards; [apply quiet_attempt, quiet_of_prog|].
    intros [[record|]|e]; [|done|by destruct e].
    apply upwards_bind, quiet_upwards; [apply reconcile_quiet|]. intros record'.
    apply upwards_bind, quiet_upwards; [apply quiet_raise_err|]. intros [].
    + apply tail_end_upwards.
    + cbn. by intros _ _ m [= <-].
  - change (match (x :: es).*2 with [] => ?p | _ :: _ => ?q end) with q.
    apply upwards_bind. eapply upwards_mono; [|by apply replay_upwards]. cbn. intros n x' _ ->.
    destruct (last_ends _); [done|]. by intros m [= <-].
Qed.
End tasks.

(** *** Steps *)

Section steps.
Context `{Env} `{StateStoreAtomic T} (py_format : json → string) (ttl : option Z) (stream_ttl : Z).
Implicit Types (s : T).
Notation keeps p := (storing keeps_buffers p).

Definition phase_keeps (ph : phase) : Prop :=
  match ph with
  | Starting p => keeps p | Draining _ p => keeps p | Ending p => keeps p | Discarding _ p => keeps p
  | Over _ => True
  end.
Definition actor_keeps (a : actor) : Prop :=
  match a with
  | Caller p => issues keeps_buffers p
  | Once p _ => keeps p
  | Tailer _ _ p _ => keeps p
  | Running r => phase_keeps (r_phase r) ∧ keeps (r_heart r)
  end.

Definition good (now : Z) (s : T) : Prop := ss_valid s ∧ buffers_ok now (cells s).

(** A call that is answered, as it may be. *)
Lemma perform_good {B} (c : io B) now l s b l' s' :
  good now s → match c with Store op => keeps_buffers _ op | _ => True end →
  perform c now l s = Some (b, l', s') →
  good now s' ∧ may_answer c b ∧ yielded l' = yielded l ++ option_list (emission c).
Proof.
  intros [Hv Hb] Hc. destruct c; cbn -[ss_run]; try (intros [= <- <- <-]; cbn; rewrite ?app_nil_r; done).
  - pose proof (op_buffers op now s Hv Hb Hc) as (Hv' & Hb' & Ha). destruct (ss_run op now s) as [s1 r].
    intros [= <- <- <-]. by rewrite app_nil_r.
  - destruct (stream l) as [|[it|e] rest]; intros [= <- <- <-]; cbn; by rewrite app_nil_r.
  - destruct (queue l); [|done]. intros [= <- <- <-]. by rewrite app_nil_r.
Qed.

Lemma advance_good {A} (p : proc A) now l s :
  good now s → keeps p → good now (advance p now l s).2 ∧ keeps (advance p now l s).1.1.
Proof.
  intros Hs Hp. destruct p as [a|e|B c k]; [done..|]. destruct Hp as [Hc Hk]. cbn.
  destruct (perform c now l s) as [[[b l'] s']|] eqn:E; [|done]. cbn.
  destruct (perform_good c now l s b l' s' Hs Hc E). auto.
Qed.

Lemma settle_keeps j ph : phase_keeps ph → phase_keeps (settle_phase py_format ttl j ph).
Proof.
  assert (∀ e, phase_keeps (finish j e)) as Hf by (intros e; unfold finish; destruct (j_buffered j); [apply (flush_task py_format ttl)|done]).
  destruct ph as [[[[]|]| |]|d [[d' []]| |]|[]|e []|]; cbn [settle_phase phase_keeps]; try done; intros _;
    first [apply Hf|apply drain_task|apply ending_task|apply write_failed_task].
Qed.

Lemma main_step_good now r s :
  good now s → actor_keeps (Running r) →
  good now (main_step py_format ttl now r s).2 ∧ actor_keeps (Running (main_step py_format ttl now r s).1).
Proof.
  intros Hs [Hp Hh]. unfold main_step.
  destruct (r_phase r) as [p|d p|p|e p|e] eqn:E; [..|by rewrite <-E in Hp];
    pose proof (advance_good p now (r_local r) s Hs Hp) as [Hs' Hp']; destruct (advance p now (r_local r) s) as [[p' l'] s'];
    cbn [fst snd] in *; (split; [done|]); (split; [|done]); cbn [r_phase]; by apply settle_keeps.
Qed.

Lemma cancelled_keeps r : actor_keeps (Running r) → actor_keeps (Running (cancelled r)).
Proof.
  intros [Hp Hh]. unfold cancelled. destruct (r_phase r) eqn:E; try (split; [by rewrite E|done]).
  destruct (awaits_flush p && _); [done|]. split; [|done]. cbn. unfold finish. destruct (j_buffered _); [apply (flush_task py_format ttl)|done].
Qed.

Lemma heart_step_good now r s :
  good now s → actor_keeps (Running r) →
  good now (heart_step now r s).2 ∧ actor_keeps (Running (heart_step now r s).1).
Proof.
  intros Hs Hr. pose proof Hr as [Hp Hh]. unfold heart_step. destruct (r_phase r) as [|d p| | |] eqn:E; try done.
  pose proof (advance_good (r_heart r) now (r_local r) s Hs Hh) as [Hs' Hh'].
  destruct (advance (r_heart r) now (r_local r) s) as [[p' l'] s']. cbn [fst snd] in *. split; [done|].
  destruct p' as [[]|e|B c k]; [|split; [done|apply heart_task]|by split..]. apply cancelled_keeps. by split.
Qed.

Lemma run_good {A} (p : prog A) now s : good now s → issues keeps_buffers p → good now (run p now s).1.
Proof.
  revert s. induction p as [a|e|B op k IH]; intros s [Hv Hb]; [done..|]. intros [Hop Hk]. cbn.
  pose proof (op_buffers op now s Hv Hb Hop) as (Hv' & Hb' & _). destruct (ss_run op now s) as [s' [b|e]]; [|done].
  by apply IH.
Qed.

Lemma actor_step_good t now a s :
  good now s → actor_keeps a →
  good now (actor_step py_format ttl stream_ttl t now a s).2 ∧ actor_keeps (actor_step py_format ttl stream_ttl t now a s).1.
Proof.
  intros Hs Ha. destruct a as [p|A p l|i rid p l|r]; cbn [actor_step].
  - pose proof (ConversationFacts.resume_issues _ p now s Ha) as Hp. destruct p as [a|e|B op k]; [done..|].
    destruct Ha as [Hop Hk], Hs as [Hv Hb]. pose proof (op_buffers op now s Hv Hb Hop) as (Hv' & Hb' & _).
    cbn in *. by destruct (ss_run op now s) as [s' [b|e]].
  - pose proof (advance_good p now l s Hs Ha) as [Hs' Hp']. by destruct (advance p now l s) as [[p' l'] s'].
  - pose proof (advance_good p now l s Hs Ha) as [Hs' Hp']. destruct (advance p now l s) as [[p' l'] s']. split; [done|].
    destruct p' as [[n|]|e|B c k]; try done. apply tail_round_task.
  - destruct t.
    + pose proof (main_step_good now r s Hs Ha). by destruct (main_step py_format ttl now r s).
    + pose proof (heart_step_good now r s Hs Ha). by destruct (heart_step now r s).
    + unfold append_step. destruct (queue (r_local r)) as [|e q]; [done|].
      pose proof (run_good (append_stream_event stream_ttl (j_identity (r_job r)) (j_response (r_job r)) e) now s Hs) as Hg.
      destruct (run _ now s) as [s' r']. cbn in *. split; [|done]. apply Hg.
      by eapply (operation_keeps py_format ttl), op_append_event.
Qed.

Lemma joins_keeps a : joins py_format ttl a → actor_keeps a.
Proof.
  destruct 1 as [p (i & A & q & Hq & ->)|A p Hp|i rid a|j items].
  - apply issues_bind; [by eapply operation_keeps|done].
  - cbn [actor_keeps]. destruct Hp as [HE us i q rid u l|i rid|i rid d|i rid|i rid|i rid d].
    + by eapply (start_task py_format ttl).
    + by eapply cancel_task.
    + unfold signal_background_cancel_if_in_progress. case_match; [done|].
      apply storing_bind; [apply storing_raise_err|]. intros []; [done|]. apply signal_task.
    + by eapply (delete_record_task py_format ttl).
    + by eapply (load_record_task py_format ttl).
    + apply reconcile_task.
  - apply tail_round_task.
  - split; [|apply heart_task]. cbn. split; [done|]. intros []; done.
Qed.

(** A tailer that yielded numbers up to [a]. *)
Record tails (i rid : string) (after : Z) (act : actor) : Prop := mkTails {
  tails_proc : proc (option Z); tails_local : local; tails_numbers : list Z; tails_last : Z;
  tails_is : act = Tailer i rid tails_proc tails_local;
  tails_yielded : number <$> yielded tails_local = Some <$> tails_numbers;
  tails_sorted : StronglySorted Z.lt (after :: tails_numbers);
  tails_at : last (after :: tails_numbers) = Some tails_last;
  tails_goes : upwards tails_last tails_proc goes_on
}.

Lemma tails_new i rid after : tails i rid after (new_tailer py_format ttl i rid after).
Proof. eapply (mkTails _ _ _ _ _ _ [] after); [done|done|repeat constructor|done|]. apply tail_round_upwards. Qed.

(** After a round, the next one starts. *)
Lemma tails_next i rid after p l ns a :
  number <$> yielded l = Some <$> ns → StronglySorted Z.lt (after :: ns) → last (after :: ns) = Some a →
  upwards a p goes_on →
  tails i rid after (Tailer i rid (match p with Ret (Some n) => tail_round py_format ttl i rid n | _ => p end) l).
Proof.
  intros Hy Hs Hl Hp. eapply (mkTails _ _ _ _ _ _ ns a); [done..|].
  destruct p as [[n|]|e|B c k]; try done. rewrite (Hp n eq_refl). apply tail_round_upwards.
Qed.

Lemma last_cons_snoc {A} (x y : A) l : last (x :: l ++ [y]) = Some y.
Proof. rewrite app_comm_cons. apply last_snoc. Qed.

Lemma tails_step t now i rid after act s :
  good now s → actor_keeps act → tails i rid after act →
  tails i rid after (actor_step py_format ttl stream_ttl t now act s).1.
Proof.
  intros Hg Hk [p l ns a -> Hy Hs Hl Hp]. cbn [actor_step].
  destruct p as [x|e|B c k]; [by apply (tails_next _ _ _ (Ret x) l ns a)|by apply (tails_next _ _ _ (Raise e) l ns a)|].
  cbn [advance]. destruct (perform c now l s) as [[[b l'] s']|] eqn:E; cbn [fst]; [|by apply (tails_next _ _ _ (Do c k) l ns a)].
  destruct Hk as [Hc _]. destruct (perform_good c now l s b l' s' Hg Hc E) as (_ & Hb & Hy').
  specialize (Hp b Hb). destruct (emission c) as [e|]; cbn [option_list] in Hy'.
  - destruct Hp as (n & Hn & Ha & Hp). apply (tails_next _ _ _ _ _ (ns ++ [n]) n).
    + rewrite Hy', !fmap_app, Hy. cbn. by rewrite Hn.
    + rewrite app_comm_cons. apply sorted_snoc; [done|]. rewrite Hl. by intros ? [= <-].
    + apply last_cons_snoc.
    + done.
  - rewrite app_nil_r in Hy'. apply (tails_next _ _ _ _ _ ns a); [by rewrite Hy'|done..].
Qed.

Lemma exec_tails sched i rid after j : ∀ from to actors s act,
  forward from sched to → good from s → Forall actor_keeps actors →
  actors !! j = Some act → tails i rid after act →
  ∃ act', (exec py_format ttl stream_ttl sched (actors, s)).1 !! j = Some act' ∧ tails i rid after act'.
Proof.
  induction sched as [|[[n t] now] sched IH]; intros from to actors s act Hf Hg Ha Hj Ht; [by exists act|].
  destruct Hf as [Hnow Hf]. unfold exec. cbn [foldl]. unfold step at 2. cbn [fst snd].
  assert (good now s) as Hg1 by (destruct Hg; split; [done|by eapply buffers_mono]).
  destruct (actors !! n) as [a|] eqn:En; [|by apply (IH now to actors s act)].
  assert (actor_keeps a) as Hk by (rewrite Forall_forall in Ha; by eapply Ha, list_elem_of_lookup_2).
  pose proof (actor_step_good t now a s Hg1 Hk) as [Hg2 Hk2]. pose proof (λ H, tails_step t now i rid after a s Hg1 Hk H) as Ht2.
  destruct (actor_step py_format ttl stream_ttl t now a s) as [a' s']. cbn [fst snd] in *.
  destruct (decide (n = j)) as [->|Hne].
  - rewrite Hj in En. injection En as <-. apply (IH now to _ _ a'); [done..|by apply Forall_insert| |by apply Ht2].
    apply list_lookup_insert_eq. by eapply lookup_lt_Some.
  - apply (IH now to _ _ act); [done..|by apply Forall_insert| |done]. by rewrite list_lookup_insert_ne.
Qed.
End steps.
End BufferFacts.

(** ** Theorems *)

Module BackgroundProperties.
Import BufferFacts.

(** C20: A stream that is replayed is in order: whatever a background response's run, its cancels, other
    callers, runs and tailers do meanwhile, their calls interleaved in any way, and whatever the
    registries answer, the events a tailer yields are numbered upwards, from after its cursor, so none
    comes twice or after a later one; those it makes up for an ended response too. *)
Theorem tail_in_order `{Env} `{StateStoreAtomic T} py_format ttl stream_ttl actors (s0 : T) t0 sched t1 j i rid after :
  ss_valid s0 → buffers_ok t0 (cells s0) → Forall (joins py_format ttl) actors → forward t0 sched t1 →
  actors !! j = Some (new_tailer py_format ttl i rid after) →
  ∃ p l ns, (exec py_format ttl stream_ttl sched (actors, s0)).1 !! j = Some (Tailer i rid p l) ∧
    number <$> yielded l = Some <$> ns ∧ StronglySorted Z.lt (after :: ns).
Proof.
  intros Hv Hb Ha Hf Hj.
  assert (Forall actor_keeps actors) as Hk by (eapply Forall_impl; [exact Ha|]; intros a; apply joins_keeps).
  destruct (exec_tails py_format ttl stream_ttl sched i rid after j t0 t1 actors s0 _ Hf (conj Hv Hb) Hk Hj (tails_new py_format ttl i rid after))
    as (act & Hact & [p l ns a -> Hy Hs _ _]).
  by exists p, l, ns.
Qed.

(** A run of four events, in a store with its queued record, and one tailer. *)
Definition example_env : Env :=
  {| dispatched := λ _, Ok tt; is_alive := λ _ _ _, Ok true; beat := λ _ _ _ _, Ok tt; req_id_for := λ _ _ _, Ok None;
     set_cancelled := λ _ _, Ok tt; is_cancelled := λ _ _, Ok false; time := λ now, now / second; random_uuid := λ _, "0"%string |}.
Definition delta (n : Z) (text : string) : stream_item :=
  SEvent [("type", JStr "response.output_text.delta"); ("sequence_number", JInt n); ("delta", JStr text)]%string.
Definition finished_response : dict json :=
  [("id", JStr "resp_1"); ("status", JStr "completed"); ("output", JList [JStr "hi there"])]%string.
Definition example_items (hi there : string) : list (res stream_item) :=
  [Ok (SEvent [("type", JStr "response.created"); ("sequence_number", JInt 0)]%string); Ok (delta 1 hi); Ok (delta 2 there);
   Ok (SEvent [("type", JStr "response.completed"); ("sequence_number", JInt 3); ("response", JObj finished_response)]%string)].
Definition queued : dict json :=
  [("response", JObj [("status", JStr "queued"); ("background", JBool true)]); ("parent", JNull); ("input", JList [])]%string.
Definition example_store : Actor.t := Actor.set (key "ann" "resp_1") (JObj queued) None 0 (Actor.init 0 10).
Definition example_job : job := mkJob "ann" "resp_1" "req_1" true "req_1".
Definition example_actors (hi there : string) : list actor :=
  [Running (new_run example_job (example_items hi there)); new_tailer (λ _, ""%string) None "ann" "resp_1" (-1)].
Definition example_sched (l : list (nat * turn)) : list (nat * turn * Z) := imap (λ n x, (x, Z.of_nat n)) l.
Definition example_exec (hi there : string) (l : list (nat * turn)) : list actor * Actor.t :=
  let env := example_env in
  exec (λ _, ""%string) None DEFAULT_STREAM_TTL (example_sched l) (example_actors hi there, example_store).

(** The run takes two items, which are appended; the tailer polls, and sleeps. *)
Definition first_poll : list (nat * turn) := replicate 5 (0, Main)%nat ++ [(0, Append); (0, Append)]%nat ++ replicate 5 (1, Main)%nat.
(** The run ends, its buffer is discarded, and the tailer polls again. *)
Definition run_ends : list (nat * turn) :=
  replicate 6 (0, Main)%nat ++ [(0, Append); (0, Append)]%nat ++ replicate 10 (0, Main)%nat ++ replicate 6 (1, Main)%nat.

Lemma example_buffers : buffers_ok 0 (cells example_store).
Proof.
  intros k v x Hk. change (cells example_store k) with (Dict.get k [(key "ann" "resp_1", (JObj queued, @None Z))]).
  cbn [Dict.get]. case_decide; [subst k; by apply key_not_stream in Hk|done].
Qed.

Lemma example_joins hi there : Forall (joins (λ _, ""%string) None) (example_actors hi there).
Proof. repeat constructor. Qed.

Lemma tail_in_order_witness :
  let c := example_exec "hi" " there" first_poll in
  ∃ p l ns, c.1 !! 1%nat = Some (Tailer "ann" "resp_1" p l) ∧ number <$> yielded l = Some <$> ns ∧
    StronglySorted Z.lt (-1 :: ns) ∧ length ns = 2%nat.
Proof.
  destruct (@tail_in_order example_env Actor.t _ _ _ (λ _, ""%string) None DEFAULT_STREAM_TTL (example_actors "hi" " there") example_store 0
    (example_sched first_poll) 20 1 "ann" "resp_1" (-1)) as (p & l & ns & Hj & Hn & Hs).
  - repeat constructor. apply not_elem_of_nil.
  - apply example_buffers.
  - apply example_joins.
  - vm_compute. intuition discriminate.
  - reflexivity.
  - exists p, l, ns. split_and!; [exact Hj|exact Hn|exact Hs|].
    assert (length (number <$> yielded l) = 2%nat) as Hl; [|by rewrite Hn, length_fmap in Hl].
    assert (if (example_exec "hi" " there" first_poll).1 !! 1%nat is Some (Tailer _ _ _ l)
            then length (number <$> yielded l) = 2%nat else False) as Htwo by (vm_compute; reflexivity).
    by rewrite (Hj : (example_exec "hi" " there" first_poll).1 !! 1%nat = _) in Htwo.
Defined.

(** A stream that is replayed skips events: the buffer goes as soon as the run's last event is in it, so
    what was appended since the tailer's last poll is never replayed. Here no call fails; the tailer is
    there from the start, and after the event 1 it next yields a terminal event it makes up, numbered 2,
    which is the number of a delta it never yields; the run's own terminal event had number 3. *)
Theorem tail_skips_events hi there :
  let c := example_exec hi there (first_poll ++ run_ends) in
  (∃ r, c.1 !! 0%nat = Some (Running r) ∧ r_phase r = Over None) ∧
  ∃ l, c.1 !! 1%nat = Some (Tailer "ann" "resp_1" (Ret None) l) ∧
    yielded l =
      [[("type", JStr "response.created"); ("sequence_number", JInt 0)];
       [("type", JStr "response.output_text.delta"); ("sequence_number", JInt 1); ("delta", JStr hi)];
       [("type", JStr "response.completed"); ("sequence_number", JInt 2); ("response", JObj finished_response)]]%string.
Proof. vm_compute. split; eexists; (split; reflexivity). Qed.
End BackgroundProperties.
