(* ===== verification/BackgroundEnds.v ===== *)
(** * A run that is over has ended its response

    No poller is left waiting: [run_background], whatever its loader sends and whichever store calls
    fail, only ends normally once the response's record is terminal, or gone. *)

From S2P Require Import Prelude StateStore MemoryStore ConfigSchema ResponsesState ResponsesLogs ResponsesTheorems Liveness.
From S2P Require Import ResponsesTerminal McpPolicy Tasks Errors ResponseObjects ResponsesApi Background BackgroundTheorems.
Import SessionFacts FailureFacts LogFacts BufferFacts.
Local Open Scope Z_scope.

Section ends.
Context (i rid : string) (d0 : dict json).
Notation K := (key i rid).

(** ** The record *)

(** Terminal, or gone. *)
Definition ended (now : Z) (m : content) : Prop :=
  gone i rid now m ∨ ∃ f, Spec.get K now m = Some (JObj f) ∧ is_terminal (response_of f) = Ok true.

(** As it was, with no turn stored for it. *)
Record waiting (now : Z) (m : content) : Prop := {
  waiting_record : Spec.get K now m = Some (JObj d0);
  waiting_own : Spec.log (log_key i rid) now m = [];
  waiting_parent p : parent0 d0 = Some p → ¬ claimed i rid p now m
}.

Definition intact (now : Z) (m : content) : Prop := waiting now m ∨ ended now m.

(** Time goes by, and nothing but stream buffers changes. *)
Record drift (now : Z) (m : content) (now' : Z) (m' : content) : Prop := {
  drift_time : now ≤ now';
  drift_same k t : ¬ is_stream k → now' ≤ t → live t (m' k) = live t (m k)
}.

(** A store call that makes it so. *)
Definition idle (B : Type) (op : store_op B) : Prop :=
  match op with
  | OGet _ | OList _ | OReadRange _ _ _ => True
  | ODelete k | OAppend k _ _ _ => is_stream k
  | _ => False
  end.

(** An item of the loader's that is this response's: a terminal event has the response, under its id,
    and with a terminal status; the response of a failed one, if any, has a terminal status. *)
Definition failed_ok (e : dict json) : Prop :=
  type_is "response.failed" e = true → ∀ x, field "response" e = JObj x → is_terminal x = Ok true.
Definition item_ok (it : stream_item) : Prop :=
  match it with
  | SResponse id dump => id = rid ∧ is_terminal dump = Ok true
  | SEvent e =>
      (ends_turn e = true → ∃ x, stored_response e = Some (JStr rid, x) ∧ is_terminal x = Ok true) ∧ failed_ok e
  | SError _ => True
  end.

(** ** What a task ensures *)

(** An answer, and the content after the call; the run is not cancelled. *)
Definition answers {B} (c : io B) (now : Z) (m : content) : B → content → Prop :=
  match c with
  | Store op => λ r m',
      match r with
      | Ok b => result op now m b ∧ same_from now m' (effect op now m)
      | Err _ => same_from now m' m
      end
  | Next => λ r m', m' = m ∧ ∀ it, r = Ok (Some it) → item_ok it
  | IsCancelled _ => λ r m', m' = m ∧ r ≠ Ok true
  | _ => λ _ m', m' = m
  end.

(** From [m] at [now], with only buffers changed by others at its calls: [Q] holds at its return, and
    [E] when it raises. *)
Fixpoint ensures (E : Z → content → Prop) {A} (p : proc A) (Q : A → Z → content → Prop) (now : Z) (m : content) : Prop :=
  match p with
  | Ret a => Q a now m
  | Raise _ => E now m
  | Do c k => ∀ now' m' b m'', drift now m now' m' → answers c now' m' b m'' → ensures E (k b) Q now' m''
  end.

(** A heartbeat that never finds the run cancelled. *)
Fixpoint beats (p : proc bool) : Prop :=
  match p with
  | Ret b => b = false
  | Raise _ => True
  | Do c k => ∀ b, match c in io B return B → Prop with IsCancelled _ => λ r, r ≠ Ok true | _ => λ _, True end b → beats (k b)
  end.

Definition stable (R : Z → content → Prop) : Prop :=
  ∀ now m now' m', drift now m now' m' → R now m → R now' m'.

(** What is known of a run's stream so far. *)
Record drained_ok (d : drained) (now : Z) (m : content) : Prop := {
  drained_intact : intact now m;
  drained_ended : saw_ok_terminal d = true → ended now m;
  drained_failed x : failed_response d = Some (FailedResponse (JObj x)) → is_terminal x = Ok true
}.
End ends.

(** A caller that only reads, or changes stream buffers. *)
Definition onlooker (a : actor) : Prop := ∃ p, a = Caller p ∧ issues idle p.

(** ** Lemmas *)

Module EndsFacts.
Section facts.
Context (i rid : string) (d0 : dict json) (pending0 : pending d0).
Notation K := (key i rid).
Notation ended := (ended i rid).
Notation waiting := (waiting i rid d0).
Notation intact := (intact i rid d0).
Notation ensures := (ensures rid).
Notation ensured := (ensures intact).

Lemma drift_refl now m : drift now m now m.
Proof. by split. Qed.
Lemma drift_trans n1 m1 n2 m2 n3 m3 : drift n1 m1 n2 m2 → drift n2 m2 n3 m3 → drift n1 m1 n3 m3.
Proof. intros [? H1] [? H2]. split; [lia|]. intros k t Hk Ht. rewrite H2, H1 by (done || lia). done. Qed.
Lemma same_drift now m m' : same_from now m' m → drift now m now m'.
Proof. intros [E]. split; [done|]. intros k t _ Ht. by apply E. Qed.

Lemma idle_drift {B} (op : store_op B) now m : idle B op → drift now m now (effect op now m).
Proof.
  intros Hop. split; [done|]. intros k t Hk Ht.
  destruct op as [k'|k' v' x|k'|prefix|k' p v' x|lk p e k' v' x ife|k' lo hi|k' x]; cbn [effect idle] in *; try done.
  - unfold Spec.delete, Spec.upd. case_decide; [congruence|done].
  - destruct (Spec.append k' p v' x now m) as [[m'|]|] eqn:E; [|done..].
    destruct (append_sets _ _ _ _ _ _ _ E) as [y ->]. unfold Spec.set, Spec.upd. case_decide; [congruence|done].
Qed.

Lemma drift_get now m now' m' : drift now m now' m' →
  Spec.get K now' m' = None ∨ Spec.get K now' m' = Spec.get K now m.
Proof.
  intros [Hn Hd]. unfold Spec.get. rewrite (Hd K now') by (apply key_not_stream || lia).
  destruct (live now' (m K)) as [c|] eqn:E; [|by left]. right. by rewrite (live_later _ _ _ _ Hn E).
Qed.
Lemma drift_log l now m now' m' : drift now m now' m' →
  Spec.log (log_key i l) now' m' = [] ∨ Spec.log (log_key i l) now' m' = Spec.log (log_key i l) now m.
Proof.
  intros [Hn Hd]. unfold Spec.log. rewrite (Hd (log_key i l) now') by (apply log_not_stream || lia).
  destruct (live now' (m (log_key i l))) as [c|] eqn:E; [|by left]. right. by rewrite (live_later _ _ _ _ Hn E).
Qed.

Lemma gone_iff now m : gone i rid now m ↔ Spec.get K now m = None.
Proof. unfold gone, Spec.get. by destruct (live now (m K)). Qed.

Lemma ended_stable : stable ended.
Proof.
  intros now m now' m' Hd. unfold ended, BackgroundEnds.ended. rewrite !gone_iff.
  destruct (drift_get _ _ _ _ Hd) as [->| ->]; [by left|done].
Qed.
Lemma intact_stable : stable intact.
Proof.
  intros now m now' m' Hd [[Hr Ho Hp]|He]; [|right; by eapply ended_stable].
  destruct (drift_get _ _ _ _ Hd) as [Hg|Hg]; [right; left; by apply gone_iff|]. left. split.
  - congruence.
  - destruct (drift_log rid _ _ _ _ Hd); congruence.
  - intros p Hp'. unfold claimed, Spec.read_range. destruct (drift_log (pos_log p) _ _ _ _ Hd) as [->| ->]; [|by apply Hp].
    intros (raw & [= <-] & Ht). done.
Qed.

Section ensures.
Context (E : Z → content → Prop) {A : Type}.
Implicit Types (p : proc A) (Q : A → Z → content → Prop).

Lemma ensures_drift p Q now m now' m' :
  stable E → (∀ a, stable (Q a)) → drift now m now' m' → ensures E p Q now m → ensures E p Q now' m'.
Proof.
  intros HE HQ Hd. destruct p as [a|e|B c k]; cbn; [by apply HQ|by apply HE|].
  intros Hp n2 m2 b m3 Hd'. apply Hp. by eapply drift_trans.
Qed.
Lemma ensures_mono p Q R now m :
  (∀ a now m, Q a now m → R a now m) → ensures E p Q now m → ensures E p R now m.
Proof.
  intros HQ. induction p as [a|e|B c k IH] in now, m |- *; cbn; [apply HQ|done|].
  intros Hp n2 m2 b m3 Hd Ha. by eapply IH, Hp.
Qed.
Lemma ensures_attempt p (Q : res A → Z → content → Prop) now m :
  (∀ e now m, E now m → Q (Err e) now m) → ensures E p (λ a, Q (Ok a)) now m → ensures E (attempt p) Q now m.
Proof.
  intros HQ. induction p as [a|e|B c k IH] in now, m |- *; cbn; [done|apply HQ|].
  intros Hp n2 m2 b m3 Hd Ha. by eapply IH, Hp.
Qed.
Lemma ensures_idle p (R : Z → content → Prop) now m :
  storing idle p → stable R → (∀ now m, R now m → E now m) → R now m → ensures E p (λ _, R) now m.
Proof.
  intros Hp HR HI. induction p as [a|e|B c k IH] in now, m, Hp |- *; cbn; [done|auto|].
  destruct Hp as [Hc Hk]. intros Hm n2 m2 b m3 Hd Ha. apply IH; [done|].
  assert (drift n2 m2 n2 m3) as Hd3; [|eapply HR; [|exact Hm]; by eapply drift_trans].
  destruct c; cbn in Ha; try (subst; apply drift_refl); try (destruct Ha as [-> _]; apply drift_refl).
  destruct b as [b|e]; [|by apply same_drift]. destruct Ha as [_ Hs].
  eapply drift_trans; [by apply (idle_drift op)|by apply same_drift].
Qed.
End ensures.

Lemma ensures_bind {A B} E (p : proc A) (f : A → proc B) Q now m :
  ensures E p (λ a, ensures E (f a) Q) now m → ensures E (p ≫= f) Q now m.
Proof.
  change (p ≫= f) with (proc_bind f p). induction p as [a|e|C c k IH] in now, m |- *; cbn; [done..|].
  intros Hp n2 m2 b m3 Hd Ha. by eapply IH, Hp.
Qed.

(** *** Ending the record *)

Lemma turn_terminal x log depth : is_terminal x = Ok true → is_terminal (response_of (turn_fields x log depth)) = Ok true.
Proof. intros Hx. change (response_of _) with (Dict.set "output" (JList []) x). unfold is_terminal. by rewrite Dict.get_set_ne. Qed.

Lemma set_ended x log depth ttl now m :
  is_terminal x = Ok true → ended now (Spec.set K (turn_record x log depth) ttl now m).
Proof.
  intros Hx. unfold BackgroundEnds.ended. rewrite gone_iff, Spec_get_set, decide_True by done.
  case_decide; [by left|right]. exists (turn_fields x log depth). split; [done|]. by apply turn_terminal.
Qed.

(** What is left after an append of the response's turn. *)
Definition appended (log : string) (r : res bool) (now : Z) (m m' : content) : Prop :=
  match r with
  | Ok true => ended now m'
  | Ok false => intact now m' ∧ (waiting now m' → Spec.log (log_key i log) now m' ≠ [])
  | Err _ => intact now m'
  end.

Lemma append_ends x log depth entry ttl r now m m' :
  is_terminal x = Ok true → intact now m →
  answers rid (Store (OAppendAndSet (log_key i log) depth (JObj entry) K (turn_record x log depth) ttl true)) now m r m' →
  appended log r now m m'.
Proof.
  intros Hx Hm. destruct r as [b|e]; cbn [answers appended]; [|intros Hs; by eapply intact_stable, Hm; apply same_drift].
  intros [(r0 & Hr & ->) Hs]. cbn [effect] in Hs. rewrite Hr in Hs. unfold Spec.append_and_set in Hr.
  destruct (live now (m K)) as [c|] eqn:EK.
  - rewrite bool_decide_false in Hr by done. cbn [andb] in Hr. destruct (Spec.append _ _ _ _ _ _) as [[m1|]|] eqn:Ea; [|injection Hr as <-|done].
    + injection Hr as <-. rewrite bool_decide_true by done. eapply ended_stable; [by apply same_drift|]. by apply set_ended.
    + rewrite bool_decide_false by (by intros []). split; [eapply intact_stable; [by apply same_drift|done]|]. intros _.
      rewrite (Spec_log_proper _ now _ _ Hs). intros El. unfold Spec.append in Ea. by rewrite El in Ea.
  - rewrite bool_decide_true in Hr by done. injection Hr as <-. rewrite bool_decide_false by (by intros []).
    split; [eapply intact_stable; [by apply same_drift|done]|]. intros [Hg _ _]. exfalso.
    rewrite (Spec_get_proper _ now _ _ Hs) in Hg. unfold Spec.get in Hg. by rewrite EK in Hg.
Qed.

(** The last append: its own log is empty while the record waits. *)
Lemma own_append_ends x depth entry ttl now m :
  is_terminal x = Ok true → intact now m →
  ensured (of_prog (_ ← append_turn ttl i rid x rid depth entry true; mret tt)) (λ _, ended) now m.
Proof.
  intros Hx Hm n2 m2 r m3 Hd Ha.
  assert (intact n2 m2) as Hm2 by by eapply intact_stable.
  pose proof (append_ends _ _ _ _ _ _ _ _ _ Hx Hm2 Ha) as Hr. destruct r as [[]|e]; cbn in *; [done| |done].
  destruct Hr as [[Hw|He] Hl]; [|done]. by destruct (Hl Hw), Hw.
Qed.

Lemma store_turn_ends x ttl now m :
  is_terminal x = Ok true → intact now m →
  ensured (of_prog (store_turn ttl i rid x (parent0 d0) (input0 d0) true)) (λ _, ended) now m.
Proof.
  intros Hx Hm. unfold store_turn. destruct (parent0 d0) as [p|] eqn:Ep; [|by apply own_append_ends].
  intros n2 m2 r m3 Hd Ha. assert (intact n2 m2) as Hm2 by by eapply intact_stable.
  pose proof (append_ends _ _ _ _ _ _ _ _ _ Hx Hm2 Ha) as Hr. destruct r as [[]|e]; [done| |done].
  destruct Hr as [Hm3 _]. intros n4 m4 r m5 Hd3 Ha2.
  assert (intact n4 m4) as Hm4 by by eapply intact_stable.
  assert (drift n4 m4 n4 m5) as Hd5 by (destruct r; apply same_drift; [apply Ha2|done]).
  assert (intact n4 m5) as Hm5 by by eapply intact_stable.
  destruct r as [raw|e]; [|done]. cbn [mbind prog_mbind prog_bind].
  destruct (is_this_turn rid raw) eqn:Et; [|by apply own_append_ends].
  destruct Hm4 as [[_ _ Hw]|He]; [|by eapply ended_stable]. destruct Ha2 as [Hraw _]. cbn in Hraw.
  exfalso. apply (Hw p Ep). by exists raw.
Qed.

Lemma write_terminal_ends x ttl now m :
  is_terminal x = Ok true → intact now m →
  ensured (of_prog (write_terminal_if_not_terminal ttl i rid x)) (λ _, ended) now m.
Proof.
  intros Hx Hm n2 m2 r m3 Hd Ha. assert (intact n2 m2) as Hm2 by by eapply intact_stable.
  assert (drift n2 m2 n2 m3) as Hd3 by (destruct r; apply same_drift; [apply Ha|done]).
  destruct r as [r|e]; [|by eapply intact_stable]. destruct Ha as [Hr _]. cbn in Hr. subst r.
  destruct Hm2 as [Hw|He].
  - rewrite (waiting_record _ _ _ _ _ Hw). destruct pending0 as (Hwf & Hlog & Hend & Hpar). cbn. rewrite Hwf. cbn.
    rewrite Hlog, Hend. cbn. rewrite TerminalFacts.pending_continues by done. apply store_turn_ends; [done|].
    eapply intact_stable; [exact Hd3|by left].
  - assert (ended n2 m3) as He3 by by eapply ended_stable. destruct He as [Hg|(f & Hf & Ht)].
    + apply gone_iff in Hg. by rewrite Hg.
    + rewrite Hf. cbn. destruct (well_formed f); cbn; [|done]. destruct (Dict.mem "log" f); [done|]. by rewrite Ht.
Qed.

(** Reading the record finds it, unless it is ended. *)
Lemma idle_ensures {A} E (p : prog A) (R : Z → content → Prop) now m :
  issues idle p → stable R → (∀ now m, R now m → E now m) → R now m → ensures E (of_prog p) (λ _, R) now m.
Proof. intros Hp. apply ensures_idle. by apply storing_of_prog. Qed.

Lemma read_idle py_format r b : issues idle (read py_format i r b).
Proof.
  unfold read, read_record. apply issues_bind; [apply issues_bind; [by split|done]|]. intros [d|]; [|done].
  destruct (negb b || negb (Dict.mem "log" d)); [done|].
  apply issues_bind; [apply issues_pure|]. intros log. apply issues_bind; [apply issues_pure|]. intros depth.
  apply issues_bind; [apply issues_pure|]. intros n. apply issues_bind; [by split|]. by intros [].
Qed.

Lemma read_finds py_format now m :
  intact now m →
  ensured (of_prog (read py_format i rid true)) (λ r now m, intact now m ∧ (r = None → ended now m)) now m.
Proof.
  intros Hm n2 m2 r m3 Hd Ha. assert (intact n2 m2) as Hm2 by by eapply intact_stable.
  assert (drift n2 m2 n2 m3) as Hd3 by (destruct r; apply same_drift; [apply Ha|done]).
  assert (intact n2 m3) as Hm3 by by eapply intact_stable.
  destruct r as [r|e]; [|done]. destruct Ha as [Hr _]. cbn in Hr. subst r. destruct Hm2 as [Hw|He].
  - rewrite (waiting_record _ _ _ _ _ Hw). destruct pending0 as (Hwf & Hlog & _). cbn. rewrite Hwf. cbn. by rewrite Hlog.
  - assert (ended n2 m3) as He3 by by eapply ended_stable.
    eapply ensures_mono; [|apply (idle_ensures intact _ ended); [|apply ended_stable|by right|exact He3]].
    + intros a n m' He'. split; [by right|done].
    + apply (proj2 (read_idle py_format rid true)).
Qed.

Lemma write_terminal_stays x ttl now m :
  ended now m → ensures ended (of_prog (write_terminal_if_not_terminal ttl i rid x)) (λ _, ended) now m.
Proof.
  intros Hm n2 m2 r m3 Hd Ha. assert (ended n2 m2) as He by by eapply ended_stable.
  assert (drift n2 m2 n2 m3) as Hd3 by (destruct r; apply same_drift; [apply Ha|done]).
  assert (ended n2 m3) as He3 by by eapply ended_stable.
  destruct r as [r|e]; [|done]. destruct Ha as [Hr _]. cbn in Hr. subst r. destruct He as [Hg|(f & Hf & Ht)].
  - apply gone_iff in Hg. by rewrite Hg.
  - rewrite Hf. cbn. destruct (well_formed f); cbn; [|done]. destruct (Dict.mem "log" f); [done|]. by rewrite Ht.
Qed.

Lemma ensures_raise {A} (E E' : Z → content → Prop) (p : proc A) Q now m :
  (∀ now m, E now m → E' now m) → ensures E p Q now m → ensures E' p Q now m.
Proof.
  intros HE. induction p as [a|e|B c k IH] in now, m |- *; cbn; [done|apply HE|].
  intros Hp n2 m2 b m3 Hd Ha. by eapply IH, Hp.
Qed.

Lemma discard_idle : issues idle (discard_stream_buffer i rid).
Proof. split; [by exists i, rid|done]. Qed.
Lemma flush_idle j : j_identity j = i → j_response j = rid → storing idle (flush_and_discard j).
Proof.
  intros Hi Hr. unfold flush_and_discard. split; [done|]. intros []. apply storing_suppress_unavailable, storing_of_prog.
  split; [by eexists _, _|done].
Qed.

Lemma mark_failed_terminal x msg code : is_terminal (mark_failed x msg code) = Ok true.
Proof. unfold is_terminal, mark_failed. by rewrite Dict.get_set_ne, Dict.get_set_eq. Qed.

Lemma store_failure_ok e message e' :
  store_failure_event e message = Ok e' → ends_turn e' = false ∧ failed_ok e'.
Proof.
  intros E. split; [by eapply store_failure_no_end|]. unfold store_failure_event in E.
  destruct (py_or _ _) as [| | | | | |response]; try done. injection E as <-. intros _ x [= <-].
  unfold is_terminal. by rewrite Dict.get_set_ne, Dict.get_set_eq.
Qed.

(** *** The run's stream, from a record of which [I] holds *)

Section stream.
Context (py_format : json → string) (ttl : option Z) (j : job).
Context (j_identity_is : j_identity j = i) (j_response_is : j_response j = rid).
Context (I : Z → content → Prop) (I_stable : stable I) (ended_I : ∀ now m, ended now m → I now m).
Context (I_ends : ∀ x now m, is_terminal x = Ok true → I now m →
  ensures I (of_prog (write_terminal_if_not_terminal ttl i rid x)) (λ _, ended) now m).

(** What is known of an item that comes out of [persist_response]. *)
Definition out_ok (it : stream_item) (now : Z) (m : content) : Prop :=
  I now m ∧ match it with SEvent e => (ends_turn e = true → ended now m) ∧ failed_ok e | _ => True end.

Lemma out_stable it : stable (out_ok it).
Proof.
  intros now m now' m' Hd [Hi Ho]. split; [by eapply I_stable|]. destruct it as [|e|]; try done.
  destruct Ho as [He Hf]. split; [|done]. intros Ht. eapply ended_stable; [done|auto].
Qed.

Lemma persist_ensures it now m :
  item_ok rid it → I now m →
  ensures I (persist_item py_format ttl (λ _, ""%string) i None [] true it) (λ r, out_ok r.1) now m.
Proof.
  intros Hit Hm. unfold persist_item. destruct it as [id dump|e|err]; [| |by split].
  - destruct Hit as [-> Hx]. apply ensures_bind, ensures_attempt.
    + intros e n m' Hi. destruct e; cbn; auto. by split.
    + eapply ensures_mono; [|by apply I_ends]. cbn. intros _ n m' He. split; [by apply ended_I|done].
  - destruct Hit as [Ht Hf]. destruct (ends_turn e) eqn:Ee.
    + destruct (Ht eq_refl) as (x & -> & Hx). apply ensures_bind, ensures_attempt.
      * intros ex n m' Hi. destruct ex; cbn -[store_failure_event]; auto.
        destruct (store_failure_event e not_stored) as [e'|] eqn:E'; [|done]. destruct (store_failure_ok _ _ _ E') as [Hn Hf'].
        cbn. split; [done|]. split; [|done]. by rewrite Hn.
      * eapply ensures_mono; [|by apply I_ends]. cbn. intros _ n m' He. split; [by apply ended_I|]. by split.
    + cbn. split; [done|]. split; [|done]. by rewrite Ee.
Qed.

Lemma tee_ensures it now m : out_ok it now m → ensures I (tee j it) (λ _, out_ok it) now m.
Proof.
  intros Ho. apply ensures_idle; [|apply out_stable|by intros ? ? []|done].
  unfold tee. destruct it as [|e|]; try done. destruct (j_buffered j); [|done]. split; [done|]. intros [].
  destruct (ends_stream e); [|done]. by apply flush_idle.
Qed.

Definition drained_so (d : drained) (now : Z) (m : content) : Prop :=
  I now m ∧ (saw_ok_terminal d = true → ended now m) ∧
  ∀ x, failed_response d = Some (FailedResponse (JObj x)) → is_terminal x = Ok true.

Lemma took_so it d now m :
  (saw_ok_terminal d = true → ended now m) →
  (∀ x, failed_response d = Some (FailedResponse (JObj x)) → is_terminal x = Ok true) →
  out_ok it now m → drained_so (took it d) now m.
Proof.
  intros Hs Hf [Hi Ho]. split; [done|]. destruct it as [|e|]; cbn [took]; [by split| |by split]. destruct Ho as [He Hfe].
  destruct (ends_turn e) eqn:Ee; cbn; [auto|].
  destruct (type_is "response.failed" e) eqn:Et; [|by split]. split; [done|].
  intros x Hx.
  destruct (field "response" e) eqn:Er; try done. injection Hx as ->. by apply Hfe.
Qed.

Lemma drain_ensures d now m :
  (saw_ok_terminal d = true → ∀ now m, I now m → ended now m) →
  (∀ x, failed_response d = Some (FailedResponse (JObj x)) → is_terminal x = Ok true) →
  I now m → ensures I (drain_round py_format ttl j d) (λ r, drained_so r.1) now m.
Proof.
  intros Hs Hf Hm. unfold drain_round. apply ensures_bind, ensures_attempt.
  - intros e n m' Hi. cbn. split; [done|]. unfold broke. destruct (started d), e; cbn; auto.
    destruct e; cbn; auto. split; [auto|done].
  - unfold next_item. apply ensures_bind. intros n2 m2 r m3 Hd [-> Hr].
    assert (I n2 m2) as Hm2 by by eapply I_stable.
    destruct r as [[it|]|e]; [| |done].
    + cbn [raise_err]. apply ensures_bind. rewrite j_identity_is.
      eapply ensures_mono; [|by apply persist_ensures; [apply Hr|]].
      intros [out more] n m' Ho. apply ensures_bind. eapply ensures_mono; [|by apply tee_ensures].
      intros [] n' m'' Ho'. cbn in *. apply took_so; [|done..]. intros Hsaw. apply Hs; [done|]. apply Ho'.
    + cbn. split; [done|]. split; [|done]. auto.
Qed.
End stream.

(** *** The run *)

Section run.
Context (py_format : json → string) (ttl : option Z) (j : job).
Context (j_identity_is : j_identity j = i) (j_response_is : j_response j = rid).
Notation drained_ok := (drained_ok i rid d0).

Lemma drained_stable d : stable (drained_ok d).
Proof.
  intros now m now' m' Hd [Hi Hs Hf]. split; [by eapply intact_stable| |done]. intros Ht. eapply ended_stable; [done|auto].
Qed.

Lemma drain_ends d now m :
  drained_ok d now m → ensured (drain_round py_format ttl j d) (λ r, drained_ok r.1) now m.
Proof.
  intros [Hi Hs Hf]. destruct (saw_ok_terminal d) eqn:Es.
  - eapply (ensures_raise ended); [by right|].
    eapply ensures_mono; [|eapply (drain_ensures py_format ttl j j_identity_is j_response_is ended)];
      [|apply ended_stable|done|by intros; apply write_terminal_stays|done|done|auto].
    intros r n m' (He & Hs' & Hf'). split; [by right|done..].
  - eapply ensures_mono; [|eapply (drain_ensures py_format ttl j j_identity_is j_response_is intact)];
      [|apply intact_stable|by right|intros; by apply write_terminal_ends|by rewrite Es|done|done].
    intros r n m' (He & Hs' & Hf'). by split.
Qed.

Lemma write_failed_ends err now m : intact now m → ensured (write_failed py_format ttl j err) (λ _, ended) now m.
Proof.
  intros Hm. unfold write_failed. rewrite j_identity_is, j_response_is. apply ensures_bind.
  eapply ensures_mono; [|by apply read_finds]. intros r n m' [Hi He]. destruct r as [record|]; [|by apply He].
  apply write_terminal_ends; [apply mark_failed_terminal|done].
Qed.

Lemma ending_ends d now m : drained_ok d now m → ensured (ending py_format ttl j d) (λ _, ended) now m.
Proof.
  intros [Hi Hs Hf]. unfold ending. destruct (failed_response d) as [[err|[| | | | | |x]]|] eqn:Ef; try done.
  - by apply write_failed_ends.
  - rewrite j_identity_is, j_response_is. apply write_terminal_ends; auto.
  - destruct (saw_ok_terminal d); [by apply Hs|]. apply ensures_bind. eapply ensures_mono.
    + intros b n m' Hi'. exact (write_failed_ends _ _ _ Hi').
    + apply ensures_idle; [by repeat split; intros []|apply intact_stable|done|done].
Qed.

Lemma heart_beats : beats (heartbeat_round j).
Proof. intros [] _ r _. destruct r as [[]|e]; cbn; intros r Hr; by destruct r as [[]|]. Qed.

(** What is known at each phase. *)
Definition phase_ends (ph : phase) (now : Z) (m : content) : Prop :=
  match ph with
  | Starting p => ensured p (λ _, intact) now m
  | Draining d p => ensured p (λ r, drained_ok r.1) now m
  | Ending p => ensured p (λ _, ended) now m
  | Discarding e p => e = None → ensured p (λ _, ended) now m
  | Over e => e = None → ended now m
  end.

Lemma finish_ends e now m : (e = None → ended now m) → phase_ends (finish j e) now m.
Proof.
  intros He. unfold finish. destruct (j_buffered j); [|done]. intros ->. specialize (He eq_refl).
  apply ensures_idle; [by apply flush_idle|apply ended_stable|by right|done].
Qed.

Lemma settle_ends ph now m : phase_ends ph now m → phase_ends (settle_phase py_format ttl j ph) now m.
Proof.
  destruct ph as [[[[]|]| |]|d [[d' []]| |]|[]|e []|]; cbn [settle_phase phase_ends ensures]; try done; intros Hp.
  - apply drain_ends. by split.
  - by apply write_failed_ends.
  - by apply finish_ends.
  - by apply drain_ends.
  - by apply ending_ends.
  - by apply finish_ends.
  - by apply finish_ends.
  - by apply finish_ends.
Qed.

Lemma phase_drift ph now m now' m' : drift now m now' m' → phase_ends ph now m → phase_ends ph now' m'.
Proof.
  intros Hd. destruct ph; cbn [phase_ends].
  - apply ensures_drift; [apply intact_stable|intros; apply intact_stable|done].
  - apply ensures_drift; [apply intact_stable|intros; apply drained_stable|done].
  - apply ensures_drift; [apply intact_stable|intros; apply ended_stable|done].
  - intros Hp He. eapply ensures_drift; [apply intact_stable|intros; apply ended_stable|done|auto].
  - intros Hp He. eapply ended_stable; [done|auto].
Qed.

(** *** Among onlookers *)

Context `{Env} `{StateStoreAtomic T} (stream_ttl : Z).
Context (never_cancelled : ∀ q now, is_cancelled q now ≠ Ok true).
Implicit Types (s : T).

Definition items_ok (l : local) : Prop := ∀ it, Ok it ∈ stream l → item_ok rid it.

Record run_ok (now : Z) (s : T) (r : background_run) : Prop := {
  run_job : r_job r = j;
  run_items : items_ok (r_local r);
  run_phase : phase_ends (r_phase r) now (cells s);
  run_heart : beats (r_heart r);
  run_heart_idle : storing idle (r_heart r)
}.

Lemma op_answers {B} (op : store_op B) now s :
  ss_valid s → answers rid (Store op) now (cells s) (ss_run op now s).2 (cells (ss_run op now s).1).
Proof.
  intros Hv. destruct (ss_run op now s) as [s' [b|e]] eqn:E; cbn; [by eapply ss_run_ok|by eapply ss_raise_same].
Qed.

Lemma op_idle_drift {B} (op : store_op B) now s :
  ss_valid s → idle B op → drift now (cells s) now (cells (ss_run op now s).1).
Proof.
  intros Hv Hop. pose proof (op_answers op now s Hv) as Ha. destruct (ss_run op now s) as [s' [b|e]]; cbn in *.
  - eapply drift_trans; [by apply (idle_drift op)|]. apply same_drift, Ha.
  - by apply same_drift.
Qed.

Lemma perform_answers {B} (c : io B) now l s b l' s' :
  ss_valid s → items_ok l → perform c now l s = Some (b, l', s') →
  ss_valid s' ∧ items_ok l' ∧ answers rid c now (cells s) b (cells s').
Proof.
  intros Hv Hl. destruct c; cbn -[answers];
    try (intros [= <- <- <-]; split_and!; [done|done|by auto]).
  - pose proof (op_answers op now s Hv) as Ha. pose proof (ss_run_valid op now s Hv) as Hv'.
    destruct (ss_run op now s) as [s1 r]. by intros [= <- <- <-].
  - unfold items_ok in *. destruct (stream l) as [|[it|e] rest] eqn:El; intros [= <- <- <-]; cbn -[item_ok].
    + split_and!; [done|by rewrite El|done|done].
    + split_and!; [done| |done|].
      * intros it' Hin. apply Hl. by right.
      * intros it' [= <-]. apply Hl. by left.
    + split_and!; [done| |done|done]. by intros ? ?%elem_of_nil.
  - destruct (queue l); [|done]. by intros [= <- <- <-].
Qed.

Lemma advance_ensures {A} E (p : proc A) Q now l s :
  ss_valid s → items_ok l → ensures E p Q now (cells s) →
  let '(p, l, s) := advance p now l s in ss_valid s ∧ items_ok l ∧ ensures E p Q now (cells s).
Proof.
  intros Hv Hl Hp. destruct p as [a|e|B c k]; [done..|]. cbn [advance].
  destruct (perform c now l s) as [[[b l'] s']|] eqn:Ec; [|done].
  destruct (perform_answers _ _ _ _ _ _ _ Hv Hl Ec) as (Hv' & Hl' & Ha). split_and!; [done..|].
  eapply Hp; [apply drift_refl|done].
Qed.

Lemma advance_idle {A} (p : proc A) now l s :
  ss_valid s → storing idle p →
  let '(p, l, s') := advance p now l s in drift now (cells s) now (cells s') ∧ storing idle p.
Proof.
  intros Hv Hp. destruct p as [a|e|B c k]; [by split; [apply drift_refl|]..|]. destruct Hp as [Hc Hk].
  assert (∀ b l' s', perform c now l s = Some (b, l', s') → drift now (cells s) now (cells s')) as Hd.
  { intros b l' s'. destruct c; cbn; try (intros [= <- <- <-]; apply drift_refl).
    - pose proof (op_idle_drift op now s Hv Hc). destruct (ss_run op now s). by intros [= <- <- <-].
    - destruct (stream l) as [|[it|e] rest]; intros [= <- <- <-]; apply drift_refl.
    - destruct (queue l); [|done]. intros [= <- <- <-]. apply drift_refl. }
  cbn [advance]. destruct (perform c now l s) as [[[b l'] s']|] eqn:Ec; [|by split; [apply drift_refl|]].
  split; [by eapply Hd|apply Hk].
Qed.

Lemma heart_idle : storing idle (heartbeat_round j).
Proof.
  unfold heartbeat_round. apply storing_bind; [by split|]. intros [].
  apply storing_bind; [by apply storing_suppress, storing_invoke|]. intros []. by apply storing_suppress, storing_invoke.
Qed.

Lemma ensures_true {A} (p : proc A) now m : ensures (λ _ _, True) p (λ _ _ _, True) now m.
Proof. induction p as [a|e|B c k IH] in now, m |- *; cbn; auto. Qed.

Lemma main_step_ok now r s :
  ss_valid s → run_ok now s r →
  let '(r, s) := main_step py_format ttl now r s in ss_valid s ∧ run_ok now s r.
Proof.
  intros Hv [Hj Hi Hp Hh Hs]. unfold main_step. rewrite Hj.
  assert (∀ A E (p : proc A) Q (ph : proc A → phase), ensures E p Q now (cells s) →
    (∀ p s, ensures E p Q now (cells s) → phase_ends (ph p) now (cells s)) →
    let '(r, s) := (let '(p, l, s) := advance p now (r_local r) s in
      (mkRun j (settle_phase py_format ttl j (ph p)) (r_heart r) l, s)) in ss_valid s ∧ run_ok now s r) as Hstep.
  { intros A E p Q ph Hens Hph. pose proof (advance_ensures _ p _ now (r_local r) s Hv Hi Hens) as Ha.
    destruct (advance p now (r_local r) s) as [[p' l'] s']. destruct Ha as (Hv' & Hi' & Hp'). split; [done|]. split; try done.
    by apply settle_ends, Hph. }
  destruct (r_phase r) as [p|d p|p|[e|] p|e] eqn:Er; cbn [phase_ends] in Hp.
  - exact (Hstep _ _ p _ Starting Hp (λ _ _ X, X)).
  - exact (Hstep _ _ p _ (Draining d) Hp (λ _ _ X, X)).
  - exact (Hstep _ _ p _ Ending Hp (λ _ _ X, X)).
  - by apply (Hstep _ _ p _ (Discarding (Some e)) (ensures_true p _ _)); intros.
  - exact (Hstep _ _ p _ (Discarding None) (Hp eq_refl) (λ _ _ X _, X)).
  - split; [done|]. split; try done. by rewrite Er.
Qed.

Lemma heart_step_ok now r s :
  ss_valid s → run_ok now s r →
  let '(r, s) := heart_step now r s in ss_valid s ∧ run_ok now s r.
Proof.
  intros Hv [Hj Hi Hp Hh Hs]. unfold heart_step. destruct (r_phase r) as [|d p| | |] eqn:Er; try by (split; [|split; try done; rewrite Er]).
  pose proof (advance_idle (r_heart r) now (r_local r) s Hv Hs) as Hd.
  pose proof (advance_ensures _ (r_heart r) _ now (r_local r) s Hv Hi (ensures_true _ _ _)) as Ha.
  assert (beats (advance (r_heart r) now (r_local r) s).1.1) as Hb.
  { destruct (r_heart r) as [b|e|B c k]; [done..|]. cbn [advance].
    destruct (perform c now (r_local r) s) as [[[b l'] s']|] eqn:Ec; [|done].
    apply Hh. destruct c; try done. cbn in Ec. injection Ec as <- _ _. apply never_cancelled. }
  destruct (advance (r_heart r) now (r_local r) s) as [[p' l'] s']. destruct Hd as [Hd Hs'], Ha as (Hv' & Hl' & _).
  cbn [fst] in Hb. split; [done|].
  assert (∀ h, beats h → storing idle h → run_ok now s' (mkRun (r_job r) (Draining d p) h l')) as Hok.
  { intros h ? ?. split; try done. by eapply (phase_drift (Draining d p)). }
  destruct p' as [[]|e|B c k]; [done|apply Hok; rewrite Hj; [apply heart_beats|apply heart_idle]|by apply Hok..].
Qed.

Lemma run_idle {A} (p : prog A) now s :
  ss_valid s → issues idle p → ss_valid (run p now s).1 ∧ drift now (cells s) now (cells (run p now s).1).
Proof.
  revert s. induction p as [a|e|B op k IH]; intros s Hv; [by split; [|apply drift_refl]..|]. intros [Hop Hk]. cbn.
  pose proof (op_idle_drift op now s Hv Hop) as Hd. pose proof (ss_run_valid op now s Hv) as Hv'.
  destruct (ss_run op now s) as [s' [b|e]]; cbn in *; [|done]. destruct (IH b s' Hv' (Hk b)). split; [done|]. by eapply drift_trans.
Qed.

Lemma run_ok_drift now s now' s' r :
  drift now (cells s) now' (cells s') → run_ok now s r → run_ok now' s' r.
Proof. intros Hd [Hj Hi Hp Hh Hs]. split; try done. by eapply phase_drift. Qed.

Lemma append_step_ok now r s :
  ss_valid s → run_ok now s r →
  let '(r, s) := append_step stream_ttl now r s in ss_valid s ∧ run_ok now s r.
Proof.
  intros Hv Hr. unfold append_step. destruct (queue (r_local r)) as [|e q]; [done|].
  assert (issues idle (append_stream_event stream_ttl (j_identity (r_job r)) (j_response (r_job r)) e)) as Hidle.
  { unfold append_stream_event. case_match; [|done]. split; [|done]. by eexists _, _. }
  pose proof (run_idle _ now s Hv Hidle) as [Hv' Hd]. destruct (run _ now s) as [s' x]. cbn [fst] in *. split; [done|].
  apply (run_ok_drift _ _ _ _ _ Hd) in Hr as [Hj Hi Hp Hh Hs]. by split.
Qed.

(** The run, first of the actors, among onlookers. *)
Lemma exec_ends sched : ∀ from to r others s,
  forward from sched to → ss_valid s → run_ok from s r → Forall onlooker others →
  ∃ r' others' s', exec py_format ttl stream_ttl sched (Running r :: others, s) = (Running r' :: others', s') ∧ run_ok to s' r'.
Proof.
  induction sched as [|[[n t] now] sched IH]; intros from to r others s Hf Hv Hr Ho.
  { exists r, others, s. split; [done|]. eapply run_ok_drift; [|exact Hr]. by split. }
  destruct Hf as [Hnow Hf]. unfold exec. cbn [foldl]. unfold step at 2. cbn [fst snd].
  assert (run_ok now s r) as Hr1 by (eapply run_ok_drift; [|exact Hr]; by split).
  destruct n as [|n]; cbn [lookup list_lookup].
  - assert (let '(a, s) := actor_step py_format ttl stream_ttl t now (Running r) s in
      ∃ r', a = Running r' ∧ ss_valid s ∧ run_ok now s r') as Hstep.
    { cbn [actor_step]. destruct t.
      - pose proof (main_step_ok now r s Hv Hr1). destruct (main_step py_format ttl now r s). eauto.
      - pose proof (heart_step_ok now r s Hv Hr1). destruct (heart_step now r s). eauto.
      - pose proof (append_step_ok now r s Hv Hr1). destruct (append_step stream_ttl now r s). eauto. }
    destruct (actor_step py_format ttl stream_ttl t now (Running r) s) as [a s'].
    destruct Hstep as (r' & -> & Hv' & Hr'). by apply (IH now to).
  - destruct (others !! n) as [a|] eqn:En; [|by apply (IH now to)].
    pose proof (proj1 (Forall_forall _ _) Ho a (list_elem_of_lookup_2 _ _ _ En)) as (p & -> & Hp). cbn [actor_step].
    assert (let '(s', p') := resume p now s in ss_valid s' ∧ drift now (cells s) now (cells s') ∧ issues idle p') as Hstep.
    { destruct p as [a|e|B op k]; [by split_and!; [|apply drift_refl|]..|]. destruct Hp as [Hop Hk]. cbn.
      pose proof (op_idle_drift op now s Hv Hop) as Hd. pose proof (ss_run_valid op now s Hv) as Hv'.
      destruct (ss_run op now s) as [s' [b|e]]; cbn in *; auto. }
    destruct (resume p now s) as [s' p']. destruct Hstep as (Hv' & Hd & Hp'). cbn [insert list_insert].
    apply (IH now to); [done|done|by eapply run_ok_drift|]. apply Forall_insert; [done|]. by exists p'.
Qed.
End run.
End facts.
End EndsFacts.

(** ** Theorems *)

Module EndsProperties.
Import EndsFacts.

#[export] Instance item_ok_dec rid it : Decision (item_ok rid it).
Proof.
  assert (∀ x, Decision (is_terminal x = Ok true)) as Ht.
  { intros x. destruct (is_terminal x) as [[]|]; [by left|by right..]. }
  destruct it as [id dump|e|err]; [unfold item_ok; apply _| |by left]. apply and_dec.
  - destruct (ends_turn e); [|by left]. destruct (stored_response e) as [[y x]|] eqn:E; [|by right; intros [x [[=] _]]].
    destruct (Ht x) as [Hx|Hx]; [|right; by intros (x' & [= -> ->] & ?)].
    destruct y as [| | | |id| |]; try (right; by intros (x' & [=] & ?)).
    destruct (decide (id = rid)) as [->|Hn]; [left; by exists x|right; by intros (x' & [= -> ->] & ?)].
  - unfold failed_ok. destruct (type_is "response.failed" e); [|by left].
    destruct (field "response" e) as [| | | | | |x]; try (left; by intros _ x [=]).
    destruct (Ht x) as [Hx|Hn]; [left; by intros _ x' [= <-]|right; intros Hx; by apply Hn, Hx].
Defined.

(** C5: No poller is left waiting by its run: whichever errors, failures and exceptions the loader's
    stream holds, terminal event or not, and whichever store calls fail, when a background run that was
    not cancelled is over without an exception, its response's record is terminal, or gone, unless the
    loader sent a result that is not this response's ([item_ok]): a terminal event without the
    response, under another id or with no terminal status. The run starts from the queued record, and
    nobody else ends it; the tasks of the run and of callers that only read may interleave in any
    way. *)
Theorem run_ends_response `{Env} `{StateStoreAtomic T} py_format ttl stream_ttl j items others (s0 : T) t0 sched t1 d0 r :
  ss_valid s0 → pending d0 → waiting (j_identity j) (j_response j) d0 t0 (cells s0) →
  (∀ q now, is_cancelled q now ≠ Ok true) → Forall onlooker others → forward t0 sched t1 →
  let c := exec py_format ttl stream_ttl sched (Running (new_run j items) :: others, s0) in
  c.1 !! 0%nat = Some (Running r) → r_phase r = Over None →
  ended (j_identity j) (j_response j) t1 (cells c.2) ∨ ∃ it, Ok it ∈ items ∧ ¬ item_ok (j_response j) it.
Proof.
  intros Hv Hd Hw Hn Ho Hf c Hr Hover.
  destruct (Forall_Exists_dec (λ r, ∀ it, r = Ok it → item_ok (j_response j) it)
    (λ r, ∃ it, r = Ok it ∧ ¬ item_ok (j_response j) it)
    ltac:(intros [it|e]; [destruct (decide (item_ok (j_response j) it)); [left; by intros ? [= <-]|right; eauto]|by left])
    items) as [Hi|Hi].
  2: { right. apply Exists_exists in Hi as (? & Hin & it & -> & Hno). by exists it. }
  left. rewrite Forall_forall in Hi.
  destruct (exec_ends (j_identity j) (j_response j) d0 Hd py_format ttl j eq_refl eq_refl stream_ttl Hn sched t0 t1
    (new_run j items) others s0 Hf Hv) as (r' & others' & s' & Hc & [_ _ Hp _ _]); [|done|].
  - split; [done|intros it Hin; exact (Hi _ Hin it eq_refl)| |apply heart_beats|apply heart_idle]. intros now m b m' Hdr ->.
    destruct b; (eapply intact_stable; [exact Hdr|by left]).
  - fold c in Hc. rewrite Hc in Hr |- *. injection Hr as ->. rewrite Hover in Hp. by apply Hp.
Qed.

(** A loader's stream that breaks off after its first event. *)
Definition broken_items : list (res stream_item) :=
  [Ok (SEvent [("type", JStr "response.created"); ("sequence_number", JInt 0)]%string); Err (RuntimeError "boom")].
Definition broken_sched : list (nat * turn * Z) :=
  BackgroundProperties.example_sched (replicate 5 (0, Main)%nat ++ [(0, Append)]%nat ++ replicate 20 (0, Main)%nat).
Definition broken_exec : list actor * Actor.t :=
  let env := BackgroundProperties.example_env in
  exec (λ _, ""%string) None DEFAULT_STREAM_TTL broken_sched
    ([Running (new_run BackgroundProperties.example_job broken_items)], BackgroundProperties.example_store).

Lemma run_ends_response_witness :
  (ended "ann" "resp_1" 30 (cells broken_exec.2) ∨
   ∃ it, Ok it ∈ broken_items ∧ ¬ item_ok (j_response BackgroundProperties.example_job) it) ∧
  (λ v, Json.field "status" (default JNull (Json.field "response" v))) <$> Spec.get (key "ann" "resp_1") 30 (cells broken_exec.2)
    = Some (Some (JStr "failed")).
Proof.
  assert (∃ r, broken_exec.1 !! 0%nat = Some (Running r) ∧ r_phase r = Over None) as (r & Hr & Ho)
    by (eexists; split; vm_compute; reflexivity).
  split; [|vm_compute; reflexivity].
  refine (@run_ends_response BackgroundProperties.example_env Actor.t _ _ _ (λ _, ""%string) None DEFAULT_STREAM_TTL
    BackgroundProperties.example_job broken_items [] BackgroundProperties.example_store 0 broken_sched 30
    BackgroundProperties.queued r _ _ _ _ _ _ Hr Ho).
  - repeat constructor. apply not_elem_of_nil.
  - repeat split; vm_compute; eauto.
  - split; [vm_compute; reflexivity..|]. by intros p.
  - done.
  - done.
  - vm_compute. intuition discriminate.
Defined.

(** The case left out: a terminal event whose response has no id is counted as the turn's end and
    stored nowhere, so the run is over, as one that went well, and the record still queued. *)
Definition unstored_items : list (res stream_item) :=
  [Ok (SEvent [("type", JStr "response.completed"); ("response", JObj [("status", JStr "completed")])]%string)].
Theorem unusable_result_leaves_waiting :
  let env := BackgroundProperties.example_env in
  let c := exec (λ _, ""%string) None DEFAULT_STREAM_TTL broken_sched
    ([Running (new_run BackgroundProperties.example_job unstored_items)], BackgroundProperties.example_store) in
  (match c.1 with [Running r] => r_phase r = Over None | _ => False end) ∧
  Spec.get (key "ann" "resp_1") 30 (cells c.2) = Spec.get (key "ann" "resp_1") 0 (cells BackgroundProperties.example_store).
Proof. split; vm_compute; reflexivity. Qed.
End EndsProperties.
