(* ===== verification/Streaming.v ===== *)
(** * Streaming a response

    The loaders' side of a response: [ResponsesStreamTranslator] and the edges of
    [src/modelship/openai/protocol/responses/streaming.py], which turn the chunks of a chat completion
    into the numbered events of the Responses API; the driver of that translator in
    [src/modelship/infer/base_infer.py]; and a response that isn't streamed
    ([src/modelship/openai/utils/responses.py]). *)

From S2P Require Import Prelude ResponsesState McpPolicy ResponseObjects.
Local Open Scope Z_scope.

(** ** Chat chunks ([protocol/chat.py], [protocol/usage.py]) *)

Record UsageInfo : Type := mkUsageInfo {
  prompt_tokens : Z;
  u_total_tokens : Z;
  completion_tokens : option Z;
  prompt_tokens_details : option (option Z);
  completion_tokens_details : option (option Z);
}.

Record DeltaFunctionCall : Type := mkDeltaFunction {
  df_name : option string;
  df_arguments : option string;
}.
Record DeltaToolCall : Type := mkDeltaCall {
  tc_id : option string;
  tc_index : Z;
  tc_function : option DeltaFunctionCall;
}.
Record DeltaMessage : Type := mkDelta {
  d_content : option string;
  d_reasoning : option string;
  d_tool_calls : option (list DeltaToolCall);
}.
Record StreamChoice : Type := mkChoice {
  c_delta : DeltaMessage;
  c_finish_reason : option string;
}.
(** [ChatCompletionStreamResponse] *)
Record Chunk : Type := mkChunk {
  ch_model : string;
  ch_choices : list StreamChoice;
  ch_usage : option UsageInfo;
}.

(** ** Output items ([schemas.py]) *)

Record ReasoningItem : Type := mkReasoning { rs_id : string; summary : list string }.
Record OutputMessage : Type := mkMessage { msg_id : string; msg_status : string; content : list string }.
Record FunctionToolCall : Type := mkCall {
  fc_id : string;
  call_id : string;
  fc_name : string;
  arguments : string;
  fc_status : string;
}.

Inductive Item : Type :=
| Reasoning (i : ReasoningItem)
| Message (i : OutputMessage)
| FunctionCall (i : FunctionToolCall).

Definition item_id (i : Item) : string :=
  match i with Reasoning i => rs_id i | Message i => msg_id i | FunctionCall i => fc_id i end.

Definition summary_text (text : string) : json := JObj [("type", JStr "summary_text"); ("text", JStr text)]%string.
Definition output_text (text : string) : json :=
  JObj [("type", JStr "output_text"); ("text", JStr text); ("annotations", JList [])]%string.

(** [item.model_dump(mode="json")] *)
Definition dump (i : Item) : dict json :=
  match i with
  | Reasoning i =>
      [("type", JStr "reasoning"); ("id", JStr (rs_id i)); ("summary", JList (summary_text <$> summary i));
       ("content", JList [])]%string
  | Message i =>
      [("type", JStr "message"); ("id", JStr (msg_id i)); ("role", JStr "assistant");
       ("status", JStr (msg_status i)); ("content", JList (output_text <$> content i))]%string
  | FunctionCall i =>
      [("type", JStr "function_call"); ("id", JStr (fc_id i)); ("call_id", JStr (call_id i));
       ("name", JStr (fc_name i)); ("arguments", JStr (arguments i)); ("status", JStr (fc_status i))]%string
  end.

(** ** Translation of usage and finish reasons ([adapter.py]) *)

(** [_usage_from_chat] *)
Definition usage_from_chat (u : UsageInfo) : Usage :=
  mkUsage (prompt_tokens u) (default 0 (completion_tokens u)) (u_total_tokens u)
    (Some (if prompt_tokens_details u is Some d then default 0 d else 0))
    (Some (if completion_tokens_details u is Some d then default 0 d else 0)).

(** [_status_for] *)
Definition status_for (finish_reason : option string) : string * json :=
  if decide (finish_reason = Some "length"%string)
  then ("incomplete"%string, JObj [("reason", JStr "max_output_tokens")]%string)
  else if decide (finish_reason = Some "content_filter"%string)
  then ("incomplete"%string, JObj [("reason", JStr "content_filter")]%string)
  else ("completed"%string, JNull).

(** ** Events *)

(** What an event says, by its type; its number apart. *)
Inductive event : Type :=
| Envelope_ (ty : string) (response : dict json)
| ItemAdded (oi : Z) (i : Item)
| ItemDone (oi : Z) (i : Item)
| SummaryPartAdded (id : string) (oi : Z) (text : string)
| SummaryPartDone (id : string) (oi : Z) (text : string)
| SummaryDelta (id : string) (oi : Z) (delta : string)
| SummaryDone (id : string) (oi : Z) (text : string)
| ContentPartAdded (id : string) (oi : Z) (text : string)
| ContentPartDone (id : string) (oi : Z) (text : string)
| TextDelta (id : string) (oi : Z) (delta : string)
| TextDone (id : string) (oi : Z) (text : string)
| ArgumentsDelta (id : string) (oi : Z) (delta : string)
| ArgumentsDone (id : string) (oi : Z) (text : string).

Definition event_type (e : event) : string :=
  match e with
  | Envelope_ ty _ => ty
  | ItemAdded _ _ => "response.output_item.added"
  | ItemDone _ _ => "response.output_item.done"
  | SummaryPartAdded _ _ _ => "response.reasoning_summary_part.added"
  | SummaryPartDone _ _ _ => "response.reasoning_summary_part.done"
  | SummaryDelta _ _ _ => "response.reasoning_summary_text.delta"
  | SummaryDone _ _ _ => "response.reasoning_summary_text.done"
  | ContentPartAdded _ _ _ => "response.content_part.added"
  | ContentPartDone _ _ _ => "response.content_part.done"
  | TextDelta _ _ _ => "response.output_text.delta"
  | TextDone _ _ _ => "response.output_text.done"
  | ArgumentsDelta _ _ _ => "response.function_call_arguments.delta"
  | ArgumentsDone _ _ _ => "response.function_call_arguments.done"
  end.

Definition about (id : string) (oi : Z) (rest : dict json) : dict json :=
  ("item_id", JStr id)%string :: ("output_index", JInt oi)%string :: rest.

Definition event_fields (e : event) : dict json :=
  match e with
  | Envelope_ _ response => [("response", JObj response)]
  | ItemAdded oi i | ItemDone oi i => [("output_index", JInt oi); ("item", JObj (dump i))]
  | SummaryPartAdded id oi text | SummaryPartDone id oi text =>
      about id oi [("summary_index", JInt 0); ("part", summary_text text)]
  | SummaryDelta id oi delta => about id oi [("summary_index", JInt 0); ("delta", JStr delta)]
  | SummaryDone id oi text => about id oi [("summary_index", JInt 0); ("text", JStr text)]
  | ContentPartAdded id oi text | ContentPartDone id oi text =>
      about id oi [("content_index", JInt 0); ("part", output_text text)]
  | TextDelta id oi delta => about id oi [("content_index", JInt 0); ("delta", JStr delta)]
  | TextDone id oi text => about id oi [("content_index", JInt 0); ("text", JStr text)]
  | ArgumentsDelta id oi delta => about id oi [("delta", JStr delta)]
  | ArgumentsDone id oi text => about id oi [("arguments", JStr text)]
  end%string.

(** The event's dict, as [_event] makes it. *)
Definition wire (ne : Z * event) : dict json :=
  ("type", JStr (event_type ne.2))%string :: ("sequence_number", JInt ne.1)%string :: event_fields ne.2.

(** ** The translator *)

(** What the process gives: [random_uuid()] and [int(time.time())], by how often they were asked. *)
Class Host : Type := {
  random_uuid : nat → string;
  now : nat → Z;
}.

Module Translator.

(** A channel that has one item: the item once open, its output index, the text so far. *)
Record Channel (A : Type) : Type := mkChannel { ch_item : option A; ch_oi : Z; ch_text : string }.
Arguments mkChannel {A}. Arguments ch_item {A}. Arguments ch_oi {A}. Arguments ch_text {A}.

(** The tool calls, keyed by their chat-stream delta index: [_tools], [_tool_args] and [_tool_oi]. *)
Record Tools : Type := mkTools {
  calls : gmap Z FunctionToolCall;
  args : gmap Z string;
  ois : gmap Z Z;
}.

(** The translator's attributes, and how often [Host] was asked. *)
Record t : Type := mk {
  created_at : option Z;
  model : string;
  seq : Z;
  next_oi : Z;
  usage : option UsageInfo;
  finish_reason : option string;
  reasoning : Channel ReasoningItem;
  message : Channel OutputMessage;
  tools : Tools;
  draws : nat;
  ticks : nat;
}.

Definition set_created c x := mk (Some c) (model x) (seq x) (next_oi x) (usage x) (finish_reason x) (reasoning x)
  (message x) (tools x) (draws x) (ticks x).
Definition set_model m x := mk (created_at x) m (seq x) (next_oi x) (usage x) (finish_reason x) (reasoning x)
  (message x) (tools x) (draws x) (ticks x).
Definition set_seq n x := mk (created_at x) (model x) n (next_oi x) (usage x) (finish_reason x) (reasoning x)
  (message x) (tools x) (draws x) (ticks x).
Definition set_next_oi n x := mk (created_at x) (model x) (seq x) n (usage x) (finish_reason x) (reasoning x)
  (message x) (tools x) (draws x) (ticks x).
Definition set_usage u x := mk (created_at x) (model x) (seq x) (next_oi x) u (finish_reason x) (reasoning x)
  (message x) (tools x) (draws x) (ticks x).
Definition set_finish f x := mk (created_at x) (model x) (seq x) (next_oi x) (usage x) f (reasoning x)
  (message x) (tools x) (draws x) (ticks x).
Definition set_reasoning r x := mk (created_at x) (model x) (seq x) (next_oi x) (usage x) (finish_reason x) r
  (message x) (tools x) (draws x) (ticks x).
Definition set_message m x := mk (created_at x) (model x) (seq x) (next_oi x) (usage x) (finish_reason x)
  (reasoning x) m (tools x) (draws x) (ticks x).
Definition set_tools l x := mk (created_at x) (model x) (seq x) (next_oi x) (usage x) (finish_reason x)
  (reasoning x) (message x) l (draws x) (ticks x).
Definition set_draws n x := mk (created_at x) (model x) (seq x) (next_oi x) (usage x) (finish_reason x)
  (reasoning x) (message x) (tools x) n (ticks x).
Definition set_ticks n x := mk (created_at x) (model x) (seq x) (next_oi x) (usage x) (finish_reason x)
  (reasoning x) (message x) (tools x) (draws x) n.

(** [__init__]; the request and the response's id stay as they are and are arguments below. *)
Definition init (request_model : string) (drawn : nat) : t :=
  mk None request_model 0 0 None None (mkChannel None (-1) "") (mkChannel None (-1) "") (mkTools ∅ ∅ ∅) drawn 0.

(** *** Generators: the events yielded, then a value or an exception *)

Definition gen (A : Type) : Type := t → t * list (Z * event) * res A.

#[export] Instance gen_ret : MRet gen := λ A a x, (x, [], Ok a).
#[export] Instance gen_bind : MBind gen := λ A B f m x,
  let '(x, es, r) := m x in
  match r with
  | Ok a => let '(x, es', r') := f a x in (x, es ++ es', r')
  | Err e => (x, es, Err e)
  end.

Definition get {A} (f : t → A) : gen A := λ x, (x, [], Ok (f x)).
Definition modify (f : t → t) : gen unit := λ x, (f x, [], Ok tt).
Definition lift {A} (r : res A) : gen A := λ x, (x, [], r).
Definition yield (n : Z) (e : event) : gen unit := λ x, (x, [(n, e)], Ok tt).

Fixpoint for_each {A} (body : A → gen unit) (l : list A) : gen unit :=
  match l with [] => mret tt | a :: l => _ ← body a; for_each body l end.

(** [d[k]] *)
Definition at_key {A} (k : Z) (d : gmap Z A) : gen A :=
  lift (match d !! k with Some a => Ok a | None => Err (KeyError (pretty k)) end).

Section translator.
Context `{Envelope} `{Host} (request : Request) (response_id : string).

Definition uuid (prefix : string) : gen string :=
  n ← get draws; _ ← modify (set_draws (S n)); mret (prefix +:+ random_uuid n).
Definition time : gen Z := n ← get ticks; _ ← modify (set_ticks (S n)); mret (now n).

(** [yield self._event(...)] *)
Definition send (e : event) : gen unit :=
  n ← get seq; _ ← modify (set_seq (n + 1)); yield n e.

Definition take_oi : gen Z := oi ← get next_oi; _ ← modify (set_next_oi (oi + 1)); mret oi.

(** [yield self._envelope(...)] *)
Definition envelope (ty status : string) (output : list Item) (u : option Usage) (incomplete : json)
    (error : option json) (completed_at : option Z) : gen unit :=
  created ← get created_at;
  created ← (match created with Some c => mret c | None => time end);
  m ← get model;
  response ← lift (build_response_object request
    (mkFields status (JObj ∘ dump <$> output) u incomplete response_id created completed_at error
       (Json.truthy (background request)) m));
  _ ← modify (set_created created);
  send (Envelope_ ty response).

(** *** Reasoning *)

Definition open_reasoning : gen ReasoningItem :=
  id ← uuid "rs_";
  let item := mkReasoning id [] in
  oi ← take_oi;
  _ ← modify (λ x, set_reasoning (mkChannel (Some item) oi (ch_text (reasoning x))) x);
  _ ← send (ItemAdded oi (Reasoning item));
  _ ← send (SummaryPartAdded id oi "");
  mret item.

Definition on_reasoning (text : string) : gen unit :=
  c ← get reasoning;
  item ← (match ch_item c with Some item => mret item | None => open_reasoning end);
  _ ← modify (λ x, let c := reasoning x in set_reasoning (mkChannel (ch_item c) (ch_oi c) (ch_text c +:+ text)) x);
  c ← get reasoning;
  send (SummaryDelta (rs_id item) (ch_oi c) text).

Definition close_reasoning : gen unit :=
  c ← get reasoning;
  match ch_item c with
  | None => mret tt
  | Some item =>
      _ ← send (SummaryDone (rs_id item) (ch_oi c) (ch_text c));
      _ ← send (SummaryPartDone (rs_id item) (ch_oi c) (ch_text c));
      let item := mkReasoning (rs_id item) [ch_text c] in
      _ ← modify (set_reasoning (mkChannel (Some item) (ch_oi c) (ch_text c)));
      send (ItemDone (ch_oi c) (Reasoning item))
  end.

(** *** Content *)

Definition open_message : gen OutputMessage :=
  id ← uuid "msg_";
  let item := mkMessage id "in_progress" [] in
  oi ← take_oi;
  _ ← modify (λ x, set_message (mkChannel (Some item) oi (ch_text (message x))) x);
  _ ← send (ItemAdded oi (Message item));
  _ ← send (ContentPartAdded id oi "");
  mret item.

Definition on_content (text : string) : gen unit :=
  c ← get message;
  item ← (match ch_item c with Some item => mret item | None => open_message end);
  _ ← modify (λ x, let c := message x in set_message (mkChannel (ch_item c) (ch_oi c) (ch_text c +:+ text)) x);
  c ← get message;
  send (TextDelta (msg_id item) (ch_oi c) text).

Definition close_message : gen unit :=
  c ← get message;
  match ch_item c with
  | None => mret tt
  | Some item =>
      _ ← send (TextDone (msg_id item) (ch_oi c) (ch_text c));
      _ ← send (ContentPartDone (msg_id item) (ch_oi c) (ch_text c));
      let item := mkMessage (msg_id item) "completed" [ch_text c] in
      _ ← modify (set_message (mkChannel (Some item) (ch_oi c) (ch_text c)));
      send (ItemDone (ch_oi c) (Message item))
  end.

(** *** Tool calls *)

Definition put_call (idx : Z) (item : FunctionToolCall) : gen unit :=
  modify (λ x, let l := tools x in set_tools (mkTools (<[idx := item]> (calls l)) (args l) (ois l)) x).
Definition put_args (idx : Z) (text : string) : gen unit :=
  modify (λ x, let l := tools x in set_tools (mkTools (calls l) (<[idx := text]> (args l)) (ois l)) x).
Definition put_oi (idx oi : Z) : gen unit :=
  modify (λ x, let l := tools x in set_tools (mkTools (calls l) (args l) (<[idx := oi]> (ois l))) x).

Definition delta_name (tc : DeltaToolCall) : option string := f ← tc_function tc; nonempty (df_name f).
Definition delta_arguments (tc : DeltaToolCall) : option string := f ← tc_function tc; nonempty (df_arguments f).

Definition open_call (tc : DeltaToolCall) : gen FunctionToolCall :=
  let idx := tc_index tc in
  cid ← (match nonempty (tc_id tc) with Some i => mret i | None => uuid "call_" end);
  id ← uuid "fc_";
  let item := mkCall id cid (default "" (delta_name tc)) "" "in_progress" in
  _ ← put_call idx item;
  _ ← put_args idx "";
  oi ← take_oi;
  _ ← put_oi idx oi;
  _ ← send (ItemAdded oi (FunctionCall item));
  mret item.

(** A call that is open, named if it wasn't. *)
Definition name_call (tc : DeltaToolCall) (item : FunctionToolCall) : gen FunctionToolCall :=
  match delta_name tc with
  | Some name =>
      if decide (fc_name item = ""%string) then
        let item := mkCall (fc_id item) (call_id item) name (arguments item) (fc_status item) in
        _ ← put_call (tc_index tc) item; mret item
      else mret item
  | None => mret item
  end.

Definition on_tool_call (tc : DeltaToolCall) : gen unit :=
  let idx := tc_index tc in
  l ← get tools;
  item ← (match calls l !! idx with Some item => name_call tc item | None => open_call tc end);
  match delta_arguments tc with
  | Some text =>
      l ← get tools;
      so_far ← at_key idx (args l);
      _ ← put_args idx (so_far +:+ text);
      oi ← at_key idx (ois l);
      send (ArgumentsDelta (fc_id item) oi text)
  | None => mret tt
  end.

(** [sorted(self._tools)] *)
Definition sorted_calls (l : Tools) : list Z := Sort.sort Z.leb (map_to_list (calls l)).*1.

Definition close_call (idx : Z) : gen unit :=
  l ← get tools;
  item ← at_key idx (calls l);
  text ← at_key idx (args l);
  oi ← at_key idx (ois l);
  let item := mkCall (fc_id item) (call_id item) (fc_name item) text "completed" in
  _ ← put_call idx item;
  _ ← send (ArgumentsDone (fc_id item) oi text);
  send (ItemDone oi (FunctionCall item)).

Definition close_tools : gen unit := l ← get tools; for_each close_call (sorted_calls l).

(** *** Lifecycle *)

Definition close_all : gen unit := _ ← close_reasoning; _ ← close_message; close_tools.

Definition collect_output (x : t) : list Item :=
  (if ch_item (reasoning x) is Some i then [Reasoning i] else [])
  ++ (if ch_item (message x) is Some i then [Message i] else [])
  ++ (FunctionCall <$> omap (λ idx, calls (tools x) !! idx) (sorted_calls (tools x))).

Definition start : gen unit :=
  _ ← envelope "response.created" "in_progress" [] None JNull None None;
  envelope "response.in_progress" "in_progress" [] None JNull None None.

Definition on_choice (c : StreamChoice) : gen unit :=
  let d := c_delta c in
  _ ← (if nonempty (d_reasoning d) is Some text then on_reasoning text else mret tt);
  _ ← (if nonempty (d_content d) is Some text then on_content text else mret tt);
  _ ← for_each on_tool_call (default [] (d_tool_calls d));
  if c_finish_reason c is Some f then modify (set_finish (Some f)) else mret tt.

Definition process (chunk : Chunk) : gen unit :=
  _ ← (if decide (ch_model chunk = ""%string) then mret tt else modify (set_model (ch_model chunk)));
  _ ← (if ch_usage chunk is Some u then modify (set_usage (Some u)) else mret tt);
  for_each on_choice (ch_choices chunk).

Definition finish : gen unit :=
  _ ← close_all;
  output ← get collect_output;
  f ← get finish_reason;
  let '(status, incomplete) := status_for f in
  u ← get usage;
  completed ← (if decide (status = "completed"%string) then n ← time; mret (Some n) else mret None);
  envelope (if decide (status = "incomplete"%string) then "response.incomplete" else "response.completed")
    status output (usage_from_chat <$> u) incomplete None completed.

Definition fail (message code : string) : gen unit :=
  _ ← close_all;
  output ← get collect_output;
  envelope "response.failed" "failed" output None JNull
    (Some (JObj [("code", JStr code); ("message", JStr message)]%string)) None.
End translator.
End Translator.

(** ** Driving it ([BaseInfer._stream_responses]) *)

(** How a loader's chunks end. *)
Inductive ending : Type :=
| Exhausted
| Disconnected
| Failed (e : exn).

#[export] Instance ending_eq_dec : EqDecision ending.
Proof. solve_decision. Defined.

Section driver.
Import Translator.
Context `{Envelope} `{Host}.

(** [try]: what the body returns or raises, an [Exception]; a cancelled task isn't caught. *)
Definition catching {A} (m : gen A) : gen (res A) := λ x,
  let '(x, es, r) := m x in
  match r with Err CancelledError => (x, es, Err CancelledError) | _ => (x, es, Ok r) end.

(** A failure to the client: what the loader says of it ([client_error]), or a plain message. *)
Definition fail_with (client_error : exn → option string) (request : Request) (response_id : string) (e : exn)
    : gen unit :=
  match client_error e with
  | Some message => fail request response_id message "invalid_prompt"
  | None => fail request response_id "Internal error during generation" "server_error"
  end.

Definition drive (client_error : exn → option string) (request : Request) (response_id : string)
    (chunks : list Chunk) (how : ending) : gen unit :=
  _ ← start request response_id;
  r ← catching (_ ← for_each process chunks;
                lift (match how with Failed e => Err e | _ => Ok tt end));
  match r, how with
  | Ok _, Disconnected => mret tt
  | Ok _, _ => finish request response_id
  | Err e, _ => fail_with client_error request response_id e
  end.

(** [_stream_responses]: the events it yields, and whether it raises. *)
Definition stream_responses (client_error : exn → option string) (request : Request) (response_id : option string)
    (chunks : list Chunk) (how : ending) : list (Z * event) * res unit :=
  let '(response_id, drawn) :=
    match nonempty response_id with
    | Some i => (i, 0%nat)
    | None => ("resp_" +:+ random_uuid 0, 1%nat)
    end in
  let '(_, es, r) := drive client_error request response_id chunks how
    (init (if r_model request is JStr m then m else "") drawn) in
  (es, r).
End driver.

(** ** A response that isn't streamed ([utils/responses.py]) *)

(** [ParsedChatOutput] and its tool calls *)
Record ToolCall : Type := mkToolCall { tool_id : string; tool_name : string; tool_arguments : string }.
Record ParsedChatOutput : Type := mkParsed {
  p_content : option string;
  p_reasoning : option string;
  p_tool_calls : list ToolCall;
}.

Section whole.
Context `{Envelope} `{Host}.

Fixpoint call_items (n : nat) (l : list ToolCall) : list Item :=
  match l with
  | [] => []
  | c :: l =>
      FunctionCall (mkCall ("fc_" +:+ random_uuid n) (tool_id c) (tool_name c) (tool_arguments c) "completed")
      :: call_items (S n) l
  end.

(** [build_responses_items_from_parsed], from the [n]-th random id on *)
Definition build_responses_items_from_parsed (n : nat) (parsed : ParsedChatOutput) : list Item :=
  let '(l1, n) := if nonempty (p_reasoning parsed) is Some text
                  then ([Reasoning (mkReasoning ("rs_" +:+ random_uuid n) [text])], S n) else ([], n) in
  let '(l2, n) := if nonempty (p_content parsed) is Some text
                  then ([Message (mkMessage ("msg_" +:+ random_uuid n) "completed" [text])], S n) else ([], n) in
  l1 ++ l2 ++ call_items n (p_tool_calls parsed).

(** [build_response_from_parsed]; the envelope draws its own id and reads the clock. *)
Definition build_response_from_parsed (parsed : ParsedChatOutput) (request : Request) (usage : UsageInfo)
    (finish_reason : option string) (model : string) : res (dict json) :=
  let '(status, incomplete) := status_for finish_reason in
  let output := build_responses_items_from_parsed 0 parsed in
  let completed := if decide (status = "completed"%string) then Some (now 0) else None in
  build_response_object request
    (mkFields status (JObj ∘ dump <$> output) (Some (usage_from_chat usage)) incomplete
       ("resp_" +:+ random_uuid (length output)) (now (if completed is Some _ then 1%nat else 0%nat)) completed None
       (Json.truthy (background request)) model).
End whole.
