(* ===== verification/StreamingClient.v ===== *)
(** * A client of a response's stream

    What a client makes of the events of [Streaming]: it opens an item where one is added, adds each
    piece of text to the item it names, checks every text said to be done against what it has, and
    closes the item. [wp] runs a generator of the translator against such a client. *)

From S2P Require Import Prelude ResponsesState McpPolicy ResponseObjects Streaming.
Local Open Scope Z_scope.

(** ** The client *)

Record held : Type := mkHeld { h_item : Item; h_done : bool }.
Notation client := (list held).

(** An item as it is added: nothing in it yet. *)
Definition blank (i : Item) : bool :=
  match i with
  | Reasoning i => bool_decide (summary i = [])
  | Message i => bool_decide (content i = [] ∧ msg_status i = "in_progress"%string)
  | FunctionCall i => bool_decide (arguments i = ""%string ∧ fc_status i = "in_progress"%string)
  end.

(** Whether an item that is done is the one the client has; its name may only come now. *)
Definition completes (mine i : Item) : bool :=
  match mine, i with
  | Reasoning a, Reasoning b => bool_decide (summary a = summary b)
  | Message a, Message b => bool_decide (content a = content b ∧ msg_status b = "completed"%string)
  | FunctionCall a, FunctionCall b =>
      bool_decide (call_id a = call_id b ∧ arguments a = arguments b ∧ fc_status b = "completed"%string ∧
        (fc_name a = ""%string ∨ fc_name a = fc_name b))
  | _, _ => false
  end.

(** A change of the open item at an output index, which the event's item id must be the id of. *)
Definition on_open (id : string) (oi : Z) (f : Item → option held) (c : client) : option client :=
  if oi <? 0 then None else
  h ← c !! Z.to_nat oi;
  if h_done h || negb (bool_decide (item_id (h_item h) = id)) then None else
  h' ← f (h_item h);
  Some (<[Z.to_nat oi := h']> c).

Definition still (i : Item) : option held := Some (mkHeld i false).

Definition add_summary (text : string) (i : Item) : option held :=
  match i with Reasoning (mkReasoning id []) => still (Reasoning (mkReasoning id [text])) | _ => None end.
Definition more_summary (text : string) (i : Item) : option held :=
  match i with Reasoning (mkReasoning id [t]) => still (Reasoning (mkReasoning id [t +:+ text])) | _ => None end.
Definition same_summary (text : string) (i : Item) : option held :=
  match i with Reasoning (mkReasoning _ [t]) => if decide (t = text) then still i else None | _ => None end.
Definition add_content (text : string) (i : Item) : option held :=
  match i with Message (mkMessage id st []) => still (Message (mkMessage id st [text])) | _ => None end.
Definition more_content (text : string) (i : Item) : option held :=
  match i with Message (mkMessage id st [t]) => still (Message (mkMessage id st [t +:+ text])) | _ => None end.
Definition same_content (text : string) (i : Item) : option held :=
  match i with Message (mkMessage _ _ [t]) => if decide (t = text) then still i else None | _ => None end.
Definition more_arguments (text : string) (i : Item) : option held :=
  match i with
  | FunctionCall (mkCall id cid name t st) => still (FunctionCall (mkCall id cid name (t +:+ text) st))
  | _ => None
  end.
Definition same_arguments (text : string) (i : Item) : option held :=
  match i with FunctionCall (mkCall _ _ _ t _) => if decide (t = text) then still i else None | _ => None end.

(** One event between the first envelopes and the last one; [None] where the client has no place for it,
    or has something else. *)
Definition client_step (c : client) (e : event) : option client :=
  match e with
  | Envelope_ _ _ => None
  | ItemAdded oi i => if decide (oi = Z.of_nat (length c)) then if blank i then Some (c ++ [mkHeld i false]) else None else None
  | ItemDone oi i => on_open (item_id i) oi (λ mine, if completes mine i then Some (mkHeld i true) else None) c
  | SummaryPartAdded id oi text => on_open id oi (add_summary text) c
  | SummaryDelta id oi delta => on_open id oi (more_summary delta) c
  | SummaryDone id oi text | SummaryPartDone id oi text => on_open id oi (same_summary text) c
  | ContentPartAdded id oi text => on_open id oi (add_content text) c
  | TextDelta id oi delta => on_open id oi (more_content delta) c
  | TextDone id oi text | ContentPartDone id oi text => on_open id oi (same_content text) c
  | ArgumentsDelta id oi delta => on_open id oi (more_arguments delta) c
  | ArgumentsDone id oi text => on_open id oi (same_arguments text) c
  end.

Fixpoint feed (c : client) (es : list event) : option client :=
  match es with [] => Some c | e :: es => c ← client_step c e; feed c es end.

Lemma feed_app c es es' : feed c (es ++ es') = c ← feed c es; feed c es'.
Proof. revert c. induction es as [|e es IH]; intros c; [done|]. cbn. destruct (client_step c e); [apply IH|done]. Qed.

Lemma on_open_ok id oi f c h h' :
  c !! oi = Some h → h_done h = false → item_id (h_item h) = id → f (h_item h) = Some h' →
  on_open id (Z.of_nat oi) f c = Some (<[oi := h']> c).
Proof.
  intros Hc Hd Hi Hf. unfold on_open. rewrite (proj2 (Z.ltb_ge _ _)), Nat2Z.id by lia. rewrite Hc. cbn.
  rewrite Hd, bool_decide_true by done. cbn. by rewrite Hf.
Qed.

(** ** Running the translator against the client *)

Module Wp.
Import Translator.

Definition numbered (from : Z) (es : list (Z * event)) (upto : Z) : Prop :=
  es.*1 = seqZ from (Z.of_nat (length es)) ∧ upto = from + Z.of_nat (length es).

(** [m] raises nothing, numbers its events on, and the client follows them to where [Q] holds. *)
Definition wp {A} (m : gen A) (Q : A → t → client → Prop) (x : t) (c : client) : Prop :=
  ∃ x' es a c', m x = (x', es, Ok a) ∧ numbered (seq x) es (seq x') ∧ feed c es.*2 = Some c' ∧ Q a x' c'.

Lemma numbered_app a b d es es' : numbered a es b → numbered b es' d → numbered a (es ++ es') d.
Proof.
  intros [H1 ->] [H2 ->]. split; rewrite length_app, Nat2Z.inj_add; [|lia].
  by rewrite fmap_app, H1, H2, seqZ_app by lia.
Qed.

Lemma wp_bind {A B} (m : gen A) (f : A → gen B) Q x c :
  wp m (λ a, wp (f a) Q) x c → wp (m ≫= f) Q x c.
Proof.
  intros (x1 & es1 & a & c1 & Hm & Hn1 & Hf1 & x2 & es2 & b & c2 & Hf & Hn2 & Hf2 & HQ).
  exists x2, (es1 ++ es2), b, c2. unfold mbind, gen_bind. rewrite Hm, Hf. split; [done|].
  split; [by eapply numbered_app|]. split; [|done]. by rewrite fmap_app, feed_app, Hf1.
Qed.

Lemma wp_here {A} (m : gen A) a x x' c (Q : A → t → client → Prop) :
  m x = (x', [], Ok a) → seq x' = seq x → Q a x' c → wp m Q x c.
Proof. intros Hm Hs HQ. exists x', [], a, c. split; [done|]. split; [split; cbn; [done|lia]|done]. Qed.

Lemma wp_ret {A} (a : A) (Q : A → t → client → Prop) x c : Q a x c → wp (mret a) Q x c.
Proof. by apply wp_here. Qed.
Lemma wp_get {A} (f : t → A) (Q : A → t → client → Prop) x c : Q (f x) x c → wp (get f) Q x c.
Proof. by apply wp_here. Qed.
Lemma wp_lift {A} (r : res A) a (Q : A → t → client → Prop) x c : r = Ok a → Q a x c → wp (lift r) Q x c.
Proof. intros ->. by apply wp_here. Qed.
Lemma wp_modify f (Q : unit → t → client → Prop) x c : seq (f x) = seq x → Q tt (f x) c → wp (modify f) Q x c.
Proof. by apply wp_here. Qed.
Lemma wp_send e c' (Q : unit → t → client → Prop) x c :
  client_step c e = Some c' → Q tt (set_seq (seq x + 1) x) c' → wp (send e) Q x c.
Proof.
  intros Hc HQ. exists (set_seq (seq x + 1) x), [(seq x, e)], tt, c'. split; [done|].
  split; [split; cbn; [by rewrite seqZ_cons by lia|lia]|]. cbn. by rewrite Hc.
Qed.

Lemma wp_conseq {A} (m : gen A) (Q Q' : A → t → client → Prop) x c :
  wp m Q x c → (∀ a x' c', Q a x' c' → Q' a x' c') → wp m Q' x c.
Proof. intros (x' & es & a & c' & ? & ? & ? & ?) HQ. exists x', es, a, c'. auto. Qed.

(** A loop, with what holds after each prefix of its list. *)
Lemma wp_for_each {A} (body : A → gen unit) (I : list A → t → client → Prop) l before x c :
  (∀ done a x c, I done x c → wp (body a) (λ _, I (done ++ [a])) x c) →
  I before x c → wp (for_each body l) (λ _, I (before ++ l)) x c.
Proof.
  intros Hb. revert before x c. induction l as [|a l IH]; intros before x c HI; cbn [for_each].
  - apply wp_ret. by rewrite app_nil_r.
  - apply wp_bind. eapply wp_conseq; [by apply Hb|]. cbn. intros [] x' c' HI'.
    apply IH in HI'. by rewrite <-app_assoc in HI'.
Qed.

Lemma wp_uuid `{Host} prefix (Q : string → t → client → Prop) x c :
  Q (prefix +:+ random_uuid (draws x)) (set_draws (S (draws x)) x) c → wp (uuid prefix) Q x c.
Proof. by apply wp_here. Qed.
Lemma wp_time `{Host} (Q : Z → t → client → Prop) x c :
  Q (now (ticks x)) (set_ticks (S (ticks x)) x) c → wp time Q x c.
Proof. by apply wp_here. Qed.
Lemma wp_take_oi (Q : Z → t → client → Prop) x c : Q (next_oi x) (set_next_oi (next_oi x + 1) x) c → wp take_oi Q x c.
Proof. by apply wp_here. Qed.
End Wp.
