(* ===== verification/StreamingLogic.v ===== *)
(** * What the translator keeps

    The invariant of [Streaming.Translator] against the client of [StreamingClient]: after any pieces of
    a chat stream, the client holds one item per channel that was seen, in the order they were first
    seen, with the text that channel has given so far. *)

From S2P Require Import Prelude ResponsesState McpPolicy ResponseObjects Streaming StreamingClient.
Local Open Scope Z_scope.
Import Translator Wp.

(** ** Channels and what they gave *)

Inductive slot : Type := SReasoning | SMessage | SCall (idx : Z).

#[export] Instance slot_eq_dec : EqDecision slot.
Proof. solve_decision. Defined.

(** What a channel gave: its text, and for a call its name, and its id if the chat stream gave one. *)
Record View : Type := mkView { v_name : string; v_text : string; v_id : option string }.
Implicit Types v : slot → View.

(** What the translator has of a channel. *)
Record Chan : Type := mkChan { c_item : option Item; c_oi : option Z; c_text : option string }.
Definition chan (x : t) (s : slot) : Chan :=
  match s with
  | SReasoning => let c := reasoning x in mkChan (Reasoning <$> ch_item c) (Some (ch_oi c)) (Some (ch_text c))
  | SMessage => let c := message x in mkChan (Message <$> ch_item c) (Some (ch_oi c)) (Some (ch_text c))
  | SCall k => let l := tools x in mkChan (FunctionCall <$> calls l !! k) (ois l !! k) (args l !! k)
  end.

(** The client's open item of a channel, and the translator's. *)
Definition open_slot (w : View) (s : slot) (mine theirs : Item) : Prop :=
  match s with
  | SReasoning => ∃ id l, theirs = Reasoning (mkReasoning id l) ∧ mine = Reasoning (mkReasoning id [v_text w])
  | SMessage => ∃ id st l, theirs = Message (mkMessage id st l) ∧
      mine = Message (mkMessage id "in_progress" [v_text w])
  | SCall _ => ∃ id cid a st n, theirs = FunctionCall (mkCall id cid (v_name w) a st) ∧
      mine = FunctionCall (mkCall id cid n (v_text w) "in_progress") ∧
      (n = ""%string ∨ n = v_name w) ∧ (∀ cid', v_id w = Some cid' → cid = cid')
  end.

(** A channel's item once it is complete. *)
Definition complete (w : View) (s : slot) (i : Item) : Prop :=
  match s with
  | SReasoning => ∃ id, i = Reasoning (mkReasoning id [v_text w])
  | SMessage => ∃ id, i = Message (mkMessage id "completed" [v_text w])
  | SCall _ => ∃ id cid, i = FunctionCall (mkCall id cid (v_name w) (v_text w) "completed") ∧
      (∀ cid', v_id w = Some cid' → cid = cid')
  end.

(** An item that the client holds, closed or not. *)
Definition tracks (closed : bool) (w : View) (ch : Chan) (s : slot) (h : held) : Prop :=
  h_done h = closed ∧ ∃ i, c_item ch = Some i ∧
    if closed then i = h_item h ∧ complete w s i
    else c_text ch = Some (v_text w) ∧ open_slot w s (h_item h) i.

Definition absent (ch : Chan) (s : slot) : Prop :=
  c_item ch = None ∧ if s is SCall _ then True else c_text ch = Some ""%string.

Definition is_closed (closed : list slot) (s : slot) : bool := bool_decide (s ∈ closed).

Record inv (closed slots : list slot) (v : slot → View) (x : t) (c : client) : Prop := mkInv {
  inv_slots : Forall2 (λ s, tracks (is_closed closed s) (v s) (chan x s) s) slots c;
  inv_nodup : NoDup slots;
  inv_oi : ∀ i s, slots !! i = Some s → c_oi (chan x s) = Some (Z.of_nat i);
  inv_next : next_oi x = Z.of_nat (length slots);
  inv_absent : ∀ s, s ∉ slots → absent (chan x s) s;
}.

(** What the rest of the state, and the views of other channels, don't matter to. *)
Lemma inv_same closed slots v v' x x' c :
  (∀ s, chan x' s = chan x s) → next_oi x' = next_oi x → (∀ s, s ∈ slots → v' s = v s) →
  inv closed slots v x c → inv closed slots v' x' c.
Proof.
  intros Hc Hn Hv [H1 H2 H3 H4 H5]. split; [|done| |by rewrite Hn|].
  - apply Forall2_same_length_lookup. split; [by eapply Forall2_length|]. intros i s h Hs Hh.
    rewrite Hc, Hv by by eapply list_elem_of_lookup_2. by eapply Forall2_lookup_lr in H1.
  - intros i s. rewrite Hc. apply H3.
  - intros s. rewrite Hc. apply H5.
Qed.

Lemma lookup_snoc_cases {A} (l : list A) a i b :
  (l ++ [a]) !! i = Some b → l !! i = Some b ∨ i = length l ∧ a = b.
Proof.
  intros [H|[Hi H]]%lookup_app_Some; [by left|]. right. apply list_lookup_singleton_Some in H as [? ->].
  split; [lia|done].
Qed.

(** ** Lookups *)

Lemma inv_length closed slots v x c : inv closed slots v x c → length c = length slots.
Proof. intros [H _ _ _ _]. symmetry. by eapply Forall2_length. Qed.

Lemma inv_find closed slots v x c s :
  inv closed slots v x c → s ∈ slots →
  ∃ i h, slots !! i = Some s ∧ c !! i = Some h ∧ tracks (is_closed closed s) (v s) (chan x s) s h ∧
    c_oi (chan x s) = Some (Z.of_nat i).
Proof.
  intros Hi [i Hs]%list_elem_of_lookup. destruct (Forall2_lookup_l _ _ _ _ _ (inv_slots _ _ _ _ _ Hi) Hs) as (h & Hc & Ht).
  exists i, h. split; [done|]. split; [done|]. split; [done|]. by eapply inv_oi.
Qed.

(** A change of one channel. *)
Lemma inv_change closed closed' slots v v' x x' c i s h' :
  inv closed slots v x c → slots !! i = Some s →
  tracks (is_closed closed' s) (v' s) (chan x' s) s h' → c_oi (chan x' s) = c_oi (chan x s) →
  (∀ s', s' ≠ s → is_closed closed' s' = is_closed closed s' ∧ v' s' = v s' ∧ chan x' s' = chan x s') →
  next_oi x' = next_oi x → inv closed' slots v' x' (<[i := h']> c).
Proof.
  intros [H1 H2 H3 H4 H5] Hs Hh Hoi Hframe Hn. pose proof (Forall2_length _ _ _ H1) as Hlen.
  split; [|done| |by rewrite Hn|].
  - apply Forall2_same_length_lookup. split; [by rewrite length_insert|]. intros j s' h Hj Hc.
    destruct (decide (i = j)) as [<-|Hij].
    + rewrite list_lookup_insert_eq in Hc by (rewrite <-Hlen; by eapply lookup_lt_Some). by simplify_eq.
    + rewrite list_lookup_insert_ne in Hc by done. destruct (Hframe s') as (-> & -> & ->).
      { intros ->. apply Hij. by eapply NoDup_lookup. }
      by eapply Forall2_lookup_lr in H1.
  - intros j s' Hj. destruct (decide (s' = s)) as [->|Hne]; [rewrite Hoi; by apply H3|].
    destruct (Hframe s') as (_ & _ & ->); [done|]. by apply H3.
  - intros s' Hout. destruct (Hframe s') as (_ & _ & ->); [|by apply H5].
    intros ->. apply Hout. by eapply list_elem_of_lookup_2.
Qed.

(** A new channel. *)
Lemma inv_add closed slots v v' x x' c s h :
  inv closed slots v x c → s ∉ slots →
  tracks (is_closed closed s) (v' s) (chan x' s) s h → c_oi (chan x' s) = Some (next_oi x) →
  (∀ s', s' ≠ s → v' s' = v s' ∧ chan x' s' = chan x s') →
  next_oi x' = next_oi x + 1 → inv closed (slots ++ [s]) v' x' (c ++ [h]).
Proof.
  intros [H1 H2 H3 H4 H5] Hs Hh Hoi Hframe Hn.
  split; [| | |rewrite Hn, H4, length_app; cbn; lia|].
  - apply Forall2_app; [|by constructor; [done|constructor]]. apply Forall2_same_length_lookup.
    split; [by eapply Forall2_length|]. intros j s' h' Hj Hc. destruct (Hframe s') as (-> & ->).
    { intros ->. apply Hs. by eapply list_elem_of_lookup_2. }
    by eapply Forall2_lookup_lr in H1.
  - apply NoDup_app. split; [done|]. split; [|apply NoDup_singleton]. intros s' Hin ->%list_elem_of_singleton. done.
  - intros j s' [Hj|[-> ->]]%lookup_snoc_cases; [|by rewrite Hoi, H4].
    destruct (Hframe s') as (_ & ->); [|by apply H3]. intros ->. apply Hs. by eapply list_elem_of_lookup_2.
  - intros s' Hout. destruct (Hframe s') as (_ & ->); [set_solver|apply H5; set_solver].
Qed.

Lemma step_added c i n : n = Z.of_nat (length c) → blank i = true →
  client_step c (ItemAdded n i) = Some (c ++ [mkHeld i false]).
Proof. intros -> H. cbn. by rewrite decide_True, H. Qed.

Lemma on_open_last id f c h h' n :
  n = Z.of_nat (length c) → h_done h = false → item_id (h_item h) = id → f (h_item h) = Some h' →
  on_open id n f (c ++ [h]) = Some (c ++ [h']).
Proof.
  intros -> Hd Hi Hf. rewrite (on_open_ok _ _ _ _ h h'); [|by rewrite list_lookup_middle|done..].
  f_equal. rewrite <-(Nat.add_0_r (length c)), insert_app_r. done.
Qed.

(** ** Opening a channel and adding to it *)

Section steps.
Context `{Host} (slots : list slot) (v : slot → View).

(** The view with one channel changed. *)
Definition view_with (s : slot) (w : View) (v : slot → View) : slot → View :=
  λ s', if decide (s' = s) then w else v s'.
Definition view_text (text : string) (w : View) : View := mkView (v_name w) text (v_id w).

Lemma view_with_eq s w : view_with s w v s = w.
Proof. unfold view_with. by rewrite decide_True. Qed.
Lemma view_with_ne s w s' : s' ≠ s → view_with s w v s' = v s'.
Proof. intros. unfold view_with. by rewrite decide_False. Qed.

Lemma open_reasoning_ok x c Q :
  inv [] slots v x c → SReasoning ∉ slots → v_text (v SReasoning) = "" →
  (∀ id x' c', ch_item (reasoning x') = Some (mkReasoning id []) → inv [] (slots ++ [SReasoning]) v x' c' →
    Q (mkReasoning id []) x' c') →
  wp open_reasoning Q x c.
Proof.
  intros Hi Hout Hv HQ. unfold open_reasoning. pose proof (inv_length _ _ _ _ _ Hi) as Hlen.
  pose proof (inv_next _ _ _ _ _ Hi) as Hnext. destruct (inv_absent _ _ _ _ _ Hi _ Hout) as [_ Htext].
  apply wp_bind, wp_uuid. cbn. apply wp_bind, wp_take_oi. cbn. apply wp_bind, wp_modify; [done|]. cbn.
  apply wp_bind. eapply wp_send; [apply step_added; [by rewrite Hnext, Hlen|done]|].
  apply wp_bind. eapply wp_send; [apply on_open_last; [by rewrite Hnext, Hlen|done..]|]. apply wp_ret. apply HQ; [done|].
  eapply inv_add; [exact Hi|done| |done|intros [| |k]; by split|done].
  split; [done|]. eexists. split; [done|]. split; [cbn in *; by rewrite Hv|]. by eexists _, _; rewrite Hv.
Qed.

Lemma open_message_ok x c Q :
  inv [] slots v x c → SMessage ∉ slots → v_text (v SMessage) = "" →
  (∀ id x' c', ch_item (message x') = Some (mkMessage id "in_progress" []) → inv [] (slots ++ [SMessage]) v x' c' →
    Q (mkMessage id "in_progress" []) x' c') →
  wp open_message Q x c.
Proof.
  intros Hi Hout Hv HQ. unfold open_message. pose proof (inv_length _ _ _ _ _ Hi) as Hlen.
  pose proof (inv_next _ _ _ _ _ Hi) as Hnext. destruct (inv_absent _ _ _ _ _ Hi _ Hout) as [_ Htext].
  apply wp_bind, wp_uuid. cbn. apply wp_bind, wp_take_oi. cbn. apply wp_bind, wp_modify; [done|]. cbn.
  apply wp_bind. eapply wp_send; [apply step_added; [by rewrite Hnext, Hlen|done]|].
  apply wp_bind. eapply wp_send; [apply on_open_last; [by rewrite Hnext, Hlen|done..]|]. apply wp_ret. apply HQ; [done|].
  eapply inv_add; [exact Hi|done| |done|intros [| |k]; by split|done].
  split; [done|]. eexists. split; [done|]. split; [cbn in *; by rewrite Hv|]. by eexists _, _, _; rewrite Hv.
Qed.

(** A piece of text for a channel that is open. *)
Lemma more_reasoning_ok text x c id l :
  inv [] slots v x c → SReasoning ∈ slots → ch_item (reasoning x) = Some (mkReasoning id l) →
  let w := view_text (v_text (v SReasoning) +:+ text) (v SReasoning) in
  ∀ Q : unit → t → client → Prop,
  (∀ x' c', inv [] slots (view_with SReasoning w v) x' c' → Q tt x' c') →
  wp (_ ← modify (λ x, let c := reasoning x in set_reasoning (mkChannel (ch_item c) (ch_oi c) (ch_text c +:+ text)) x);
      c ← get reasoning; send (SummaryDelta id (ch_oi c) text)) Q x c.
Proof.
  intros Hi Hin Hitem w Q HQ. destruct (inv_find _ _ _ _ _ _ Hi Hin) as (i & h & Hs & Hc & [Hd Ht] & Hoi).
  destruct Ht as (? & Hit & Htext & id' & l' & -> & Hh). cbn in Hit, Htext, Hoi. rewrite Hitem in Hit. simplify_eq/=.
  apply wp_bind, wp_modify; [done|]. apply wp_bind, wp_get. cbn. rewrite Hoi.
  eapply wp_send; [eapply on_open_ok; [done|done|by rewrite Hh|by rewrite Hh]|]. apply HQ.
  eapply inv_change; [done|done| |by cbn; rewrite Hoi| |done].
  - rewrite view_with_eq. split; [done|]. exists (Reasoning (mkReasoning id' l')). cbn. rewrite Hitem.
    split; [done|]. split; [by rewrite Htext|]. by eexists _, _.
  - intros [| |k] Hne; rewrite view_with_ne by done; by split_and!.
Qed.

Lemma more_content_ok text x c id st l :
  inv [] slots v x c → SMessage ∈ slots → ch_item (message x) = Some (mkMessage id st l) →
  let w := view_text (v_text (v SMessage) +:+ text) (v SMessage) in
  ∀ Q : unit → t → client → Prop,
  (∀ x' c', inv [] slots (view_with SMessage w v) x' c' → Q tt x' c') →
  wp (_ ← modify (λ x, let c := message x in set_message (mkChannel (ch_item c) (ch_oi c) (ch_text c +:+ text)) x);
      c ← get message; send (TextDelta id (ch_oi c) text)) Q x c.
Proof.
  intros Hi Hin Hitem w Q HQ. destruct (inv_find _ _ _ _ _ _ Hi Hin) as (i & h & Hs & Hc & [Hd Ht] & Hoi).
  destruct Ht as (? & Hit & Htext & id' & st' & l' & -> & Hh). cbn in Hit, Htext, Hoi. rewrite Hitem in Hit. simplify_eq/=.
  apply wp_bind, wp_modify; [done|]. apply wp_bind, wp_get. cbn. rewrite Hoi.
  eapply wp_send; [eapply on_open_ok; [done|done|by rewrite Hh|by rewrite Hh]|]. apply HQ.
  eapply inv_change; [done|done| |by cbn; rewrite Hoi| |done].
  - rewrite view_with_eq. split; [done|]. exists (Message (mkMessage id' st' l')). cbn. rewrite Hitem.
    split; [done|]. split; [by rewrite Htext|]. by eexists _, _, _.
  - intros [| |k] Hne; rewrite view_with_ne by done; by split_and!.
Qed.
End steps.

(** Seeing a channel: it goes last, unless it was seen. *)
Definition see (s : slot) (slots : list slot) : list slot := if decide (s ∈ slots) then slots else slots ++ [s].

Section pieces.
Context `{Host}.

Lemma present slots v x c s : inv [] slots v x c → s ∈ slots ↔ is_Some (c_item (chan x s)).
Proof.
  intros Hi. split.
  - intros Hin. by destruct (inv_find _ _ _ _ _ _ Hi Hin) as (i & h & _ & _ & (_ & it & -> & _) & _).
  - intros [it Hit]. destruct (decide (s ∈ slots)) as [|Hout]; [done|].
    destruct (inv_absent _ _ _ _ _ Hi _ Hout) as [E _]. congruence.
Qed.

Lemma on_reasoning_ok slots v text x c :
  inv [] slots v x c → (SReasoning ∉ slots → v_text (v SReasoning) = "") →
  let w := view_text (v_text (v SReasoning) +:+ text) (v SReasoning) in
  wp (on_reasoning text) (λ _, inv [] (see SReasoning slots) (view_with SReasoning w v)) x c.
Proof.
  intros Hi Hv w. unfold on_reasoning, see. pose proof (present _ _ _ _ SReasoning Hi) as Hp. cbn in Hp.
  apply wp_bind, wp_get. destruct (ch_item (reasoning x)) as [[id l]|] eqn:E.
  - rewrite decide_True by (by apply Hp; eexists). apply wp_bind, wp_ret.
    eapply more_reasoning_ok; [done|by apply Hp; eexists|done|]. done.
  - assert (SReasoning ∉ slots) as Hout by (rewrite Hp; by intros [? [=]]). rewrite decide_False by done.
    apply wp_bind. eapply open_reasoning_ok; [done|done|by apply Hv|]. intros id x' c' Hx' Hi'.
    eapply more_reasoning_ok; [done|set_solver|done|]. done.
Qed.

Lemma on_content_ok slots v text x c :
  inv [] slots v x c → (SMessage ∉ slots → v_text (v SMessage) = "") →
  let w := view_text (v_text (v SMessage) +:+ text) (v SMessage) in
  wp (on_content text) (λ _, inv [] (see SMessage slots) (view_with SMessage w v)) x c.
Proof.
  intros Hi Hv w. unfold on_content, see. pose proof (present _ _ _ _ SMessage Hi) as Hp. cbn in Hp.
  apply wp_bind, wp_get. destruct (ch_item (message x)) as [[id st l]|] eqn:E.
  - rewrite decide_True by (by apply Hp; eexists). apply wp_bind, wp_ret.
    eapply more_content_ok; [done|by apply Hp; eexists|done|]. done.
  - assert (SMessage ∉ slots) as Hout by (rewrite Hp; by intros [? [=]]). rewrite decide_False by done.
    apply wp_bind. eapply open_message_ok; [done|done|by apply Hv|]. intros id x' c' Hx' Hi'.
    eapply more_content_ok; [done|set_solver|done|]. done.
Qed.
(** *** Calls *)

(** A call's view after a delta: the name it gets if it has none, and its arguments. *)
Definition view_of_first (tc : DeltaToolCall) : View := mkView (default "" (delta_name tc)) "" (nonempty (tc_id tc)).
Definition view_named (tc : DeltaToolCall) (w : View) : View :=
  mkView (if decide (v_name w = ""%string) then default "" (delta_name tc) else v_name w) (v_text w) (v_id w).

Lemma open_call_ok slots v tc x c Q :
  let k := tc_index tc in
  inv [] slots v x c → SCall k ∉ slots →
  (∀ i x' c', calls (tools x') !! k = Some i →
    inv [] (slots ++ [SCall k]) (view_with (SCall k) (view_of_first tc) v) x' c' → Q i x' c') →
  wp (open_call tc) Q x c.
Proof.
  intros k Hi Hout HQ. unfold open_call. pose proof (inv_length _ _ _ _ _ Hi) as Hlen.
  pose proof (inv_next _ _ _ _ _ Hi) as Hnext.
  assert (∀ P x1, (∀ cid n, (∀ i, nonempty (tc_id tc) = Some i → cid = i) → P cid (set_draws n x1) c) →
    wp (match nonempty (tc_id tc) with Some i => mret i | None => uuid "call_" end) P x1 c) as Hid.
  { intros P x1 HP. destruct (nonempty (tc_id tc)) as [cid|].
    - apply wp_ret. specialize (HP cid (draws x1)). destruct x1. apply HP. congruence.
    - apply wp_uuid. by apply HP. }
  apply wp_bind, Hid. intros cid n Hcid. apply wp_bind, wp_uuid. cbn. do 2 (apply wp_bind, wp_modify; [done|]).
  apply wp_bind, wp_take_oi. cbn. apply wp_bind, wp_modify; [done|].
  apply wp_bind. eapply wp_send; [apply step_added; [by cbn; rewrite Hnext, Hlen|done]|]. apply wp_ret.
  apply HQ; [by cbn; rewrite lookup_insert_eq|]. eapply inv_add; [exact Hi|done| | | |done].
  - rewrite view_with_eq. split; [done|]. eexists. cbn. rewrite !lookup_insert_eq. split; [done|].
    split; [done|]. eexists _, _, _, _, _. split; [done|]. split; [done|]. split; [by right|].
    intros cid' Hc'. by apply Hcid.
  - cbn. by rewrite lookup_insert_eq.
  - intros [| |k'] Hne; rewrite view_with_ne by done; [done..|]. split; [done|]. cbn.
    by rewrite !lookup_insert_ne by (unfold k in *; congruence).
Qed.

Lemma name_call_ok slots v tc i x c Q :
  let k := tc_index tc in
  inv [] slots v x c → calls (tools x) !! k = Some i →
  (∀ i' x' c', fc_id i' = fc_id i → calls (tools x') !! k = Some i' →
    inv [] slots (view_with (SCall k) (view_named tc (v (SCall k))) v) x' c' → Q i' x' c') →
  wp (name_call tc i) Q x c.
Proof.
  intros k Hi Hk HQ.
  assert (SCall k ∈ slots) as Hin by (apply (present _ _ _ _ (SCall k) Hi); cbn; rewrite Hk; by eexists).
  destruct (inv_find _ _ _ _ _ _ Hi Hin) as (j & h & Hs & Hc & [Hd Ht] & Hoi).
  destruct Ht as (? & Hit & Htext & id & cid & a & st & n & -> & Hh & Hn & Hcid). cbn in Hit, Htext.
  rewrite Hk in Hit. simplify_eq/=. unfold name_call.
  assert (view_named tc (v (SCall k)) = v (SCall k) →
    inv [] slots (view_with (SCall k) (view_named tc (v (SCall k))) v) x c) as Hsame.
  { intros E. eapply inv_same; [done|done| |done]. intros s _. unfold view_with. by case_decide; subst. }
  destruct (v (SCall k)) as [vn vt vi] eqn:Ev. cbn in *. unfold view_named in *. cbn in *.
  destruct (delta_name tc) as [name|] eqn:Et; cbn; [case_decide as Hvn|]; subst; cbn.
  - apply wp_bind, wp_modify; [done|]. apply wp_ret. apply HQ; [done|by cbn; rewrite lookup_insert_eq|].
    rewrite <-(list_insert_id c j h) by done. eapply inv_change; [exact Hi|done| |done| |done].
    + rewrite view_with_eq. split; [done|]. eexists. cbn. rewrite lookup_insert_eq. split; [done|].
      split; [done|]. eexists _, _, _, _, _. split; [done|]. split; [done|]. split; [|done]. left. by destruct Hn.
    + intros [| |k'] Hne; rewrite view_with_ne by done; [done..|]. split; [done|]. split; [done|]. cbn.
      by rewrite lookup_insert_ne by (unfold k in *; congruence).
  - apply wp_ret. apply HQ; [done|done|]. by apply Hsame.
  - apply wp_ret. apply HQ; [done|done|]. apply Hsame. by case_decide; subst.
Qed.

Lemma on_tool_call_ok slots v tc x c :
  let k := tc_index tc in
  let w := if decide (SCall k ∈ slots) then view_named tc (v (SCall k)) else view_of_first tc in
  inv [] slots v x c →
  wp (on_tool_call tc) (λ _, inv [] (see (SCall k) slots)
    (view_with (SCall k) (view_text (v_text w +:+ default "" (delta_arguments tc)) w) v)) x c.
Proof.
  intros k w Hi. unfold on_tool_call, see. cbv zeta. fold k. pose proof (present _ _ _ _ (SCall k) Hi) as Hp. cbn in Hp.
  apply wp_bind, wp_get. apply wp_bind.
  assert (∀ slots' i x' c', calls (tools x') !! k = Some i → SCall k ∈ slots' →
    inv [] slots' (view_with (SCall k) w v) x' c' →
    wp (match delta_arguments tc with
        | Some text => l ← get tools; so_far ← at_key k (args l); _ ← put_args k (so_far +:+ text);
                       oi ← at_key k (ois l); send (ArgumentsDelta (fc_id i) oi text)
        | None => mret tt
        end)
       (λ _, inv [] slots' (view_with (SCall k) (view_text (v_text w +:+ default "" (delta_arguments tc)) w) v)) x' c')
    as Hargs.
  { clear x c Hi Hp. intros slots' i x c Hk Hin Hi. destruct (delta_arguments tc) as [text|]; cbn.
    2: { apply wp_ret. eapply inv_same; [done|done| |exact Hi]. intros s _. unfold view_with. case_decide; [|done].
         rewrite Str.app_nil_r. by destruct w. }
    destruct (inv_find _ _ _ _ _ _ Hi Hin) as (j & h & Hs & Hc & [Hd Ht] & Hoi).
    destruct Ht as (? & Hit & Htext & id & cid & a & st & n & -> & Hh & Hn & Hcid). cbn in Hit, Htext, Hoi.
    rewrite Hk in Hit. rewrite view_with_eq in Htext, Hh, Hn, Hcid. simplify_eq/=.
    apply wp_bind, wp_get. apply wp_bind. eapply wp_lift; [by rewrite Htext|].
    apply wp_bind, wp_modify; [done|]. apply wp_bind. eapply wp_lift; [by rewrite Hoi|].
    eapply wp_send; [eapply on_open_ok; [done|done|by rewrite Hh|by rewrite Hh]|].
    eapply inv_change; [exact Hi|done| |done| |done].
    - rewrite view_with_eq. split; [done|]. eexists. cbn. rewrite lookup_insert_eq. rewrite Hk. split; [done|].
      split; [done|]. eexists _, _, _, _, _. rewrite view_with_eq. by split_and!.
    - intros [| |k'] Hne; rewrite !view_with_ne by done; [done..|]. split; [done|]. split; [done|]. cbn.
      by rewrite lookup_insert_ne by (unfold k in *; congruence). }
  destruct (calls (tools x) !! k) as [i|] eqn:E.
  - assert (SCall k ∈ slots) as Hin by (by apply Hp; eexists). rewrite decide_True by done.
    assert (w = view_named tc (v (SCall k))) as Ew by (unfold w; by rewrite decide_True). clearbody w. subst w.
    eapply name_call_ok; [done|done|]. intros i' x' c' _ Hk Hi'. by eapply Hargs.
  - assert (SCall k ∉ slots) as Hout by (rewrite Hp; by intros [? [=]]). rewrite decide_False by done.
    assert (w = view_of_first tc) as Ew by (unfold w; by rewrite decide_False). clearbody w. subst w.
    eapply open_call_ok; [done|done|]. intros i' x' c' Hk Hi'. eapply Hargs; [done|set_solver|done].
Qed.
End pieces.
