(* ===== verification/StreamingReading.v ===== *)
(** * What a translator reads

    On top of [StreamingLogic]: what the pieces of a chat stream say of each channel, in what order the
    channels are first seen, and the run of [Translator.process] over the chunks. *)

From S2P Require Import Prelude ResponsesState McpPolicy ResponseObjects Streaming StreamingClient StreamingLogic.
Local Open Scope Z_scope.
Import Translator Wp.

(** ** The pieces of a chat stream *)

Inductive piece : Type :=
| PReasoning (text : string)
| PContent (text : string)
| PCall (tc : DeltaToolCall).

Definition choice_pieces (c : StreamChoice) : list piece :=
  let d := c_delta c in
  (if nonempty (d_reasoning d) is Some text then [PReasoning text] else [])
  ++ (if nonempty (d_content d) is Some text then [PContent text] else [])
  ++ (PCall <$> default [] (d_tool_calls d)).
Definition pieces (chunks : list Chunk) : list piece :=
  concat ((λ ch, concat (choice_pieces <$> ch_choices ch)) <$> chunks).

Definition piece_slot (p : piece) : slot :=
  match p with PReasoning _ => SReasoning | PContent _ => SMessage | PCall tc => SCall (tc_index tc) end.

(** The channels in the order they are first seen. *)
Definition first_seen (ps : list piece) : list slot := foldl (λ l p, see (piece_slot p) l) [] ps.

Definition joined (l : list string) : string := foldr String.append "" l.
Definition reasonings (ps : list piece) : list string :=
  omap (λ p, match p with PReasoning text => Some text | _ => None end) ps.
Definition contents (ps : list piece) : list string :=
  omap (λ p, match p with PContent text => Some text | _ => None end) ps.
Definition calls_at (k : Z) (ps : list piece) : list DeltaToolCall :=
  omap (λ p, match p with PCall tc => if decide (tc_index tc = k) then Some tc else None | _ => None end) ps.

(** What the pieces say of a channel: its texts joined; a call's first name, and its first delta's id. *)
Definition said (ps : list piece) (s : slot) : View :=
  match s with
  | SReasoning => mkView "" (joined (reasonings ps)) None
  | SMessage => mkView "" (joined (contents ps)) None
  | SCall k =>
      let l := calls_at k ps in
      mkView (default "" (head (omap delta_name l))) (joined (omap delta_arguments l)) (tc ← head l; nonempty (tc_id tc))
  end%string.

Lemma joined_snoc l x : joined (l ++ [x]) = joined l +:+ x.
Proof.
  induction l as [|y l IH]; cbn; [by rewrite Str.app_nil_r|]. unfold joined in *. by rewrite IH, Str.app_assoc.
Qed.

Lemma first_seen_snoc ps p : first_seen (ps ++ [p]) = see (piece_slot p) (first_seen ps).
Proof. unfold first_seen. by rewrite foldl_app. Qed.

Lemma elem_of_first_seen s ps : s ∈ first_seen ps ↔ s ∈ piece_slot <$> ps.
Proof.
  induction ps as [|p ps IH] using rev_ind; [done|]. rewrite first_seen_snoc, fmap_app, elem_of_app, <-IH.
  unfold see. cbn. rewrite list_elem_of_singleton. case_decide; [naive_solver|]. rewrite elem_of_app, list_elem_of_singleton. done.
Qed.

Lemma unseen_call k ps : SCall k ∉ first_seen ps → calls_at k ps = [].
Proof.
  rewrite elem_of_first_seen. induction ps as [|p ps IH]; [done|]. cbn. rewrite not_elem_of_cons. intros [Hp Hps].
  specialize (IH Hps). unfold calls_at in *. cbn. destruct p as [| |tc]; [done..|]. cbn in Hp.
  by rewrite decide_False by congruence.
Qed.

Lemma unseen_text s ps : s ∉ first_seen ps → v_text (said ps s) = "".
Proof.
  destruct s as [| |k]; [| |by intros H; cbn; rewrite unseen_call];
    rewrite elem_of_first_seen; induction ps as [|p ps IH]; try done; cbn; rewrite not_elem_of_cons; intros [Hp Hps];
    specialize (IH Hps); by destruct p.
Qed.

(** ** Reading them *)

Section reading.
Context `{Host}.

Definition read (ps : list piece) (x : t) (c : client) : Prop := inv [] (first_seen ps) (said ps) x c.

Lemma read_snoc ps p v x c :
  inv [] (see (piece_slot p) (first_seen ps)) v x c → (∀ s, v s = said (ps ++ [p]) s) → read (ps ++ [p]) x c.
Proof. intros Hi Hv. unfold read. rewrite first_seen_snoc. eapply inv_same; [done|done| |exact Hi]. by intros s _. Qed.

Lemma read_reasoning ps text x c : read ps x c → wp (on_reasoning text) (λ _, read (ps ++ [PReasoning text])) x c.
Proof.
  intros Hr. eapply wp_conseq; [apply on_reasoning_ok; [exact Hr|apply unseen_text]|]. cbn. intros [] x' c' Hi.
  eapply read_snoc; [done|]. intros [| |k]; unfold view_with; case_decide; try done; cbn.
  - unfold view_text, reasonings. cbn. rewrite omap_app. cbn. by rewrite joined_snoc.
  - unfold contents. by rewrite omap_app, app_nil_r.
  - unfold calls_at. by rewrite omap_app, app_nil_r.
Qed.

Lemma read_content ps text x c : read ps x c → wp (on_content text) (λ _, read (ps ++ [PContent text])) x c.
Proof.
  intros Hr. eapply wp_conseq; [apply on_content_ok; [exact Hr|apply unseen_text]|]. cbn. intros [] x' c' Hi.
  eapply read_snoc; [done|]. intros [| |k]; unfold view_with; case_decide; try done; cbn.
  - unfold reasonings. by rewrite omap_app, app_nil_r.
  - unfold view_text, contents. cbn. rewrite omap_app. cbn. by rewrite joined_snoc.
  - unfold calls_at. by rewrite omap_app, app_nil_r.
Qed.

Lemma delta_name_nonempty tc n : delta_name tc = Some n → n ≠ ""%string.
Proof. unfold delta_name. destruct (tc_function tc) as [[[[]|] ?]|]; cbn; congruence. Qed.

Lemma head_name_empty l : default ""%string (head (omap delta_name l)) = ""%string → omap delta_name l = [].
Proof.
  induction l as [|tc l IH]; [done|]. cbn. destruct (delta_name tc) eqn:E; [|done]. cbn.
  intros ->. by apply delta_name_nonempty in E.
Qed.

Lemma read_call ps tc x c : read ps x c → wp (on_tool_call tc) (λ _, read (ps ++ [PCall tc])) x c.
Proof.
  intros Hr. eapply wp_conseq; [by apply on_tool_call_ok|]. cbn. intros [] x' c' Hi.
  eapply read_snoc; [done|]. clear Hi Hr. intros s. unfold view_with. destruct (decide (s = _)) as [->|Hne].
  - assert (calls_at (tc_index tc) (ps ++ [PCall tc]) = calls_at (tc_index tc) ps ++ [tc]) as E.
    { unfold calls_at. rewrite omap_app. cbn. by rewrite decide_True. }
    cbn [said]. rewrite E. clear E.
    destruct (decide (SCall (tc_index tc) ∈ first_seen ps)) as [Hin|Hout].
    + assert (calls_at (tc_index tc) ps ≠ []) as Hnil.
      { apply elem_of_first_seen, list_elem_of_fmap in Hin as (p & Hp & Hin). destruct p as [| |tc']; [done..|].
        cbn in Hp. simplify_eq. intros E. eapply (not_elem_of_nil tc'). rewrite <-E. apply list_elem_of_omap.
        exists (PCall tc'). by rewrite decide_True. }
      destruct (calls_at (tc_index tc) ps) as [|tc0 l] eqn:El; [done|]. unfold view_text, view_named. cbn -[omap joined].
      change (tc0 :: l ++ [tc]) with ((tc0 :: l) ++ [tc]). rewrite !omap_app.
      change (omap delta_name [tc]) with (match delta_name tc with Some n => [n] | None => [] end).
      change (omap delta_arguments [tc]) with (match delta_arguments tc with Some n => [n] | None => [] end). f_equal.
      * case_decide as Hn; [rewrite (head_name_empty _ Hn); by destruct (delta_name tc)|].
        by destruct (omap delta_name (tc0 :: l)).
      * destruct (delta_arguments tc); [by rewrite joined_snoc|by rewrite app_nil_r, Str.app_nil_r].
    + rewrite unseen_call by done. unfold view_text, view_of_first. cbn. f_equal.
      * by destruct (delta_name tc).
      * destruct (delta_arguments tc); cbn; [by rewrite Str.app_nil_r|done].
  - destruct s as [| |k]; cbn.
    + unfold reasonings. by rewrite omap_app, app_nil_r.
    + unfold contents. by rewrite omap_app, app_nil_r.
    + unfold calls_at. rewrite omap_app. cbn. rewrite decide_False by (intros E; by subst). by rewrite app_nil_r.
Qed.
End reading.

(** *** The rest of the state *)

(** What a chunk says of the response as a whole. *)
Definition choices (chunks : list Chunk) : list StreamChoice := concat (ch_choices <$> chunks).
Definition last_reason (l : list StreamChoice) : option string := last (omap c_finish_reason l).
Definition last_usage (chunks : list Chunk) : option UsageInfo := last (omap ch_usage chunks).
Definition last_model (m : string) (chunks : list Chunk) : string :=
  default m (last (omap (λ ch, nonempty (Some (ch_model ch))) chunks)).

Definition meta (x : t) : option Z * string * option UsageInfo * option string :=
  (created_at x, model x, usage x, finish_reason x).
Definition quiet {A} (m : gen A) : Prop := ∀ x, meta (m x).1.1 = meta x.

Lemma quiet_then {A B} (m : gen A) (f : A → gen B) : quiet m → (∀ a, quiet (f a)) → quiet (m ≫= f).
Proof.
  intros Hm Hf x. unfold mbind, gen_bind. specialize (Hm x). destruct (m x) as [[x1 es1] [a|e]]; [|done]. cbn in Hm.
  specialize (Hf a x1). destruct (f a x1) as [[x2 es2] r]. cbn in *. congruence.
Qed.
Lemma quiet_modify f : (∀ x, meta (f x) = meta x) → quiet (modify f).
Proof. done. Qed.
Lemma quiet_lift {A} (r : res A) : quiet (lift r).
Proof. done. Qed.
Lemma quiet_get {A} (f : t → A) : quiet (get f).
Proof. done. Qed.
Lemma quiet_ret {A} (a : A) : quiet (mret a).
Proof. done. Qed.
Lemma quiet_send e : quiet (send e).
Proof. done. Qed.
Lemma quiet_for_each {A} (f : A → gen unit) l : (∀ a, quiet (f a)) → quiet (for_each f l).
Proof. intros Hf. induction l as [|a l IH]; cbn; [apply quiet_ret|]. by apply quiet_then. Qed.

Lemma wp_quiet {A} (m : gen A) Q x c :
  wp m Q x c → quiet m → wp m (λ a x' c', Q a x' c' ∧ meta x' = meta x) x c.
Proof.
  intros (x' & es & a & c' & Hm & ? & ? & ?) Hq. specialize (Hq x). rewrite Hm in Hq. exists x', es, a, c'. done.
Qed.

Create HintDb quiet.
#[export] Hint Resolve quiet_then quiet_modify quiet_lift quiet_get quiet_ret quiet_send quiet_for_each : quiet.

Ltac quiet_step := repeat first
  [ apply quiet_then; [|intros] | apply quiet_ret | apply quiet_get | apply quiet_send | apply quiet_lift
  | apply quiet_for_each; intros | apply quiet_modify; done | case_match ].

Section quiet.
Context `{Host}.
Lemma quiet_reasoning text : quiet (on_reasoning text).
Proof. unfold on_reasoning, open_reasoning, uuid, take_oi. quiet_step. Qed.
Lemma quiet_content text : quiet (on_content text).
Proof. unfold on_content, open_message, uuid, take_oi. quiet_step. Qed.
Lemma quiet_call tc : quiet (on_tool_call tc).
Proof.
  unfold on_tool_call, open_call, name_call, uuid, take_oi, put_call, put_args, put_oi, at_key. quiet_step.
Qed.
Lemma quiet_close : quiet close_all.
Proof.
  unfold close_all, close_reasoning, close_message, close_tools, close_call, put_call, at_key. quiet_step.
Qed.
End quiet.
#[export] Hint Resolve quiet_reasoning quiet_content quiet_call quiet_close : quiet.

Section reading.
Context `{Host}.

Lemma read_same ps x x' c :
  (∀ s, chan x' s = chan x s) → next_oi x' = next_oi x → read ps x c → read ps x' c.
Proof. intros. by eapply inv_same. Qed.

(** What is read after some chunks, and some choices of the next one. *)
Definition reads (ps : list piece) (mt : option Z * string * option UsageInfo * option string) (x : t) (c : client)
    : Prop :=
  read ps x c ∧ meta x = mt.

Lemma read_choice ps m cr u f ch x c :
  reads ps (cr, m, u, f) x c →
  wp (on_choice ch) (λ _, reads (ps ++ choice_pieces ch)
    (cr, m, u, if c_finish_reason ch is Some f' then Some f' else f)) x c.
Proof.
  intros [Hr Hm]. unfold on_choice, choice_pieces. cbv zeta. apply wp_bind.
  eapply (wp_conseq _ (λ _, reads (ps ++ if nonempty (d_reasoning (c_delta ch)) is Some text then [PReasoning text] else []) _)).
  { case_match; [|by apply wp_ret; rewrite app_nil_r].
    eapply wp_conseq; [apply wp_quiet; [by apply read_reasoning|auto with quiet]|]. cbn. intros _ x' c' [? ?].
    split; [done|]. etransitivity; [done|exact Hm]. }
  clear x c Hr Hm. intros _ x c [Hr Hm]. rewrite app_assoc. revert Hr. generalize (ps ++ if nonempty (d_reasoning (c_delta ch)) is Some text then [PReasoning text] else []).
  clear ps. intros ps Hr. apply wp_bind.
  eapply (wp_conseq _ (λ _, reads (ps ++ if nonempty (d_content (c_delta ch)) is Some text then [PContent text] else []) _)).
  { case_match; [|by apply wp_ret; rewrite app_nil_r].
    eapply wp_conseq; [apply wp_quiet; [by apply read_content|auto with quiet]|]. cbn. intros _ x' c' [? ?].
    split; [done|]. etransitivity; [done|exact Hm]. }
  clear x c Hr Hm. intros _ x c [Hr Hm]. rewrite app_assoc. revert Hr. generalize (ps ++ if nonempty (d_content (c_delta ch)) is Some text then [PContent text] else []).
  clear ps. intros ps Hr. apply wp_bind.
  eapply wp_conseq; [apply (wp_for_each _ (λ l, reads (ps ++ (PCall <$> l)) (cr, m, u, f)) _ [])|].
  - intros l tc x1 c1 [Hr1 Hm1]. eapply wp_conseq; [apply wp_quiet; [by apply read_call|auto with quiet]|].
    cbn. intros _ x' c' [? ?]. split; [by rewrite fmap_app, app_assoc|]. congruence.
  - split; [by rewrite app_nil_r|done].
  - cbn. intros _ x1 c1 [Hr1 Hm1]. destruct (c_finish_reason ch) as [f'|]; [|by apply wp_ret].
    apply wp_modify; [done|]. split; [apply (read_same _ x1); [by intros []|done|done]|]. unfold meta in *. cbn. congruence.
Qed.

Lemma last_reason_snoc l a :
  last_reason (l ++ [a]) = if c_finish_reason a is Some f then Some f else last_reason l.
Proof.
  unfold last_reason. rewrite omap_app. cbn. destruct (c_finish_reason a); [by rewrite last_snoc|by rewrite app_nil_r].
Qed.

Definition after (cr : option Z) (m : string) (chunks : list Chunk) :=
  (cr, last_model m chunks, last_usage chunks, last_reason (choices chunks)).

Lemma read_chunk cr m chunks ch x c :
  reads (pieces chunks) (after cr m chunks) x c →
  wp (process ch) (λ _, reads (pieces (chunks ++ [ch])) (after cr m (chunks ++ [ch]))) x c.
Proof.
  intros [Hr Hm]. unfold process.
  assert (after cr m (chunks ++ [ch]) =
    (cr, if decide (ch_model ch = ""%string) then last_model m chunks else ch_model ch,
     if ch_usage ch is Some u then Some u else last_usage chunks, last_reason (choices chunks ++ ch_choices ch))) as ->.
  { unfold after, last_model, last_usage, choices. rewrite !omap_app, fmap_app, concat_app. cbn. rewrite app_nil_r.
    f_equal; f_equal; [f_equal|].
    - destruct (ch_model ch); cbn; [by rewrite app_nil_r|by rewrite last_snoc].
    - destruct (ch_usage ch); cbn; [by rewrite last_snoc|by rewrite app_nil_r]. }
  assert (pieces (chunks ++ [ch]) = pieces chunks ++ concat (choice_pieces <$> ch_choices ch)) as ->.
  { unfold pieces. rewrite fmap_app, concat_app. cbn. by rewrite app_nil_r. }
  set (m' := if decide (ch_model ch = ""%string) then last_model m chunks else ch_model ch).
  set (u' := if ch_usage ch is Some u then Some u else last_usage chunks).
  apply wp_bind. eapply (wp_conseq _ (λ _, reads (pieces chunks) (cr, m', last_usage chunks, last_reason (choices chunks)))).
  { subst m'. case_decide; [by apply wp_ret|]. apply wp_modify; [done|]. split; [apply (read_same _ x); [by intros []|done|done]|].
    unfold meta, after in *. cbn. congruence. }
  clear x c Hr Hm. intros _ x c [Hr Hm]. apply wp_bind.
  eapply (wp_conseq _ (λ _, reads (pieces chunks) (cr, m', u', last_reason (choices chunks)))).
  { subst u'. case_match; [|by apply wp_ret]. apply wp_modify; [done|]. split; [apply (read_same _ x); [by intros []|done|done]|].
    unfold meta in *. cbn. congruence. }
  clear x c Hr Hm. intros _ x c Hr.
  apply (wp_for_each _ (λ l, reads (pieces chunks ++ concat (choice_pieces <$> l))
    (cr, m', u', last_reason (choices chunks ++ l))) _ []); [|by rewrite !app_nil_r].
  intros l a x1 c1 Hr1. eapply wp_conseq; [apply read_choice, Hr1|]. cbn. intros _ x2 c2.
  by rewrite fmap_app, concat_app, !app_assoc, last_reason_snoc; cbn; rewrite app_nil_r.
Qed.

Lemma read_chunks cr m chunks x c :
  reads [] (cr, m, None, None) x c →
  wp (for_each process chunks) (λ _, reads (pieces chunks) (after cr m chunks)) x c.
Proof.
  intros Hr. apply (wp_for_each _ (λ l, reads (pieces l) (after cr m l)) _ []); [|done].
  intros l a x1 c1. apply read_chunk.
Qed.
End reading.
