(* ===== verification/StreamingTheorems.v ===== *)
(** * Theorems on a response's stream

    The stream of [Streaming.stream_responses] as its client sees it ([StreamingClient]): its envelopes,
    its numbers and its end, the client's items and those of the last envelope, and the same items as
    for a response that isn't streamed. *)

From S2P Require Import Prelude ResponsesState McpPolicy ResponseObjects Streaming StreamingClient StreamingLogic StreamingReading.
Local Open Scope Z_scope.
Import Translator Wp.

(** ** Closing *)

Section closing.
Context (slots : list slot) (v : slot → View).

Lemma is_closed_cons s s' closed : s' ≠ s → is_closed (s :: closed) s' = is_closed closed s'.
Proof. intros. unfold is_closed. apply bool_decide_ext. set_solver. Qed.
Lemma is_closed_head s closed : is_closed (s :: closed) s = true.
Proof. unfold is_closed. apply bool_decide_true. constructor. Qed.
Lemma is_closed_not s closed : s ∉ closed → is_closed closed s = false.
Proof. intros. by apply bool_decide_false. Qed.

(** Only the channels that were seen can be closed. *)
Lemma inv_closed_ext closed closed' x c :
  (∀ s, s ∈ slots → s ∈ closed ↔ s ∈ closed') → inv closed slots v x c → inv closed' slots v x c.
Proof.
  intros Hcl [H1 H2 H3 H4 H5]. split; [|done..]. apply Forall2_same_length_lookup.
  split; [by eapply Forall2_length|]. intros i s h Hs Hh. pose proof (Forall2_lookup_lr _ _ _ _ _ _ H1 Hs Hh) as Ht.
  cbn in Ht. replace (is_closed closed' s) with (is_closed closed s); [done|].
  unfold is_closed. apply bool_decide_ext, Hcl. by eapply list_elem_of_lookup_2.
Qed.

(** A text that is done is the one the client has. *)
Lemma wp_same e id n i f h Q x c :
  client_step c e = on_open id n f c → n = Z.of_nat i → c !! i = Some h → h_done h = false → item_id (h_item h) = id →
  f (h_item h) = Some (mkHeld (h_item h) false) → Q tt (set_seq (seq x + 1) x) c → wp (send e) Q x c.
Proof.
  intros He -> Hc Hd Hid Hf HQ. eapply wp_send; [|exact HQ]. rewrite He. erewrite on_open_ok by done.
  f_equal. apply list_insert_id. rewrite Hc. f_equal. destruct h. cbn in *. congruence.
Qed.

(** An item that is done closes it. *)
Lemma wp_done i n mine it (Q : unit → t → client → Prop) x c :
  n = Z.of_nat i → c !! i = Some mine → h_done mine = false → item_id (h_item mine) = item_id it →
  completes (h_item mine) it = true → Q tt (set_seq (seq x + 1) x) (<[i := mkHeld it true]> c) →
  wp (send (ItemDone n it)) Q x c.
Proof.
  intros -> Hc Hd Hid Hf HQ. eapply wp_send; [|exact HQ]. cbn [client_step]. apply on_open_ok with mine; [done..|].
  by rewrite Hf.
Qed.

Lemma close_reasoning_ok closed x c :
  inv closed slots v x c → SReasoning ∉ closed →
  wp close_reasoning (λ _, inv (SReasoning :: closed) slots v) x c.
Proof.
  intros Hi Hopen. unfold close_reasoning. apply wp_bind, wp_get. destruct (decide (SReasoning ∈ slots)) as [Hin|Hout].
  2: { destruct (inv_absent _ _ _ _ _ Hi _ Hout) as [E%fmap_None _]. rewrite E.
       apply wp_ret. eapply inv_closed_ext; [|done]. set_solver. }
  destruct (inv_find _ _ _ _ _ _ Hi Hin) as (i & h & Hs & Hc & [Hd Ht] & Hoi). rewrite is_closed_not in * by done.
  destruct Ht as (? & Hit & Htext & id & l & -> & Hh). cbn in Htext, Hoi.
  apply fmap_Some in Hit as (item & E & [= <-]). rewrite E. simplify_eq/=. rewrite Htext.
  do 2 (apply wp_bind; eapply wp_same; [done|done|done|done|by rewrite Hh|rewrite Hh; cbn; by rewrite decide_True|]).
  apply wp_bind, wp_modify; [done|].
  eapply wp_done; [done|done|done|by rewrite Hh|rewrite Hh; cbn; by apply bool_decide_true|].
  eapply inv_change; [exact Hi|done| |by cbn; rewrite Hoi| |done].
  - rewrite is_closed_head. split; [done|]. eexists. split; [done|]. split; [done|]. by eexists.
  - intros s Hne. rewrite is_closed_cons by done. split; [done|]. split; [done|]. by destruct s.
Qed.

Lemma close_message_ok closed x c :
  inv closed slots v x c → SMessage ∉ closed →
  wp close_message (λ _, inv (SMessage :: closed) slots v) x c.
Proof.
  intros Hi Hopen. unfold close_message. apply wp_bind, wp_get. destruct (decide (SMessage ∈ slots)) as [Hin|Hout].
  2: { destruct (inv_absent _ _ _ _ _ Hi _ Hout) as [E%fmap_None _]. rewrite E.
       apply wp_ret. eapply inv_closed_ext; [|done]. set_solver. }
  destruct (inv_find _ _ _ _ _ _ Hi Hin) as (i & h & Hs & Hc & [Hd Ht] & Hoi). rewrite is_closed_not in * by done.
  destruct Ht as (? & Hit & Htext & id & st & l & -> & Hh). cbn in Htext, Hoi.
  apply fmap_Some in Hit as (item & E & [= <-]). rewrite E. simplify_eq/=. rewrite Htext.
  do 2 (apply wp_bind; eapply wp_same; [done|done|done|done|by rewrite Hh|rewrite Hh; cbn; by rewrite decide_True|]).
  apply wp_bind, wp_modify; [done|].
  eapply wp_done; [done|done|done|by rewrite Hh|rewrite Hh; cbn; by apply bool_decide_true|].
  eapply inv_change; [exact Hi|done| |by cbn; rewrite Hoi| |done].
  - rewrite is_closed_head. split; [done|]. eexists. split; [done|]. split; [done|]. by eexists.
  - intros s Hne. rewrite is_closed_cons by done. split; [done|]. split; [done|]. by destruct s.
Qed.

Lemma close_call_ok closed k x c :
  inv closed slots v x c → SCall k ∈ slots → SCall k ∉ closed →
  wp (close_call k) (λ _, inv (SCall k :: closed) slots v) x c.
Proof.
  intros Hi Hin Hopen. unfold close_call. apply wp_bind, wp_get.
  destruct (inv_find _ _ _ _ _ _ Hi Hin) as (i & h & Hs & Hc & [Hd Ht] & Hoi). rewrite is_closed_not in * by done.
  destruct Ht as (? & Hit & Htext & id & cid & a & st & n & -> & Hh & Hn & Hcid). cbn in Htext, Hoi.
  apply fmap_Some in Hit as (item & E & [= <-]).
  apply wp_bind. eapply wp_lift; [by rewrite E|]. apply wp_bind. eapply wp_lift; [by rewrite Htext|].
  apply wp_bind. eapply wp_lift; [by rewrite Hoi|]. apply wp_bind, wp_modify; [done|].
  apply wp_bind; eapply wp_same; [done|done|done|done|by rewrite Hh|rewrite Hh; cbn; by rewrite decide_True|].
  eapply wp_done; [done|done|done|by rewrite Hh|rewrite Hh; cbn; by apply bool_decide_true|].
  eapply inv_change; [exact Hi|done| |done| |done].
  - rewrite is_closed_head. split; [done|]. cbn. rewrite lookup_insert_eq. eexists. split; [done|]. split; [done|].
    by eexists _, _.
  - intros s Hne. rewrite is_closed_cons by done. split; [done|]. split; [done|]. destruct s as [| |k']; [done..|]. cbn.
    by rewrite lookup_insert_ne by congruence.
Qed.

Lemma close_calls_ok l closed x c :
  inv closed slots v x c → NoDup l → (∀ k, k ∈ l → SCall k ∈ slots ∧ SCall k ∉ closed) →
  wp (for_each close_call l) (λ _, inv (closed ++ (SCall <$> l)) slots v) x c.
Proof.
  revert closed x c. induction l as [|k l IH]; intros closed x c Hi Hnd Hl; cbn [for_each].
  - apply wp_ret. by rewrite app_nil_r.
  - apply NoDup_cons in Hnd as [Hk Hnd]. destruct (Hl k) as [Hin Hopen]; [constructor|].
    apply wp_bind. eapply wp_conseq; [by apply close_call_ok|]. cbn. intros _ x1 c1 Hi1.
    eapply wp_conseq; [apply (IH (SCall k :: closed)); [done|done|]|].
    + intros k' Hk'. destruct (Hl k'); [by constructor|]. split; [done|].
      apply not_elem_of_cons. split; [|done]. intros [= ->]. done.
    + cbn. intros _ x2 c2. apply inv_closed_ext. set_solver.
Qed.

Lemma elem_of_sorted_calls x k : k ∈ sorted_calls (tools x) ↔ is_Some (calls (tools x) !! k).
Proof.
  unfold sorted_calls. rewrite Sort.elem_of_sort, list_elem_of_fmap. split.
  - intros ([k' i] & -> & H%elem_of_map_to_list). by eexists.
  - intros [i H]. exists (k, i). split; [done|]. by apply elem_of_map_to_list.
Qed.

Lemma sorted_calls_nodup x : NoDup (sorted_calls (tools x)).
Proof. unfold sorted_calls. rewrite Sort.sort_perm. apply NoDup_fst_map_to_list. Qed.

Lemma inv_calls closed x c k : inv closed slots v x c → SCall k ∈ slots ↔ k ∈ sorted_calls (tools x).
Proof.
  intros Hi. rewrite elem_of_sorted_calls. split.
  - intros Hin. destruct (inv_find _ _ _ _ _ _ Hi Hin) as (i & h & _ & _ & (_ & it & Hit & _) & _).
    cbn in Hit. apply fmap_Some in Hit as (item & -> & _). by eexists.
  - intros [i Hk]. destruct (decide (SCall k ∈ slots)) as [|Hout]; [done|].
    destruct (inv_absent _ _ _ _ _ Hi _ Hout) as [E _]. cbn in E. by rewrite Hk in E.
Qed.

Lemma close_all_ok x c : inv [] slots v x c → wp close_all (λ _, inv slots slots v) x c.
Proof.
  intros Hi. unfold close_all. apply wp_bind. eapply wp_conseq; [apply close_reasoning_ok; [done|set_solver]|].
  cbn. clear x c Hi. intros _ x c Hi. apply wp_bind. eapply wp_conseq; [apply close_message_ok; [done|set_solver]|].
  cbn. clear x c Hi. intros _ x c Hi. unfold close_tools. apply wp_bind, wp_get.
  eapply wp_conseq; [apply close_calls_ok; [done|apply sorted_calls_nodup|]|].
  - intros k Hk. rewrite (inv_calls _ _ _ _ Hi). split; [done|set_solver].
  - cbn. intros _ x' c'. apply inv_closed_ext. intros s Hs. split; [done|]. intros _.
    destruct s as [| |k]; [set_solver..|]. do 2 apply list_elem_of_further. apply list_elem_of_fmap. exists k.
    split; [done|]. by rewrite <-(inv_calls _ _ _ _ Hi).
Qed.
End closing.

(** ** The items of the last envelope *)

Lemma NoDup_omap_inj {A B} (f : A → option B) (l : list A) :
  (∀ a a' b, f a = Some b → f a' = Some b → a = a') → NoDup l → NoDup (omap f l).
Proof.
  intros Hf. induction 1 as [|a l Ha _ IH]; cbn; [constructor|]. destruct (f a) as [b|] eqn:E; [|done].
  constructor; [|done]. intros (a' & Hin & E')%list_elem_of_omap. by rewrite (Hf a a' b) in Ha.
Qed.

Definition call_index (s : slot) : option Z := match s with SCall k => Some k | _ => None end.

Lemma call_index_inj s s' k : call_index s = Some k → call_index s' = Some k → s = s'.
Proof. destruct s, s'; cbn; congruence. Qed.

(** The order the last envelope lists channels in. *)
Definition in_order (slots : list slot) : list slot :=
  filter (λ s, s ∈ slots) [SReasoning; SMessage] ++ (SCall <$> Sort.sort Z.leb (omap call_index slots)).

Lemma sort_Z_unique (l k : list Z) : l ≡ₚ k → Sort.sort Z.leb l = Sort.sort Z.leb k.
Proof.
  intros Hp. assert (∀ l, StronglySorted Z.le (Sort.sort Z.leb l)) as Hs.
  { clear. intros l. apply Sorted_StronglySorted; [intros ? ? ?; lia|].
    assert (∀ x y, (x <=? y) = true ∨ (y <=? x) = true) as Htot by lia.
    induction (Sort.sort_sorted Z.leb l Htot) as [|a l' _ IH Hhd]; constructor; [done|].
    destruct Hhd; constructor; lia. }
  apply (StronglySorted_unique Z.le); [done..|]. by rewrite !Sort.sort_perm.
Qed.

Lemma in_order_perm slots : NoDup slots → in_order slots ≡ₚ slots.
Proof.
  intros Hnd. assert (∀ k, k ∈ Sort.sort Z.leb (omap call_index slots) ↔ SCall k ∈ slots) as Hk.
  { intros k. rewrite Sort.elem_of_sort, list_elem_of_omap. split; [|by intros; exists (SCall k)].
    by intros ([| |k'] & Hin & [= ->]). }
  assert (NoDup (omap call_index slots)) as Hidx.
  { apply NoDup_omap_inj; [apply call_index_inj|done]. }
  apply NoDup_Permutation; [|done|].
  - unfold in_order. apply NoDup_app. split; [|split].
    + apply NoDup_filter. by repeat constructor; set_solver.
    + intros s [_ Hs]%list_elem_of_filter (k & -> & _)%list_elem_of_fmap. set_solver.
    + apply NoDup_fmap; [congruence|]. by rewrite Sort.sort_perm.
  - intros s. unfold in_order. rewrite elem_of_app, list_elem_of_filter, list_elem_of_fmap. split.
    + intros [[? _]|(k & -> & ?%Hk)]; done.
    + intros Hs. destruct s as [| |k]; [left; set_solver..|]. right. exists k. by rewrite Hk.
Qed.

Section output.
Context (slots : list slot) (v : slot → View) (x : t) (c : client).
Hypothesis Hi : inv slots slots v x c.

Definition item_of (s : slot) : option Item := c_item (chan x s).

Lemma closed_items : Forall2 (λ s h, h_done h = true ∧ item_of s = Some (h_item h) ∧ complete (v s) s (h_item h)) slots c.
Proof.
  destruct Hi as [H1 _ _ _ _]. apply Forall2_same_length_lookup. split; [by eapply Forall2_length|].
  intros i s h Hs Hh. pose proof (Forall2_lookup_lr _ _ _ _ _ _ H1 Hs Hh) as [Hd (it & Hit & Hrest)].
  unfold is_closed in *. rewrite bool_decide_true in * by by eapply list_elem_of_lookup_2.
  destruct Hrest as [-> ?]. done.
Qed.

Lemma client_items : h_item <$> c = omap item_of slots.
Proof.
  pose proof closed_items as H. clear Hi. induction H as [|s h l l' (_ & E & _) _ IH]; [done|]. cbn. by rewrite E, IH.
Qed.

Lemma closed_all : Forall (λ h, h_done h = true) c.
Proof. pose proof closed_items as H. clear Hi. induction H as [|s h l l' (Hd & _) _ IH]; by constructor. Qed.

Lemma item_complete s : s ∈ slots → ∃ i, item_of s = Some i ∧ complete (v s) s i.
Proof.
  intros [i Hs]%list_elem_of_lookup. destruct (Forall2_lookup_l _ _ _ _ _ closed_items Hs) as (h & _ & _ & ? & ?). eauto.
Qed.

Lemma item_absent s : s ∉ slots → item_of s = None.
Proof. intros Hs. by destruct (inv_absent _ _ _ _ _ Hi _ Hs). Qed.

Lemma calls_sorted : sorted_calls (tools x) = Sort.sort Z.leb (omap call_index slots).
Proof.
  rewrite <-(Sort.sort_id Z.leb (sorted_calls (tools x))).
  2: { apply Sort.sort_sorted. intros a b. rewrite !Z.leb_le. lia. }
  apply sort_Z_unique. apply NoDup_Permutation; [apply sorted_calls_nodup| |].
  - apply NoDup_omap_inj; [apply call_index_inj|by destruct Hi].
  - intros k. rewrite <-(inv_calls _ _ _ _ _ _ Hi), list_elem_of_omap. split; [by exists (SCall k)|].
    by intros ([| |k'] & Hin & [= ->]).
Qed.

Lemma collect_ok : collect_output x = omap item_of (in_order slots).
Proof.
  unfold collect_output, in_order. rewrite !filter_cons, filter_nil, calls_sorted.
  assert (∀ l : list Z, FunctionCall <$> omap (λ idx, calls (tools x) !! idx) l = omap item_of (SCall <$> l)) as Hc.
  { intros l. induction l as [|k l IH]; [done|]. cbn. unfold item_of in *. cbn in *.
    destruct (calls (tools x) !! k); cbn; by rewrite IH. }
  rewrite Hc, omap_app, app_assoc. f_equal.
  pose proof (item_absent SReasoning) as Hr. pose proof (item_absent SMessage) as Hm.
  pose proof (item_complete SReasoning) as Hr'. pose proof (item_complete SMessage) as Hm'. unfold item_of in *. cbn in *.
  repeat case_decide; cbn;
    repeat match goal with
      | H : ?P, H' : ?P → ∃ _, _ |- _ => let E := fresh in destruct (H' H) as (? & E & _); clear H'; apply fmap_Some in E as (? & E & _); rewrite E
      | H : ¬ ?P, H' : ¬ ?P → _ |- _ => let E := fresh in pose proof (H' H) as E; clear H'; apply fmap_None in E; rewrite E
      end; done.
Qed.

Lemma output_items : collect_output x ≡ₚ h_item <$> c.
Proof.
  rewrite collect_ok, client_items. apply omap_Permutation, in_order_perm. by destruct Hi.
Qed.
End output.

(** ** A whole stream *)

(** How a stream ends: the type of its last envelope and the status in it; [None] where the client is gone
    or the task was cancelled, and no envelope ends it. *)
Definition end_of (chunks : list Chunk) (how : ending) : option (string * string) :=
  match how with
  | Disconnected | Failed CancelledError => None
  | Failed _ => Some ("response.failed", "failed")
  | Exhausted =>
      let status := (status_for (last_reason (choices chunks))).1 in
      Some (if decide (status = "incomplete") then ("response.incomplete", status) else ("response.completed", status))
  end%string.

(** The response's id: the caller's, or one that is drawn. *)
Definition id_for `{Host} (response_id : option string) : string :=
  default ("resp_" +:+ random_uuid 0) (nonempty response_id).

(** The last envelope's fields when the stream ends so with such an output. *)
Definition closing_fields `{Host} (response_id : option string) (chunks : list Chunk) (how : ending)
    (status : string) (output : list Item) (f : ResponseFields) : Prop :=
  f_status f = status ∧ f_id f = id_for response_id ∧ f_output f = JObj ∘ dump <$> output ∧ f_created_at f = now 0 ∧
  f_usage f = (if how is Exhausted then usage_from_chat <$> last_usage chunks else None) ∧
  (f_error f = None ↔ how = Exhausted).

(** What is yielded, for some client's items [c] and some last output. *)
Definition stream_shape `{Envelope} `{Host} (request : Request) (response_id : option string) (chunks : list Chunk)
    (how : ending) (es : list (Z * event)) (r : res unit) (c : client) (output : list Item) : Prop :=
  ∃ created progress body tail,
    es.*2 = Envelope_ "response.created" created :: Envelope_ "response.in_progress" progress :: body ++ tail ∧
    es.*1 = seqZ 0 (Z.of_nat (length es)) ∧
    feed [] body = Some c ∧
    r = (if decide (how = Failed CancelledError) then Err CancelledError else Ok tt) ∧
    match end_of chunks how with
    | None => tail = []
    | Some (ty, status) =>
        ∃ f response, tail = [Envelope_ ty response] ∧ build_response_object request f = Ok response ∧
          closing_fields response_id chunks how status output f
    end.

(** An item that is closed is of its class's schema. *)
Definition of_schema (i : Item) : Prop :=
  match i with
  | Reasoning _ => True
  | Message i => msg_status i = "completed"%string
  | FunctionCall i => fc_status i = "completed"%string
  end.

Lemma texts_valid (fields : schema) (f : string → json) l :
  (∀ s, object_of fields (f s)) → list_of (object_of fields) (JList (f <$> l)).
Proof. intros Hf. apply forallb_True, Forall_fmap, Forall_forall. auto. Qed.

Lemma dump_valid i : of_schema i → ResponseOutputItem (JObj (dump i)).
Proof.
  unfold ResponseOutputItem. destruct i as [[id l]|[id st l]|[id cid n a st]]; cbn [of_schema msg_status fc_status]; [intros _|intros ->..].
  - pose proof (texts_valid ResponseReasoningSummary summary_text l) as Hl. cbn [existsb]. apply orb_True. left.
    change (list_of (object_of ResponseReasoningSummary) (JList (summary_text <$> l)) && true).
    rewrite andb_true_r. by apply Hl.
  - pose proof (texts_valid ResponseOutputText output_text l) as Hl. cbn [existsb]. apply orb_True. right. apply orb_True. left.
    change (list_of (object_of ResponseOutputText) (JList (output_text <$> l)) && true).
    rewrite andb_true_r. by apply Hl.
  - done.
Qed.

Lemma output_valid output : Forall of_schema output → forallb ResponseOutputItem (JObj ∘ dump <$> output).
Proof. intros Ho. apply forallb_True, Forall_fmap. eapply Forall_impl; [exact Ho|]. intros i. apply dump_valid. Qed.

Lemma collected_valid slots v x c : inv slots slots v x c → Forall of_schema (collect_output x).
Proof.
  intros Hi. rewrite (collect_ok _ _ _ _ Hi). apply Forall_forall. intros i (s & Hs & Hit)%list_elem_of_omap.
  destruct (decide (s ∈ slots)) as [Hin|Hout].
  2: { by rewrite (item_absent _ _ _ _ Hi _ Hout) in Hit. }
  destruct (item_complete _ _ _ _ Hi _ Hin) as (i' & E & Hc). rewrite E in Hit. injection Hit as ->.
  destruct s; cbn in Hc; by repeat match goal with H : ∃ _, _ |- _ => destruct H | H : _ ∧ _ |- _ => destruct H | H : i = _ |- _ => subst i end.
Qed.

Lemma status_for_valid reason status incomplete : status_for reason = (status, incomplete) → status ∈ STATUSES.
Proof. unfold status_for. repeat case_decide; intros [= <- _]; apply list_elem_of_In; cbn; tauto. Qed.

Section run.
Context `{Validates} `{Host} (request : Request).
Hypothesis Hechoes : echoes request.

Lemma bind_run {A B} (m : gen A) (f : A → gen B) x x1 es1 a x2 es2 r :
  m x = (x1, es1, Ok a) → f a x1 = (x2, es2, r) → (m ≫= f) x = (x2, es1 ++ es2, r).
Proof. intros Hm Hf. unfold mbind, gen_bind. by rewrite Hm, Hf. Qed.

Lemma bind_raise {A B} (m : gen A) (f : A → gen B) x x1 es1 e :
  m x = (x1, es1, Err e) → (m ≫= f) x = (x1, es1, Err e).
Proof. intros Hm. unfold mbind, gen_bind. by rewrite Hm. Qed.

(** An envelope, and the state after it. *)
Definition pinned (x : t) : Z := if created_at x is Some c then c else now (ticks x).

Lemma envelope_run response_id ty status output u incomplete error completed x :
  status ∈ STATUSES → Forall of_schema output →
  ∃ x' f response,
    envelope request response_id ty status output u incomplete error completed x
      = (x', [(seq x, Envelope_ ty response)], Ok tt) ∧
    build_response_object request f = Ok response ∧
    f = mkFields status (JObj ∘ dump <$> output) u incomplete response_id (pinned x) completed error
          (Json.truthy (background request)) (model x) ∧
    seq x' = seq x + 1 ∧ (∀ s, chan x' s = chan x s) ∧ next_oi x' = next_oi x ∧
    meta x' = (Some (pinned x), model x, usage x, finish_reason x).
Proof.
  intros Hs Ho.
  set (f := mkFields status _ u incomplete response_id (pinned x) completed error (Json.truthy (background request)) (model x)).
  destruct (accepts (response_kwargs request f)) as [response Hf]; [by apply response_conforms; [..|apply output_valid]|].
  change (build_response_object request f = Ok response) in Hf. unfold pinned in *.
  exists (let x1 := if created_at x is Some _ then x else set_ticks (S (ticks x)) x in
          set_seq (seq x + 1) (set_created (pinned x) x1)), f, response.
  unfold envelope, time, send, pinned, mbind, gen_bind, get, lift, modify, yield, mret, gen_ret in *.
  destruct (created_at x) as [cr|] eqn:E; rewrite ?E; cbn; fold f; rewrite Hf; cbn;
    (split; [done|]); (split; [done|]); (split; [done|]); (split; [done|]); (split; [by intros []|done]).
Qed.
Lemma get_run {A B} (f : t → A) (k : A → gen B) x : (get f ≫= k) x = k (f x) x.
Proof. unfold mbind, gen_bind. cbn. by destruct (k (f x) x) as [[??]?]. Qed.
Lemma ret_run {A B} (a : A) (k : A → gen B) x : (mret a ≫= k) x = k a x.
Proof. unfold mbind, gen_bind, mret, gen_ret. by destruct (k a x) as [[??]?]. Qed.
Lemma time_run {B} (k : Z → gen B) x : (time ≫= k) x = k (now (ticks x)) (set_ticks (S (ticks x)) x).
Proof. unfold time, mbind, gen_bind, get, modify, mret, gen_ret. by destruct (k (now _) _) as [[??]?]. Qed.

(** Closing every channel, and what is left to do then. *)
Lemma close_run {A} (k : unit → gen A) ps mt x c :
  reads ps mt x c →
  ∃ x' body c', (close_all ≫= k) x = (let '(x2, es, r) := k tt x' in (x2, body ++ es, r)) ∧
    numbered (seq x) body (seq x') ∧ feed c body.*2 = Some c' ∧
    inv (first_seen ps) (first_seen ps) (said ps) x' c' ∧ meta x' = mt.
Proof.
  intros [Hr Hm]. destruct (wp_quiet _ _ _ _ (close_all_ok _ _ _ _ Hr) quiet_close)
    as (x' & es & [] & c' & Hx & Hn & Hf & Hi & Hq).
  exists x', es, c'. split; [unfold mbind, gen_bind; by rewrite Hx|]. by split_and!; [..|congruence].
Qed.

Lemma finish_run rid cr m chunks x c :
  reads (pieces chunks) (after (Some cr) m chunks) x c →
  ∃ x' body ty status f response c' slots v x1,
    finish request rid x = (x', body ++ [(seq x1, Envelope_ ty response)], Ok tt) ∧
    numbered (seq x) body (seq x1) ∧ feed c body.*2 = Some c' ∧
    end_of chunks Exhausted = Some (ty, status) ∧ build_response_object request f = Ok response ∧
    slots = first_seen (pieces chunks) ∧ v = said (pieces chunks) ∧ inv slots slots v x1 c' ∧
    f_status f = status ∧ f_id f = rid ∧ f_output f = JObj ∘ dump <$> collect_output x1 ∧ f_created_at f = cr ∧
    f_usage f = usage_from_chat <$> last_usage chunks ∧ f_error f = None.
Proof.
  intros Hr. unfold finish.
  match goal with |- context [mbind ?k close_all] =>
    destruct (close_run k _ _ _ _ Hr) as (x1 & body & c' & -> & Hn & Hf & Hi & Hm) end.
  unfold after, meta in Hm. injection Hm as Hcr Hmod Hu Hfin.
  rewrite !get_run, Hfin. destruct (status_for _) as [status incomplete] eqn:Est. rewrite get_run, Hu.
  set (ty := if decide (status = "incomplete"%string) then "response.incomplete"%string else "response.completed"%string).
  set (x2 := if decide (status = "completed"%string) then set_ticks (S (ticks x1)) x1 else x1).
  match goal with |- context [((if _ then _ else _) ≫= ?k) x1] =>
    assert (((if decide (status = "completed"%string) then n ← time; mret (Some n) else mret None) ≫= k) x1 =
      k (if decide (status = "completed"%string) then Some (now (ticks x1)) else None) x2) as -> end.
  { subst x2. case_decide; [|by rewrite ret_run]. unfold time, mbind, gen_bind, get, modify, mret, gen_ret.
    by destruct (envelope _ _ _ _ _ _ _ _ _ _) as [[??]?]. }
  destruct (envelope_run rid ty status (collect_output x1) (usage_from_chat <$> last_usage chunks) incomplete None
    (if decide (status = "completed"%string) then Some (now (ticks x1)) else None) x2)
    as (x' & f & response & -> & Hb & -> & _); [by eapply status_for_valid|by eapply collected_valid|].
  assert (seq x2 = seq x1 ∧ pinned x2 = cr) as [-> Hpin].
  { unfold pinned. subst x2. case_decide; cbn; by rewrite Hcr. }
  eexists x', body, ty, status, _, response, c', _, _, x1. split; [done|]. split; [done|]. split; [done|].
  split.
  { unfold end_of; rewrite Est; cbn [fst]; subst ty. repeat case_decide; congruence. } split; [exact Hb|].
  do 2 (split; [done|]). by split_and!.
Qed.

Lemma fail_run rid message code ps cr m x c mt :
  reads ps (Some cr, m, mt.1, mt.2) x c →
  ∃ x' body f response c' slots v x1,
    fail request rid message code x = (x', body ++ [(seq x1, Envelope_ "response.failed" response)], Ok tt) ∧
    numbered (seq x) body (seq x1) ∧ feed c body.*2 = Some c' ∧
    build_response_object request f = Ok response ∧
    slots = first_seen ps ∧ v = said ps ∧ inv slots slots v x1 c' ∧
    f_status f = "failed" ∧ f_id f = rid ∧ f_output f = JObj ∘ dump <$> collect_output x1 ∧ f_created_at f = cr ∧
    f_usage f = None ∧ f_error f ≠ None.
Proof.
  intros Hr. unfold fail.
  match goal with |- context [mbind ?k close_all] =>
    destruct (close_run k _ _ _ _ Hr) as (x1 & body & c' & -> & Hn & Hf & Hi & Hm) end.
  injection Hm as Hcr _ _ _. rewrite get_run.
  match goal with |- context [envelope request rid ?ty ?st ?out ?u ?inc ?err ?comp x1] =>
    destruct (envelope_run rid ty st out u inc err comp x1) as (x' & f & response & -> & Hb & -> & _);
      [apply list_elem_of_In; cbn; tauto|by eapply collected_valid|] end.
  eexists x', body, _, response, c', _, _, x1. split; [done|]. split; [done|]. split; [done|]. split; [exact Hb|].
  split; [done|]. split; [done|]. unfold pinned. rewrite Hcr. by split_and!.
Qed.
Lemma init_reads m drawn : reads [] (None, m, None, None) (init m drawn) [].
Proof.
  split; [|done]. split; cbn; [constructor|constructor|done|done|].
  by intros [| |k] _; (split; [cbn; rewrite ?lookup_empty|]).
Qed.

Lemma reads_same ps mt mt' x x' c :
  (∀ s, chan x' s = chan x s) → next_oi x' = next_oi x → meta x' = mt' → reads ps mt x c → reads ps mt' x' c.
Proof. intros Hc Hn Hm [Hr _]. split; [|done]. by eapply inv_same. Qed.

Lemma start_run rid m drawn :
  ∃ x' created progress, start request rid (init m drawn) =
    (x', [(0, Envelope_ "response.created" created); (1, Envelope_ "response.in_progress" progress)], Ok tt) ∧
    seq x' = 2 ∧ reads [] (after (Some (now 0)) m []) x' [].
Proof.
  unfold start.
  destruct (envelope_run rid "response.created" "in_progress" [] None JNull None None (init m drawn))
    as (x1 & f1 & r1 & Hst1 & _ & _ & Hs1 & Hc1 & Hn1 & Hm1); [apply list_elem_of_In; cbn; tauto|constructor|].
  destruct (envelope_run rid "response.in_progress" "in_progress" [] None JNull None None x1)
    as (x2 & f2 & r2 & Hst2 & _ & _ & Hs2 & Hc2 & Hn2 & Hm2); [apply list_elem_of_In; cbn; tauto|constructor|].
  exists x2, r1, r2. rewrite (bind_run _ _ _ _ _ _ _ _ _ Hst1 Hst2), Hs1. split; [done|].
  split; [by rewrite Hs2, Hs1|]. eapply reads_same; [| | |apply (init_reads m drawn)].
  - intros s. by rewrite Hc2, Hc1.
  - by rewrite Hn2, Hn1.
  - rewrite Hm2. injection Hm1 as E1 E2 E3 E4. unfold pinned. by rewrite E1, E2, E3, E4.
Qed.
Lemma catching_run chunks how x x' es :
  for_each process chunks x = (x', es, Ok tt) →
  catching (_ ← for_each process chunks; lift (match how with Failed e => Err e | _ => Ok tt end)) x =
    (x', es, match how with
             | Failed CancelledError => Err CancelledError
             | Failed e => Ok (Err e)
             | _ => Ok (Ok tt)
             end).
Proof.
  intros Hp. unfold catching, mbind, gen_bind, lift. rewrite Hp.
  destruct how as [| |e]; [| |destruct e]; by rewrite app_nil_r.
Qed.

(** The parts of a stream that is numbered as one. *)
Lemma shape_numbers (x2 x3 : t) (e0 e1 : event) body tail :
  seq x2 = 2 → numbered (seq x2) body (seq x3) → numbered (seq x3) tail (seq x3 + Z.of_nat (length tail)) →
  ((0, e0) :: (1, e1) :: body ++ tail).*1 = seqZ 0 (Z.of_nat (length ((0, e0) :: (1, e1) :: body ++ tail))).
Proof.
  intros H2 Hb Ht. pose proof (numbered_app _ _ _ _ _ Hb Ht) as [Hn _]. rewrite H2 in Hn. cbn [fmap list_fmap fst].
  rewrite Hn. cbn [length]. rewrite (seqZ_cons 0) by lia. rewrite (seqZ_cons (Z.succ 0)) by lia.
  do 2 f_equal. f_equal; lia.
Qed.

Lemma numbered_one n e : numbered n [(n, e)] (n + Z.of_nat 1).
Proof. by split. Qed.

(** A stream that no envelope ends, and one that one does. *)
Definition opened (created progress : dict json) (rest : list (Z * event)) : list (Z * event) :=
  (0, Envelope_ "response.created" created) :: (1, Envelope_ "response.in_progress" progress) :: rest.

Lemma shape_cut response_id chunks how created progress x2 x3 body c output :
  seq x2 = 2 → numbered (seq x2) body (seq x3) → feed [] body.*2 = Some c → end_of chunks how = None →
  stream_shape request response_id chunks how (opened created progress body)
    (if decide (how = Failed CancelledError) then Err CancelledError else Ok tt) c output.
Proof.
  intros H2 Hn Hf Hend. exists created, progress, body.*2, []. split; [by rewrite app_nil_r|].
  split; [|split; [done|split; [done|by rewrite Hend]]]. unfold opened. rewrite <-(app_nil_r body).
  by apply (shape_numbers x2 x3); [done|done|split; [done|cbn; lia]].
Qed.

Lemma shape_ended response_id chunks how created progress x2 x3 x4 body body2 ty status f response c c' output :
  seq x2 = 2 → numbered (seq x2) body (seq x3) → feed [] body.*2 = Some c →
  numbered (seq x3) body2 (seq x4) → feed c body2.*2 = Some c' → end_of chunks how = Some (ty, status) →
  build_response_object request f = Ok response → closing_fields response_id chunks how status output f →
  stream_shape request response_id chunks how (opened created progress (body ++ body2 ++ [(seq x4, Envelope_ ty response)]))
    (Ok tt) c' output.
Proof.
  intros H2 Hn Hf Hn2 Hf2 Hend Hb Hfields. exists created, progress, (body ++ body2).*2, [Envelope_ ty response].
  split; [by unfold opened; cbn; rewrite !fmap_app, app_assoc|]. split.
  { unfold opened. rewrite app_assoc. eapply (shape_numbers x2 x4); [done|by eapply numbered_app|apply numbered_one]. }
  split; [by rewrite fmap_app, feed_app, Hf|]. split; [|rewrite Hend; by exists f, response].
  case_decide; [by subst|done].
Qed.

(** What every stream is like. *)
Lemma stream_runs client_error response_id chunks how :
  ∃ es r c output, stream_responses client_error request response_id chunks how = (es, r) ∧
    stream_shape request response_id chunks how es r c output ∧
    ∃ x, inv (if end_of chunks how is Some _ then first_seen (pieces chunks) else []) (first_seen (pieces chunks))
           (said (pieces chunks)) x c ∧ (is_Some (end_of chunks how) → output = collect_output x).
Proof.
  unfold stream_responses.
  assert (∃ drawn, match nonempty response_id with Some i => (i, 0%nat) | None => ("resp_" +:+ random_uuid 0, 1%nat) end
    = (id_for response_id, drawn)) as [drawn ->].
  { unfold id_for. destruct (nonempty response_id); by eexists. }
  set (rid := id_for response_id). set (m := if r_model request is JStr m then m else ""%string). unfold drive.
  destruct (start_run rid m drawn) as (x2 & created & progress & Hstart & Hs2 & Hr2).
  destruct (read_chunks (Some (now 0)) m chunks x2 [] Hr2) as (x3 & body & [] & c3 & Hp & Hn3 & Hf3 & Hr3).
  pose proof (catching_run chunks how x2 x3 body Hp) as Hcatch.
  assert (how = Disconnected ∨ how = Failed CancelledError ∨ how = Exhausted ∨
    ∃ e, how = Failed e ∧ e ≠ CancelledError) as [->|[->|[->|(e & -> & He)]]].
  { destruct how as [| |e]; [by eauto..|]. destruct (decide (e = CancelledError)) as [->|]; eauto 6. }
  - exists (opened created progress (body ++ [])), (Ok tt), c3, [].
    erewrite bind_run; [|exact Hstart|eapply bind_run; [exact Hcatch|done]]. split; [done|].
    split; [|exists x3; split; [apply Hr3|by intros []]]. rewrite app_nil_r. by apply (shape_cut _ _ Disconnected) with x2 x3.
  - exists (opened created progress body), (Err CancelledError), c3, [].
    erewrite bind_run; [|exact Hstart|eapply bind_raise; exact Hcatch].
    split; [done|]. split; [|exists x3; split; [apply Hr3|by intros []]]. by apply (shape_cut _ _ (Failed CancelledError)) with x2 x3.
  - destruct (finish_run rid _ _ _ _ _ Hr3) as (x5 & body2 & ty & status & f & response & c' & slots & v & x4 &
      Hfin & Hn4 & Hf4 & Hend & Hb & -> & -> & Hi & Hf).
    exists (opened created progress (body ++ body2 ++ [(seq x4, Envelope_ ty response)])), (Ok tt), c', (collect_output x4).
    erewrite bind_run; [|exact Hstart|eapply bind_run; [exact Hcatch|exact Hfin]]. split; [done|].
    split; [|by exists x4; rewrite Hend]. destruct Hf as (? & ? & ? & ? & ? & ?).
    by apply shape_ended with x2 x3 status f c3; [..|by split_and!].
  - assert (∃ message code, fail_with client_error request rid e = fail request rid message code) as (msg & code & Hfail).
    { unfold fail_with. destruct (client_error e); by eexists _, _. }
    destruct (fail_run rid msg code (pieces chunks) (now 0) (last_model m chunks) x3 c3
      (last_usage chunks, last_reason (choices chunks)) Hr3) as (x5 & body2 & f & response & c' & slots & v & x4 &
      Hfin & Hn4 & Hf4 & Hb & -> & -> & Hi & Hf).
    exists (opened created progress (body ++ body2 ++ [(seq x4, Envelope_ "response.failed" response)])), (Ok tt), c',
      (collect_output x4).
    erewrite bind_run; [|exact Hstart|eapply bind_run; [rewrite Hcatch; by destruct e|]; cbn beta iota; rewrite Hfail; exact Hfin].
    split; [done|]. split; [|by exists x4; destruct e]. destruct Hf as (? & ? & ? & ? & ? & ?).
    by apply shape_ended with x2 x3 "failed"%string f c3; [..|by destruct e| |split_and!].
Qed.
End run.

(** ** The same items as without streaming *)

(** The whole that the pieces are of, as a loader would parse it. *)
Definition gather (ps : list piece) : ParsedChatOutput :=
  mkParsed (Some (joined (contents ps))) (Some (joined (reasonings ps)))
    ((λ k, let w := said ps (SCall k) in mkToolCall (default "" (v_id w)) (v_name w) (v_text w))%string
     <$> Sort.sort Z.leb (omap call_index (first_seen ps))).

(** The same item, its id apart; and a call's own id where the chat gave none. *)
Definition alike (streamed whole : Item) : Prop :=
  match streamed, whole with
  | Reasoning a, Reasoning b => summary a = summary b
  | Message a, Message b => content a = content b ∧ msg_status a = msg_status b
  | FunctionCall a, FunctionCall b =>
      fc_name a = fc_name b ∧ arguments a = arguments b ∧ fc_status a = fc_status b ∧
      (call_id b ≠ ""%string → call_id a = call_id b)
  | _, _ => False
  end.

Lemma nonempty_ok o s : nonempty o = Some s → s ≠ ""%string.
Proof. destruct o as [[]|]; cbn; congruence. Qed.

Lemma elem_of_concat {A} (a : A) ls : a ∈ concat ls ↔ ∃ l, a ∈ l ∧ l ∈ ls.
Proof. setoid_rewrite list_elem_of_In. rewrite in_concat. naive_solver. Qed.

Lemma pieces_nonempty chunks p : p ∈ pieces chunks →
  match p with PReasoning text | PContent text => text ≠ ""%string | PCall _ => True end.
Proof.
  unfold pieces. rewrite elem_of_concat. intros (l & Hp & (ch & -> & _)%list_elem_of_fmap).
  apply elem_of_concat in Hp as (l & Hp & (c & -> & _)%list_elem_of_fmap). unfold choice_pieces in Hp.
  rewrite !elem_of_app in Hp. destruct Hp as [Hp|[Hp|Hp]].
  - destruct (nonempty _) eqn:E; [|by apply not_elem_of_nil in Hp]. apply list_elem_of_singleton in Hp as ->.
    by eapply nonempty_ok.
  - destruct (nonempty _) eqn:E; [|by apply not_elem_of_nil in Hp]. apply list_elem_of_singleton in Hp as ->.
    by eapply nonempty_ok.
  - by apply list_elem_of_fmap in Hp as (tc & -> & _).
Qed.

Lemma joined_empty l : joined l = ""%string → Forall (λ s, s = ""%string) l.
Proof. induction l as [|s l IH]; [by constructor|]. cbn. destruct s; [|done]. cbn. auto. Qed.

Section whole.
Context `{Host} (chunks : list Chunk).
Notation ps := (pieces chunks).

Lemma said_text s : s = SReasoning ∨ s = SMessage →
  nonempty (Some (v_text (said ps s))) = if decide (s ∈ first_seen ps) then Some (v_text (said ps s)) else None.
Proof.
  intros Hs. case_decide as Hin; [|by rewrite unseen_text].
  assert (v_text (said ps s) ≠ ""%string) as Hne; [|by destruct (v_text (said ps s))].
  apply elem_of_first_seen, list_elem_of_fmap in Hin as (p & Hp & Hin). pose proof (pieces_nonempty _ _ Hin) as Htext.
  destruct Hs as [-> | ->], p as [text|text|]; try done; cbn; intros He%joined_empty; rewrite Forall_forall in He;
    apply Htext, He; apply list_elem_of_omap; by eexists.
Qed.

Lemma calls_alike slots x c n l :
  inv slots slots (said ps) x c → (∀ k, k ∈ l → SCall k ∈ slots) →
  Forall2 alike (omap (item_of x) (SCall <$> l))
    (call_items n ((λ k, let w := said ps (SCall k) in mkToolCall (default "" (v_id w)) (v_name w) (v_text w))%string <$> l)).
Proof.
  intros Hi. revert n. induction l as [|k l IH]; intros n Hl; [constructor|].
  destruct (item_complete _ _ _ _ Hi (SCall k)) as (i & E & id & cid & -> & Hcid); [apply Hl; constructor|].
  cbn [fmap list_fmap omap list_omap call_items]. rewrite E. constructor; [|apply IH; intros; apply Hl; by constructor].
  destruct (said ps (SCall k)) as [name text [cid'|]]; cbn in *; repeat split; intros Hne; [by apply Hcid|done].
Qed.

Lemma output_alike x c n :
  inv (first_seen ps) (first_seen ps) (said ps) x c →
  Forall2 alike (collect_output x) (build_responses_items_from_parsed n (gather ps)).
Proof.
  intros Hi. rewrite (collect_ok _ _ _ _ Hi). unfold build_responses_items_from_parsed, in_order. cbn [gather p_reasoning p_content p_tool_calls].
  pose proof (said_text SReasoning (or_introl eq_refl)) as Hr. pose proof (said_text SMessage (or_intror eq_refl)) as Hm.
  cbn [said v_text] in Hr, Hm. rewrite Hr, Hm, !filter_cons, filter_nil.
  assert (∀ n, Forall2 alike (omap (item_of x) (SCall <$> Sort.sort Z.leb (omap call_index (first_seen ps))))
    (call_items n (p_tool_calls (gather ps)))) as Hcalls.
  { intros n'. apply (calls_alike _ _ _ _ _ Hi). intros k Hk%Sort.elem_of_sort.
    by apply list_elem_of_omap in Hk as ([| |k'] & ? & [= ->]). }
  destruct (decide (SReasoning ∈ _)) as [Hin1|_]; destruct (decide (SMessage ∈ _)) as [Hin2|_];
    try destruct (item_complete _ _ _ _ Hi _ Hin1) as (i1 & E1 & id1 & ->);
    try destruct (item_complete _ _ _ _ Hi _ Hin2) as (i2 & E2 & id2 & ->);
    rewrite ?omap_app; cbn [omap list_omap app]; rewrite ?E1, ?E2; cbn [app];
    repeat (apply Forall2_cons_2; [done|]); apply Hcalls.
Qed.
End whole.

(** ** The properties *)

Section theorems.
Context `{Validates} `{Host}.

(** C32: A client that follows a response's stream has, at its end, the response. Every stream is numbered from
    0 on and opens with two envelopes; what comes between them and the last envelope adds one item per output
    index, only ever adds text to items that are open, and says nothing of a text that the client doesn't have
    already. A stream that its client didn't leave, whose loader ended or failed, ends with exactly one envelope,
    of the type its end calls for; every item is closed then, and the envelope's output has the client's items,
    in the client's order if the channels came in the order they are listed in. What is asked: the settings
    that the response echoes are of the types that the request's class declares, and pydantic accepts a
    response whose fields are of the types that its class declares; that the translator's are is proved. *)
Theorem stream_rebuilt client_error request response_id chunks how :
  echoes request →
  let '(es, r) := stream_responses client_error request response_id chunks how in
  let slots := first_seen (pieces chunks) in
  ∃ c output, stream_shape request response_id chunks how es r c output ∧
    (is_Some (end_of chunks how) →
      Forall (λ h, h_done h = true) c ∧ length c = length slots ∧ output ≡ₚ h_item <$> c ∧
      (in_order slots = slots → output = h_item <$> c)).
Proof.
  intros Hr. destruct (stream_runs request Hr client_error response_id chunks how)
    as (es & r & c & output & -> & Hshape & x & Hi & Hend). exists c, output. split; [done|].
  intros Hs. rewrite (Hend Hs). destruct (end_of chunks how); [|by destruct Hs]. split; [by eapply closed_all|]. split; [by eapply inv_length|].
  split; [by eapply output_items|]. intros Ho. by rewrite (collect_ok _ _ _ _ Hi), Ho, (client_items _ _ _ _ Hi).
Qed.

(** C33: Streaming a response or not makes no difference to it: the output that a stream ends with is the one
    that [build_responses_items_from_parsed] makes of the same reasoning, content and tool calls given as a
    whole, ids apart. As in [stream_rebuilt], the settings echoed are of their declared types, and pydantic accepts
    what is of its class's; and the stream has an end (its client didn't leave, its task wasn't cancelled). *)
Theorem streamed_as_whole client_error request response_id chunks how n :
  echoes request →
  is_Some (end_of chunks how) →
  let '(es, r) := stream_responses client_error request response_id chunks how in
  ∃ c output, stream_shape request response_id chunks how es r c output ∧
    Forall2 alike output (build_responses_items_from_parsed n (gather (pieces chunks))).
Proof.
  intros Hr Hs. destruct (stream_runs request Hr client_error response_id chunks how)
    as (es & r & c & output & -> & Hshape & x & Hi & Hend). exists c, output. split; [done|].
  rewrite (Hend Hs). destruct (end_of chunks how); [|by destruct Hs]. by eapply output_alike.
Qed.
End theorems.

(** ** Examples *)

Module Examples.
Definition plain_host : Host := {| Streaming.random_uuid := pretty; now n := Z.of_nat n |}.

Definition request : Request :=
  mkRequest (inl "hi"%string) (JStr "m") JNull JNull JNull JNull None JNull JNull JNull JNull JNull JNull JNull None JNull None JNull JNull.

Definition say (content reasoning : option string) (calls : list DeltaToolCall) (finish : option string) : Chunk :=
  mkChunk "m" [mkChoice (mkDelta content reasoning (Some calls)) finish] None.

(** Some thinking, an answer, and a call whose name comes late. *)
Definition thinking : list Chunk :=
  [say None (Some "Hm"%string) [] None; say (Some "Ro"%string) None [] None;
   say (Some "ll."%string) None [mkDeltaCall (Some "call_7"%string) 0 None] None;
   say None None [mkDeltaCall None 0 (Some (mkDeltaFunction (Some "roll"%string) (Some "{}"%string)))] (Some "tool_calls"%string)].

Definition run (chunks : list Chunk) (how : ending) : list (Z * event) * res unit :=
  stream_responses (H := strict_envelope) (H0 := plain_host) (λ _, None) request None chunks how.

Lemma stream_rebuilt_witness :
  last (event_type ∘ snd <$> (run thinking Exhausted).1) = Some "response.completed"%string ∧
  let '(es, r) := run thinking Exhausted in
  let slots := first_seen (pieces thinking) in
  ∃ c output, stream_shape (H := strict_envelope) (H0 := plain_host) request None thinking Exhausted es r c output ∧
    (is_Some (end_of thinking Exhausted) →
      Forall (λ h, h_done h = true) c ∧ length c = length slots ∧ output ≡ₚ h_item <$> c ∧
      (in_order slots = slots → output = h_item <$> c)).
Proof.
  split; [vm_compute; reflexivity|].
  apply (stream_rebuilt (H := strict_envelope) (H1 := plain_host) (λ _, None) request None thinking Exhausted I).
Defined.

Lemma streamed_as_whole_witness :
  build_responses_items_from_parsed (H0 := plain_host) 0 (gather (pieces thinking)) =
    [Reasoning (mkReasoning "rs_0" ["Hm"]); Message (mkMessage "msg_1" "completed" ["Roll."]);
     FunctionCall (mkCall "fc_2" "call_7" "roll" "{}" "completed")]%string ∧
  let '(es, r) := run thinking Exhausted in
  ∃ c output, stream_shape (H := strict_envelope) (H0 := plain_host) request None thinking Exhausted es r c output ∧
    Forall2 alike output (build_responses_items_from_parsed (H0 := plain_host) 0 (gather (pieces thinking))).
Proof.
  split; [vm_compute; reflexivity|].
  apply (streamed_as_whole (H := strict_envelope) (H1 := plain_host) (λ _, None) request None thinking Exhausted 0 I).
  vm_compute. by eexists.
Defined.
End Examples.
