(* ===== verification/ChatTranslation.v ===== *)
(** * From a response's request to a chat request

    The request side of [src/modelship/openai/protocol/responses/adapter.py]: a request's input items as
    chat messages, its tools and settings as a chat request's; the check of [protocol/chat.py]; the blobs
    of [openai/compaction_crypto.py]; what [openai/utils/responses.py] asks and makes of a compaction; and
    the messages as a strict backend takes them ([openai/utils/chat.py]). *)

From S2P Require Import Prelude ResponsesState McpPolicy ResponseObjects JsonText.
Local Open Scope Z_scope.

(** ** What is outside *)

(** [repr]; Fernet's [encrypt] and [decrypt] under the key in use, with [None] for [InvalidToken];
    how floats are written; and pydantic's reading of a chat request's fields. *)
Class Outside : Type := {
  repr : json → string;
  seal : string → string;
  unseal : string → option string;
  outside_floats :: FloatText;
  check_fields : dict json → res unit;
}.

(** [UnsupportedResponsesFeatureError], [UnsupportedContentError] *)
Definition unsupported (msg : string) : exn := ValueError msg.
Definition unsupported_content (msg : string) : exn := ValueError msg.

(** [type(v).__name__] *)
Definition type_name (v : json) : string :=
  match v with
  | JNull => "NoneType" | JBool _ => "bool" | JInt _ => "int" | JFloat _ => "float" | JStr _ => "str"
  | JList _ => "list" | JObj _ => "dict"
  end.

Definition is_str (s : string) (v : json) : bool := Json.eqb v (JStr s).
Definition one_of (l : list string) (v : json) : bool := existsb (λ s, is_str s v) l.

(** ** Blobs ([compaction_crypto.py]) *)

Section translation.
Context `{Outside}.

(** [encrypt_items] *)
Definition encrypt_items (items : list json) : string := seal (dumps (JList items)).

(** [decrypt_items]; [inl] is [InvalidToken]. Text is ASCII, so it always encodes. *)
Definition decrypt_items (blob : json) : res (unit + list json) :=
  match blob with
  | JStr raw =>
      match unseal raw with
      | None => Ok (inl tt)
      | Some plaintext =>
          match loads plaintext with
          | Some (JList items) => Ok (inr items)
          | _ => Ok (inl tt)
          end
      end
  | _ => Err (OtherError "AttributeError")
  end.

(** ** Content *)

(** [_text_of] *)
Definition text_of (content : json) : res (option string) :=
  match content with
  | JNull => Ok None
  | JStr s => Ok (Some s)
  | JList l =>
      let parts := omap (λ p, if p is JObj d then if field "text" d is JStr t then Some t else None else None) l in
      Ok (if parts is [] then None else Some (Str.join "" parts))
  | _ => Err (unsupported ("unsupported content shape " +:+ repr content +:+ "."))
  end.

Definition CONTENT_TEXT_TYPES : list string := ["input_text"; "output_text"; "text"]%string.
Definition CONTENT_IMAGE_TYPES : list string := ["input_image"; "image_url"]%string.

(** A part of [_content_to_chat] *)
Definition part_to_chat (p : json) : res (dict json) :=
  match p with
  | JObj d =>
      ty ← hashable (field "type" d);
      if one_of CONTENT_TEXT_TYPES ty then Ok [("type", JStr "text"); ("text", field "text" d)]%string
      else if one_of CONTENT_IMAGE_TYPES ty then
        let url := field "image_url" d in
        Ok [("type", JStr "image_url"); ("image_url", if url is JStr _ then JObj [("url", url)] else url)]%string
      else Err (unsupported ("unsupported content part type " +:+ repr ty +:+ "."))
  | _ => Err (unsupported ("unsupported content part " +:+ repr p +:+ "."))
  end.

(** [part["text"] or ""], joined *)
Definition part_text (part : dict json) : res string :=
  match py_or (field "text" part) (JStr "") with
  | JStr s => Ok s
  | _ => Err (TypeError "sequence item: expected str instance")
  end.

(** [_content_to_chat] *)
Definition content_to_chat (content : json) : res json :=
  match content with
  | JNull | JStr _ => Ok content
  | JList l =>
      parts ← res_mapM part_to_chat l;
      if forallb (type_is "text") parts then
        texts ← res_mapM part_text parts; Ok (JStr (Str.join "" texts))
      else Ok (JList (JObj <$> parts))
  | _ => Err (unsupported ("unsupported content shape " +:+ repr content +:+ "."))
  end.

(** ** Messages *)

Notation message := (dict json).

(** [**reasoning]: what was carried over from a reasoning item *)
Definition with_reasoning (carried : option string) : message :=
  if carried is Some r then [("reasoning", JStr r)]%string else [].

(** The assistant's message that makes a call. *)
Definition call_message (call_id name arguments : json) (carried : option string) : message :=
  [("role", JStr "assistant"); ("content", JNull);
   ("tool_calls", JList [JObj [("id", call_id); ("type", JStr "function");
      ("function", JObj [("name", name); ("arguments", arguments)])]])]%string ++ with_reasoning carried.
Definition tool_message (call_id : json) (content : option string) : message :=
  [("role", JStr "tool"); ("tool_call_id", call_id); ("content", if content is Some c then JStr c else JNull)]%string.

(** The locals of [_messages_from_items], and the caller's [system_parts]. *)
Record translation : Type := mkTr {
  messages : list message;
  seen_call_ids : list json;
  carried : option string;
  system_parts : list string;
}.

Definition add_messages (ms : list message) (s : translation) : translation :=
  mkTr (messages s ++ ms) (seen_call_ids s) (carried s) (system_parts s).

(** [call_id in seen_call_ids] *)
Definition seen (call_id : json) (s : translation) : bool := existsb (λ k, Json.eqb k call_id) (seen_call_ids s).

Definition arguments_of (d : dict json) : json := default (JStr "") (Dict.get "arguments" d).

Definition function_call (d : dict json) (reasoning : option string) (s : translation) : res translation :=
  let call_id := py_or (field "call_id" d) (field "id" d) in
  let name := field "name" d in
  if negb (Json.truthy call_id) || negb (Json.truthy name)
  then Err (unsupported "function_call input items require both 'call_id' (or 'id') and 'name'.")
  else
    k ← hashable call_id;
    Ok (mkTr (messages s ++ [call_message call_id name (arguments_of d) reasoning]) (k :: seen_call_ids s)
          (carried s) (system_parts s)).

Definition mcp_call (d : dict json) (reasoning : option string) (s : translation) : res translation :=
  let call_id := py_or (field "id" d) (JStr "") in
  let name := field "name" d in
  let output := field "output" d in
  let error := field "error" d in
  if negb (Json.truthy call_id) || negb (Json.truthy name)
  then Err (unsupported "mcp_call input items require both 'id' and 'name'.")
  else if (if output is JNull then true else false) && (if error is JNull then true else false)
  then Err (unsupported "mcp_call input items require one of 'output' or 'error'.")
  else
    content ← text_of (if error is JNull then output else error);
    Ok (add_messages [call_message call_id name (arguments_of d) reasoning; tool_message call_id content] s).

Definition function_call_output (d : dict json) (s : translation) : res translation :=
  let call_id := field "call_id" d in
  if negb (Json.truthy call_id) then Err (unsupported "function_call_output input items require 'call_id'.")
  else
    content ← text_of (field "output" d);
    k ← hashable call_id;
    if negb (seen k s)
    then Err (unsupported ("function_call_output references unknown call_id " +:+ repr call_id
                +:+ " (no matching function_call)."))
    else Ok (add_messages [tool_message call_id content] s).

Definition reasoning_item (d : dict json) (s : translation) : res translation :=
  text ← text_of (field "content" d);
  text ← (if nonempty text is Some t then Ok (Some t) else text_of (field "summary" d));
  Ok (mkTr (messages s) (seen_call_ids s) (nonempty text) (system_parts s)).

Definition is_compaction (d : json) : bool := if d is JObj d then type_is "compaction" d else false.

(** [nested] is the function itself, for the items in the blob. *)
Definition compaction (nested : list json → list string → res (list message * list string)) (d : dict json)
    (s : translation) : res translation :=
  let encrypted_content := field "encrypted_content" d in
  if negb (Json.truthy encrypted_content) then Err (unsupported "compaction input items require 'encrypted_content'.")
  else
    decoded ← decrypt_items encrypted_content;
    match decoded with
    | inl _ => Err (unsupported "compaction item could not be decoded.")
    | inr items =>
        if existsb is_compaction items
        then Err (unsupported "compaction items cannot nest another compaction item.")
        else
          r ← nested items (system_parts s);
          Ok (mkTr (messages s ++ r.1) (seen_call_ids s) (carried s) r.2)
    end.

Definition message_item (d : dict json) (reasoning : option string) (s : translation) : res translation :=
  let role := default (JStr "user") (Dict.get "role" d) in
  if one_of ["system"; "developer"] role then
    text ← text_of (field "content" d);
    Ok (mkTr (messages s) (seen_call_ids s) (carried s)
          (system_parts s ++ (if nonempty text is Some t then [t] else [])))
  else
    content ← content_to_chat (field "content" d);
    Ok (add_messages [[("role", role); ("content", content)]%string
                      ++ with_reasoning (if is_str "assistant" role then reasoning else None)] s).

(** One item of [_messages_from_items]; what was carried is used up by it. *)
Definition item_to_chat (nested : list json → list string → res (list message * list string)) (it : json)
    (s : translation) : res translation :=
  match it with
  | JObj d =>
      let itype := field "type" d in
      let reasoning := carried s in
      let s := mkTr (messages s) (seen_call_ids s) None (system_parts s) in
      if is_str "function_call" itype then function_call d reasoning s
      else if is_str "mcp_call" itype then mcp_call d reasoning s
      else if one_of ["mcp_list_tools"; "mcp_approval_request"; "mcp_approval_response"] itype then Ok s
      else if is_str "function_call_output" itype then function_call_output d s
      else if is_str "reasoning" itype then reasoning_item d s
      else if is_str "compaction" itype then compaction nested d s
      else if is_str "message" itype || Dict.mem "role" d then message_item d reasoning s
      else Err (unsupported ("unsupported input item type " +:+ repr itype +:+ "."))
  | _ => Err (OtherError "AttributeError")
  end.

Fixpoint items_to_chat (nested : list json → list string → res (list message * list string)) (items : list json)
    (s : translation) : res translation :=
  match items with
  | [] => Ok s
  | it :: items => s ← item_to_chat nested it s; items_to_chat nested items s
  end.

(** [_messages_from_items] of a list, within [depth] calls of itself. *)
Fixpoint messages_from_items (depth : nat) (items : list json) (parts : list string)
    : res (list message * list string) :=
  match depth with
  | O => Err (RuntimeError "maximum recursion depth exceeded")
  | S depth =>
      s ← items_to_chat (messages_from_items depth) items (mkTr [] [] None parts);
      Ok (messages s, system_parts s)
  end.

(** A blob's items hold no other blob, so two calls are enough ([depth_enough]). *)
Definition DEPTH : nat := 2.

Definition user_message (text : string) : message := [("role", JStr "user"); ("content", JStr text)]%string.
Definition system_message (text : string) : message := [("role", JStr "system"); ("content", JStr text)]%string.

Definition newline2 : string := String "010" (String "010" "").

(** [messages_from_input] *)
Definition messages_from_input (input : string + list json) (instructions : json) : res (list message) :=
  let parts := if instructions is JStr s then if nonempty (Some s) is Some t then [t] else [] else [] in
  r ← match input with
      | inl text => Ok ([user_message text], parts)
      | inr items => messages_from_items DEPTH items parts
      end;
  Ok ((if r.2 is [] then [] else [system_message (Str.join newline2 r.2)]) ++ r.1).

(** ** Tools and settings *)

(** [{k: tool[k] for k in keys if k in tool}] *)
Definition picked (keys : list string) (d : dict json) : dict json :=
  omap (λ k, pair k <$> Dict.get k d) keys.

(** [_tools_to_chat]; [None] for no tools *)
Fixpoint chat_tools (tools : list (dict json)) : res (list (dict json)) :=
  match tools with
  | [] => Ok []
  | tool :: tools =>
      if type_is "mcp" tool
      then Err (unsupported "mcp tools are handled at the gateway and must not reach the loader directly.")
      else if negb (type_is "function" tool) then chat_tools tools
      else
        out ← chat_tools tools;
        Ok ([("type", JStr "function");
             ("function", JObj (picked ["name"; "description"; "parameters"; "strict"] tool))]%string :: out)
  end.
Definition tools_to_chat (tools : option (list (dict json))) : res (option (list (dict json))) :=
  out ← chat_tools (default [] tools);
  Ok (if out is [] then None else Some out).

(** [_tool_choice_to_chat] *)
Definition tool_choice_to_chat (choice : json) : res json :=
  match choice with
  | JObj d =>
      if type_is "function" d
      then Ok (JObj [("type", JStr "function"); ("function", JObj [("name", field "name" d)])])%string
      else Err (unsupported ("tool_choice type " +:+ repr (field "type" d) +:+ " is not supported."))
  | _ => Ok choice
  end.

(** [_response_format_from_text] *)
Definition response_format_from_text (text : json) : res json :=
  if negb (Json.truthy text) then Ok JNull
  else
    fmt ← get_field "format" text;
    if negb (Json.truthy fmt) then Ok JNull
    else match fmt with
    | JObj d =>
        let ftype := field "type" d in
        if is_str "json_schema" ftype
        then Ok (JObj [("type", JStr "json_schema");
                       ("json_schema", JObj (picked ["name"; "schema"; "strict"; "description"] d))])%string
        else if one_of ["json_object"; "text"] ftype then Ok (JObj [("type", ftype)])%string
        else Err (unsupported ("text.format type " +:+ repr ftype +:+ " is not supported."))
    | _ => Err (unsupported ("text.format must be an object with a 'type' field, got " +:+ type_name fmt +:+ "."))
    end.

(** [_validate_tools_response_format_compat], of [ChatCompletionRequest] *)
Definition tools_format_compat (kwargs : dict json) : res unit :=
  if negb (Json.truthy (field "tools" kwargs)) || negb (Json.truthy (field "response_format" kwargs)) then Ok tt
  else
    fmt_type ← get_field "type" (field "response_format" kwargs);
    if (if fmt_type is JNull then true else is_str "text" fmt_type) then Ok tt
    else if is_str "none" (field "tool_choice" kwargs) then Ok tt
    else Err (ValueError ("response_format with type=" +:+ repr fmt_type
                +:+ " cannot be combined with tools unless tool_choice='none'.")).

(** [ChatCompletionRequest(...)]: the fields it is given *)
Definition ChatCompletionRequest (kwargs : dict json) : res (dict json) :=
  _ ← check_fields kwargs;
  _ ← tools_format_compat kwargs;
  Ok kwargs.

(** [reasoning.context] is [current_turn]: no reasoning before the last user message. *)
Definition last_user (ms : list message) : nat :=
  default 0%nat (last (omap (λ im, if is_str "user" (field "role" im.2) then Some im.1 else None) (imap pair ms))).
Definition forget_before (n : nat) (ms : list message) : list message :=
  (Dict.pop "reasoning" <$> take n ms) ++ drop n ms.

(** A setting that was given *)
Definition given (k : string) (v : json) : dict json := if v is JNull then [] else [(k, v)].

Definition CONTEXTS : list string := ["auto"; "current_turn"; "all_turns"]%string.

(** [responses_request_to_chat] *)
Definition responses_request_to_chat (request : Request) : res (dict json) :=
  settings ← match py_or (reasoning request) (JObj []) with JObj d => Ok d | _ => Err (OtherError "AttributeError") end;
  let context := field "context" settings in
  _ ← raise_if (negb (if context is JNull then true else one_of CONTEXTS context))
        (unsupported ("reasoning.context must be one of 'auto', 'current_turn', 'all_turns', got " +:+ repr context +:+ "."));
  ms ← messages_from_input (r_input request) (instructions request);
  let ms := if is_str "current_turn" context then forget_before (last_user ms) ms else ms in
  tools ← tools_to_chat (r_tools request);
  choice ← tool_choice_to_chat (tool_choice request);
  format ← response_format_from_text (r_text request);
  let stream := Json.truthy (r_stream request) in
  ChatCompletionRequest
    ([("model", r_model request); ("messages", JList (JObj <$> ms)); ("stream", JBool stream)]%string
     ++ (if stream then [("stream_options", JObj [("include_usage", JBool true)])]%string else [])
     ++ given "max_completion_tokens" (max_output_tokens request)
     ++ given "temperature" (temperature request)
     ++ given "top_p" (top_p request)
     ++ given "parallel_tool_calls" (parallel_tool_calls request)
     ++ given "user" (r_user request)
     ++ (match tools with
         | Some l => if is_str "none" (tool_choice request) then [] else [("tools"%string, JList (JObj <$> l))]
         | None => []
         end)
     ++ given "tool_choice" choice
     ++ given "response_format" format
     ++ given "reasoning_effort" (field "effort" settings)).

(** ** Compaction ([utils/responses.py]) *)

(** [build_summarization_request]; [prompt] is [_COMPACTION_SYSTEM_PROMPT]. *)
Definition build_summarization_request (prompt model : string) (items : list json) (instructions : option string)
    : res (dict json) :=
  ms ← messages_from_input (inr items) JNull;
  ChatCompletionRequest
    [("model", JStr model);
     ("messages", JList (JObj <$> system_message prompt
        :: (if nonempty instructions is Some i then [system_message i] else []) ++ ms));
     ("stream", JBool false); ("reasoning_effort", JStr "none")]%string.

(** [CompactionItem(...).model_dump()] and the items the summary is kept as ([compact_response]) *)
Definition CompactionItem (id : string) (encrypted_content : string) : dict json :=
  [("type", JStr "compaction"); ("id", JStr id); ("encrypted_content", JStr encrypted_content)]%string.
Definition summary_items (summary : string) : list json :=
  [JObj [("type", JStr "message"); ("role", JStr "assistant"); ("content", JStr summary)]]%string.

(** The output of [build_compaction] *)
Definition build_compaction (id : string) (items : list json) : list (dict json) :=
  [CompactionItem id (encrypt_items items)].
End translation.
