(* ===== verification/ChatTheorems.v ===== *)
(** * Theorems on chat requests

    The messages that [ChatTranslation] makes of a request: where system messages stand, what a tool
    message answers, how deep blobs nest; that a response's output comes back as the messages it was made
    from, and a compaction as its summary. *)

From S2P Require Import Prelude ResponsesState McpPolicy ResponseObjects Streaming JsonText ChatTranslation.
Local Open Scope Z_scope.
#[local] Arguments Dict.get : simpl never.

(** ** Roles and calls *)

Definition role (m : dict json) : json := field "role" m.
Definition is_system (m : dict json) : bool := one_of ["system"; "developer"] (role m).

(** An assistant's message that makes the call with this id. *)
Definition makes (m : dict json) (id : json) : Prop :=
  role m = JStr "assistant" ∧ ∃ l d, field "tool_calls" m = JList l ∧ JObj d ∈ l ∧ field "id" d = id.

(** One that makes it, by Python's equality of ids. *)
Definition calls (m : dict json) (id : json) : Prop := ∃ k, makes m k ∧ (k = id ∨ Json.eqb k id = true).

(** Every tool result that names a call comes after that call. *)
Definition answered (ms : list (dict json)) : Prop :=
  ∀ i m id, ms !! i = Some m → Dict.get "tool_call_id" m = Some id →
    ∃ j m', (j < i)%nat ∧ ms !! j = Some m' ∧ calls m' id.

Lemma results_app ms ms' : answered ms → answered ms' → answered (ms ++ ms').
Proof.
  intros H H' i m id [Hi|[Hi Hm]]%lookup_app_Some Hid.
  - destruct (H _ _ _ Hi Hid) as (j & m' & ? & Hj & ?). exists j, m'. split; [done|]. split; [|done].
    by apply lookup_app_l_Some.
  - destruct (H' _ _ _ Hm Hid) as (j & m' & ? & Hj & ?). exists (length ms + j)%nat, m'. split; [lia|]. split; [|done].
    rewrite lookup_app_r by lia. by replace (length ms + j - length ms)%nat with j by lia.
Qed.

Lemma results_snoc ms m :
  answered ms → (∀ id, Dict.get "tool_call_id" m = Some id → ∃ m', m' ∈ ms ∧ calls m' id) → answered (ms ++ [m]).
Proof.
  intros H Hm i m' id [Hi|[Hi Hm']]%lookup_app_Some Hid.
  - destruct (H _ _ _ Hi Hid) as (j & m'' & ? & Hj & ?). exists j, m''. split; [done|]. split; [|done].
    by apply lookup_app_l_Some.
  - apply list_lookup_singleton_Some in Hm' as [? <-]. destruct (Hm _ Hid) as (m' & [j Hj]%list_elem_of_lookup & Hc).
    exists j, m'. pose proof (lookup_lt_Some _ _ _ Hj). split; [lia|]. split; [|done]. by apply lookup_app_l_Some.
Qed.

Lemma results_none ms : Forall (λ m, Dict.get "tool_call_id" m = None) ms → answered ms.
Proof. intros H i m id Hm Hid. rewrite Forall_lookup in H. by rewrite (H _ _ Hm) in Hid. Qed.

Section theorems.
Context `{Outside}.

(** ** What holds of the messages so far *)

Record good (s : translation) : Prop := mkGood {
  good_roles : Forall (λ m, is_system m = false) (messages s);
  good_answers : answered (messages s);
  good_seen : ∀ id, id ∈ seen_call_ids s → ∃ m, m ∈ messages s ∧ makes m id;
}.

Lemma good_add ms s s' :
  good s → messages s' = messages s ++ ms → seen_call_ids s' = seen_call_ids s →
  Forall (λ m, is_system m = false) ms → answered (messages s ++ ms) → good s'.
Proof.
  intros [H1 H2 H3] Hm Hs Hr Ha. split; rewrite ?Hm, ?Hs; [by apply Forall_app|done|].
  intros id Hid. destruct (H3 _ Hid) as (m & ? & ?). exists m. split; [|done]. apply elem_of_app. by left.
Qed.

Lemma good_same s s' : good s → messages s' = messages s → seen_call_ids s' = seen_call_ids s → good s'.
Proof. intros [H1 H2 H3] Hm Hs. split; by rewrite ?Hm, ?Hs. Qed.

Lemma hashable_same k v : hashable k = Ok v → v = k.
Proof. destruct k; by intros [= <-]. Qed.

Lemma call_makes id name arguments carried : makes (call_message id name arguments carried) id.
Proof.
  split; [done|]. exists [JObj [("id", id); ("type", JStr "function"); ("function", JObj [("name", name); ("arguments", arguments)])]]%string.
  eexists. split; [done|]. split; [constructor|done].
Qed.

Lemma call_no_result id name arguments carried : Dict.get "tool_call_id" (call_message id name arguments carried) = None.
Proof. by destruct carried. Qed.

(** ** Each kind of item *)

Lemma function_call_good d c s s' : good s → function_call d c s = Ok s' → good s'.
Proof.
  intros Hg. unfold function_call. case_match; [done|]. intros (k & ->%hashable_same & [= <-])%res_bind_ok.
  destruct Hg as [H1 H2 H3]. split; cbn [messages seen_call_ids].
  - apply Forall_app. split; [done|]. by repeat constructor.
  - apply results_snoc; [done|]. intros id. by rewrite call_no_result.
  - intros id [->|Hid]%elem_of_cons; [eexists; split; [|apply call_makes]; apply elem_of_app; right; constructor|].
    destruct (H3 _ Hid) as (m & ? & ?). exists m. split; [|done]. apply elem_of_app. by left.
Qed.

Lemma mcp_call_good d c s s' : good s → mcp_call d c s = Ok s' → good s'.
Proof.
  intros Hg. unfold mcp_call. do 2 (case_match; [done|]). intros (content & _ & [= <-])%res_bind_ok.
  eapply good_add; [exact Hg|done|done|by repeat constructor|].
  match goal with |- answered (_ ++ [?a; ?b]) => change [a; b] with ([a] ++ [b]) end.
  rewrite app_assoc. apply results_snoc.
  - apply results_snoc; [apply Hg|]. intros id. by rewrite call_no_result.
  - intros id [= <-]. eexists. split; [apply elem_of_app; right; constructor|].
    eexists. split; [apply call_makes|by left].
Qed.

Lemma function_call_output_good d s s' : good s → function_call_output d s = Ok s' → good s'.
Proof.
  intros Hg. unfold function_call_output. case_match; [done|].
  intros (content & _ & (k & ->%hashable_same & Hs)%res_bind_ok)%res_bind_ok.
  destruct (seen _ s) eqn:E; [|done]. injection Hs as <-.
  eapply good_add; [exact Hg|done|done|by repeat constructor|]. apply results_snoc; [apply Hg|].
  intros id [= <-]. apply existsb_exists in E as (k' & Hk'%list_elem_of_In & Heq).
  destruct (good_seen _ Hg _ Hk') as (m & ? & ?). exists m. split; [done|]. exists k'. split; [done|by right].
Qed.

Lemma reasoning_item_good d s s' : good s → reasoning_item d s = Ok s' → good s'.
Proof.
  intros Hg. unfold reasoning_item. intros (t & _ & (t' & _ & [= <-])%res_bind_ok)%res_bind_ok.
  by eapply good_same.
Qed.

Lemma message_item_good d c s s' : good s → message_item d c s = Ok s' → good s'.
Proof.
  intros Hg. unfold message_item. case_match eqn:E.
  - intros (t & _ & [= <-])%res_bind_ok. by eapply good_same.
  - intros (t & _ & [= <-])%res_bind_ok. eapply good_add; [exact Hg|done|done| |].
    + repeat constructor. unfold is_system, role. cbn [field Dict.get app]. exact E.
    + apply results_snoc; [apply Hg|]. intros id. by destruct (is_str _ _), c.
Qed.

Definition good_result (r : list (dict json) * list string) : Prop :=
  Forall (λ m, is_system m = false) r.1 ∧ answered r.1.

Lemma compaction_good nested d s s' :
  (∀ items parts r, nested items parts = Ok r → good_result r) → good s → compaction nested d s = Ok s' → good s'.
Proof.
  intros Hn Hg. unfold compaction. case_match; [done|]. intros ([|items] & _ & Hr)%res_bind_ok; [done|].
  destruct (existsb _ _); [done|]. apply res_bind_ok in Hr as (r & [Hr Ha]%Hn & [= <-]).
  eapply good_add; [exact Hg|done|done|done|]. apply results_app; [apply Hg|done].
Qed.

Lemma item_good nested it s s' :
  (∀ items parts r, nested items parts = Ok r → good_result r) → good s → item_to_chat nested it s = Ok s' → good s'.
Proof.
  intros Hn Hg. unfold item_to_chat. destruct it; try done. cbv zeta.
  set (s0 := mkTr (messages s) (seen_call_ids s) None (system_parts s)).
  assert (good s0) as Hg0 by by eapply good_same.
  destruct (is_str "function_call" _); [by apply function_call_good|].
  destruct (is_str "mcp_call" _); [by apply mcp_call_good|].
  destruct (one_of _ _); [by intros [= <-]|].
  destruct (is_str "function_call_output" _); [by apply function_call_output_good|].
  destruct (is_str "reasoning" _); [by apply reasoning_item_good|].
  destruct (is_str "compaction" _); [by apply compaction_good|].
  destruct (_ || _); [by apply message_item_good|done].
Qed.

Lemma items_good nested items s s' :
  (∀ items parts r, nested items parts = Ok r → good_result r) → good s → items_to_chat nested items s = Ok s' → good s'.
Proof.
  intros Hn. induction items as [|it items IH] in s |- *; cbn; [by intros Hg [= <-]|].
  intros Hg (s1 & H1 & H2)%res_bind_ok. eapply IH; [|done]. by eapply item_good.
Qed.

Lemma messages_good depth items parts r : messages_from_items depth items parts = Ok r → good_result r.
Proof.
  induction depth as [|depth IH] in items, parts, r |- *; cbn; [done|]. intros (s & Hs & [= <-])%res_bind_ok.
  assert (good s) as [H1 H2 _]; [|by split]. eapply items_good; [exact IH| |exact Hs].
  split; cbn; [constructor|by intros ? ? ?|set_solver].
Qed.
(** C35: A system message comes first or not at all, and a tool's result comes after the call it is of: whatever
    a request's input holds, in blobs of earlier conversations too, at most the first message has the role
    [system] or [developer], and every message that names a call by its id has, before it, an assistant's message
    that makes that call. *)
Theorem messages_well_ordered input instructions ms :
  messages_from_input input instructions = Ok ms →
  (∀ i m, ms !! i = Some m → is_system m = true → i = 0%nat) ∧ answered ms.
Proof.
  unfold messages_from_input. intros (r & Hr & [= <-])%res_bind_ok.
  assert (good_result r) as [H1 H2].
  { destruct input as [text|items]; [|by eapply messages_good]. injection Hr as <-.
    split; [by repeat constructor|]. apply results_none. by repeat constructor. }
  assert (∀ i m, r.1 !! i = Some m → is_system m = false) as Hr1 by (intros i m; rewrite Forall_lookup in H1; apply H1).
  destruct r.2 as [|p ps]; cbn [app].
  - split; [|done]. intros i m Hm Hs. apply Hr1 in Hm. congruence.
  - split.
    + intros [|i] m Hm Hs; [done|]. apply Hr1 in Hm. congruence.
    + apply (results_app [_]); [|done]. apply results_none. by repeat constructor.
Qed.

(** ** Depth *)

(** Items without a blob never nest. *)
Lemma no_blob_nested nested nested' items s :
  existsb is_compaction items = false → items_to_chat nested items s = items_to_chat nested' items s.
Proof.
  induction items as [|it items IH] in s |- *; cbn; [done|]. intros [Hit Hitems]%orb_false_iff.
  assert (item_to_chat nested it s = item_to_chat nested' it s) as ->.
  { destruct it as [| | | | | |d]; try done. change (is_str "compaction" (field "type" d) = false) in Hit.
    unfold item_to_chat. cbv zeta. by rewrite Hit. }
  destruct (item_to_chat nested' it s); cbn; auto.
Qed.

(** Blobs don't nest, so the messages of any input take at most two calls of [_messages_from_items]: allowing
    more changes nothing. *)
Theorem depth_enough n items parts :
  messages_from_items (2 + n) items parts = messages_from_items DEPTH items parts.
Proof.
  cbn [DEPTH messages_from_items Nat.add]. f_equal. revert parts.
  enough (∀ s, items_to_chat (messages_from_items (S n)) items s = items_to_chat (messages_from_items 1) items s) as He.
  { intros parts. cbn in He. by rewrite He. }
  induction items as [|it items IH]; intros s; [done|]. cbn [items_to_chat].
  assert (item_to_chat (messages_from_items (S n)) it s = item_to_chat (messages_from_items 1) it s) as ->.
  { destruct it as [| | | | | |d]; try done. cbn [item_to_chat]. repeat case_match; try done.
    unfold compaction. case_match; [done|]. destruct (decrypt_items _) as [[|inner]|]; try done. cbn.
    destruct (existsb is_compaction inner) eqn:E; [done|]. by rewrite (no_blob_nested _ (λ _ _, Err (RuntimeError "maximum recursion depth exceeded"))). }
  destruct (item_to_chat _ _ _); cbn; auto.
Qed.
(** ** What a response gave comes back *)

(** The messages of a response's output, whose items' ids are the host's from the [n]-th on: its text, then its
    calls, a call without an id by its item's; the reasoning goes to the first of them. *)
Section output.
Context `{Host}.

Fixpoint call_messages (n : nat) (carried : option string) (l : list ToolCall) : list (dict json) :=
  match l with
  | [] => []
  | c :: l =>
      let id := if decide (tool_id c = ""%string) then "fc_" +:+ random_uuid n else tool_id c in
      call_message (JStr id) (JStr (tool_name c)) (JStr (tool_arguments c)) carried :: call_messages (S n) None l
  end.
Definition assistant_messages (n : nat) (parsed : ParsedChatOutput) : list (dict json) :=
  let r := nonempty (p_reasoning parsed) in
  let n := if r is Some _ then S n else n in
  match nonempty (p_content parsed) with
  | Some text => ([("role", JStr "assistant"); ("content", JStr text)]%string ++ with_reasoning r)
                 :: call_messages (S n) None (p_tool_calls parsed)
  | None => call_messages n r (p_tool_calls parsed)
  end.
End output.

(** Each call says what it calls. *)
Definition all_named (l : list ToolCall) : bool := forallb (λ c, negb (bool_decide (tool_name c = ""%string))) l.
Definition unnamed : exn := unsupported "function_call input items require both 'call_id' (or 'id') and 'name'.".

Lemma nonempty_text o t : nonempty o = Some t → nonempty (Some t) = Some t.
Proof. destruct o as [[|a s]|]; [done| |done]. by intros [= <-]. Qed.

Lemma call_comes_back nested (rest : translation → res translation) id cid name args st s :
  item_to_chat nested (JObj (dump (FunctionCall (mkCall ("fc_" +:+ id) cid name args st)))) s ≫= rest =
    if decide (name = ""%string) then Err unnamed
    else
      let id := if decide (cid = ""%string) then "fc_" +:+ id else cid in
      rest (mkTr (messages s ++ [call_message (JStr id) (JStr name) (JStr args) (carried s)])
              (JStr id :: seen_call_ids s) None (system_parts s)).
Proof. by destruct cid, name. Qed.

Lemma calls_come_back `{Host} nested n l s :
  ∃ seen, items_to_chat nested (JObj ∘ dump <$> call_items n l) s =
    if all_named l
    then Ok (mkTr (messages s ++ call_messages n (carried s) l) seen (if l is [] then carried s else None) (system_parts s))
    else Err unnamed.
Proof.
  induction l as [|c l IH] in n, s |- *.
  - exists (seen_call_ids s). cbn. rewrite app_nil_r. by destruct s.
  - cbn [call_items fmap list_fmap items_to_chat call_messages all_named forallb].
    change ((JObj ∘ dump) (FunctionCall ?a)) with (JObj (dump (FunctionCall a))).
    setoid_rewrite call_comes_back. case_decide as Hn; [rewrite bool_decide_true by done; by exists []|].
    rewrite bool_decide_false by done. set (id := if decide (tool_id c = ""%string) then _ else _).
    destruct (IH (S n) (mkTr (messages s ++ [call_message (JStr id) (JStr (tool_name c)) (JStr (tool_arguments c)) (carried s)])
      (JStr id :: seen_call_ids s) None (system_parts s))) as [seen' E].
    exists seen'. cbn beta zeta. rewrite E. change (forallb _ l) with (all_named l). cbn [negb andb].
    destruct (all_named l); [|done].
    cbn. rewrite <-app_assoc. by destruct l.
Qed.

Lemma reasoning_comes_back nested id text s :
  nonempty (Some text) = Some text →
  item_to_chat nested (JObj (dump (Reasoning (mkReasoning id [text])))) s =
    Ok (mkTr (messages s) (seen_call_ids s) (Some text) (system_parts s)).
Proof. intros E. destruct text; [done|]. reflexivity. Qed.

Lemma message_comes_back nested id text s :
  item_to_chat nested (JObj (dump (Message (mkMessage id "completed" [text])))) s =
    Ok (mkTr (messages s ++ [[("role", JStr "assistant"); ("content", JStr text)]%string ++ with_reasoning (carried s)])
          (seen_call_ids s) None (system_parts s)).
Proof. by destruct text. Qed.


(** ** Compaction *)

(** A compaction stands for the items that were compacted: where Fernet gives back what it was given, and floats are read as they were written,
    a conversation's history that starts with the blob of [build_compaction] makes the same messages, and the
    same system text, as one that starts with the items themselves. *)
Theorem compaction_stands_for_items id items parts :
  unseal (seal (dumps (JList items))) = Some (dumps (JList items)) →
  JsonFacts.text_ok (JList items) →
  encrypt_items items ≠ ""%string →
  existsb is_compaction items = false →
  messages_from_items DEPTH (JObj <$> build_compaction id items) parts = messages_from_items DEPTH items parts.
Proof.
  intros Hseal Htext Hne Hno. pose proof (JsonFacts.loads_dumps _ Htext) as Hloads. unfold DEPTH. cbn [messages_from_items build_compaction fmap list_fmap items_to_chat].
  assert (∀ nested s, item_to_chat nested (JObj (CompactionItem id (encrypt_items items))) s =
    r ← nested items (system_parts s); Ok (mkTr (messages s ++ r.1) (seen_call_ids s) None r.2)) as ->.
  { intros nested s. transitivity (compaction nested (CompactionItem id (encrypt_items items))
      (mkTr (messages s) (seen_call_ids s) None (system_parts s))); [done|]. unfold compaction.
    change (field "encrypted_content" _) with (JStr (encrypt_items items)).
    replace (Json.truthy (JStr (encrypt_items items))) with true by (by destruct (encrypt_items items)).
    cbn [negb]. unfold decrypt_items, encrypt_items. rewrite Hseal, Hloads. cbn [mbind res_bind]. by rewrite Hno. }
  rewrite (no_blob_nested _ (messages_from_items 1)) by done.
  cbn. destruct (items_to_chat _ items _) as [s|]; done.
Qed.

(** The request that summarizes a conversation can have more than one system message: the prompt comes first
    and a caller's instructions second, and the conversation's own system text, merged into one message,
    third; strict templates refuse that. *)
Theorem summarization_repeats_system prompt model items instructions i kwargs :
  build_summarization_request prompt model items instructions = Ok kwargs → nonempty instructions = Some i →
  ∃ ms, field "messages" kwargs = JList (JObj <$> ms) ∧
    is_system <$> ms !! 0%nat = Some true ∧ is_system <$> ms !! 1%nat = Some true.
Proof.
  unfold build_summarization_request, ChatCompletionRequest. intros Hr Hi. rewrite Hi in Hr.
  apply res_bind_ok in Hr as (ms & _ & Hr). apply res_bind_ok in Hr as ([] & _ & Hr).
  apply res_bind_ok in Hr as ([] & _ & [= <-]).
  exists (system_message prompt :: system_message i :: ms). by split.
Qed.
End theorems.

(** ** Examples *)

Module Examples.
(** A key that leaves the text as it is. *)
Definition summary : list json := summary_items "We rolled a four.".
Definition plain : Outside := {|
  repr _ := "?"%string;
  seal s := s;
  unseal s := Some s;
  outside_floats := no_floats;
  check_fields _ := Ok tt
|}.
Definition counted : Host := {| Streaming.random_uuid := pretty; now n := Z.of_nat n |}.

Definition item_of_type (ty : string) (fields : dict json) : json := JObj (("type"%string, JStr ty) :: fields).
Definition turn : list json :=
  [JObj [("role", JStr "developer"); ("content", JStr "Be brief.")];
   item_of_type "compaction" [("encrypted_content", JStr (encrypt_items (H := plain) summary))];
   JObj [("role", JStr "user"); ("content", JStr "Again.")];
   item_of_type "reasoning" [("summary", JList [summary_text "Roll it."])];
   item_of_type "function_call" [("call_id", JStr "c1"); ("name", JStr "roll"); ("arguments", JStr "{}")];
   item_of_type "function_call_output" [("call_id", JStr "c1"); ("output", JStr "6")]]%string.
Definition turn_messages : list (dict json) :=
  [system_message (Str.join newline2 ["You play dice."; "Be brief."]);
   [("role", JStr "assistant"); ("content", JStr "We rolled a four.")];
   user_message "Again.";
   call_message (JStr "c1") (JStr "roll") (JStr "{}") (Some "Roll it.");
   tool_message (JStr "c1") (Some "6")]%string.

Lemma messages_well_ordered_witness :
  messages_from_input (H := plain) (inr turn) (JStr "You play dice.") = Ok turn_messages ∧
  (∀ i m, turn_messages !! i = Some m → is_system m = true → i = 0%nat) ∧ answered turn_messages.
Proof.
  assert (messages_from_input (H := plain) (inr turn) (JStr "You play dice.") = Ok turn_messages) as E by (vm_compute; reflexivity).
  split; [exact E|]. exact (messages_well_ordered (H := plain) _ _ _ E).
Defined.

Definition answer : ParsedChatOutput :=
  mkParsed (Some "Rolling."%string) (Some "Roll it."%string) [mkToolCall "c1" "roll" "{}"; mkToolCall "c2" "roll" "{}"].

(** A loader's call without a name can't be continued. *)
Example nameless_call_is_refused :
  messages_from_items (H := plain) DEPTH
    (JObj ∘ dump <$> build_responses_items_from_parsed (H0 := counted) 0 (mkParsed None None [mkToolCall "c1" "" "{}"])) [] =
    Err unnamed.
Proof. vm_compute. reflexivity. Qed.

Example answer_remembered :
  messages_from_items (H := plain) DEPTH (JObj ∘ dump <$> build_responses_items_from_parsed (H0 := counted) 0 answer) [] =
    Ok ([[("role", JStr "assistant"); ("content", JStr "Rolling."); ("reasoning", JStr "Roll it.")];
         call_message (JStr "c1") (JStr "roll") (JStr "{}") None;
         call_message (JStr "c2") (JStr "roll") (JStr "{}") None], [])%string.
Proof. vm_compute. reflexivity. Qed.

Lemma compaction_stands_for_items_witness :
  messages_from_items (H := plain) DEPTH (JObj <$> build_compaction (H := plain) "cmp_1" summary) [] =
    messages_from_items (H := plain) DEPTH summary [].
Proof.
  apply (compaction_stands_for_items (H := plain) "cmp_1" summary []);
    [reflexivity|by apply JsonFacts.plain_text_ok|discriminate|reflexivity].
Defined.

Lemma summarization_repeats_system_witness :
  ∃ kwargs ms, build_summarization_request (H := plain) "Summarize." "m" turn (Some "In French."%string) = Ok kwargs ∧
    field "messages" kwargs = JList (JObj <$> ms) ∧
    is_system <$> ms !! 0%nat = Some true ∧ is_system <$> ms !! 1%nat = Some true.
Proof.
  destruct (build_summarization_request (H := plain) "Summarize." "m" turn (Some "In French."%string)) as [kwargs|e] eqn:E;
    [|exfalso; vm_compute in E; discriminate E].
  destruct (summarization_repeats_system (H := plain) _ _ _ _ "In French." kwargs E eq_refl) as (ms & Hms).
  exists kwargs, ms. split; [reflexivity|exact Hms].
Defined.
End Examples.
