(* ===== verification/ChatMessages.v ===== *)
(** * Messages for strict backends

    [src/modelship/openai/utils/chat.py]: a chat request's messages validated and brought to the shape that
    a backend's chat template takes, and a chat completion built from parsed choices. *)

From S2P Require Import Prelude ResponsesState McpPolicy ResponseObjects Streaming JsonText ChatTranslation.
Local Open Scope Z_scope.

(** [_TEXT_TYPES], [_IMAGE_TYPES], [_AUDIO_TYPES] *)
Definition TEXT_TYPES : list string := ["text"; "input_text"; "output_text"; "refusal"; "thinking"]%string.
Definition IMAGE_TYPES : list string := ["image_url"; "input_image"]%string.
Definition AUDIO_TYPES : list string := ["input_audio"; "audio_url"]%string.

(** [_tool_name_by_call_id] *)
Definition call_name (call : json) : option (string * string) :=
  match call with
  | JObj d =>
      match field "id" d, field "function" d with
      | JStr call_id, JObj fn => if field "name" fn is JStr name then Some (call_id, name) else None
      | _, _ => None
      end
  | _ => None
  end.
Definition tool_name_by_call_id (messages : list (dict json)) : dict string :=
  foldl (λ mapping msg,
    if is_str "assistant" (field "role" msg) then
      if field "tool_calls" msg is JList calls
      then foldl (λ mapping kn, Dict.set kn.1 kn.2 mapping) mapping (omap call_name calls)
      else mapping
    else mapping) [] messages.

Section messages.
Context `{Outside} (supports_image supports_audio : bool).

Definition at_message (idx : nat) (msg : string) : exn :=
  unsupported_content ("messages[" +:+ pretty idx +:+ "].content: " +:+ msg).

Definition text_part (text : string) : dict json := [("type", JStr "text"); ("text", JStr text)]%string.

(** A non-empty text *)
Definition filled (v : json) : bool := if v is JStr _ then Json.truthy v else false.

Definition validate_text (idx : nat) (ptype : json) (d : dict json) : res (option (dict json)) :=
  let key := if ptype is JStr k then k else ""%string in
  match py_or (field "text" d) (field key d) with
  | JNull => Ok None
  | JStr text => Ok (Some (text_part text))
  | _ => Err (at_message idx (repr ptype +:+ " part must carry string content"))
  end.

Definition validate_image (idx : nat) (ptype : json) (d : dict json) : res (option (dict json)) :=
  if negb supports_image then Err (at_message idx "this model does not support image input")
  else
    let img := field "image_url" d in
    match img with
    | JNull => Ok None
    | JStr _ | JObj _ =>
        let '(url, detail) := match img with
          | JObj i => (field "url" i, field "detail" i)
          | _ => (img, field "detail" d)
          end in
        if negb (filled url)
        then Err (at_message idx (repr ptype +:+ ".url must be a non-empty string (http(s) URL or data: URI)"))
        else if is_str "image_url" ptype && (if img is JObj _ then true else false) then Ok (Some d)
        else Ok (Some [("type", JStr "image_url");
                       ("image_url", JObj (("url", url) :: if detail is JStr _ then [("detail", detail)] else []))]%string)
    | _ => Err (at_message idx (repr ptype +:+ " must be a URL string or an object with a 'url' field"))
    end.

Definition validate_audio (idx : nat) (ptype : json) (d : dict json) : res (option (dict json)) :=
  if negb supports_audio then Err (at_message idx "this model does not support audio input")
  else if is_str "audio_url" ptype then
    match field "audio_url" d with
    | JNull => Ok None
    | audio =>
        let url := match audio with JStr _ => audio | JObj a => field "url" a | _ => JNull end in
        if negb (filled url) then Err (at_message idx "'audio_url.url' must be a non-empty string") else Ok (Some d)
    end
  else
    match field "input_audio" d with
    | JNull => Ok None
    | audio =>
        let ok := match audio with
          | JObj a => match field "data" a, field "format" a with JStr _, JStr _ => true | _, _ => false end
          | _ => false
          end in
        if negb ok
        then Err (at_message idx "'input_audio' must be an object with string 'data' and 'format' fields")
        else Ok (Some d)
    end.

(** [_validate_part] *)
Definition validate_part (part : json) (idx : nat) : res (option (dict json)) :=
  match part with
  | JStr text => Ok (Some (text_part text))
  | JObj d =>
      match field "type" d with
      | JNull => Err (at_message idx "part is missing required 'type' field")
      | ptype =>
          ptype ← hashable ptype;
          if one_of TEXT_TYPES ptype then validate_text idx ptype d
          else if one_of IMAGE_TYPES ptype then validate_image idx ptype d
          else if one_of AUDIO_TYPES ptype then validate_audio idx ptype d
          else Err (at_message idx ("unsupported content part type " +:+ repr ptype))
      end
  | _ => Err (at_message idx ("each part must be an object or string, got " +:+ type_name part))
  end.

(** A message: its name backfilled, and its content. *)
Definition named_message (tool_names : dict string) (msg : dict json) : dict json :=
  if is_str "tool" (field "role" msg) && negb (Json.truthy (field "name" msg)) then
    match (if field "tool_call_id" msg is JStr i then Dict.get i tool_names else None) with
    | Some (String _ _ as name) => Dict.set "name" (JStr name) msg
    | _ => msg
    end
  else msg.

Definition text_of_part (p : dict json) : string := if field "text" p is JStr t then t else "".

Definition newline1 : string := String "010" "".

Definition normalize_message (tool_names : dict string) (idx : nat) (msg : dict json) : res (dict json) :=
  let out := named_message tool_names msg in
  match field "content" msg with
  | JList content =>
      parts ← res_mapM (λ p, validate_part p idx) content;
      let validated := omap id parts in
      Ok (Dict.set "content"
            (if forallb (type_is "text") validated then JStr (Str.join newline1 (text_of_part <$> validated))
             else JList (JObj <$> validated)) out)
  | _ => Ok out
  end.

(** [normalize_chat_messages] *)
Definition normalize_chat_messages (messages : list (dict json)) : res (list (dict json)) :=
  let tool_names := tool_name_by_call_id messages in
  res_mapM (λ im, normalize_message tool_names im.1 im.2) (imap pair messages).
End messages.

(** ** A chat completion ([build_from_parsed]) *)

(** [ChatMessage], [ChatCompletionResponseChoice] and [ChatCompletionResponse], as they are filled here;
    logprobs are left out. *)
Record ChatChoice : Type := mkChatChoice { cc_index : nat; cc_parsed : ParsedChatOutput; cc_finish : option string }.
Record ChatCompletionResponse : Type := mkCompletion {
  cr_id : string;
  cr_model : string;
  cr_choices : list ChatChoice;
  cr_usage : UsageInfo;
  cr_created : Z;
}.

(** The finish reasons as they are given: for each choice, for all of them, or not at all. *)
Inductive finish_reasons : Type := Each (l : list (option string)) | All (reason : string) | Unsaid.

Definition finish_of (given : finish_reasons) (idx : nat) (parsed : ParsedChatOutput) : option string :=
  let own := Some (if p_tool_calls parsed is [] then "stop" else "tool_calls")%string in
  match given with
  | Each l => default own (l !! idx)
  | All reason => Some reason
  | Unsaid => own
  end.

Definition build_from_parsed (request_id model_name : string) (choices : list ParsedChatOutput) (usage : UsageInfo)
    (given : finish_reasons) (created : Z) : ChatCompletionResponse :=
  mkCompletion request_id model_name
    (imap (λ idx parsed, mkChatChoice idx parsed (finish_of given idx parsed)) choices) usage created.

(** ** Theorems *)

Section theorems.
Context `{Outside} (supports_image supports_audio : bool).
Notation validate := (validate_part supports_image supports_audio).

#[local] Arguments filled : simpl never.

(** A part that was validated, as it is kept. *)
Definition kept_part (p : dict json) (idx : nat) : Prop := validate (JObj p) idx = Ok (Some p).

Lemma validate_type d idx ty : field "type" d = JStr ty →
  validate (JObj d) idx =
    if one_of TEXT_TYPES (JStr ty) then validate_text idx (JStr ty) d
    else if one_of IMAGE_TYPES (JStr ty) then validate_image supports_image idx (JStr ty) d
    else if one_of AUDIO_TYPES (JStr ty) then validate_audio supports_audio idx (JStr ty) d
    else Err (at_message idx ("unsupported content part type " +:+ repr (JStr ty))).
Proof. intros Hty. cbn [validate_part]. by rewrite Hty. Qed.

Lemma kept_text idx text : kept_part (text_part text) idx.
Proof. unfold kept_part. rewrite (validate_type _ _ "text") by done. by destruct text. Qed.

Lemma kept_image idx d i :
  supports_image = true → field "type" d = JStr "image_url" → field "image_url" d = JObj i →
  filled (field "url" i) = true → kept_part d idx.
Proof.
  intros Es Hty Hi Hf. unfold kept_part. rewrite (validate_type _ _ _ Hty).
  change (validate_image supports_image idx (JStr "image_url") d = Ok (Some d)).
  unfold validate_image. rewrite Es, Hi. cbn [negb]. by rewrite Hf.
Qed.

Lemma text_kept idx ptype d p : validate_text idx ptype d = Ok (Some p) → ∃ text, p = text_part text.
Proof. unfold validate_text. case_match; try done. intros [= <-]. by eexists. Qed.

Lemma one_of_elem l v : one_of l v = true → ∃ s, s ∈ l ∧ v = JStr s.
Proof.
  intros (s & Hs%list_elem_of_In & Hv)%existsb_exists. exists s. split; [done|].
  unfold is_str in Hv. destruct v; try done. cbn in Hv. by apply bool_decide_eq_true in Hv as ->.
Qed.

Lemma image_kept idx ptype d p :
  field "type" d = ptype → one_of IMAGE_TYPES ptype = true →
  validate_image supports_image idx ptype d = Ok (Some p) → kept_part p idx ∧ type_is "text" p = false.
Proof.
  intros Hty (ty & Hin & ->)%one_of_elem. unfold validate_image. destruct supports_image eqn:Es; [|done]. cbn [negb].
  destruct (field "image_url" d) as [| | | |u| |i] eqn:Ei; try done.
  - destruct (filled (JStr u)) eqn:Ef; [|done]. cbn [negb]. rewrite andb_false_r. intros [= <-]. split; [|done].
    by eapply kept_image.
  - destruct (filled (field "url" i)) eqn:Ef; [|done]. cbn [negb]. rewrite andb_true_r.
    destruct (is_str "image_url" (JStr ty)) eqn:Eurl; intros [= <-].
    + apply bool_decide_eq_true in Eurl as ->. split; [by eapply kept_image|by unfold type_is; rewrite Hty].
    + split; [|done]. by eapply kept_image.
Qed.

Lemma audio_kept idx ptype d p :
  field "type" d = ptype → one_of AUDIO_TYPES ptype = true →
  validate_audio supports_audio idx ptype d = Ok (Some p) → kept_part p idx ∧ type_is "text" p = false.
Proof.
  intros Hty (ty & Hin & ->)%one_of_elem Hv.
  assert (p = d) as ->.
  { unfold validate_audio in Hv. destruct supports_audio; [|done]. repeat case_match; simplify_eq; done. }
  split; [|unfold type_is; rewrite Hty; set_solver].
  unfold kept_part. rewrite (validate_type _ _ _ Hty).
  assert (one_of TEXT_TYPES (JStr ty) = false ∧ one_of IMAGE_TYPES (JStr ty) = false ∧ one_of AUDIO_TYPES (JStr ty) = true)
    as (-> & -> & ->); [|done].
  unfold AUDIO_TYPES in Hin. rewrite !elem_of_cons in Hin. destruct Hin as [->|[->|[]%not_elem_of_nil]]; by vm_compute.
Qed.
Lemma validated_kept part idx p : validate part idx = Ok (Some p) →
  kept_part p idx ∧ (supports_image = false → supports_audio = false → type_is "text" p = true).
Proof.
  destruct part as [| | | |text| |d]; try done.
  { intros [= <-]. split; [apply kept_text|done]. }
  cbn [validate_part]. destruct (field "type" d) as [| | | |ty| |] eqn:Ety; try done. cbn [hashable mbind res_bind].
  destruct (one_of TEXT_TYPES _) eqn:E1.
  { intros [text ->]%text_kept. split; [apply kept_text|done]. }
  destruct (one_of IMAGE_TYPES _) eqn:E2.
  { intros Hv. split; [by eapply image_kept|]. intros Ei _. unfold validate_image in Hv. by rewrite Ei in Hv. }
  destruct (one_of AUDIO_TYPES _) eqn:E3; [|done].
  intros Hv. split; [by eapply audio_kept|]. intros _ Ea. unfold validate_audio in Hv. by rewrite Ea in Hv.
Qed.

(** *** Messages *)

Lemma set_id {V} k (v : V) d : Dict.get k d = Some v → Dict.set k v d = d.
Proof.
  induction d as [|[k' v'] d IH]; cbn; [done|]. case_decide; [by intros [= ->]|]. intros Hg. by rewrite IH.
Qed.

Lemma field_set_ne k k' v (d : dict json) : k ≠ k' → field k (Dict.set k' v d) = field k d.
Proof. intros. unfold field. by rewrite Dict.get_set_ne. Qed.
Lemma field_set_eq k v (d : dict json) : field k (Dict.set k v d) = v.
Proof. unfold field. by rewrite Dict.get_set_eq. Qed.

(** What [named_message] looks at, and leaves. *)
Lemma named_field names msg k : k ≠ "name"%string → field k (named_message names msg) = field k msg.
Proof. intros. unfold named_message. repeat case_match; try done; by apply field_set_ne. Qed.

Lemma named_idem names msg msg' :
  (∀ k, k ∈ ["role"; "name"; "tool_call_id"]%string → field k msg' = field k (named_message names msg)) →
  named_message names msg' = msg'.
Proof.
  intros Hf. pose proof (Hf "role"%string ltac:(set_solver)) as Hr. pose proof (Hf "tool_call_id"%string ltac:(set_solver)) as Hi.
  pose proof (Hf "name"%string ltac:(set_solver)) as Hn. rewrite named_field in Hr, Hi by done.
  unfold named_message in *. rewrite Hr, Hi, Hn. clear Hr Hi Hn Hf.
  destruct (is_str "tool" (field "role" msg) && negb (Json.truthy (field "name" msg))) eqn:E.
  - apply andb_true_iff in E as [-> Hn]. cbn [andb].
    destruct (match field "tool_call_id" msg with JStr _ => _ | _ => _ end) as [[|a n]|]; [by rewrite Hn| |by rewrite Hn].
    by rewrite field_set_eq.
  - by rewrite E.
Qed.

Lemma res_mapM_kept parts idx : Forall (λ p, kept_part p idx) parts →
  res_mapM (λ p, validate p idx) (JObj <$> parts) = Ok (Some <$> parts).
Proof. induction 1 as [|p parts Hp _ IH]; [done|]. cbn [fmap list_fmap res_mapM]. rewrite Hp. cbn. by rewrite IH. Qed.

Lemma omap_id_some {A} (l : list A) : omap id (Some <$> l) = l.
Proof. induction l as [|a l IH]; [done|]. cbn. by rewrite IH. Qed.

Lemma mapM_kept content idx parts : res_mapM (λ p, validate p idx) content = Ok parts →
  Forall (λ p, kept_part p idx ∧ (supports_image = false → supports_audio = false → type_is "text" p = true)) (omap id parts).
Proof.
  rewrite res_mapM_ok. induction 1 as [|part [p|] content parts Hp _ IH]; [constructor| |done].
  cbn. constructor; [by eapply validated_kept|done].
Qed.

(** A message that was normalized stays as it is. *)
Lemma normalize_message_again names idx msg out :
  normalize_message supports_image supports_audio names idx msg = Ok out →
  normalize_message supports_image supports_audio names idx out = Ok out ∧
  (∀ k, k ∈ ["role"; "tool_calls"]%string → field k out = field k msg) ∧
  (supports_image = false → supports_audio = false → ∀ l, field "content" out ≠ JList l).
Proof.
  intros Hm.
  assert (∀ v, named_message names (Dict.set "content" v (named_message names msg)) = Dict.set "content" v (named_message names msg)) as Hset.
  { intros v. apply (named_idem _ msg). intros k Hk. apply field_set_ne. set_solver. }
  assert (∀ v k, k ∈ ["role"; "tool_calls"]%string → field k (Dict.set "content" v (named_message names msg)) = field k msg) as Hkeep.
  { intros v k Hk. rewrite field_set_ne by set_solver. apply named_field. set_solver. }
  assert (named_message names msg = out → (∀ l, field "content" msg ≠ JList l) → normalize_message supports_image supports_audio names idx out = Ok out ∧
    (∀ k, k ∈ ["role"; "tool_calls"]%string → field k out = field k msg) ∧ (∀ l, field "content" out ≠ JList l)) as Hother.
  { intros <- Hl. assert (field "content" (named_message names msg) = field "content" msg) as Ec by (by apply named_field).
    split; [|split; [|by rewrite Ec]].
    - unfold normalize_message. rewrite Ec, (named_idem _ msg _ (λ _ _, eq_refl)). destruct (field "content" msg); try done. by destruct (Hl l).
    - intros k Hk. apply named_field. set_solver. }
  unfold normalize_message in Hm. destruct (field "content" msg) as [| | | | |content|] eqn:Ec;
    try (injection Hm as Hm; destruct (Hother Hm) as (? & ? & ?); [done|]; by split_and!).
  apply res_bind_ok in Hm as (parts & Hparts%mapM_kept & [= <-]). split; [|split; [apply Hkeep|]].
  - unfold normalize_message. rewrite Hset, field_set_eq.
    destruct (forallb (type_is "text") (omap id parts)) eqn:Et; [done|].
    rewrite res_mapM_kept by (eapply Forall_impl; [exact Hparts|by intros ? []]). cbn [mbind res_bind].
    rewrite omap_id_some, Et. f_equal. apply set_id. rewrite Dict.get_set_eq. done.
  - intros Ei Ea l. rewrite field_set_eq. replace (forallb (type_is "text") (omap id parts)) with true; [done|].
    symmetry. apply forallb_forall. intros p Hp%list_elem_of_In. rewrite Forall_forall in Hparts. by apply Hparts.
Qed.

Lemma names_same ms out :
  Forall2 (λ m o, ∀ k, k ∈ ["role"; "tool_calls"]%string → field k o = field k m) ms out →
  tool_name_by_call_id out = tool_name_by_call_id ms.
Proof.
  unfold tool_name_by_call_id. intros Hf. generalize (@nil (string * string)).
  induction Hf as [|m o ms out Hk _ IH]; intros acc; [done|]. cbn [foldl].
  rewrite !Hk by set_solver. apply IH.
Qed.

Lemma normalized_each names ms out n :
  res_mapM (λ im, normalize_message supports_image supports_audio names im.1 im.2) (imap (λ i m, (n + i, m)%nat) ms) = Ok out →
  res_mapM (λ im, normalize_message supports_image supports_audio names im.1 im.2) (imap (λ i m, (n + i, m)%nat) out) = Ok out ∧
  Forall2 (λ m o, ∀ k, k ∈ ["role"; "tool_calls"]%string → field k o = field k m) ms out ∧
  (supports_image = false → supports_audio = false → Forall (λ m, ∀ l, field "content" m ≠ JList l) out).
Proof.
  induction ms as [|m ms IH] in n, out |- *; cbn; [intros [= <-]; by repeat constructor|].
  intros (o & Ho & (out' & Hout & [= <-])%res_bind_ok)%res_bind_ok.
  assert (imap ((λ i m, (n + i, m)%nat) ∘ S) ms = imap (λ i m, (S n + i, m)%nat) ms) as E.
  { apply imap_ext. intros. cbn. f_equal. lia. }
  rewrite E in Hout. destruct (IH _ _ Hout) as (H1 & H2 & H3).
  destruct (normalize_message_again _ _ _ _ Ho) as (Ho1 & Ho2 & Ho3). split; [|split].
  - cbn [imap res_mapM]. cbn [fst snd]. rewrite Ho1. cbn [mbind res_bind].
    assert (imap ((λ i m, (n + i, m)%nat) ∘ S) out' = imap (λ i m, (S n + i, m)%nat) out') as ->.
    { apply imap_ext. intros. cbn. f_equal. lia. }
    by rewrite H1.
  - by constructor.
  - intros Ei Ea. constructor; auto.
Qed.

(** Normalizing is done once: messages that [normalize_chat_messages] accepted come out of it as they are, whatever
    the backend supports; and what a backend that takes only text is given has no content but strings: every
    image or sound in the messages was refused, and lists of texts were joined. *)
Theorem normalize_once messages out :
  normalize_chat_messages supports_image supports_audio messages = Ok out →
  normalize_chat_messages supports_image supports_audio out = Ok out ∧
  (supports_image = false → supports_audio = false → Forall (λ m, ∀ l, field "content" m ≠ JList l) out).
Proof.
  unfold normalize_chat_messages. intros Hout. change (imap pair ?l) with (imap (λ i m, (0 + i, m)%nat) l) in *.
  destruct (normalized_each _ _ _ _ Hout) as (H1 & H2 & H3). split; [|done]. by rewrite (names_same _ _ H2).
Qed.
End theorems.

(** ** Examples *)

Module Examples.
Definition plain : Outside := {|
  repr _ := "?"%string; seal s := s; unseal s := Some s; outside_floats := no_floats; check_fields _ := Ok tt
|}.
Definition asked : list (dict json) :=
  [[("role", JStr "user"); ("content", JList [JStr "What"; JObj [("type", JStr "input_text"); ("text", JStr "now?")]])];
   [("role", JStr "assistant"); ("content", JNull);
    ("tool_calls", JList [JObj [("id", JStr "c1"); ("function", JObj [("name", JStr "roll")])]])];
   [("role", JStr "tool"); ("tool_call_id", JStr "c1"); ("content", JStr "6")]]%string.
Definition normal : list (dict json) :=
  [[("role", JStr "user"); ("content", JStr (Str.join newline1 ["What"; "now?"]))];
   [("role", JStr "assistant"); ("content", JNull);
    ("tool_calls", JList [JObj [("id", JStr "c1"); ("function", JObj [("name", JStr "roll")])]])];
   [("role", JStr "tool"); ("tool_call_id", JStr "c1"); ("content", JStr "6"); ("name", JStr "roll")]]%string.

Lemma normalize_once_witness :
  normalize_chat_messages (H := plain) false false asked = Ok normal ∧
  normalize_chat_messages (H := plain) false false normal = Ok normal ∧
  (false = false → false = false → Forall (λ m, ∀ l, field "content" m ≠ JList l) normal).
Proof.
  assert (normalize_chat_messages (H := plain) false false asked = Ok normal) as E by (vm_compute; reflexivity).
  split; [exact E|]. exact (normalize_once (H := plain) false false asked normal E).
Defined.
End Examples.
