(* ===== verification/McpLoop.v ===== *)
(** * The MCP tool loop

    [src/modelship/openai/mcp/loop.py]: one response of the Responses API built from several turns
    of a loader, with the tool servers' calls made in between. [_events] is an async generator: what
    it yields and what it asks of the servers and the loader is its trace, in order. The answers are
    the [World]'s, as a function of the trace so far. A consumer that stops listening, and the
    cancelling of a loader's stream then, are not modelled. *)

From S2P Require Import Prelude Errors ResponsesState McpPolicy Egress ResponseObjects.
Local Open Scope Z_scope.

(** [DEFAULT_TURN_CAP] *)
Definition DEFAULT_TURN_CAP : nat := 10.

(** ** The world *)

(** The fields of a loader's request that change from turn to turn. *)
Record inner_request : Type := mkInner {
  in_input : list json;
  in_tools : list (dict json);
  in_tool_choice : json;
}.

(** An item of a loader's stream: an [ErrorResponse], an event, or anything else. *)
Inductive inner_event : Type :=
| IError (err : ErrorResponse)
| IEvent (e : dict json)
| IOther.

Inductive action : Type :=
| Yield (e : dict json)
| YieldError (err : ErrorResponse)
| Listed (spec : McpToolSpec)
| Called (spec : McpToolSpec) (name arguments : json)
| Responded (r : inner_request).

(** [list_tools] and [call_tool] of [McpConnections] answer or raise [McpCallError] with a text
    ([inl]); any other exception of [call_tool] is an [Err]. [respond] is the loader's stream, with
    the exception that ends it if one does. *)
Class World : Type := {
  list_tools : list action → McpToolSpec → string + list Tool;
  call_tool : list action → McpToolSpec → json → json → res (string + string);
  respond : list action → inner_request → list inner_event * option exn;
  random_uuid : nat → string;
  time : nat → Z;
  environ : string → option string;
}.

(** ** State *)

Inductive classification : Set := client | mcp | mcp_approval.

#[export] Instance classification_eq_dec : EqDecision classification.
Proof. solve_decision. Defined.

(** [_BufferedCall] *)
Record BufferedCall : Type := mkBuf {
  inner_item_id : json;
  b_class : option classification;
  raw_events : list (dict json);
  abs_oi : option Z;
  outer_id : option string;
  b_name : json;
  b_arguments : json;
  b_entry : option (McpToolSpec * Tool);
}.

Definition new_buf (id : json) (event : dict json) : BufferedCall :=
  mkBuf id None [event] None None (JStr "") (JStr "") None.
Definition set_class (c : classification) (e : option (McpToolSpec * Tool)) (b : BufferedCall) : BufferedCall :=
  mkBuf (inner_item_id b) (Some c) (raw_events b) (abs_oi b) (outer_id b) (b_name b) (b_arguments b) e.
Definition set_raw (l : list (dict json)) (b : BufferedCall) : BufferedCall :=
  mkBuf (inner_item_id b) (b_class b) l (abs_oi b) (outer_id b) (b_name b) (b_arguments b) (b_entry b).
Definition set_abs_oi (n : Z) (b : BufferedCall) : BufferedCall :=
  mkBuf (inner_item_id b) (b_class b) (raw_events b) (Some n) (outer_id b) (b_name b) (b_arguments b) (b_entry b).
Definition set_outer_id (i : string) (b : BufferedCall) : BufferedCall :=
  mkBuf (inner_item_id b) (b_class b) (raw_events b) (abs_oi b) (Some i) (b_name b) (b_arguments b) (b_entry b).
Definition set_b_name (n : json) (b : BufferedCall) : BufferedCall :=
  mkBuf (inner_item_id b) (b_class b) (raw_events b) (abs_oi b) (outer_id b) n (b_arguments b) (b_entry b).
Definition set_b_arguments (a : json) (b : BufferedCall) : BufferedCall :=
  mkBuf (inner_item_id b) (b_class b) (raw_events b) (abs_oi b) (outer_id b) (b_name b) a (b_entry b).

Notation tool_index_t := (dict (McpToolSpec * Tool)).

(** A [Stitcher], the loop's [accumulator], and what was drawn and done so far. A buffered call is an
    object that [buffers] and [pending] share: they hold its place in [heap]. *)
Record st : Type := mkSt {
  seq : Z;
  offset : Z;
  tool_index : tool_index_t;
  usage_total : option Usage;
  heap : list BufferedCall;
  buffers : list (json * nat);
  pending : list nat;
  had_client : bool;
  turn_output : list (Z * dict json);
  inner_error : option ErrorResponse;
  inner_failed : option json;
  accumulator : list (dict json);
  draws : nat;
  trace : list action;
}.

Definition start : st := mkSt 0 0 [] None [] [] [] false [] None None [] 0 [].

Definition with_seq n s := mkSt n (offset s) (tool_index s) (usage_total s) (heap s) (buffers s) (pending s)
  (had_client s) (turn_output s) (inner_error s) (inner_failed s) (accumulator s) (draws s) (trace s).
Definition with_offset n s := mkSt (seq s) n (tool_index s) (usage_total s) (heap s) (buffers s) (pending s)
  (had_client s) (turn_output s) (inner_error s) (inner_failed s) (accumulator s) (draws s) (trace s).
Definition with_index d s := mkSt (seq s) (offset s) d (usage_total s) (heap s) (buffers s) (pending s)
  (had_client s) (turn_output s) (inner_error s) (inner_failed s) (accumulator s) (draws s) (trace s).
Definition with_usage u s := mkSt (seq s) (offset s) (tool_index s) u (heap s) (buffers s) (pending s)
  (had_client s) (turn_output s) (inner_error s) (inner_failed s) (accumulator s) (draws s) (trace s).
Definition with_calls h b p s := mkSt (seq s) (offset s) (tool_index s) (usage_total s) h b p
  (had_client s) (turn_output s) (inner_error s) (inner_failed s) (accumulator s) (draws s) (trace s).
Definition with_output c o s := mkSt (seq s) (offset s) (tool_index s) (usage_total s) (heap s) (buffers s) (pending s)
  c o (inner_error s) (inner_failed s) (accumulator s) (draws s) (trace s).
Definition with_failure e f s := mkSt (seq s) (offset s) (tool_index s) (usage_total s) (heap s) (buffers s) (pending s)
  (had_client s) (turn_output s) e f (accumulator s) (draws s) (trace s).
Definition with_accumulator a s := mkSt (seq s) (offset s) (tool_index s) (usage_total s) (heap s) (buffers s) (pending s)
  (had_client s) (turn_output s) (inner_error s) (inner_failed s) a (draws s) (trace s).
Definition with_draws n s := mkSt (seq s) (offset s) (tool_index s) (usage_total s) (heap s) (buffers s) (pending s)
  (had_client s) (turn_output s) (inner_error s) (inner_failed s) (accumulator s) n (trace s).
Definition with_trace t s := mkSt (seq s) (offset s) (tool_index s) (usage_total s) (heap s) (buffers s) (pending s)
  (had_client s) (turn_output s) (inner_error s) (inner_failed s) (accumulator s) (draws s) t.

(** ** Generators: a value, an exception, or the generator's [return] *)

Inductive outcome (A : Type) : Type :=
| Value (a : A)
| Raised (e : exn)
| Returned.
Arguments Value {A} a.
Arguments Raised {A} e.
Arguments Returned {A}.

Definition gen (A : Type) : Type := st → st * outcome A.

#[export] Instance gen_ret : MRet gen := λ A a s, (s, Value a).
#[export] Instance gen_bind : MBind gen := λ A B f m s,
  match m s with
  | (s, Value a) => f a s
  | (s, Raised e) => (s, Raised e)
  | (s, Returned) => (s, Returned)
  end.

Definition lift {A} (r : res A) : gen A := λ s, (s, match r with Ok a => Value a | Err e => Raised e end).
Definition get {A} (f : st → A) : gen A := λ s, (s, Value (f s)).
Definition modify (f : st → st) : gen unit := λ s, (f s, Value tt).
Definition return_ {A} : gen A := λ s, (s, Returned).
Definition act (a : action) : gen unit := modify (λ s, with_trace (trace s ++ [a]) s).
Definition draw : gen nat := λ s, (with_draws (S (draws s)) s, Value (draws s)).

Fixpoint for_each {A} (body : A → gen unit) (l : list A) : gen unit :=
  match l with [] => mret tt | x :: l => _ ← body x; for_each body l end.

(** A loop that a body may [break] out of, with [false]. *)
Fixpoint while_each {A} (body : A → gen bool) (l : list A) : gen bool :=
  match l with
  | [] => mret true
  | x :: l => go ← body x; if (go : bool) then while_each body l else mret false
  end.

Section loop.
Context `{SpecReader} `{Envelope} `{World}.

Definition uuid (prefix : string) : gen string := n ← draw; mret (prefix +:+ random_uuid n).
Definition now : gen Z := n ← draw; mret (time n).
Definition yield (e : dict json) : gen unit := act (Yield e).

(** ** [Stitcher] *)

Definition next_seq : gen Z := n ← get seq; _ ← modify (with_seq (n + 1)); mret n.
Definition claim_slot : gen Z := n ← get offset; _ ← modify (with_offset (n + 1)); mret n.

Definition stamped (event_type : string) (output_index : option Z) (payload : dict json) : gen (dict json) :=
  n ← next_seq;
  let out := Dict.update [("type", JStr event_type); ("sequence_number", JInt n)]%string payload in
  mret (if output_index is Some i then Dict.set "output_index" (JInt i) out else out).

(** [v + self._offset]; only integers are modelled. *)
Definition plus_offset (v : json) (n : Z) : res Z :=
  match int_of v with Some i => Ok (i + n) | None => Err (TypeError "unsupported operand type(s) for +") end.

(** [_stamp] *)
Definition restamped (event : dict json) : gen (dict json) :=
  n ← next_seq;
  let out := Dict.set "sequence_number" (JInt n) event in
  match Dict.get "output_index" out with
  | Some v => off ← get offset; i ← lift (plus_offset v off); mret (Dict.set "output_index" (JInt i) out)
  | None => mret out
  end.

Definition send (event_type : string) (output_index : option Z) (payload : dict json) : gen unit :=
  e ← stamped event_type output_index payload; yield e.
Definition forward (event : dict json) : gen unit := e ← restamped event; yield e.

(** A buffered call, by its place in the heap. *)
Definition deref (r : nat) : gen BufferedCall :=
  h ← get heap; lift (match h !! r with Some b => Ok b | None => Err AssertionError end).
Definition update (r : nat) (f : BufferedCall → BufferedCall) : gen unit :=
  modify (λ s, with_calls (alter f r (heap s)) (buffers s) (pending s) s).

(** [_classify] *)
Definition classify (name : json) : gen (classification * option (McpToolSpec * Tool)) :=
  name ← lift (hashable name);
  index ← get tool_index;
  match (if name is JStr n then Dict.get n index else None) with
  | None => mret (client, None)
  | Some (spec, tool) =>
      b ← lift (requires_approval spec tool);
      mret (if (b : bool) then mcp_approval else mcp, Some (spec, tool))
  end.

Definition or_empty (v : option json) : json := default (JStr "") v.

(** [buf.abs_oi] from the first [added] event held back *)
Fixpoint held_slot (raws : list (dict json)) (r : nat) : gen unit :=
  match raws with
  | [] => mret tt
  | raw :: raws =>
      ty ← lift (item "type" raw);
      if Json.eqb ty (JStr "response.output_item.added") then
        v ← lift (item "output_index" raw);
        off ← get offset;
        i ← lift (plus_offset v off);
        update r (set_abs_oi i)
      else held_slot raws r
  end.

(** An event held back for a call that turned out to be the server's, rewritten. *)
Definition flush_mcp_event (r : nat) (spec : McpToolSpec) (id : string) (raw : dict json) : gen unit :=
  ty ← lift (item "type" raw);
  b ← deref r;
  if Json.eqb ty (JStr "response.output_item.added") then
    v ← lift (item "output_index" raw);
    off ← get offset;
    i ← lift (plus_offset v off);
    _ ← update r (set_abs_oi i);
    it ← lift (McpCallItem id (b_name b) (JStr "") (JStr (server_label spec)) JNull None None "in_progress");
    send "response.output_item.added" (Some i) [("item"%string, JObj it)]
  else if Json.eqb ty (JStr "response.function_call_arguments.delta") then
    send "response.mcp_call_arguments.delta" (abs_oi b)
      [("item_id", JStr id); ("delta", or_empty (Dict.get "delta" raw))]%string
  else if Json.eqb ty (JStr "response.function_call_arguments.done") then
    let arguments := or_empty (Dict.get "arguments" raw) in
    _ ← update r (set_b_arguments arguments);
    send "response.mcp_call_arguments.done" (abs_oi b) [("item_id", JStr id); ("arguments", arguments)]%string
  else mret tt.

(** [_flush] *)
Definition flush (r : nat) : gen unit :=
  b ← deref r;
  ce ← classify (b_name b);
  _ ← update r (set_class ce.1 ce.2);
  _ ← match ce with
      | (mcp, Some (spec, _)) =>
          id ← uuid "mcp_";
          _ ← update r (set_outer_id id);
          for_each (flush_mcp_event r spec id) (raw_events b)
      | (mcp_approval, _) => held_slot (raw_events b) r
      | _ => for_each forward (raw_events b)
      end;
  update r (set_raw []).

(** [x.get(k) or {}], for a [.get] on it; [x.get(k) or ""] as a key. *)
Definition dict_of (v : json) : res (dict json) :=
  match py_or v (JObj []) with JObj d => Ok d | _ => Err (OtherError "AttributeError") end.
Definition id_of (v : json) : res json := hashable (py_or v (JStr "")).
Definition find_buffer (id : json) : gen (option nat) := bs ← get buffers; mret (jget id bs).

(** An item of a finished turn's output, at its place. *)
Definition absorb_item (base : Z) (ix : nat * json) : gen unit :=
  d ← lift (match ix.2 with JObj d => Ok d | _ => Err (OtherError "AttributeError") end);
  let at_place := (base + Z.of_nat ix.1, d) in
  if negb (type_is "function_call" d) then
    modify (λ s, with_output (had_client s) (turn_output s ++ [at_place]) s)
  else
    id ← lift (id_of (field "id" d));
    r ← find_buffer id;
    cl ← match r with
         | None => mret true
         | Some r => b ← deref r; mret (bool_decide (b_class b = Some client))
         end;
    if (cl : bool) then modify (λ s, with_output true (turn_output s ++ [at_place]) s) else mret tt.

Definition finish_turn (event : dict json) : gen unit :=
  response ← lift (dict_of (field "response" event));
  u ← lift (match field "usage" response with JNull => Ok None | v => Some <$> validate_usage v end);
  _ ← modify (λ s, with_usage (sum_usage (usage_total s) u) s);
  output ← lift (iter (py_or (field "output" response) (JList [])));
  base ← get offset;
  _ ← for_each (absorb_item base) (imap pair output);
  modify (λ s, with_offset (offset s + Z.of_nat (length output)) s).

Definition call_added (event it : dict json) : gen unit :=
  id ← lift (item "id" it);
  id ← lift (hashable id);
  h ← get heap;
  let r := length h in
  _ ← modify (λ s, with_calls (heap s ++ [new_buf id event]) (jset id r (buffers s)) (pending s) s);
  let name := py_or (field "name" it) (JStr "") in
  if Json.truthy name then _ ← update r (set_b_name name); flush r else mret tt.

(** A piece of a call's arguments: [set] is what it does to the buffered call. *)
Definition arguments_event (event : dict json) (out_type key : string)
    (set : json → BufferedCall → BufferedCall) : gen unit :=
  id ← lift (id_of (field "item_id" event));
  r ← find_buffer id;
  match r with
  | None => mret tt
  | Some r =>
      b ← deref r;
      let v := or_empty (Dict.get key event) in
      match b_class b with
      | None => update r (λ b, set_raw (raw_events b ++ [event]) b)
      | Some client => forward event
      | Some mcp =>
          _ ← update r (set v);
          send out_type (abs_oi b)
            [("item_id"%string, if outer_id b is Some i then JStr i else JNull); (key, v)]
      | Some mcp_approval => update r (set v)
      end
  end.

Definition call_done (event it : dict json) : gen unit :=
  id ← lift (item "id" it);
  id ← lift (hashable id);
  r ← find_buffer id;
  match r with
  | None => lift (Err (KeyError "buffers"))
  | Some r =>
      _ ← update r (λ b, set_b_name (py_or (field "name" it) (b_name b)) b);
      b ← deref r;
      _ ← (if b_class b is None then flush r else mret tt);
      _ ← update r (λ b, set_b_arguments (default (b_arguments b) (Dict.get "arguments" it)) b);
      b ← deref r;
      if decide (b_class b = Some client) then forward event
      else modify (λ s, with_calls (heap s) (buffers s) (pending s ++ [r]) s)
  end.

(** One item of a loader's stream in [run_turn]; [false] ends the turn. *)
Definition turn_event (ev : inner_event) : gen bool :=
  match ev with
  | IOther => mret true
  | IError err => _ ← modify (λ s, with_failure (Some err) (inner_failed s) s); mret false
  | IEvent e =>
      let has ty := type_is ty e in
      if has "response.created"%string || has "response.in_progress"%string then mret true
      else if has "response.failed"%string then
        _ ← modify (λ s, with_failure (inner_error s) (Some (py_or (field "response" e) (JObj []))) s); mret false
      else if has "response.completed"%string || has "response.incomplete"%string then
        _ ← finish_turn e; mret true
      else
        it ← lift (dict_of (field "item" e));
        let is_call := type_is "function_call" it in
        _ ← (if has "response.output_item.added"%string && is_call then call_added e it
             else if has "response.function_call_arguments.delta"%string then
               arguments_event e "response.mcp_call_arguments.delta" "delta" (λ _ b, b)
             else if has "response.function_call_arguments.done"%string then
               arguments_event e "response.mcp_call_arguments.done" "arguments" set_b_arguments
             else if has "response.output_item.done"%string && is_call then call_done e it
             else forward e);
        mret true
  end.

(** [run_turn] *)
Definition run_turn (stream : list inner_event * option exn) : gen unit :=
  _ ← modify (λ s, with_calls (heap s) [] [] s);
  _ ← modify (with_output false []);
  _ ← modify (with_failure None None);
  go ← while_each turn_event stream.1;
  if (go : bool) then match stream.2 with Some e => lift (Err e) | None => mret tt end else mret tt.

(** ** Calls of the tool servers *)

(** [_execute_mcp_call]: its events, not yet yielded, and its item *)
Definition execute_mcp_call (outer_id : string) (oi : Z) (name arguments : json) (spec : McpToolSpec)
    (approval_request_id : json) : gen (list (dict json) * dict json) :=
  let about := [("item_id"%string, JStr outer_id)] in
  let label := JStr (server_label spec) in
  e1 ← stamped "response.mcp_call.in_progress" (Some oi) about;
  t ← get trace;
  _ ← act (Called spec name arguments);
  answer ← lift (call_tool t spec name arguments);
  it ← lift (match answer with
             | inr out => McpCallItem outer_id name arguments label approval_request_id None (Some out) "completed"
             | inl why => McpCallItem outer_id name arguments label approval_request_id (Some why) None "failed"
             end);
  e2 ← stamped (if answer is inr _ then "response.mcp_call.completed" else "response.mcp_call.failed") (Some oi) about;
  e3 ← stamped "response.output_item.done" (Some oi) [("item"%string, JObj it)];
  mret ([e1; e2; e3], it).

Definition keep (it : dict json) : gen unit := modify (λ s, with_accumulator (accumulator s ++ [it]) s).

(** [accumulator[i] = item]: a negative index counts from the end. *)
Definition set_at (i : Z) (it : dict json) (l : list (dict json)) : res (list (dict json)) :=
  let j := if i <? 0 then i + Z.of_nat (length l) else i in
  if (0 <=? j) && (j <? Z.of_nat (length l)) then Ok (<[Z.to_nat j := it]> l)
  else Err (OtherError "IndexError").
Definition place (i : Z) (it : dict json) : gen unit :=
  l ← get accumulator; l ← lift (set_at i it l); modify (with_accumulator l).

(** ** [_events] *)

(** What a request asks for: its servers, its other tools and its input. *)
Definition is_typed (ty : string) (it : json) : bool := if it is JObj d then type_is ty d else false.

Definition approval_without_history : exn :=
  api_error ("mcp_approval_response requires previous_response_id: an approval can only be resumed "
    +:+ "from a prior response's own mcp_approval_request, not supplied directly on a fresh request.")
    "invalid_request_error" 400 (Some "input"%string) None.

Definition check_request (request : Request) : res (list McpToolSpec * list (dict json) * list json) :=
  so ← split_mcp_tools (r_tools request);
  _ ← res_mapM (λ spec, validate_server_url environ (server_url spec)) so.1;
  _ ← raise_if (is_typed "mcp" (tool_choice request))
        (mcp_error "tool_choice forcing a specific mcp tool is not supported.");
  let input := as_input_items (r_input request) in
  _ ← raise_if (bool_decide (previous_response_id request = None) && existsb (is_typed "mcp_approval_response") input)
        approval_without_history;
  Ok (so, input).

(** [_stored_tools] *)
Definition stored_tools (spec : McpToolSpec) (listing : option json) : res (option (list Tool)) :=
  match listing with
  | None => Ok None
  | Some (JObj d) =>
      url ← item "server_url" d;
      allowed ← item "allowed_tools" d;
      if negb (Json.eqb url (JStr (server_url spec)) && Json.eqb allowed (allowed_tools spec)) then Ok None
      else
        l ← item "tools" d;
        l ← iter l;
        match mapM validate_tool l with
        | None => Ok None
        | Some tools => Some <$> filter_tools spec tools
        end
  | Some _ => Err (TypeError "not subscriptable")
  end.

(** [_tools_as_functions] *)
Definition tools_as_functions (index : tool_index_t) : list (dict json) :=
  (λ ne, let t := ne.2.2 in
     [("type", JStr "function"); ("name", JStr ne.1);
      ("description", if description t is Some d then JStr d else JNull);
      ("parameters", JObj (input_schema t))]%string) <$> index.

Section events.
Context (request : Request) (response_id : string) (created_at : Z).

Definition response_of_turns (status : string) (incomplete : json) (error : option json) : gen (dict json) :=
  acc ← get accumulator;
  output ← lift (res_mapM parse_output_item acc);
  u ← get usage_total;
  done ← now;
  lift (build_response_object request
    (mkFields status output u incomplete response_id created_at (Some done) error
       (Json.truthy (background request)) "")).

(** [_failed_event], yielded *)
Definition fail_with (message code : string) : gen unit :=
  r ← response_of_turns "failed" JNull (Some (JObj [("code", JStr code); ("message", JStr message)]%string));
  send "response.failed" None [("response"%string, JObj r)].

(** Discovery: one server's tools, stored or asked for. *)
Definition discover_one (listings : list (json * json)) (spec : McpToolSpec) : gen (list Tool) :=
  let label := server_label spec in
  stored ← lift (stored_tools spec (jget (JStr label) listings));
  match stored with
  | Some tools => mret tools
  | None =>
      oi ← claim_slot;
      id ← uuid "mcpl_";
      let about := [("item_id"%string, JStr id)] in
      _ ← send "response.output_item.added" (Some oi) [("item"%string, JObj (McpListToolsItem id label [] None))];
      _ ← send "response.mcp_list_tools.in_progress" (Some oi) about;
      t ← get trace;
      _ ← act (Listed spec);
      match list_tools t spec with
      | inl why =>
          let it := McpListToolsItem id label [] (Some why) in
          _ ← send "response.mcp_list_tools.failed" (Some oi) about;
          _ ← send "response.output_item.done" (Some oi) [("item"%string, JObj it)];
          _ ← keep it;
          _ ← fail_with ("mcp server " +:+ py_repr (JStr label) +:+ " discovery failed: " +:+ why) "server_error";
          return_
      | inr tools =>
          tools ← lift (filter_tools spec tools);
          let it := McpListToolsItem id label tools None in
          _ ← send "response.mcp_list_tools.completed" (Some oi) about;
          _ ← send "response.output_item.done" (Some oi) [("item"%string, JObj it)];
          _ ← keep it;
          mret tools
      end
  end.

Fixpoint discover (listings : list (json * json)) (specs : list McpToolSpec) (discovered : dict (list Tool))
    : gen (dict (list Tool)) :=
  match specs with
  | [] => mret discovered
  | spec :: specs =>
      tools ← discover_one listings spec;
      _ ← modify (λ s, with_index
            (foldl (λ d t, Dict.set (t_name t) (spec, t) d) (tool_index s) tools) s);
      discover listings specs (Dict.set (server_label spec) tools discovered)
  end.

(** Approval resume: the requests by id, and one response to one of them. *)
Definition approval_requests (input : list json) : res (list (json * dict json)) :=
  (fix go (l : list json) (acc : list (json * dict json)) :=
    match l with
    | [] => Ok acc
    | JObj d :: l =>
        if type_is "mcp_approval_request" d
        then id ← hashable (field "id" d); go l (jset id d acc)
        else go l acc
    | _ :: l => go l acc
    end) input [].

(** What a response that doesn't run its call says. *)
Definition refusal (spec : option McpToolSpec) (known : bool) (name label reason : json) : string :=
  match spec with
  | None => "mcp server " +:+ py_repr label +:+ " is not configured on this request."
  | Some _ =>
      if negb known then "tool " +:+ py_repr name +:+ " is not available on mcp server " +:+ py_repr label +:+ "."
      else "Tool call was rejected."
           +:+ (if Json.truthy reason then " " +:+ (if reason is JStr r then r else py_repr reason) else "")
  end.

Definition refuse (id : string) (oi : Z) (name arguments label request_id : json) (message : string) : gen unit :=
  it ← lift (McpCallItem id name arguments label request_id (Some message) None "failed");
  let about := [("item_id"%string, JStr id)] in
  _ ← send "response.output_item.added" (Some oi) [("item"%string, JObj it)];
  _ ← send "response.mcp_call.in_progress" (Some oi) about;
  _ ← send "response.mcp_call.failed" (Some oi) about;
  _ ← send "response.output_item.done" (Some oi) [("item"%string, JObj it)];
  keep it.

Definition resume_one (specs : list McpToolSpec) (discovered : dict (list Tool))
    (requests : list (json * dict json)) (it : json) : gen unit :=
  match it with
  | JObj d =>
      if negb (type_is "mcp_approval_response" d) then mret tt
      else
        let request_id := field "approval_request_id" d in
        k ← lift (hashable request_id);
        match jget k requests with
        | None =>
            _ ← act (YieldError (create_error_response
                  ("mcp_approval_response references unknown approval_request_id " +:+ py_repr request_id +:+ ".")
                  (Some "invalid_request_error"%string) 400 None None));
            return_
        | Some req =>
            let name := or_empty (Dict.get "name" req) in
            let label := or_empty (Dict.get "server_label" req) in
            let arguments := or_empty (Dict.get "arguments" req) in
            label ← lift (hashable label);
            let spec := last (filter (λ spec, Json.eqb (JStr (server_label spec)) label) specs) in
            let tools := if label is JStr l then default [] (Dict.get l discovered) else [] in
            let known := bool_decide (is_Some spec) && existsb (λ t, Json.eqb (JStr (t_name t)) name) tools in
            id ← uuid "mcp_";
            oi ← claim_slot;
            match spec with
            | Some spec =>
                if Json.truthy (field "approve" d) && known then
                  it ← lift (McpCallItem id name arguments label request_id None None "in_progress");
                  _ ← send "response.output_item.added" (Some oi) [("item"%string, JObj it)];
                  _ ← send "response.mcp_call_arguments.delta" (Some oi)
                        [("item_id", JStr id); ("delta", arguments)]%string;
                  _ ← send "response.mcp_call_arguments.done" (Some oi)
                        [("item_id", JStr id); ("arguments", arguments)]%string;
                  ei ← execute_mcp_call id oi name arguments spec request_id;
                  _ ← for_each yield ei.1;
                  keep ei.2
                else refuse id oi name arguments label request_id (refusal (Some spec) known name label (field "reason" d))
            | None => refuse id oi name arguments label request_id (refusal None known name label (field "reason" d))
            end
        end
  | _ => mret tt
  end.

(** A finished turn's calls of the tool servers: whether one waits for an approval, and how many ran. *)
Fixpoint settle (calls : list nat) : gen (bool * Z) :=
  match calls with
  | [] => mret (false, 0)
  | r :: calls =>
      b ← deref r;
      match b_entry b, abs_oi b with
      | Some (spec, _), Some oi =>
          if decide (b_class b = Some mcp_approval) then
            id ← uuid "mcpr_";
            it ← lift (McpApprovalRequestItem id (b_name b) (b_arguments b) (server_label spec));
            _ ← send "response.output_item.added" (Some oi) [("item"%string, JObj it)];
            _ ← send "response.output_item.done" (Some oi) [("item"%string, JObj it)];
            _ ← place oi it;
            an ← settle calls;
            mret (true, an.2)
          else
            match outer_id b with
            | None => lift (Err AssertionError)
            | Some id =>
                ei ← execute_mcp_call id oi (b_name b) (b_arguments b) spec JNull;
                _ ← for_each yield ei.1;
                _ ← place oi ei.2;
                an ← settle calls;
                mret (an.1, an.2 + 1)
            end
      | _, _ => lift (Err AssertionError)
      end
  end.

(** The request of a turn to the loader. *)
Definition inner_of (turn_index : nat) (other_tools : list (dict json)) (input : list json) (s : st) : inner_request :=
  mkInner (input ++ (JObj <$> accumulator s)) (other_tools ++ tools_as_functions (tool_index s))
    (if decide (turn_index = 0%nat) then tool_choice request else JStr "auto").

(** One turn; the response's end, if it is the last one. *)
Definition turn (turn_index : nat) (other_tools : list (dict json)) (input : list json) (executed : Z)
    : gen (Z + string * option string) :=
  inner ← get (inner_of turn_index other_tools input);
  t ← get trace;
  _ ← act (Responded inner);
  _ ← run_turn (respond t inner);
  err ← get inner_error;
  failed ← get inner_failed;
  match err, failed with
  | Some err, _ => _ ← act (YieldError err); return_
  | None, Some (JObj d) =>
      _ ← send "response.failed" None [("response"%string, JObj (Dict.set "id" (JStr response_id) d))]; return_
  | None, Some _ => lift (Err (TypeError "not a mapping"))
  | None, None =>
      out ← get turn_output;
      calls ← get pending;
      _ ← modify (λ s, with_accumulator (accumulator s ++ replicate (length out + length calls) []) s);
      _ ← for_each (λ io, place io.1 io.2) out;
      an ← settle calls;
      clientside ← get had_client;
      let executed := executed + an.2 in
      if (an.1 : bool) || (clientside : bool) then mret (inr ("completed"%string, None))
      else if calls is [] then mret (inr ("completed"%string, None))
      else if (if max_tool_calls request is Some m then m <=? executed else false)
      then mret (inr ("incomplete"%string, Some "max_tool_calls"%string))
      else mret (inl executed)
  end.

(** The turn loop: [n] turns are left, out of [DEFAULT_TURN_CAP]. *)
Fixpoint turns (n turn_index : nat) (other_tools : list (dict json)) (input : list json) (executed : Z)
    : gen (string * option string) :=
  match n with
  | O => mret ("incomplete"%string, Some "max_tool_calls"%string)
  | S n =>
      r ← turn turn_index other_tools input executed;
      match r with
      | inl executed => turns n (S turn_index) other_tools input executed
      | inr over => mret over
      end
  end.

(** From the first event on. *)
Definition run_request (listings : list (json * json)) (specs : list McpToolSpec) (other_tools : list (dict json))
    (input : list json) : gen unit :=
  created ← lift (build_response_object request
    (mkFields "in_progress" [] None JNull response_id created_at None None (Json.truthy (background request)) ""));
  _ ← send "response.created" None [("response"%string, JObj created)];
  _ ← send "response.in_progress" None [("response"%string, JObj created)];
  discovered ← discover listings specs [];
  _ ← match check_collisions specs discovered other_tools with
      | Err (ResponsesApiError err) => _ ← fail_with (err_message err) "invalid_prompt"; return_
      | r => lift r
      end;
  requests ← lift (approval_requests input);
  _ ← for_each (resume_one specs discovered requests) input;
  over ← turns DEFAULT_TURN_CAP 0 other_tools input 0;
  r ← response_of_turns over.1
        (if over.2 is Some reason then JObj [("reason"%string, JStr reason)] else JNull) None;
  send (if decide (over.1 = "completed"%string) then "response.completed" else "response.incomplete") None
    [("response"%string, JObj r)].
End events.

(** [_events] *)
Definition events (request : Request) (response_id : option string) (listings : list (json * json)) : gen unit :=
  id ← match response_id with Some (String _ _ as i) => mret i | _ => uuid "resp_" end;
  created_at ← now;
  match check_request request with
  | Ok (specs, other_tools, input) => run_request request id created_at listings specs other_tools input
  | Err (ResponsesApiError err) => _ ← act (YieldError err); return_
  | Err e => lift (Err e)
  end.

(** A run of [_events] from its start: everything it did, and how it ended. *)
Definition run_events (request : Request) (response_id : option string) (listings : list (json * json))
    : list action * outcome unit :=
  let '(s, r) := events request response_id listings start in (trace s, r).

(** ** [run_mcp_response] *)

Definition TERMINAL_TYPES : list string := ["response.completed"; "response.incomplete"; "response.failed"]%string.
Definition is_terminal_event (e : dict json) : bool := existsb (λ ty, type_is ty e) TERMINAL_TYPES.

Inductive reply : Type :=
| ReplyError (err : ErrorResponse)
| ReplyResponse (response : json).

(** Not streaming: the first error, else the last terminal event's response, if it has one. *)
Fixpoint whole_response (tr : list action) (terminal_response : json) : option reply :=
  match tr with
  | [] => if terminal_response is JNull then None else Some (ReplyResponse terminal_response)
  | YieldError err :: _ => Some (ReplyError err)
  | Yield e :: tr => whole_response tr (if is_terminal_event e then field "response" e else terminal_response)
  | _ :: tr => whole_response tr terminal_response
  end.

(** [wants_mcp] *)
Definition wants_mcp (request : Request) : bool := existsb (type_is "mcp") (default [] (r_tools request)).
End loop.
