(* ===== verification/McpLogic.v ===== *)
(** * Reasoning about the tool loop

    A Hoare logic for [McpLoop]'s generators: [triple] says what holds of the state where a generator
    returns a value, raises, or is over by its own [return], with a rule for each construct. *)

From S2P Require Import Prelude ResponsesState McpPolicy ResponseObjects McpLoop.
Local Open Scope Z_scope.

Section logic.
Implicit Types (P E D : st → Prop).

Definition triple {A} P (m : gen A) (Q : A → st → Prop) E D : Prop :=
  ∀ s, P s → match m s with (s', Value a) => Q a s' | (s', Raised _) => E s' | (s', Returned) => D s' end.

Lemma gen_triple_ret {A} (a : A) P Q E D : (∀ s, P s → Q a s) → triple P (mret a) Q E D.
Proof. intros HP s Hs. by apply HP. Qed.

Lemma gen_triple_bind {A B} (m : gen A) (f : A → gen B) P R Q E D :
  triple P m R E D → (∀ a, triple (R a) (f a) Q E D) → triple P (m ≫= f) Q E D.
Proof.
  intros Hm Hf s Hs. unfold mbind, gen_bind. specialize (Hm s Hs).
  destruct (m s) as [s' [a|e|]]; [|done..]. by apply Hf.
Qed.

Lemma gen_triple_conseq {A} (m : gen A) P P' (Q Q' : A → st → Prop) E E' D D' :
  triple P m Q E D → (∀ s, P' s → P s) → (∀ a s, Q a s → Q' a s) → (∀ s, E s → E' s) → (∀ s, D s → D' s) →
  triple P' m Q' E' D'.
Proof.
  intros Hm HP HQ HE HD s Hs. specialize (Hm s (HP s Hs)). destruct (m s) as [s' [a|e|]]; auto.
Qed.

Lemma gen_triple_lift {A} (r : res A) P Q E D :
  (∀ s a, r = Ok a → P s → Q a s) → (∀ s, P s → E s) → triple P (lift r) Q E D.
Proof. intros HQ HE s Hs. unfold lift. destruct r; cbn; auto. Qed.

Lemma gen_triple_get {A} (f : st → A) P Q E D : (∀ s, P s → Q (f s) s) → triple P (get f) Q E D.
Proof. intros HP s Hs. by apply HP. Qed.

Lemma gen_triple_modify (f : st → st) P Q E D : (∀ s, P s → Q tt (f s)) → triple P (modify f) Q E D.
Proof. intros HP s Hs. by apply HP. Qed.

Lemma gen_triple_return {A} P (Q : A → st → Prop) E D : (∀ s, P s → D s) → triple P return_ Q E D.
Proof. intros HP s Hs. by apply HP. Qed.

(** ** Invariants

    A generator that keeps [I] where it returns a value, leaves [E] where it raises and [D] where it is
    over. *)
Definition keeps {A} (I E D : st → Prop) (m : gen A) : Prop := triple I m (λ _, I) E D.

Context (I E D : st → Prop) (HE : ∀ s, I s → E s).

Lemma gen_keeps_ret {A} (a : A) : keeps I E D (mret a).
Proof. by apply gen_triple_ret. Qed.
Lemma gen_keeps_bind {A B} (m : gen A) (f : A → gen B) : keeps I E D m → (∀ a, keeps I E D (f a)) → keeps I E D (m ≫= f).
Proof. intros Hm Hf. by eapply gen_triple_bind. Qed.
Lemma gen_keeps_lift {A} (r : res A) : keeps I E D (lift r).
Proof. by apply gen_triple_lift. Qed.
Lemma gen_keeps_get {A} (f : st → A) : keeps I E D (get f).
Proof. by apply gen_triple_get. Qed.
Lemma gen_keeps_modify f : (∀ s, I s → I (f s)) → keeps I E D (modify f).
Proof. intros HI. by apply gen_triple_modify. Qed.

Lemma gen_keeps_for_each {A} (body : A → gen unit) l : (∀ x, x ∈ l → keeps I E D (body x)) → keeps I E D (for_each body l).
Proof.
  induction l as [|x l IH]; cbn [for_each]; intros Hb; [apply gen_keeps_ret|].
  apply gen_keeps_bind; [apply Hb; by left|]. intros _. apply IH. intros. apply Hb. by right.
Qed.

Lemma gen_keeps_while_each {A} (body : A → gen bool) l :
  (∀ x, x ∈ l → keeps I E D (body x)) → keeps I E D (while_each body l).
Proof.
  induction l as [|x l IH]; cbn [while_each]; intros Hb; [apply gen_keeps_ret|].
  apply gen_keeps_bind; [apply Hb; by left|]. intros []; [|apply gen_keeps_ret]. apply IH. intros. apply Hb. by right.
Qed.

(** With what the first part's answer is known to be. *)
Lemma gen_keeps_bind_fact {A B} (m : gen A) (f : A → gen B) (F : A → Prop) :
  triple I m (λ a s, I s ∧ F a) E D → (∀ a, F a → keeps I E D (f a)) → keeps I E D (m ≫= f).
Proof. intros Hm Hf. eapply gen_triple_bind; [done|]. intros a s [Hs Ha]. by apply Hf. Qed.

Lemma gen_keeps_lift_fact {A B} (r : res A) (f : A → gen B) :
  (∀ a, r = Ok a → keeps I E D (f a)) → keeps I E D (lift r ≫= f).
Proof. intros Hf. apply (gen_keeps_bind_fact _ _ (λ a, r = Ok a)); [|done]. apply gen_triple_lift; auto. Qed.
End logic.

(** One step through a generator's constructs; what is left are the operations of the code, and the
    places where a generator is over. *)
Ltac gen_step :=
  match goal with
  | |- keeps _ _ _ (mret _) => apply gen_keeps_ret
  | |- keeps _ _ _ (lift _) => apply gen_keeps_lift; solve [eauto 3]
  | |- keeps _ _ _ (get _) => apply gen_keeps_get
  | |- keeps _ _ _ (_ ≫= (λ _, return_)) => fail 1
  | |- keeps _ _ _ (_ ≫= _) => apply gen_keeps_bind; [|intros ?]
  | |- keeps _ _ _ (for_each _ _) => apply gen_keeps_for_each; intros ? ?
  | |- keeps _ _ _ (if ?b then _ else _) => destruct b eqn:?
  | |- keeps _ _ _ (match ?x with _ => _ end) => destruct x eqn:?
  end.

Create HintDb gens.
Ltac gen_steps := repeat (gen_step || solve [eauto with gens]).
