(* ===== verification/McpApprovals.v ===== *)
(** * Which tool calls the loop may run

    Every call of a tool server is of a tool that its server's [allowed_tools] lets through, and one
    that needs no approval or that the request's input approves. *)

From S2P Require Import Prelude StateStore MemoryStore ResponsesState McpPolicy ResponseObjects Tasks ResponsesApi McpLoop McpLogic.
Local Open Scope Z_scope.
#[local] Arguments Dict.get : simpl never.
#[local] Arguments Dict.set : simpl never.

(** ** Permitted calls *)

Section permitted.
Context `{SpecReader} `{Envelope} `{World} (listings : list (json * json)) (specs : list McpToolSpec) (input : list json).

(** What the server [spec] answered when it was asked for its tools, or what a response of the same
    conversation stored of it, for the same address and [allowed_tools]. *)
Definition offered (before : list action) (spec : McpToolSpec) (ts : list Tool) : Prop :=
  (∃ tr1 tr2, before = tr1 ++ Listed spec :: tr2 ∧ list_tools tr1 spec = inr ts) ∨
  (∃ d url allowed v l, jget (JStr (server_label spec)) listings = Some (JObj d) ∧
     Dict.get "server_url" d = Some url ∧ Json.eqb url (JStr (server_url spec)) = true ∧
     Dict.get "allowed_tools" d = Some allowed ∧ Json.eqb allowed (allowed_tools spec) = true ∧
     Dict.get "tools" d = Some v ∧ iter v = Ok l ∧ mapM validate_tool l = Some ts).

(** A tool that the request's server [spec] offered before, past its [allowed_tools]. *)
Definition listed (before : list action) (spec : McpToolSpec) (t : Tool) : Prop :=
  spec ∈ specs ∧ ∃ ts ts', offered before spec ts ∧ filter_tools spec ts = Ok ts' ∧ t ∈ ts'.

(** The input asks for an approval of this very call, and gives it. *)
Definition approved (spec : McpToolSpec) (name arguments : json) : Prop :=
  ∃ req resp, JObj req ∈ input ∧ type_is "mcp_approval_request" req ∧
    JObj resp ∈ input ∧ type_is "mcp_approval_response" resp ∧ Json.truthy (field "approve" resp) ∧
    field "approval_request_id" resp = field "id" req ∧
    or_empty (Dict.get "server_label" req) = JStr (server_label spec) ∧
    or_empty (Dict.get "name" req) = name ∧ or_empty (Dict.get "arguments" req) = arguments.

(** An action after the ones before *)
Definition permitted (before : list action) (a : action) : Prop :=
  match a with
  | Called spec name arguments =>
      ∃ t, listed before spec t ∧ name = JStr (t_name t) ∧
        (requires_approval spec t = Ok false ∨ approved spec name arguments)
  | Listed spec => spec ∈ specs
  | _ => True
  end.
End permitted.

(** A loader names each function call of a turn once: an item's name is the same wherever it is given,
    and is given when the item is done. *)
Definition event_named (naming : string → json) (ev : inner_event) : Prop :=
  match ev with
  | IEvent e =>
      ∀ it, field "item" e = JObj it → type_is "function_call" it →
        ∃ i, Dict.get "id" it = Some (JStr i) ∧
          (type_is "response.output_item.added" e → Json.truthy (field "name" it) → field "name" it = naming i) ∧
          (type_is "response.output_item.done" e → Json.truthy (field "name" it) ∧ field "name" it = naming i)
  | _ => True
  end.
Definition names_settled (evs : list inner_event) : Prop := ∃ naming, Forall (event_named naming) evs.

(** ** Facts on lookups by JSON keys *)

Module KeyFacts.
Lemma eqb_str_l i v : Json.eqb (JStr i) v = true → v = JStr i.
Proof. destruct v; try done. cbn. by intros ->%bool_decide_eq_true. Qed.
Lemma eqb_str_r i v : Json.eqb v (JStr i) = true → v = JStr i.
Proof. destruct v; try done. cbn. by intros ->%bool_decide_eq_true. Qed.
Lemma eqb_null_l v : Json.eqb JNull v = true → v = JNull.
Proof. by destruct v. Qed.
Lemma eqb_null_r v : Json.eqb v JNull = true → v = JNull.
Proof. by destruct v. Qed.

Lemma eqb_hashable v k : hashable v = Ok k → Json.eqb k k = true.
Proof. intros Hv. apply Json.eqb_refl. destruct v; by inversion Hv. Qed.

Lemma jget_elem {V} k (d : list (json * V)) v : jget k d = Some v → ∃ k', (k', v) ∈ d ∧ Json.eqb k k' = true.
Proof.
  induction d as [|[k' v'] d IH]; [done|]. cbn. destruct (Json.eqb k k') eqn:E.
  - intros [= <-]. exists k'. split; [by left|done].
  - intros (k2 & Hin & Hk)%IH. exists k2. split; [by right|done].
Qed.

Lemma elem_jset {V} k v (d : list (json * V)) kv :
  kv ∈ jset k v d → kv ∈ d ∨ kv = (k, v) ∨ (kv.2 = v ∧ Json.eqb k kv.1 = true).
Proof.
  induction d as [|[k' v'] d IH]; cbn.
  - intros ->%list_elem_of_singleton. by right; left.
  - destruct (Json.eqb k k') eqn:E; intros [->|Hin]%elem_of_cons; [by right; right| |left; by left|].
    + left. by right.
    + apply IH in Hin as [?|?]; [left; by right|by right].
Qed.

Lemma hashable_ok v k : hashable v = Ok k → k = v.
Proof. destruct v; by intros [= <-]. Qed.

Lemma dict_of_item v it : dict_of v = Ok it → type_is "function_call" it → v = JObj it.
Proof.
  unfold dict_of, py_or. intros E Hty. destruct (Json.truthy v).
  - destruct v; naive_solver.
  - injection E as <-. done.
Qed.

Lemma NoDup_fmap_eq {A B} (f : A → B) l x y : NoDup (f <$> l) → x ∈ l → y ∈ l → f x = f y → x = y.
Proof.
  induction l as [|z l IH]; [by intros _ ?%not_elem_of_nil|]. intros [Hz Hl]%NoDup_cons.
  assert (∀ x, x ∈ l → f x = f z → False) as Hne.
  { intros x' Hx E. apply Hz. apply list_elem_of_fmap. by exists x'. }
  intros [->|Hx]%elem_of_cons [->|Hy]%elem_of_cons E; [done|exfalso; by eapply Hne..|auto].
Qed.
End KeyFacts.

Module ApprovalFacts.
Import KeyFacts PolicyFacts.

Section facts.
Context `{SpecReader} `{Envelope} `{World} (listings : list (json * json)) (specs : list McpToolSpec) (input : list json).

Lemma listed_mono before before' spec t :
  before `prefix_of` before' → listed listings specs before spec t → listed listings specs before' spec t.
Proof.
  intros [l ->] (Hs & ts & ts' & Ho & Hf). split; [done|]. exists ts, ts'. split; [|done].
  destruct Ho as [(tr1 & tr2 & -> & Ho)|Ho]; [left|by right]. exists tr1, (tr2 ++ l). by rewrite <-app_assoc.
Qed.

Lemma permitted_mono before before' a :
  before `prefix_of` before' → permitted listings specs input before a → permitted listings specs input before' a.
Proof. intros Hp. destruct a; try done. cbn. intros (t & Hl & Hrest). exists t. split; [by eapply listed_mono|done]. Qed.

Definition allowed_so_far (s : st) : Prop :=
  ∀ tr1 a tr2, trace s = tr1 ++ a :: tr2 → permitted listings specs input tr1 a.

Lemma allowed_snoc s s' a :
  allowed_so_far s → trace s' = trace s ++ [a] → permitted listings specs input (trace s) a → allowed_so_far s'.
Proof.
  intros Hs Ht Ha tr1 b tr2. rewrite Ht. destruct tr2 as [|x tr2 _] using rev_ind.
  - by intros [<- <-]%app_inj_tail.
  - rewrite app_comm_cons, app_assoc. intros [E _]%app_inj_tail. by eapply Hs.
Qed.

(** What holds of the tools offered before now *)
Section before.
Context (before : list action).

Definition buf_ok (b : BufferedCall) : Prop :=
  (b_class b = None → outer_id b = None) ∧
  (is_Some (outer_id b) → ∃ spec t, b_entry b = Some (spec, t) ∧ listed listings specs before spec t ∧
     requires_approval spec t = Ok false ∧ b_name b = JStr (t_name t)).

Record base (s : st) : Prop := {
  ba_trace : allowed_so_far s;
  ba_before : before `prefix_of` trace s;
  ba_index : ∀ n spec t, Dict.get n (tool_index s) = Some (spec, t) → n = t_name t ∧ listed listings specs before spec t;
  ba_bufs : ∀ r b, heap s !! r = Some b → buf_ok b;
}.

(** The turn's buffered calls by their item ids. *)
Definition called (naming : string → json) (i : string) (b : BufferedCall) : Prop :=
  inner_item_id b = JStr i ∧ (b_class b ≠ None → b_name b = naming i).
Definition in_turn (naming : string → json) (s : st) : Prop :=
  base s ∧ ∀ k r, (k, r) ∈ buffers s → ∃ i b, k = JStr i ∧ heap s !! r = Some b ∧ called naming i b.

(** An invariant of the index, of the buffered calls and of which calls were made. *)
Definition robust (I : st → Prop) : Prop :=
  (∀ s, I s → allowed_so_far s) ∧
  ∀ s s', I s → tool_index s' = tool_index s → heap s' = heap s → buffers s' = buffers s →
    trace s `prefix_of` trace s' → allowed_so_far s' → I s'.

Lemma base_robust : robust base.
Proof. split; [by intros s []|]. intros s s' [] Hi Hh _ Hp Ht. split; [done|by etrans|..]; rewrite ?Hi, ?Hh; done. Qed.
Lemma in_turn_robust n : robust (in_turn n).
Proof.
  split; [intros s [Hs _]; by apply base_robust|]. intros s s' [Hs Hb] Hi Hh Hbf Hp Ht. split; [by eapply base_robust|].
  by rewrite Hh, Hbf.
Qed.

(** *** What keeps every such invariant *)

Section robust.
Context (I : st → Prop) (HI : robust I).
Notation kept := (keeps I allowed_so_far allowed_so_far).

Lemma robust_allowed s : I s → allowed_so_far s.
Proof. apply HI. Qed.
Hint Resolve robust_allowed : core.

Lemma kept_modify f :
  (∀ s, trace (f s) = trace s ∧ tool_index (f s) = tool_index s ∧ heap (f s) = heap s ∧ buffers (f s) = buffers s) →
  kept (modify f).
Proof.
  intros Hf. apply gen_keeps_modify. intros s Hs. destruct (Hf s) as (Ht & Hi & Hh & Hb).
  eapply HI; [done..|by rewrite Ht|]. unfold allowed_so_far. rewrite Ht. by apply HI.
Qed.

Lemma kept_act a : (∀ s, I s → permitted listings specs input (trace s) a) → kept (act a).
Proof.
  intros Ha s Hs. eapply HI; [done..|by eexists|]. eapply allowed_snoc; [by apply HI|done|by apply Ha].
Qed.

Ltac framed := apply kept_modify; intros ?; by split_and!.
Ltac quiet := gen_steps; first [framed|by apply kept_act].

Lemma kept_draw : kept draw.
Proof. unfold draw. intros s Hs. eapply HI; [done..|]. exact (robust_allowed s Hs). Qed.
Lemma kept_next : kept next_seq.
Proof. unfold next_seq. quiet. Qed.
Lemma kept_claim : kept claim_slot.
Proof. unfold claim_slot. quiet. Qed.
Hint Resolve kept_draw kept_next kept_claim : gens.
Lemma kept_uuid p : kept (uuid p).
Proof. unfold uuid. gen_steps. Qed.
Lemma kept_now : kept now.
Proof. unfold now. gen_steps. Qed.
Lemma kept_stamped ty oi payload : kept (stamped ty oi payload).
Proof. unfold stamped. gen_steps. Qed.
Hint Resolve kept_uuid kept_now kept_stamped : gens.
Lemma kept_yield e : kept (yield e).
Proof. by apply kept_act. Qed.
Hint Resolve kept_yield : gens.
Lemma kept_send ty oi payload : kept (send ty oi payload).
Proof. unfold send. gen_steps. Qed.
Lemma kept_forward e : kept (forward e).
Proof. unfold forward, restamped. gen_steps. Qed.
Lemma kept_keep it : kept (keep it).
Proof. unfold keep. framed. Qed.
Lemma kept_place i it : kept (place i it).
Proof. unfold place. quiet. Qed.
Lemma kept_find id : kept (find_buffer id).
Proof. unfold find_buffer. gen_steps. Qed.
Lemma kept_classify n : kept (classify n).
Proof. unfold classify. gen_steps. Qed.
Hint Resolve kept_send kept_forward kept_keep kept_place kept_find kept_classify : gens.

Lemma kept_execute id oi name arguments spec approval :
  (∀ s, I s → permitted listings specs input (trace s) (Called spec name arguments)) → kept (execute_mcp_call id oi name arguments spec approval).
Proof. intros Hp. unfold execute_mcp_call. quiet. Qed.

Lemma kept_refuse id oi name arguments label request_id message : kept (refuse id oi name arguments label request_id message).
Proof. unfold refuse. gen_steps. Qed.

Lemma kept_response request response_id created_at status incomplete error :
  kept (response_of_turns request response_id created_at status incomplete error).
Proof. unfold response_of_turns. gen_steps. Qed.
Hint Resolve kept_refuse kept_response : gens.
Lemma kept_fail request response_id created_at message code : kept (fail_with request response_id created_at message code).
Proof. unfold fail_with. gen_steps. Qed.
Lemma kept_over {A B} (m : gen A) : kept m → kept (_ ← m; (return_ : gen B)).
Proof. intros Hm. apply gen_keeps_bind; [done|]. intros _. apply gen_triple_return, robust_allowed. Qed.
End robust.

Lemma base_allowed s : base s → allowed_so_far s.
Proof. apply base_robust. Qed.
Lemma in_turn_allowed n s : in_turn n s → allowed_so_far s.
Proof. apply in_turn_robust. Qed.
#[local] Hint Resolve base_allowed in_turn_allowed : core.
#[local] Hint Extern 1 (keeps base _ _ _) =>
  first [apply kept_draw|apply kept_uuid|apply kept_now|apply kept_claim|apply kept_send|apply kept_forward
        |apply kept_yield|apply kept_keep|apply kept_place|apply kept_refuse|apply kept_response|apply kept_classify]; apply base_robust : gens.
#[local] Hint Extern 1 (keeps (in_turn _) _ _ _) =>
  first [apply kept_draw|apply kept_uuid|apply kept_now|apply kept_claim|apply kept_send|apply kept_forward
        |apply kept_yield|apply kept_find|apply kept_classify]; apply in_turn_robust : gens.

Notation in_base := (keeps base allowed_so_far allowed_so_far).
Notation in_turns n := (keeps (in_turn n) allowed_so_far allowed_so_far).

(** ** Buffered calls *)

Lemma deref_triple P r (Q : BufferedCall → st → Prop) D :
  (∀ s, P s → allowed_so_far s) → (∀ s b, P s → heap s !! r = Some b → Q b s) →
  triple P (deref r) Q allowed_so_far D.
Proof.
  intros Ha HQ s Hs. unfold deref, mbind, gen_bind. cbn. destruct (heap s !! r) as [b|] eqn:Hr; cbn; auto.
Qed.

Lemma turns_deref {B} n r (f : BufferedCall → gen B) : (∀ b, in_turns n (f b)) → in_turns n (deref r ≫= f).
Proof. intros Hf. apply gen_keeps_bind; [|done]. apply deref_triple; eauto. Qed.

(** An update that leaves a call's id, and its name and entry once it is classified. *)
Definition harmless (f : BufferedCall → BufferedCall) : Prop :=
  ∀ b, inner_item_id (f b) = inner_item_id b ∧ b_class (f b) = b_class b ∧ outer_id (f b) = outer_id b ∧
    b_entry (f b) = b_entry b ∧ (b_class b ≠ None → b_name (f b) = b_name b).

Lemma in_turn_alter n s r f :
  in_turn n s →
  (∀ b, heap s !! r = Some b → buf_ok b → buf_ok (f b) ∧ ∀ i, called n i b → called n i (f b)) →
  in_turn n (with_calls (alter f r (heap s)) (buffers s) (pending s) s).
Proof.
  intros [[Ht Hp Hi Hb] Hn] Hf. split; [split; [done|done|done|]|]; cbn.
  - intros r' b'. rewrite list_lookup_alter. case_decide as Er; [|apply Hb]. subst r'.
    destruct (heap s !! r) as [b|] eqn:Hr; [|done]. intros [= <-]. eapply Hf; [done|by eapply Hb].
  - intros k r' Hin. destruct (Hn _ _ Hin) as (i & b & -> & Hr & Hc). rewrite list_lookup_alter.
    case_decide as Er; [|by exists i, b]. subst r'. exists i, (f b). rewrite Hr.
    split; [done|]. split; [done|]. apply (Hf b); [done|by eapply Hb|done].
Qed.

Lemma turns_update n r f : harmless f → in_turns n (update r f).
Proof.
  intros Hf s Hs. apply in_turn_alter; [done|]. intros b _ [Hn Ho]. destruct (Hf b) as (Hi & Hc & Hout & He & Hname).
  split.
  - split; rewrite ?Hc, ?Hout, ?He; [done|]. intros Hs'. rewrite Hname; [auto|].
    intros Hc'. rewrite (Hn Hc') in Hs'. by destruct Hs'.
  - intros i [Hid Hnm]. split; rewrite ?Hi, ?Hc; [done|]. intros Hc'. rewrite Hname by done. auto.
Qed.

Lemma harmless_class f : (∀ b, inner_item_id (f b) = inner_item_id b ∧ b_class (f b) = b_class b ∧
  outer_id (f b) = outer_id b ∧ b_entry (f b) = b_entry b ∧ b_name (f b) = b_name b) → harmless f.
Proof. intros Hf b. destruct (Hf b) as (?&?&?&?&?). by split_and!. Qed.

Ltac harmless := apply turns_update, harmless_class; intros ?; by split_and!.

Lemma turns_held n raws r : in_turns n (held_slot raws r).
Proof. induction raws as [|raw raws IH]; cbn [held_slot]; [apply gen_keeps_ret|]. gen_steps. harmless. Qed.

Lemma turns_flush_mcp n r spec id raw : in_turns n (flush_mcp_event r spec id raw).
Proof.
  unfold flush_mcp_event. gen_step; [gen_step|]. apply turns_deref. intros b. gen_steps; harmless.
Qed.

(** What a call is classified as, by the index. *)
Lemma classify_triple n name P D :
  (∀ s, P s → in_turn n s) →
  triple P (classify name) (λ ce s, P s ∧ (ce.1 = mcp → ∃ spec t, ce.2 = Some (spec, t) ∧ listed listings specs before spec t ∧
    requires_approval spec t = Ok false ∧ name = JStr (t_name t))) allowed_so_far D.
Proof.
  intros HP s Hs. unfold classify, mbind, gen_bind, lift, get. destruct (hashable name) as [name'|] eqn:En; [|eauto].
  apply hashable_ok in En as ->. cbn.
  destruct name as [| | | |i| |]; try (by split).
  destruct (Dict.get i (tool_index s)) as [[spec t]|] eqn:Ei; [|by split].
  destruct (requires_approval spec t) as [[]|] eqn:Ea; cbn; [by split| |eauto].
  split; [done|]. intros _. destruct (HP _ Hs) as [[_ _ Hidx _] _]. destruct (Hidx _ _ _ Ei) as [-> ?]. eauto 6.
Qed.

Lemma from_turn {A} n (P : st → Prop) (m : gen A) :
  (∀ s, P s → in_turn n s) → in_turns n m → triple P m (λ _, in_turn n) allowed_so_far allowed_so_far.
Proof. intros HP Hm s Hs. apply (Hm s), HP, Hs. Qed.

Lemma known_robust n r b : robust (λ s, in_turn n s ∧ heap s !! r = Some b).
Proof.
  split; [intros s [? _]; eauto|]. intros s s' [Hs Hr] Hi Hh Hb Hp Ht. split; [by eapply in_turn_robust|by rewrite Hh].
Qed.

(** The call of [r], not classified yet, and named as its item is. *)
Definition unclassified (n : string → json) (r : nat) (s : st) : Prop :=
  in_turn n s ∧ ∃ b i, heap s !! r = Some b ∧ b_class b = None ∧ inner_item_id b = JStr i ∧ b_name b = n i.

Lemma turns_flush n r : triple (unclassified n r) (flush r) (λ _, in_turn n) allowed_so_far allowed_so_far.
Proof.
  unfold flush.
  apply gen_triple_bind with (R := λ b s, in_turn n s ∧ heap s !! r = Some b ∧ b_class b = None ∧
    ∃ i, inner_item_id b = JStr i ∧ b_name b = n i).
  { apply deref_triple; [by intros s [[[] _] _]|]. intros s b [Hs (b' & i & Hr & Hc & Hi & Hn)] Hr'.
    rewrite Hr in Hr'. injection Hr' as <-. split_and!; [done..|by exists i]. }
  intros b.
  eapply gen_triple_bind. { apply (classify_triple n). by intros s [? _]. }
  intros [c e].
  apply gen_triple_bind with (R := λ _ s, in_turn n s ∧ heap s !! r = Some (set_class c e b) ∧ outer_id b = None ∧
    (c = mcp → ∃ spec t, e = Some (spec, t) ∧ listed listings specs before spec t ∧
       requires_approval spec t = Ok false ∧ b_name b = JStr (t_name t))).
  { intros s [(Hs & Hr & Hc & i & Hi & Hn) Hce]. cbn.
    assert (buf_ok b) as [Hnone Hok] by (eapply Hs; done). split; [|split; [|split]].
    - apply in_turn_alter; [done|]. intros b' Hr' _. rewrite Hr in Hr'. injection Hr' as <-.
      split; [split; cbn; [done|]; rewrite (Hnone Hc); by intros []|].
      intros i' [Hi' _]. split; [done|]. intros _. cbn. congruence.
    - by rewrite list_lookup_alter, decide_True, Hr.
    - auto.
    - auto. }
  intros _. apply gen_triple_bind with (R := λ _, in_turn n); [|intros _; harmless].
  assert (in_turns n (for_each forward (raw_events b))) as Hall by gen_steps.
  destruct c; [by apply from_turn; [intros s [? _]|]| |apply from_turn; [by intros s [? _]|apply turns_held]].
  destruct e as [[spec t]|]; [|by apply from_turn; [intros s [? _]|]].
  apply gen_triple_bind with (R := λ _ s, (in_turn n s ∧ heap s !! r = Some (set_class mcp (Some (spec, t)) b)) ∧
    listed listings specs before spec t ∧ requires_approval spec t = Ok false ∧ b_name b = JStr (t_name t)).
  { intros s (Hs & Hr & _ & Hok). destruct (Hok eq_refl) as (? & ? & [= <- <-] & Hl & Ha & Hn).
    pose proof (kept_uuid _ (known_robust n r (set_class mcp (Some (spec, t)) b)) "mcp_" s (conj Hs Hr)) as Hu.
    destruct (uuid "mcp_" s) as [s' [id|?|]]; [|done..]. by split. }
  intros id. apply gen_triple_bind with (R := λ _, in_turn n).
  - intros s ([Hs Hr] & Hl & Ha & Hn). apply in_turn_alter; [done|]. intros b' Hr' _. rewrite Hr in Hr'. injection Hr' as <-.
    split; [|by intros i []]. split; [done|]. intros _. by exists spec, t.
  - intros _. apply gen_keeps_for_each. intros. apply turns_flush_mcp.
Qed.

(** ** A turn *)

Lemma find_triple n i P D :
  (∀ s, P s → in_turn n s) →
  triple P (find_buffer (JStr i)) (λ r s, P s ∧
    ∀ r', r = Some r' → ∃ b, heap s !! r' = Some b ∧ called n i b) allowed_so_far D.
Proof.
  intros HP s Hs. unfold find_buffer, mbind, gen_bind, get, mret, gen_ret. split; [done|]. intros r' Hj.
  apply jget_elem in Hj as (k & Hin & ->%eqb_str_l). destruct (HP _ Hs) as [_ Hn].
  destruct (Hn _ _ Hin) as (i' & b & [= <-] & Hr & Hc). eauto.
Qed.

Lemma turns_added n e it i :
  Dict.get "id" it = Some (JStr i) → (Json.truthy (field "name" it) → field "name" it = n i) → in_turns n (call_added e it).
Proof.
  intros Hid Hname. unfold call_added, item. rewrite Hid. apply gen_keeps_lift_fact; [eauto|]. intros ? [= <-].
  apply gen_keeps_lift_fact; [eauto|]. intros ? [= <-].
  apply gen_triple_bind with (R := λ h s, in_turn n s ∧ h = heap s); [by apply gen_triple_get|]. intros h.
  apply gen_triple_bind with (R := λ _ s, in_turn n s ∧ heap s !! length h = Some (new_buf (JStr i) e)).
  { intros s [[Hs Hn] ->]. split; [split|].
    - destruct Hs as [Ht Hp Hi Hb]. split; [done|done|done|]. cbn. intros r b [?|[_ Hr]]%lookup_app_Some; [eauto|].
      apply list_lookup_singleton_Some in Hr as [_ <-]. split; [done|]. by intros [].
    - cbn. intros k r Hin. apply elem_jset in Hin as [Hin|Hin].
      + destruct (Hn _ _ Hin) as (i' & b & -> & Hr & Hc). exists i', b. split; [done|]. split; [|done].
        by apply lookup_app_l_Some.
      + assert (k = JStr i ∧ r = length (heap s)) as [-> ->].
        { cbn in Hin. destruct Hin as [[= -> ->]|[-> Hk]]; [done|]. by apply eqb_str_l in Hk as ->. }
        exists i, (new_buf (JStr i) e). split; [done|]. split; [by rewrite lookup_app_r, Nat.sub_diag|by split].
    - cbn. by rewrite lookup_app_r, Nat.sub_diag. }
  intros _. destruct (Json.truthy (py_or (field "name" it) (JStr ""))) eqn:Et.
  2: { apply gen_triple_ret. by intros s [? _]. }
  assert (Json.truthy (field "name" it)) as Htr.
  { unfold py_or in Et. destruct (Json.truthy (field "name" it)); [done|]. cbn in Et. by rewrite bool_decide_eq_true_2 in Et. }
  eapply gen_triple_bind; [|intros ?; apply turns_flush].
  intros s [Hs Hr]. split.
  - apply in_turn_alter; [done|]. intros b Hb [Hnone Hok]. rewrite Hr in Hb. injection Hb as <-.
    split; [split; [done|by intros []]|]. by intros i' [? _].
  - cbn. rewrite list_lookup_alter, decide_True, Hr by done. eexists _, i. split; [done|]. split; [done|]. split; [done|].
    cbn. unfold py_or. pose proof Htr as Htr'. rewrite (Hname Htr) in Htr' |- *. by destruct (Json.truthy (n i)).
Qed.

Lemma turns_arguments n e ty key set : (∀ v, harmless (set v)) → in_turns n (arguments_event e ty key set).
Proof.
  intros Hset. unfold arguments_event. gen_step; [gen_step|]. gen_step; [apply kept_find|].
  gen_step; [|gen_step]. apply turns_deref. intros b. gen_steps; first [by apply turns_update|harmless].
Qed.

Lemma turns_done n e it i :
  Dict.get "id" it = Some (JStr i) → Json.truthy (field "name" it) → field "name" it = n i → in_turns n (call_done e it).
Proof.
  intros Hid Htr Hname. unfold call_done, item. rewrite Hid. apply gen_keeps_lift_fact; [eauto|]. intros ? [= <-].
  apply gen_keeps_lift_fact; [eauto|]. intros ? [= <-].
  eapply gen_triple_bind; [by apply (find_triple n i (in_turn n))|]. intros [r|]; [|by apply gen_triple_lift; [|intros s [? _]; eauto]].
  apply gen_triple_bind with (R := λ _ s, in_turn n s ∧ ∃ b, heap s !! r = Some b ∧ inner_item_id b = JStr i ∧ b_name b = n i).
  { intros s [Hs Hf]. destruct (Hf r eq_refl) as (b & Hr & Hi & Hn). split.
    - apply in_turn_alter; [done|]. intros b' Hr' [Hnone Hok]. rewrite Hr in Hr'. injection Hr' as <-.
      assert (b_class b ≠ None → py_or (field "name" it) (b_name b) = b_name b) as Hsame.
      { intros Hc. rewrite (Hn Hc). unfold py_or. rewrite Hname. by destruct (Json.truthy (n i)). }
      split; [split; [done|]|].
      + cbn. intros Ho. rewrite Hsame; [auto|]. intros Hc. rewrite (Hnone Hc) in Ho. by destruct Ho.
      + intros i' [Hi' Hn']. split; [done|]. cbn. intros Hc. rewrite Hsame by done. auto.
    - cbn. rewrite list_lookup_alter, decide_True, Hr by done. eexists. split; [done|]. split; [done|].
      cbn. unfold py_or. destruct (Json.truthy (field "name" it)); done. }
  intros _. apply gen_triple_bind with (R := λ b s, in_turn n s ∧ (b_class b = None → unclassified n r s)).
  { apply deref_triple; [by intros s [? _]; eauto|]. intros s b [Hs (b' & Hr & Hi & Hn)] Hr'.
    rewrite Hr in Hr'. injection Hr' as <-. split; [done|]. intros Hc. split; [done|]. by exists b', i. }
  intros b. apply gen_triple_bind with (R := λ _, in_turn n).
  { destruct (b_class b); [apply gen_triple_ret; by intros s [? _]|]. intros s [_ Hs]. apply turns_flush. auto. }
  intros _. match goal with |- triple _ ?m _ _ _ => change (in_turns n m) end. gen_step; [harmless|]. apply turns_deref. intros b'. gen_step; [gen_steps|].
  apply gen_keeps_modify. intros s Hs. eapply in_turn_robust; [done..|exact (in_turn_allowed _ _ Hs)].
Qed.

Ltac in_frame := apply kept_modify; [apply in_turn_robust|intros ?; by split_and!].

Lemma turns_absorb n at_ ix : in_turns n (absorb_item at_ ix).
Proof.
  unfold absorb_item. gen_step; [gen_step|]. gen_step; [in_frame|]. gen_step; [gen_step|].
  gen_step; [apply kept_find|]. gen_step; [|gen_step; [in_frame|gen_step]].
  gen_step; [|gen_step]. apply turns_deref. intros. gen_step.
Qed.

Lemma turns_finish n e : in_turns n (finish_turn e).
Proof. unfold finish_turn. gen_steps; first [in_frame|apply turns_absorb]. Qed.

Lemma turns_event n ev : event_named n ev → in_turns n (turn_event ev).
Proof.
  destruct ev as [err|e|]; cbn [turn_event event_named]; intros Hn; [gen_steps; in_frame| |gen_step].
  do 3 (gen_step; [gen_steps; first [in_frame|apply turns_finish]|]).
  apply gen_keeps_lift_fact; [eauto|]. intros it Hit.
  assert (type_is "function_call" it → ∃ i, Dict.get "id" it = Some (JStr i) ∧
    (type_is "response.output_item.added" e → Json.truthy (field "name" it) → field "name" it = n i) ∧
    (type_is "response.output_item.done" e → Json.truthy (field "name" it) ∧ field "name" it = n i)) as Hit'.
  { intros Hty. apply (Hn it); [by apply dict_of_item|done]. }
  gen_step; [|gen_step]. case_match eqn:Ea.
  { apply andb_true_iff in Ea as [Ea Ec]. destruct Hit' as (i & Hid & Hadd & _); [by rewrite Ec|].
    apply (turns_added _ _ _ i); [done|]. apply Hadd. by rewrite Ea. }
  gen_step; [apply turns_arguments; intros v b; by split_and!|].
  gen_step; [apply turns_arguments; intros v b; by split_and!|]. case_match eqn:Ed; [|by apply kept_forward, in_turn_robust].
  apply andb_true_iff in Ed as [Ed Ec]. destruct Hit' as (i & Hid & _ & Hdone); [by rewrite Ec|].
  destruct Hdone; [by rewrite Ed|]. by apply (turns_done _ _ _ i).
Qed.

Lemma run_turn_base stream : names_settled stream.1 → in_base (run_turn stream).
Proof.
  intros [n Hn]. unfold run_turn.
  apply gen_triple_bind with (R := λ _, in_turn n).
  { intros s Hs. split; [by destruct Hs|]. cbn. by intros k r ?%not_elem_of_nil. }
  intros _. apply gen_triple_conseq with (in_turn n) (λ _ : unit, in_turn n) allowed_so_far allowed_so_far; [|done|by intros _ s []|done..].
  match goal with |- triple _ ?m _ _ _ => change (in_turns n m) end.
  do 2 (gen_step; [in_frame|]). gen_step; [|gen_steps]. apply gen_keeps_while_each. intros ev Hin.
  apply turns_event. by eapply Forall_forall in Hn.
Qed.

(** ** The request *)

Section request.
Context (request : Request) (response_id : string) (created_at : Z).

(** What [discover] returns: tools of a server of the request by its label. *)
Definition all_listed (discovered : dict (list Tool)) : Prop :=
  ∀ label ts t, Dict.get label discovered = Some ts → t ∈ ts → ∃ spec, server_label spec = label ∧ listed listings specs before spec t.

Lemma approval_requests_ok requests k req :
  approval_requests input = Ok requests → jget k requests = Some req →
  JObj req ∈ input ∧ type_is "mcp_approval_request" req ∧ ∃ k', Json.eqb k k' = true ∧ Json.eqb (field "id" req) k' = true.
Proof.
  intros Hr (k' & Hin & Hk)%jget_elem. unfold approval_requests in Hr.
  enough (∀ l acc requests, l ⊆ input →
    (∀ kv, kv ∈ acc → JObj kv.2 ∈ input ∧ type_is "mcp_approval_request" kv.2 ∧ Json.eqb (field "id" kv.2) kv.1 = true) →
    (fix go (l : list json) (acc : list (json * dict json)) := match l with
      | [] => Ok acc
      | JObj d :: l => if type_is "mcp_approval_request" d
                       then id ← hashable (field "id" d); go l (jset id d acc) else go l acc
      | _ :: l => go l acc end) l acc = Ok requests →
    ∀ kv, kv ∈ requests → JObj kv.2 ∈ input ∧ type_is "mcp_approval_request" kv.2 ∧ Json.eqb (field "id" kv.2) kv.1 = true)
    as Hgo.
  { destruct (Hgo input [] requests) with (kv := (k', req)) as (? & ? & ?); [done|by intros ? ?%not_elem_of_nil|done..|].
    split_and!; [done..|]. by exists k'. }
  clear. induction l as [|v l IH]; intros acc requests Hl Hacc Hgo; [by injection Hgo as <-|].
  destruct v as [| | | | | |d]; try (apply (IH acc); [set_solver|done|done]).
  destruct (type_is "mcp_approval_request" d) eqn:Ed; [|apply (IH acc); [set_solver|done|done]].
  apply res_bind_ok in Hgo as (id & Hid & Hgo). pose proof (eqb_hashable _ _ Hid) as Hrefl.
  apply hashable_ok in Hid as ->. eapply IH; [|..|done]; [set_solver|].
  intros kv [?|[->|[<- ?]]]%elem_jset; [auto|..].
  - split; [apply Hl; by left|]. split; [apply Is_true_eq_left; exact Ed|done].
  - split; [apply Hl; by left|]. split; [apply Is_true_eq_left; exact Ed|done].
Qed.

Lemma resume_base discovered requests it :
  NoDup (server_label <$> specs) → all_listed discovered → approval_requests input = Ok requests → it ∈ input →
  in_base (resume_one specs discovered requests it).
Proof.
  intros Hnd Hd Hreq Hit. unfold resume_one. destruct it as [| | | | | |d]; [apply gen_keeps_ret..|].
  gen_step; [gen_step|]. apply negb_false_iff in Heqb as Hty.
  apply gen_keeps_lift_fact; [eauto|]. intros k Hk. apply hashable_ok in Hk as ->.
  destruct (jget _ requests) as [req|] eqn:Ej.
  2: { apply kept_over; [apply base_robust|]. by apply kept_act; [apply base_robust|]. }
  apply gen_keeps_lift_fact; [eauto|]. intros label Hlabel. apply hashable_ok in Hlabel as ->.
  do 2 (gen_step; [by eauto with gens|]).
  destruct (last _) as [spec|] eqn:El; [|apply kept_refuse, base_robust].
  destruct (_ && _) eqn:Eb; [|apply kept_refuse, base_robust].
  apply gen_keeps_lift_fact; [eauto|]. intros item Hitem. do 3 (gen_step; [by eauto with gens|]).
  assert (∀ s, base s → permitted listings specs input (trace s)
    (Called spec (or_empty (Dict.get "name" req)) (or_empty (Dict.get "arguments" req)))) as Hp.
  { apply andb_true_iff in Eb as [Happ [_ Hknown]%andb_true_iff]. apply existsb_exists in Hknown as (t & Ht & Hname).
    apply eqb_str_l in Hname. apply list_elem_of_In in Ht.
    apply last_Some_elem_of, list_elem_of_filter in El as [Hlab%Is_true_eq_true%eqb_str_l Hin].
    rewrite Hlab in Ht. destruct (Dict.get (server_label spec) discovered) as [ts|] eqn:Ets; [|by apply not_elem_of_nil in Ht].
    destruct (Hd _ _ _ Ets Ht) as (spec' & Hsl & [Hin' Hts]).
    assert (spec' = spec) as -> by (by eapply NoDup_fmap_eq).
    intros s Hs. eapply permitted_mono; [apply Hs|].
    exists t. split; [by split|]. split; [done|]. right.
    destruct (approval_requests_ok _ _ _ Hreq Ej) as (Hrin & Hrty & k' & Hk1 & Hk2).
    exists req, d. split; [done|]. split; [done|]. split; [done|]. split; [by rewrite Hty|]. split; [by rewrite Happ|].
    split; [|done]. unfold McpCallItem in Hitem. do 3 apply res_bind_ok in Hitem as (? & _ & Hitem).
    apply res_bind_ok in Hitem as (v & Hv & _). destruct (field "approval_request_id" d); try done.
    - apply eqb_null_l in Hk1 as ->. by apply eqb_null_r in Hk2.
    - apply eqb_str_l in Hk1 as ->. by apply eqb_str_r in Hk2. }
  gen_step; [by apply kept_execute; [apply base_robust|]|]. gen_steps.
Qed.

Lemma base_deref {B} r (f : BufferedCall → gen B) : (∀ b, buf_ok b → in_base (f b)) → in_base (deref r ≫= f).
Proof.
  intros Hf. apply (gen_keeps_bind_fact _ _ _ _ _ buf_ok); [|done]. apply deref_triple; [eauto|].
  intros s b Hs Hr. split; [done|]. by eapply Hs.
Qed.

Lemma settle_base calls : in_base (settle calls).
Proof.
  induction calls as [|r calls IH]; cbn [settle]; [gen_step|]. apply base_deref. intros b [_ Hok].
  destruct (b_entry b) as [[spec t]|] eqn:Ee; [|gen_step]. destruct (abs_oi b) as [oi|]; [|gen_step]. case_decide.
  - gen_steps; exact IH.
  - destruct (outer_id b) as [id|]; [|gen_step]. destruct (Hok (ltac:(by eexists))) as (? & ? & [= <- <-] & Hl & Ha & Hn).
    gen_step.
    { apply kept_execute; [apply base_robust|]. intros s Hs. eapply permitted_mono; [apply Hs|].
      exists t. split; [done|]. split; [done|]. by left. }
    gen_steps; exact IH.
Qed.

Lemma turn_base turn_index other_tools executed :
  (∀ t r, names_settled (respond t r).1) →
  in_base (turn request response_id turn_index other_tools input executed).
Proof.
  intros Hn. unfold turn. do 2 (gen_step; [gen_step|]). gen_step; [by apply kept_act; [apply base_robust|]|].
  gen_step; [by apply run_turn_base|]. do 2 (gen_step; [gen_step|]).
  destruct a3 as [err|].
  { apply kept_over; [apply base_robust|]. by apply kept_act; [apply base_robust|]. }
  destruct a4 as [failed|].
  { destruct failed; try gen_step. apply kept_over; [apply base_robust|]. by eauto with gens. }
  do 2 (gen_step; [gen_step|]). gen_step; [apply kept_modify; [apply base_robust|intros ?; by split_and!]|].
  gen_step; [gen_steps|]. gen_step; [apply settle_base|]. gen_steps.
Qed.

Lemma turns_base n : (∀ t r, names_settled (respond t r).1) → ∀ turn_index other_tools executed,
  in_base (turns request response_id n turn_index other_tools input executed).
Proof.
  intros Hn. induction n as [|n IH]; intros; cbn [turns]; [gen_step|].
  gen_step; [by apply turn_base|]. gen_step; [apply IH|gen_step].
Qed.

End request.
End before.

(** *** Discovery *)

#[local] Hint Extern 1 (keeps (base _) _ _ _) =>
  first [apply kept_draw|apply kept_uuid|apply kept_now|apply kept_claim|apply kept_send|apply kept_forward
        |apply kept_yield|apply kept_keep|apply kept_place|apply kept_refuse|apply kept_response|apply kept_classify]; apply base_robust : gens.
#[local] Hint Resolve base_allowed : core.

Notation based b := (keeps (base b) allowed_so_far allowed_so_far).

Lemma base_step before {A B} (m : gen A) (f : A → gen B) Q :
  based before m → (∀ a, triple (base before) (f a) Q allowed_so_far allowed_so_far) →
  triple (base before) (m ≫= f) Q allowed_so_far allowed_so_far.
Proof. intros Hm Hf. by apply gen_triple_bind with (R := λ _, base before). Qed.

Lemma base_lift before {A B} (r : res A) (f : A → gen B) Q :
  (∀ a, r = Ok a → triple (base before) (f a) Q allowed_so_far allowed_so_far) →
  triple (base before) (lift r ≫= f) Q allowed_so_far allowed_so_far.
Proof.
  intros Hf s Hs. unfold mbind, gen_bind, lift. destruct r as [a|]; [by apply Hf|by eapply base_allowed].
Qed.

(** What is offered now is offered later. *)
Lemma base_mono before before' s : base before s → before `prefix_of` before' → before' `prefix_of` trace s → base before' s.
Proof.
  intros [Ht _ Hi Hb] Hp Hp'. split; [done..| |].
  - intros n spec t Hn. destruct (Hi _ _ _ Hn). split; [done|]. by eapply listed_mono.
  - intros r b Hr. destruct (Hb _ _ Hr) as [Hc Ho]. split; [done|]. intros (spec & t & He & Hl & Hrest)%Ho.
    exists spec, t. split; [done|]. split; [by eapply listed_mono|done].
Qed.

Section discovery.
Context (request : Request) (response_id : string) (created_at : Z).

Lemma stored_tools_listed before spec ts :
  spec ∈ specs → stored_tools spec (jget (JStr (server_label spec)) listings) = Ok (Some ts) →
  ∀ t, t ∈ ts → listed listings specs before spec t.
Proof.
  intros Hs Hst t Ht. split; [done|]. unfold stored_tools in Hst.
  destruct (jget _ listings) as [[| | | | | |d]|] eqn:Ed; try done.
  apply res_bind_ok in Hst as (url & Hurl & Hst). apply res_bind_ok in Hst as (allowed & Hall & Hst).
  destruct (negb _) eqn:En; [done|]. apply negb_false_iff, andb_true_iff in En as [Eu Ea].
  apply res_bind_ok in Hst as (v & Hv & Hst). apply res_bind_ok in Hst as (l & Hl & Hst).
  destruct (mapM _ _) as [tools|] eqn:Em; [|done]. destruct (filter_tools spec tools) as [ts'|] eqn:E; [|done].
  injection Hst as ->. exists tools, ts. split; [right|done]. unfold item in *.
  destruct (Dict.get "server_url" d) as [x|] eqn:E1; [|done]. destruct (Dict.get "allowed_tools" d) as [y|] eqn:E2; [|done].
  destruct (Dict.get "tools" d) as [z|] eqn:E3; [|done]. simplify_eq. exists d, url, allowed, v, l. done.
Qed.

(** A server's tools, as offered by the time they are known *)
Lemma discover_one_listed before spec :
  spec ∈ specs →
  triple (base before) (discover_one request response_id created_at listings spec)
    (λ ts s, ∃ before', before `prefix_of` before' ∧ base before' s ∧ ∀ t, t ∈ ts → listed listings specs before' spec t)
    allowed_so_far allowed_so_far.
Proof.
  intros Hs. unfold discover_one. apply base_lift. intros stored Hst. destruct stored as [ts|].
  { apply gen_triple_ret. intros s Hb. exists before. split; [done|]. split; [done|]. by eapply stored_tools_listed. }
  apply base_step; [by auto with gens|]. intros oi. apply base_step; [by auto with gens|]. intros id.
  do 2 (apply base_step; [by auto with gens|]; intros _).
  apply gen_triple_bind with (R := λ t s, base before s ∧ t = trace s); [by apply gen_triple_get|]. intros t.
  apply gen_triple_bind with (R := λ _ s, base before s ∧ trace s = t ++ [Listed spec]).
  { intros s [Hb ->]. split; [|done]. by apply (kept_act _ (base_robust before) (Listed spec)). }
  intros _. destruct (list_tools t spec) as [why|tools] eqn:El.
  - apply gen_triple_conseq with (base before) (λ _ _, False) allowed_so_far allowed_so_far; [|by intros s []|done..].
    do 3 (apply base_step; [by auto with gens|]; intros _).
    apply base_step; [by apply kept_fail, base_robust|]. intros _.
    by apply gen_triple_return, base_allowed.
  - set (before' := t ++ [Listed spec]).
    apply gen_triple_bind with (R := λ ts s, base before' s ∧ before `prefix_of` before' ∧ filter_tools spec tools = Ok ts).
    { apply gen_triple_lift; [|by intros s [[] _]]. intros s ts Hts [Hb Ht]. fold before' in Ht.
      pose proof (ba_before _ _ Hb) as Hp. rewrite Ht in Hp. split; [|done]. eapply base_mono; [done..|by rewrite Ht]. }
    intros ts s (Hb & Hp & Hts). revert s Hb. 
    apply (gen_triple_conseq _ (base before') (base before') (λ ts' s, base before' s ∧ ts' = ts) _ allowed_so_far allowed_so_far
      allowed_so_far allowed_so_far); [|done| |done..].
    + do 3 (apply base_step; [by auto with gens|]; intros _). by apply gen_triple_ret.
    + intros ts' s [Hb ->]. exists before'. split; [done|]. split; [done|]. intros t' Ht'. split; [done|].
      exists tools, ts. split; [left; by exists t, []|done].
Qed.

Lemma index_ok before spec ts (d : tool_index_t) :
  (∀ t, t ∈ ts → listed listings specs before spec t) →
  (∀ n spec t, Dict.get n d = Some (spec, t) → n = t_name t ∧ listed listings specs before spec t) →
  ∀ n spec' t, Dict.get n (foldl (λ d t, Dict.set (t_name t) (spec, t) d) d ts) = Some (spec', t) →
    n = t_name t ∧ listed listings specs before spec' t.
Proof.
  revert d. induction ts as [|t ts IH]; intros d Hts Hd; [done|]. cbn. apply IH; [intros; apply Hts; by right|].
  intros n spec' t'. rewrite Dict.get_set. case_decide as En; [|by apply Hd]. intros [= <- <-]. split; [done|].
  apply Hts. by left.
Qed.

Lemma discover_listed ss : ∀ before discovered,
  ss ⊆ specs → all_listed before discovered →
  triple (base before) (discover request response_id created_at listings ss discovered)
    (λ d s, ∃ before', base before' s ∧ all_listed before' d) allowed_so_far allowed_so_far.
Proof.
  induction ss as [|spec ss IH]; intros before discovered Hss Hd; cbn [discover]; [apply gen_triple_ret; eauto|].
  eapply gen_triple_bind; [apply discover_one_listed, Hss; by left|]. intros ts s (before' & Hp & Hb & Hts).
  revert s Hb. apply gen_triple_bind with (R := λ _, base before').
  { intros s [Ht Hbef Hi Hb]. split; [done|done| |done]. cbn. by apply index_ok. }
  intros _. apply IH; [set_solver|]. intros label ts' t. rewrite Dict.get_set. case_decide as El.
  - intros [= <-] Hin. exists spec. split; [done|auto].
  - intros Hg Hin. destruct (Hd _ _ _ Hg Hin) as (spec' & ? & ?). exists spec'. split; [done|]. by eapply listed_mono.
Qed.

Lemma request_allowed before other_tools :
  NoDup (server_label <$> specs) → (∀ t r, names_settled (respond t r).1) →
  triple (base before) (run_request request response_id created_at listings specs other_tools input)
    (λ _, allowed_so_far) allowed_so_far allowed_so_far.
Proof.
  intros Hnd Hn. unfold run_request.
  apply base_lift. intros created _. do 2 (apply base_step; [by auto with gens|]; intros _).
  eapply gen_triple_bind; [by apply (discover_listed specs before [])|]. intros discovered s (before' & Hb & Hd).
  revert s Hb.
  apply gen_triple_conseq with (base before') (λ _ : unit, base before') allowed_so_far allowed_so_far; [|done|eauto|done..].
  match goal with |- triple _ ?m _ _ _ => change (based before' m) end.
  gen_step; [destruct (check_collisions _ _ _) as [|[]]; try gen_step; apply kept_over; [apply base_robust|apply kept_fail, base_robust]|].
  apply gen_keeps_lift_fact; [eauto|]. intros requests Hreq.
  gen_step; [apply gen_keeps_for_each; intros; by apply (resume_base _ discovered)|].
  gen_step; [by apply turns_base|]. gen_steps.
Qed.
End discovery.

Lemma events_allowed request response_id other_tools :
  check_request request = Ok (specs, other_tools, input) → (∀ t r, names_settled (respond t r).1) →
  triple (base []) (events request response_id listings) (λ _, allowed_so_far) allowed_so_far allowed_so_far.
Proof.
  intros Hc Hn. unfold events. rewrite Hc.
  apply base_step; [gen_steps|]. intros i. apply base_step; [by auto with gens|]. intros created_at.
  apply request_allowed; [|done]. unfold check_request in Hc. apply res_bind_ok in Hc as ([ss other] & Hsplit & Hc).
  do 2 apply res_bind_ok in Hc as (? & _ & Hc). apply res_bind_ok in Hc as (? & _ & [= -> -> _]).
  by apply split_from_ok in Hsplit as (_ & ? & _).
Qed.

Lemma start_base : base [] start.
Proof. split; [by intros [|??] ?? [=]|done|done|]. intros r b. cbn. by rewrite lookup_nil. Qed.

(** A whole run *)
Lemma run_permitted request response_id other_tools :
  check_request request = Ok (specs, other_tools, input) → (∀ t r, names_settled (respond t r).1) →
  ∀ before a after, (run_events request response_id listings).1 = before ++ a :: after →
    permitted listings specs input before a.
Proof.
  intros Hc Hn before a after E. pose proof (events_allowed request response_id other_tools Hc Hn start start_base) as He.
  unfold run_events in E. destruct (events _ _ _ _) as [s [[]|e|]]; by eapply He.
Qed.
End facts.
End ApprovalFacts.

Module ApprovalProperties.
Import PolicyFacts ApprovalFacts PolicyTheorems.

(** C18: No tool runs that the request doesn't allow: only the request's servers are asked for their tools,
    and a call of a tool server is always of a tool that this server offered before (in its answer when it
    was asked, or in the conversation's stored listing of it) and that its [allowed_tools] lets through,
    and it is one that [require_approval] waives, or one whose approval the request's input both asks
    for and gives, with the same tool, server and arguments. Asked of the loaders is only that a turn's
    function calls keep their names. *)
Theorem calls_permitted `{SpecReader} `{Envelope} `{World} request response_id listings specs other_tools input before a after :
  check_request request = Ok (specs, other_tools, input) →
  (∀ t r, names_settled (respond t r).1) →
  (run_events request response_id listings).1 = before ++ a :: after →
  permitted listings specs input before a.
Proof. intros Hc Hn. by eapply run_permitted. Qed.

(** ** A dice server, and a loader that rolls once *)

Definition roll : Tool := mkTool "roll" [] (Some [("readOnlyHint"%string, JBool true)]) None.
Definition roll_call : dict json :=
  [("type", JStr "function_call"); ("id", JStr "fc_1"); ("name", JStr "roll"); ("arguments", JStr "{}")]%string.
Definition message : dict json := [("type", JStr "message"); ("id", JStr "msg_1")]%string.
Definition event (ty : string) (fields : dict json) : inner_event :=
  IEvent (("type"%string, JStr ty) :: ("sequence_number"%string, JInt 7) :: fields).
Definition rolling : list inner_event :=
  [event "response.created" [];
   event "response.output_item.added" [("output_index", JInt 0); ("item", JObj roll_call)];
   event "response.output_item.done" [("output_index", JInt 0); ("item", JObj roll_call)];
   event "response.completed" [("response", JObj [("output", JList [JObj roll_call])])]]%string.
Definition talking : list inner_event :=
  [event "response.completed" [("response", JObj [("output", JList [JObj message])])]]%string.

#[export] Instance example_envelope : Envelope := strict_envelope.

Definition example_world (first : list inner_event) : World := {|
  list_tools _ _ := inr [roll];
  call_tool _ _ _ _ := Ok (inr "4"%string);
  respond t _ := (if existsb (λ a, if a is Responded _ then true else false) t then talking else first, None);
  random_uuid := pretty;
  time _ := 0;
  environ _ := None
|}.

Definition example_request (approval : string) (previous : option string) (input : list json) : Request :=
  mkRequest (inr input) (JStr "m") JNull JNull JNull JNull (Some [example_tool "dice" (JStr approval)])
    JNull JNull JNull JNull JNull JNull JNull previous JNull None JNull JNull.

Definition is_call (a : action) : bool := if a is Called _ _ _ then true else false.

Lemma example_named first t r :
  first = rolling ∨ first = talking → names_settled (@respond (example_world first) t r).1.
Proof.
  intros Hf. exists (λ _, JStr "roll"). cbn.
  assert (Forall (event_named (λ _, JStr "roll")) rolling ∧ Forall (event_named (λ _, JStr "roll")) talking) as [Hr Ht].
  { split; repeat constructor; intros it; vm_compute; intros [= <-] _; by eexists. }
  destruct (existsb _ t); [done|]. by destruct Hf as [->| ->].
Qed.

Lemma calls_permitted_witness :
  let spec := example_spec "dice" (JStr "never") in
  let run := run_events (H1 := example_world rolling) (example_request "never" None []) None [] in
  filter is_call run.1 = [Called spec (JStr "roll") (JStr "{}")] ∧
  permitted (H1 := example_world rolling) [] [spec] [] (take 9 run.1) (Called spec (JStr "roll") (JStr "{}")).
Proof.
  intros spec run. split; [vm_compute; reflexivity|].
  apply (calls_permitted (H1 := example_world rolling) (example_request "never" None []) None [] [spec] [] []
    (take 9 run.1) _ (drop 10 run.1)); [vm_compute; reflexivity| |vm_compute; reflexivity].
  intros t r. apply example_named. by left.
Defined.

Definition py_format : json → string := λ _, ""%string.
Definition asked_turn : dict json :=
  [("id", JStr "resp_1");
   ("output", JList [JObj [("type", JStr "mcp_approval_request"); ("id", JStr "mcpr_1"); ("name", JStr "roll");
      ("arguments", JStr "{}"); ("server_label", JStr "dice")]])]%string.
Definition approval : list json :=
  [JObj [("type", JStr "mcp_approval_response"); ("approval_request_id", JStr "mcpr_1"); ("approve", JBool true)]]%string.

Definition ask (approval previous : string) (input : list json) : list action :=
  (run_events (H1 := example_world talking) (example_request approval (Some previous) input) (Some "resp_2"%string) []).1.
Definition resolved (previous : string) (now : Z) (s : Actor.t) : list json :=
  if run_task (resolve_previous py_format None "ann" previous) now s is Some (_, Ok (items, _, _)) then items else [].
Definition stored (response_id : string) (response : dict json) (parent : option Position) (input : list json)
    (now : Z) (s : Actor.t) : Actor.t :=
  (run (write None (λ n, pretty n) "ann" response_id response parent input) now s).1.

(** The conversation's store after its first turn, the second turn's run, and the store after it. *)
Definition after_asking : Actor.t :=
  stored "resp_1" asked_turn None (as_input_items (inl "roll for me"%string)) 1 (Actor.init 0 10).
Definition approved_run : list action := ask "always" "resp_1" (resolved "resp_1" 2 after_asking ++ approval).
Definition approved_response : dict json :=
  if last approved_run is Some (Yield e) then if field "response" e is JObj r then r else [] else [].
Definition after_approving : Actor.t :=
  stored "resp_2" approved_response (Some (position_at "resp_1" 1)) approval 3 after_asking.

(** An approval is acted on again in every later turn of its conversation: the turn that gave it is
    part of the history that the next turns are sent with, and the loop resumes every approval in its
    input. Here a stored conversation asked for an approval of [roll] and ran it once approved; the
    turn after, which only says thanks, runs it once more. *)
Theorem old_approvals_run_again :
  let thanks := as_input_items (inl "thanks"%string) in
  let call := Called (example_spec "dice" (JStr "always")) (JStr "roll") (JStr "{}") in
  filter is_call approved_run = [call] ∧
  filter is_call (ask "always" "resp_2" (resolved "resp_2" 4 after_approving ++ thanks)) = [call].
Proof. split; vm_compute; reflexivity. Qed.
End ApprovalProperties.
