(* ===== verification/Affinity.v ===== *)
(** * Session affinity

    [src/modelship/openai/utils/affinity.py]: the key by which Serve sends the turns of one conversation to the same
    replica. It is a digest of who asks, of the request's own cache key, and of the conversation up to its first user
    message, so the turns that follow have the same one. *)

From S2P Require Import Prelude StateStore MemoryStore ConfigSchema JsonText Errors Liveness ResponsesState ResponseObjects ResponsesLogs ResponsesTheorems.
Local Open Scope Z_scope.

(** [_cut] *)
Definition CUT : nat := 4096.
Fixpoint _cut (value : json) : json :=
  match value with
  | JStr s => JStr (str_take CUT s)
  | JObj d => JObj (map (λ kv : string * json, (kv.1, _cut kv.2)) d)
  | JList l => JList (map _cut l)
  | v => v
  end.

(** A dict's keys in order, as [json.dumps(sort_keys=True)] writes them *)
Fixpoint sort_keys (value : json) : json :=
  match value with
  | JObj d => JObj (Sort.sort (λ a b : string * json, String.leb a.1 b.1) (map (λ kv : string * json, (kv.1, sort_keys kv.2)) d))
  | JList l => JList (map sort_keys l)
  | v => v
  end.

(** The items of [_key]'s loop: without their ids, up to the first of a user *)
Definition is_user (d : dict json) : bool := if Dict.get "role" d is Some (JStr s) then bool_decide (s = "user"%string) else false.
Fixpoint head_items (items : list json) : res (list json) :=
  match items with
  | [] => Ok []
  | JObj d :: items =>
      let it := JObj (Dict.pop "id" d) in
      if is_user d then Ok [it] else l ← head_items items; Ok (it :: l)
  | _ :: _ => Err (OtherError "AttributeError")
  end.

Section key.
Context `{FloatText} (blake2b_hex : string → string).

Definition key_text (identity : string) (prompt_cache_key : json) (head : list json) : string :=
  dumps (sort_keys (JList [JStr identity; prompt_cache_key; _cut (JList head)])).

(** [_key] *)
Definition _key (identity : string) (prompt_cache_key : json) (head items : list json) : res string :=
  l ← head_items items;
  Ok (blake2b_hex (key_text identity prompt_cache_key (head ++ l))).

(** [chat_key], of a request's cache key and messages *)
Definition chat_key (prompt_cache_key : json) (messages : list json) (identity : string) : res string :=
  _key identity prompt_cache_key [] messages.

(** [responses_key] *)
Definition responses_key (request : Request) (identity : string) : res string :=
  _key identity (prompt_cache_key request) [instructions request] (as_input_items (r_input request)).
End key.

Module AffinityFacts.

(** A conversation that a user has spoken in *)
Definition has_user (items : list json) : Prop := Exists (λ it, ∃ d, it = JObj d ∧ is_user d = true) items.

Lemma head_items_app items more : has_user items → head_items (items ++ more) = head_items items.
Proof.
  induction 1 as [it items (d & -> & Hu)|it items _ IH]; cbn; [by rewrite Hu|].
  destruct it; try done. case_match; [done|]. by rewrite IH.
Qed.

(** The same items, but for the ids of some *)
Definition same_item (a b : json) : Prop :=
  a = b ∨ ∃ d d', a = JObj d ∧ b = JObj d' ∧ Dict.pop "id" d = Dict.pop "id" d'.

Lemma is_user_pop d : is_user d = is_user (Dict.pop "id" d).
Proof. unfold is_user. by rewrite Dict.get_pop, decide_False. Qed.

Lemma head_items_same l l' : Forall2 same_item l l' → head_items l = head_items l'.
Proof.
  induction 1 as [|a b l l' [->|(d & d' & -> & -> & Hp)] _ IH]; [done|..]; cbn; [by rewrite IH|].
  by rewrite (is_user_pop d), (is_user_pop d'), Hp, IH.
Qed.

Lemma pop_set k (v : json) d : Dict.pop k (Dict.set k v d) = Dict.pop k d.
Proof.
  unfold Dict.pop. induction d as [|[k' v'] d IH]; cbn [Dict.set].
  - by rewrite filter_cons, decide_False by (by intros []).
  - case_decide as E; rewrite !filter_cons; cbn; [|by rewrite IH]. subst k'. by rewrite !decide_False by (by intros []).
Qed.

Lemma with_ids_same uuids l l' : with_ids uuids l = Ok l' → Forall2 same_item l l'.
Proof.
  revert uuids l'. induction l as [|it l IH]; intros uuids l'; cbn; [by intros [= <-]|].
  intros (it' & Hi & (l2 & Hl & [= <-])%res_bind_ok)%res_bind_ok. constructor; [|by eapply IH].
  unfold with_id in Hi. destruct it as [| | | | | |d]; try done. apply res_bind_ok in Hi as (ty & _ & Hi).
  destruct (if ty is JStr _ then _ else _) as [prefix|]; [|left; congruence]. case_match; [left; congruence|].
  injection Hi as <-. right. eexists _, _. split_and!; [done..|]. by rewrite pop_set.
Qed.

Lemma same_refl l : Forall2 same_item l l.
Proof. induction l; constructor; [by left|done]. Qed.

(** ** Texts *)

Section text.
Context `{FloatText}.
Import JsonFacts.

Lemma text_ok_cut j : text_ok j → text_ok (_cut j).
Proof.
  induction j as [| | | | |l IH|d IH] using Json.rect_strong; try done; cbn [_cut].
  - rewrite !text_ok_list. intros Hl. apply Forall_fmap. rewrite !Forall_forall in *. cbn. auto.
  - rewrite !text_ok_dict. intros [Hk Hv]. unfold Dict.keys, Dict.values in *. rewrite <-!list_fmap_compose. split; [done|].
    apply Forall_fmap. rewrite Forall_fmap, Forall_forall in Hv, IH. apply Forall_forall. cbn in *. auto.
Qed.

Lemma text_ok_sort j : text_ok j → text_ok (sort_keys j).
Proof.
  induction j as [| | | | |l IH|d IH] using Json.rect_strong; try done; cbn [sort_keys].
  - rewrite !text_ok_list. intros Hl. apply Forall_fmap. rewrite !Forall_forall in *. cbn. auto.
  - rewrite !text_ok_dict. intros [Hk Hv]. unfold Dict.keys, Dict.values in *. rewrite !Sort.sort_perm, <-!list_fmap_compose.
    split; [done|]. apply Forall_fmap. rewrite Forall_fmap, Forall_forall in Hv, IH. apply Forall_forall. cbn in *. auto.
Qed.
End text.
End AffinityFacts.

Module AffinityProperties.
Import AffinityFacts LogFacts ConversationFacts ConversationProperties.

(** C21: A conversation keeps its key while its requests keep their [prompt_cache_key] and [instructions]: once a turn
    is stored that was sent with its conversation so far and its own input, and a user has spoken in these, any later
    request that has the same [prompt_cache_key] and [instructions] as the turn's and continues it within the time to
    live, with the history that is read back and whatever input it brings, has the key that the turn's request had,
    although the stored items got ids. The store is atomic, its logs are as the module leaves them and the turn's id is
    new. *)
Theorem conversation_keeps_key `{FloatText} `{StateStoreAtomic T} blake2b_hex py_format ttl uuids i rid response parent input outs es now
    (s s' : T) request :
  (∀ d, ttl = Some d → 0 < d) → ss_valid s → tidy ttl now (cells s) →
  continues ttl now i s parent es → unstored now i rid s parent →
  py_or (default JNull (Dict.get "output" response)) (JList []) = JList outs →
  run (write ttl uuids i rid response parent input) now s = (s', Ok tt) →
  as_input_items (r_input request) = items es ++ input → has_user (items es ++ input) →
  ∃ record, ∀ t, now ≤ t → in_time ttl now t →
    (∀ s2 r, run (read py_format i rid false) t s' = (s2, Ok r) → r = Some record) ∧
    ∀ s2 past pos ls, run (history py_format ttl i record) t s' = (s2, Ok (Some (past, pos, ls))) →
      ∀ later new, as_input_items (r_input later) = past ++ new →
        prompt_cache_key later = prompt_cache_key request → instructions later = instructions request →
        responses_key blake2b_hex later i = responses_key blake2b_hex request i.
Proof.
  intros Httl Hv Ht Hc Hu Ho Hw Hreq Hus.
  destruct (turn_reads_back py_format ttl uuids i rid response parent input outs es now s s' Httl Hv Ht Hc Hu Ho Hw)
    as (input' & record & Hi & _ & Hr).
  exists record. intros t Hnow Hin. destruct (Hr t Hnow Hin) as (Hread & _ & Hhist). split; [done|].
  intros s2 past pos ls Hh later new Hl Hk Hins. destruct (Hhist _ _ Hh) as (? & ? & [= -> -> ->]).
  unfold responses_key, _key. rewrite Hl, Hk, Hins, Hreq. rewrite <-(head_items_app _ (outs ++ new) Hus).
  rewrite (head_items_same ((items es ++ input) ++ outs ++ new) ((items es ++ input' ++ outs) ++ new)); [done|].
  rewrite <-!app_assoc. apply Forall2_app; [apply same_refl|]. apply Forall2_app; [by eapply with_ids_same|apply same_refl].
Qed.

(** Other conversations have other texts: the text tells the identity, the request's cache key and the items up to the
    first user's, each but for the order of keys in dicts and for what follows a string's first 4096 characters. *)
Theorem keys_distinguish `{FloatText} identity pck head identity' pck' head' :
  JsonFacts.text_ok pck → Forall JsonFacts.text_ok head → JsonFacts.text_ok pck' → Forall JsonFacts.text_ok head' →
  key_text identity pck head = key_text identity' pck' head' →
  identity = identity' ∧ sort_keys pck = sort_keys pck' ∧ sort_keys (_cut (JList head)) = sort_keys (_cut (JList head')).
Proof.
  intros Hp Hh Hp' Hh' Heq. assert (∀ i p h, JsonFacts.text_ok p → Forall JsonFacts.text_ok h →
    loads (key_text i p h) = Some (sort_keys (JList [JStr i; p; _cut (JList h)]))) as Hok.
  { intros. apply JsonFacts.loads_dumps, text_ok_sort, JsonFacts.text_ok_list. constructor; [done|]. constructor; [done|].
    constructor; [by apply text_ok_cut, JsonFacts.text_ok_list|constructor]. }
  apply (f_equal loads) in Heq. rewrite !Hok in Heq by done. injection Heq as -> Hs Hm. split_and!; [done..|]. cbn. by rewrite Hm.
Qed.
End AffinityProperties.

Module AffinityExamples.
Import SessionFacts FailureFacts AffinityFacts LogFacts ConversationFacts ConversationProperties AffinityProperties.

Definition asked (input : string + list json) (previous : option string) : Request :=
  mkRequest input (JStr "m") (JStr "Be brief.") JNull JNull JNull None JNull JNull JNull JNull JNull (JStr "k") JNull previous JNull
    None JNull JNull.
Definition first_turn : Request := asked (inl "hi"%string) None.
Definition stored : Actor.t :=
  (run (write (Some DEFAULT_TTL) example_uuids "ann" "r1" (answered "a1") None (as_input_items (r_input first_turn))) 0 (Actor.init 0 10)).1.
Definition past : list json :=
  if (run (history no_format (Some DEFAULT_TTL) "ann" example_record) 5 stored).2 is Ok (Some (p, _, _)) then p else [].
Definition next_turn : Request := asked (inr (past ++ example_input "more")) (Some "r1"%string).

Lemma conversation_keeps_key_witness :
  let H := no_floats in
  length past = 2%nat ∧ responses_key id next_turn "ann" = responses_key id first_turn "ann" ∧
  is_Some (if responses_key id first_turn "ann" is Ok k then Some k else None).
Proof.
  intros H. split; [vm_compute; reflexivity|]. split; [|vm_compute; by eexists].
  destruct (conversation_keeps_key id no_format (Some DEFAULT_TTL) example_uuids "ann" "r1" (answered "a1") None
    (as_input_items (r_input first_turn)) [JObj [("type", JStr "message"); ("content", JStr "a1")]]%string [] 0 (Actor.init 0 10) stored
    first_turn) as (record & Hr).
  - intros d [= <-]. reflexivity.
  - constructor.
  - by apply tidy_empty.
  - done.
  - split; [reflexivity|done].
  - reflexivity.
  - vm_compute. reflexivity.
  - reflexivity.
  - left. eexists. split; [reflexivity|]. reflexivity.
  - destruct (Hr 5 ltac:(lia) ltac:(intros T' [= <-]; reflexivity)) as [Hread Hhist].
    assert (run (read no_format "ann" "r1" false) 5 stored =
      ((run (read no_format "ann" "r1" false) 5 stored).1, Ok (Some example_record))) as E by (vm_compute; reflexivity).
    apply Hread in E. injection E as <-.
    apply (Hhist (run (history no_format (Some DEFAULT_TTL) "ann" example_record) 5 stored).1 past (position_at "r1" 1) [])
      with (new := example_input "more"); [vm_compute; reflexivity|reflexivity..].
Defined.
End AffinityExamples.
