(* ===== verification/EgressTheorems.v ===== *)
(** * Theorems on the egress policy

    [EgressFacts]: how an everyday URL is read, and which texts are dotted quads. [EgressProperties]: what the policy
    decides for such a URL, what holds of every server the tool loop turns to, and what the policy lets through. *)

From S2P Require Import Prelude ConfigSchema JsonText Errors ResponsesState McpPolicy Egress ResponseObjects McpLoop McpLogic McpApprovals.
Local Open Scope Z_scope.

Module EgressFacts.

(** ** Text *)

Lemma str_all_impl (f g : ascii → bool) s : (∀ a, f a = true → g a = true) → str_all f s = true → str_all g s = true.
Proof. intros Hfg. induction s as [|a s IH]; [done|]. simpl. rewrite !andb_true_iff. naive_solver. Qed.

Lemma str_all_mem f c s : str_all f s = true → f c = false → Str.mem c s = false.
Proof.
  intros Hs Hc. induction s as [|a s IH]; [done|]. simpl in *. apply andb_true_iff in Hs as [Ha Hs].
  apply orb_false_iff. split; [|by apply IH]. apply bool_decide_eq_false. congruence.
Qed.

Lemma filter_whole f s : str_all f s = true → str_filter f s = s.
Proof. induction s as [|a s IH]; [done|]. simpl. intros [-> ?]%andb_true_iff. by rewrite IH. Qed.

Lemma filter_app f a b : str_filter f (a +:+ b) = str_filter f a +:+ str_filter f b.
Proof. induction a as [|x a IH]; [done|]. simpl. rewrite IH. by destruct (f x). Qed.

Lemma partition_whole c s : Str.mem c s = false → partition c s = (s, None).
Proof.
  intros Hm. unfold partition. destruct (split_first c s) as [[g r]|] eqn:E; [|done].
  apply ConfigFacts.split_first_Some in E as [-> _]. rewrite Str.mem_app in Hm. simpl in Hm.
  by rewrite bool_decide_true, orb_true_r in Hm.
Qed.

Lemma partition_at c s r : Str.mem c s = false → partition c (s +:+ String c r) = (s, Some r).
Proof. intros Hm. unfold partition. by rewrite ConfigFacts.split_first_app. Qed.

Lemma after_last_whole c s : Str.mem c s = false → after_last c s = s.
Proof. intros Hm. unfold after_last. by rewrite Str.split_whole. Qed.

Lemma lower_idem s : lower (lower s) = lower s.
Proof.
  unfold lower. induction s as [|a s IH]; [done|]. simpl. rewrite IH. f_equal. clear.
  by destruct a as [[] [] [] [] [] [] [] []].
Qed.

Lemma lower_all f s :
  (∀ a, f a = true → f (if is_upper a then ascii_of_nat (nat_of_ascii a + 32) else a) = true) →
  str_all f s = true → str_all f (lower s) = true.
Proof.
  intros Hf. unfold lower. induction s as [|a s IH]; [done|]. simpl. rewrite !andb_true_iff. naive_solver.
Qed.

(** ** An everyday URL: [scheme://host:port/path], the last two if there *)

Definition scheme_char (a : ascii) : bool :=
  is_upper a || is_lower a || is_decimal a || bool_decide (a ∈ ["+"; "-"; "."]%char).
Definition host_char (a : ascii) : bool :=
  is_upper a || is_lower a || is_decimal a || bool_decide (a ∈ ["."; "-"; "_"]%char).
Definition host_end (a : ascii) : bool := bool_decide (a ∈ ["/"; "?"; "#"]%char).

Record everyday (scheme host port path : string) : Prop := {
  scheme_ok : ∃ a s, scheme = String a s ∧ is_upper a || is_lower a = true ∧ str_all scheme_char s = true;
  host_ok : str_all host_char host = true;
  port_ok : port = ""%string ∨ ∃ p, port = String ":" p ∧ str_all is_decimal p = true;
  path_ok : path = ""%string ∨ ∃ a p, path = String a p ∧ host_end a = true;
}.

(** A host that is a name or a dotted quad (or missing): not the one number or the short form that some
    readers take for an address, and without the dot of a fully qualified name. *)
Definition plain_host (host : string) : Prop :=
  host = ""%string ∨
  (∃ a b c d, 0 ≤ a ≤ 255 ∧ 0 ≤ b ≤ 255 ∧ 0 ≤ c ≤ 255 ∧ 0 ≤ d ≤ 255 ∧
     host = Str.join "." [pretty a; pretty b; pretty c; pretty d]) ∨
  (after_last "." host ≠ ""%string ∧ str_all is_decimal (after_last "." host) = false ∧
   Str.startswith (lower (after_last "." host)) "0x" = false).

Definition kept (a : ascii) : bool := negb (bool_decide (a ∈ ["009"; "010"; "013"]%char)).
Definition netloc_char (a : ascii) : bool := host_char a || bool_decide (a = ":"%char).

Lemma host_chars a : host_char a = true → netloc_char a = true ∧ kept a = true ∧ host_end a = false.
Proof. by destruct a as [[] [] [] [] [] [] [] []]. Qed.

Lemma netloc_chars a : netloc_char a = true → kept a = true ∧ negb (host_end a) = true.
Proof. by destruct a as [[] [] [] [] [] [] [] []]. Qed.

Lemma scheme_chars a : scheme_char a = true → kept a = true.
Proof. by destruct a as [[] [] [] [] [] [] [] []]. Qed.

Lemma letter_chars a : is_upper a || is_lower a = true → scheme_char a = true ∧ between 0 32 a = false.
Proof. by destruct a as [[] [] [] [] [] [] [] []]. Qed.

Lemma upto_app stop s r :
  str_all (λ a, negb (stop a)) s = true → (r = ""%string ∨ ∃ a p, r = String a p ∧ stop a = true) →
  upto stop (s +:+ r) = (s, r).
Proof.
  induction s as [|a s IH]; simpl.
  - intros _ [->|(a & p & -> & Ha)]; [done|]. simpl. by rewrite Ha.
  - intros [->%negb_true_iff Hs]%andb_true_iff Hr. by rewrite IH.
Qed.

Section everyday.
Context {scheme host port path : string} (Hev : everyday scheme host port path).

Lemma everyday_netloc : str_all netloc_char (host +:+ port) = true.
Proof.
  rewrite JsonFacts.str_all_app. apply andb_true_iff. destruct Hev as [_ Hh Hp _]. split.
  - eapply str_all_impl; [|done]. intros a Ha. by apply host_chars.
  - destruct Hp as [->|(p & -> & Hp)]; [done|]. simpl. eapply str_all_impl; [|done].
    by intros [[] [] [] [] [] [] [] []].
Qed.

Lemma everyday_scheme rest : read_scheme (scheme +:+ String ":" rest) = (lower scheme, rest).
Proof.
  destruct Hev as [(a & s & -> & Ha & Hs) _ _ _]. destruct (letter_chars a Ha) as [Hc _].
  assert (str_all scheme_char (String a s) = true) as Hall by (simpl; by rewrite Hc).
  unfold read_scheme. rewrite ConfigFacts.split_first_app by (by eapply str_all_mem).
  rewrite Ha. fold scheme_char. by rewrite Hall.
Qed.

Lemma everyday_rest rest :
  (rest = ""%string ∨ ∃ a p, rest = String a p ∧ host_end a = true) →
  read_netloc (String "/" (String "/" ((host +:+ port) +:+ rest))) = Ok (host +:+ port).
Proof.
  intros Hrest. pose proof everyday_netloc as Hn. unfold read_netloc. fold host_end.
  rewrite (proj2 (Str.startswith_iff _ "//")) by (by eexists). cbn [str_drop]. rewrite upto_app; [|..|done].
  - cbn [fst]. by rewrite (str_all_mem _ "[" _ Hn), (str_all_mem _ "]" _ Hn).
  - eapply str_all_impl; [|done]. apply netloc_chars.
Qed.

(** The reader cuts it where it should. *)
Lemma everyday_split : urlsplit (scheme +:+ "://" +:+ host +:+ port +:+ path) = Ok (lower scheme, host +:+ port).
Proof.
  pose proof everyday_netloc as Hn. pose proof Hev as [(a & s & Es & Ha & Hs) _ _ Hpath].
  destruct (letter_chars a Ha) as [Hc Hsp]. unfold urlsplit. fold kept.
  assert (drop_while (between 0 32) (scheme +:+ "://" +:+ host +:+ port +:+ path) =
    scheme +:+ "://" +:+ host +:+ port +:+ path) as -> by (rewrite Es; simpl; by rewrite Hsp).
  rewrite <-(Str.app_assoc host port path), !(filter_app _ scheme), (filter_app _ "://"), (filter_app _ (host +:+ port)).
  rewrite (filter_whole _ scheme), (filter_whole _ (host +:+ port)).
  - change (str_filter kept "://" +:+ ?x) with (String ":" (String "/" (String "/" x))).
    rewrite everyday_scheme, everyday_rest; [done|]. destruct Hpath as [->|(b & p & -> & Hb)]; [by left|]. right.
    exists b, (str_filter kept p). split; [|done]. simpl. by destruct b as [[] [] [] [] [] [] [] []].
  - eapply str_all_impl; [|done]. apply netloc_chars.
  - rewrite Es. eapply str_all_impl; [apply scheme_chars|]. simpl. by rewrite Hc.
Qed.

Lemma everyday_host : hostname_of (host +:+ port) = lower host.
Proof.
  pose proof everyday_netloc as Hn. destruct Hev as [_ Hh Hp _]. unfold hostname_of.
  rewrite after_last_whole, (partition_whole "[") by (by eapply str_all_mem).
  assert (partition ":" (host +:+ port) = (host, if port is String _ p then Some p else None)) as ->.
  { destruct Hp as [->|(p & -> & _)].
    - rewrite Str.app_nil_r. apply partition_whole. by eapply str_all_mem.
    - apply partition_at. by eapply str_all_mem. }
  cbn [fst]. rewrite partition_whole by (by eapply str_all_mem). apply Str.app_nil_r.
Qed.
End everyday.

(** ** Dotted quads *)

Definition ten : list ascii := ["0"; "1"; "2"; "3"; "4"; "5"; "6"; "7"; "8"; "9"]%char.
Definition longer (l : list string) : list string := a ← ten; String a <$> l.
Definition up_to_three : list string :=
  longer [""%string] ++ longer (longer [""%string]) ++ longer (longer (longer [""%string])).

Lemma in_longer a s l : is_decimal a = true → s ∈ l → String a s ∈ longer l.
Proof.
  intros Ha Hs. apply list_elem_of_bind. exists a. split; [by apply list_elem_of_fmap_2|].
  destruct a as [[] [] [] [] [] [] [] []]; try done; by refine (bool_decide_unpack _ _).
Qed.

Lemma octet_reads n : 0 ≤ n ≤ 255 → octet (pretty n) = Some n.
Proof.
  intros Hn. assert (Forall (λ n, octet (pretty n) = Some n) (seqZ 0 256)) as Hall.
  { refine (bool_decide_unpack _ _). vm_compute. reflexivity. }
  apply (proj1 (Forall_forall _ _) Hall), elem_of_seqZ. lia.
Qed.

Lemma octet_text s n : octet s = Some n ↔ 0 ≤ n ≤ 255 ∧ s = pretty n.
Proof.
  split; [|intros [? ->]; by apply octet_reads]. intros Ho.
  assert (s ∈ up_to_three) as Hs.
  { unfold octet in Ho. destruct (_ || _ || _) eqn:E in Ho; [done|]. clear Ho.
    apply orb_false_iff in E as [[Hne%bool_decide_eq_false Hd%negb_false_iff]%orb_false_iff Hl%Nat.ltb_ge].
    unfold up_to_three. destruct s as [|a [|b [|c [|]]]]; simpl in Hl, Hd; [done|..|lia];
      rewrite !andb_true_iff in Hd; destruct_and? Hd; rewrite !elem_of_app.
    - left. by apply in_longer; [|left].
    - right. left. by apply in_longer; [|apply in_longer; [|left]].
    - right. right. by apply in_longer; [|apply in_longer; [|apply in_longer; [|left]]]. }
  assert (forallb (λ s, if octet s is Some n then bool_decide (0 ≤ n ≤ 255 ∧ s = pretty n) else true) up_to_three = true)
    as Hall by (vm_compute; reflexivity).
  apply list_elem_of_In in Hs. eapply (proj1 (forallb_forall _ _)) in Hall; [|done]. rewrite Ho in Hall.
  by apply bool_decide_eq_true in Hall.
Qed.

Lemma octet_no_dot n : 0 ≤ n ≤ 255 → Str.mem "." (pretty n) = false.
Proof.
  intros Hn%octet_reads. unfold octet in Hn. destruct (_ || _ || _) eqn:E in Hn; [done|].
  apply orb_false_iff in E as [[_ Hd%negb_false_iff]%orb_false_iff _]. by eapply str_all_mem.
Qed.

Lemma join_split c s : Str.join (String c "") (Str.split c s) = s.
Proof.
  induction s as [|a s IH]; [done|]. simpl. case_decide as Ea.
  - subst. destruct (Str.split c s) eqn:E; [by apply Str.split_not_nil in E|]. simpl in *. by f_equal.
  - destruct (Str.split c s) as [|p [|q l]] eqn:E; [by apply Str.split_not_nil in E|..]; simpl in *; by f_equal.
Qed.

Definition quad (a b c d : Z) : string := Str.join "." [pretty a; pretty b; pretty c; pretty d].

Lemma ipv4_text s a b c d : ipv4 s = Some (IPv4 a b c d) ↔
  (0 ≤ a ≤ 255 ∧ 0 ≤ b ≤ 255 ∧ 0 ≤ c ≤ 255 ∧ 0 ≤ d ≤ 255) ∧ s = quad a b c d.
Proof.
  unfold ipv4. split.
  - intros Hq. pose proof (join_split "." s) as Hs.
    destruct (Str.split "." s) as [|p [|q [|r [|t [|]]]]]; try done.
    repeat match type of Hq with _ ≫= _ = _ => apply bind_Some in Hq as (? & Ho & Hq); apply octet_text in Ho as [? ->] end.
    injection Hq as -> -> -> ->. by split; [|rewrite <-Hs].
  - intros [(Ha & Hb & Hc & Hd) ->]. unfold quad. rewrite Str.split_join; [by rewrite !octet_reads|done|].
    repeat constructor; by apply octet_no_dot.
Qed.
End EgressFacts.

Module EgressProperties.
Import EgressFacts ApprovalFacts.

(** What the policy asks of a URL with this scheme and this host. *)
Definition policy (environ : string → option string) (scheme host : string) : Prop :=
  (scheme = "http"%string ∧ require_https environ = false ∨ scheme = "https"%string) ∧
  host ≠ ""%string ∧ lower host ∉ METADATA_HOSTS ∧
  (∀ c d, 0 ≤ c ≤ 255 → 0 ≤ d ≤ 255 → host ≠ quad 169 254 c d) ∧
  (allowed_hosts environ = ""%string ∨ lower host ∈ allowed (allowed_hosts environ)).

Definition refused (r : res unit) : Prop := ∃ err, r = Err (ResponsesApiError err) ∧ http_status err = 400.

Lemma metadata_network host :
  (if ip_address host is Some a then in_metadata_network a else false) = false ↔
  ∀ c d, 0 ≤ c ≤ 255 → 0 ≤ d ≤ 255 → host ≠ quad 169 254 c d.
Proof.
  unfold ip_address. split.
  - intros Hn c d Hc Hd ->. by rewrite (proj2 (ipv4_text _ 169 254 c d)) in Hn by (split; [lia|done]).
  - intros Hq. destruct (ipv4 host) as [a|] eqn:E.
    + destruct a as [a b c d|]; [|done]. apply ipv4_text in E as [(_ & _ & ? & ?) ->]. simpl.
      destruct (a =? 169) eqn:Ea, (b =? 254) eqn:Eb; try done.
      apply Z.eqb_eq in Ea as ->. apply Z.eqb_eq in Eb as ->. by destruct (Hq c d).
    + destruct (ipv6 host) as [[]|] eqn:E6; [|done..]. unfold ipv6 in E6.
      destruct (partition _ _) as [? ?]. case_match; [done|]. apply bind_Some in E6 as (? & _ & E6).
      by case_match.
Qed.

Lemma res_bind_unit (m r : res unit) : (_ ← m; r) = Ok tt ↔ m = Ok tt ∧ r = Ok tt.
Proof. destruct m as [[]|]; naive_solver. Qed.

Lemma refuse_or b m (r : res unit) : r = Ok tt ∨ refused r → let k := _ ← raise_if b (egress_error m); r in k = Ok tt ∨ refused k.
Proof. destruct b; [|done]. right. by eexists. Qed.

Lemma validate_ok `{SpecReader} environ url scheme netloc :
  urlsplit url = Ok (scheme, netloc) →
  (validate_server_url environ url = Ok tt ↔ policy environ scheme (hostname_of netloc)).
Proof.
  intros Hu. unfold validate_server_url, policy. rewrite Hu. cbn -[hostname_of]. rewrite <-metadata_network.
  rewrite !res_bind_unit, !raise_if_ok, !andb_false_iff, !negb_false_iff, !bool_decide_eq_true, !bool_decide_eq_false.
  assert (scheme ∈ ["http"; "https"]%string ↔ scheme = "http"%string ∨ scheme = "https"%string) as -> by set_solver.
  split; [|naive_solver]. intros ([-> | ->] & [? | ?] & ?); naive_solver.
Qed.

(** The reader of URLs raises [ValueError]s only. *)
Definition value_errors {A} (r : res A) : Prop := ∀ e, r = Err e → ∃ m, e = ValueError m.

Lemma value_errors_if b m : value_errors (raise_if b (ValueError m)).
Proof. destruct b; intros e [= <-]; eauto. Qed.
Lemma value_errors_bind {A B} (r : res A) (f : A → res B) :
  value_errors r → (∀ a, value_errors (f a)) → value_errors (r ≫= f).
Proof. intros Hr Hf. destruct r as [a|e]; [apply Hf|intros e' [= <-]; by apply Hr]. Qed.
Lemma value_errors_ok {A} (a : A) : value_errors (Ok a).
Proof. by intros e. Qed.
Lemma value_errors_err {A} m : value_errors (Err (A := A) (ValueError m)).
Proof. intros e [= <-]. eauto. Qed.

Lemma urlsplit_raises url : value_errors (urlsplit url).
Proof.
  unfold urlsplit, read_netloc, check_bracketed_netloc, check_bracketed_host.
  repeat first [apply value_errors_ok|apply value_errors_err|apply value_errors_if|apply value_errors_bind; [|intros ?]|case_match].
Qed.

Lemma validate_total `{SpecReader} environ url scheme netloc :
  urlsplit url = Ok (scheme, netloc) → validate_server_url environ url = Ok tt ∨ refused (validate_server_url environ url).
Proof.
  intros Hu. unfold validate_server_url. rewrite Hu. change (Ok ?x ≫= ?f) with (f x). cbn beta iota. unfold blocked.
  repeat apply refuse_or. destruct (_ && _); [|by left]. right. by eexists.
Qed.

(** C25: The policy decides every everyday URL, one of a scheme, a host name or dotted quad, perhaps a port and perhaps a
    path, by its scheme and its host alone, whatever their case: it is accepted exactly when it is http or https, and
    https if that is required, it has a host, the host is neither of the two metadata host names and is no quad in
    169.254/16, and the host is in the list of allowed ones if there is such a list. Any other is refused with an error
    of status 400. A host is a name or a quad here ([plain_host]): other spellings of the metadata hosts (as one number,
    with a closing dot, in brackets) are not blocked, as [metadata_block_bypassed] shows. *)
Theorem everyday_urls_decided `{SpecReader} environ scheme host port path :
  everyday scheme host port path → plain_host host →
  let answer := validate_server_url environ (scheme +:+ "://" +:+ host +:+ port +:+ path) in
  (answer = Ok tt ↔ policy environ (lower scheme) (lower host)) ∧
  (¬ policy environ (lower scheme) (lower host) → refused answer).
Proof.
  intros Hev _ answer. pose proof (everyday_split Hev) as Hs. rewrite <-(everyday_host Hev).
  pose proof (validate_ok environ _ _ _ Hs) as Hv. split; [done|]. rewrite <-Hv.
  by destruct (validate_total environ _ _ _ Hs).
Qed.

(** A server that the policy lets one turn to. *)
Definition may_reach (environ : string → option string) (spec : McpToolSpec) : Prop :=
  ∃ scheme netloc, urlsplit (server_url spec) = Ok (scheme, netloc) ∧ policy environ scheme (hostname_of netloc).

Lemma check_request_reaches `{SpecReader} `{World} request specs other_tools input :
  check_request request = Ok (specs, other_tools, input) → ∀ spec, spec ∈ specs → may_reach environ spec.
Proof.
  unfold check_request. intros ([ss other] & _ & Hc)%res_bind_ok spec Hin.
  apply res_bind_ok in Hc as (us & Hv & Hc). do 1 apply res_bind_ok in Hc as (? & _ & Hc).
  apply res_bind_ok in Hc as (? & _ & [= -> -> _]). cbn in Hv. apply res_mapM_ok in Hv.
  apply list_elem_of_lookup in Hin as [i Hi]. eapply Forall2_lookup_l in Hv as ([] & _ & Hv); [|done].
  pose proof Hv as Hv'. unfold validate_server_url in Hv'. apply res_bind_ok in Hv' as ([scheme netloc] & Hu & _).
  exists scheme, netloc. split; [done|]. by apply (validate_ok _ _ _ _ Hu).
Qed.

Lemma check_request_refused `{SpecReader} `{World} request specs other_tools spec :
  split_mcp_tools (r_tools request) = Ok (specs, other_tools) → spec ∈ specs → ¬ may_reach environ spec →
  ∃ e, check_request request = Err e ∧
    ((∃ err, e = ResponsesApiError err ∧ http_status err = 400) ∨ ∃ spec', spec' ∈ specs ∧ urlsplit (server_url spec') = Err e).
Proof.
  intros Hs Hin Hno. unfold check_request. rewrite Hs. cbn -[split_mcp_tools]. 
  destruct (res_mapM _ specs) as [us|e] eqn:Em.
  - exfalso. apply Hno. apply res_mapM_ok in Em. apply list_elem_of_lookup in Hin as [i Hi].
    eapply Forall2_lookup_l in Em as ([] & _ & Hv); [|done]. pose proof Hv as Hv'.
    unfold validate_server_url in Hv'. apply res_bind_ok in Hv' as ([scheme netloc] & Hu & _).
    exists scheme, netloc. split; [done|]. by apply (validate_ok _ _ _ _ Hu).
  - exists e. split; [done|]. clear Hs Hin Hno. revert e Em. induction specs as [|spec' specs IH]; [done|]. cbn [res_mapM].
    intros e Em. destruct (validate_server_url environ (server_url spec')) as [[]|e'] eqn:Ev; cbn in Em.
    + destruct (res_mapM _ specs) as [|e2]; [done|]. injection Em as <-.
      destruct (IH _ eq_refl) as [Hr|(x & Hx & Hu)]; [by left|right]. exists x. split; [by right|done].
    + injection Em as <-. destruct (urlsplit (server_url spec')) as [[scheme netloc]|e2] eqn:Eu.
      * left. destruct (validate_total environ _ _ _ Eu) as [Hv|(err & Hv & Hst)]; rewrite Ev in Hv; [done|].
        injection Hv as ->. by exists err.
      * right. exists spec'. split; [by left|]. unfold validate_server_url in Ev. rewrite Eu in Ev. by injection Ev as ->.
Qed.

Lemma refused_run `{SpecReader} `{Envelope} `{World} request response_id listings e :
  check_request request = Err e →
  (∃ err, e = ResponsesApiError err ∧ run_events request response_id listings = ([YieldError err], Returned)) ∨
  run_events request response_id listings = ([], Raised e).
Proof.
  intros Hc. unfold run_events, events. rewrite Hc. destruct e; destruct response_id as [[|]|]; cbn; eauto.
Qed.

(** C24: The tool loop turns to no server that the policy refuses: each one that it lists the tools of or calls a tool of
    in a run, whatever the loader, the servers and the conversation give it, has a URL that could be read, with an
    accepted scheme and an accepted host, which is neither of the two metadata host names nor a dotted quad in 169.254/16
    (other spellings of these are not blocked: [metadata_block_bypassed]). A request with any other server does nothing
    at all: it is answered with one error of status 400, or, when the URL of one of its servers cannot be read, raises
    what its reader raised. Asked of the loaders is only that a turn's function calls keep their names. *)
Theorem servers_pass_egress `{SpecReader} `{Envelope} `{World} request response_id listings :
  (∀ t r, names_settled (respond t r).1) →
  Forall (λ a, match a with Listed spec | Called spec _ _ => may_reach environ spec | _ => True end)
    (run_events request response_id listings).1 ∧
  ∀ specs other_tools spec, split_mcp_tools (r_tools request) = Ok (specs, other_tools) → spec ∈ specs →
    ¬ may_reach environ spec →
    (∃ err, http_status err = 400 ∧ run_events request response_id listings = ([YieldError err], Returned)) ∨
    (∃ spec' e, spec' ∈ specs ∧ urlsplit (server_url spec') = Err e ∧
       run_events request response_id listings = ([], Raised e)).
Proof.
  intros Hn. split.
  - apply Forall_forall. intros a (before & after & E)%list_elem_of_split.
    destruct (check_request request) as [[[specs other_tools] input]|e] eqn:Hc.
    + pose proof (run_permitted listings specs input request response_id other_tools Hc Hn before a after E) as Ha.
      destruct a; try done; cbn in Ha; [|destruct Ha as (t & [Ha _] & _)]; by eapply check_request_reaches.
    + destruct (refused_run request response_id listings e Hc) as [(err & _ & Hr)|Hr]; rewrite Hr in E; cbn in E;
        [|by destruct before]. destruct before as [|x [|]]; [by injection E as <-|done..].
  - intros specs other_tools spec Hs Hin Hno.
    destruct (check_request_refused request specs other_tools spec Hs Hin Hno) as (e & Hc & He).
    destruct (refused_run request response_id listings e Hc) as [(err & -> & Hr)|Hr].
    + left. exists err. split; [|done]. destruct He as [(err' & [= <-] & ?)|(spec' & _ & Hu)]; [done|].
      by apply urlsplit_raises in Hu as [m ?].
    + destruct He as [(err & -> & _)|(spec' & Hs' & Hu)]; [|right; eauto].
      unfold run_events, events in Hr. rewrite Hc in Hr. by destruct response_id as [[|]|].
Qed.

(** The block of the metadata hosts can be walked around: the address in 169.254/16
    may be written as an IPv4-mapped IPv6 address or as one number, which are the same host to a connection, and the
    name of the metadata host with the dot of a fully qualified name; without a list of allowed hosts all are accepted. *)
Theorem metadata_block_bypassed `{SpecReader} environ :
  allowed_hosts environ = ""%string → require_https environ = false →
  Forall (λ url, validate_server_url environ url = Ok tt)
    ["http://[::ffff:169.254.169.254]/mcp"; "http://2852039166/mcp"; "http://metadata.google.internal./mcp"]%string.
Proof.
  intros Ha Hr. unfold allowed_hosts, require_https in *.
  repeat constructor; unfold validate_server_url, allowed_hosts, require_https; rewrite Hr, Ha; vm_compute; reflexivity.
Qed.

End EgressProperties.

Module EgressExamples.
Import EgressFacts EgressProperties PolicyTheorems ApprovalProperties.

Definition locked (name : string) : option string :=
  if bool_decide (name = "MSHIP_MCP_ALLOWED_HOSTS"%string) then Some " Tools.local, 169.254.0.7 "%string else None.

Lemma everyday_urls_decided_witness :
  validate_server_url locked "HTTP://tools.LOCAL:3000/mcp" = Ok tt ∧ refused (validate_server_url locked "http://169.254.0.7/mcp").
Proof.
  split.
  - apply (everyday_urls_decided locked "HTTP" "tools.LOCAL" ":3000" "/mcp").
    + split; [by exists "H"%char, "TTP"%string|done|right; by exists "3000"%string|right; by exists "/"%char, "mcp"%string].
    + by right; right.
    + split_and!; [by left|done|by refine (bool_decide_unpack _ _)|done|right; by refine (bool_decide_unpack _ _)].
  - apply (everyday_urls_decided locked "http" "169.254.0.7" "" "/mcp").
    + split; [by exists "h"%char, "ttp"%string|done|by left|right; by exists "/"%char, "mcp"%string].
    + right; left. by exists 169, 254, 0, 7.
    + intros (_ & _ & _ & Hq & _). by destruct (Hq 0 7).
Defined.

(** A request with a server that may be reached and one on the metadata host *)
Definition metadata_request : Request :=
  mkRequest (inl "roll"%string) (JStr "m") JNull JNull JNull JNull
    (Some [example_tool "dice" (JStr "never");
           [("type", JStr "mcp"); ("server_label", JStr "cloud"); ("server_url", JStr "http://metadata.goog/mcp");
            ("require_approval", JStr "never")]%string])
    JNull JNull JNull JNull JNull JNull JNull None JNull None JNull JNull.

Lemma servers_pass_egress_witness :
  let run := run_events (H1 := example_world rolling) (example_request "never" None []) None [] in
  filter is_call run.1 = [Called (example_spec "dice" (JStr "never")) (JStr "roll") (JStr "{}")] ∧
  Forall (λ a, match a with Listed spec | Called spec _ _ => may_reach (λ _, None) spec | _ => True end) run.1 ∧
  ∃ err, http_status err = 400 ∧ run_events (H1 := example_world rolling) metadata_request None [] = ([YieldError err], Returned).
Proof.
  intros run. split; [vm_compute; reflexivity|].
  assert (∀ t r, names_settled (@respond (example_world rolling) t r).1) as Hn by (intros t r; apply example_named; by left).
  split; [by apply (servers_pass_egress (H1 := example_world rolling))|].
  destruct (split_mcp_tools (r_tools metadata_request)) as [[specs others]|e] eqn:Es; [|vm_compute in Es; discriminate Es].
  destruct (proj2 (servers_pass_egress (H1 := example_world rolling) metadata_request None [] Hn) specs others
    (mkSpec "cloud" "http://metadata.goog/mcp" None None JNull (JStr "never")) Es) as [Hr|(spec & e & Hin & Hu & _)].
  - vm_compute in Es. injection Es as <- <-. right. left.
  - intros (scheme & netloc & Hu & _ & _ & Hm & _). vm_compute in Hu. injection Hu as <- <-. apply Hm. vm_compute. right. left.
  - exact Hr.
  - exfalso. vm_compute in Es. injection Es as <- <-.
    repeat (apply elem_of_cons in Hin as [->|Hin]; [vm_compute in Hu; discriminate Hu|]). by apply elem_of_nil in Hin.
Defined.

(** A URL that can't be read is not refused: the [ValueError] of its reader leaves the loop, and no error response comes. *)
Definition unreadable : dict json :=
  [("type", JStr "mcp"); ("server_label", JStr "dice"); ("server_url", JStr "http://[::1/mcp"); ("allowed_tools", JNull);
   ("require_approval", JStr "never")]%string.
Theorem unreadable_urls_escape :
  let request := mkRequest (inl "roll"%string) (JStr "m") JNull JNull JNull JNull (Some [unreadable])
    JNull JNull JNull JNull JNull JNull JNull None JNull None JNull JNull in
  run_events (H1 := ApprovalProperties.example_world []) request None [] = ([], Raised invalid_url).
Proof. vm_compute. reflexivity. Qed.
End EgressExamples.
