(* ===== verification/McpClient.v ===== *)
(** * The connections to MCP servers

    [src/modelship/openai/mcp/client.py]: a connection is a task that serves the requests put in its queue, one at a
    time, and a call of a tool server puts a request there and waits for its future. What an operation of the mcp
    package answers, how long it takes and what leaving its contexts raises are up to the environment, and so is
    when a caller gives up; every event is one uninterrupted stretch of a task or of a caller. *)

From S2P Require Import Prelude ConfigSchema JsonText Errors ResponsesState McpPolicy Egress.
Local Open Scope Z_scope.

Definition LIST_TOOLS_TIMEOUT_S : Z := 30.
Definition CALL_TOOL_TIMEOUT_S : Z := 60.
Definition _MAX_OUTPUT_BYTES : Z := 1024 * 1024.

(** ** Data *)

(** What a call asks of a server, and what comes back: a part of a content with no text is its JSON. *)
Inductive operation : Type :=
| ListTools
| CallTool (name : string) (arguments : json).
Inductive part : Type := TextPart (text : string) | OtherPart (dumped : string).
Inductive answer : Type :=
| Tools (tools : list Tool)
| Content (content : list part) (is_error : bool).
Definition fits (op : operation) (a : answer) : bool :=
  match op, a with ListTools, Tools _ | CallTool _ _, Content _ _ => true | _, _ => false end.
Definition timeout_of (op : operation) : Z :=
  match op with ListTools => LIST_TOOLS_TIMEOUT_S | CallTool _ _ => CALL_TOOL_TIMEOUT_S end.

(** [MCPError], [TimeoutError], and any other [Exception] *)
Inductive failure : Type :=
| MCPError (code : Z) (message : string)
| Timeout
| Failure (text : string).

Inductive future : Type :=
| Pending
| Value (a : answer)
| Raised (e : failure)
| Cancelled.

(** [_Request], with the connection it was put to *)
Record request : Type := mkReq { q_conn : nat; q_operation : operation; q_timeout : Z; q_future : future }.

(** Where a connection's task is: entering its contexts, at [get], in an operation, leaving its contexts, or done *)
Inductive phase : Set := Starting | Waiting | Working | Leaving | Over.

#[export] Instance phase_eq_dec : EqDecision phase.
Proof. solve_decision. Defined.

(** [_Connection]; [None] in the queue asks the task to end, and [cancelling] tells that it was cancelled. *)
Record connection : Type := mkConn {
  c_spec : McpToolSpec;
  queue : list (option nat);
  current : option nat;
  closed : bool;
  c_task : phase;
  cancelling : bool;
}.

(** A caller in [McpConnections._run]: the requests it has made, first to last, and how it went on *)
Record caller : Type := mkCaller {
  k_spec : McpToolSpec;
  k_operation : operation;
  k_requests : list nat;
  k_outcome : option future;
}.

(** [McpConnections], with all there has been *)
Record world : Type := mkWorld {
  requests : list request;
  conns : list connection;
  connections : dict nat;
  callers : list caller;
}.

Definition init : world := mkWorld [] [] [] [].

Definition with_future (f : future) (q : request) : request := mkReq (q_conn q) (q_operation q) (q_timeout q) f.
Definition with_queue (l : list (option nat)) (c : connection) : connection :=
  mkConn (c_spec c) l (current c) (closed c) (c_task c) (cancelling c).
Definition with_current (r : option nat) (c : connection) : connection :=
  mkConn (c_spec c) (queue c) r (closed c) (c_task c) (cancelling c).
Definition with_task (p : phase) (c : connection) : connection :=
  mkConn (c_spec c) (queue c) (current c) (closed c) p (cancelling c).
Definition set_closed (c : connection) : connection :=
  mkConn (c_spec c) (queue c) (current c) true (c_task c) (cancelling c).
Definition cancel_task (c : connection) : connection :=
  mkConn (c_spec c) (queue c) (current c) (closed c) (c_task c) true.

Definition upd_conn (i : nat) (f : connection → connection) (w : world) : world :=
  mkWorld (requests w) (alter f i (conns w)) (connections w) (callers w).
Definition with_requests (l : list request) (w : world) : world := mkWorld l (conns w) (connections w) (callers w).
Definition upd_caller (k : nat) (f : caller → caller) (w : world) : world :=
  mkWorld (requests w) (conns w) (connections w) (alter f k (callers w)).

(** ** Futures *)

Definition is_pending (f : future) : bool := if f is Pending then true else false.

(** [if not future.done()]: then it takes what it is given. *)
Definition settle (f : future) (q : request) : request := if is_pending (q_future q) then with_future f q else q.
Definition settle_request (r : nat) (f : future) (w : world) : world := with_requests (alter (settle f) r (requests w)) w.

(** [_fail] *)
Definition _fail (r : nat) (e : failure) : world → world := settle_request r (Raised e).

(** ** The task *)

(** [_headers_for]: a caller's own authorization header is kept. *)
Definition _headers_for (spec : McpToolSpec) : dict string :=
  let hs := default [] (headers spec) in
  match nonempty (authorization spec) with
  | Some a =>
      if existsb (λ k, bool_decide (lower k = "authorization"%string)) (Dict.keys hs) then hs
      else Dict.set "Authorization" ("Bearer " +:+ a) hs
  | None => hs
  end.

Section client.
Context `{SpecReader} (INVALID_REQUEST : Z).

(** [_session_expired] *)
Definition _session_expired (e : failure) : bool :=
  if e is MCPError code message then (code =? INVALID_REQUEST) && bool_decide (message = "Session terminated"%string)
  else false.

(** [_serve]: the contexts are entered, or one raises. *)
Definition serve_start (i : nat) (raised : option failure) (c : connection) (w : world) : option world :=
  guard (c_task c = Starting);;
  Some (upd_conn i (with_task (if raised is Some _ then Leaving else Waiting)) w).

(** The task takes a request, or the mark that ends it. *)
Definition serve_take (i : nat) (c : connection) (w : world) : option world :=
  guard (c_task c = Waiting);;
  match queue c with
  | [] => None
  | Some r :: l => Some (upd_conn i (λ c, with_task Working (with_current (Some r) (with_queue l c))) w)
  | None :: l => Some (upd_conn i (λ c, with_task Leaving (with_queue l c)) w)
  end.

(** How the operation of the current request ends: [CancelledError] only comes when the task was cancelled. *)
Inductive ending : Type := Returned (a : answer) | Failed (e : failure) | WasCancelled.

Definition serve_answer (i : nat) (o : ending) (c : connection) (w : world) : option world :=
  guard (c_task c = Working);;
  r ← current c;
  q ← requests w !! r;
  let done f := upd_conn i (λ c, with_task Waiting (with_current None (f c))) in
  let leave f := upd_conn i (λ c, with_task Leaving (f c)) in
  match o with
  | Returned a => guard (fits (q_operation q) a = true);; Some (done id (settle_request r (Value a) w))
  | Failed (MCPError _ _ as e) =>
      let w := _fail r e w in
      if closed c || _session_expired e then Some (leave set_closed w) else Some (done id w)
  | Failed Timeout => Some (leave set_closed (_fail r Timeout w))
  | Failed (Failure _) => Some (leave id w)
  | WasCancelled => guard (cancelling c = true);; Some (leave id w)
  end.

(** The end of [_serve]: the [except] clause, with the exception that leaves the contexts if one does, and [finally]. *)
Definition drained (l : list (option nat)) (w : world) : world :=
  foldl (λ w r, if r is Some r then _fail r (Failure "the MCP connection closed") w else w) w l.
Definition current_ended (raised : option failure) (c : connection) (w : world) : world :=
  let w := match raised, current c with Some e, Some r => _fail r e w | _, _ => w end in
  if current c is Some r then settle_request r Cancelled w else w.
Definition serve_end (i : nat) (raised : option failure) (c : connection) (w : world) : option world :=
  guard (c_task c = Leaving);;
  Some (upd_conn i (λ c, with_task Over (set_closed (with_queue [] c))) (drained (queue c) (current_ended raised c w))).

(** ** The callers *)

(** [_connection] *)
Definition _connection (spec : McpToolSpec) (w : world) : nat * world :=
  match (i ← Dict.get (server_label spec) (connections w); c ← conns w !! i; Some (i, closed c)) with
  | Some (i, false) => (i, w)
  | _ =>
      let i := length (conns w) in
      (i, mkWorld (requests w) (conns w ++ [mkConn spec [] None false Starting false])
            (Dict.set (server_label spec) i (connections w)) (callers w))
  end.

(** [_Connection.run], until it waits *)
Definition submit (spec : McpToolSpec) (op : operation) (w : world) : nat * world :=
  let '(i, w) := _connection spec w in
  let r := length (requests w) in
  (r, upd_conn i (λ c, with_queue (queue c ++ [Some r]) c) (with_requests (requests w ++ [mkReq i op (timeout_of op) Pending]) w)).

(** [_run], until it waits *)
Definition call_begin (spec : McpToolSpec) (op : operation) (w : world) : world :=
  let '(r, w) := submit spec op w in
  mkWorld (requests w) (conns w) (connections w) (callers w ++ [mkCaller spec op [r] None]).

Definition over_with (f : future) (k : caller) : caller :=
  mkCaller (k_spec k) (k_operation k) (k_requests k) (Some f).
Definition tries_again (r : nat) (k : caller) : caller :=
  mkCaller (k_spec k) (k_operation k) (k_requests k ++ [r]) (k_outcome k).

(** [_run] goes on once the future it waits for is done. *)
Definition call_resume (k : nat) (w : world) : option world :=
  c ← callers w !! k;
  guard (k_outcome c = None);;
  r ← last (k_requests c);
  q ← requests w !! r;
  guard (is_pending (q_future q) = false);;
  match q_future q, k_requests c with
  | Raised e, [_] =>
      if _session_expired e
      then let '(r, w) := submit (k_spec c) (k_operation c) w in Some (upd_caller k (tries_again r) w)
      else Some (upd_caller k (over_with (Raised e)) w)
  | f, _ => Some (upd_caller k (over_with f) w)
  end.

(** The caller is cancelled while it waits, which cancels the future. *)
Definition call_abandon (k : nat) (w : world) : option world :=
  c ← callers w !! k;
  guard (k_outcome c = None);;
  r ← last (k_requests c);
  Some (upd_caller k (over_with Cancelled) (settle_request r Cancelled w)).

(** [_Connection.close] *)
Definition close_connection (c : connection) : connection :=
  if current c is Some _ then cancel_task (set_closed c) else set_closed (with_queue (queue c ++ [None]) c).

(** [McpConnections.close] *)
Definition close (w : world) : world := foldl (λ w i, upd_conn i close_connection w) w (Dict.values (connections w)).

(** ** Steps *)

Inductive event : Type :=
| Start (i : nat) (raised : option failure)
| Take (i : nat)
| Answer (i : nat) (o : ending)
| End (i : nat) (raised : option failure)
| Call (spec : McpToolSpec) (op : operation)
| Resume (k : nat)
| Abandon (k : nat)
| Close.

Definition step (ev : event) (w : world) : option world :=
  match ev with
  | Start i raised => c ← conns w !! i; serve_start i raised c w
  | Take i => c ← conns w !! i; serve_take i c w
  | Answer i o => c ← conns w !! i; serve_answer i o c w
  | End i raised => c ← conns w !! i; serve_end i raised c w
  | Call spec op => Some (call_begin spec op w)
  | Resume k => call_resume k w
  | Abandon k => call_abandon k w
  | Close => Some (close w)
  end.

Fixpoint run (evs : list event) (w : world) : option world :=
  match evs with [] => Some w | ev :: evs => w ← step ev w; run evs w end.

(** ** What a call answers *)

(** [_flatten_content] *)
Definition _flatten_content (content : list part) : string :=
  foldr (λ p s, match p with TextPart t => t | OtherPart t => t end +:+ s) ""%string content.

Definition on_server (spec : McpToolSpec) : string := "server " +:+ py_repr (JStr (server_label spec)).
Definition of_tool (name : string) (spec : McpToolSpec) : string := "tool " +:+ py_repr (JStr name) +:+ " on " +:+ on_server spec.

(** [list_tools], once [_run] is over: the text of its [McpCallError], or the tools; [CancelledError] is [None]. *)
Definition list_tools (spec : McpToolSpec) (f : future) : option (string + list Tool) :=
  match f with
  | Value (Tools tools) => Some (inr tools)
  | Raised Timeout => Some (inl (on_server spec +:+ ": tools/list timed out after " +:+ pretty LIST_TOOLS_TIMEOUT_S +:+ "s."))
  | Raised (MCPError _ message) => Some (inl (on_server spec +:+ ": tools/list failed: " +:+ message))
  | Raised (Failure _) => Some (inl (on_server spec +:+ ": tools/list failed."))
  | _ => None
  end%string.

(** [call_tool], up to [_run]: the operation, or the text of its [McpCallError], with the decoder's *)
Definition call_operation `{FloatText} (decode_error : string → string) (spec : McpToolSpec) (name arguments_json : string)
    : string + operation :=
  match (if bool_decide (arguments_json = ""%string) then Some (JObj []) else loads arguments_json) with
  | Some arguments => inr (CallTool name arguments)
  | None => inl (of_tool name spec +:+ ": invalid arguments JSON: " +:+ decode_error arguments_json)
  end%string.

(** [call_tool], once [_run] is over *)
Definition call_tool (spec : McpToolSpec) (name : string) (f : future) : option (string + string) :=
  match f with
  | Value (Content content is_error) =>
      let output := _flatten_content content in
      Some (if is_error : bool then inl (of_tool name spec +:+ " returned an error: " +:+ output)
            else if (_MAX_OUTPUT_BYTES <? Z.of_nat (String.length output))%Z
            then inl (of_tool name spec +:+ " output exceeds " +:+ pretty _MAX_OUTPUT_BYTES +:+ " bytes.")
            else inr output)
  | Raised Timeout => Some (inl (of_tool name spec +:+ " timed out after " +:+ pretty CALL_TOOL_TIMEOUT_S +:+ "s."))
  | Raised (MCPError _ message) => Some (inl (of_tool name spec +:+ " failed: " +:+ message))
  | Raised (Failure _) => Some (inl (of_tool name spec +:+ " failed."))
  | _ => None
  end%string.
End client.
