(* ===== verification/McpClientTheorems.v ===== *)
(** * Theorems on the connections to MCP servers

    [ClientFacts]: where a request waits and how far it is from its answer, and what stays true in every step.
    [ClientProperties]: every request is answered, and a call is repeated only over a session that has ended. *)

From S2P Require Import Prelude ConfigSchema JsonText Errors ResponsesState McpPolicy McpClient.
Local Open Scope nat_scope.

Module ClientFacts.

(** ** What only grows *)

(** Requests are added and never given another answer. *)
Definition goes_on (q q' : request) : Prop :=
  q_conn q' = q_conn q ∧ q_operation q' = q_operation q ∧ (is_pending (q_future q) = false → q' = q).
Definition grows (l l' : list request) : Prop := ∀ r q, l !! r = Some q → ∃ q', l' !! r = Some q' ∧ goes_on q q'.

(** Nor is a closed connection opened. *)
Definition closing (l l' : list connection) : Prop :=
  ∀ i c, l !! i = Some c → ∃ c', l' !! i = Some c' ∧ (closed c = true → closed c' = true).

#[export] Instance goes_on_preorder : PreOrder goes_on.
Proof.
  split; [by intros ?|]. intros q1 q2 q3 (? & ? & H1) (? & ? & H2). split_and!; [congruence..|].
  intros Hd. rewrite H2; [by apply H1|]. by rewrite H1.
Qed.
#[export] Instance grows_preorder : PreOrder grows.
Proof.
  split; [intros l r q ?; by exists q|]. intros l1 l2 l3 H1 H2 r q Hq.
  destruct (H1 _ _ Hq) as (q2 & Hq2 & ?), (H2 _ _ Hq2) as (q3 & ? & ?). exists q3. split; [done|]. by etrans.
Qed.
#[export] Instance closing_preorder : PreOrder closing.
Proof.
  split; [intros l i c ?; by exists c|]. intros l1 l2 l3 H1 H2 i c Hc.
  destruct (H1 _ _ Hc) as (c2 & Hc2 & ?), (H2 _ _ Hc2) as (c3 & ? & ?). exists c3. split; auto.
Qed.

Lemma settle_goes_on f q : goes_on q (settle f q).
Proof. unfold settle. destruct (is_pending (q_future q)) eqn:E; [split_and!; [done..|congruence]|done]. Qed.

Lemma grows_settle r f l : grows l (alter (settle f) r l).
Proof.
  intros r' q Hq. destruct (decide (r = r')) as [<-|Hr].
  - exists (settle f q). rewrite list_lookup_alter_eq, Hq. split; [done|apply settle_goes_on].
  - exists q. by rewrite list_lookup_alter_ne.
Qed.

Lemma grows_app l q : grows l (l ++ [q]).
Proof. intros r q' Hq. exists q'. split; [|done]. by apply lookup_app_l_Some. Qed.

Lemma closing_app l c : closing l (l ++ [c]).
Proof. intros i c' Hc. exists c'. split; [|done]. by apply lookup_app_l_Some. Qed.

Lemma closing_alter i f l : (∀ c, closed c = true → closed (f c) = true) → closing l (alter f i l).
Proof.
  intros Hf j c Hc. destruct (decide (i = j)) as [<-|Hi].
  - exists (f c). rewrite list_lookup_alter_eq, Hc. split; [done|apply Hf].
  - exists c. by rewrite list_lookup_alter_ne.
Qed.

(** ** Settling *)

Definition done (r : nat) (w : world) : Prop := ∃ q, requests w !! r = Some q ∧ is_pending (q_future q) = false.

Lemma done_grows r w w' : grows (requests w) (requests w') → done r w → done r w'.
Proof. intros Hg (q & Hq & Hd). destruct (Hg _ _ Hq) as (q' & Hq' & _ & _ & Hk). rewrite (Hk Hd) in Hq'. by exists q. Qed.

Lemma request_settled r f w q : is_pending f = false → requests w !! r = Some q → done r (settle_request r f w).
Proof.
  intros Hf Hq. exists (settle f q). cbn. rewrite list_lookup_alter_eq, Hq. split; [done|].
  unfold settle. by destruct (is_pending (q_future q)) eqn:E.
Qed.

Lemma drained_grows l w : grows (requests w) (requests (drained l w)).
Proof.
  revert w. unfold drained. induction l as [|[r|] l IH]; intros w; cbn; [done| |by apply IH].
  etrans; [|apply IH]. apply grows_settle.
Qed.

Lemma drained_conns l w : conns (drained l w) = conns w ∧ connections (drained l w) = connections w ∧ callers (drained l w) = callers w.
Proof. revert w. unfold drained. induction l as [|[r|] l IH]; intros w; cbn; [done| |by apply IH]. apply (IH (_fail _ _ w)). Qed.

Definition closed_connection : failure := Failure "the MCP connection closed".

Lemma drained_done l r w q : requests w !! r = Some q → Some r ∈ l → done r (drained l w).
Proof.
  revert w q. induction l as [|o l IH]; intros w q Hq Hin; [by apply not_elem_of_nil in Hin|].
  apply elem_of_cons in Hin as [<-|Hin].
  - change (done r (drained l (_fail r closed_connection w))).
    eapply done_grows; [apply drained_grows|]. by eapply request_settled.
  - destruct o as [r'|]; [|by eapply (IH w)]. change (done r (drained l (_fail r' closed_connection w))).
    destruct (grows_settle r' (Raised closed_connection) _ _ _ Hq) as (q' & Hq' & _). by eapply IH.
Qed.

(** ** Where a request waits

    A request in the hands of a connection, with the number of events of its task until it is done at the latest. *)
Inductive place (r : nat) (c : connection) : nat → Prop :=
| place_leaving : c_task c = Leaving → current c = Some r ∨ Some r ∈ queue c → place r c 1
| place_working : c_task c = Working → current c = Some r → place r c 2
| place_waiting p : c_task c = Waiting → queue c !! p = Some (Some r) → place r c (3 + 2 * p)
| place_behind p : c_task c = Working ∨ c_task c = Starting → queue c !! p = Some (Some r) → place r c (4 + 2 * p).

(** A connection's requests are its own, and it works on one and is closed when over. *)
Record conn_ok (l : list request) (i : nat) (c : connection) : Prop := {
  co_own r : current c = Some r ∨ Some r ∈ queue c → ∃ q, l !! r = Some q ∧ q_conn q = i;
  co_work : c_task c = Working → is_Some (current c);
  co_over : c_task c = Over → closed c = true;
}.

Lemma conn_ok_grows l l' i c : grows l l' → conn_ok l i c → conn_ok l' i c.
Proof.
  intros Hg [Ho Hw Hc]. split; [|done..]. intros r Hr. destruct (Ho r Hr) as (q & Hq & Hi).
  destruct (Hg _ _ Hq) as (q' & ? & Hi' & _). exists q'. split; [done|congruence].
Qed.

Lemma place_near r c n : place r c n → n ≤ 2 * length (queue c) + 2.
Proof. intros [| |p _ Hp|p _ Hp]; try lia; apply lookup_lt_Some in Hp; lia. Qed.

Definition task_of (ev : event) : option nat :=
  match ev with Start i _ | Take i | Answer i _ | End i _ => Some i | _ => None end.

Section client.
Context `{SpecReader} (INVALID_REQUEST : Z).
Notation step := (step INVALID_REQUEST).
Notation run := (run INVALID_REQUEST).

(** *** Events of the task *)

Definition nearer (r i n : nat) (w : world) : Prop :=
  done r w ∨ ∃ c n', conns w !! i = Some c ∧ place r c n' ∧ n' < n.

Lemma upd_conn_lookup i f w c : conns w !! i = Some c → conns (upd_conn i f w) !! i = Some (f c).
Proof. intros Hc. cbn. by rewrite list_lookup_alter_eq, Hc. Qed.

Lemma start_nearer r i raised c n w w' :
  conns w !! i = Some c → place r c n → serve_start i raised c w = Some w' → nearer r i n w'.
Proof.
  intros Hc Hp. unfold serve_start. case_guard as Ht; [|done]. intros [= <-]. right.
  destruct Hp as [| |p ? ?|p _ Hp]; try congruence.
  destruct raised; (eexists _, _; split; [by apply upd_conn_lookup|]).
  - split; [apply place_leaving; [done|]; right; by eapply list_elem_of_lookup_2|lia].
  - split; [by apply (place_waiting _ _ p)|lia].
Qed.

Lemma take_nearer r i c n w w' :
  conns w !! i = Some c → place r c n → serve_take i c w = Some w' → nearer r i n w'.
Proof.
  intros Hc Hp. unfold serve_take. case_guard as Ht; [|done].
  destruct Hp as [| |p _ Hp|p [] Hp]; try congruence. intros Hs. right.
  destruct (queue c) as [|[r'|] l] eqn:El; [done|..]; injection Hs as <-;
    destruct p as [|p]; cbn in Hp; try done; (eexists _, _; split; [by apply upd_conn_lookup|]).
  - injection Hp as ->. split; [by apply place_working|lia].
  - split; [apply (place_behind _ _ p); [by left|done]|lia].
  - split; [apply place_leaving; [done|]; right; by eapply list_elem_of_lookup_2|lia].
Qed.

Lemma answer_nearer r i o c n w w' :
  conns w !! i = Some c → place r c n → serve_answer INVALID_REQUEST i o c w = Some w' → nearer r i n w'.
Proof.
  intros Hc Hp. unfold serve_answer. intros (Ht & _ & (r' & Hr & (q & Hq & Ha)%bind_Some)%bind_Some)%bind_Some.
  assert (∀ f w2 g, is_pending f = false → requests w2 = requests (settle_request r' f w) → conns w2 = conns w →
    (∀ c, c_task (g c) = Waiting ∨ c_task (g c) = Leaving ∧ current (g c) = current c) → (∀ c, queue (g c) = queue c) →
    nearer r i n (upd_conn i g w2)) as Hset.
  { intros f w2 g Hf Hreq Hcon Hg Hgq. rewrite <-Hcon in Hc.
    destruct Hp as [|_ Hcur|p|p _ Hp]; try congruence.
    - left. assert (r' = r) as -> by congruence. destruct (request_settled r f w q Hf Hq) as (q' & Hq' & Hd).
      exists q'. cbn. by rewrite Hreq.
    - right. destruct (Hg c) as [Hw|[Hl _]]; (eexists _, _; split; [by apply upd_conn_lookup|]).
      + split; [by apply (place_waiting _ _ p); [|rewrite Hgq]|lia].
      + split; [apply place_leaving; [done|]; right; rewrite Hgq; by eapply list_elem_of_lookup_2|lia]. }
  assert (∀ g, (∀ c, c_task (g c) = Leaving ∧ current (g c) = current c ∧ queue (g c) = queue c) →
    nearer r i n (upd_conn i g w)) as Hleave.
  { intros g Hg. destruct (Hg c) as (Hl & Hcur & Hgq). right. eexists _, 1. split; [by apply upd_conn_lookup|].
    destruct Hp as [| |p|p _ Hp]; try congruence; (split; [apply place_leaving; [done|]|lia]).
    - left. congruence.
    - right. rewrite Hgq. by eapply list_elem_of_lookup_2. }
  destruct o as [a|[code message| |text]|].
  - apply bind_Some in Ha as (_ & _ & [= <-]). by apply (Hset (Value a)); [..|intros; left|].
  - case_match; injection Ha as <-; by apply (Hset (Raised (MCPError code message))); [..|intros; auto|].
  - injection Ha as <-. by apply (Hset (Raised Timeout)); [..|intros; right|].
  - injection Ha as <-. by apply Hleave.
  - apply bind_Some in Ha as (_ & _ & [= <-]). by apply Hleave.
Qed.

Lemma ended_grows raised c w : grows (requests w) (requests (current_ended raised c w)).
Proof.
  unfold current_ended. destruct (current c) as [r|]; [|by destruct raised].
  etrans; [|apply grows_settle]. destruct raised; [apply grows_settle|done].
Qed.

Lemma end_nearer r i raised c n w w' :
  conn_ok (requests w) i c → place r c n → serve_end i raised c w = Some w' → done r w'.
Proof.
  intros Hok Hp. unfold serve_end. case_guard as Ht; [|done]. intros [= <-].
  destruct Hp as [_ Hr| |p|p [] _]; try congruence. destruct (co_own _ _ _ Hok r Hr) as (q & Hq & _).
  change (done r (drained (queue c) (current_ended raised c w))). destruct Hr as [Hr|Hr].
  - eapply done_grows; [apply drained_grows|]. unfold current_ended. rewrite Hr.
    destruct raised as [e|]; [|by eapply request_settled].
    destruct (grows_settle r (Raised e) _ _ _ Hq) as (q' & Hq' & _). by eapply request_settled.
  - destruct (ended_grows raised c w _ _ Hq) as (q' & Hq' & _). by eapply drained_done.
Qed.

Lemma task_nearer r i c n ev w w' :
  task_of ev = Some i → conns w !! i = Some c → conn_ok (requests w) i c → place r c n → step ev w = Some w' → nearer r i n w'.
Proof.
  destruct ev; intros [= ->] Hc Hok Hp; unfold McpClient.step; rewrite Hc; cbn.
  - by eapply start_nearer.
  - by eapply take_nearer.
  - by eapply answer_nearer.
  - left. by eapply end_nearer.
Qed.

(** *** Other events *)

Lemma place_append r c n l : place r c n → place r (with_queue (queue c ++ l) c) n.
Proof.
  intros [? Hr|? ?|p ? Hp|p ? Hp].
  - apply place_leaving; [done|]. cbn. rewrite elem_of_app. tauto.
  - by apply place_working.
  - apply place_waiting; [done|]. by apply lookup_app_l_Some.
  - apply place_behind; [done|]. by apply lookup_app_l_Some.
Qed.

Lemma place_close r c n : place r c n → place r (close_connection c) n.
Proof.
  intros Hp. unfold close_connection. destruct (current c) eqn:Ec.
  - by destruct Hp; constructor.
  - apply (place_append _ _ _ [None]) in Hp. by destruct Hp; constructor.
Qed.

Lemma close_keeps (P : connection → Prop) w i c :
  (∀ c, P c → P (close_connection c)) → conns w !! i = Some c → P c → ∃ c', conns (close w) !! i = Some c' ∧ P c'.
Proof.
  intros HP. unfold close. generalize (Dict.values (connections w)). intros l. revert w c.
  induction l as [|j l IH]; intros w c Hc Hp; cbn; [by exists c|].
  destruct (decide (j = i)) as [->|Hj].
  - apply (IH _ (close_connection c)); [by apply upd_conn_lookup|auto].
  - apply (IH _ c); [|done]. cbn. by rewrite list_lookup_alter_ne.
Qed.

Lemma close_all (P : nat → connection → Prop) w :
  (∀ i c, P i c → P i (close_connection c)) → (∀ i c, conns w !! i = Some c → P i c) →
  ∀ i c, conns (close w) !! i = Some c → P i c.
Proof.
  intros HP. unfold close. generalize (Dict.values (connections w)). intros l. revert w.
  induction l as [|j l IH]; intros w Hw; cbn; [done|]. apply IH. intros i c. cbn.
  rewrite list_lookup_alter. case_decide as Hj; [|by apply Hw]. subst j.
  intros (c' & Hc' & ->)%fmap_Some. auto.
Qed.

Lemma close_fixed w : requests (close w) = requests w ∧ callers (close w) = callers w.
Proof.
  unfold close. generalize (Dict.values (connections w)). intros l. revert w.
  induction l as [|j l IH]; intros w; cbn; [done|]. apply (IH (upd_conn j _ w)).
Qed.

Lemma connection_spec spec w i w' : _connection spec w = (i, w') →
  requests w' = requests w ∧ callers w' = callers w ∧
  (∃ c, conns w' !! i = Some c ∧ closed c = false ∧ (conns w' = conns w ∨ i = length (conns w) ∧
    conns w' = conns w ++ [c] ∧ c_task c = Starting ∧ queue c = [] ∧ current c = None)).
Proof.
  unfold _connection. destruct (_ ≫= _) as [[j [|]]|] eqn:E; intros [= <- <-]; cbn.
  - split_and!; [done..|]. eexists. split; [apply list_lookup_middle; lia|]. split; [done|]. by right.
  - apply bind_Some in E as (j' & _ & (c & Hc & [= <- Hcl])%bind_Some). split_and!; [done..|]. exists c. auto.
  - split_and!; [done..|]. eexists. split; [apply list_lookup_middle; lia|]. split; [done|]. by right.
Qed.

(** A request is put at the end of the queue of a connection that is not closed. *)
Record submitted (op : operation) (r : nat) (w w' : world) : Prop := {
  su_new : r = length (requests w);
  su_conns i c : conns w !! i = Some c → conns w' !! i = Some c ∨ conns w' !! i = Some (with_queue (queue c ++ [Some r]) c);
  su_request : ∃ i c, requests w' = requests w ++ [mkReq i op (timeout_of op) Pending] ∧
    conns w' !! i = Some (with_queue (queue c ++ [Some r]) c) ∧ closed c = false ∧
    (conns w !! i = Some c ∨ conns w !! i = None ∧ c_task c = Starting ∧ queue c = [] ∧ current c = None) ∧
    ∀ j, j ≠ i → conns w' !! j = conns w !! j;
  su_callers : callers w' = callers w;
}.

Lemma submitted_spec spec op w r w' : submit spec op w = (r, w') → submitted op r w w'.
Proof.
  unfold submit. destruct (_connection spec w) as [i w1] eqn:E.
  apply connection_spec in E as (Hr & Hk & c & Hc & Hcl & Hcs). intros [= <- <-]. rewrite Hr.
  assert (conns w !! i = Some c ∨ conns w !! i = None ∧ c_task c = Starting ∧ queue c = [] ∧ current c = None) as Hi.
  { destruct Hcs as [<-|(-> & Hcs & ?)]; [by left|right]. by rewrite lookup_ge_None_2. }
  assert (∀ j, j ≠ i → conns w1 !! j = conns w !! j) as Hj.
  { intros j Hne. destruct Hcs as [->|(-> & -> & _)]; [done|].
    destruct (decide (j < length (conns w))) as [Hlt|Hge]; [by rewrite lookup_app_l|].
    rewrite !lookup_ge_None_2; [done|..]; rewrite ?length_app; cbn; lia. }
  split; [done| | |done].
  - intros j c' Hc'. cbn. rewrite list_lookup_alter. case_decide as Hd.
    + subst j. rewrite Hc. right. destruct Hi as [Hi|[Hi _]]; [|congruence]. assert (c' = c) as -> by congruence. done.
    + left. by rewrite Hj.
  - exists i, c. cbn. rewrite list_lookup_alter_eq, Hc. split_and!; [done..|]. intros j Hne.
    rewrite list_lookup_alter_ne by done. by apply Hj.
Qed.

(** *** Answers that are as they should be: of the operation's kind, and of a closed connection if its session is over *)

Definition sound (cs : list connection) (q : request) : Prop :=
  match q_future q with
  | Value a => fits (q_operation q) a = true
  | Raised e => _session_expired INVALID_REQUEST e = true → ∃ c, cs !! q_conn q = Some c ∧ closed c = true
  | _ => True
  end.
Definition all_sound (cs : list connection) (l : list request) : Prop := ∀ r q, l !! r = Some q → sound cs q.

Lemma sound_closing cs cs' q : closing cs cs' → sound cs q → sound cs' q.
Proof.
  intros Hc. unfold sound. destruct (q_future q) as [|a|e|]; [done|done| |done]. intros He Hx. destruct (He Hx) as (c & Hl & Hcl).
  destruct (Hc _ _ Hl) as (c' & ? & ?). exists c'. auto.
Qed.

Lemma settle_sound cs l r f :
  all_sound cs l → (∀ q, l !! r = Some q → sound cs (with_future f q)) → all_sound cs (alter (settle f) r l).
Proof.
  intros Hs Hf r' q. rewrite list_lookup_alter. case_decide as E; [|apply Hs]. subst r'.
  intros (q' & Hq & ->)%fmap_Some. unfold settle. destruct (is_pending _); [by apply Hf|by eapply Hs].
Qed.

Lemma drained_sound cs l w : all_sound cs (requests w) → all_sound cs (requests (drained l w)).
Proof.
  revert w. unfold drained. induction l as [|[r|] l IH]; intros w Hw; cbn; [done| |by apply IH].
  apply (IH (_fail r _ w)). by apply settle_sound.
Qed.

(** *** What an event of a task does, all in all *)

Record task_did (j : nat) (w w' : world) : Prop := {
  td_conn : ∃ c c', conns w !! j = Some c ∧ conns w' = <[j := c']> (conns w) ∧ (closed c = true → closed c' = true) ∧
    (conn_ok (requests w) j c → conn_ok (requests w') j c');
  td_callers : callers w' = callers w;
  td_length : length (requests w') = length (requests w);
  td_grows : grows (requests w) (requests w');
  td_sound : (∀ c, conns w !! j = Some c → conn_ok (requests w) j c) →
    all_sound (conns w) (requests w) → all_sound (conns w') (requests w');
}.

Lemma task_update j f c w2 w :
  conns w !! j = Some c → conns w2 = conns w → callers w2 = callers w → length (requests w2) = length (requests w) →
  grows (requests w) (requests w2) → (closed c = true → closed (f c) = true) →
  (conn_ok (requests w) j c → conn_ok (requests w2) j (f c)) →
  (conn_ok (requests w) j c → all_sound (<[j := f c]> (conns w)) (requests w) → all_sound (<[j := f c]> (conns w)) (requests w2)) →
  task_did j w (upd_conn j f w2).
Proof.
  intros Hc Hcs Hk Hl Hg Hcl Hok Hs. assert (conns (upd_conn j f w2) = <[j := f c]> (conns w)) as Hu.
  { cbn. rewrite Hcs. apply list_eq. intros i. apply lookup_lt_Some in Hc as Hlt. destruct (decide (j = i)) as [<-|Hne].
    - by rewrite list_lookup_alter_eq, Hc, list_lookup_insert_eq.
    - by rewrite list_lookup_alter_ne, list_lookup_insert_ne. }
  split; [exists c, (f c); auto|done..|]. intros Hco Hsound. rewrite Hu. apply Hs; [by apply Hco|].
  intros r q Hq. eapply sound_closing; [|by eapply Hsound]. intros i c' Hc'. rewrite list_lookup_insert.
  apply lookup_lt_Some in Hc' as Hlt. case_decide as E; [|by exists c'].
  exists (f c). split; [done|]. destruct E as [-> _]. by assert (c' = c) as -> by congruence.
Qed.

Lemma own_closed l j c c' r q cs : conn_ok l j c → current c = Some r → l !! r = Some q → closed c' = true →
  j < length cs → ∃ c0, <[j := c']> cs !! q_conn q = Some c0 ∧ closed c0 = true.
Proof.
  intros Hok Hr Hq Hcl Hj. destruct (co_own _ _ _ Hok r) as (q' & Hq' & Hi); [by left|].
  assert (q' = q) as -> by congruence. exists c'. by rewrite Hi, list_lookup_insert_eq.
Qed.

Lemma conn_ok_same l l' j c c' : grows l l' → conn_ok l j c →
  (∀ r, current c' = Some r ∨ Some r ∈ queue c' → current c = Some r ∨ Some r ∈ queue c) →
  (c_task c' = Working → is_Some (current c')) → (c_task c' = Over → closed c' = true) → conn_ok l' j c'.
Proof.
  intros Hg Hok Hr Hw Ho. apply (conn_ok_grows _ _ _ _ Hg). split; [|done..]. intros r Hin. apply (co_own _ _ _ Hok), Hr, Hin.
Qed.

Lemma start_did j raised c w w' : conns w !! j = Some c → serve_start j raised c w = Some w' → task_did j w w'.
Proof.
  intros Hc. unfold serve_start. intros (Ht & _ & [= <-])%bind_Some. apply (task_update _ _ c); try done.
  intros Hok. by apply (conn_ok_same _ _ _ _ _ ltac:(reflexivity) Hok); [|destruct raised..].
Qed.

Lemma take_did j c w w' : conns w !! j = Some c → serve_take j c w = Some w' → task_did j w w'.
Proof.
  intros Hc. unfold serve_take. intros (Ht & _ & Hs)%bind_Some. destruct (queue c) as [|[r|] l] eqn:El; [done|..];
    injection Hs as <-; apply (task_update _ _ c); try done; intros Hok;
    apply (conn_ok_same _ _ _ _ _ ltac:(reflexivity) Hok); try done; cbn; rewrite El; set_solver.
Qed.

Lemma answer_did j o c w w' : conns w !! j = Some c → serve_answer INVALID_REQUEST j o c w = Some w' → task_did j w w'.
Proof.
  intros Hc. unfold serve_answer. intros (Ht & _ & (r & Hr & (q & Hq & Ha)%bind_Some)%bind_Some)%bind_Some.
  assert (∀ f g, (conn_ok (requests w) j c → sound (<[j := g c]> (conns w)) (with_future f q)) →
    (closed c = true → closed (g c) = true) →
    (∀ r, current (g c) = Some r ∨ Some r ∈ queue (g c) → current c = Some r ∨ Some r ∈ queue c) →
    c_task (g c) = Waiting ∨ c_task (g c) = Leaving → task_did j w (upd_conn j g (settle_request r f w))) as Hset.
  { intros f g Hf Hcl Hown Htask. apply (task_update _ _ c); try done.
    - cbn. by rewrite length_alter.
    - apply grows_settle.
    - intros Hok. apply (conn_ok_same _ _ _ _ _ (grows_settle _ _ _) Hok); [done|by destruct Htask as [-> | ->]..].
    - intros Hok Hs. apply settle_sound; [done|]. intros q' Hq'. assert (q' = q) as -> by congruence. auto. }
  assert (∀ g, closed (g c) = closed c → current (g c) = current c → queue (g c) = queue c → c_task (g c) = Leaving →
    task_did j w (upd_conn j g w)) as Hleave.
  { intros g Hcl Hcur Hqu Htask. apply (task_update _ _ c); try done; [congruence|]. intros Hok.
    apply (conn_ok_same _ _ _ _ _ ltac:(reflexivity) Hok); rewrite ?Hcur, ?Hqu, ?Htask; done. }
  destruct o as [a|[code message| |text]|].
  - apply bind_Some in Ha as (Hfit & _ & [= <-]). apply Hset; [done|done| |by left]. cbn. naive_solver.
  - destruct (_ || _) eqn:Eb; injection Ha as <-.
    + apply Hset; [|done|done|by right]. intros Hok _. apply (own_closed (requests w) j c _ r q); try done. by apply lookup_lt_Some in Hc.
    + apply orb_false_iff in Eb as [_ Eb]. apply Hset; [|done| |by left]; [|cbn; naive_solver].
      intros _. unfold sound. cbn in *. congruence.
  - injection Ha as <-. apply Hset; [done..|by right].
  - injection Ha as <-. by apply Hleave.
  - apply bind_Some in Ha as (_ & _ & [= <-]). by apply Hleave.
Qed.

Lemma ended_fixed raised c w : conns (current_ended raised c w) = conns w ∧ callers (current_ended raised c w) = callers w ∧
  length (requests (current_ended raised c w)) = length (requests w).
Proof. unfold current_ended. destruct (current c), raised; cbn; by rewrite ?length_alter. Qed.

Lemma drained_length l w : length (requests (drained l w)) = length (requests w).
Proof.
  revert w. unfold drained. induction l as [|[r|] l IH]; intros w; cbn; [done| |by apply IH].
  rewrite IH. cbn. by rewrite length_alter.
Qed.

Lemma end_did j raised c w w' : conns w !! j = Some c → serve_end j raised c w = Some w' → task_did j w w'.
Proof.
  intros Hc. unfold serve_end. intros (Ht & _ & [= <-])%bind_Some.
  destruct (ended_fixed raised c w) as (Hec & Hek & Hel), (drained_conns (queue c) (current_ended raised c w)) as (Hdc & _ & Hdk).
  assert (grows (requests w) (requests (drained (queue c) (current_ended raised c w)))) as Hg.
  { etrans; [apply ended_grows|apply drained_grows]. }
  apply (task_update _ _ c); [done|congruence|congruence|by rewrite drained_length, Hel|done|done|..].
  - intros Hok. apply (conn_ok_same _ _ _ _ _ Hg Hok); [|done..]. cbn. intros r [?|?%not_elem_of_nil]; [by left|done].
  - intros Hok Hs. apply drained_sound. unfold current_ended. destruct (current c) as [r|] eqn:Er; [|by destruct raised].
    apply settle_sound; [|done]. destruct raised as [e|]; [|done]. apply settle_sound; [done|].
    intros q Hq _. apply (own_closed (requests w) j c _ r q); try done. by apply lookup_lt_Some in Hc.
Qed.

Lemma task_does ev j w w' : task_of ev = Some j → step ev w = Some w' → task_did j w w'.
Proof.
  destruct ev; intros [= ->]; unfold McpClient.step; intros (c & Hc & Hs)%bind_Some.
  - by eapply start_did.
  - by eapply take_did.
  - by eapply answer_did.
  - by eapply end_did.
Qed.

(** *** What an event of a caller does *)

Inductive caller_did (w w' : world) : Prop :=
| did_submit op r w1 : submitted op r w w1 → requests w' = requests w1 → conns w' = conns w1 → caller_did w w'
| did_settle : conns w' = conns w → requests w' = requests w ∨ (∃ r, requests w' = alter (settle Cancelled) r (requests w)) →
    caller_did w w'
| did_close : w' = close w → caller_did w w'.

Lemma caller_does ev w w' : task_of ev = None → step ev w = Some w' → caller_did w w'.
Proof.
  destruct ev as [| | | |spec op|k|k|]; intros [=]; cbn.
  - unfold call_begin. destruct (submit spec op w) as [r w1] eqn:E. intros [= <-].
    apply submitted_spec in E. by eapply did_submit.
  - unfold call_resume. intros (c & _ & (_ & _ & (r & _ & (q & _ & (_ & _ & Hs)%bind_Some)%bind_Some)%bind_Some)%bind_Some)%bind_Some.
    assert (∀ f, caller_did w (upd_caller k (over_with f) w)) as Hover by (intros; apply did_settle; [done|by left]).
    destruct (q_future q) as [| |e|], (k_requests c) as [|? [|]]; try (by injection Hs as <-).
    destruct (_session_expired _ e); [|by injection Hs as <-].
    destruct (submit _ _ w) as [r2 w1] eqn:E. injection Hs as <-. apply submitted_spec in E. by eapply did_submit.
  - unfold call_abandon. intros (c & _ & (_ & _ & (r & _ & [= <-])%bind_Some)%bind_Some)%bind_Some.
    apply did_settle; [done|]. right. by exists r.
  - intros [= <-]. by apply did_close.
Qed.

Lemma step_grows ev w w' : step ev w = Some w' → grows (requests w) (requests w') ∧ closing (conns w) (conns w').
Proof.
  intros Hs. destruct (task_of ev) as [j|] eqn:Et.
  - destruct (task_does _ _ _ _ Et Hs) as [(c & c' & Hc & Hcs & Hcl & _) _ _ Hg _]. split; [done|]. rewrite Hcs.
    intros i ci Hi. destruct (decide (j = i)) as [<-|Hne].
    + exists c'. rewrite list_lookup_insert_eq by by eapply lookup_lt_Some. split; [done|]. by assert (ci = c) as -> by congruence.
    + exists ci. by rewrite list_lookup_insert_ne.
  - destruct (caller_does _ _ _ Et Hs) as [op r w1 [Hn Hcs (i & c & Hq & _) _] -> -> | -> [->|[r ->]] | ->].
    + rewrite Hq. split; [apply grows_app|]. intros j cj Hj. destruct (Hcs _ _ Hj) as [->| ->]; by eexists.
    + done.
    + split; [apply grows_settle|done].
    + destruct (close_fixed w) as [-> _]. split; [done|]. intros i c Hc.
      eapply (close_keeps (λ c', closed c = true → closed c' = true)); [|done..].
      intros c0 H0 ?. unfold close_connection. by destruct (current c0).
Qed.

Lemma others_keep ev i c r n w w' :
  task_of ev ≠ Some i → conns w !! i = Some c → place r c n → step ev w = Some w' →
  ∃ c', conns w' !! i = Some c' ∧ place r c' n.
Proof.
  intros Ht Hc Hp Hs. destruct (task_of ev) as [j|] eqn:Et.
  - destruct (task_does _ _ _ _ Et Hs) as [(c0 & c' & _ & -> & _) _ _ _ _]. exists c.
    rewrite list_lookup_insert_ne by congruence. done.
  - destruct (caller_does _ _ _ Et Hs) as [op r' w1 [_ Hcs _ _] _ -> | -> _ | ->].
    + destruct (Hcs _ _ Hc) as [->| ->]; (eexists; split; [done|]); [done|by apply place_append].
    + by exists c.
    + eapply (close_keeps (λ c, place r c n)); [intros ?; apply place_close|done..].
Qed.

(** *** The invariant *)

Record caller_ok (l : list request) (c : caller) : Prop := {
  ck_requests :
    (∃ r q, k_requests c = [r] ∧ l !! r = Some q ∧ q_operation q = k_operation c) ∨
    (∃ r1 q1 e r2 q2, k_requests c = [r1; r2] ∧ l !! r1 = Some q1 ∧ q_operation q1 = k_operation c ∧ q_future q1 = Raised e ∧
      _session_expired INVALID_REQUEST e = true ∧ l !! r2 = Some q2 ∧ q_operation q2 = k_operation c ∧ q_conn q2 ≠ q_conn q1);
  ck_outcome f : k_outcome c = Some f → f = Cancelled ∨
    ∃ r q, last (k_requests c) = Some r ∧ l !! r = Some q ∧ q_future q = f ∧ is_pending f = false;
}.

Record ok (w : world) : Prop := {
  ok_conns i c : conns w !! i = Some c → conn_ok (requests w) i c;
  ok_placed r q : requests w !! r = Some q → is_pending (q_future q) = true →
    ∃ c n, conns w !! q_conn q = Some c ∧ place r c n;
  ok_sound : all_sound (conns w) (requests w);
  ok_callers k c : callers w !! k = Some c → caller_ok (requests w) c;
}.

Lemma caller_ok_grows l l' c : grows l l' → caller_ok l c → caller_ok l' c.
Proof.
  intros Hg [Hr Ho]. split.
  - destruct Hr as [(r & q & Hk & Hq & Hop)|(r1 & q1 & e & r2 & q2 & Hk & Hq1 & Hop1 & He & Hx & Hq2 & Hop2 & Hne)].
    + left. destruct (Hg _ _ Hq) as (q' & Hq' & _ & Hop' & _). exists r, q'. split_and!; [done..|congruence].
    + right. destruct (Hg _ _ Hq1) as (q1' & Hq1' & _ & _ & Heq), (Hg _ _ Hq2) as (q2' & Hq2' & Hc2 & Hop2' & _).
      rewrite (Heq ltac:(by rewrite He)) in Hq1'. exists r1, q1, e, r2, q2'. split_and!; try done; congruence.
  - intros f Hf. destruct (Ho f Hf) as [->|(r & q & Hl & Hq & Hqf & Hd)]; [by left|right].
    destruct (Hg _ _ Hq) as (q' & Hq' & _ & _ & Heq). rewrite Heq in Hq' by (by rewrite Hqf). by exists r, q.
Qed.

Lemma ok_init : ok init.
Proof. by split. Qed.

Lemma conns_step ev w w' : ok w → step ev w = Some w' → ∀ i c, conns w' !! i = Some c → conn_ok (requests w') i c.
Proof.
  intros Hok Hs i c. destruct (step_grows _ _ _ Hs) as [Hg _]. pose proof (ok_conns _ Hok) as Hco.
  destruct (task_of ev) as [j|] eqn:Et.
  - destruct (task_does _ _ _ _ Et Hs) as [(c0 & c' & Hc0 & -> & _ & Hc') _ _ _ _].
    destruct (decide (j = i)) as [<-|Hne].
    + rewrite list_lookup_insert_eq by by eapply lookup_lt_Some. intros [= <-]. auto.
    + rewrite list_lookup_insert_ne by done. intros Hi. eapply conn_ok_grows; eauto.
  - destruct (caller_does _ _ _ Et Hs) as [op r w1 [Hn _ (j & c0 & Hq & Hj & Hcl & Hold & Hothers) _] Hreq -> | -> _ | ->].
    + destruct (decide (i = j)) as [->|Hne].
      2: { rewrite Hothers by done. intros Hi. eapply conn_ok_grows; eauto. }
      rewrite Hj. intros [= <-]. rewrite Hreq, Hq. split.
      * cbn. intros r' Hr'. assert ((current c0 = Some r' ∨ Some r' ∈ queue c0) ∨ r' = r) as [Hr|Hr] by set_solver.
        -- destruct Hold as [Hold|(_ & _ & Hqu & Hcu)]; [|rewrite Hqu, Hcu in Hr; set_solver].
           destruct (co_own _ _ _ (Hco _ _ Hold) r' Hr) as (q & ? & ?). exists q. split; [by apply lookup_app_l_Some|done].
        -- subst r' r. eexists. split; [apply list_lookup_middle; lia|done].
      * cbn. destruct Hold as [Hold|(_ & Ht & _)]; [apply (Hco _ _ Hold)|by rewrite Ht].
      * cbn. destruct Hold as [Hold|(_ & Ht & _)]; [apply (Hco _ _ Hold)|by rewrite Ht].
    + intros Hi. eapply conn_ok_grows; eauto.
    + destruct (close_fixed w) as [-> _]. revert i c. apply close_all; [|done]. intros i c [Ho Hw Hv].
      unfold close_connection. destruct (current c) as [r0|] eqn:Ec.
      * split; cbn; [|by rewrite Ec|done]. rewrite Ec. intros r Hr. by apply Ho.
      * split; cbn; rewrite ?Ec; [|intros Ht; by destruct (Hw Ht)|done]. intros r [?|Hr]; [done|]. apply Ho. right. set_solver.
Qed.

Lemma placed_step ev w w' : ok w → step ev w = Some w' →
  ∀ r q, requests w' !! r = Some q → is_pending (q_future q) = true → ∃ c n, conns w' !! q_conn q = Some c ∧ place r c n.
Proof.
  intros Hok Hs r q Hq Hp. destruct (step_grows _ _ _ Hs) as [Hg _].
  destruct (requests w !! r) as [q0|] eqn:E0.
  - destruct (Hg _ _ E0) as (q' & Hq' & Hi & _ & Hd). assert (q' = q) as -> by congruence. clear Hq'. rewrite Hi.
    assert (is_pending (q_future q0) = true) as Hp0.
    { destruct (is_pending (q_future q0)) eqn:E; [done|]. rewrite Hd in Hp by done. congruence. }
    destruct (ok_placed _ Hok _ _ E0 Hp0) as (c & n & Hc & Hpl).
    destruct (decide (task_of ev = Some (q_conn q0))) as [Ht|Ht].
    + destruct (task_nearer _ _ _ _ _ _ _ Ht Hc (ok_conns _ Hok _ _ Hc) Hpl Hs) as [(q' & Hq' & Hd')|(c' & n' & ? & ? & _)].
      * congruence.
      * by exists c', n'.
    + destruct (others_keep _ _ _ _ _ _ _ Ht Hc Hpl Hs) as (c' & ? & ?). by exists c', n.
  - apply lookup_ge_None in E0. apply lookup_lt_Some in Hq as Hlt.
    destruct (task_of ev) as [j|] eqn:Et.
    + pose proof (td_length _ _ _ (task_does _ _ _ _ Et Hs)). lia.
    + destruct (caller_does _ _ _ Et Hs) as [op r' w1 [Hn _ (j & c & Hr & Hj & Hcl & Hold & _) _] Hreq -> | _ [Hr|[r' Hr]] | ->].
      * rewrite Hreq, Hr, length_app in Hlt. cbn in Hlt. assert (r = r') as -> by lia.
        rewrite Hreq, Hr, Hn in Hq. rewrite list_lookup_middle in Hq by done. injection Hq as <-. cbn. rewrite Hj.
        assert (queue (with_queue (queue c ++ [Some r']) c) !! length (queue c) = Some (Some r')) as Hlast by (by apply list_lookup_middle).
        destruct (c_task c) eqn:Et'; (eexists _, _; split; [done|]).
        -- apply (place_behind _ _ (length (queue c))); [by right|done].
        -- by apply (place_waiting _ _ (length (queue c))).
        -- apply (place_behind _ _ (length (queue c))); [by left|done].
        -- apply place_leaving; [done|]. right. by eapply list_elem_of_lookup_2.
        -- exfalso. destruct Hold as [Hold|(_ & Ht & _)]; [|congruence].
           rewrite (co_over _ _ _ (ok_conns _ Hok _ _ Hold) Et') in Hcl. done.
      * rewrite Hr in Hlt. lia.
      * rewrite Hr, length_alter in Hlt. lia.
      * destruct (close_fixed w) as [Hcr _]. rewrite Hcr in Hlt. lia.
Unshelve. all: exact 0.
Qed.

Lemma sound_step ev w w' : ok w → step ev w = Some w' → all_sound (conns w') (requests w').
Proof.
  intros Hok Hs. destruct (step_grows _ _ _ Hs) as [_ Hcl]. destruct (task_of ev) as [j|] eqn:Et.
  - apply (td_sound _ _ _ (task_does _ _ _ _ Et Hs)); [|apply Hok]. intros c. apply Hok.
  - assert (all_sound (conns w') (requests w)) as Hold.
    { intros r q Hq. eapply sound_closing; [done|]. by eapply (ok_sound _ Hok). }
    destruct (caller_does _ _ _ Et Hs) as [op r w1 [_ _ (i & c & Hq & _) _] -> _ | _ [->|[r ->]] | ->].
    + rewrite Hq. intros r' q. rewrite lookup_app_Some. intros [Hq'|[_ Hq']]; [by eapply Hold|].
      apply list_lookup_singleton_Some in Hq' as [_ <-]. done.
    + done.
    + by apply settle_sound.
    + by destruct (close_fixed w) as [-> _].
Qed.

(** A second request goes over another connection: the first one's is closed. *)
Lemma resubmitted op r w w' r1 q1 e : ok w → submitted op r w w' → requests w !! r1 = Some q1 → q_future q1 = Raised e →
  _session_expired INVALID_REQUEST e = true → ∃ q, requests w' !! r = Some q ∧ q_operation q = op ∧ q_conn q ≠ q_conn q1.
Proof.
  intros Hok [-> _ (i & c & Hr & _ & Hcl & Hold & _) _] Hq1 He Hx. eexists. rewrite Hr.
  split; [apply list_lookup_middle; lia|]. split; [done|]. cbn. intros ->.
  pose proof (ok_sound _ Hok _ _ Hq1) as Hs. unfold sound in Hs. rewrite He in Hs.
  destruct (Hs Hx) as (c' & Hc' & Hcl'). destruct Hold as [Hold|[Hold _]]; congruence.
Qed.

(** An update of the caller that goes on, in a world where requests only went on *)
Lemma callers_alter w w' k f :
  ok w → grows (requests w) (requests w') → callers w' = alter f k (callers w) →
  (∀ c, callers w !! k = Some c → caller_ok (requests w) c → caller_ok (requests w') (f c)) →
  ∀ k' c, callers w' !! k' = Some c → caller_ok (requests w') c.
Proof.
  intros Hok Hg -> Hf k' c. rewrite list_lookup_alter. case_decide as Hk; [|intros Hc; eapply caller_ok_grows, Hok; done].
  subst k'. intros (c' & Hc & ->)%fmap_Some. apply (Hf _ Hc). by eapply (ok_callers _ Hok).
Qed.

Lemma resume_ok k w w' : ok w → step (Resume k) w = Some w' → ∀ k' c, callers w' !! k' = Some c → caller_ok (requests w') c.
Proof.
  intros Hok Hs. destruct (step_grows _ _ _ Hs) as [Hg _]. revert Hs. cbn. unfold call_resume.
  intros (c & Hc & (Hno & _ & (r & Hr & (q & Hq & (Hd & _ & Hs)%bind_Some)%bind_Some)%bind_Some)%bind_Some)%bind_Some.
  assert (∀ f, w' = upd_caller k (over_with f) w → f = q_future q → ∀ k' c, callers w' !! k' = Some c → caller_ok (requests w') c) as Hover.
  { intros f -> ->. eapply (callers_alter w _ k); [done|done|done|]. intros c' Hc' [Hreq _]. split; [done|].
    cbn. intros f [= <-]. right. assert (c' = c) as -> by congruence. by exists r, q. }
  destruct (q_future q) as [|a|e|] eqn:Ef; [done|..].
  1,3: by destruct (k_requests c) as [|? [|]]; injection Hs as <-; eapply Hover.
  destruct (k_requests c) as [|r1 [|]] eqn:Ek; try (by injection Hs as <-; eapply Hover).
  destruct (_session_expired _ e) eqn:Ex; [|by injection Hs as <-; eapply Hover].
  injection Hr as ->. destruct (submit _ _ w) as [r2 w1] eqn:E. injection Hs as <-. apply submitted_spec in E as Hsub.
  destruct (resubmitted _ _ _ _ _ _ _ Hok Hsub Hq Ef Ex) as (q2 & Hq2 & Hop2 & Hne).
  eapply (callers_alter w _ k); [done|done|cbn; by rewrite (su_callers _ _ _ _ Hsub)|].
  intros c' Hc' [Hreq _]. assert (c' = c) as -> by congruence. split; [|by intros f; cbn; rewrite Hno].
  destruct Hreq as [(r' & q' & Hk' & Hq' & Hop)|(? & ? & ? & ? & ? & Hk' & _)]; rewrite Ek in Hk'; [|done]. injection Hk' as <-.
  assert (q' = q) as -> by congruence. destruct (Hg _ _ Hq) as (q1 & Hq1 & _ & _ & Heq). rewrite Heq in Hq1 by (by rewrite Ef).
  right. exists r, q, e, r2, q2. cbn. rewrite Ek. by split_and!.
Qed.

Lemma callers_step ev w w' : ok w → step ev w = Some w' → ∀ k c, callers w' !! k = Some c → caller_ok (requests w') c.
Proof.
  intros Hok Hs. destruct (step_grows _ _ _ Hs) as [Hg _].
  assert (callers w' = callers w → ∀ k c, callers w' !! k = Some c → caller_ok (requests w') c) as Hsame.
  { intros -> k c Hc. eapply caller_ok_grows; [done|]. by eapply (ok_callers _ Hok). }
  destruct (task_of ev) as [j|] eqn:Et; [apply Hsame, (td_callers j), (task_does ev); done|].
  destruct ev as [| | | |spec op|k|k|]; try done.
  - revert Hs. cbn. unfold call_begin. destruct (submit spec op w) as [r w1] eqn:E. intros [= <-].
    apply submitted_spec in E as [-> _ (i & c0 & Hr & _) Hcal]. cbn. intros k c. rewrite Hcal, lookup_app_Some.
    intros [Hc|[_ Hc]]; [by eapply caller_ok_grows, (ok_callers _ Hok)|].
    apply list_lookup_singleton_Some in Hc as [_ <-]. split; [|done]. left. cbn in *.
    eexists _, _. split; [done|]. rewrite Hr. split; [by apply list_lookup_middle|done].
  - by eapply resume_ok.
  - revert Hs. cbn. unfold call_abandon. intros (c & Hc & (_ & _ & (r & _ & [= <-])%bind_Some)%bind_Some)%bind_Some.
    eapply (callers_alter w _ k); [done|done|done|]. intros c' _ [Hreq _]%(caller_ok_grows _ _ _ Hg). split; [done|].
    cbn. intros f [= <-]. by left.
  - revert Hs. cbn. intros [= <-]. apply Hsame. by destruct (close_fixed w) as [_ ->].
Qed.

Lemma ok_step ev w w' : ok w → step ev w = Some w' → ok w'.
Proof. intros. split; [by eapply conns_step|by eapply placed_step|by eapply sound_step|by eapply callers_step]. Qed.

Lemma ok_run evs w w' : ok w → run evs w = Some w' → ok w'.
Proof.
  revert w. induction evs as [|ev evs IH]; intros w Hok; cbn; [by intros [= <-]|].
  intros (w1 & Hs & Hr)%bind_Some. eapply IH; [by eapply ok_step|done].
Qed.

(** *** Answers come *)

Definition task_events (i : nat) (evs : list event) : nat := length (filter (λ ev, task_of ev = Some i) evs).

Lemma place_answered r i c n evs : ∀ w w', ok w → conns w !! i = Some c → place r c n → run evs w = Some w' →
  n ≤ task_events i evs → done r w'.
Proof.
  revert c n. induction evs as [|ev evs IH]; intros c n w w' Hok Hc Hp Hr Hn.
  - cbn in Hn. by destruct Hp; lia.
  - cbn in Hr. apply bind_Some in Hr as (w1 & Hs & Hr). pose proof (ok_step _ _ _ Hok Hs) as Hok1.
    unfold task_events in Hn. rewrite filter_cons in Hn. case_decide as Ht; cbn in Hn.
    + destruct (task_nearer _ _ _ _ _ _ _ Ht Hc (ok_conns _ Hok _ _ Hc) Hp Hs) as [Hd|(c' & n' & Hc' & Hp' & Hlt)].
      * clear -Hd Hr Hok1. revert w1 Hd Hr Hok1. induction evs as [|ev evs IH]; intros w1 Hd; cbn; [by intros [= <-]|].
        intros (w2 & Hs & Hr)%bind_Some Hok1. eapply IH; [|done|by eapply ok_step].
        eapply done_grows; [|done]. by eapply step_grows.
      * eapply IH; [done..|]. unfold task_events. lia.
    + destruct (others_keep _ _ _ _ _ _ _ Ht Hc Hp Hs) as (c' & Hc' & Hp'). by eapply IH.
Qed.

(** As long as a request waits, its connection's task has something to do. *)
Lemma place_enabled r i c n w : ok w → conns w !! i = Some c → place r c n → ∃ ev, task_of ev = Some i ∧ is_Some (step ev w).
Proof.
  intros Hok Hc Hp. destruct (c_task c) eqn:Et.
  - exists (Start i None). split; [done|]. cbn. rewrite Hc. cbn. unfold serve_start. rewrite Et. by eexists.
  - exists (Take i). split; [done|]. cbn. rewrite Hc. cbn. unfold serve_take. rewrite Et. cbn.
    destruct (queue c) as [|[]] eqn:Eq; [|by eexists..]. destruct Hp as [| |p _ Hq|p [] _]; try congruence. by rewrite Eq in Hq.
  - exists (Answer i (Failed Timeout)). split; [done|]. cbn. rewrite Hc. cbn. unfold serve_answer. rewrite Et. cbn.
    destruct (co_work _ _ _ (ok_conns _ Hok _ _ Hc) Et) as [r' Hr']. rewrite Hr'. cbn.
    destruct (co_own _ _ _ (ok_conns _ Hok _ _ Hc) r') as (q & -> & _); [by left|]. by eexists.
  - exists (End i None). split; [done|]. cbn. rewrite Hc. cbn. unfold serve_end. rewrite Et. by eexists.
  - destruct Hp as [| | |p []]; congruence.
Qed.
End client.
End ClientFacts.

Module ClientProperties.
Import ClientFacts.

(** C22: Every request is answered: while one waits, the task of its connection is not over and has something to do, and
    once the task has done that often enough, twice for each entry in its queue and twice more, the request has its result,
    its error or its cancellation, whatever the servers answer, whoever gives up, and however the connection ends. *)
Theorem requests_answered `{SpecReader} INVALID_REQUEST evs w r q :
  run INVALID_REQUEST evs init = Some w → requests w !! r = Some q → q_future q = Pending →
  ∃ c, conns w !! q_conn q = Some c ∧ (∃ ev, task_of ev = Some (q_conn q) ∧ is_Some (step INVALID_REQUEST ev w)) ∧
    ∀ evs' w', run INVALID_REQUEST evs' w = Some w' → 2 * length (queue c) + 2 ≤ task_events (q_conn q) evs' →
      ∃ q', requests w' !! r = Some q' ∧ q_future q' ≠ Pending.
Proof.
  intros Hr Hq Hp. pose proof (ok_run _ _ _ _ (ok_init _) Hr) as Hok.
  destruct (ok_placed _ _ Hok _ _ Hq) as (c & n & Hc & Hpl); [by rewrite Hp|]. exists c. split; [done|].
  split; [by eapply place_enabled|]. intros evs' w' Hr' Hn. pose proof (place_near _ _ _ Hpl).
  destruct (place_answered _ _ _ _ _ _ _ _ Hok Hc Hpl Hr') as (q' & Hq' & Hd); [lia|].
  exists q'. split; [done|]. intros E. by rewrite E in Hd.
Qed.

(** C23: A call of a tool server makes one request, or two if the answer of the first is that the session is over, and the
    second goes over another connection; both ask for the same operation. The call is over with the answer of its last
    request, or because its caller gave up. *)
Theorem calls_repeat_over_new_sessions `{SpecReader} INVALID_REQUEST evs w k c :
  run INVALID_REQUEST evs init = Some w → callers w !! k = Some c →
  ((∃ r q, k_requests c = [r] ∧ requests w !! r = Some q ∧ q_operation q = k_operation c) ∨
   (∃ r1 q1 e r2 q2, k_requests c = [r1; r2] ∧ requests w !! r1 = Some q1 ∧ q_operation q1 = k_operation c ∧
      q_future q1 = Raised e ∧ _session_expired INVALID_REQUEST e = true ∧
      requests w !! r2 = Some q2 ∧ q_operation q2 = k_operation c ∧ q_conn q2 ≠ q_conn q1)) ∧
  ∀ f, k_outcome c = Some f → f = Cancelled ∨
    ∃ r q, last (k_requests c) = Some r ∧ requests w !! r = Some q ∧ q_future q = f ∧ f ≠ Pending.
Proof.
  intros Hr Hc. destruct (ok_callers _ _ (ok_run _ _ _ _ (ok_init _) Hr) _ _ Hc) as [Hreq Ho]. split; [done|].
  intros f Hf. destruct (Ho f Hf) as [->|(r & q & ? & ? & ? & Hd)]; [by left|right].
  exists r, q. split_and!; [done..|]. by intros ->.
Qed.

(** However a server behaves, a call that is over has an answer, unless its caller was cancelled: the tools, or an output
    of at most 1 MiB, or the text of the [McpCallError] that the loop records. *)
Theorem calls_end_well `{SpecReader} INVALID_REQUEST evs w k c f :
  run INVALID_REQUEST evs init = Some w → callers w !! k = Some c → k_outcome c = Some f → f ≠ Cancelled →
  match k_operation c with
  | ListTools => ∃ a, list_tools (k_spec c) f = Some a
  | CallTool name _ => ∃ a, call_tool (k_spec c) name f = Some a ∧
      ∀ output, a = inr output → (Z.of_nat (String.length output) ≤ 1048576)%Z
  end.
Proof.
  intros Hr Hc Hf Hn. pose proof (ok_run _ _ _ _ (ok_init _) Hr) as Hok.
  destruct (ok_callers _ _ Hok _ _ Hc) as [Hreq Ho].
  destruct (Ho f Hf) as [?|(r & q & Hl & Hq & Hqf & Hd)]; [done|].
  assert (q_operation q = k_operation c) as Hop.
  { destruct Hreq as [(? & ? & Hk & ? & ?)|(? & ? & ? & ? & ? & Hk & _ & _ & _ & _ & ? & ? & _)]; rewrite Hk in Hl;
      injection Hl as ->; congruence. }
  pose proof (ok_sound _ _ Hok _ _ Hq) as Hs. unfold sound in Hs. rewrite Hqf, Hop in Hs.
  destruct f as [|a|[| |]|], (k_operation c); try done; try (by eexists); try (eexists; split; [done|]; by intros).
  - destruct a; [by eexists|done].
  - destruct a as [|content is_error]; [done|]. eexists. split; [done|]. cbn. intros output.
    destruct is_error; [done|]. destruct (_ <? _)%Z eqn:E; [done|]. intros [= <-]. apply Z.ltb_ge in E. exact E.
Qed.
End ClientProperties.

Module ClientExamples.
Import ClientFacts ClientProperties McpPolicy.PolicyTheorems.

Definition dice : McpToolSpec := example_spec "dice" (JStr "never").
Definition roll : operation := CallTool "roll" (JObj []).
Definition expired : failure := MCPError (-32600) "Session terminated".

(** A session that is lost: the call goes over a second connection, while the first one still closes. *)
Definition waiting_run : list event :=
  [Call dice roll; Start 0 None; Take 0; Answer 0 (Failed expired); Resume 0; Call dice ListTools; Start 1 None].
Definition whole_run : list event :=
  waiting_run ++ [Take 1; Answer 1 (Returned (Content [TextPart "4"; OtherPart "{}"] false)); Resume 0; Close; End 0 None].

Definition after (evs : list event) : world := default init (run (-32600) evs init).

Lemma requests_answered_witness :
  let w := after waiting_run in
  q_future <$> requests w = [Raised expired; Pending; Pending] ∧
  ∃ c, conns w !! 1 = Some c ∧ (∃ ev, task_of ev = Some 1 ∧ is_Some (step (-32600) ev w)) ∧
    ∀ evs' w', run (-32600) evs' w = Some w' → 2 * length (queue c) + 2 ≤ task_events 1 evs' →
      ∃ q', requests w' !! 2 = Some q' ∧ q_future q' ≠ Pending.
Proof.
  intros w. split; [vm_compute; reflexivity|].
  apply (requests_answered (-32600) waiting_run w 2 (mkReq 1 ListTools 30 Pending)); vm_compute; reflexivity.
Defined.

Lemma calls_repeat_over_new_sessions_witness :
  let w := after whole_run in
  ∃ c, callers w !! 0 = Some c ∧ k_requests c = [0; 1] ∧ k_outcome c ≠ Some Cancelled ∧
  ∀ f, k_outcome c = Some f → f = Cancelled ∨
    ∃ r q, last (k_requests c) = Some r ∧ requests w !! r = Some q ∧ q_future q = f ∧ f ≠ Pending.
Proof.
  intros w. eexists. split; [vm_compute; reflexivity|]. split; [reflexivity|]. split; [done|].
  apply (calls_repeat_over_new_sessions (-32600) whole_run w 0); vm_compute; reflexivity.
Defined.

Lemma calls_end_well_witness :
  let f := Value (Content [TextPart "4"; OtherPart "{}"] false) in
  call_tool dice "roll" f = Some (inr "4{}"%string) ∧
  ∃ a, call_tool dice "roll" f = Some a ∧ ∀ output, a = inr output → (Z.of_nat (String.length output) ≤ 1048576)%Z.
Proof.
  intros f. split; [vm_compute; reflexivity|].
  apply (calls_end_well (-32600) whole_run (after whole_run) 0 (mkCaller dice roll [0; 1] (Some f)) f);
    [vm_compute; reflexivity..|done].
Defined.
End ClientExamples.
