(* ===== verification/McpStreaming.v ===== *)
(** * The tool loop over the translator

    The loop of [McpLoop] run on what a loader really streams: the events of [Streaming.stream_responses],
    as dicts. *)

From S2P Require Import Prelude ResponsesState McpPolicy ResponseObjects Streaming StreamingClient StreamingLogic StreamingReading StreamingTheorems.
From S2P Require McpLoop McpApprovals.
Local Open Scope Z_scope.

(** A loader's stream as the loop takes it. *)
Definition translated (es : list (Z * event)) : list McpLoop.inner_event := McpLoop.IEvent ∘ wire <$> es.

(** ** What a client keeps of an item *)

(** From one state of a client's item to a later one: its id stays, a name stays once it is given, and an item
    that is done stays as it is. *)
Definition keeps (h h' : held) : Prop :=
  if h_done h then h' = h
  else match h_item h, h_item h' with
       | FunctionCall a, FunctionCall b => fc_id a = fc_id b ∧ (fc_name a = ""%string ∨ fc_name a = fc_name b)
       | FunctionCall _, _ | _, FunctionCall _ => False
       | _, _ => True
       end.

#[export] Instance keeps_preorder : PreOrder keeps.
Proof.
  split.
  - intros [[] []]; cbn; auto.
  - intros [i1 []] [i2 []] [i3 d3]; unfold keeps; cbn; [congruence|congruence|intros H [= -> ->]; done|].
    destruct i1, i2, i3; try done. intros [E1 [N1|N1]] [E2 [N2|N2]]; (split; [congruence|]);
      first [left; congruence|right; congruence].
Qed.

Lemma on_open_keeps id oi f c c' :
  (∀ i h', item_id i = id → f i = Some h' → keeps (mkHeld i false) h') → on_open id oi f c = Some c' → Forall2 keeps c c'.
Proof.
  unfold on_open. case_match; [done|]. intros Hf Ho. destruct (c !! _) as [[i d]|] eqn:Hc; [|done]. cbn in Ho.
  destruct d; [done|]. cbn in Ho. destruct (bool_decide_reflect (item_id i = id)); [|done]. cbn in Ho.
  destruct (f i) as [h'|] eqn:Ef; [|done]. injection Ho as <-. rewrite <-(list_insert_id c _ _ Hc) at 1.
  apply Forall2_insert; [reflexivity|]. by apply Hf.
Qed.

(** One event adds an item at the end, or changes one. *)
Lemma step_keeps c e c' : client_step c e = Some c' →
  ∃ c1 l, c' = c1 ++ l ∧ Forall2 keeps c c1 ∧ l = (if e is ItemAdded _ i then [mkHeld i false] else []).
Proof.
  assert (∀ id oi f, (∀ i h', item_id i = id → f i = Some h' → keeps (mkHeld i false) h') → on_open id oi f c = Some c' →
    ∃ c1 l, c' = c1 ++ l ∧ Forall2 keeps c c1 ∧ l = []) as Hopen.
  { intros. exists c', []. split; [by rewrite app_nil_r|]. split; [by eapply on_open_keeps|done]. }
  destruct e as [| |oi it|id oi text|id oi text|id oi text|id oi text|id oi text|id oi text|id oi text|id oi text
    |id oi text|id oi text]; cbn [client_step]; [done| |apply Hopen..].
  { repeat case_match; intros [= <-]. eexists _, _. split; [done|]. split; [reflexivity|done]. }
  { intros i h' Hid Hf. destruct (completes i it) eqn:E; [|done]. injection Hf as <-.
    destruct i, it; try done. cbn in *. apply bool_decide_eq_true in E as (_ & _ & _ & ?). by split. }
  all: intros i h' Hid Hf; destruct i as [[? [|? []]]|[? ? [|? []]]|[]]; try discriminate Hf; cbn in Hf;
    try (case_decide; [|done]); injection Hf as <-; cbn; auto.
Qed.
Lemma feed_keeps c es c' oi h : feed c es = Some c' → c !! oi = Some h → ∃ h', c' !! oi = Some h' ∧ keeps h h'.
Proof.
  revert c h. induction es as [|e es IH]; intros c h; cbn; [intros [= ->]; exists h; by split|].
  destruct (client_step c e) as [c1|] eqn:E; [|done]. cbn. intros Hf Hh.
  destruct (step_keeps _ _ _ E) as (c2 & l & -> & Hk & _).
  destruct (Forall2_lookup_l _ _ _ _ _ Hk Hh) as (h2 & Hh2 & Hk2).
  destruct (IH _ h2 Hf) as (h' & ? & ?); [by apply lookup_app_l_Some|]. exists h'. split; [done|by etransitivity].
Qed.

(** What an event says of an item, the client has at the end. *)
Lemma feed_events c es c' e : feed c es = Some c' → e ∈ es →
  match e with
  | ItemAdded _ i => ∃ h, h ∈ c' ∧ keeps (mkHeld i false) h
  | ItemDone _ i => mkHeld i true ∈ c'
  | _ => True
  end.
Proof.
  intros Hf (es1 & es2 & ->)%list_elem_of_split. rewrite feed_app in Hf.
  destruct (feed c es1) as [c1|]; [|done]. cbn in Hf. destruct (client_step c1 e) as [c2|] eqn:E; [|done]. cbn in Hf.
  destruct e as [|oi i|oi i| | | | | | | | | |]; try done.
  - destruct (step_keeps _ _ _ E) as (c3 & l & -> & _ & ->). destruct (feed_keeps _ _ _ (length c3) (mkHeld i false) Hf) as (h & ? & ?).
    { by rewrite list_lookup_middle. }
    exists h. split; [by eapply list_elem_of_lookup_2|done].
  - cbn in E. unfold on_open in E. case_match; [done|]. destruct (c1 !! _) as [h|] eqn:Hc; [|done]. cbn in E.
    case_match; [done|]. destruct (completes _ i); [|done]. injection E as <-.
    destruct (feed_keeps _ _ _ (Z.to_nat oi) (mkHeld i true) Hf) as (h' & ? & ->).
    { apply list_lookup_insert_eq. by eapply lookup_lt_Some. }
    by eapply list_elem_of_lookup_2.
Qed.

(** The ids of calls *)
Definition call_of (i : Item) : option string := match i with FunctionCall i => Some (fc_id i) | _ => None end.
Definition added_call (e : event) : option string := match e with ItemAdded _ i => call_of i | _ => None end.

Lemma keeps_call_ids c c1 : Forall2 keeps c c1 → omap (call_of ∘ h_item) c1 = omap (call_of ∘ h_item) c.
Proof.
  induction 1 as [|h h' c c1 Hk _ IH]; [done|]. cbn. rewrite IH. unfold keeps in Hk.
  destruct h as [i []], h' as [i' d']; cbn in *; [by injection Hk as -> ->|].
  destruct i, i'; cbn in *; try done. by destruct Hk as [-> _].
Qed.

Lemma feed_calls c es c' : feed c es = Some c' →
  omap (call_of ∘ h_item) c' = omap (call_of ∘ h_item) c ++ omap added_call es.
Proof.
  revert c. induction es as [|e es IH]; intros c; cbn; [intros [= ->]; by rewrite app_nil_r|].
  destruct (client_step c e) as [c1|] eqn:E; [|done]. cbn. intros Hf. rewrite (IH _ Hf).
  destruct (step_keeps _ _ _ E) as (c2 & l & -> & Hk & ->). rewrite omap_app, (keeps_call_ids _ _ Hk), <-app_assoc. f_equal.
  destruct e as [|oi i| | | | | | | | | | |]; try done. cbn. by destruct (call_of i).
Qed.

(** ** Ids that are drawn *)

Section fresh.
Import Translator.
Context `{Envelope} `{Host}.

(** The calls that [m] adds have ids that it drew, each its own. *)
Definition fresh {A} (m : gen A) : Prop := ∀ x, let '(x', es, _) := m x in
  (draws x ≤ draws x')%nat ∧ ∃ ns, omap added_call es.*2 = (λ n, "fc_" +:+ random_uuid n) <$> ns ∧ NoDup ns ∧
    Forall (λ n, draws x ≤ n < draws x')%nat ns.

Lemma fresh_none {A} (m : gen A) :
  (∀ x, let '(x', es, _) := m x in (draws x ≤ draws x')%nat ∧ omap added_call es.*2 = []) → fresh m.
Proof.
  intros Hm x. specialize (Hm x). destruct (m x) as [[x' es] r]. destruct Hm as [? E]. split; [done|].
  exists []. rewrite E. by repeat constructor.
Qed.

Lemma fresh_bind {A B} (m : gen A) (f : A → gen B) : fresh m → (∀ a, fresh (f a)) → fresh (m ≫= f).
Proof.
  intros Hm Hf x. unfold mbind, gen_bind. specialize (Hm x). destruct (m x) as [[x1 es1] [a|e]]; [|done].
  specialize (Hf a x1). destruct (f a x1) as [[x2 es2] r]. destruct Hm as (? & ns1 & E1 & N1 & F1).
  destruct Hf as (? & ns2 & E2 & N2 & F2). split; [lia|]. exists (ns1 ++ ns2). split; [by rewrite fmap_app, omap_app, E1, E2, fmap_app|].
  rewrite Forall_forall in F1. rewrite Forall_forall in F2. split.
  - apply NoDup_app. split; [done|]. split; [|done]. intros n ?%F1 ?%F2. lia.
  - apply Forall_app. split; apply Forall_forall; intros n Hn; [apply F1 in Hn|apply F2 in Hn]; lia.
Qed.

Lemma fresh_for_each {A} (f : A → gen unit) l : (∀ a, fresh (f a)) → fresh (for_each f l).
Proof. intros Hf. induction l as [|a l IH]; cbn; [by apply fresh_none|]. by apply fresh_bind. Qed.

Lemma fresh_send e : added_call e = None → fresh (send e).
Proof.
  intros He. apply fresh_none. intros x. change ((draws x ≤ draws x)%nat ∧ omap added_call [e] = []).
  cbn [omap list_omap]. by rewrite He.
Qed.

Lemma fresh_modify f : (∀ x, draws (f x) = draws x) → fresh (modify f).
Proof. intros Hf. apply fresh_none. intros x. cbn. by rewrite Hf. Qed.

Lemma fresh_uuid p : fresh (uuid p).
Proof. apply fresh_none. intros x. split; [cbn [draws set_draws]; apply Nat.le_succ_diag_r|done]. Qed.

Lemma fresh_catching {A} (m : gen A) : fresh m → fresh (catching m).
Proof. intros Hm x. specialize (Hm x). unfold catching. destruct (m x) as [[x' es] [|[]]]; done. Qed.

Lemma fresh_open_call tc : fresh (open_call tc).
Proof.
  intros x. unfold open_call, uuid, take_oi, put_call, put_args, put_oi, send, mbind, gen_bind, get, modify, yield, mret, gen_ret.
  destruct (nonempty (tc_id tc)); cbn; (split; [lia|]); eexists [_]; (split; [done|]); (split; [apply NoDup_singleton|]);
    by repeat constructor.
Qed.
End fresh.

Ltac fresh_step := repeat first
  [ apply fresh_open_call | apply fresh_uuid | apply fresh_send; done | apply fresh_bind; [|intros]
  | apply fresh_modify; done | apply fresh_for_each; intros | apply fresh_catching | apply fresh_none; done | case_match ].

Section settled.
Context `{Envelope} `{Host}.
Import Translator.

Lemma fresh_drive client_error request rid chunks how : fresh (drive client_error request rid chunks how).
Proof.
  unfold drive, start, finish, fail_with, fail, process, on_choice, on_reasoning, on_content, on_tool_call, open_reasoning,
    open_message, name_call, close_all, close_reasoning, close_message, close_tools, close_call, envelope, put_call, put_args,
    take_oi, time.
  fresh_step.
Qed.

Lemma added_ids client_error request response_id chunks how :
  Inj (=) (=) random_uuid → NoDup (omap added_call (stream_responses client_error request response_id chunks how).1.*2).
Proof.
  intros Hinj. unfold stream_responses. destruct (match nonempty response_id with Some _ => _ | None => _ end) as [rid n].
  pose proof (fresh_drive client_error request rid chunks how (init (if r_model request is JStr m then m else ""%string) n)) as Hf.
  destruct (drive _ _ _ _ _ _) as [[x es] r]. destruct Hf as (_ & ns & E & Hnd & _).
  change (NoDup (omap added_call es.*2)). rewrite E.
  apply NoDup_fmap; [|done]. intros a b [= E']. by apply Hinj.
Qed.

Lemma wire_item ne : field "item" (wire ne) =
  match ne.2 with ItemAdded _ i | ItemDone _ i => JObj (dump i) | _ => JNull end.
Proof. by destruct ne as [n []]. Qed.

Lemma wire_type ty ne : type_is ty (wire ne) = bool_decide (event_type ne.2 = ty).
Proof. reflexivity. Qed.

Lemma dump_call i : type_is "function_call" (dump i) → ∃ a, i = FunctionCall a.
Proof. destruct i; [done|done|]. by eexists. Qed.

(** The calls that a client has at the end. *)
Definition calls_of (c : list held) : list FunctionToolCall :=
  omap (λ h, match h_item h with FunctionCall a => Some a | _ => None end) c.

Lemma calls_of_ids c : fc_id <$> calls_of c = omap (call_of ∘ h_item) c.
Proof. unfold calls_of. induction c as [|[[] d] c IH]; cbn in *; [done|done|done|]. by rewrite IH. Qed.

Lemma elem_calls_of c a d : mkHeld (FunctionCall a) d ∈ c → a ∈ calls_of c.
Proof. intros Hin. apply list_elem_of_omap. by exists (mkHeld (FunctionCall a) d). Qed.

Lemma closed_call_named closed slots v x c a :
  inv closed slots v x c → (∀ k, SCall k ∈ slots → v_name (v (SCall k)) ≠ ""%string) →
  mkHeld (FunctionCall a) true ∈ c → fc_name a ≠ ""%string.
Proof.
  intros Hi Hnamed [j Hj]%list_elem_of_lookup.
  destruct (Forall2_lookup_r _ _ _ _ _ (inv_slots _ _ _ _ _ Hi) Hj) as (s & Hs & [Hd (i & _ & Hrest)]).
  cbn in Hd. rewrite <-Hd in Hrest. destruct Hrest as [-> Hcomp].
  destruct s as [| |k]; [by destruct Hcomp|by destruct Hcomp|]. destruct Hcomp as (? & ? & [= ->] & _).
  by apply Hnamed, list_elem_of_lookup_2 with j.
Qed.

(** C34: The translator gives the tool loop what [calls_permitted] asks of a loader: in a loader's stream a
    call's name is the same wherever it is given, and it is given when the call is done, if the chat stream names
    every call at some point. The ids of calls don't clash, since each is drawn for its call. What is asked: two
    draws are never the same id, the settings echoed are of their declared types, and pydantic accepts a response
    whose fields are of the types its class declares. *)
Theorem translated_names_settled `{!Validates} client_error request response_id chunks how :
  echoes request →
  Inj (=) (=) random_uuid →
  (∀ k, SCall k ∈ first_seen (pieces chunks) → v_name (said (pieces chunks) (SCall k)) ≠ ""%string) →
  McpApprovals.names_settled (translated (stream_responses client_error request response_id chunks how).1).
Proof.
  intros Hr Hinj Hnamed. pose proof (added_ids client_error request response_id chunks how Hinj) as Hids.
  destruct (stream_runs request Hr client_error response_id chunks how)
    as (es & r & c & output & Hrun & (created & progress & body & tail & Hes & _ & Hfeed & _ & Htail) & x & Hi & _).
  rewrite Hrun in *. cbn [fst] in *. rewrite Hes in Hids.
  assert (∀ e, e ∈ tail → ∃ ty response, e = Envelope_ ty response) as Htail'.
  { intros e He. destruct (end_of chunks how) as [[ty st]|]; [|subst tail; by apply not_elem_of_nil in He].
    destruct Htail as (f & response & -> & _). apply list_elem_of_singleton in He as ->. by eexists _, _. }
  clear Htail. assert (NoDup (fc_id <$> calls_of c)) as Hnd.
  { rewrite calls_of_ids, (feed_calls _ _ _ Hfeed). cbn in Hids. rewrite omap_app in Hids. by apply NoDup_app in Hids as (? & _). }
  set (names := list_to_map ((λ a, (fc_id a, fc_name a)) <$> calls_of c) : gmap string string).
  assert (∀ a, a ∈ calls_of c → names !! fc_id a = Some (fc_name a)) as Hnames.
  { intros a Ha. apply elem_of_list_to_map; [by rewrite <-list_fmap_compose|]. apply list_elem_of_fmap. by exists a. }
  exists (λ i, JStr (default ""%string (names !! i))). unfold translated. apply Forall_fmap, Forall_forall. intros ne Hne it Hit Hty.
  change (field "item" (wire ne) = JObj it) in Hit. rewrite wire_item in Hit.
  assert (ne.2 ∈ body ∨ ∃ ty response, ne.2 = Envelope_ ty response) as [Hbody|(ty & response & E)]; [| |by rewrite E in Hit].
  { assert (ne.2 ∈ es.*2) as Hin by (apply list_elem_of_fmap; by exists ne). rewrite Hes in Hin.
    rewrite !elem_of_cons, elem_of_app in Hin. destruct Hin as [->|[->|[?|?]]]; eauto. }
  pose proof (feed_events _ _ _ _ Hfeed Hbody) as Hev. rewrite !wire_type.
  destruct ne.2 as [|oi i|oi i| | | | | | | | | |]; try done.
  - injection Hit as <-. destruct (dump_call _ Hty) as [a ->]. exists (fc_id a). split; [done|]. split; [|done].
    intros _ Hname. destruct Hev as ([[| |b] d] & Hin & Hk); cbn in Hk; try done. destruct Hk as [Eid [Hempty|Ename]].
    + change (Is_true (Json.truthy (JStr (fc_name a)))) in Hname. by rewrite Hempty in Hname.
    + change (JStr (fc_name a) = JStr (default ""%string (names !! fc_id a))).
      by rewrite Eid, (Hnames b), Ename; [|by eapply elem_calls_of].
  - injection Hit as <-. destruct (dump_call _ Hty) as [a ->]. exists (fc_id a). split; [done|]. split; [done|].
    intros _. pose proof (Hnames a (elem_calls_of _ _ _ Hev)) as Hn.
    change (Is_true (Json.truthy (JStr (fc_name a))) ∧ JStr (fc_name a) = JStr (default ""%string (names !! fc_id a))).
    rewrite Hn. split; [|done]. pose proof (closed_call_named _ _ _ _ _ _ Hi Hnamed Hev) as Hne'. cbn.
    by destruct (fc_name a).
Qed.
End settled.

(** ** A tool call that is followed by text *)

Module LateText.
Import StreamingTheorems.Examples.

(** The tool server of [McpApprovals.ApprovalProperties], and a loader that gives these chunks each turn. *)
Definition world (chunks : list Chunk) : McpLoop.World := {|
  McpLoop.list_tools _ _ := inr [McpApprovals.ApprovalProperties.roll];
  McpLoop.call_tool _ _ _ _ := Ok (inr "4"%string);
  McpLoop.respond _ _ := (translated (run chunks Exhausted).1, None);
  McpLoop.random_uuid := pretty;
  McpLoop.time _ := 0;
  McpLoop.environ _ := None
|}.

(** A request for a roll of the dice and no more than that. *)
Definition one_roll : Request :=
  mkRequest (inl "roll"%string) (JStr "m") JNull JNull JNull JNull
    (Some [McpPolicy.PolicyTheorems.example_tool "dice" (JStr "never")])
    JNull JNull JNull JNull JNull JNull JNull None JNull (Some 1) JNull JNull.

Definition roll_delta : DeltaToolCall :=
  mkDeltaCall (Some "call_1"%string) 0 (Some (mkDeltaFunction (Some "roll"%string) (Some "{}"%string))).
Definition text_first : list Chunk :=
  [say (Some "Rolling."%string) None [] None; say None None [roll_delta] (Some "tool_calls"%string)].
Definition call_first : list Chunk :=
  [say None None [roll_delta] None; say (Some "Rolling."%string) None [] (Some "tool_calls"%string)].

Definition played (chunks : list Chunk) : list McpLoop.action * McpLoop.outcome unit :=
  McpLoop.run_events (H := McpPolicy.PolicyTheorems.example_reader) (H0 := strict_envelope) (H1 := world chunks) one_roll None [].
Definition yielded (chunks : list Chunk) : list string :=
  omap (λ a, if a is McpLoop.Yield e then if field "type" e is JStr ty then Some ty else None else None) (played chunks).1.
(** A turn in which the model goes on talking after it called a tool has no end: the text is streamed and
    the tool is run, and then the loop raises, with no last envelope and no error for the client. The translator
    lists a message before the calls in its output, whatever came first, and the loop puts the message there by its
    place in that list and the call by its output index: both at the same place, which leaves a place with
    nothing in it. The same words before the call make no trouble. *)
Theorem late_text_breaks_the_turn :
  (played call_first).2 = McpLoop.Raised (OtherError "UnsupportedResponsesFeatureError") ∧
  "response.output_text.done"%string ∈ yielded call_first ∧ "response.mcp_call.completed"%string ∈ yielded call_first ∧
  Forall (λ ty, ty ∉ McpLoop.TERMINAL_TYPES) (yielded call_first) ∧
  (played text_first).2 = McpLoop.Value () ∧ last (yielded text_first) = Some "response.incomplete"%string.
Proof.
  split; [vm_compute; reflexivity|]. do 2 (split; [refine (bool_decide_unpack _ _); vm_compute; exact I|]).
  split; [refine (bool_decide_unpack _ _); vm_compute; exact I|]. split; vm_compute; reflexivity.
Qed.
End LateText.

Lemma translated_names_settled_witness :
  let es := (StreamingTheorems.Examples.run StreamingTheorems.Examples.thinking Exhausted).1 in
  length es = 20%nat ∧ McpApprovals.names_settled (translated es).
Proof.
  split; [vm_compute; reflexivity|].
  apply (translated_names_settled (H := strict_envelope) (H0 := StreamingTheorems.Examples.plain_host)
    (λ _, None) StreamingTheorems.Examples.request None StreamingTheorems.Examples.thinking Exhausted
    I).
  - exact pretty_nat_inj.
  - assert (Forall (λ s, match s with SCall k => v_name (said (pieces StreamingTheorems.Examples.thinking) (SCall k)) ≠ ""%string | _ => True end)
      (first_seen (pieces StreamingTheorems.Examples.thinking))) as H by (vm_compute; repeat constructor; discriminate).
    intros k Hk. rewrite Forall_forall in H. exact (H (SCall k) Hk).
Defined.
