(* ===== verification/GatewayStreams.v ===== *)
(** * Responses and their streams

    What becomes of a loader's result on its way to the client: [src/modelship/infer/model_deployment.py]
    (what a deployment yields), the frames of [src/modelship/openai/protocol/responses/streaming.py], and
    [_await_first], [_handle_response] and [_stream_error_chunk] of [src/modelship/openai/api.py]. *)

From S2P Require Import Prelude StateStore ConfigSchema JsonText ResponsesState McpPolicy Tasks Errors GatewayRouting GatewayReplica.
Local Open Scope Z_scope.

(** A generator run to its end: what it yields, and what it raises if it does. *)
Definition stream (A : Type) : Type := (list A * option exn)%type.

(** ** What a client is shown *)

(** What a loader yields: an error, text of its own, an event, a whole result with its dump, speech, or a
    response of its own. *)
Inductive chunk : Type :=
| CError (err : ErrorResponse)
| CText (s : string)
| CEvent (e : dict json)
| CResult (dump : json)
| CSpeech (audio media_type : string)
| CResponse (body : string).

(** [s.removeprefix(p)] *)
Definition removeprefix (p s : string) : string := if Str.startswith s p then str_drop (String.length p) s else s.

Section shown.
Context `{FloatText}.

(** [client_safe], for the request [request_id] *)
Definition client_safe (request_id : string) (item : chunk) : res chunk :=
  match item with
  | CError err => Ok (if http_status err <? 500 then item else CError (server_error request_id (http_status err)))
  | CText s =>
      if Str.startswith s ERROR_SSE_PREFIX then
        match loads (removeprefix "data: " s) with
        | None => Err (ValueError "JSONDecodeError")
        | Some payload =>
            error ← get_field "error" payload;
            type ← get_field "type" (py_or error (JObj []));
            Ok (if Json.eqb type (JStr "invalid_request_error") then item
                else CText (encode_error_sse (server_error request_id 500)))
        end
      else Ok item
  | CEvent e =>
      if type_is "response.failed" e then
        let response := py_or (field "response" e) (JObj []) in
        error ← get_field "error" response;
        code ← get_field "code" (py_or error (JObj []));
        if Json.eqb code (JStr "invalid_prompt") then Ok item
        else
          match response with
          | JObj fields =>
              Ok (CEvent (Dict.set "response" (JObj (Dict.set "error" (JObj
                [("code", JStr "server_error"); ("message", JStr (err_message (server_error request_id 500)))]) fields)) e))
          | _ => Err (TypeError "not a mapping")
          end%string
      else Ok item
  | CResult _ | CSpeech _ _ | CResponse _ => Ok item
  end.
End shown.

(** ** The deployment *)

(** What a loader answers: one item, or a generator; or it raises. *)
Inductive loader_result : Type :=
| Single (item : chunk)
| Generator (items : stream chunk)
| Raised (e : exn).

Section streams.
Context `{FloatText} (py_format : json → string).

(** A loop that yields what is made of each item *)
Fixpoint yield_each (f : chunk → res chunk) (items : list chunk) (ending : option exn) : stream chunk :=
  match items with
  | [] => ([], ending)
  | c :: items =>
      match f c with
      | Ok c => let '(out, e) := yield_each f items ending in (c :: out, e)
      | Err e => ([], Some e)
      end
  end.

(** [generate], [respond] and the other calls of a [ModelDeployment] *)
Definition deployment_yields (request_id : string) (r : loader_result) : stream chunk :=
  match r with
  | Single item => yield_each (client_safe request_id) [item] None
  | Generator (items, ending) => yield_each (client_safe request_id) items ending
  | Raised e => ([], Some e)
  end.

(** A call's exceptions reach the gateway as the cause of a [RayTaskError]. *)
Definition over_ray (s : stream chunk) : stream chunk := (s.1, (λ e, RayTaskError e "") <$> s.2).

(** ** Frames *)

(** [_frame_payload] *)
Fixpoint first_payload (lines : list string) : dict json :=
  match lines with
  | [] => []
  | line :: lines =>
      if Str.startswith line "data: " then
        match loads (str_drop 6 line) with Some (JObj d) => d | _ => [] end
      else first_payload lines
  end.
Definition frame_payload (frame : chunk) : dict json :=
  if frame is CText s then first_payload (splitlines s) else [].

(** [d.setdefault(k, v)] *)
Definition setdefault (k : string) (v : json) (d : dict json) : dict json := if Dict.mem k d then d else Dict.set k v d.

(** [dict(v)], of a mapping *)
Definition py_dict (v : json) : res (dict json) :=
  match v with JObj d => Ok d | _ => Err (TypeError "not a mapping") end.

(** [failure_event_from_frames], with the id and the clock it may need *)
Definition failure_event_from_frames (uuid : string) (now : Z) (created_frame last_frame : chunk) (message model : string)
    : res (dict json) :=
  response ← py_dict (py_or (field "response" (frame_payload created_frame)) (JObj []));
  let response := Dict.update response
    [("status", JStr "failed"); ("error", JObj [("code", JStr "server_error"); ("message", JStr message)]);
     ("output", JList [])]%string in
  let response := setdefault "model" (JStr model) (setdefault "created_at" (JInt now)
    (setdefault "id" (JStr ("resp_" +:+ uuid)) (setdefault "object" (JStr "response") response))) in
  let seq := int_of (field "sequence_number" (frame_payload last_frame)) in
  Ok [("type", JStr "response.failed");
      ("sequence_number", JInt (match seq with Some n => n + 1 | None => 0 end));
      ("response", JObj response)]%string.

(** [RESPONSE_FAILED_SSE_PREFIX] *)
Definition RESPONSE_FAILED_SSE_PREFIX : string := "event: response.failed" +:+ String newline "".

(** [encode_sse_event] *)
Definition encode_sse_event (event : dict json) : res string :=
  type ← item "type" event;
  Ok ("event: " +:+ fmt py_format type +:+ String newline ("data: " +:+ dumps (JObj event) +:+ newlines)).

Definition DONE : string := "data: [DONE]" +:+ newlines.

(** [frame_sse] *)
Fixpoint frame_each (framed_any : bool) (items : list chunk) (ending : option exn) : stream chunk :=
  match items with
  | [] => (match ending with None => if framed_any then [CText DONE] else [] | Some _ => [] end, ending)
  | c :: items =>
      match c with
      | CEvent e =>
          match encode_sse_event e with
          | Ok frame => let '(out, ending) := frame_each true items ending in (CText frame :: out, ending)
          | Err e => ([], Some e)
          end
      | _ => let '(out, ending) := frame_each framed_any items ending in (c :: out, ending)
      end
  end.
Definition frame_sse (s : stream chunk) : stream chunk := frame_each false s.1 s.2.

(** ** The gateway's reply *)

(** A body with its status, or the frames of a stream as far as the client takes them. *)
Inductive reply : Type :=
| JsonReply (status_code : Z) (content : json)
| BodyReply (content media_type : string)
| StreamReply (frames : list chunk) (media_type : string).

(** [_error_response] *)
Definition error_response (result : ErrorResponse) : reply := JsonReply (http_status result) (dump_error result).

(** [_await_first], of a request that is not cancelled meanwhile: the first item, or an error's reply with the error type that is recorded. *)
Definition await_first (request_id : string) (s : stream chunk) : (reply * string) + (chunk * stream chunk) :=
  match s with
  | (c :: items, ending) => inr (c, (items, ending))
  | ([], Some (RayTaskError (ValueError m) _)) =>
      inl (error_response (validation_error_from_cause (ValueError m)), "validation_error"%string)
  | ([], _) => inl (error_response (server_error request_id 500), "unhandled"%string)
  end.

(** [_stream_error_chunk] *)
Definition stream_error_chunk (request_id uuid : string) (now : Z) (endpoint model : string)
    (created_frame last_frame : chunk) : res chunk :=
  let error := server_error request_id 500 in
  if bool_decide (endpoint = "create_response"%string) then
    event ← failure_event_from_frames uuid now created_frame last_frame (err_message error) model;
    frame ← encode_sse_event event;
    Ok (CText frame)
  else Ok (CText (encode_error_sse error)).

(** [_is_failure_chunk] *)
Definition is_failure_chunk (c : chunk) : bool :=
  if c is CText s then Str.startswith s ERROR_SSE_PREFIX || Str.startswith s RESPONSE_FAILED_SSE_PREFIX else false.

Definition outcome : Type := (string * option string)%type.
Definition stream_error : outcome := ("error", Some "stream_error")%string.
Definition seen (c : chunk) (o : outcome) : outcome := if is_failure_chunk c then stream_error else o.

(** [_stream], after [last] was yielded: the client takes [room] more frames before it leaves, or stays. *)
Fixpoint stream_rest (failure : chunk → res chunk) (last : chunk) (o : outcome) (items : list chunk)
    (ending : option exn) (room : option nat) : list chunk * outcome :=
  match room with
  | Some O => ([], if bool_decide (o.1 = "ok"%string) then ("cancelled"%string, None) else o)
  | _ =>
      let room' := Nat.pred <$> room in
      match items with
      | c :: items =>
          let '(out, o) := stream_rest failure c (seen c o) items ending room' in (c :: out, o)
      | [] =>
          match ending with
          | None => ([], o)
          | Some CancelledError => ([], if bool_decide (o.1 = "ok"%string) then ("cancelled"%string, None) else o)
          | Some _ =>
              (match failure last with
               | Ok frame => if room is Some 1%nat then [frame] else [frame; CText DONE]
               | Err _ => []
               end, stream_error)
          end
      end
  end.

(** [_handle_response]; [render] turns a whole result into another body, or an error. *)
Definition handle_response (request_id uuid : string) (now : Z) (t : RequestTracker) (media_type : string)
    (render : option (json → (string * string) + ErrorResponse)) (s : stream chunk) (room : option nat)
    : RequestTracker * reply :=
  match await_first request_id s with
  | inl (r, error_type) => (finish "error" (Some error_type) t, r)
  | inr (first, (items, ending)) =>
      match first with
      | CError err => (finish "error" (Some "inference_error"%string) t, error_response err)
      | CResponse body => (finish "ok" None t, BodyReply body "")
      | CSpeech audio media => (finish "ok" None t, BodyReply audio media)
      | CResult dump =>
          match render with
          | Some f =>
              match f dump with
              | inl (body, media) => (finish "ok" None t, BodyReply body media)
              | inr err => (finish "error" (Some "invalid_request"%string) t, error_response err)
              end
          | None => (finish "ok" None t, JsonReply 200 dump)
          end
      | CText _ | CEvent _ =>
          let failure := stream_error_chunk request_id uuid now (t_operation t) (t_model t) first in
          let '(out, o) := stream_rest failure first (seen first ("ok"%string, None)) items ending (Nat.pred <$> room) in
          (finish o.1 o.2 t, StreamReply (first :: out) media_type)
      end
  end.

(** ** From the loader to the client

    An endpoint's whole way: a chat completion's chunks pass as they are, a response's events are framed. *)
Definition answered_by (framed : bool) (request_id : string) (r : loader_result) : stream chunk :=
  let s := over_ray (deployment_yields request_id r) in if framed then frame_sse s else s.
End streams.
