(* ===== verification/GatewayStreamsTheorems.v ===== *)
(** * Streams: what a client reads

    A response's frames read back as the events they were made of, and end in one way however the stream
    ends; and nothing of a server error reaches a client but the request's id. *)

From S2P Require Import Prelude StateStore ConfigSchema JsonText ResponsesState McpPolicy Tasks Errors GatewayRouting GatewayReplica GatewayStreams.
Local Open Scope Z_scope.

Module StreamFacts.
Import JsonFacts ConfigFacts.

Section facts.
Context `{FloatText} (py_format : json → string).

(** ** Errors as text *)

Lemma dump_error_text_ok err : text_ok (dump_error err).
Proof. apply plain_text_ok. cbn. unfold json_opt. by destruct (err_param err), (err_code err). Qed.

Lemma error_sse_prefixed err : Str.startswith (encode_error_sse err) ERROR_SSE_PREFIX = true.
Proof. apply Str.startswith_iff. eexists. unfold encode_error_sse, dump_error. cbn. reflexivity. Qed.

Lemma error_sse_payload err : loads (removeprefix "data: " (encode_error_sse err)) = Some (dump_error err).
Proof.
  unfold removeprefix. rewrite (proj2 (Str.startswith_iff _ _)) by (unfold encode_error_sse; eauto).
  unfold encode_error_sse. rewrite str_drop_app. by apply loads_dumps_ws; [apply dump_error_text_ok|..].
Qed.

Lemma client_safe_text request_id err :
  client_safe request_id (CText (encode_error_sse err)) =
    Ok (if bool_decide (err_type err = "invalid_request_error"%string) then CText (encode_error_sse err)
        else CText (encode_error_sse (server_error request_id 500))).
Proof.
  unfold client_safe. by rewrite error_sse_prefixed, error_sse_payload.
Qed.

(** ** Frames *)

(** An event that can be framed: a JSON object whose type is a printable text. *)
Definition frameable (e : dict json) : Prop :=
  text_ok (JObj e) ∧ ∃ ty, Dict.get "type" e = Some (JStr ty) ∧ str_all printable ty = true.

Definition frame_of (ty : string) (e : dict json) : string :=
  "event: " +:+ ty +:+ String newline ("data: " +:+ dumps (JObj e) +:+ newlines).

Lemma encode_frameable e : frameable e → ∃ ty, Dict.get "type" e = Some (JStr ty) ∧ str_all printable ty = true ∧
  encode_sse_event py_format e = Ok (frame_of ty e).
Proof.
  intros [_ (ty & Hty & Hp)]. exists ty. split_and!; [done..|]. unfold encode_sse_event, item. by rewrite Hty.
Qed.

Lemma frame_lines ty e : frameable e → str_all printable ty = true →
  splitlines (frame_of ty e) = ["event: " +:+ ty; "data: " +:+ dumps (JObj e); ""]%string.
Proof.
  intros [He _] Hty. unfold splitlines, frame_of, newlines. rewrite <-Str.app_assoc.
  rewrite lines_after_printable by (by rewrite str_all_app, Hty).
  change ("" +:+ ?x) with x. rewrite <-(Str.app_assoc "data: "), lines_after_printable by (by rewrite str_all_app, dumps_printable). done.
Qed.

Lemma frame_read ty e : frameable e → str_all printable ty = true → frame_payload (CText (frame_of ty e)) = e.
Proof.
  intros He Hty. unfold frame_payload. rewrite frame_lines by done. cbn [first_payload].
  change (Str.startswith ("event: " +:+ ty) "data: ") with false. cbv iota.
  rewrite (proj2 (Str.startswith_iff _ _)) by eauto.
  change 6%nat with (String.length "data: "). rewrite str_drop_app. rewrite loads_dumps; [done|apply He].
Qed.

Lemma done_read : frame_payload (CText DONE) = [].
Proof. reflexivity. Qed.

Lemma printable_no_newline s : str_all printable s = true → Str.mem newline s = false.
Proof.
  induction s as [|a s IH]; [done|]. cbn. intros [Ha Hs]%andb_true_iff. rewrite IH by done.
  rewrite bool_decide_eq_false_2; [done|]. by intros ->.
Qed.

(** A frame tells of a failure when its event does. *)
Lemma frame_failure ty e : Dict.get "type" e = Some (JStr ty) → str_all printable ty = true →
  is_failure_chunk (CText (frame_of ty e)) = type_is "response.failed" e.
Proof.
  intros Hty Hp. unfold is_failure_chunk. change (Str.startswith (frame_of ty e) ERROR_SSE_PREFIX) with false. cbn [orb].
  unfold type_is, field. rewrite Hty. unfold default, id.
  change (Json.eqb (JStr ty) (JStr "response.failed")) with (bool_decide (ty = "response.failed"%string)). apply eq_true_iff_eq.
  rewrite Str.startswith_iff, bool_decide_eq_true. unfold frame_of, RESPONSE_FAILED_SSE_PREFIX. split.
  - intros [r E]. change ("event: response.failed" +:+ ?x) with ("event: " +:+ "response.failed" +:+ x) in E.
    rewrite !Str.app_assoc in E. apply Str.app_inj in E.
    change (String newline "" +:+ r) with (String newline r) in E.
    assert (split_first newline (ty +:+ String newline ("data: " +:+ dumps (JObj e) +:+ newlines)) =
      split_first newline ("response.failed" +:+ String newline r)) as Es by (by rewrite E).
    rewrite !split_first_app in Es by (done || by apply printable_no_newline). by injection Es.
  - intros ->. eexists. reflexivity.
Qed.

(** ** Whole streams *)

Definition frame (e : dict json) : chunk := CText (ok_or ""%string (encode_sse_event py_format e)).

Lemma frame_facts e : frameable e →
  encode_sse_event py_format e = Ok (ok_or ""%string (encode_sse_event py_format e)) ∧
  frame_payload (frame e) = e ∧ is_failure_chunk (frame e) = type_is "response.failed" e.
Proof.
  intros He. destruct (encode_frameable e He) as (ty & Hty & Hp & E). unfold frame. rewrite E. cbn [ok_or].
  split; [done|]. split; [by apply frame_read|by apply frame_failure].
Qed.

Lemma frames_of_events any es ending : Forall frameable es →
  frame_each py_format any (CEvent <$> es) ending =
    ((frame <$> es) ++ (if ending is None then if any || negb (bool_decide (es = [])) then [CText DONE] else [] else []), ending).
Proof.
  intros Hes. revert any. induction Hes as [|e es He Hes IH]; intros any.
  - cbn. rewrite orb_false_r. by destruct ending.
  - cbn [fmap list_fmap frame_each]. destruct (frame_facts e He) as (E & _ & _). unfold frame at 1. rewrite E, IH.
    cbn [orb]. rewrite bool_decide_eq_false_2 by done. by rewrite orb_true_r.
Qed.

(** A stream whose client stays *)
Lemma stream_rest_all failure last_ o items ending :
  ending ≠ Some CancelledError →
  stream_rest failure last_ o items ending None =
    (items ++ match ending with
              | None => []
              | Some _ => match failure (default last_ (last items)) with Ok f => [f; CText DONE] | Err _ => [] end
              end,
     if ending is None then foldl (λ o c, seen c o) o items else stream_error).
Proof.
  intros Hc. revert last_ o. induction items as [|c items IH]; intros last_ o.
  - cbn. destruct ending as [e|]; [|done]. by destruct e.
  - cbn [stream_rest fmap option_fmap option_map]. rewrite IH. cbn [app foldl].
    replace (default last_ (last (c :: items))) with (default c (last items)); [done|].
    by destruct items as [|d items]; [|rewrite last_cons_cons; destruct (last (d :: items)) eqn:E; [|by apply last_None in E]].
Qed.

Lemma seen_foldl items : foldl (λ o c, seen c o) ("ok"%string, None) items =
  if existsb is_failure_chunk items then stream_error else ("ok"%string, None).
Proof.
  induction items as [|c items IH] using rev_ind; [done|]. rewrite foldl_app, existsb_app, IH. cbn. unfold seen.
  destruct (existsb _ items), (is_failure_chunk c); done.
Qed.

Lemma frames_read es : Forall frameable es → frame_payload <$> (frame <$> es) = es.
Proof. induction 1 as [|e es He _ IH]; [done|]. cbn. f_equal; [by apply frame_facts|exact IH]. Qed.

Lemma frames_fail es : Forall frameable es →
  existsb is_failure_chunk (frame <$> es) = existsb (type_is "response.failed") es.
Proof. induction 1 as [|e es He _ IH]; [done|]. cbn. f_equal; [by apply frame_facts|exact IH]. Qed.

(** A stream of texts, to a client that stays *)
Lemma handle_texts request_id uuid now t media s items ending :
  ending ≠ Some CancelledError →
  let o := match ending with
           | None => if existsb is_failure_chunk (CText s :: items) then stream_error else ("ok"%string, None)
           | Some _ => stream_error
           end in
  handle_response py_format request_id uuid now t media None (CText s :: items, ending) None =
    (finish o.1 o.2 t,
     StreamReply (CText s :: items ++
       match ending with
       | None => []
       | Some _ =>
           match stream_error_chunk py_format request_id uuid now (t_operation t) (t_model t) (CText s)
                   (default (CText s) (last items)) with
           | Ok f => [f; CText DONE]
           | Err _ => []
           end
       end) media).
Proof.
  intros Hc o. unfold handle_response. cbn [await_first]. change (Nat.pred <$> None) with (@None nat).
  rewrite stream_rest_all by done. subst o.
  change (foldl (λ o c, seen c o) (seen (CText s) ("ok"%string, None)) items) with
    (foldl (λ o c, seen c o) ("ok"%string, None) (CText s :: items)).
  by rewrite seen_foldl.
Qed.

(** ** The failure event *)

Lemma text_ok_set k v d : text_ok (JObj d) → text_ok v → text_ok (JObj (Dict.set k v d)).
Proof.
  rewrite !text_ok_dict. intros [Hnd Hd] Hv. split; [by apply Dict.NoDup_keys_set|].
  unfold Dict.values in *. rewrite Forall_fmap, Forall_forall in *. intros kv Hin.
  by destruct (Dict.elem_set _ _ _ _ Hin) as [->|Hin']; [|apply Hd].
Qed.

Lemma text_ok_setdefault k v d : text_ok (JObj d) → text_ok v → text_ok (JObj (setdefault k v d)).
Proof. intros Hd Hv. unfold setdefault. destruct (Dict.mem k d); [done|]. by apply text_ok_set. Qed.

Lemma text_ok_get k v d : text_ok (JObj d) → Dict.get k d = Some v → text_ok v.
Proof.
  intros [_ Hd]%text_ok_dict Hv%Dict.get_Some_elem. unfold Dict.values in Hd. rewrite Forall_fmap, Forall_forall in Hd.
  exact (Hd _ Hv).
Qed.

Lemma get_setdefault k k' v d :
  Dict.get k (setdefault k' v d) = if decide (k = k') then Some (default v (Dict.get k d)) else Dict.get k d.
Proof.
  unfold setdefault, Dict.mem. destruct (Dict.get k' d) as [w|] eqn:E.
  - case_decide as Ek; [subst|done]. by rewrite E.
  - rewrite Dict.get_set. case_decide as Ek; [subst|done]. by rewrite E.
Qed.

(** What the failure event of a stream says: the next number, and the response as it was created, failed. *)
Lemma failure_event_spec uuid now first last_ message model response :
  frameable first → frameable last_ → field "response" first = JObj response →
  ∃ failed response',
    failure_event_from_frames uuid now (frame first) (frame last_) message model = Ok failed ∧ frameable failed ∧
    type_is "response.failed" failed = true ∧
    (∀ n, field "sequence_number" last_ = JInt n → field "sequence_number" failed = JInt (n + 1)) ∧
    field "response" failed = JObj response' ∧
    Dict.get "status" response' = Some (JStr "failed") ∧
    Dict.get "id" response' = Some (default (JStr ("resp_" +:+ uuid)) (Dict.get "id" response)) ∧
    Dict.get "error" response' = Some (JObj [("code", JStr "server_error"); ("message", JStr message)]%string).
Proof.
  intros Hf Hl Hr. unfold failure_event_from_frames.
  destruct (frame_facts first Hf) as (_ & -> & _), (frame_facts last_ Hl) as (_ & -> & _). rewrite Hr.
  replace (py_or (JObj response) (JObj [])) with (JObj response) by by destruct response.
  cbn [py_dict mbind res_bind]. set (r1 := Dict.update response _).
  set (r2 := setdefault "model" _ _). eexists _, r2. split; [reflexivity|].
  assert (text_ok (JObj response)) as Hok.
  { unfold field in Hr. destruct (Dict.get "response" first) eqn:E; [|done]. cbn in Hr. subst.
    apply (text_ok_get _ _ _ (proj1 Hf) E). }
  assert (text_ok (JObj r2)) as Hok2.
  { unfold r2, r1, Dict.update. cbn [foldl fst snd]. repeat apply text_ok_setdefault; try done.
    repeat apply text_ok_set; try done. by apply plain_text_ok. }
  split_and!.
  - split; [|by exists "response.failed"%string]. apply text_ok_dict. split; [by apply (bool_decide_unpack _); vm_compute|].
    by repeat (apply Forall_cons; split).
  - done.
  - intros n Hn. unfold field at 1. cbn. by rewrite Hn.
  - done.
  - unfold r2. rewrite !get_setdefault. cbn. unfold r1, Dict.update. cbn [foldl fst snd]. by rewrite !Dict.get_set.
  - unfold r2. rewrite !get_setdefault. cbn. unfold r1, Dict.update. cbn [foldl fst snd]. by rewrite !Dict.get_set.
  - unfold r2. rewrite !get_setdefault. cbn. unfold r1, Dict.update. cbn [foldl fst snd]. by rewrite !Dict.get_set.
Qed.

(** A stream of events, framed, to a client that stays *)
Lemma framed_stream request_id uuid now t first es ending response :
  Forall frameable (first :: es) → field "response" first = JObj response →
  t_operation t = "create_response"%string → t_finished t = None → ending ≠ Some CancelledError →
  ∃ frames recorded,
    handle_response py_format request_id uuid now t "text/event-stream" None
      (frame_sse py_format (CEvent <$> first :: es, ending)) None =
      (mkTracker (t_model t) (t_operation t) (Some recorded), StreamReply frames "text/event-stream") ∧
    match ending with
    | None =>
        frame_payload <$> frames = (first :: es) ++ [[]] ∧
        recorded = if existsb (type_is "response.failed") (first :: es) then stream_error else ("ok"%string, None)
    | Some _ =>
        recorded = stream_error ∧
        ∃ failed response', frame_payload <$> frames = (first :: es) ++ [failed; []] ∧
          type_is "response.failed" failed = true ∧
          (∀ n, field "sequence_number" (default first (last es)) = JInt n → field "sequence_number" failed = JInt (n + 1)) ∧
          field "response" failed = JObj response' ∧ Dict.get "status" response' = Some (JStr "failed") ∧
          Dict.get "id" response' = Some (default (JStr ("resp_" +:+ uuid)) (Dict.get "id" response)) ∧
          Dict.get "error" response' = Some (JObj [("code", JStr "server_error");
            ("message", JStr (err_message (server_error request_id 500)))]%string)
    end.
Proof.
  intros Hes Hr Hop Hfin Hc. pose proof Hes as [Hfirst Hrest]%Forall_cons.
  unfold frame_sse. cbn [fst snd]. rewrite (frames_of_events false (first :: es)) by done.
  cbn [orb]. rewrite bool_decide_eq_false_2 by done. cbn [negb].
  set (texts := frame <$> es). change ((frame <$> first :: es) ++ ?l) with (frame first :: texts ++ l).
  unfold frame at 1. rewrite handle_texts by done. fold (frame first). unfold finish. rewrite Hfin, Hop.
  destruct ending as [e|].
  - rewrite app_nil_r. assert (frameable (default first (last es))) as Hlast.
    { destruct (last es) as [x|] eqn:El; [|done]. apply last_Some in El as [l ->]. apply Forall_app in Hrest as [_ Hx].
      by apply Forall_cons in Hx as [? _]. }
    destruct (failure_event_spec uuid now first (default first (last es))
      (err_message (server_error request_id 500)) (t_model t) response Hfirst Hlast Hr)
      as (failed & response' & E & Hff & Hspec).
    replace (default (frame first) (last texts)) with (frame (default first (last es)))
      by (unfold texts; rewrite fmap_last; by destruct (last es)).
    unfold stream_error_chunk. rewrite bool_decide_eq_true_2, E by done. cbn [mbind res_bind].
    rewrite (proj1 (frame_facts failed Hff)). cbn [mbind res_bind]. fold (frame failed).
    eexists _, stream_error. split; [reflexivity|]. split; [done|]. exists failed, response'. split; [|exact Hspec].
    change (frame first :: texts ++ [frame failed; CText DONE]) with
      ((frame <$> first :: es) ++ [frame failed; CText DONE]).
    rewrite fmap_app, frames_read by done.
    change (frame_payload <$> [?f; CText DONE]) with [frame_payload f; []].
    by rewrite (proj1 (proj2 (frame_facts failed Hff))).
  - eexists _, _. split; [reflexivity|]. split.
    + rewrite app_nil_r. change (frame first :: texts ++ ?l) with ((frame <$> first :: es) ++ l).
      by rewrite fmap_app, frames_read.
    + change (frame first :: texts ++ ?l) with ((frame <$> first :: es) ++ l).
      rewrite existsb_app, frames_fail by done. change (existsb is_failure_chunk [CText DONE]) with false.
      rewrite orb_false_r. by destruct (existsb _ _).
Qed.

Lemma existsb_fmap_same {A} (f : A → A) (p : A → bool) l : (∀ x, p (f x) = p x) → existsb p (f <$> l) = existsb p l.
Proof. intros Hp. induction l as [|x l IH]; [done|]. cbn. by rewrite Hp, IH. Qed.

(** ** The events a client is shown *)

(** A failure event's response and error are objects, where it has them. *)
Definition failure_shaped (e : dict json) : Prop :=
  type_is "response.failed" e = true →
  field "response" e = JNull ∨ ∃ fields, field "response" e = JObj fields ∧
    (field "error" fields = JNull ∨ ∃ d, field "error" fields = JObj d).

Definition fields_of (j : json) : dict json := if j is JObj d then d else [].
Definition response_fields (e : dict json) : dict json := fields_of (field "response" e).

(** The event as the client is to see it: of a failure that is not the client's own fault, all but its
    error, in whose place is the request's id. *)
Definition shown (request_id : string) (e : dict json) : dict json :=
  if type_is "response.failed" e &&
     negb (Json.eqb (field "code" (fields_of (field "error" (response_fields e)))) (JStr "invalid_prompt"))
  then Dict.set "response" (JObj (Dict.set "error" (JObj [("code", JStr "server_error");
         ("message", JStr (err_message (server_error request_id 500)))]%string) (response_fields e))) e
  else e.

Lemma client_safe_shown request_id e :
  failure_shaped e → client_safe request_id (CEvent e) = Ok (CEvent (shown request_id e)).
Proof.
  intros Hs. unfold shown, client_safe. destruct (type_is "response.failed" e) eqn:Ht; [|done]. cbn [andb].
  unfold response_fields. destruct (Hs Ht) as [->|(fields & -> & Herr)]; [done|]. cbn [fields_of].
  replace (py_or (JObj fields) (JObj [])) with (JObj fields) by by destruct fields.
  cbn [get_field mbind res_bind]. change (default JNull (Dict.get "error" fields)) with (field "error" fields).
  assert (get_field "code" (py_or (field "error" fields) (JObj [])) = Ok (field "code" (fields_of (field "error" fields)))) as ->.
  { destruct Herr as [->|[d ->]]; [done|]. by destruct d. }
  cbn [mbind res_bind]. by destruct (Json.eqb _ _).
Qed.

Lemma field_shown request_id k e : k ≠ "response"%string → field k (shown request_id e) = field k e.
Proof. intros Hk. unfold shown, field. destruct (_ && _); [|done]. by rewrite Dict.get_set_ne. Qed.

Lemma type_shown request_id ty e : type_is ty (shown request_id e) = type_is ty e.
Proof. unfold type_is. by rewrite field_shown. Qed.

Lemma shown_response request_id e response :
  field "response" e = JObj response →
  ∃ response', field "response" (shown request_id e) = JObj response' ∧ Dict.get "id" response' = Dict.get "id" response.
Proof.
  intros He. unfold shown. destruct (_ && _); [|by exists response].
  unfold field at 1. rewrite Dict.get_set_eq. unfold response_fields. rewrite He. cbn. eexists. split; [done|].
  by rewrite Dict.get_set_ne.
Qed.

Lemma shown_frameable request_id e : frameable e → frameable (shown request_id e).
Proof.
  intros [Hok (ty & Hty & Hp)]. unfold shown. destruct (_ && _); [|split; eauto]. split.
  - apply text_ok_set; [done|]. apply text_ok_set; [|by apply plain_text_ok].
    unfold response_fields, field. destruct (Dict.get "response" e) as [v|] eqn:E; [|by apply plain_text_ok].
    pose proof (text_ok_get _ _ _ Hok E) as Hv. destruct v; try by apply plain_text_ok. done.
  - exists ty. split; [|done]. by rewrite Dict.get_set_ne.
Qed.

Lemma yield_shown request_id es ending : Forall failure_shaped es →
  yield_each (client_safe request_id) (CEvent <$> es) ending = (CEvent <$> (shown request_id <$> es), ending).
Proof.
  induction 1 as [|e es He _ IH]; [done|]. cbn [fmap list_fmap yield_each]. rewrite client_safe_shown by done.
  change (list_fmap _ _ ?f ?l) with (f <$> l). by rewrite IH.
Qed.

(** ** What a server error may say *)

(** Two items that differ in what a server error says, if at all: an error response of the same status from
    500 on, an error text, or a failure event, none of them the client's own fault. *)
Inductive same_to_client : chunk → chunk → Prop :=
| same_item c : same_to_client c c
| same_error e e' : http_status e = http_status e' → 500 ≤ http_status e → same_to_client (CError e) (CError e')
| same_text e e' : err_type e ≠ "invalid_request_error"%string → err_type e' ≠ "invalid_request_error"%string →
    same_to_client (CText (encode_error_sse e)) (CText (encode_error_sse e'))
| same_failure event fields d d' : type_is "response.failed" event = true →
    Json.eqb (field "code" d) (JStr "invalid_prompt") = false → Json.eqb (field "code" d') (JStr "invalid_prompt") = false →
    same_to_client (CEvent (Dict.set "response" (JObj (Dict.set "error" (JObj d) fields)) event))
                   (CEvent (Dict.set "response" (JObj (Dict.set "error" (JObj d') fields)) event)).

(** Two exceptions that are the same, or neither of them the client's fault *)
Definition same_exception (e e' : exn) : Prop :=
  e = e' ∨ ((∀ m, e ≠ ValueError m) ∧ (∀ m, e' ≠ ValueError m)).

Inductive same_result : loader_result → loader_result → Prop :=
| same_single c c' : same_to_client c c' → same_result (Single c) (Single c')
| same_generator items items' ending ending' :
    Forall2 same_to_client items items' → option_Forall2 same_exception ending ending' →
    same_result (Generator (items, ending)) (Generator (items', ending'))
| same_raised e e' : same_exception e e' → same_result (Raised e) (Raised e').

Lemma set_twice (k : string) (v w : json) d : Dict.set k v (Dict.set k w d) = Dict.set k v d.
Proof. induction d as [|[k' x] d IH]; cbn; repeat (case_decide; cbn; try done). by rewrite IH. Qed.

Lemma client_safe_failure request_id event fields d :
  type_is "response.failed" event = true → Json.eqb (field "code" d) (JStr "invalid_prompt") = false →
  client_safe request_id (CEvent (Dict.set "response" (JObj (Dict.set "error" (JObj d) fields)) event)) =
    Ok (CEvent (Dict.set "response" (JObj (Dict.set "error" (JObj [("code", JStr "server_error");
      ("message", JStr (err_message (server_error request_id 500)))]%string) fields)) event)).
Proof.
  intros Hty Hc. unfold client_safe.
  assert (∀ v, type_is "response.failed" (Dict.set "response" v event) = true) as ->.
  { intros v. unfold type_is, field in *. by rewrite Dict.get_set_ne. }
  assert (∀ v, field "response" (Dict.set "response" v event) = v) as ->.
  { intros v. unfold field. by rewrite Dict.get_set_eq. }
  replace (py_or (JObj (Dict.set "error" (JObj d) fields)) (JObj [])) with (JObj (Dict.set "error" (JObj d) fields)).
  2:{ unfold py_or. replace (Json.truthy _) with true; [done|]. destruct fields as [|[k v] fields]; cbn; [done|]. by case_decide. }
  cbn [get_field]. rewrite Dict.get_set_eq. change (default JNull (Some (JObj d))) with (JObj d). cbn [mbind res_bind].
  assert (get_field "code" (py_or (JObj d) (JObj [])) = Ok (field "code" d)) as -> by by destruct d.
  cbn [mbind res_bind]. rewrite Hc. by rewrite !set_twice.
Qed.

Lemma client_safe_same request_id c c' :
  same_to_client c c' → client_safe request_id c = client_safe request_id c'.
Proof.
  intros [x|e e' E Hs|e e' H1 H2|event fields d d' Hty H1 H2].
  - done.
  - cbn. rewrite <-E. by rewrite (proj2 (Z.ltb_ge _ _) Hs).
  - rewrite !client_safe_text. by rewrite !bool_decide_eq_false_2.
  - by rewrite !client_safe_failure.
Qed.

(** Two endings at the gateway *)
Definition same_end (a b : option exn) : Prop :=
  a = b ∨ ∃ e e', a = Some (RayTaskError e "") ∧ b = Some (RayTaskError e' "") ∧
    (∀ m, e ≠ ValueError m) ∧ (∀ m, e' ≠ ValueError m).

Definition same_stream (a b : stream chunk) : Prop := a.1 = b.1 ∧ same_end a.2 b.2.

Lemma yield_same request_id items items' ending ending' :
  Forall2 same_to_client items items' → option_Forall2 same_exception ending ending' →
  same_stream (over_ray (yield_each (client_safe request_id) items ending))
              (over_ray (yield_each (client_safe request_id) items' ending')).
Proof.
  intros Hi He. induction Hi as [|c c' items items' Hc _ IH].
  - split; [done|]. cbn. destruct He as [e e' [->|[H1 H2]]|]; [by left|right; by exists e, e'|by left].
  - cbn [yield_each]. rewrite (client_safe_same request_id c c' Hc). destruct (client_safe request_id c'); [|by split; [|left]].
    destruct (yield_each _ items ending) as [out e1], (yield_each _ items' ending') as [out' e2].
    destruct IH as [E1 E2]. cbn in E1, E2. subst. by split.
Qed.

Lemma deployment_same request_id r r' : same_result r r' →
  same_stream (over_ray (deployment_yields request_id r)) (over_ray (deployment_yields request_id r')).
Proof.
  intros [c c' Hc|items items' ending ending' Hi He|e e' He]; cbn [deployment_yields].
  - apply yield_same; [by repeat constructor|constructor].
  - by apply yield_same.
  - split; [done|]. cbn. destruct He as [->|[H1 H2]]; [by left|right; by exists e, e'].
Qed.

Lemma frame_each_same any items a b : same_end a b →
  same_stream (frame_each py_format any items a) (frame_each py_format any items b).
Proof.
  intros He. revert any. induction items as [|c items IH]; intros any; cbn [frame_each].
  - split; [|done]. cbn. destruct He as [->|(e & e' & -> & -> & _)]; done.
  - destruct c as [err|s|e|d|x y|x]; [| |destruct (encode_sse_event py_format e); [|by split; [|left]]|..];
      match goal with |- context [frame_each py_format ?x items a] =>
        destruct (IH x) as [E1 E2]; destruct (frame_each py_format x items a), (frame_each py_format x items b);
        cbn in *; subst; by split end.
Qed.

Lemma stream_rest_same failure last_ o items a b room : same_end a b →
  stream_rest failure last_ o items a room = stream_rest failure last_ o items b room.
Proof.
  intros [->|(e & e' & -> & -> & _)]; [done|]. revert last_ o room.
  induction items as [|c items IH]; intros last_ o room; [done|]. cbn [stream_rest]. destruct room as [[|n]|]; [done|..]; by rewrite IH.
Qed.

Lemma handle_same request_id uuid now t media render a b room : same_stream a b →
  handle_response py_format request_id uuid now t media render a room =
  handle_response py_format request_id uuid now t media render b room.
Proof.
  destruct a as [items a], b as [items' b]. intros [E He]. cbn in E, He. subst items'. unfold handle_response.
  destruct items as [|c items]; cbn [await_first].
  - destruct He as [->|(e & e' & -> & -> & H1 & H2)]; [done|]. 
    assert (∀ x, (∀ m, x ≠ ValueError m) → await_first request_id ([], Some (RayTaskError x "")) =
      inl (error_response (server_error request_id 500), "unhandled"%string)) as Hx.
    { intros x Hx. destruct x; try done. by destruct (Hx msg). }
    cbn [await_first] in Hx. by rewrite !Hx.
  - destruct c; try done; by rewrite (stream_rest_same _ _ _ _ a b).
Qed.
End facts.
End StreamFacts.

Module StreamProperties.
Import StreamFacts.


(** C10: a client learns nothing of a server error but that there was one and the request's id: when two
    runs of a loader differ only in what their server errors say (in error responses, in error texts, in
    failure events, in exceptions), at the first item or in mid-stream, the replies are the same to the
    last byte, and so is what is recorded, however long the client listens. *)
Theorem server_errors_hidden `{FloatText} py_format framed request_id uuid now t media render r r' room :
  same_result r r' →
  handle_response py_format request_id uuid now t media render (answered_by py_format framed request_id r) room =
  handle_response py_format request_id uuid now t media render (answered_by py_format framed request_id r') room.
Proof.
  intros Hr%(deployment_same request_id). apply handle_same. unfold answered_by. destruct framed; [|done].
  destruct Hr as [E He]. unfold frame_sse. rewrite E. by apply frame_each_same.
Qed.
End StreamProperties.

(** ** Examples *)

Module Examples.
Import StreamFacts StreamProperties.
#[local] Existing Instance no_floats.

Definition created : dict json :=
  [("type", JStr "response.created"); ("sequence_number", JInt 0);
   ("response", JObj [("id", JStr "resp_1"); ("status", JStr "in_progress")])]%string.
Definition delta : dict json :=
  [("type", JStr "response.output_text.delta"); ("sequence_number", JInt 1); ("delta", JStr (String dquote "Hi"))]%string.
Definition request : RequestTracker := mkTracker "m" "create_response" None.

Lemma example_frameable : Forall frameable [created; delta].
Proof.
  repeat (apply Forall_cons; split); try apply Forall_nil_2;
    (split; [apply JsonFacts.plain_text_ok; vm_compute; reflexivity|eexists; split; reflexivity]).
Qed.


Definition failing (message : string) : loader_result :=
  Generator ([CEvent created;
    CEvent (Dict.set "response" (JObj (Dict.set "error" (JObj [("code", JStr "server_error"); ("message", JStr message)])
      [("id", JStr "resp_1")])) [("type", JStr "response.failed"); ("sequence_number", JInt 1)])]%string,
    Some (RuntimeError message)).

Lemma server_errors_hidden_witness :
  handle_response (λ _, ""%string) "r1" "u1" 7 request "text/event-stream" None
    (answered_by (λ _, ""%string) true "r1" (failing "/models/secret.gguf")) None =
  handle_response (λ _, ""%string) "r1" "u1" 7 request "text/event-stream" None
    (answered_by (λ _, ""%string) true "r1" (failing "CUDA out of memory")) None.
Proof.
  apply (server_errors_hidden (λ _, ""%string) true "r1" "u1" 7 request). constructor.
  - constructor; [constructor|]. constructor; [by apply same_failure|constructor].
  - constructor. by right.
Defined.
End Examples.
