(* ===== verification/Transcripts.v ===== *)
(** * Transcripts

    [src/modelship/openai/utils/audio.py]: subtitles made of a transcription's segments, and the two audio routes of
    [src/modelship/openai/api.py] that answer with them. A time in seconds is the rational its float stands for. *)

From S2P Require Import Prelude Rounding ConfigSchema JsonText Errors GatewayReplica GatewayStreams.
From Stdlib Require Import QArith Qabs Lqa.
Local Open Scope Z_scope.

Definition space : ascii := " ".

(** ** Rendering *)

(** [{z:0nd}], of a [z] that is not negative *)
Fixpoint zeros (n : nat) (s : string) : string := match n with O => s | S n => String "0" (zeros n s) end.
Definition padded (n : nat) (z : Z) : string := let s := pretty z in zeros (n - String.length s) s.

(** [TranscriptionSegment], as far as it is rendered *)
Record segment : Type := mkSegment { seg_start : Q; seg_end : Q; seg_text : string }.

Definition millis (h m s ms : Z) : Z := h * 3600000 + m * 60000 + s * 1000 + ms.

(** [round(seconds * 1000)] *)
Definition round_ms (seconds : Q) : Z := py_round (seconds * inject_Z 1000)%Q.

(** [_timestamp] *)
Definition _timestamp (seconds : Q) (separator : ascii) : string :=
  let total_ms := Z.max 0 (round_ms seconds) in
  let '(hours, rest) := (total_ms / 3600000, total_ms mod 3600000) in
  let '(minutes, rest) := (rest / 60000, rest mod 60000) in
  let '(secs, ms) := (rest / 1000, rest mod 1000) in
  padded 2 hours +:+ String ":" (padded 2 minutes +:+ String ":" (padded 2 secs +:+ String separator (padded 3 ms))).

(** [_cue_body] *)
Definition body_lines (text : string) : list string := filter (λ l, l ≠ ""%string) (Str.strip <$> splitlines text).
Definition _cue_body (text : string) : string := Str.join (String newline "") (body_lines text).

Definition separator (vtt : bool) : ascii := if vtt then "." else ",".
Definition times (vtt : bool) (s : segment) : string :=
  _timestamp (seg_start s) (separator vtt) +:+ " --> " +:+ _timestamp (seg_end s) (separator vtt).
Definition cue (vtt : bool) (index : nat) (s : segment) : string :=
  let header := if vtt then times vtt s else pretty (Z.of_nat index) +:+ String newline (times vtt s) in
  header +:+ String newline (_cue_body (seg_text s)).

(** [render_transcript] *)
Definition render_transcript (segments : list segment) (response_format : string) : string :=
  let vtt := bool_decide (response_format = "vtt"%string) in
  let body := Str.join newlines (imap (λ i s, cue vtt (S i) s) segments) in
  if vtt then "WEBVTT" +:+ newlines +:+ body +:+ String newline "" else body +:+ String newline "".

(** ** The routes *)

Definition _TRANSCRIPT_MEDIA_TYPE : string := "text/plain; charset=utf-8".

(** What a loader's result says, as far as it is rendered *)
Record transcription : Type := mkTranscription { tr_text : string; tr_segments : option (list segment) }.

Definition rendering : Type := transcription → (string * string) + ErrorResponse.

(** [transcript_render_plan]: the format to ask the loader for, and what to make of its result *)
Definition transcript_render_plan (response_format model : string) : string * option rendering :=
  if bool_decide (response_format ∈ ["json"; "verbose_json"]%string) then (response_format, None)
  else if bool_decide (response_format = "text"%string)
  then ("json"%string, Some (λ result, inl (tr_text result, _TRANSCRIPT_MEDIA_TYPE)))
  else
    ("verbose_json"%string, Some (λ result,
       match tr_segments result with
       | None | Some [] => inr (create_error_response
           (model +:+ " returned no segment timestamps, which response_format `" +:+ response_format +:+ "` requires")
           (Some "invalid_request_error"%string) 400 None None)
       | Some segments => inl (render_transcript segments response_format, _TRANSCRIPT_MEDIA_TYPE)
       end)).

(** [create_transcriptions] and [create_translations], for a model that is served: [answer] is the loader's, by the
    format that it is asked for, and [read_result] the loader's result as its response class has it. *)
Definition transcribe `{FloatText} (py_format : json → string) (read_result : json → transcription) (request_id uuid : string) (now : Z) (t : RequestTracker)
    (wants_stream : bool) (response_format model : string) (answer : string → stream chunk) (room : option nat)
    : RequestTracker * reply :=
  if wants_stream && bool_decide (response_format ∈ ["srt"; "vtt"; "verbose_json"]%string) then
    (finish "error" (Some "http_400"%string) t,
     error_response (create_error_response
       ("response_format `" +:+ response_format +:+ "` cannot be streamed; drop `stream` to receive the document body")
       (Some "invalid_request_error"%string) 400 None None))
  else
    let '(internal_format, render) := transcript_render_plan response_format model in
    handle_response py_format request_id uuid now t "text/event-stream" ((λ f dump, f (read_result dump)) <$> render)
      (answer internal_format) room.
(** ** Reading a document back *)

(** Paragraphs: lines up to an empty one *)
Fixpoint paragraph (l : list string) : list string * list (list string) :=
  match l with
  | [] => ([], [])
  | x :: l =>
      let '(p, ps) := paragraph l in
      if bool_decide (x = ""%string) then ([], if p is [] then ps else p :: ps) else (x :: p, ps)
  end.
Definition paragraphs (l : list string) : list (list string) :=
  let '(p, ps) := paragraph l in if p is [] then ps else p :: ps.

Definition read_stamp (separator : ascii) (s : string) : option Z :=
  match Str.split ":" s with
  | [h; m; r] =>
      match Str.split separator r with
      | [sec; ms] => h ← Str.digits 0 false h; m ← Str.digits 0 false m; sec ← Str.digits 0 false sec; ms ← Str.digits 0 false ms;
          Some (millis h m sec ms)
      | _ => None
      end
  | _ => None
  end.

(** A cue: its start and its end in milliseconds, and its lines *)
Definition read_times (separator : ascii) (line : string) (text : list string) : option (Z * Z * list string) :=
  match Str.split space line with
  | [a; "-->"%string; b] => a ← read_stamp separator a; b ← read_stamp separator b; Some (a, b, text)
  | _ => None
  end.

Fixpoint read_srt (index : nat) (ps : list (list string)) : option (list (Z * Z * list string)) :=
  match ps with
  | [] => Some []
  | (n :: line :: text) :: ps =>
      if bool_decide (n = pretty (Z.of_nat index))
      then c ← read_times "," line text; cs ← read_srt (S index) ps; Some (c :: cs) else None
  | _ => None
  end.

Definition read_vtt (ps : list (list string)) : option (list (Z * Z * list string)) :=
  match ps with
  | ["WEBVTT"%string] :: ps => mapM (λ p, if p is line :: text then read_times "." line text else None) ps
  | _ => None
  end.

Definition read_transcript (response_format document : string) : option (list (Z * Z * list string)) :=
  let ps := paragraphs (Str.split newline document) in
  if bool_decide (response_format = "vtt"%string) then read_vtt ps else read_srt 1 ps.

(** ** Lemmas *)

Module TranscriptFacts.

(** *** Numbers *)

Lemma digits_go x : ∀ b s, (0 < x)%N → Str.digits 0 b (pretty_N_go x s) = Str.digits (Z.of_N x) true s.
Proof.
  induction (N.lt_wf_0 x) as [x _ IH]. intros b s Hx. rewrite pretty_N_go_step by done.
  assert (∀ acc b, Str.digits acc b (String (pretty_N_char (x `mod` 10)) s) = Str.digits (acc * 10 + Z.of_N (x `mod` 10)) true s) as Hd.
  { intros acc b'. pose proof (N.mod_lt x 10). cbn [Str.digits].
    assert (∃ n, x `mod` 10 = n ∧ n < 10)%N as (n & -> & Hn) by (eexists; split; [done|lia]).
    assert (n = 0 ∨ n = 1 ∨ n = 2 ∨ n = 3 ∨ n = 4 ∨ n = 5 ∨ n = 6 ∨ n = 7 ∨ n = 8 ∨ n = 9)%N as Hc by lia.
    by destruct_or! Hc; subst n. }
  destruct (decide (x < 10)%N) as [Hlt|Hge].
  - rewrite N.div_small, pretty_N_go_0, Hd, N.mod_small by done. done.
  - rewrite IH, Hd; [f_equal|apply N.div_lt; lia|apply N.div_str_pos; lia].
    rewrite (N.div_mod x 10) at 3 by done. lia.
Qed.

Lemma digits_pretty b z : 0 ≤ z → Str.digits 0 b (pretty z) = Some z.
Proof.
  intros Hz. destruct z as [|p|p]; [by destruct b| |lia].
  change (pretty (Zpos p)) with (pretty_N_go (Npos p) ""). by rewrite digits_go.
Qed.

Lemma digits_padded n z : 0 ≤ z → Str.digits 0 false (padded n z) = Some z.
Proof.
  intros Hz. unfold padded. generalize (n - String.length (pretty z))%nat. intros k.
  enough (∀ b, Str.digits 0 b (zeros k (pretty z)) = Some z) by done.
  induction k as [|k IH]; intros b; cbn [zeros]; [by apply digits_pretty|]. apply IH.
Qed.

Lemma digits_mem c s : is_digit c || bool_decide (c = "_"%char) = false → ∀ acc b z, Str.digits acc b s = Some z → Str.mem c s = false.
Proof.
  intros Hc. apply orb_false_iff in Hc as [Hd Hu%bool_decide_eq_false]. induction s as [|a s IH]; intros acc b z; [done|].
  cbn [Str.digits Str.mem]. intros Hs. apply orb_false_iff. split.
  - apply bool_decide_eq_false. intros ->. revert Hs. rewrite bool_decide_false by done. cbn.
    unfold is_digit in Hd. case_match eqn:E; [|by intros]. exfalso. clear -Hd E.
    destruct c as [[] [] [] [] [] [] [] []]; vm_compute in Hd, E; congruence.
  - destruct (_ && _) in Hs; [by eapply IH|]. destruct (_ && _) in Hs; [|done]. destruct s; [done|]. by eapply IH.
Qed.

Lemma padded_mem c n z : 0 ≤ z → is_digit c || bool_decide (c = "_"%char) = false → Str.mem c (padded n z) = false.
Proof. intros Hz Hc. eapply digits_mem; [done|by apply digits_padded]. Qed.

(** *** Times *)

Lemma stamp_read q sep : sep = ","%char ∨ sep = "."%char →
  read_stamp sep (_timestamp q sep) = Some (Z.max 0 (round_ms q)).
Proof.
  intros Hsep. unfold _timestamp. set (t := Z.max 0 (round_ms q)). assert (0 ≤ t) as Ht by lia. clearbody t.
  pose proof (Z.mod_pos_bound t 3600000 eq_refl) as Hb1. pose proof (Z.div_mod t 3600000 ltac:(lia)) as He1.
  set (r1 := t mod 3600000) in *. pose proof (Z.mod_pos_bound r1 60000 eq_refl) as Hb2. pose proof (Z.div_mod r1 60000 ltac:(lia)) as He2.
  set (r2 := r1 mod 60000) in *. pose proof (Z.mod_pos_bound r2 1000 eq_refl) as Hb3. pose proof (Z.div_mod r2 1000 ltac:(lia)) as He3.
  assert (0 ≤ t / 3600000 ∧ 0 ≤ r1 / 60000 ∧ 0 ≤ r2 / 1000) as (H1 & H2 & H3) by (split_and!; apply Z.div_pos; lia).
  unfold read_stamp. rewrite Str.split_app_sep, Str.split_app_sep by (by apply padded_mem).
  rewrite Str.split_whole by (rewrite Str.mem_app; apply orb_false_iff; split; [by apply padded_mem|]; cbn;
    rewrite bool_decide_false by (by destruct Hsep as [-> | ->]); apply padded_mem; [lia|done]).
  rewrite Str.split_app_sep, Str.split_whole by (apply padded_mem; [lia|by destruct Hsep as [-> | ->]]).
  rewrite !digits_padded by lia. cbn. f_equal. unfold millis. lia.
Qed.

Lemma stamp_mem q sep c : sep = ","%char ∨ sep = "."%char → c = space ∨ c = newline →
  Str.mem c (_timestamp q sep) = false.
Proof.
  intros Hsep Hc. unfold _timestamp. set (t := Z.max 0 (round_ms q)). assert (0 ≤ t) as Ht by lia. clearbody t.
  pose proof (Z.mod_pos_bound t 3600000 eq_refl). pose proof (Z.mod_pos_bound (t mod 3600000) 60000 eq_refl).
  pose proof (Z.mod_pos_bound (t mod 3600000 mod 60000) 1000 eq_refl).
  assert (is_digit c || bool_decide (c = "_"%char) = false) as Hd by (by destruct Hc as [-> | ->]).
  rewrite Str.mem_app. cbn [Str.mem]. rewrite Str.mem_app. cbn [Str.mem]. rewrite Str.mem_app. cbn [Str.mem].
  rewrite !padded_mem by (done || lia || (apply Z.div_pos; lia)).
  by destruct Hc as [-> | ->], Hsep as [-> | ->].
Qed.

Lemma times_read vtt s text :
  read_times (separator vtt) (times vtt s) text =
    Some (Z.max 0 (round_ms (seg_start s)), Z.max 0 (round_ms (seg_end s)), text).
Proof.
  assert (separator vtt = ","%char ∨ separator vtt = "."%char) as Hsep by (destruct vtt; auto).
  unfold read_times, times. change (" --> " +:+ ?x) with (String space ("-->" +:+ String space x)).
  rewrite Str.split_app_sep by (by apply stamp_mem; [|left]). rewrite Str.split_app_sep by done.
  rewrite Str.split_whole by (by apply stamp_mem; [|left]). by rewrite !stamp_read.
Qed.

Lemma times_mem vtt s : Str.mem newline (times vtt s) = false ∧ times vtt s ≠ ""%string.
Proof.
  assert (separator vtt = ","%char ∨ separator vtt = "."%char) as Hsep by (destruct vtt; auto).
  unfold times. split; [|by destruct (_timestamp (seg_start s) _)].
  rewrite !Str.mem_app, !stamp_mem by auto. done.
Qed.

(** *** Lines *)

Lemma strip_mem c s : Str.mem c s = false → Str.mem c (Str.strip s) = false.
Proof.
  intros Hs. unfold Str.strip. assert (Str.mem c (Str.rstrip s) = false) as Hr.
  { induction s as [|a s IH]; [done|]. cbn in *. apply orb_false_iff in Hs as [Ha Hs].
    destruct (_ && _); [done|]. cbn. rewrite Ha. auto. }
  revert Hr. generalize (Str.rstrip s). clear. intros s. induction s as [|a s IH]; [done|]. cbn.
  intros [Ha Hs]%orb_false_iff. destruct (Str.is_space a); [auto|]. cbn. by rewrite Ha.
Qed.

Lemma lines_after_mem n : ∀ line s, (String.length s ≤ n)%nat → Str.mem newline line = false →
  Forall (λ l, Str.mem newline l = false) (lines_after line s).
Proof.
  induction n as [|n IH]; intros line s Hn Hl; (destruct s as [|a s]; cbn [lines_after]; [by case_bool_decide; repeat constructor|]);
    cbn in Hn; [lia|]. destruct (line_break a) eqn:Ea.
  - constructor; [done|]. destruct s as [|b s]; [constructor|]. case_bool_decide; apply IH; cbn in *; done || lia.
  - apply IH; [lia|]. rewrite Str.mem_app, Hl. cbn. rewrite bool_decide_false; [done|]. by intros ->.
Qed.

Lemma body_lines_ok text : Forall (λ l, Str.mem newline l = false ∧ l ≠ ""%string) (body_lines text).
Proof.
  unfold body_lines. apply Forall_forall. intros l [Hne Hl]%list_elem_of_filter. split; [|done].
  apply list_elem_of_fmap in Hl as (l' & -> & Hl'). apply strip_mem.
  by apply (proj1 (Forall_forall _ _) (lines_after_mem (String.length text) "" text ltac:(lia) eq_refl)).
Qed.

Lemma split_app c a b : Str.split c (a +:+ String c b) = Str.split c a ++ Str.split c b.
Proof.
  induction a as [|x a IH]; cbn; [by rewrite decide_True|]. case_decide; [by rewrite IH|]. rewrite IH.
  destruct (Str.split c a) eqn:E; [by apply Str.split_not_nil in E|done].
Qed.

(** The lines of a cue's text: one, empty, for a text without any *)
Lemma body_split text : Str.split newline (_cue_body text) = if body_lines text is [] then [""%string] else body_lines text.
Proof.
  pose proof (body_lines_ok text) as Hok. unfold _cue_body. destruct (body_lines text) as [|l ls] eqn:E; [done|].
  apply Str.split_join; [done|]. eapply Forall_impl; [done|]. by intros ? [].
Qed.

Lemma cue_split vtt i s :
  Str.split newline (cue vtt i s) = (if vtt then [] else [pretty (Z.of_nat i)]) ++ [times vtt s] ++
    (if body_lines (seg_text s) is [] then [""%string] else body_lines (seg_text s)).
Proof.
  destruct (times_mem vtt s) as [Ht _]. unfold cue. rewrite split_app, body_split. destruct vtt; cbn.
  - by rewrite Str.split_whole.
  - rewrite split_app, !Str.split_whole; [done|done|]. eapply (digits_mem newline); [done|]. apply (digits_pretty false). lia.
Qed.

(** *** Paragraphs *)

Lemma paragraph_app xs l : Forall (λ x, x ≠ ""%string) xs → paragraph (xs ++ ""%string :: l) = (xs, paragraphs l).
Proof.
  induction 1 as [|x xs Hx _ IH]; cbn.
  - unfold paragraphs. by destruct (paragraph l) as [[] ?].
  - rewrite IH. by rewrite bool_decide_false.
Qed.

Lemma paragraphs_app x xs l : x ≠ ""%string → Forall (λ x, x ≠ ""%string) xs →
  paragraphs (x :: xs ++ ""%string :: l) = (x :: xs) :: paragraphs l.
Proof. intros Hx Hxs. unfold paragraphs at 1. rewrite app_comm_cons, paragraph_app; [done|by constructor]. Qed.

Lemma paragraphs_empty l : paragraphs (""%string :: l) = paragraphs l.
Proof. unfold paragraphs. cbn. destruct (paragraph l) as [[] ?]; done. Qed.

(** The paragraph of a cue *)
Definition cue_paragraph (vtt : bool) (i : nat) (s : segment) : list string :=
  (if vtt then [] else [pretty (Z.of_nat i)]) ++ times vtt s :: body_lines (seg_text s).

Lemma cue_paragraphs vtt i s l :
  paragraphs (Str.split newline (cue vtt i s) ++ ""%string :: l) = cue_paragraph vtt i s :: paragraphs l.
Proof.
  rewrite cue_split. destruct (times_mem vtt s) as [_ Ht]. pose proof (body_lines_ok (seg_text s)) as Hok.
  assert (Forall (λ x, x ≠ ""%string) (body_lines (seg_text s))) as Hb by (eapply Forall_impl; [done|]; by intros ? []).
  assert (pretty (Z.of_nat i) ≠ ""%string) as Hp by (pose proof (digits_pretty false (Z.of_nat i) ltac:(lia)); by intros E; rewrite E in *).
  unfold cue_paragraph. destruct (body_lines (seg_text s)) as [|x xs] eqn:E, vtt; cbn [app].
  - rewrite (paragraphs_app _ [] (""%string :: l)) by done. by rewrite paragraphs_empty.
  - rewrite (paragraphs_app _ [times false s] (""%string :: l)) by (done || by repeat constructor). by rewrite paragraphs_empty.
  - by rewrite (paragraphs_app _ (x :: xs) l).
  - by rewrite (paragraphs_app _ (times false s :: x :: xs) l) by (done || by constructor).
Qed.

Lemma body_paragraphs vtt segments : ∀ n,
  paragraphs (Str.split newline (Str.join newlines (imap (λ i s, cue vtt (S (n + i)) s) segments) +:+ String newline "")) =
  imap (λ i s, cue_paragraph vtt (S (n + i)) s) segments.
Proof.
  induction segments as [|s segments IH]; intros n; [reflexivity|]. rewrite !imap_cons, split_app.
  specialize (IH (S n)). rewrite split_app in IH.
  assert (∀ {B} (f : nat → segment → B), imap ((λ i s, f (S (n + i))%nat s) ∘ S) segments = imap (λ i s, f (S (S n + i))%nat s) segments) as Hs.
  { intros B f. apply imap_ext. intros i x _. cbn. f_equal. lia. }
  rewrite (Hs _ (cue vtt)), (Hs _ (cue_paragraph vtt)), <-IH, Nat.add_0_r. set (cs := imap _ segments). destruct cs as [|c cs].
  - cbn [Str.join Str.split]. rewrite (cue_paragraphs _ _ _ []). done.
  - cbn [Str.join]. unfold newlines at 1. cbn [String.append]. rewrite (split_app newline (cue _ _ _)).
    change (String newline ?x) with ("" +:+ String newline x). rewrite (split_app newline ""). cbn [Str.split app].
    rewrite <-!app_assoc. cbn [app]. by rewrite cue_paragraphs.
Qed.

Lemma body_paragraphs0 vtt segments :
  paragraphs (Str.split newline (Str.join newlines (imap (λ i s, cue vtt (S i) s) segments) +:+ String newline "")) =
  imap (λ i s, cue_paragraph vtt (S i) s) segments.
Proof. exact (body_paragraphs vtt segments 0). Qed.
End TranscriptFacts.

Module TranscriptProperties.
Import TranscriptFacts.

(** What a segment says: its times in milliseconds, none before the start, and the lines of its text that are not blank *)
Definition said (s : segment) : Z * Z * list string :=
  (Z.max 0 (round_ms (seg_start s)), Z.max 0 (round_ms (seg_end s)), body_lines (seg_text s)).

Lemma srt_read segments : ∀ n,
  read_srt (S n) (imap (λ i s, cue_paragraph false (S (n + i)) s) segments) = Some (said <$> segments).
Proof.
  induction segments as [|s segments IH]; intros n; [done|]. rewrite imap_cons. specialize (IH (S n)).
  unfold cue_paragraph at 1. cbn [app read_srt]. rewrite Nat.add_0_r, bool_decide_true by done. rewrite (times_read false).
  assert (imap ((λ i s, cue_paragraph false (S (n + i)) s) ∘ S) segments =
    imap (λ i s, cue_paragraph false (S (S n + i)) s) segments) as ->.
  { apply imap_ext. intros i x _. cbn. by rewrite Nat.add_succ_r. }
  by rewrite IH.
Qed.

Lemma vtt_read segments : ∀ n,
  mapM (λ p, if p is line :: text then read_times "." line text else None)
    (imap (λ i s, cue_paragraph true (S (n + i)) s) segments) = Some (said <$> segments).
Proof.
  intros n. apply mapM_Some. revert n. induction segments as [|s segments IH]; intros n; [constructor|].
  rewrite imap_cons. constructor; [apply (times_read true)|]. eapply (Forall2_impl _ _ _ _ (IH n)). done.
Qed.

Lemma document_read segments response_format :
  read_transcript response_format (render_transcript segments response_format) = Some (said <$> segments).
Proof.
  unfold read_transcript, render_transcript. case_bool_decide; cbn [negb].
  - change ("WEBVTT" +:+ newlines +:+ ?x) with ("WEBVTT" +:+ String newline ("" +:+ String newline x)).
    rewrite (split_app _ "WEBVTT"), (split_app _ ""), (Str.split_whole _ "WEBVTT") by done. cbn [Str.split app].
    pose proof (λ l, paragraphs_app "WEBVTT" [] l ltac:(done) ltac:(constructor)) as Hw. cbn [app] in Hw.
    rewrite Hw, body_paragraphs0. apply (vtt_read _ 0).
  - rewrite body_paragraphs0. apply (srt_read _ 0).
Qed.

(** A time to the nearest millisecond, and none before the start *)
Definition to_the_millisecond (seconds : Q) (ms : Z) : Prop :=
  0 ≤ ms ∧ ((Qabs (inject_Z ms - seconds * inject_Z 1000) <= 1 # 2)%Q ∨ ((seconds < 0)%Q ∧ ms = 0)).

(** A line without the space around it *)
Definition blank (l : string) : bool := str_all Str.is_space l.
Definition trimmed (line l : string) : Prop :=
  ∃ a b, line = a +:+ l +:+ b ∧ blank a = true ∧ blank b = true ∧
    (∃ x y, l = String x y ∧ Str.is_space x = false) ∧ (∃ x y, l = x +:+ String y "" ∧ Str.is_space y = false).

(** A cue of a segment: its times, and the lines of its text that are not blank *)
Definition cue_of (s : segment) (c : Z * Z * list string) : Prop :=
  to_the_millisecond (seg_start s) c.1.1 ∧ to_the_millisecond (seg_end s) c.1.2 ∧
  Forall2 trimmed (List.filter (λ l, negb (blank l)) (splitlines (seg_text s))) c.2.

Lemma rounded_ms q : to_the_millisecond q (Z.max 0 (round_ms q)).
Proof.
  unfold to_the_millisecond, round_ms. pose proof (py_round_close (q * inject_Z 1000)) as Hc.
  set (r := py_round _) in *. split; [lia|]. destruct (Z.le_gt_cases 0 r) as [Hr|Hr].
  - left. by rewrite Z.max_r.
  - right. split; [|lia]. apply Qabs_Qle_condition in Hc as [H1 _].
    assert (inject_Z r <= inject_Z (-1))%Q as Hq by (rewrite <-Zle_Qle; lia). change (inject_Z 1000) with 1000%Q in H1. 
    change (inject_Z (-1)) with (-1)%Q in Hq. lra.
Qed.

Lemma rstrip_spec s : ∃ b, s = Str.rstrip s +:+ b ∧ blank b = true ∧
  (Str.rstrip s = ""%string ∨ ∃ x y, Str.rstrip s = x +:+ String y "" ∧ Str.is_space y = false).
Proof.
  induction s as [|a s (b & E & Hb & Hr)]; [by exists ""%string; split_and!; [..|left]|]. cbn.
  destruct (bool_decide (Str.rstrip s = ""%string) && Str.is_space a) eqn:Ea.
  - apply andb_true_iff in Ea as [Hs%bool_decide_eq_true Ha]. exists (String a b). rewrite Hs in E. cbn in E.
    split_and!; [by rewrite E at 1|by cbn; rewrite Ha|by left].
  - exists b. split_and!; [by rewrite E at 1|done|right]. destruct Hr as [Hr|(x & y & Hr & Hy)].
    + rewrite Hr in *. exists ""%string, a. split; [done|]. by rewrite bool_decide_eq_true_2 in Ea.
    + exists (String a x), y. by rewrite Hr.
Qed.

Lemma strip_spec s : (Str.strip s = ""%string ∧ blank s = true) ∨ (Str.strip s ≠ ""%string ∧ blank s = false ∧ trimmed s (Str.strip s)).
Proof.
  destruct (rstrip_spec s) as (b & E & Hb & Hr). unfold Str.strip.
  assert (∀ r, ∃ a, r = a +:+ Str.lstrip r ∧ blank a = true ∧
    (Str.lstrip r = ""%string ∨ ∃ x y, Str.lstrip r = String x y ∧ Str.is_space x = false)) as Hl.
  { induction r as [|x r (a & Er & Ha & Hx)]; [by exists ""%string; split_and!; [..|left]|]. cbn.
    destruct (Str.is_space x) eqn:Ex.
    - exists (String x a). split_and!; [by rewrite Er at 1|by cbn; rewrite Ex|done].
    - exists ""%string. split_and!; [done..|right]. by exists x, r. }
  destruct (Hl (Str.rstrip s)) as (a & Er & Ha & Hx). set (l := Str.lstrip (Str.rstrip s)) in *. 
  destruct Hx as [Hx|(x & y & Hx & Hxs)].
  - left. split; [done|]. rewrite Hx, Str.app_nil_r in Er. rewrite E, Er. unfold blank in *. by rewrite JsonFacts.str_all_app, Ha.
  - right. split; [by rewrite Hx|]. destruct Hr as [Hr|(u & v & Hr & Hv)].
    { rewrite Hr in Er. rewrite Hx in Er. by destruct a. }
    split.
    + rewrite E, Er, Hx. unfold blank. rewrite !JsonFacts.str_all_app. cbn [str_all]. rewrite Hxs. cbn [andb]. by rewrite andb_false_r.
    + exists a, b. split_and!; [by rewrite <-Str.app_assoc, <-Er|done|done|by exists x, y|].
      assert (∀ a l u, u +:+ String v "" = a +:+ l → l ≠ ""%string → ∃ w, l = w +:+ String v "") as Hend.
      { clear. induction a as [|z a IH]; intros l u Hu Hl; [by exists u|]. destruct u as [|w u]; cbn in Hu.
        - injection Hu as -> Hu. destruct a; [|done]. cbn in Hu. by subst l.
        - injection Hu as -> Hu. by eapply IH. }
      destruct (Hend a l u) as [w Hw]; [by rewrite <-Hr, <-Er|by rewrite Hx|]. by exists w, v.
Qed.

Lemma body_lines_trimmed text : Forall2 trimmed (List.filter (λ l, negb (blank l)) (splitlines text)) (body_lines text).
Proof.
  unfold body_lines. induction (splitlines text) as [|l ls IH]; [constructor|]. cbn [List.filter fmap list_fmap].
  rewrite filter_cons. destruct (strip_spec l) as [[Hs Hb]|(Hs & Hb & Ht)]; rewrite Hb; cbn [negb].
  - by rewrite decide_False by (by intros []).
  - rewrite decide_True by done. by constructor.
Qed.

(** C36: Subtitles read back: a document of either format is, for a reader that goes by blank lines, one cue for each segment
    in order, numbered from one in srt, with the segment's times to the nearest millisecond (none before the start) and the
    lines of its text that are not blank, each without the space around it; no text, whatever blank lines and spaces it
    holds, ends its cue early or starts another. *)
Theorem transcripts_read_back segments response_format :
  ∃ cues, read_transcript response_format (render_transcript segments response_format) = Some cues ∧
    Forall2 cue_of segments cues.
Proof.
  exists (said <$> segments). split; [apply document_read|]. apply Forall2_fmap_r, Forall_Forall2_diag, Forall_forall.
  intros s _. split; [apply rounded_ms|]. split; [apply rounded_ms|]. apply body_lines_trimmed.
Qed.
End TranscriptProperties.
