(* ===== verification/Preflight.v ===== *)
(** * Preflight: memory and launch arguments

    [src/modelship/preflight/base.py], what a node's memory is taken to be and how a recommendation is asked for
    and merged, and [stable_diffusion_cpp.py]. Files are read by a parameter, [None] where that fails. Python's floats
    are taken as the rationals they stand for. *)

From S2P Require Import Prelude ConfigSchema JsonText.
Local Open Scope Z_scope.

(** ** Hardware *)

Record GPUInfo : Type := mkGpu {
  gpu_index : Z;
  available_bytes : Z;
  gpu_name : string;
  uuid : option string;
  kind : string;
  total_bytes : Z;
}.

(** [sizing_total_bytes] *)
Definition sizing_total_bytes (g : GPUInfo) : Z := if total_bytes g =? 0 then available_bytes g else total_bytes g.

Record HardwareProfile : Type := mkHardware { gpus : list GPUInfo; ram_bytes : Z; available_ram_bytes : Z }.

(** [sizing_ram_bytes] *)
Definition sizing_ram_bytes (hw : HardwareProfile) : Z :=
  if available_ram_bytes hw =? 0 then ram_bytes hw else available_ram_bytes hw.

Definition with_available (free : Z) (g : GPUInfo) : GPUInfo :=
  mkGpu (gpu_index g) free (gpu_name g) (uuid g) (kind g) (total_bytes g).

(** [_join_nvml_free], given what [_pynvml_node_discover] finds *)
Definition cuda_uuid (g : GPUInfo) : option string := if bool_decide (kind g = "cuda"%string) then nonempty (uuid g) else None.
Definition free_by_uuid (node : list GPUInfo) : dict Z :=
  Dict.of_list (omap (λ g, u ← nonempty (uuid g); Some (u, available_bytes g)) node).
Definition _join_nvml_free (node gpus : list GPUInfo) : list GPUInfo :=
  if forallb (λ g, if cuda_uuid g is Some _ then false else true) gpus then gpus
  else
    match free_by_uuid node with
    | [] => gpus
    | free => map (λ g, if (u ← cuda_uuid g; Dict.get u free) is Some n then with_available n g else g) gpus
    end.

(** ** RAM *)

(** [_tighter_ram] *)
Definition _tighter_ram (host_bytes : Z) (cgroup_bytes : option Z) : Z :=
  match cgroup_bytes with
  | None => host_bytes
  | Some c => if host_bytes <=? 0 then c else Z.min host_bytes c
  end.

Definition _CGROUP_V1_UNLIMITED : Z := 0x7FFFFFFFFFFFF000.

(** [s.split()] *)
Fixpoint split_words (word s : string) : list string :=
  match s with
  | EmptyString => if bool_decide (word = ""%string) then [] else [word]
  | String a s =>
      if Str.is_space a then if bool_decide (word = ""%string) then split_words "" s else word :: split_words "" s
      else split_words (word +:+ String a "") s
  end.
Definition words (s : string) : list string := split_words "" s.

(** [s.endswith(suffix)] *)
Definition ends_with (suffix s : string) : bool :=
  bool_decide (str_drop (String.length s - String.length suffix) s = suffix).

Section files.
Context (read : string → option string).

(** [_cgroup_memory_limit_bytes] *)
Fixpoint cgroup_limit (paths : list string) : option Z :=
  match paths with
  | [] => None
  | path :: paths =>
      match Str.strip <$> read path with
      | None => cgroup_limit paths
      | Some raw =>
          if bool_decide (raw = "max"%string) then None
          else match Str.to_int raw with
               | None => cgroup_limit paths
               | Some value => if (value <=? 0) || (_CGROUP_V1_UNLIMITED <=? value) then None else Some value
               end
      end
  end.

(** [_read_first_int] *)
Fixpoint _read_first_int (paths : list string) : option Z :=
  match paths with
  | [] => None
  | path :: paths => if (raw ← read path; Str.to_int raw) is Some n then Some n else _read_first_int paths
  end.

(** The numbers of a [memory.stat], and [_cgroup_reclaimable_cache_bytes] *)
Definition stat_values (raw : string) : dict Z :=
  foldl (λ d line, match words line with
                   | [k; v] => if Str.to_int v is Some n then Dict.set k n d else d
                   | _ => d
                   end) [] (splitlines raw).
Fixpoint cgroup_reclaimable (stat_paths : list string) : option Z :=
  match stat_paths with
  | [] => None
  | path :: paths =>
      match read path with
      | None => cgroup_reclaimable paths
      | Some raw =>
          let values := stat_values raw in
          let value k := default 0 (Dict.get k values) in
          Some (if Dict.mem "total_inactive_file" values then value "total_inactive_file" + value "total_active_file"
                else value "inactive_file" + value "active_file")%string
      end
  end.

Definition limit_paths : list string := ["/sys/fs/cgroup/memory.max"; "/sys/fs/cgroup/memory/memory.limit_in_bytes"]%string.
Definition usage_paths : list string := ["/sys/fs/cgroup/memory.current"; "/sys/fs/cgroup/memory/memory.usage_in_bytes"]%string.
Definition stat_paths : list string := ["/sys/fs/cgroup/memory.stat"; "/sys/fs/cgroup/memory/memory.stat"]%string.

(** [_cgroup_memory_available_bytes] *)
Definition cgroup_available : option Z :=
  limit ← cgroup_limit limit_paths;
  current ← _read_first_int usage_paths;
  Some (Z.max 0 (limit - current + default 0 (cgroup_reclaimable stat_paths))).

(** [detect_ram_bytes] and [detect_available_ram_bytes], of psutil's figures *)
Definition detect_ram_bytes (host_total : Z) : Z := _tighter_ram host_total (cgroup_limit limit_paths).
Definition detect_available_ram_bytes (host_available : Z) : Z := _tighter_ram host_available cgroup_available.
End files.

(** ** Recommendations *)

(** What an estimator returns, or raises: [ModelNotSizedError], or anything else *)
Inductive estimate : Type := Recommends (rec : dict json) | ModelNotSized (text : string) | Fails.

(** [run_preflight]; [None] stands for [ModelNotSizedError]. *)
Definition run_preflight (enabled : bool) (impl : option estimate) : option (dict json) :=
  if negb enabled then Some []
  else match impl with Some (Recommends rec) => Some rec | Some (ModelNotSized _) => None | Some Fails | None => Some [] end.

(** [merge_with_user_overrides] *)
Definition merge_with_user_overrides (recommendation user_overrides : dict json) : dict json :=
  Dict.update recommendation user_overrides.

(** [gpu_share_fraction] and [gpu_share_bytes] *)
Definition gpu_share_fraction (c : ModelConfig) : Q :=
  if Qlt_bool (inject_Z 0) (num_gpus c) && Qlt_bool (num_gpus c) (inject_Z 1) then num_gpus c else inject_Z 1.
Definition gpu_share_bytes (c : ModelConfig) (g : GPUInfo) : Q :=
  QArith_base.Qmult (gpu_share_fraction c) (inject_Z (sizing_total_bytes g)).

(** [StableDiffusionCppPreflight.recommend] *)
Definition _VAE_TILING_RAM_THRESHOLD_BYTES : Z := 8 * 1024 ^ 3.
Definition recommend_sd_cpp (hw : HardwareProfile) : dict json :=
  if ram_bytes hw <=? 0 then []
  else if sizing_ram_bytes hw <? _VAE_TILING_RAM_THRESHOLD_BYTES then [("vae_tiling"%string, JBool true)] else [].
