(* ===== verification/PreflightVllm.v ===== *)
(** * Preflight: vLLM's memory

    [src/modelship/preflight/vllm.py], with [_sliding_window.py] and [_mla.py]: how much memory a model's cache takes, the
    context length and the number of sequences that fit, and the share of the memory that vLLM is to reserve. Python's
    floats are taken as the rationals they stand for. What vLLM itself says of a hybrid model and the model's files are
    parameters. A model's [config.json] holds integers where it holds
    numbers; a field of another type counts as absent here. *)

From S2P Require Import Prelude Rounding ConfigSchema JsonText Egress Preflight.
From Stdlib Require Import QArith Qround Qminmax Qabs Lqa.
Local Open Scope Q_scope.

(** [x // y], for a positive [y]: the floor of the quotient *)
Definition Qdiv_floor (x y : Q) : Z := Qfloor (x / y).
Definition Zq : Z → Q := inject_Z.

(** ** Sliding windows *)

Definition _WINDOW_SLACK_TOKENS : Z := 16.

Record SlidingWindowInfo : Type := mkSliding {
  n_full_layers : Z;
  n_sliding_layers : Z;
  n_total_layers : Z;
  window : Z;
}.

(** [seq_kv_bytes] *)
Definition seq_kv_bytes (kv_per_token : Q) (sliding : option SlidingWindowInfo) (length : Z) : Q :=
  match sliding with
  | None => kv_per_token * Zq length
  | Some s =>
      let per_layer := kv_per_token / Zq (n_total_layers s) in
      let window_tokens := Z.min (window s + _WINDOW_SLACK_TOKENS) length in
      per_layer * (Zq (n_full_layers s * length + n_sliding_layers s * window_tokens))
  end.

(** [fit_len_with_sliding] *)
Definition fit_len_with_sliding (budget kv_per_token : Q) (sliding : SlidingWindowInfo) (ctx_cap : Z) : Z :=
  let per_layer := kv_per_token / Zq (n_total_layers sliding) in
  let full_per_token := per_layer * Zq (n_full_layers sliding) in
  let sliding_per_token := per_layer * Zq (n_sliding_layers sliding) in
  let window_tokens := Zq (window sliding + _WINDOW_SLACK_TOKENS) in
  if Qlt_bool budget ((full_per_token + sliding_per_token) * window_tokens)
  then Z.min (Qdiv_floor budget (full_per_token + sliding_per_token)) ctx_cap
  else if Qle_bool full_per_token 0 then ctx_cap
  else Z.min (Qdiv_floor (budget - sliding_per_token * window_tokens) full_per_token) ctx_cap.

(** ** A model's geometry *)

(** [cfg.get(k)] where a number is asked for and zero counts as none *)
Definition number (k : string) (cfg : dict json) : option Z :=
  match Dict.get k cfg with Some (JInt z) => if (z =? 0)%Z then None else Some z | _ => None end.
Definition or_else {A} (a b : option A) : option A := if a is Some _ then a else b.
(** [x or ..], for a number that may be absent *)
Definition nonzero (z : option Z) : option Z := n ← z; if (n =? 0)%Z then None else Some n.
Definition layers (cfg : dict json) : option Z := or_else (number "num_hidden_layers" cfg) (number "num_layers" cfg).
Definition text (k : string) (cfg : dict json) : option string :=
  match Dict.get k cfg with Some (JStr s) => nonempty (Some s) | _ => None end.

(** [_resolve_text_config] *)
Definition _resolve_text_config (model_cfg : dict json) : dict json :=
  if layers model_cfg is Some _ then model_cfg
  else
    default model_cfg (head (omap (λ k, match Dict.get k model_cfg with
                                        | Some (JObj sub) => if layers sub is Some _ then Some sub else None
                                        | _ => None
                                        end)
      ["text_config"; "language_config"; "llm_config"; "language_model_config"]%string)).

Record MLAInfo : Type := mkMla {
  kv_lora_rank : Z;
  qk_rope_head_dim : Z;
  qk_nope_head_dim : Z;
  v_head_dim : Z;
  num_heads : Z;
}.

(** [_mla.kv_bytes_per_token] *)
Definition mla_kv_bytes_per_token (mla : MLAInfo) (dtype_bytes num_layers : Z) : Z :=
  (kv_lora_rank mla + qk_rope_head_dim mla) * dtype_bytes * num_layers.

(** [_resolve_mla] *)
Definition _resolve_mla (text_cfg : dict json) : option MLAInfo :=
  rank ← number "kv_lora_rank" text_cfg;
  rope ← number "qk_rope_head_dim" text_cfg;
  heads ← number "num_attention_heads" text_cfg;
  let nope := default 0%Z (number "qk_nope_head_dim" text_cfg) in
  Some (mkMla rank rope nope (default nope (number "v_head_dim" text_cfg)) heads).

(** [_DTYPE_BYTES], [_resolve_compute_dtype_bytes] and [_resolve_kv_dtype_bytes] *)
Definition _DTYPE_BYTES : dict Z :=
  [("float16", 2); ("half", 2); ("bfloat16", 2); ("float32", 4); ("float", 4); ("float8_e4m3fn", 1); ("float8_e5m2", 1)]%Z%string.
Definition _resolve_compute_dtype_bytes (text_cfg model_cfg : dict json) : Z :=
  let torch_dtype := default "float16"%string (or_else (text "torch_dtype" text_cfg) (text "torch_dtype" model_cfg)) in
  default 2%Z (Dict.get (lower torch_dtype) _DTYPE_BYTES).
Definition _resolve_kv_dtype_bytes (text_cfg model_cfg : dict json) (c : ModelConfig) : Z :=
  if Str.startswith (lower (default "auto"%string (nonempty (kv_cache_dtype (vllm_engine_kwargs c))))) "fp8" then 1%Z
  else _resolve_compute_dtype_bytes text_cfg model_cfg.

(** [_kv_bytes_per_token]: the bytes, and the longest context the model says it has *)
Definition _kv_bytes_per_token (text_cfg model_cfg : dict json) (c : ModelConfig) : option Z * option Z :=
  match layers text_cfg with
  | None => (None, None)
  | Some num_layers =>
      let kv_dtype_bytes := _resolve_kv_dtype_bytes text_cfg model_cfg c in
      let max_position_embeddings := or_else (number "max_position_embeddings" text_cfg) (number "max_position_embeddings" model_cfg) in
      match _resolve_mla text_cfg with
      | Some mla => (Some (mla_kv_bytes_per_token mla kv_dtype_bytes num_layers), max_position_embeddings)
      | None =>
          let heads := number "num_attention_heads" text_cfg in
          let head_dim :=
            match Dict.get "head_dim" text_cfg with
            | None | Some JNull => h ← number "hidden_size" text_cfg; n ← heads; (let d := (h / n)%Z in if (d =? 0)%Z then None else Some d)
            | Some _ => number "head_dim" text_cfg
            end in
          match or_else (number "num_key_value_heads" text_cfg) heads, head_dim with
          | Some kv, Some d => (Some (2 * kv * d * kv_dtype_bytes * num_layers)%Z, max_position_embeddings)
          | _, _ => (None, None)
          end
      end
  end.

(** ** Windows and other modalities *)

Fixpoint has_sub (p s : string) : bool :=
  Str.startswith s p || match s with String _ s => has_sub p s | EmptyString => false end.

(** [_resolve_sliding_window] *)
Definition _resolve_sliding_window (text_cfg : dict json) : option SlidingWindowInfo :=
  w ← number "sliding_window" text_cfg;
  if (if Dict.get "use_sliding_window" text_cfg is Some (JBool false) then true else false) then None
  else
    n_total ← layers text_cfg;
    let n_sliding :=
      match Dict.get "layer_types" text_cfg, number "sliding_window_pattern" text_cfg with
      | Some (JList ((_ :: _) as types)), _ =>
          Z.of_nat (length (List.filter (λ t, if t is JStr s then has_sub "sliding" s else false) types))
      | _, Some pattern => if (0 <? pattern)%Z then (n_total - n_total / pattern)%Z else n_total
      | _, None => n_total
      end in
    if (n_sliding <=? 0)%Z then None else Some (mkSliding (n_total - n_sliding) n_sliding n_total w).

(** [_is_multimodal] *)
Definition _is_multimodal (model_cfg : dict json) : bool :=
  existsb (λ k, match Dict.get k model_cfg with None | Some JNull => false | Some _ => true end)
    ["vision_config"; "audio_config"; "video_config"; "mm_processor_kwargs"]%string
  || let arch_blob := match Dict.get "architectures" model_cfg with
                      | Some (JList l) => lower (Str.join " " (omap (λ t, if t is JStr s then Some s else None) l))
                      | _ => ""%string
                      end in
     existsb (λ marker, has_sub marker arch_blob) ["forconditionalgeneration"; "vlm"; "multimodal"; "vision"; "audio"]%string.

(** [_estimate_mm_tokens_per_item] and [_recommended_mm_batched_tokens] *)
Definition _MULTIMODAL_BATCHED_TOKENS_FLOOR : Z := 8192.
Definition _estimate_mm_tokens_per_item (model_cfg : dict json) : option Z :=
  vision ← (match Dict.get "vision_config" model_cfg with Some (JObj d) => Some d | _ => None end);
  image_size ← number "image_size" vision;
  patch_size ← number "patch_size" vision;
  let patches_per_side := (image_size / patch_size)%Z in
  if (patches_per_side <=? 0)%Z then None else Some (patches_per_side * patches_per_side)%Z.
Definition _recommended_mm_batched_tokens (mm_tokens_per_item : option Z) : Z :=
  if mm_tokens_per_item is Some n then Z.max _MULTIMODAL_BATCHED_TOKENS_FLOOR (n * 2) else _MULTIMODAL_BATCHED_TOKENS_FLOOR.

(** ** Weights *)

(** [_estimate_weight_footprint]: the files of a model's directory with their sizes, unless it can't be listed, and an
    index file's total, zero where there is none *)
Definition summed (suffixes : list string) (files : list (string * Z)) : Z :=
  foldr (λ f n, (if existsb (λ x, ends_with x f.1) suffixes then f.2 else 0) + n)%Z 0%Z files.
Definition _estimate_weight_footprint (files : option (list (string * Z))) (index_total : string → Z) : Z :=
  match files with
  | None => 0%Z
  | Some files =>
      let safetensors := index_total "model.safetensors.index.json"%string in
      let directory_total := summed [".safetensors"]%string files in
      if negb (safetensors =? 0)%Z || negb (directory_total =? 0)%Z then Z.max safetensors directory_total
      else
        let total := index_total "pytorch_model.bin.index.json"%string in
        if negb (total =? 0)%Z then total else summed [".bin"; ".pt"]%string files
  end.

(** ** Hybrid models *)

Definition _DEFAULT_BLOCK_SIZE : Z := 16.
Definition _MIN_MAX_NUM_SEQS : Z := 8.
Definition aligned (tokens : Z) : Z := (tokens / _DEFAULT_BLOCK_SIZE * _DEFAULT_BLOCK_SIZE)%Z.

Record MambaStateInfo : Type := mkMamba {
  per_seq_state_bytes : Z;
  n_state_layers : Z;
  n_full_attention_layers : Z;
  m_total_layers : Z;
  default_max_num_seqs : Z;
}.

(** [_correct_kv_for_hybrid] *)
Definition _correct_kv_for_hybrid (kv_per_token : Q) (mamba : MambaStateInfo) : Q :=
  if (m_total_layers mamba <=? 0)%Z then kv_per_token
  else kv_per_token * Zq (n_full_attention_layers mamba) / Zq (m_total_layers mamba).

(** [fit_len], inside [_apply_hybrid_fit] *)
Definition fit_len (kv_per_token : Q) (target_len : Z) (budget : Q) : Z :=
  let tokens := if Qlt_bool 0 kv_per_token then Qdiv_floor budget kv_per_token else 0%Z in
  if (target_len =? 0)%Z then aligned tokens else Z.min (aligned tokens) target_len.

(** [_apply_hybrid_fit]: the context length, and the number of sequences where it is not the user's; no length asked for
    is zero *)
Definition _apply_hybrid_fit (kv_pool : Q) (per_seq_state : Z) (kv_per_token : Q) (target_len : Z)
    (user_max_num_seqs : option Z) (default_max_num_seqs : Z) : option (Z * option Z) :=
  match user_max_num_seqs with
  | Some user =>
      let budget := kv_pool - Zq (per_seq_state * user) in
      let suggested := if Qlt_bool 0 budget then fit_len kv_per_token target_len budget else 0%Z in
      if (suggested <? _DEFAULT_BLOCK_SIZE)%Z then None else Some (suggested, None)
  | None =>
      let budget_at_floor := kv_pool - Zq (per_seq_state * _MIN_MAX_NUM_SEQS) in
      if Qle_bool budget_at_floor 0 then None
      else
        chosen_len ←
          (if negb (target_len =? 0)%Z && Qle_bool (Zq target_len * kv_per_token) budget_at_floor then Some target_len
           else let l := fit_len kv_per_token target_len budget_at_floor in
                if (l <? _DEFAULT_BLOCK_SIZE)%Z then None else Some l);
        let leftover := budget_at_floor - Zq chosen_len * kv_per_token in
        let extra := if (0 <? per_seq_state)%Z then Qdiv_floor leftover (Zq per_seq_state) else 0%Z in
        Some (chosen_len, Some (Z.min default_max_num_seqs (_MIN_MAX_NUM_SEQS + Z.max extra 0)))
  end.

(** ** A CPU's memory *)

Definition _CPU_RAM_UTILIZATION : Q := 8 # 10.
Definition _OVERHEAD_WEIGHT_FRACTION : Q := 14 # 100.
Definition _CPU_OVERHEAD_FIXED_BYTES : Z := 2 * 1024 ^ 3.
Definition _CPU_KV_SEQUENCES : Z := 4.
Definition _UNKNOWN_CONTEXT_LENGTH_CAP : Z := 32768.

(** What the weights take: their bytes, the overhead and the fixed part *)
Definition weights_bytes (weight_bytes : Z) : Q :=
  Zq weight_bytes + _OVERHEAD_WEIGHT_FRACTION * Zq weight_bytes + Zq _CPU_OVERHEAD_FIXED_BYTES.
Definition kv_budget_of (hw : HardwareProfile) (weight_bytes : Z) : Q :=
  Zq (sizing_ram_bytes hw) * _CPU_RAM_UTILIZATION - weights_bytes weight_bytes.

(** The bytes besides the weights that [_recommend_cpu_auto_gmu] reserves, for a model that is not hybrid *)
Definition plain_kv (kv_budget kv_per_token : Q) (ctx_cap : Z) (sliding : option SlidingWindowInfo) : option Q :=
  let max_tokens :=
    if sliding is Some s then fit_len_with_sliding kv_budget kv_per_token s ctx_cap else Qdiv_floor kv_budget kv_per_token in
  let suggested := Z.min (aligned max_tokens) ctx_cap in
  if (suggested <? _DEFAULT_BLOCK_SIZE)%Z then None
  else Some (Qmin kv_budget (Zq _CPU_KV_SEQUENCES * seq_kv_bytes kv_per_token sliding suggested)).

(** Those of [_recommend_cpu_auto_gmu_hybrid], with the number of sequences if it is recommended *)
Definition hybrid_kv (kv_budget kv_per_token : Q) (ctx_cap : Z) (mamba : MambaStateInfo) (v : VllmEngineConfig)
    : option (Q * option Z) :=
  fit ← _apply_hybrid_fit kv_budget (per_seq_state_bytes mamba) kv_per_token (default ctx_cap (nonzero (max_model_len v))) (max_num_seqs v)
          (default_max_num_seqs mamba);
  let '(chosen_len, seqs) := fit in
  let user := default _MIN_MAX_NUM_SEQS (nonzero (max_num_seqs v)) in
  let state_bytes := Zq (per_seq_state_bytes mamba * default user seqs) in
  let attn_kv := Qmin (kv_budget - state_bytes) (Zq _CPU_KV_SEQUENCES * kv_per_token * Zq chosen_len) in
  Some (state_bytes + Qmax attn_kv 0, seqs).

(** The bytes that a CPU deployment is to reserve *)
Definition cpu_reservation (hw : HardwareProfile) (v : VllmEngineConfig) (kv_per_token : Q) (weight_bytes ctx_cap : Z)
    (mamba : option MambaStateInfo) (sliding : option SlidingWindowInfo) : option (Q * option Z) :=
  let kv_budget := kv_budget_of hw weight_bytes in
  if Qle_bool kv_budget 0 then None
  else
    kv ← match mamba with
         | Some m => hybrid_kv kv_budget kv_per_token ctx_cap m v
         | None => (λ b, (b, None)) <$> plain_kv kv_budget kv_per_token ctx_cap sliding
         end;
    Some (weights_bytes weight_bytes + kv.1, kv.2).

(** ** Recommendations *)

Definition _MLA_WORKSPACE_ROW_CAP : Z := 65536.
Definition _VLLM_DEFAULT_MAX_NUM_SEQS : Z := 128.
Definition _MLA_WORKSPACE_SAFETY_MARGIN : Q := 11 # 10.

(** [_mla_chunked_prefill_workspace_bytes] *)
Definition mla_workspace_bytes (text_cfg : dict json) (v : VllmEngineConfig) (dtype_bytes : Z) (mla : MLAInfo) (tp_size : Z) : Z :=
  let len := default _UNKNOWN_CONTEXT_LENGTH_CAP (or_else (nonzero (max_model_len v)) (number "max_position_embeddings" text_cfg)) in
  let pages := (default _VLLM_DEFAULT_MAX_NUM_SEQS (nonzero (max_num_seqs v)) * _DEFAULT_BLOCK_SIZE)%Z in
  let rows := Z.max (Z.min (Z.max (8 * len) (4 * pages)) _MLA_WORKSPACE_ROW_CAP) pages in
  let local_heads := Z.max (num_heads mla / Z.max tp_size 1) 1 in
  (rows * local_heads * (qk_nope_head_dim mla + v_head_dim mla) * dtype_bytes)%Z.

(** [_cpu_gmu] *)
Definition _cpu_gmu (reservation : Q) (denom_ram : Z) : Q :=
  Qmin (Qmax (round_to 3 (reservation / Zq denom_ram)) (1 # 100)) (9 # 10).

(** [_mla_gpu_memory_utilization]; [None] is the division by a GPU without memory. *)
Definition mla_gpu_memory_utilization (c : ModelConfig) (hw : HardwareProfile) (text_cfg model_cfg : dict json) : option (option Q) :=
  let v := vllm_engine_kwargs c in
  match _resolve_mla text_cfg, map sizing_total_bytes (gpus hw) with
  | Some mla, b :: bs =>
      if bool_decide (enforce_eager v = Some true) then Some None
      else
        let gpu_basis := foldr Z.min b bs in
        let workspace_bytes := mla_workspace_bytes text_cfg v (_resolve_compute_dtype_bytes text_cfg model_cfg) mla
                                 (Z.max (tensor_parallel_size v) 1) in
        if (gpu_basis =? 0)%Z then None
        else Some (Some (round_to 4 (Qmax (resolve_gpu_memory_utilization c None
                                     - _MLA_WORKSPACE_SAFETY_MARGIN * Zq workspace_bytes / Zq gpu_basis) (1 # 100))))
  | _, _ => Some None
  end.

(** [_recommend_gpu], for a model whose [config.json] was read and what vLLM says of it *)
Definition recommend_gpu (c : ModelConfig) (hw : HardwareProfile) (model_cfg : dict json) (mamba : option MambaStateInfo) : estimate :=
  let text_cfg := _resolve_text_config model_cfg in
  match mla_gpu_memory_utilization c hw text_cfg model_cfg with
  | None => Fails
  | Some gpu_util =>
      Recommends ((if mamba is Some _ then [("max_num_seqs"%string, JInt _MIN_MAX_NUM_SEQS)] else [])
        ++ (if _is_multimodal model_cfg
            then [("max_num_batched_tokens"%string, JInt (_recommended_mm_batched_tokens (_estimate_mm_tokens_per_item model_cfg)))] else [])
        ++ (if gpu_util is Some u then [("gpu_memory_utilization"%string, JFloat u)] else []))
  end.

(** [_recommend_cpu] *)
Definition recommend_cpu (c : ModelConfig) (hw : HardwareProfile) (model_cfg : dict json) (weight_bytes : Z)
    (mamba : option MambaStateInfo) : estimate :=
  let text_cfg := _resolve_text_config model_cfg in
  match _kv_bytes_per_token text_cfg model_cfg c with
  | (None, _) => Recommends []
  | (Some kv, len) =>
      if (ram_bytes hw <=? 0)%Z then Recommends []
      else
        let kv_per_token := if mamba is Some m then _correct_kv_for_hybrid (Zq kv) m else Zq kv in
        let sliding := if mamba is Some _ then None else _resolve_sliding_window text_cfg in
        match cpu_reservation hw (vllm_engine_kwargs c) kv_per_token weight_bytes (default _UNKNOWN_CONTEXT_LENGTH_CAP len) mamba sliding with
        | None => Recommends []
        | Some (reservation, seqs) =>
            Recommends ((if seqs is Some n then [("max_num_seqs"%string, JInt n)] else [])
                        ++ [("gpu_memory_utilization"%string, JFloat (_cpu_gmu reservation (ram_bytes hw)))])
        end
  end.

(** [VllmPreflight.recommend] *)
Definition recommend_vllm (c : ModelConfig) (hw : HardwareProfile) (model_cfg : option (dict json)) (weight_bytes : Z)
    (mamba : option MambaStateInfo) : estimate :=
  match model_cfg with
  | None => Recommends []
  | Some model_cfg =>
      if Qeq_bool (num_gpus c) 0 then recommend_cpu c hw model_cfg weight_bytes mamba else recommend_gpu c hw model_cfg mamba
  end.
(** ** What fits *)

Module SizingFacts.

Lemma floor_fits x y : 0 < y → Zq (Qdiv_floor x y) * y <= x.
Proof.
  intros Hy. pose proof (Qfloor_le (x / y)) as Hf. apply (Qmult_le_r _ _ y) in Hf; [|done].
  assert (x / y * y == x) as E by (field; lra). unfold Zq, Qdiv_floor. lra.
Qed.

Lemma floor_most x y : 0 < y → x < Zq (Qdiv_floor x y + 1) * y.
Proof.
  intros Hy. pose proof (Qlt_floor (x / y)) as Hf. apply (Qmult_lt_r _ _ y) in Hf; [|done].
  assert (x / y * y == x) as E by (field; lra). unfold Zq, Qdiv_floor. lra.
Qed.

Lemma Zq_le a b : (a ≤ b)%Z → Zq a <= Zq b.
Proof. unfold Zq. by rewrite <-Zle_Qle. Qed.
Lemma Zq_lt a b : (a < b)%Z → Zq a < Zq b.
Proof. unfold Zq. by rewrite <-Zlt_Qlt. Qed.
Lemma Zq_lt_inv a b : Zq a < Zq b → (a < b)%Z.
Proof. unfold Zq. by rewrite <-Zlt_Qlt. Qed.
Lemma Zq_plus a b : Zq (a + b) == Zq a + Zq b.
Proof. unfold Zq. by rewrite inject_Z_plus. Qed.
Lemma Zq_mult a b : Zq (a * b) == Zq a * Zq b.
Proof. unfold Zq. by rewrite inject_Z_mult. Qed.

(** The layers of a model with a sliding window *)
Definition layers_ok (s : SlidingWindowInfo) : Prop :=
  (0 ≤ n_full_layers s ∧ 0 < n_sliding_layers s ∧ n_total_layers s = n_full_layers s + n_sliding_layers s)%Z.

Lemma seq_kv_split kv s len : let per_layer := kv / Zq (n_total_layers s) in
  seq_kv_bytes kv (Some s) len ==
    per_layer * Zq (n_full_layers s) * Zq len + per_layer * Zq (n_sliding_layers s) * Zq (Z.min (window s + _WINDOW_SLACK_TOKENS) len).
Proof. cbn. rewrite Zq_plus, !Zq_mult. ring. Qed.

(** One length and the next, against a budget: with [f] bytes a token, and [sl] more up to [W] tokens *)
Lemma window_fit f sl budget W cap : 0 <= f → 0 < sl → 0 <= budget → (0 ≤ W)%Z → (0 ≤ cap)%Z →
  let bytes n := f * Zq n + sl * Zq (Z.min W n) in
  let L := if Qlt_bool budget ((f + sl) * Zq W) then Z.min (Qdiv_floor budget (f + sl)) cap
           else if Qle_bool f 0 then cap else Z.min (Qdiv_floor (budget - sl * Zq W) f) cap in
  (0 ≤ L ≤ cap)%Z ∧ bytes L <= budget ∧ (L = cap ∨ budget < bytes (L + 1)%Z).
Proof.
  intros Hf Hsl Hb HW Hcap bytes. unfold Qlt_bool. destruct (Qle_bool _ budget) eqn:E1; cbn [negb].
  - apply Qle_bool_iff in E1. destruct (Qle_bool f 0) eqn:E2.
    + apply Qle_bool_iff in E2. split; [lia|]. split; [|by left]. unfold bytes.
      assert (Zq (Z.min W cap) <= Zq W) as Hm by (apply Zq_le; lia). assert (f == 0) as E by (by apply Qle_antisym). rewrite E in E1 |- *. nra.
    + assert (0 < f) as Hf0. { apply Qnot_le_lt. intros Hle. apply Qle_bool_iff in Hle. congruence. }
      set (x := budget - sl * Zq W). pose proof (floor_fits x f Hf0) as H1. pose proof (floor_most x f Hf0) as H2.
      set (q := Qdiv_floor x f) in *. assert (W ≤ q)%Z as HWq.
      { apply Z.lt_succ_r, Zq_lt_inv. unfold Z.succ. assert (f * Zq W <= x) by (unfold x; lra). nra. }
      split; [lia|]. unfold bytes. rewrite Zq_plus in H2. split.
      * assert (Zq (Z.min W (Z.min q cap)) <= Zq W) as Ha by (apply Zq_le; lia).
        assert (Zq (Z.min q cap) <= Zq q) as Hc by (apply Zq_le; lia). unfold x in *. nra.
      * destruct (decide (cap ≤ q)%Z); [left; lia|right]. rewrite (Z.min_l q cap), (Z.min_l W (q + 1)) by lia.
        rewrite Zq_plus. unfold x in *. nra.
  - assert (budget < (f + sl) * Zq W) as Hlt. { apply Qnot_le_lt. intros Hle. apply Qle_bool_iff in Hle. congruence. }
    assert (0 < f + sl) as Hp by lra. pose proof (floor_fits budget _ Hp) as H1. pose proof (floor_most budget _ Hp) as H2.
    set (q := Qdiv_floor budget (f + sl)) in *.
    assert (q < W)%Z as Hq. { apply Zq_lt_inv. nra. }
    assert (0 ≤ q)%Z as Hq0. { apply Z.lt_succ_r, Zq_lt_inv. unfold Z.succ. change (Zq 0) with 0. nra. }
    split; [lia|]. unfold bytes. rewrite Zq_plus in H2. split.
    + rewrite (Z.min_r W (Z.min q cap)) by lia. assert (Zq (Z.min q cap) <= Zq q) as Hc by (apply Zq_le; lia). nra.
    + destruct (decide (cap ≤ q)%Z); [left; lia|right]. rewrite (Z.min_l q cap), (Z.min_r W (q + 1)), Zq_plus by lia. lra.
Qed.

Lemma sliding_fit s kv budget cap : layers_ok s → 0 < kv → 0 <= budget → (0 ≤ window s)%Z → (0 ≤ cap)%Z →
  let len := fit_len_with_sliding budget kv s cap in
  (0 ≤ len ≤ cap)%Z ∧ seq_kv_bytes kv (Some s) len <= budget ∧ (len = cap ∨ budget < seq_kv_bytes kv (Some s) (len + 1)).
Proof.
  intros (Hn & Hs & Ht) Hkv Hb Hw Hcap. unfold fit_len_with_sliding. rewrite !seq_kv_split. cbn zeta.
  set (pl := kv / Zq (n_total_layers s)). assert (0 < pl) as Hpl.
  { apply Qlt_shift_div_l; [change 0 with (Zq 0); apply Zq_lt; lia|lra]. }
  apply window_fit; try lia; try done.
  - assert (Zq 0 <= Zq (n_full_layers s)) by (apply Zq_le; lia). change (Zq 0) with 0 in *. nra.
  - assert (Zq 0 < Zq (n_sliding_layers s)) by (apply Zq_lt; lia). change (Zq 0) with 0 in *. nra.
  - unfold _WINDOW_SLACK_TOKENS. lia.
Qed.

Lemma aligned_le n : (aligned n ≤ n)%Z.
Proof. unfold aligned, _DEFAULT_BLOCK_SIZE. pose proof (Z.mul_div_le n 16 ltac:(lia)). lia. Qed.

Lemma fit_len_fits kv target b : 0 <= kv → 0 <= b → Zq (fit_len kv target b) * kv <= b.
Proof.
  intros Hkv Hb. unfold fit_len. set (tokens := if Qlt_bool 0 kv then _ else _).
  assert (Zq tokens * kv <= b) as Ht.
  { unfold tokens, Qlt_bool. destruct (Qle_bool kv 0) eqn:E; cbn [negb].
    - apply Qle_bool_iff in E. change (Zq 0) with 0. lra.
    - apply floor_fits, Qnot_le_lt. intros Hle. apply Qle_bool_iff in Hle. congruence. }
  assert ((if (target =? 0)%Z then aligned tokens else Z.min (aligned tokens) target) ≤ tokens)%Z as Hle.
  { pose proof (aligned_le tokens). destruct (target =? 0)%Z; lia. }
  apply Zq_le in Hle. nra.
Qed.

Lemma hybrid_fit pool st kv target user dflt len seqs :
  _apply_hybrid_fit pool st kv target user dflt = Some (len, seqs) → 0 <= kv → (0 ≤ st)%Z → (0 ≤ target)%Z →
  Zq (st * default (default 0%Z user) seqs) + Zq len * kv <= pool ∧ (0 ≤ len)%Z ∧ (user = None ↔ is_Some seqs).
Proof.
  unfold _apply_hybrid_fit. intros Hfit Hkv Hst Ht. destruct user as [u|]; cbn [default].
  - unfold Qlt_bool in Hfit. destruct (Qle_bool _ 0) eqn:E in Hfit; cbn [negb] in Hfit; [done|].
    destruct (fit_len kv target _ <? _)%Z eqn:El; [done|]. injection Hfit as <- <-.
    assert (0 < pool - Zq (st * u)) as Hb by (apply Qnot_le_lt; intros Hle; apply Qle_bool_iff in Hle; congruence).
    pose proof (fit_len_fits kv target (pool - Zq (st * u)) Hkv ltac:(lra)) as Hf. apply Z.ltb_ge in El. unfold _DEFAULT_BLOCK_SIZE in El.
    cbn. split; [lra|]. split; [lia|]. by split; [|intros []].
  - destruct (Qle_bool _ 0) eqn:E in Hfit; [done|].
    set (b := pool - Zq (st * _MIN_MAX_NUM_SEQS)) in *.
    assert (0 < b) as Hb by (apply Qnot_le_lt; intros Hle; apply Qle_bool_iff in Hle; congruence).
    apply bind_Some in Hfit as (l & Hl & [= <- <-]).
    assert (Zq l * kv <= b ∧ (0 ≤ l)%Z) as [Hlb Hl0].
    { destruct (negb _ && Qle_bool _ b) eqn:Ec in Hl.
      - injection Hl as <-. apply andb_true_iff in Ec as [_ Ec]. split; [by apply Qle_bool_iff in Ec|done].
      - destruct (_ <? _)%Z eqn:El in Hl; [done|]. injection Hl as <-. apply Z.ltb_ge in El. unfold _DEFAULT_BLOCK_SIZE in El.
        split; [apply fit_len_fits; lra|lia]. }
    cbn [default]. split; [|split; [done|by split]].
    set (x := if (0 <? st)%Z then _ else _).
    assert (Zq (st * Z.min dflt (_MIN_MAX_NUM_SEQS + Z.max x 0)) <= Zq (st * _MIN_MAX_NUM_SEQS) + Zq (st * Z.max x 0)) as Hn.
    { rewrite <-Zq_plus. apply Zq_le. nia. }
    assert (Zq (st * Z.max x 0) <= b - Zq l * kv) as Hx.
    { destruct (Z.le_gt_cases x 0) as [Hx|Hx].
      - rewrite Z.max_r, Z.mul_0_r by done. change (Zq 0) with 0. lra.
      - rewrite Z.max_l by lia. unfold x in *. destruct (0 <? st)%Z eqn:Es; [|lia]. apply Z.ltb_lt in Es.
        rewrite Zq_mult, Qmult_comm. apply floor_fits. by apply (Zq_lt 0). }
    clearbody x. unfold b, id in *. lra.
Qed.
(** The bytes reserved are within their part of the free memory. *)
Lemma reservation_fits hw v kv_per_token weight_bytes ctx_cap mamba sliding reservation seqs :
  cpu_reservation hw v kv_per_token weight_bytes ctx_cap mamba sliding = Some (reservation, seqs) →
  0 <= kv_per_token → (0 ≤ ctx_cap)%Z → (∀ n, max_model_len v = Some n → 0 ≤ n)%Z → max_num_seqs v ≠ Some 0%Z →
  (∀ m, mamba = Some m → 0 ≤ per_seq_state_bytes m)%Z →
  reservation <= _CPU_RAM_UTILIZATION * Zq (sizing_ram_bytes hw).
Proof.
  unfold cpu_reservation. intros Hr Hkv Hcap Hlen Hseqs Hm.
  set (b := kv_budget_of hw weight_bytes) in *. destruct (Qle_bool b 0) eqn:Eb; [done|].
  apply bind_Some in Hr as ((kv, n) & Hkvs & [= <- _]). cbn [fst].
  enough (kv <= b) as Hkb by (unfold b, kv_budget_of in Hkb; lra).
  destruct mamba as [m|].
  - unfold hybrid_kv in Hkvs. apply bind_Some in Hkvs as ((len, s) & Hfit & [= <- <-]).
    assert (0 ≤ default ctx_cap (nonzero (max_model_len v)))%Z as Ht.
    { destruct (max_model_len v) as [l|] eqn:E; cbn; [|done]. destruct (l =? 0)%Z; cbn; auto. }
    destruct (hybrid_fit _ _ _ _ _ _ _ _ Hfit Hkv (Hm _ eq_refl) Ht) as (Hf & Hl & Hs).
    set (state := Zq (per_seq_state_bytes m * _)).
    assert (state <= b - Zq len * kv_per_token) as Hst.
    { unfold state. destruct s as [s|]; cbn [from_option] in *; unfold id in *; [lra|]. destruct (max_num_seqs v) as [u|] eqn:E.
      - cbn [from_option] in Hf. unfold id in Hf. cbn. destruct (u =? 0)%Z eqn:Eu; [|cbn; unfold id; lra]. apply Z.eqb_eq in Eu. congruence.
      - by destruct (proj1 Hs eq_refl). }
    assert (0 <= Zq len) as Hl0 by (by apply (Zq_le 0)).
    apply (Qle_trans _ (state + (b - state))); [|lra]. apply Qplus_le_r, Q.max_lub; [apply Q.le_min_l|]. nra.
  - destruct (plain_kv _ _ _ _) as [x|] eqn:Ep; [|done]. injection Hkvs as <- _. unfold plain_kv in Ep.
    destruct (_ <? _)%Z; [done|]. injection Ep as <-. apply Q.le_min_l.
Qed.
End SizingFacts.

Module SizingProperties.
Import SizingFacts.

(** C28: A context length is the longest that fits: with some layers that keep everything and some that keep a window, the
    cache of one sequence of that length is within the budget, and either it is the most the model has, or one token
    more is beyond the budget. *)
Theorem longest_context_fits sliding kv_per_token budget ctx_cap :
  layers_ok sliding → 0 < kv_per_token → 0 <= budget → (0 ≤ window sliding)%Z → (0 ≤ ctx_cap)%Z →
  let len := fit_len_with_sliding budget kv_per_token sliding ctx_cap in
  (0 ≤ len ≤ ctx_cap)%Z ∧ seq_kv_bytes kv_per_token (Some sliding) len <= budget ∧
  (len = ctx_cap ∨ budget < seq_kv_bytes kv_per_token (Some sliding) (len + 1)).
Proof. apply sliding_fit. Qed.

(** The numbers of a model's [config.json] and of its hybrid layers are not negative. *)
Definition sane (model_cfg : dict json) (mamba : option MambaStateInfo) : Prop :=
  (∀ k n, number k model_cfg = Some n ∨ number k (_resolve_text_config model_cfg) = Some n → 0 ≤ n)%Z ∧
  ∀ m, mamba = Some m → (0 ≤ per_seq_state_bytes m ∧ 0 ≤ n_full_attention_layers m)%Z.

Lemma kv_sane c model_cfg kv len mamba :
  sane model_cfg mamba → _kv_bytes_per_token (_resolve_text_config model_cfg) model_cfg c = (Some kv, len) →
  (0 ≤ kv ∧ 0 ≤ default _UNKNOWN_CONTEXT_LENGTH_CAP len)%Z.
Proof.
  intros [Hn _]. unfold _kv_bytes_per_token. set (t := _resolve_text_config model_cfg) in *.
  assert (∀ k n, number k t = Some n → 0 ≤ n)%Z as Ht by eauto.
  assert (∀ a b, (∀ n, a = Some n → 0 ≤ n)%Z → (∀ n, b = Some n → 0 ≤ n)%Z → ∀ n, or_else a b = Some n → 0 ≤ n)%Z as Hor
    by (intros [a|] b Ha Hb n E; cbn in E; eauto).
  assert (0 ≤ default _UNKNOWN_CONTEXT_LENGTH_CAP
    (or_else (number "max_position_embeddings" t) (number "max_position_embeddings" model_cfg)))%Z as Hlen.
  { destruct (or_else _ _) as [n|] eqn:E; [|done]. eapply Hor; [..|exact E]; eauto. }
  assert (0 ≤ _resolve_kv_dtype_bytes t model_cfg c)%Z as Hb.
  { unfold _resolve_kv_dtype_bytes. case_match; [done|]. unfold _resolve_compute_dtype_bytes. set (x := lower _).
    destruct (Dict.get x _DTYPE_BYTES) as [n|] eqn:E; [|done]. apply Dict.get_Some_elem in E.
    assert (Forall (λ kn : string * Z, 0 ≤ kn.2)%Z _DTYPE_BYTES) as Hd by (repeat (apply Forall_cons; split; [done|]); apply Forall_nil_2).
    exact (proj1 (Forall_forall _ _) Hd _ E). }
  destruct (layers t) as [n|] eqn:El; [|done]. assert (0 ≤ n)%Z as Hl by (eapply Hor; [..|exact El]; eauto).
  destruct (_resolve_mla t) as [mla|] eqn:Em.
  - unfold _resolve_mla in Em. apply bind_Some in Em as (a & E1 & (b & E2 & (h & _ & [= <-])%bind_Some)%bind_Some).
    intros [= <- <-]. split; [|done]. unfold mla_kv_bytes_per_token. cbn.
    pose proof (Ht _ _ E1). pose proof (Ht _ _ E2). nia.
  - destruct (or_else (number "num_key_value_heads" t) _) as [heads|] eqn:Eh; [|done].
    assert (0 ≤ heads)%Z as Hh by (eapply Hor; [..|exact Eh]; eauto).
    match goal with |- (match ?x with Some d => _ | None => _ end = _ → _) => destruct x as [d|] eqn:Ed end; [|done]. intros [= <- <-]. split; [|done].
    assert (0 ≤ d)%Z; [|nia]. clear - Ht Ed.
    assert (∀ d, (h ← number "hidden_size" t; n ← number "num_attention_heads" t;
      let d := (h / n)%Z in if (d =? 0)%Z then None else Some d) = Some d → 0 ≤ d)%Z as Hdiv.
    { intros d' E. apply bind_Some in E as (h & E1 & (k & E2 & E)%bind_Some). cbv zeta in E. case_match; [done|]. injection E as <-.
      apply Z_div_nonneg_nonneg; eauto. }
    destruct (Dict.get "head_dim" t) as [[]|] eqn:E; eauto.
Qed.

(** C27: What a CPU deployment is told to reserve of its node's memory fits in what is free. The share it is told is at most
    nine tenths; and it is the smallest one that is ever told, one hundredth, or it comes to at most four fifths of the free
    memory, but for the rounding of the share to three digits (half a thousandth of the node's memory): the weights with
    their overhead, the state that a hybrid model keeps for each sequence, and the cache together. A share is told only when
    the weights with their overhead leave some of these four fifths. Whatever the model, its context and the limits the user
    set, unless no sequence at all is allowed; the numbers of the model's config are not negative. *)
Theorem cpu_memory_fits c hw model_cfg weight_bytes mamba rec gmu :
  recommend_cpu c hw model_cfg weight_bytes mamba = Recommends rec →
  Dict.get "gpu_memory_utilization" rec = Some (JFloat gmu) →
  sane model_cfg mamba → (∀ n, max_model_len (vllm_engine_kwargs c) = Some n → 0 ≤ n)%Z →
  max_num_seqs (vllm_engine_kwargs c) ≠ Some 0%Z →
  gmu <= 9 # 10 ∧ weights_bytes weight_bytes < _CPU_RAM_UTILIZATION * Zq (sizing_ram_bytes hw) ∧
  (gmu == 1 # 100 ∨ gmu * Zq (ram_bytes hw) <= _CPU_RAM_UTILIZATION * Zq (sizing_ram_bytes hw) + Zq (ram_bytes hw) / Zq 2000).
Proof.
  intros Hrec Hget Hsane Hlen Hseqs. unfold recommend_cpu in Hrec.
  destruct (_kv_bytes_per_token _ _ _) as [[kv|] len] eqn:Ekv; [|by injection Hrec as <-].
  destruct (kv_sane _ _ _ _ _ Hsane Ekv) as [Hkv Hcap].
  destruct (ram_bytes hw <=? 0)%Z eqn:Eram; [by injection Hrec as <-|]. apply Z.leb_gt in Eram.
  set (kvq := if mamba is Some m then _correct_kv_for_hybrid (Zq kv) m else Zq kv) in *.
  assert (0 <= kvq) as Hkvq.
  { apply Zq_le in Hkv. change (Zq 0) with 0 in Hkv. unfold kvq. destruct mamba as [m|]; [|done].
    destruct (proj2 Hsane m eq_refl) as [_ Hf]. unfold _correct_kv_for_hybrid. destruct (_ <=? 0)%Z eqn:E; [done|].
    apply Z.leb_gt in E. apply Qle_shift_div_l; [by apply (Zq_lt 0)|]. apply (Zq_le 0) in Hf. change (Zq 0) with 0 in Hf. nra. }
  destruct (cpu_reservation _ _ _ _ _ _ _) as [[reservation seqs]|] eqn:Er; [|by injection Hrec as <-].
  assert (gmu = _cpu_gmu reservation (ram_bytes hw)) as ->.
  { injection Hrec as <-. destruct seqs; cbn in Hget; by injection Hget. }
  pose proof (reservation_fits _ _ _ _ _ _ _ _ _ Er Hkvq Hcap Hlen Hseqs (λ m Em, proj1 (proj2 Hsane m Em))) as Hfits.
  assert (weights_bytes weight_bytes < _CPU_RAM_UTILIZATION * Zq (sizing_ram_bytes hw)) as Hw.
  { unfold cpu_reservation in Er. destruct (Qle_bool (kv_budget_of hw weight_bytes) 0) eqn:Eb; [done|].
    assert (0 < kv_budget_of hw weight_bytes) as Hb by (apply Qnot_le_lt; intros Hle; apply Qle_bool_iff in Hle; congruence).
    unfold kv_budget_of in Hb. lra. }
  unfold _cpu_gmu. set (x := reservation / Zq (ram_bytes hw)).
  assert (x * Zq (ram_bytes hw) == reservation) as Hx.
  { assert (0 < Zq (ram_bytes hw)) by by apply (Zq_lt 0). unfold x. field. lra. }
  pose proof (round_to_close 3 x) as [_ Hc]%Qabs_Qle_condition. set (g := round_to 3 x) in *.
  change (1 # (2 * shift 3)) with (1 # 2000) in Hc. assert (0 < Zq (ram_bytes hw)) as Hr0 by by apply (Zq_lt 0).
  split_and!; [apply Q.le_min_r|done|].
  destruct (Qlt_le_dec (1 # 100) g) as [Hg|Hg]; [right|left].
  - rewrite (Q.max_l g) by lra. assert (Qmin g (9 # 10) <= g) as Hm by apply Q.le_min_l.
    assert (Zq (ram_bytes hw) / Zq 2000 == Zq (ram_bytes hw) * (1 # 2000)) as -> by (unfold Zq; field). nra.
  - rewrite (Q.max_r g) by done. apply Q.min_l. lra.
Qed.
End SizingProperties.

Module SizingExamples.
Import SizingFacts SizingProperties.

(** Five layers of a window to one that keeps all, and a machine with 32 GiB of which half is free *)
Definition mostly_sliding : SlidingWindowInfo := mkSliding 4 20 24 1024.
Definition machine : HardwareProfile := mkHardware [] (32 * 1024 ^ 3) (16 * 1024 ^ 3).
Definition hybrid : MambaStateInfo := mkMamba 50000000 20 4 24 256.

Lemma longest_context_fits_witness :
  let len := fit_len_with_sliding (Zq (2 * 1024 ^ 3)) (Zq 98304) mostly_sliding 131072 in
  len = 125872%Z ∧ seq_kv_bytes (Zq 98304) (Some mostly_sliding) len <= Zq (2 * 1024 ^ 3) ∧
  (len = 131072%Z ∨ Zq (2 * 1024 ^ 3) < seq_kv_bytes (Zq 98304) (Some mostly_sliding) (len + 1)).
Proof.
  intros len. split; [vm_compute; reflexivity|].
  apply (longest_context_fits mostly_sliding (Zq 98304) (Zq (2 * 1024 ^ 3)) 131072); try (vm_compute; intuition discriminate).
Defined.

(** A hybrid model's config, on that machine *)
Definition hybrid_cfg : dict json :=
  [("num_hidden_layers", JInt 24); ("num_attention_heads", JInt 16); ("num_key_value_heads", JInt 4); ("hidden_size", JInt 2048);
   ("max_position_embeddings", JInt 32768)]%string.
Definition cpu_config : ModelConfig :=
  mkModel "m" (Some "org/m"%string) generate vllm (inject_Z 0) (inject_Z 4) 1 None None default_vllm None None None None
    ["name"; "model"; "usecase"; "loader"]%string.

Lemma cpu_memory_fits_witness :
  recommend_cpu cpu_config machine hybrid_cfg (4 * 1024 ^ 3) (Some hybrid) =
    Recommends [("max_num_seqs", JInt 128); ("gpu_memory_utilization", JFloat (400 # 1000))]%string ∧
  ((400 # 1000 == 1 # 100) ∨
   (400 # 1000) * Zq (ram_bytes machine) <= _CPU_RAM_UTILIZATION * Zq (sizing_ram_bytes machine) + Zq (ram_bytes machine) / Zq 2000).
Proof.
  assert (recommend_cpu cpu_config machine hybrid_cfg (4 * 1024 ^ 3) (Some hybrid) =
    Recommends [("max_num_seqs", JInt 128); ("gpu_memory_utilization", JFloat (400 # 1000))]%string) as E
    by (vm_compute; reflexivity).
  split; [exact E|].
  assert (sane hybrid_cfg (Some hybrid)) as Hsane.
  { split; [|intros m [= <-]; split; vm_compute; discriminate]. intros k n.
    assert (_resolve_text_config hybrid_cfg = hybrid_cfg) as -> by (vm_compute; reflexivity).
    assert (number k hybrid_cfg = Some n → 0 ≤ n)%Z as Hn; [|by intros [|]; apply Hn].
    unfold number. destruct (Dict.get k hybrid_cfg) as [v|] eqn:Ev; [|done]. apply Dict.get_Some_elem in Ev.
    assert (Forall (λ kv : string * json, if kv.2 is JInt z then (0 ≤ z)%Z else True) hybrid_cfg) as Hall
      by (repeat (apply Forall_cons; split; [done|]); apply Forall_nil_2).
    pose proof (proj1 (Forall_forall _ _) Hall _ Ev) as Hv. clear - Hv. destruct v as [| |z| | | |]; try discriminate.
    cbn [snd] in Hv. destruct (z =? 0)%Z; [discriminate|]. intros [= <-]. exact Hv. }
  destruct (cpu_memory_fits cpu_config machine hybrid_cfg (4 * 1024 ^ 3) (Some hybrid) _ (400 # 1000) E) as (_ & _ & Hfits);
    [reflexivity|exact Hsane|discriminate|discriminate|exact Hfits].
Defined.
End SizingExamples.
