(* ===== verification/PreflightLlama.v ===== *)
(** * Preflight: llama.cpp's launch arguments

    [src/modelship/preflight/llama_cpp.py]: what is asked of [llama fit-params], how its answer is read, and what a
    deployment is told of context, layers and threads. The program itself, the files, the environment and the machine's
    memory are parameters; a [_FitError] is kept as the data of its message. Python's floats are taken as the rationals
    they stand for. *)

From S2P Require Import Prelude ConfigSchema JsonText Transcripts Preflight.
From Stdlib Require Import QArith Lqa.
Local Open Scope Z_scope.

(** [int(x)] of a float *)
Definition truncate (x : Q) : Z := Z.quot (Qnum x) (Z.pos (Qden x)).

Definition _NCTX_ALIGNMENT : Z := 256.
Definition _MIN_NCTX : Z := 512.
Definition _FIT_MARGIN_MIB : Z := 1024.
Definition _RAM_RESERVE_FRACTION : Q := 5 # 100.
Definition MIB : Z := 1024 ^ 2.

(** ** Reading text *)

Definition is_upper (a : ascii) : bool := let n := nat_of_ascii a in ((65 <=? n) && (n <=? 90))%nat.

(** [\d+], [-?\d+] and [[\d.,]+], of a whole word *)
Definition digits_word (w : string) : option Z :=
  if bool_decide (w ≠ ""%string) && str_all is_digit w then Str.to_int w else None.
Definition int_word (w : string) : option Z :=
  match w with String "-" w => Z.opp <$> digits_word w | w => digits_word w end.
Definition split_word (w : string) : option string :=
  if bool_decide (w ≠ ""%string)
     && str_all (λ a, is_digit a || bool_decide (a = "."%char) || bool_decide (a = ","%char)) w
  then Some w else None.

(** [_FIT_ARGS_RE.match(line)] *)
Definition fit_args (line : string) : option (Z * Z * option string) :=
  if (match line with String a _ => Str.is_space a | EmptyString => true end) then None
  else
    match words line with
    | ["-c"; c; "-ngl"; n] => c ← int_word c; n ← int_word n; Some (c, n, None)
    | ["-c"; c; "-ngl"; n; "-ts"; ts] => c ← int_word c; n ← int_word n; ts ← split_word ts; Some (c, n, Some ts)
    | _ => None
    end%string.

(** A run of digits and what follows; the same of white space *)
Fixpoint span (p : ascii → bool) (s : string) : string * string :=
  match s with
  | String a r => if p a then (λ x, (String a x.1, x.2)) (span p r) else (""%string, s)
  | EmptyString => (""%string, ""%string)
  end.
Definition digit_run (s : string) : option (string * string) :=
  let x := span is_digit s in if bool_decide (x.1 = ""%string) then None else Some x.
Definition space_run (s : string) : option string :=
  let x := span Str.is_space s in if bool_decide (x.1 = ""%string) then None else Some x.2.

(** [\s*$], at the end of a line *)
Definition line_ends (s : string) : bool :=
  let x := span Str.is_space s in bool_decide (x.2 = ""%string) || Str.mem newline x.1.

(** One [_FIT_HOST_ROW_RE] at the start of a line, and [_FIT_HOST_ROW_RE.search] *)
Definition host_row (s : string) : option Z :=
  if Str.startswith s "Host"%string then
    s ← space_run (str_drop 4 s); m ← digit_run s;
    s ← space_run m.2; d ← digit_run s;
    s ← space_run d.2; d ← digit_run s;
    if line_ends d.2 then Str.to_int m.1 else None
  else None.
Fixpoint host_rows (line_start : bool) (s : string) : option Z :=
  match (if line_start then host_row s else None) with
  | Some n => Some n
  | None => match s with String a s => host_rows (bool_decide (a = newline)) s | EmptyString => None end
  end.

(** [_SPLIT_GGUF_RE.match(path)]: the prefix and the number of parts *)
Definition five_digits (w : string) : bool := bool_decide (String.length w = 5%nat) && str_all is_digit w.
Definition split_gguf (path : string) : option (string * string) :=
  let cut := (String.length path - 20)%nat in
  let prefix := str_take cut path in
  let tail := str_drop cut path in
  let count := str_take 5 (str_drop 10 tail) in
  if bool_decide (String.length tail = 20%nat) && Str.startswith tail "-" && five_digits (str_take 5 (str_drop 1 tail))
     && bool_decide (str_take 4 (str_drop 6 tail) = "-of-"%string) && five_digits count
     && bool_decide (str_drop 15 tail = ".gguf"%string) && negb (Str.mem newline prefix)
  then Some (prefix, count) else None.

(** [float(v)], of digits and points *)
Definition decimal (v : string) : option Q :=
  let value whole frac :=
    n ← Str.to_int ("0" +:+ whole +:+ frac); Some (Qmake n (Pos.pow 10 (Pos.of_nat (String.length frac)))) in
  match Str.split "." v with
  | [whole] => if bool_decide (whole = ""%string) then None else value whole "0"%string
  | [whole; frac] =>
      if bool_decide (whole = ""%string) && bool_decide (frac = ""%string) then None else value whole (frac +:+ "0")
  | _ => None
  end.

(** [_LOG_PREFIX_RE.sub("", s)] *)
Definition without_prefix (s : string) : string :=
  let elapsed := span (λ a, is_digit a || bool_decide (a = "."%char)) s in
  default s (if bool_decide (elapsed.1 = ""%string) then None
             else r ← space_run elapsed.2;
                  match r with String a r => if is_upper a then space_run r else None | EmptyString => None end).
Fixpoint rstrip_dots (s : string) : string :=
  match s with
  | EmptyString => ""
  | String a s => let r := rstrip_dots s in if bool_decide (r = ""%string) && bool_decide (a = "."%char) then "" else String a r
  end.

(** ** Asking [fit-params] *)

(** What running it comes to: a process that ends, or one that can't be run or takes too long *)
Inductive process : Type := Completed (returncode : Z) (stdout stderr : string) | NotRun (e : string).

(** [_FitError], by its messages *)
Inductive FitError : Type :=
| InvocationFailed (e : string)
| Exited (returncode : Z) (detail : string)
| NoEstimate
| NoAnswer (line : string)
| ContextTooSmall (ctx_total parallel per_slot : Z).

(** What may come of a step: its answer, a [_FitError], or another exception *)
Inductive outcome (A : Type) : Type := Gives (a : A) | Refuses (e : FitError) | Raises.
Arguments Gives {A} _.
Arguments Refuses {A} _.
Arguments Raises {A}.

Definition then_ {A B} (x : outcome A) (f : A → outcome B) : outcome B :=
  match x with Gives a => f a | Refuses e => Refuses e | Raises => Raises end.

Section llama.
Context (invoke : list string → process) (file_size : string → option Z) (environ : string → option string) (sysconf : string → option Z).

(** [_invoke]: what the process prints *)
Definition error_detail (stderr : string) : string :=
  match last (splitlines (Str.strip stderr)) with
  | Some line => rstrip_dots (Str.join " " (words (without_prefix (Str.strip line))))
  | None => ""
  end.
Definition _invoke (args : list string) : outcome string :=
  match invoke args with
  | NotRun e => Refuses (InvocationFailed e)
  | Completed rc stdout stderr => if rc =? 0 then Gives stdout else Refuses (Exited rc (error_detail stderr))
  end.

(** [_physical_ram_mib] *)
Definition _physical_ram_mib : Z :=
  match sysconf "SC_PHYS_PAGES", sysconf "SC_PAGE_SIZE" with Some pages, Some size => pages * size / MIB | _, _ => 0 end.

(** [_weights_mib] *)
Definition parts_of (model_path : string) : list string :=
  match split_gguf model_path with
  | None => [model_path]
  | Some (prefix, count) =>
      map (λ part, prefix +:+ "-" +:+ padded 5 (Z.of_nat part) +:+ "-of-" +:+ count +:+ ".gguf")
        (seq 1 (Z.to_nat (default 0 (Str.to_int count))))
  end.
Definition _weights_mib (model_path : string) : Z :=
  foldr Z.add 0 (omap file_size (parts_of model_path)) / MIB.

(** [_estimated_host_weights_mib] *)
Definition _estimated_host_weights_mib (args : list string) : outcome Z :=
  then_ (_invoke (args ++ ["-fitp"; "on"]%string))
    (λ stdout, match host_rows true stdout with Some n => Gives n | None => Refuses NoEstimate end).

(** [_fit_margin_mib]; the first of the GPUs with the least memory *)
Definition least_available (g : GPUInfo) (gs : list GPUInfo) : GPUInfo :=
  foldl (λ best g, if available_bytes g <? available_bytes best then g else best) g gs.
Definition _fit_margin_mib (c : ModelConfig) (hw : HardwareProfile) : Z :=
  match gpus hw with
  | g :: gs =>
      if Qlt_bool (inject_Z 0) (num_gpus c) && Qlt_bool (num_gpus c) (inject_Z 1) then
        let gpu := least_available g gs in
        let share_mib := (gpu_share_bytes c gpu / inject_Z MIB)%Q in
        let free_mib := (inject_Z (available_bytes gpu) / inject_Z MIB)%Q in
        Z.max _FIT_MARGIN_MIB (truncate (free_mib - share_mib + inject_Z _FIT_MARGIN_MIB)%Q)
      else _FIT_MARGIN_MIB
  | [] => _FIT_MARGIN_MIB
  end.

(** [_cpu_ram_budget_mib] *)
Definition reserve_bytes (hw : HardwareProfile) : Q :=
  (inject_Z (ram_bytes hw) * _RAM_RESERVE_FRACTION + inject_Z (_FIT_MARGIN_MIB * MIB))%Q.
Definition _cpu_ram_budget_mib (hw : HardwareProfile) : option Z :=
  let free_bytes := sizing_ram_bytes hw in
  if free_bytes =? 0 then None
  else Some (Z.max 0 (truncate ((inject_Z free_bytes - reserve_bytes hw) / inject_Z MIB)%Q)).

(** [_cpu_fit_margin_mib] *)
Definition _cpu_fit_margin_mib (args : list string) (model_path : string) (budget_mib : Z) : outcome Z :=
  then_ (_estimated_host_weights_mib args) (λ counted,
    let uncounted_mib := Z.max 0 (_weights_mib model_path - counted) in
    Gives (Z.max _FIT_MARGIN_MIB (_physical_ram_mib - budget_mib + uncounted_mib))).

(** [_run_fit]; the split is [None] where a part of it is not a number. *)
Definition fit_recommendation (per_slot ngl : Z) (ts : option (list Q)) : dict json :=
  [("n_ctx"%string, JInt per_slot)]
  ++ (if 0 <=? ngl then [("n_gpu_layers"%string, JInt ngl)] else [])
  ++ (if ts is Some ts then [("tensor_split"%string, JList (JFloat <$> ts))] else []).
Definition per_slot_of (ctx_total parallel : Z) : Z := ctx_total / parallel / _NCTX_ALIGNMENT * _NCTX_ALIGNMENT.
Definition last_line (stdout : string) : string := default "" (last (splitlines (Str.strip stdout))).
Definition _run_fit (args : list string) (parallel : Z) : outcome (dict json) :=
  then_ (_invoke args) (λ stdout,
    match fit_args (last_line stdout) with
    | None => Refuses (NoAnswer (last_line stdout))
    | Some (ctx_total, ngl, ts) =>
        if parallel =? 0 then Raises
        else
          let per_slot := per_slot_of ctx_total parallel in
          if per_slot <? _MIN_NCTX then Refuses (ContextTooSmall ctx_total parallel per_slot)
          else match ts with
               | None => Gives (fit_recommendation per_slot ngl None)
               | Some ts => match mapM decimal (Str.split "," ts) with
                            | Some ts => Gives (fit_recommendation per_slot ngl (Some ts))
                            | None => Raises
                            end
               end
    end).

(** [_recommend_threads] *)
Definition _recommend_threads (c : ModelConfig) : dict json :=
  if Qlt_bool (num_cpus c) (inject_Z 1) then []
  else
    let threads := truncate (num_cpus c) in
    let parallel := if llama_server_config c is Some l then parallel l else 1 in
    if threads <? parallel then [] else [("threads"%string, JInt threads)].

(** [LlamaServerConfig()] *)
Definition default_llama : LlamaServerConfig := {|
  n_ctx := 2048; n_batch := 512; n_gpu_layers := -1; threads := None; parallel := 1; chat_template := None;
  mmproj := None; cache_reuse := 0; context_shift := false; cache_ram_mib := 0; ubatch_size := 512;
  ls_flash_attn := "auto"; cache_type_k := "f16"; cache_type_v := "f16"; tensor_split := None; reasoning := None;
  reasoning_budget := None; reasoning_budget_message := None; reasoning_preserve := None; ls_fields_set := []
|}.

(** The arguments of [fit-params], up to the margin: [str] of a float is a parameter. *)
Definition pinned (field : string) (l : LlamaServerConfig) : bool := bool_decide (field ∈ ls_fields_set l).
Definition on_cpu (c : ModelConfig) : bool := Qeq_bool (num_gpus c) (inject_Z 0).
Definition base_args (show : Q → string) (c : ModelConfig) (l : LlamaServerConfig) (binary model_path : string) : list string :=
  [binary; "fit-params"; "-m"; model_path; "--parallel"; pretty (parallel l); "-b"; pretty (n_batch l);
   "-ub"; pretty (ubatch_size l); "-fa"; ls_flash_attn l; "-ctk"; cache_type_k l; "-ctv"; cache_type_v l]%string
  ++ (if on_cpu c then ["-dev"; "none"]%string else [])
  ++ (if pinned "n_ctx" l then ["-c"%string; pretty (n_ctx l * parallel l)] else [])
  ++ (if pinned "n_gpu_layers" l then ["-ngl"%string; pretty (n_gpu_layers l)] else [])
  ++ (match tensor_split l with
      | Some ((_ :: _) as ts) => if pinned "tensor_split" l then ["-ts"%string; Str.join "," (show <$> ts)] else []
      | _ => []
      end).
Definition fit_command (args : list string) (margin_mib : Z) : list string :=
  args ++ ["-fitc"%string; pretty _MIN_NCTX; "-fitt"%string; pretty margin_mib].

(** [LlamaServerPreflight.recommend]; what a [ModelNotSizedError] says is the budget and the [_FitError]. *)
Inductive sizing : Type := Sized (rec : dict json) | NotSized (budget_mib : Z) (e : FitError) | SizingRaises.

Definition is_gguf (path : string) : bool := ends_with ".gguf" path && bool_decide (is_Some (file_size path)).
Definition binary_of : option string :=
  b ← nonempty (environ "MSHIP_LLAMA_SERVER_BIN"%string); if file_size b is Some _ then Some b else None.
Definition margin_of (c : ModelConfig) (hw : HardwareProfile) (args : list string) (model_path : string) (budget : option Z)
    : outcome Z :=
  match budget with
  | None => Gives (_fit_margin_mib c hw)
  | Some b => _cpu_fit_margin_mib args model_path b
  end.
Definition budget_of (c : ModelConfig) (hw : HardwareProfile) : option Z := if on_cpu c then _cpu_ram_budget_mib hw else None.
Definition recommend_llama (show : Q → string) (c : ModelConfig) (hw : HardwareProfile) (resolved_path : option string) : sizing :=
  let threads_rec := _recommend_threads c in
  match nonempty resolved_path, binary_of with
  | Some model_path, Some binary =>
      if negb (is_gguf model_path) then Sized threads_rec
      else
        let l := default default_llama (llama_server_config c) in
        let budget := budget_of c hw in
        if pinned "n_ctx" l && pinned "n_gpu_layers" l && pinned "tensor_split" l
           && (if budget is None then true else false) then Sized threads_rec
        else
          let args := base_args show c l binary model_path in
          match then_ (margin_of c hw args model_path budget) (λ m, _run_fit (fit_command args m) (parallel l)) with
          | Gives rec => Sized (Dict.update threads_rec rec)
          | Refuses e => if budget is Some b then NotSized b e else Sized threads_rec
          | Raises => SizingRaises
          end
  | _, _ => Sized threads_rec
  end.
End llama.

(** ** What is recommended *)

Module LlamaFacts.

Lemma truncate_le q n : 0 < n → n ≤ truncate q → (inject_Z n <= q)%Q.
Proof.
  intros Hn Hle. destruct q as [a d]. unfold truncate in Hle. cbn [Qnum Qden] in Hle.
  unfold Qle. cbn [Qnum Qden inject_Z]. destruct (Z.le_gt_cases 0 a) as [Ha|Ha].
  - rewrite Z.quot_div_nonneg in Hle by lia. pose proof (Z.mul_div_le a (Z.pos d) ltac:(lia)). nia.
  - pose proof (Z.quot_opp_l (- a) (Z.pos d) ltac:(lia)) as Hq. rewrite Z.opp_involutive in Hq.
    pose proof (Z.quot_pos (- a) (Z.pos d) ltac:(lia) ltac:(lia)). lia.
Qed.

(** What a budget of RAM leaves free *)
Lemma budget_leaves hw b n : _cpu_ram_budget_mib hw = Some b → 0 < n → n ≤ b →
  (inject_Z (n * MIB) + reserve_bytes hw <= inject_Z (sizing_ram_bytes hw))%Q.
Proof.
  unfold _cpu_ram_budget_mib. intros Hb Hn Hle. destruct (_ =? 0); [done|]. injection Hb as Hb.
  assert (n ≤ truncate ((inject_Z (sizing_ram_bytes hw) - reserve_bytes hw) / inject_Z MIB)) as Ht by lia.
  apply truncate_le in Ht; [|done]. rewrite inject_Z_mult.
  apply (Qmult_le_r _ _ (inject_Z MIB)) in Ht; [|done].
  rewrite Qmult_comm, (Qmult_comm _ (inject_Z MIB)), Qmult_div_r in Ht by done. rewrite Qmult_comm. lra.
Qed.

Lemma per_slot_fits total parallel : 0 < parallel →
  per_slot_of total parallel * parallel ≤ total ∧ (_NCTX_ALIGNMENT | per_slot_of total parallel).
Proof.
  intros Hp. unfold per_slot_of, _NCTX_ALIGNMENT. split; [|by eexists].
  pose proof (Z.mul_div_le (total / parallel) 256 ltac:(lia)). pose proof (Z.mul_div_le total parallel Hp). nia.
Qed.

Section runs.
Context (invoke : list string → process) (file_size : string → option Z) (sysconf : string → option Z).

Lemma invoke_gives args out : _invoke invoke args = Gives out → ∃ err, invoke args = Completed 0 out err.
Proof.
  unfold _invoke. destruct (invoke args) as [rc o e|]; [|done]. destruct (rc =? 0) eqn:E; [|done].
  intros [= ->]. apply Z.eqb_eq in E as ->. eauto.
Qed.

Lemma run_fit_gives args parallel rec : _run_fit invoke args parallel = Gives rec →
  ∃ out err total ngl ts, invoke args = Completed 0 out err ∧ fit_args (last_line out) = Some (total, ngl, ts) ∧
    (∃ ts', rec = fit_recommendation (per_slot_of total parallel) ngl ts') ∧ _MIN_NCTX ≤ per_slot_of total parallel.
Proof.
  unfold _run_fit. destruct (_invoke invoke args) as [out| |] eqn:Ei; cbn [then_]; [|done..].
  apply invoke_gives in Ei as [err Ei]. destruct (fit_args _) as [[[total ngl] ts]|] eqn:Ef; [|done].
  destruct (parallel =? 0); [done|]. destruct (_ <? _) eqn:El; [done|]. apply Z.ltb_ge in El.
  intros Hr. exists out, err, total, ngl, ts. split_and!; try done.
  destruct ts as [ts|]; [destruct (mapM _ _); [|done]|]; injection Hr as <-; eauto.
Qed.

Lemma fit_context d per_slot ngl ts :
  Dict.get "n_ctx" (Dict.update d (fit_recommendation per_slot ngl ts)) = Some (JInt per_slot).
Proof.
  rewrite Dict.get_update_in; unfold fit_recommendation; destruct (0 <=? ngl), ts; cbn; try reflexivity; try set_solver.
  all: apply (bool_decide_unpack _); vm_compute; exact I.
Qed.

Lemma margin_covers args path b m : _cpu_fit_margin_mib invoke file_size sysconf args path b = Gives m →
  ∃ counted, _estimated_host_weights_mib invoke args = Gives counted ∧ _FIT_MARGIN_MIB ≤ m ∧
    _physical_ram_mib sysconf + Z.max 0 (_weights_mib file_size path - counted) ≤ b + m.
Proof.
  unfold _cpu_fit_margin_mib. destruct (_estimated_host_weights_mib _ _) as [n| |]; cbn [then_]; [|done..].
  intros [= <-]. exists n. split; [done|]. lia.
Qed.
Lemma invoke_raises args : _invoke invoke args ≠ Raises.
Proof. unfold _invoke. by destruct (invoke args); [case_match|]. Qed.

Lemma margin_refuses args path b e : _cpu_fit_margin_mib invoke file_size sysconf args path b = Refuses e →
  _estimated_host_weights_mib invoke args = Refuses e.
Proof. unfold _cpu_fit_margin_mib. by destruct (_estimated_host_weights_mib _ _). Qed.

Lemma margin_raises args path b : _cpu_fit_margin_mib invoke file_size sysconf args path b ≠ Raises.
Proof.
  unfold _cpu_fit_margin_mib, _estimated_host_weights_mib. pose proof (invoke_raises (args ++ ["-fitp"; "on"]%string)).
  destruct (_invoke _ _); cbn [then_]; [by case_match|done..].
Qed.

Lemma run_fit_raises args parallel : _run_fit invoke args parallel = Raises → parallel ≠ 0 →
  ∃ out err total ngl ts, invoke args = Completed 0 out err ∧ fit_args (last_line out) = Some (total, ngl, Some ts) ∧
    mapM decimal (Str.split "," ts) = None.
Proof.
  unfold _run_fit. intros Hr Hp%Z.eqb_neq. pose proof (invoke_raises args) as Hn.
  destruct (_invoke invoke args) as [out| |] eqn:Ei; [|done..]. cbn [then_] in Hr. apply invoke_gives in Ei as [err Ei].
  destruct (fit_args _) as [[[total ngl] ts]|] eqn:Ef; [|done]. rewrite Hp in Hr. destruct (_ <? _); [done|].
  destruct ts as [ts|]; [|done]. destruct (mapM _ _) eqn:Em; [done|]. by exists out, err, total, ngl, ts.
Qed.
End runs.
End LlamaFacts.

Module LlamaProperties.
Import LlamaFacts.

(** A command that counts what this model takes on a CPU: its file, its slots, its batches, its attention and the types of
    its cache, and the context its config pins, if it does. *)
Definition counts_model (bin path : string) (l : LlamaServerConfig) (args : list string) : Prop :=
  ∃ rest, args =
    [bin; "fit-params"; "-m"; path; "--parallel"; pretty (parallel l); "-b"; pretty (n_batch l); "-ub"; pretty (ubatch_size l);
     "-fa"; ls_flash_attn l; "-ctk"; cache_type_k l; "-ctv"; cache_type_v l; "-dev"; "none"]%string ++ rest ∧
    ("n_ctx"%string ∈ ls_fields_set l → ["-c"%string; pretty (n_ctx l * parallel l)] `prefix_of` rest).

Lemma command_counts show c l bin path : on_cpu c = true → counts_model bin path l (base_args show c l bin path).
Proof.
  intros Hcpu. unfold base_args. rewrite Hcpu. eexists. split; [cbn [app]; reflexivity|].
  intros Hn. unfold pinned at 1. rewrite bool_decide_eq_true_2 by done. cbn [app]. by eexists.
Qed.

End LlamaProperties.

Module LlamaExamples.
Import LlamaFacts LlamaProperties TranscriptFacts.
Local Open Scope string_scope.
Local Open Scope Z_scope.

(** The lines of [fit-params]: what it answers, and a row of its estimate *)
Example answers_read :
  fit_args "-c 8192 -ngl -1" = Some (8192, -1, None) ∧ fit_args "-c 4096 -ngl 99 -ts 3,1.5" = Some (4096, 99, Some "3,1.5") ∧
  fit_args "-c 8192" = None ∧ mapM decimal (Str.split "," "3,1.5") = Some [30 # 10; 150 # 100]%Q ∧
  host_rows true ("device  model context compute" +:+ String newline "CUDA0 1 2 3" +:+ String newline "Host 300 64 20 ")%string = Some 300 ∧
  without_prefix "0.123 E failed to load" = "failed to load" ∧
  split_gguf "/models/big-00001-of-00003.gguf" = Some ("/models/big", "00003") ∧ split_gguf "/models/small.gguf" = None.
Proof. split_and!; vm_compute; reflexivity. Qed.

(** A machine of 32 GiB with 24 GiB free, and a [fit-params] that counts 300 MiB and one for 16 tokens of context, answers
    16384 tokens where they fit, and refuses otherwise *)
Definition machine : HardwareProfile := mkHardware [] (32 * 1024 ^ 3) (24 * 1024 ^ 3).
Definition sysconf (k : string) : option Z := if bool_decide (k = "SC_PAGE_SIZE") then Some 4096 else Some 8388608.
Definition count (total : Z) : Z := Z.max 0 total / 16 + 300.
Definition margin_arg (args : list string) : Z := default 0 (m ← last args; Str.digits 0 false m).
Definition fit_params (args : list string) : process :=
  if bool_decide (last args = Some "on") then Completed 0 "Host 300 64 20" ""
  else if count 16384 + margin_arg args <=? _physical_ram_mib sysconf then Completed 0 "-c 16384 -ngl -1" ""
  else Completed 1 "" "0.1 E not enough memory".
Definition files (path : string) : option Z :=
  if bool_decide (path = "/models/m.gguf") then Some (6 * 1024 ^ 3) else if bool_decide (path = "/bin/llama") then Some 1 else None.
Definition environ (k : string) : option string := if bool_decide (k = "MSHIP_LLAMA_SERVER_BIN") then Some "/bin/llama" else None.
Definition config : ModelConfig :=
  mkModel "m" (Some "org/m") generate llama_server (inject_Z 0) (inject_Z 4) 1 None None default_vllm None
    (Some default_llama) None None ["name"; "model"; "usecase"; "loader"].

Lemma fit_params_fits args margin out err total ngl ts : 0 ≤ margin →
  fit_params (fit_command args margin) = Completed 0 out err → fit_args (last_line out) = Some (total, ngl, ts) →
  count total + margin ≤ _physical_ram_mib sysconf.
Proof.
  intros Hm. unfold fit_params, fit_command, margin_arg. rewrite last_app. cbn [last].
  pose proof (digits_padded 0 margin Hm) as Hd. change (padded 0 margin) with (pretty margin) in Hd.
  cbn [mbind option_bind]. rewrite Hd. cbn [default from_option]. unfold id. case_bool_decide as Ho.
  - exfalso. injection Ho as Ho. by rewrite Ho in Hd.
  - destruct (_ <=? _) eqn:E; [|done]. apply Z.leb_le in E. intros [= <- <-]. vm_compute (fit_args _). intros [= <- _ _]. exact E.
Qed.
Lemma count_grows a b : a ≤ b → 0 < count a ≤ count b.
Proof.
  intros Hle. unfold count. pose proof (Z.div_le_mono (Z.max 0 a) (Z.max 0 b) 16 ltac:(lia) ltac:(lia)).
  pose proof (Z.div_pos (Z.max 0 a) 16 ltac:(lia) ltac:(lia)). lia.
Qed.


(** A node with less memory left than the model takes does not start it. *)
Example too_little_memory :
  recommend_llama fit_params files environ sysconf (λ _, "") config (mkHardware [] (32 * 1024 ^ 3) (6 * 1024 ^ 3)) (Some "/models/m.gguf")
  = NotSized 3481 (Exited 1 "not enough memory").
Proof. vm_compute. reflexivity. Qed.
End LlamaExamples.
