(* ===== verification/GatewayTurns.v ===== *)
(** * Turns at the gateway

    The handlers of [src/modelship/openai/api.py] for [/v1/responses]: what a request is resolved to before
    its loader is called, the record routes, compaction, and a WebSocket's turns with the continuation
    cache of its connection. The routes are tasks ([proc]); a turn over a socket is given what resolving
    and the loader answered. *)

From S2P Require Import Prelude StateStore ConfigSchema JsonText ResponsesState McpPolicy Tasks Errors ResponseObjects ResponsesApi Background.
From S2P Require Import GatewayRouting GatewayReplica GatewayStreams ChatTranslation.
From S2P Require McpLoop.
Local Open Scope Z_scope.

Definition with_input (input : list json) (r : Request) : Request :=
  mkRequest (inr input) (r_model r) (instructions r) (max_output_tokens r) (temperature r) (top_p r) (r_tools r)
    (tool_choice r) (parallel_tool_calls r) (r_text r) (reasoning r) (metadata r) (prompt_cache_key r) (r_store r)
    (previous_response_id r) (background r) (max_tool_calls r) (r_stream r) (r_user r).
Definition with_stream (r : Request) : Request :=
  mkRequest (r_input r) (r_model r) (instructions r) (max_output_tokens r) (temperature r) (top_p r) (r_tools r)
    (tool_choice r) (parallel_tool_calls r) (r_text r) (reasoning r) (metadata r) (prompt_cache_key r) (r_store r)
    (previous_response_id r) (background r) (max_tool_calls r) (JBool true) (r_user r).

(** [request.store is False] *)
Definition unstored (r : Request) : bool := if r_store r is JBool false then true else false.

(** A request with its conversation: what its loader gets, and what is stored of it. *)
Record prepared : Type := mkPrepared {
  p_request : Request;
  p_parent : option Position;
  p_input_items : list json;
  p_listings : list (json * json);
}.

(** [background_store_false_error] *)
Definition background_store_false_error : exn :=
  api_error "background:true requires store:true; a background response can't be polled if it isn't stored."
    "invalid_request_error" 400 (Some "background"%string) None.

(** How a turn reaches its loader: through the tool loop, or at once; stored as it passes, or not. *)
Definition through_tools (p : prepared) : bool := McpLoop.wants_mcp (p_request p).
Definition stored_as_it_passes (p : prepared) : bool := negb (unstored (p_request p)).

Section turns.
Context (py_format : json → string) (ttl : option Z).

(** ** The routes *)

(** [create_response], up to its loader or its background run *)
Definition prepare_response (identity : string) (r : Request) : proc prepared :=
  _ ← raise_err (raise_if (Json.truthy (background r) && unstored r) background_store_false_error);
  let items := as_input_items (r_input r) in
  match previous_response_id r with
  | None => Ret (mkPrepared r None items [])
  | Some previous =>
      resolved ← resolve_previous py_format ttl identity previous;
      let '(history, parent, listings) := resolved in
      Ret (mkPrepared (with_input (history ++ items) r) (Some parent) items listings)
  end.

(** [get_response], not streaming *)
Definition get_response (identity response_id : string) : proc (dict json) :=
  record ← load_record py_format identity response_id;
  record ← reconcile_staleness py_format ttl identity response_id record;
  Ret (response_of record).

(** [cancel_response] *)
Definition cancel_response (identity response_id : string) : proc (dict json) :=
  cancel_background py_format ttl identity response_id.

(** [delete_response] *)
Definition delete_response (identity response_id : string) : proc (dict json) :=
  record ← load_record py_format identity response_id;
  _ ← signal_background_cancel_if_in_progress identity response_id record;
  _ ← delete_record identity response_id;
  Ret [("id", JStr response_id); ("object", JStr "response"); ("deleted", JBool true)]%string.

(** [get_response_input_items] *)
Definition item_id (it : option json) : json :=
  match it with Some (JObj d) => default JNull (Dict.get "id" d) | _ => JNull end.
Definition get_response_input_items (identity response_id : string) : proc (dict json) :=
  items ← load_input_items py_format ttl identity response_id;
  Ret [("object", JStr "list"); ("data", JList items); ("first_id", item_id (head items));
       ("last_id", item_id (last items)); ("has_more", JBool false)]%string.

(** ** Compaction *)

Section compact.
Context `{Outside}.

(** [CompactRequest] *)
Record CompactRequest : Type := mkCompact {
  c_model : string;
  c_input : option (string + list json);
  c_previous : option string;
  c_instructions : option string;
}.

(** [_summarize]: the summary's response, or a reply with what is recorded. *)
Definition summarize (request_id : string) (answer : dict json → stream chunk) (chat_request : dict json)
    : (reply * string) + chunk :=
  match await_first request_id (answer chat_request) with
  | inl (r, error_type) => inl (r, error_type)
  | inr (CError err, _) => inl (error_response err, "inference_error"%string)
  | inr (first, _) => inr first
  end.

Definition bad_request (x : (reply * string) + chunk) : bool :=
  match x with inl (JsonReply status _, _) => status =? 400 | _ => false end.

(** [choices[0].message.content or ""] *)
Definition summary_text (dump : json) : res string :=
  choices ← get_field "choices" dump;
  match choices with
  | JList (choice :: _) =>
      message ← get_field "message" choice;
      content ← get_field "content" message;
      Ok (if content is JStr s then s else ""%string)
  | _ => Err (OtherError "IndexError")
  end.

(** [compact_response], up to the items it compacts *)
Definition compact_items (identity : string) (r : CompactRequest) : proc (list json) :=
  let items := match c_input r with Some input => as_input_items input | None => [] end in
  items ← match c_previous r with
          | None => Ret items
          | Some previous =>
              resolved ← resolve_previous py_format ttl identity previous;
              Ret (resolved.1.1 ++ items)
          end;
  match items with [] => Raise (HTTPException 400 "cannot compact an empty conversation.") | _ => Ret items end.

(** The rest of it: an error's reply, or the output of the compaction. [blob_id] is the item's id. *)
Definition compact_reply (prompt request_id blob_id : string) (r : CompactRequest) (items : list json)
    (answer : dict json → stream chunk) : res ((reply * string) + list (dict json)) :=
  match build_summarization_request prompt (c_model r) items (c_instructions r) with
  | Err (ValueError m) =>
      Ok (inl (error_response (create_error_response m (Some "invalid_request_error"%string) 400 None None), "validation_error"%string))
  | Err e => Err e
  | Ok chat_request =>
      let first := summarize request_id answer chat_request in
      let first := if bad_request first
                   then summarize request_id answer (Dict.set "reasoning_effort" JNull chat_request) else first in
      match first with
      | inl failed => Ok (inl failed)
      | inr (CResult dump) => summary ← summary_text dump; Ok (inr (build_compaction blob_id (summary_items summary)))
      | inr _ => Err AssertionError
      end
  end.
End compact.

(** ** A WebSocket's turns *)

Section socket.
Context `{FloatText}.

Definition _WS_CONN_CACHE_MAX : nat := 16.

(** [error_ws_frame]'s JSON *)
Definition error_ws_frame (err : ErrorResponse) : dict json :=
  let error := List.filter (λ kv, negb (Json.eqb kv.2 JNull)) (error_info err) in
  let error := if Json.truthy (default JNull (Dict.get "code" error)) then error
               else Dict.set "code" (JStr (err_type err)) error in
  [("type", JStr "error"); ("status", JInt (http_status err)); ("error", JObj error)]%string.

(** [conn_cache]: a response's whole conversation and the tools listed in it *)
Definition cache : Type := dict (list json * list (json * json)).

(** The body of a [response.create] frame, or the error that is sent back *)
Definition read_frame (raw : string) : ErrorResponse + dict json :=
  let refused m := inl (create_error_response m (Some "invalid_request_error"%string) 400 None None) in
  match loads raw with
  | None => refused "WebSocket frame is not valid JSON."%string
  | Some (JObj msg) =>
      if type_is "response.create" msg then
        inr (foldl (λ d k, Dict.pop k d) (filter (λ kv, kv.1 ≠ "type"%string) msg) ["stream"; "stream_options"; "background"]%string)
      else refused ("WebSocket frame must be a JSON object with " +:+ String dquote ("type" +:+ String dquote (": " +:+
             String dquote ("response.create" +:+ String dquote "."))))
  | Some _ => refused ("WebSocket frame must be a JSON object with " +:+ String dquote ("type" +:+ String dquote (": " +:+
             String dquote ("response.create" +:+ String dquote "."))))
  end.

(** The turn's conversation: its connection's own, or the store's *)
Definition prepare_ws (identity : string) (conn_cache : cache) (r : Request) : proc prepared :=
  let items := as_input_items (r_input r) in
  match previous_response_id r with
  | None => Ret (mkPrepared r None items [])
  | Some previous =>
      match Dict.get previous conn_cache with
      | Some (cached_items, listings) =>
          let input := cached_items ++ items in
          Ret (mkPrepared (with_input input r) None input listings)
      | None =>
          resolved ← resolve_previous py_format ttl identity previous;
          let '(history, parent, listings) := resolved in
          Ret (mkPrepared (with_input (history ++ items) r) (Some parent) items listings)
      end
  end.

(** What the events of a turn leave: the outcome so far, the response of its end, the error yet to be sent, and
    what the turn raises. *)
Record told : Type := mkTold {
  w_outcome : outcome;
  w_terminal : option json;
  w_error : option ErrorResponse;
  w_raised : option exn;
}.
Definition untold : told := mkTold ("ok"%string, None) None None None.
Definition with_outcome (o : outcome) (w : told) : told := mkTold o (w_terminal w) (w_error w) (w_raised w).
Definition fails_with (error_type : string) (err : ErrorResponse) (w : told) : told :=
  mkTold ("error"%string, Some error_type) (w_terminal w) (Some err) (w_raised w).

Definition cancelled_unless_failed (o : outcome) : outcome := if bool_decide (o.1 = "ok"%string) then ("cancelled"%string, None) else o.

(** An item of the turn: the frame it is sent as, what it tells before the frame is sent, and after *)
Definition frame_of (c : chunk) : option (dict json) :=
  match c with CError err => Some (error_ws_frame err) | CEvent e => Some e | _ => None end.
Definition tell_before (c : chunk) (w : told) : told :=
  if c is CError _ then with_outcome ("error", Some "inference_error")%string w else w.
Definition tell_after (c : chunk) (w : told) : told :=
  match c with
  | CEvent e =>
      if type_is "response.failed" e then with_outcome stream_error w
      else if ends_turn e then mkTold (w_outcome w) (Some (field "response" e)) (w_error w) (w_raised w)
      else w
  | _ => w
  end.

(** The turn's end, when its generator is through *)
Definition turn_over (request_id : string) (ending : option exn) (w : told) : told :=
  match ending with
  | None => w
  | Some (RayTaskError (ValueError m) _) => fails_with "validation_error" (validation_error_from_cause (ValueError m)) w
  | Some CancelledError =>
      mkTold (cancelled_unless_failed (w_outcome w)) (w_terminal w) (w_error w) (Some CancelledError)
  | Some _ => fails_with "unhandled" (server_error request_id 500) w
  end.

(** The items sent, until the client is gone: it takes [room] more frames. *)
Fixpoint send_items (request_id : string) (items : list chunk) (ending : option exn) (room : option nat) (w : told)
    : list (dict json) * told :=
  match items with
  | [] => ([], turn_over request_id ending w)
  | c :: items =>
      let w := tell_before c w in
      match frame_of c, room with
      | None, _ => send_items request_id items ending room w
      | Some _, Some O => ([], with_outcome (cancelled_unless_failed (w_outcome w)) w)
      | Some frame, _ =>
          let '(frames, w) := send_items request_id items ending (Nat.pred <$> room) (tell_after c w) in (frame :: frames, w)
      end
  end.

(** [{**mcp_listings, **mcp_listings_in(response)}] without the failed ones *)
Definition merged_listings (listings : list (json * json)) (new : list (json * option json)) : list (json * json) :=
  usable (foldl (λ acc kl, jset kl.1 kl.2 acc) (prod_map id Some <$> listings) new).

(** The oldest entries go until the cache is small enough. *)
Definition evict (conn_cache : cache) : cache := drop (length conn_cache - _WS_CONN_CACHE_MAX) conn_cache.

(** What the connection remembers of a turn that went well *)
Definition remember (p : prepared) (response : json) (conn_cache : cache) : res cache :=
  match response with
  | JObj d =>
      let id := field "id" d in
      if Json.truthy id then
        output ← iter (py_or (field "output" d) (JList []));
        new ← mcp_listings_in (field "tools" d) (field "output" d);
        Ok (evict (Dict.set (fmt py_format id) (as_input_items (r_input (p_request p)) ++ output,
                     merged_listings (p_listings p) new) conn_cache))
      else Ok conn_cache
  | JNull => Ok conn_cache
  | _ => Err (OtherError "AttributeError")
  end.

(** What it keeps after any turn *)
Definition turn_cache (p : prepared) (o : outcome) (terminal : option json) (conn_cache : cache) : res cache :=
  if bool_decide (o.1 = "ok"%string) then
    match terminal with
    | Some response => if unstored (p_request p) then remember p response conn_cache else Ok conn_cache
    | None => Ok conn_cache
    end
  else Ok match previous_response_id (p_request p) with
          | Some previous => Dict.pop previous conn_cache
          | None => conn_cache
          end.

(** The turn, once its loader's answer is on its way; [disconnected] is the socket's state at its end. *)
Definition finish_turn (request_id : string) (p : prepared) (answer : stream chunk) (room : option nat) (disconnected : bool)
    (conn_cache : cache) : list (dict json) * outcome * res cache :=
  let '(frames, w) := send_items request_id answer.1 answer.2 room untold in
  let o := if bool_decide ((w_outcome w).1 = "ok"%string) && disconnected then ("cancelled"%string, None) else w_outcome w in
  (frames ++ match w_error w with Some err => [error_ws_frame err] | None => [] end, o,
   match w_raised w with Some e => Err e | None => turn_cache p o (w_terminal w) conn_cache end).

(** An [HTTPException] as the frame it is answered with *)
Definition http_error (status : Z) (detail : string) : ErrorResponse :=
  create_error_response detail (Some (if status <? 500 then "invalid_request_error"%string else "api_error"%string)) status None None.

(** [responses_validation_error], of the exception's text *)
Definition responses_validation_error (text : string) : ErrorResponse :=
  create_error_response text (Some "invalid_request_error"%string) 400 None None.

Definition model_of (r : Request) : option string := if r_model r is JStr m then Some m else None.

(** [_run_ws_turn]. [parse] makes the [ResponsesRequest] of a body, or gives its error's text; [answer] is what a handle's loader
    streams back, stored on its way when the request asks for that. *)
Definition run_ws_turn (identity request_id raw : string) (a : ModelshipAPI) (parse : dict json → string + Request)
    (answer : Handle → prepared → stream chunk) (room : option nat) (disconnected : bool) (conn_cache : cache)
    : proc (list (dict json) * RequestTracker * res cache) :=
  let t := mkTracker "" "create_response_ws" None in
  let refused err t := Ret ([error_ws_frame err], t, Ok conn_cache) in
  match read_frame raw with
  | inl err => refused err (finish "error" (Some "http_400"%string) t)
  | inr body =>
      match parse body with
      | inl text => refused (responses_validation_error text) (finish "error" (Some "http_400"%string) t)
      | inr r =>
          let r := with_stream r in
          match get_handle (model_of r) a (mkTracker (default ""%string (model_of r)) (t_operation t) None) with
          | (t, Err (ResponsesApiError err)) => refused err t
          | (t, Err (HTTPException status detail)) => refused (http_error status detail) t
          | (t, Err e) => Ret ([], t, Err e)
          | (t, Ok h) =>
              prep ← attempt (prepare_ws identity conn_cache r);
              match prep with
              | Err (ResponsesApiError err) =>
                  refused err (finish "error" (Some ("http_" +:+ pretty (http_status err))) t)
              | Err e => Ret ([], t, Err e)
              | Ok p =>
                  let '(frames, o, conn_cache) := finish_turn request_id p (answer h p) room disconnected conn_cache in
                  Ret (frames, finish o.1 o.2 t, conn_cache)
              end
          end
      end
  end.
End socket.
End turns.
