(* ===== verification/GatewayTurnsTheorems.v ===== *)
(** * A socket's turns: what its connection remembers

    The continuation cache of a WebSocket, against the log of the turns it remembered: a conversation in the
    cache is the whole one, however many turns it took, and it stays until a turn that continues it fails or
    sixteen others were remembered after it. *)

From S2P Require Import Prelude StateStore ConfigSchema JsonText ResponsesState McpPolicy Tasks Errors ResponseObjects ResponsesApi.
From S2P Require Import GatewayRouting GatewayReplica GatewayStreams GatewayTurns.
Local Open Scope Z_scope.

(** ** The log

    A turn that was remembered: its response, the turn of this connection it continued, what its loader was
    given after that, and its output. *)
Record entry : Type := mkEntry {
  e_id : string;
  e_parent : option string;
  e_input : list json;
  e_output : list json;
}.

(** A remembered response's conversation, from its first turn on *)
Inductive conversation (log : list entry) : string → list json → Prop :=
| conversation_root e : e ∈ log → e_parent e = None → conversation log (e_id e) (e_input e ++ e_output e)
| conversation_next e parent before :
    e ∈ log → e_parent e = Some parent → conversation log parent before →
    conversation log (e_id e) (before ++ e_input e ++ e_output e).

(** A connection, with its log and the responses whose continuation failed *)
Record socket : Type := mkSocket { s_cache : cache; s_log : list entry; s_failed : list string }.
Definition opened : socket := mkSocket [] [] [].
Definition ids (log : list entry) : list string := e_id <$> log.

Section socket.
Context `{FloatText} (py_format : json → string) (ttl : option Z) (identity : string).

Definition well (o : outcome) : bool := bool_decide (o.1 = "ok"%string).

(** What a turn that went well adds to the log: [p] is its request as resolved, [r] as it came. *)
Definition logged (r : Request) (p : prepared) (o : outcome) (terminal : option json) (s : socket) : list entry :=
  match terminal with
  | Some (JObj d) =>
      if well o && unstored (p_request p) && Json.truthy (field "id" d) then
        match iter (py_or (field "output" d) (JList [])) with
        | Ok output =>
            let parent := prev ← previous_response_id r; (if Dict.mem prev (s_cache s) then Some prev else None) in
            let input := if parent is Some _ then as_input_items (r_input r) else as_input_items (r_input (p_request p)) in
            [mkEntry (fmt py_format (field "id" d)) parent input output]
        | Err _ => []
        end
      else []
  | _ => []
  end.

(** What one that did not leaves behind *)
Definition dropped (p : prepared) (o : outcome) : list string :=
  if well o then [] else if previous_response_id (p_request p) is Some previous then [previous] else [].

(** A turn of the socket: refused, or run to whatever outcome. *)
Inductive socket_turn : socket → socket → Prop :=
| turn_refused s : socket_turn s s
| turn_run s r p trace o terminal c :
    traces (prepare_ws py_format ttl identity (s_cache s) r) trace (Ok p) →
    turn_cache py_format p o terminal (s_cache s) = Ok c →
    socket_turn s (mkSocket c (s_log s ++ logged r p o terminal s) (s_failed s ++ dropped p o)).

End socket.

Module SocketFacts.

(** ** Lists *)

Lemma sublist_tail (k : string) ks l1 l2 :
  NoDup (l1 ++ k :: l2) → k :: ks `sublist_of` l1 ++ k :: l2 → ks `sublist_of` l2.
Proof.
  induction l1 as [|x l1 IH]; cbn; intros Hnd Hs.
  - inversion Hs; subst; [done|]. by etrans; [apply sublist_cons, reflexivity|].
  - apply NoDup_cons in Hnd as [Hx Hnd]. inversion Hs; subst; [set_solver|]. by apply IH.
Qed.

Lemma sublist_filter_self {A} (P : A → Prop) `{∀ x, Decision (P x)} (l : list A) : filter P l `sublist_of` l.
Proof. induction l as [|x l IH]; [done|]. rewrite filter_cons. case_decide; by constructor. Qed.

Lemma sublist_map {A B} (f : A → B) l k : l `sublist_of` k → f <$> l `sublist_of` f <$> k.
Proof. induction 1; cbn; by constructor. Qed.

Lemma NoDup_app_l {A} (l k : list A) : NoDup (l ++ k) → NoDup l.
Proof. by intros [? _]%NoDup_app. Qed.

Lemma conversation_mono log log' id conv : log ⊆ log' → conversation log id conv → conversation log' id conv.
Proof. intros Hl. induction 1; [eapply conversation_root|eapply conversation_next]; eauto. Qed.

(** ** The invariant *)

Record remembers (s : socket) : Prop := mkRemembers {
  keys_in_order : Dict.keys (s_cache s) `sublist_of` ids (s_log s);
  bounded : (length (s_cache s) ≤ _WS_CONN_CACHE_MAX)%nat;
  whole : ∀ id conv listings, (id, (conv, listings)) ∈ s_cache s → conversation (s_log s) id conv;
  lasting : ∀ before e after, s_log s = before ++ e :: after → (length after < _WS_CONN_CACHE_MAX)%nat →
    e_id e ∉ s_failed s → e_id e ∈ Dict.keys (s_cache s);
}.

Lemma opened_remembers : remembers opened.
Proof. split; cbn; [done|lia|set_solver|]. by intros [|??] ?? [=]. Qed.

(** A turn that failed *)
Lemma remembers_pop s previous :
  remembers s → remembers (mkSocket (Dict.pop previous (s_cache s)) (s_log s) (s_failed s ++ [previous])).
Proof.
  intros [Hk Hb Hw Hl]. split; cbn [s_cache s_log s_failed].
  - rewrite Dict.keys_pop. etrans; [apply sublist_filter_self|done].
  - unfold Dict.pop. etrans; [apply length_filter|done].
  - unfold Dict.pop. intros id conv listings [_ Hin]%list_elem_of_filter. eauto.
  - intros before e after Hlog Hlen Hf. apply Dict.elem_keys_pop. split; [set_solver|].
    eapply Hl; [done..|]. set_solver.
Qed.

Lemma remembers_idle s previous : remembers s → remembers (mkSocket (s_cache s) (s_log s) (s_failed s ++ previous)).
Proof. intros [Hk Hb Hw Hl]. split; cbn; [done..|]. intros. eapply Hl; [done..|]. set_solver. Qed.

(** A turn that is remembered *)
Lemma evict_app (c : cache) x :
  (length c ≤ _WS_CONN_CACHE_MAX)%nat →
  evict (c ++ [x]) = c ++ [x] ∨ ∃ y rest, c = y :: rest ∧ length c = _WS_CONN_CACHE_MAX ∧ evict (c ++ [x]) = rest ++ [x].
Proof.
  intros Hc. unfold evict. rewrite length_app. cbn [length].
  destruct (decide (length c = _WS_CONN_CACHE_MAX)) as [Heq|].
  - right. destruct c as [|y rest]; [done|]. exists y, rest. split; [done|]. split; [done|]. rewrite Heq.
    by replace (_WS_CONN_CACHE_MAX + 1 - _WS_CONN_CACHE_MAX)%nat with 1%nat by lia.
  - left. by replace (length c + 1 - _WS_CONN_CACHE_MAX)%nat with 0%nat by lia.
Qed.

Lemma evict_sublist c : evict c `sublist_of` c.
Proof. apply sublist_drop. Qed.

Lemma remembers_add s e listings before :
  NoDup (ids (s_log s ++ [e])) → remembers s →
  conversation (s_log s ++ [e]) (e_id e) before →
  remembers (mkSocket (evict (Dict.set (e_id e) (before, listings) (s_cache s))) (s_log s ++ [e]) (s_failed s)).
Proof.
  intros Hnd [Hk Hb Hw Hl] Hconv.
  assert (Hnew : e_id e ∉ ids (s_log s)).
  { unfold ids in Hnd. rewrite fmap_app in Hnd. apply NoDup_app in Hnd as (_ & Hnd & _). intros Hin.
    by apply (Hnd _ Hin), list_elem_of_here. }
  assert (e_id e ∉ Dict.keys (s_cache s)) as Hnk by (intros Hin; by apply Hnew, (sublist_subseteq _ _ Hk)).
  rewrite Dict.keys_set_new by done. set (x := (e_id e, (before, listings))).
  split; cbn [s_cache s_log s_failed].
  - unfold ids. rewrite fmap_app. etrans; [|apply sublist_app, reflexivity; exact Hk].
    unfold Dict.keys. etrans; [apply sublist_map, evict_sublist|]. by rewrite fmap_app.
  - unfold evict. rewrite length_drop. lia.
  - intros id conv ls Hin. apply (sublist_subseteq _ _ (evict_sublist _)) in Hin.
    apply elem_of_app in Hin as [Hin|Hin]; [eapply conversation_mono; [|eauto]; set_solver|].
    apply list_elem_of_singleton in Hin. by simplify_eq.
  - intros l1 e' l2 Hlog Hlen Hf. destruct l2 as [|e2 l2 _] using rev_ind.
    { apply app_inj_tail in Hlog as [_ <-]. destruct (evict_app (s_cache s) x Hb) as [->|(y & rest & _ & _ & ->)];
        unfold Dict.keys; rewrite fmap_app; set_solver. }
    rewrite app_comm_cons, app_assoc in Hlog. apply app_inj_tail in Hlog as [Hlog _].
    rewrite length_app in Hlen. cbn in Hlen.
    assert (e_id e' ∈ Dict.keys (s_cache s)) as Hin by (eapply Hl; [done|lia|done]).
    destruct (evict_app (s_cache s) x Hb) as [->|(y & rest & Hc & Hfull & ->)]; unfold Dict.keys in *; rewrite fmap_app;
      [set_solver|]. rewrite Hc in Hin, Hk, Hfull. cbn in Hin.
    apply elem_of_cons in Hin as [Heq|Hin]; [|set_solver]. exfalso.
    assert (rest.*1 `sublist_of` ids l2) as Hle%sublist_length.
    { unfold ids in *. rewrite Hlog, fmap_app in Hk. cbn in Hk. rewrite Heq in Hk. eapply sublist_tail; [|exact Hk].
      rewrite <-Heq, <-fmap_cons, <-fmap_app, <-Hlog. rewrite fmap_app in Hnd. by eapply NoDup_app_l. }
    unfold ids in Hle. rewrite !length_fmap in Hle. cbn in Hfull. lia.
Qed.

(** ** Turns *)

Section turns.
Context `{FloatText} (py_format : json → string) (ttl : option Z) (identity : string).

Lemma prepared_from c r t p :
  traces (prepare_ws py_format ttl identity c r) t (Ok p) →
  previous_response_id (p_request p) = previous_response_id r ∧
  ∀ previous conv listings, previous_response_id r = Some previous → Dict.get previous c = Some (conv, listings) →
    as_input_items (r_input (p_request p)) = conv ++ as_input_items (r_input r).
Proof.
  unfold prepare_ws. destruct (previous_response_id r) as [previous|] eqn:Hp; [|by intros [-> [= ->]]].
  destruct (Dict.get previous c) as [[cached ls]|] eqn:Hc.
  - intros [-> [= ->]]. split; [done|]. intros ??? [= <-]. rewrite Hc. by intros [= -> ->].
  - intros [([[history parent] ls] & t1 & t2 & _ & _ & [-> [= ->]])|(e & [=] & _)]%traces_bind.
    split; [done|]. intros ??? [= <-]. by rewrite Hc.
Qed.

(** What a turn's end says of its response, and what it remembers of it *)
Lemma remembered_logged r p o terminal s c :
  well o = true → unstored (p_request p) = true → remember py_format p terminal (s_cache s) = Ok c →
  (c = s_cache s ∧ logged py_format r p o (Some terminal) s = []) ∨
  ∃ e listings, logged py_format r p o (Some terminal) s = [e] ∧
    c = evict (Dict.set (e_id e) (as_input_items (r_input (p_request p)) ++ e_output e, listings) (s_cache s)) ∧
    e_parent e = (prev ← previous_response_id r; (if Dict.mem prev (s_cache s) then Some prev else None)) ∧
    e_input e = (if e_parent e is Some _ then as_input_items (r_input r) else as_input_items (r_input (p_request p))).
Proof.
  unfold remember, logged. intros -> ->. destruct terminal as [| | | | | |d]; intros Hc; try (left; by simplify_eq).
  cbn [andb]. destruct (Json.truthy (field "id" d)); [|left; by simplify_eq]. right.
  apply res_bind_ok in Hc as (output & -> & (new & _ & [= <-])%res_bind_ok). by eexists _, _.
Qed.

Lemma turn_remembers s s' :
  socket_turn py_format ttl identity s s' → NoDup (ids (s_log s')) → remembers s → remembers s'.
Proof.
  destruct 1 as [s|s r p t o terminal c Hp Hc]; [done|]. cbn [s_log]. intros Hnd Hs.
  apply prepared_from in Hp as [Hprev Hin]. unfold turn_cache in Hc.
  destruct (bool_decide (o.1 = "ok"%string)) eqn:Ho.
  2: { replace (logged py_format r p o terminal s) with (@nil entry) by (unfold logged, well; rewrite Ho; by destruct terminal as [[]|]).
       unfold dropped, well. rewrite Ho, app_nil_r.
       destruct (previous_response_id (p_request p)); simplify_eq; [by apply remembers_pop|by apply remembers_idle]. }
  unfold dropped, well. rewrite Ho, app_nil_r.
  destruct terminal as [terminal|]; [|simplify_eq; cbn; rewrite app_nil_r; by destruct s].
  destruct (unstored (p_request p)) eqn:Hu.
  2: { simplify_eq. unfold logged, well. rewrite Hu, andb_false_r. cbn [andb].
       destruct terminal; rewrite app_nil_r; by destruct s. }
  destruct (remembered_logged r p o terminal s c) as [[-> ->]|(e & ls & Hlog & -> & Hparent & Hinput)]; [done..| |].
  { rewrite app_nil_r. by destruct s. }
  rewrite Hlog in *. apply remembers_add; [done..|].
  destruct (e_parent e) as [previous|] eqn:He.
  - symmetry in Hparent. apply bind_Some in Hparent as (previous' & Hr & Hmem). unfold Dict.mem in Hmem.
    destruct (Dict.get previous' (s_cache s)) as [[conv ls']|] eqn:Hget; simplify_eq.
    rewrite (Hin _ _ _ Hr Hget), <-(assoc_L (++)). rewrite <-Hinput. eapply conversation_next; [set_solver|done|].
    eapply conversation_mono; [|eapply (whole _ Hs), Dict.get_Some_elem, Hget]. set_solver.
  - rewrite <-Hinput. apply conversation_root; [set_solver|done].
Qed.
End turns.
End SocketFacts.

Module SocketProperties.
Import SocketFacts.
Section socket.
Context `{FloatText} (py_format : json → string) (ttl : option Z) (identity : string).
Notation turn := (socket_turn py_format ttl identity).

Lemma turn_grows s s' : turn s s' → ∃ l, s_log s' = s_log s ++ l.
Proof. destruct 1; [exists []; by rewrite app_nil_r|]. by eexists. Qed.

Lemma run_remembers s : rtc turn opened s → NoDup (ids (s_log s)) → remembers s.
Proof.
  refine (rtc_ind_r (λ s, NoDup (ids (s_log s)) → remembers s) opened _ _ s); [intros; apply opened_remembers|].
  intros s1 s' Hrun Hstep IH Hnd. eapply turn_remembers; [done..|]. apply IH. apply turn_grows in Hstep as [l Hl].
  unfold ids in *. rewrite Hl, fmap_app in Hnd. by eapply NoDup_app_l.
Qed.

(** C12: the continuation cache of a socket, after any turns whose responses have ids of their own: it holds no
    more than sixteen conversations, each the whole of what led to its response. A response that is not stored
    can be continued on its socket, without the store and with its whole conversation before the new items,
    until sixteen others were remembered after it or a turn that continued it failed. *)
Theorem unstored_turns_continue s :
  rtc turn opened s → NoDup (ids (s_log s)) →
  (length (s_cache s) ≤ 16)%nat ∧
  (∀ id conv listings, Dict.get id (s_cache s) = Some (conv, listings) → conversation (s_log s) id conv) ∧
  ∀ before e after, s_log s = before ++ e :: after → (length after < 16)%nat → e_id e ∉ s_failed s →
    ∃ conv listings, conversation (s_log s) (e_id e) conv ∧
      ∀ r, previous_response_id r = Some (e_id e) →
        let input := conv ++ as_input_items (r_input r) in
        prepare_ws py_format ttl identity (s_cache s) r = Ret (mkPrepared (with_input input r) None input listings).
Proof.
  intros Hrun Hnd. destruct (run_remembers _ Hrun Hnd) as [_ Hb Hw Hl]. split; [done|].
  split; [intros id conv ls Hget; by eapply Hw, Dict.get_Some_elem|].
  intros before e after Hlog Hlen Hf.
  specialize (Hl _ _ _ Hlog Hlen Hf). apply Dict.get_is_Some in Hl as [[conv ls] Hget].
  exists conv, ls. split; [by eapply Hw, Dict.get_Some_elem|].
  intros r Hr. cbn. unfold prepare_ws. by rewrite Hr, Hget.
Qed.

(** ** Calls of [_run_ws_turn] *)

(** The request of a frame that is well formed, valid and for a model the gateway serves *)
Definition accepted (raw : string) (a : ModelshipAPI) (parse : dict json → string + Request) : option Request :=
  match read_frame raw with
  | inr body =>
      match parse body with
      | inr r =>
          match get_handle (model_of r) a (mkTracker (default ""%string (model_of r)) "create_response_ws" None) with
          | (_, Ok _) => Some (with_stream r)
          | _ => None
          end
      | inl _ => None
      end
  | inl _ => None
  end.

Lemma ws_turn_cases request_id raw a parse answer room gone c t frames tracker c' :
  traces (run_ws_turn py_format ttl identity request_id raw a parse answer room gone c) t (Ok (frames, tracker, Ok c')) →
  (c' = c ∧ (∃ err error_type, frames = [error_ws_frame err] ∧ t_finished tracker = Some ("error"%string, error_type)) ∧
   (accepted raw a parse = None ∨
    ∃ r err, accepted raw a parse = Some r ∧
      traces (prepare_ws py_format ttl identity c r) t (Err (ResponsesApiError err)))) ∨
  ∃ r h p o, accepted raw a parse = Some r ∧ traces (prepare_ws py_format ttl identity c r) t (Ok p) ∧
    finish_turn py_format request_id p (answer h p) room gone c = (frames, o, Ok c') ∧ t_finished tracker = Some o.
Proof.
  unfold run_ws_turn, accepted. destruct (read_frame raw) as [err|body]; [intros [-> [= -> -> ->]]; left; eauto 10|].
  destruct (parse body) as [text|r]; [intros [-> [= -> -> ->]]; left; eauto 10|].
  change (model_of (with_stream r)) with (model_of r).
  set (tr := mkTracker _ _ _). change (mkTracker _ _ _) with tr.
  destruct (get_handle (model_of r) a tr) as [tr' [h|e]] eqn:Hh.
  - assert (t_finished tr' = None) as Hopen.
    { revert Hh. unfold get_handle. repeat case_match; by intros [= <- _]. }
    intros [(prep & t1 & t2 & -> & (r' & [= <-] & Hp)%traces_attempt & Ht)|(e & [=] & _)]%traces_bind.
    destruct prep as [p|[]]; try by destruct Ht.
    + right. destruct (finish_turn _ _ _ _ _ _ _) as [[frames' o] c''] eqn:Hf. destruct Ht as [-> [= -> -> ->]].
      rewrite app_nil_r. exists (with_stream r), h, p, o. split_and!; [done..|].
      unfold finish. rewrite Hopen. by destruct o.
    + left. destruct Ht as [-> [= -> -> ->]]. rewrite app_nil_r. split; [done|]. split; [|eauto 10].
      eexists _, _. split; [done|]. unfold finish. by rewrite Hopen.
  - assert (e = HTTPException 503 "model not ready" ∨ e = HTTPException 404 "model not found" → ∃ error_type, t_finished tr' = Some ("error"%string, error_type)) as Hfin.
    { revert Hh. unfold get_handle. repeat case_match; intros [= <- <-]; cbn; eauto; by intros [[=]|[=]]. }
    assert (e = HTTPException 503 "model not ready" ∨ e = HTTPException 404 "model not found" ∨ e = OtherError "StopIteration") as He.
    { revert Hh. unfold get_handle. repeat case_match; intros [= _ <-]; eauto. }
    destruct He as [->|[->| ->]]; intros [_ Heq]; simplify_eq; left; (split; [done|]);
      (destruct Hfin as [et Het]; [eauto|]); eauto 10.
Qed.

Lemma finished_turn request_id p answer room gone c frames o c' :
  finish_turn py_format request_id p answer room gone c = (frames, o, Ok c') →
  ∃ terminal, turn_cache py_format p o terminal c = Ok c'.
Proof.
  unfold finish_turn. destruct (send_items _ _ _ _ _) as [fs w]. destruct (w_raised w); [done|]. intros [= _ <- Hc]. eauto.
Qed.

(** what [_run_ws_turn] does with a connection's cache is a turn of its socket: a request that is refused, at
    whatever point, leaves it as it was, and one that runs changes it by its outcome and the response it ended in. *)
Theorem ws_turns_are_socket_turns s request_id raw a parse answer room gone t frames tracker c :
  traces (run_ws_turn py_format ttl identity request_id raw a parse answer room gone (s_cache s)) t
    (Ok (frames, tracker, Ok c)) →
  ∃ s', turn s s' ∧ s_cache s' = c ∧ s_log s `prefix_of` s_log s' ∧ is_Some (t_finished tracker).
Proof.
  intros [(-> & (err & et & _ & ->) & _)|(r & h & p & o & _ & Hp & Hf & ->)]%ws_turn_cases.
  - exists s. split; [constructor|]. eauto.
  - apply finished_turn in Hf as [terminal Hc]. eexists. split; [by eapply turn_run|]. cbn.
    split; [done|]. split; [by eexists|eauto].
Qed.

Definition tells (frame : dict json) : bool := type_is "error" frame || type_is "response.failed" frame.

Lemma error_frame_tells err : tells (error_ws_frame err) = true.
Proof. done. Qed.

Lemma sent_tells request_id items ending w :
  let '(frames, w') := send_items request_id items ending None w in
  (w_outcome w').1 = "error"%string →
  (w_outcome w).1 = "error"%string ∨ is_Some (w_error w') ∨ Exists (λ f, tells f = true) frames.
Proof.
  induction items as [|c items IH] in w |- *; cbn [send_items].
  - unfold turn_over, cancelled_unless_failed. repeat case_match; cbn; eauto; try done.
  - destruct c as [err|text|e| | |]; cbn [frame_of tell_before]; try apply IH.
    + specialize (IH (tell_after (CError err) (with_outcome ("error", Some "inference_error")%string w))).
      cbn [option_fmap option_map fmap]. destruct (send_items _ _ _ _ _) as [frames w'].
      intros _. right. right. apply Exists_cons_hd, error_frame_tells.
    + specialize (IH (tell_after (CEvent e) w)). cbn [option_fmap option_map fmap].
      destruct (send_items _ _ _ _ _) as [frames w']. intros He. destruct (IH He) as [Hw|[Hw|Hw]]; [|eauto|].
      * unfold tell_after in Hw. destruct (type_is "response.failed" e) eqn:Hfail.
        { right. right. apply Exists_cons_hd. unfold tells. by rewrite Hfail, orb_true_r. }
        left. by destruct (ends_turn e).
      * right. right. by apply Exists_cons_tl.
Qed.

(** C13: a turn that returns and whose client stays has an outcome that is recorded, and a failure is told: when it is an
    error, whether the frame was malformed, its request refused or its generator broke, the client is sent an error
    frame or a failed response. A turn that ran and failed takes the response it continued out of the connection's
    cache, so that it is not continued from there again; a request refused before it ran (by its frame, its body, its
    model, or its previous response) leaves the cache alone. *)
Theorem failed_turns_are_told request_id raw a parse answer gone c t frames tracker c' :
  traces (run_ws_turn py_format ttl identity request_id raw a parse answer None gone c) t (Ok (frames, tracker, Ok c')) →
  ∃ o, t_finished tracker = Some o ∧
    (o.1 = "error"%string → Exists (λ f, tells f = true) frames ∧
       match accepted raw a parse with
       | None => c' = c
       | Some r =>
           (∃ err, traces (prepare_ws py_format ttl identity c r) t (Err (ResponsesApiError err)) ∧ c' = c) ∨
           (∃ p, traces (prepare_ws py_format ttl identity c r) t (Ok p) ∧
              c' = match previous_response_id r with Some previous => Dict.pop previous c | None => c end)
       end).
Proof.
  intros [(-> & (err & et & -> & ->) & Hrefused)|(r & h & p & o & Hr & Hp & Hf & ->)]%ws_turn_cases.
  { eexists. split; [done|]. intros _. split; [apply Exists_cons_hd, error_frame_tells|].
    destruct Hrefused as [->|(r & err' & -> & Hp)]; [done|]. left. by exists err'. }
  exists o. split; [done|]. intros Ho. pose proof Hf as [terminal Hc]%finished_turn. split.
  - unfold finish_turn in Hf. pose proof (sent_tells request_id (answer h p).1 (answer h p).2 untold) as Hs.
    destruct (send_items _ _ _ _ _) as [fs w]. injection Hf as <- <- _.
    assert ((w_outcome w).1 = "error"%string) as Hw by (revert Ho; by case_match).
    destruct (Hs Hw) as [|[[err Herr]|Hs']]; [done| |]; apply Exists_app; [right|by left].
    rewrite Herr. apply Exists_cons_hd, error_frame_tells.
  - rewrite Hr. right. exists p. split; [done|].
    pose proof (prepared_from _ _ _ _ _ _ _ Hp) as [Hprev _]. unfold turn_cache in Hc. rewrite Ho, Hprev in Hc.
    rewrite bool_decide_eq_false_2 in Hc by done. by injection Hc as <-.
Qed.
End socket.
End SocketProperties.

(** ** Examples *)

Module SocketExamples.
Import SocketProperties.
#[local] Existing Instance no_floats.
Local Open Scope string_scope.

Definition said (text : string) : json :=
  JObj [("type", JStr "message"); ("role", JStr "assistant"); ("content", JStr text)].
Definition asked (text : string) : json :=
  JObj [("type", JStr "message"); ("role", JStr "user"); ("content", JStr text)].

(** A request that is not stored *)
Definition unstored_request (text : string) (previous : option string) : Request :=
  mkRequest (inl text) (JStr "m") JNull JNull JNull JNull None JNull JNull JNull JNull JNull JNull (JBool false)
    previous JNull None (JBool true) JNull.

Definition response (id text : string) : json :=
  JObj [("id", JStr id); ("output", JList [said text])].
Definition completed (id text : string) : dict json :=
  [("type", JStr "response.completed"); ("response", response id text)].

(** The first turn, and the second, which continues it *)
Definition first_turn : socket :=
  mkSocket [("resp_1", ([asked "hi"; said "hello"], []))] [mkEntry "resp_1" None [asked "hi"] [said "hello"]] [].
Definition second_turn : socket :=
  mkSocket [("resp_1", ([asked "hi"; said "hello"], []));
            ("resp_2", ([asked "hi"; said "hello"; asked "and?"; said "bye"], []))]
    [mkEntry "resp_1" None [asked "hi"] [said "hello"];
     mkEntry "resp_2" (Some "resp_1") [asked "and?"] [said "bye"]] [].

Definition text_of_json (v : json) : string := "".
Definition nobody : string := "anonymous".

Lemma two_turns : rtc (socket_turn text_of_json None nobody) opened second_turn.
Proof.
  eapply rtc_l.
  { eapply (turn_run _ _ _ opened (unstored_request "hi" None) _ [] ("ok", None) (Some (response "resp_1" "hello"))).
    - by split.
    - vm_compute. reflexivity. }
  eapply rtc_l.
  { eapply (turn_run _ _ _ first_turn (unstored_request "and?" (Some "resp_1")) _ [] ("ok", None) (Some (response "resp_2" "bye"))).
    - by split.
    - vm_compute. reflexivity. }
  apply rtc_refl.
Qed.

Lemma unstored_turns_continue_witness :
  ∃ conv listings, conversation (s_log second_turn) "resp_2" conv ∧
    prepare_ws text_of_json None nobody (s_cache second_turn) (unstored_request "so?" (Some "resp_2")) =
      Ret (mkPrepared (with_input (conv ++ [asked "so?"]) (unstored_request "so?" (Some "resp_2"))) None
             (conv ++ [asked "so?"]) listings).
Proof.
  assert (NoDup (ids (s_log second_turn))) as Hnd by (apply (bool_decide_unpack _); vm_compute; exact I).
  destruct (unstored_turns_continue text_of_json None nobody second_turn two_turns Hnd) as (_ & _ & Hlast).
  destruct (Hlast [mkEntry "resp_1" None [asked "hi"] [said "hello"]]
              (mkEntry "resp_2" (Some "resp_1") [asked "and?"] [said "bye"]) [] eq_refl) as (conv & ls & Hconv & Hprep).
  - apply (bool_decide_unpack _). vm_compute. exact I.
  - apply not_elem_of_nil.
  - exists conv, ls. split; [exact Hconv|]. apply (Hprep (unstored_request "so?" (Some "resp_2")) eq_refl).
Defined.

(** A replica that serves [m], a client's frame, and a loader that answers or breaks *)
Definition replica : ModelshipAPI := mkAPI [("m", [("app", mkHandle "app")])] ["m"] ["m"] 1 None.
Definition frame : string := dumps (JObj [("type", JStr "response.create"); ("model", JStr "m"); ("store", JBool false)]).
Definition parsed (previous : option string) (body : dict json) : string + Request := inr (unstored_request "and?" previous).
Definition answers (h : Handle) (p : prepared) : stream chunk := ([CEvent (completed "resp_2" "bye")], None).
Definition breaks (h : Handle) (p : prepared) : stream chunk := ([], Some (RuntimeError "out of memory")).

Lemma ws_turns_are_socket_turns_witness :
  ∃ s', socket_turn text_of_json None nobody first_turn s' ∧ Dict.keys (s_cache s') = ["resp_1"; "resp_2"].
Proof.
  destruct (ws_turns_are_socket_turns text_of_json None nobody first_turn "req" frame replica
              (parsed (Some "resp_1")) answers None false [] [completed "resp_2" "bye"]
              (mkTracker "m" "create_response_ws" (Some ("ok", None))) (s_cache second_turn)) as (s' & Hturn & Hc & _).
  - vm_compute. split; reflexivity.
  - exists s'. split; [exact Hturn|]. rewrite Hc. reflexivity.
Defined.

Lemma failed_turns_are_told_witness :
  Exists (λ f, tells f = true) [error_ws_frame (server_error "req" 500)] ∧
  ∃ p, traces (prepare_ws text_of_json None nobody (s_cache first_turn) (unstored_request "and?" (Some "resp_1"))) [] (Ok p).
Proof.
  destruct (failed_turns_are_told text_of_json None nobody "req" frame replica (parsed (Some "resp_1")) breaks false
              (s_cache first_turn) [] [error_ws_frame (server_error "req" 500)]
              (mkTracker "m" "create_response_ws" (Some ("error", Some "unhandled"))) []) as (o & Ho & Htold).
  - vm_compute. split; reflexivity.
  - injection Ho as <-. destruct (Htold eq_refl) as [Hsent Hcache]. split; [exact Hsent|].
    assert (accepted frame replica (parsed (Some "resp_1")) = Some (unstored_request "and?" (Some "resp_1"))) as E
      by (vm_compute; reflexivity).
    rewrite E in Hcache. destruct Hcache as [(err & _ & [=])|(p & Hp & _)]. exists p. exact Hp.
Defined.
End SocketExamples.
